(* ===== verification/_CoqProject ===== *)
-Q . S2P
Prelude.v
Prog.v
Color.v
TraceImpls.v
Options.v
BgThread.v
Graph.v
GcBox.v
World.v
Console.v
Tracing.v
State.v
HeapOps.v
Mutator.v
Marking.v
Sweeping.v
Collection.v
Client.v
Background.v
Lifecycle.v
Ownership.v
Scripts.v
ScriptRules.v
Clients.v
Demo.v
TraceDemo.v
VtableDropTest.v
Interface.v
Session.v
HeapClient.v
ClientPrograms.v
Transparency.v
HeapTransparency.v
BackgroundLeak.v
Incremental.v
ScriptLoops.v
UnitTests.v
IntegrationTests.v
Concurrent.v
MarkProtocol.v
ConcurrentMark.v
MutatorSteps.v
Mutators.v
Discipline.v
ConcurrentCycle.v
MultiThreaded.v
SweepSteps.v
SweepClients.v
ConcurrentSweep.v
SweepCycle.v
StoreDuringSweep.v
CalmClients.v
CalmPool.v
SharedHeap.v
ConcurrentTest.v
LastStore.v
BarrierTest.v
MultiThreadedSweep.v
MultiThreadedMain.v
MultiThreadedRun.v
ConcurrentExamples.v
Examples.v
Limits.v
Witnesses.v
ProgramExamples.v
