(* ===== verification/Prelude.v ===== *)
(** * abfall: a verification development for the garbage collector

    abfall is a tri-colour mark-and-sweep garbage collector with incremental
    marking, a write barrier and a background thread.  This library models the
    crate under [src/src] and proves its operations correct.

    ** The program

    - [color.rs]: the colours and the atomic colour cell of an object;
    - [gc_box.rs]: the object: a type-erased vtable, a header (colour, root
      count, link of the allocation list) and the data;
    - [trace.rs]: the [Tracer], a vector of gray objects, and the trait [Trace]
      with its implementations;
    - [ptr.rs]: [GcPtr], an unrooted pointer, and [GcRoot], which counts as a root
      while it lives; [cell.rs]: [GcCell], mutable contents with a write barrier;
    - [heap.rs]: the heap: allocation, pacing, the phases Idle, Marking and
      Sweeping, the marking loops, the sweep, the background thread;
    - [gc.rs]: the context of a thread, which the write barrier looks up.

    Client threads allocate and drop roots at any time.  A collection is started
    by [force_collect], by [collect] or by the background thread; whoever wins the
    compare-exchange from Idle to Marking scans the roots, marks until the shared
    gray queue is empty and no mutator is busy, and sweeps the allocation list.

    ** The model

    A function of the crate is a [prog]: a tree of atomic actions on one shared
    state [world].  An atomic load, store or read-modify-write, a critical section
    of a lock, and an access to a block of memory is one action each; what happens
    in between is local computation.  The same definition is run alone ([run], with
    the total-correctness calculus [wp]) and interleaved with other threads
    ([pool_step], with the rely-guarantee calculus [rg]).  A panic, the use of a
    freed block and the exhaustion of fuel are outcomes that the theorems exclude.

    File by file:
    - [Prelude]: machine integers, vectors, shared tactics and hint databases;
    - [Prog]: programs, their sequential and interleaving semantics and calculi;
    - [Color]: [color.rs] ([Color], [AtomicColor.compare_exchange], ...);
    - [TraceImpls]: types, values and the [Trace] implementations of [trace.rs],
      [ptr.rs] and [cell.rs]; code outside the crate (client types, rustc's layout,
      the allocator, the build profile) is the class [Env], and what the crate
      relies on of it is the class [TraceContract];
    - [Options]: [GcOptions] and [calculate_threshold] of [heap.rs];
    - [BgThread]: [StartStopJoinHandle] of [heap.rs];
    - [GcBox]: [gc_box.rs];
    - [World]: the shared state ([Heap], blocks, cells, thread-local contexts,
      running threads) and the atomic actions;
    - [Tracing]: [GcHeader]'s methods by address, and [Tracer];
    - [HeapOps]: every method of [Heap], [background_gc_thread] and [Drop for
      Heap], under the names of [heap.rs];
    - [Mutator]: [GcPtr], [GcRoot], [GcContext], [GcCell].

    Specifications and proofs:
    - [Graph]: the abstract heap, a graph of objects with root counts and cells:
      edges, reachability, well-formedness, the abstract client operations and the
      contract [collected] of a collection;
    - [State]: the abstraction [abs] of a world to its graph, the allocation list,
      the invariants [wf_world] and [idle];
    - [Marking]: the tri-colour invariant [tri], preserved by every marking
      operation; a full mark phase blackens exactly the reachable objects;
    - [Sweeping]: the loop invariant of the sweep, which unlinks while it walks;
    - [Collection]: [force_collect] refines [collected]; pacing, [collect],
      collecting twice, [force_collect] during another collection;
    - [Client]: each client operation on an idle heap refines its abstract one;
    - [Background]: generations of the background thread, its rounds and its end;
    - [Lifecycle]: construction and destruction of heaps and contexts;
    - [Ownership]: the [Arc] that owns the heap, shared by contexts and background
      thread: the orderly shutdown;
    - [Interface], [Session], [HeapClient]: the laws a client relies on (the class
      [CollectorLaws]), the safety of client sessions against these laws by
      induction on the steps, and the heap as an instance;
    - [ClientPrograms], [Transparency], [HeapTransparency]: client programs as lists
      of commands, run by any machine with the operations of the interface; the arena,
      a machine that never frees; the simulation between the two; the heap as an
      instance, with room for what a program allocates; [BackgroundLeak]: the heap whose
      last context goes while its background thread runs;
    - [Incremental]: mark phases that alternate with client operations: the write
      barrier, assists, and the condition under which the cycle frees nothing
      reachable;
    - [Concurrent]: threads that link new objects at the same time;
    - [MarkProtocol]: every marking operation against an interface, a protocol that
      says how the state may evolve while other threads run; [ConcurrentMark], its
      instance for threads that only mark, each with its own tracer and the shared
      gray queue;
    - [MutatorSteps], [Mutators]: the instance for client threads: what each atomic
      action of [allocate], of the smart pointers and of the write barrier does to
      the state, and each operation in the rely-guarantee calculus;
    - [Discipline], [ConcurrentCycle]: a program logic for client threads, and the
      cycle whose mark phase they run in; [MultiThreaded]: the threads of
      [examples/multi_threaded.rs] in that logic;
    - [SweepSteps], [SweepClients], [ConcurrentSweep], [SweepCycle]: client threads
      beside a thread that sweeps: what each atomic action does to the state, the
      operations and the program logic of the clients, the sweep itself, and the two
      together as the end of a cycle; [MultiThreadedSweep]: the workers of
      [examples/multi_threaded.rs] there; [StoreDuringSweep]: what becomes of a store
      that does not keep to the discipline of that logic;
    - [CalmClients], [CalmPool]: client threads while no collection runs: the program
      logic, in which every pointer may be stored, the objects counted and a collection
      asked for that is not due, and any number of such threads on an idle heap;
    - [SharedHeap]: how a program hands its heap to threads and gets it back, with the
      rules for the statements around the threads;
    - [MultiThreadedMain], [MultiThreadedRun]: [examples/multi_threaded.rs] as shipped:
      the threads of [main], and [main] itself with its final traversal;
    - [ConcurrentTest]: the unit test of [lib.rs] that has threads;
    - [ConcurrentExamples]: complete runs of these programs;
    - [Console], [Scripts], [ScriptRules]: programs that print and assert; rules that
      follow a client program statement by statement on a heap whose objects are
      known; [ScriptLoops]: the loops that the tests have in common; [UnitTests]: the
      other unit tests of [lib.rs] and [cell.rs]; [IntegrationTests]: the tests of
      [src/tests/gc_functional.rs] that run on one thread;
    - [LastStore], [BarrierTest]: what a cell holds after several threads have stored
      into it, and the integration test in which they do;
    - [Clients], [Demo], [TraceDemo], [VtableDropTest]: the client types of
      [src/examples] and the programs themselves, with what they print;
    - [Examples], [Limits], [Witnesses], [ProgramExamples]: a concrete client type and heap; runs
      outside the hypotheses, which show what the code does there; each theorem
      with hypotheses at a concrete input.

    ** What the theorems show

    Refinement: a collection keeps exactly what is reachable, unchanged, drops
    every other object once, and ends with the heap idle, its list, byte counter
    and threshold consistent; each client operation is its abstract one.  Safety:
    in every session a [GcRoot] leads to a live object whose contents do not
    change, root counts are the numbers of [GcRoot]s, nothing leaks; a cycle
    interleaved with mutators frees nothing reachable; concurrent allocation loses
    nothing, and concurrent marking blackens exactly the reachable objects.

    Transparency ([collections_transparent]): a client program, with collections of
    every kind and rounds of the background thread between its operations, shows on
    the heap exactly what it shows on the arena, which never frees and never uses an
    address twice: the same contents, the same identities of objects, and it is
    rejected by the one when it is by the other.  The proof is a simulation whose
    relation pairs the addresses of the objects that the client can still reach; a
    collection cuts it down, and the next allocation may use a freed address again.
    So the places of the collections and the options of the heap are invisible
    ([collection_requests_invisible]).  What such a program does not see are the byte counter, the number of objects and the moment at which
    destructors run; its variables hold [GcRoot]s, since a [GcPtr] outside the heap
    keeps nothing alive.
    [background_round_equivalent] compares two ways to collect: in increments, as the
    background thread does, and at once, as [force_collect] does.

    The strongest statement on concurrency is [concurrent_cycle_safe]: any number of
    threads run during a mark phase, interleaved action by action; they allocate
    (with assists), root, clone, drop, read and store (with the write barrier), ask
    for collections and statistics, and mark.  Whatever the schedule, no thread
    faults, waits or runs out of fuel, the tri-colour invariant holds, and the sweep
    that ends the cycle, after all of them have returned, frees nothing reachable.  Its
    hypothesis [fit] is the discipline that [Limits] shows to be needed: a new object
    only points to marked ones, and a pointer is rooted only if it is marked or the
    thread has a root.  [incremental_cycle_safe] has the same discipline ([mstep]).
    [concurrent_sweep_safe] continues such a cycle: client threads allocate, root, read
    and store while the sweep runs.  Under the discipline [sweep_client] (only pointers
    to marked objects, or to objects whose root is kept until the sweep is over, are
    stored) nothing reachable dangles, what was dead is freed, and all threads return.
    It does not say that the allocation list is complete afterwards: [Limits] shows that
    the sweep may lose an object that is linked meanwhile.  [store_during_sweep] is about
    a store without that discipline, in any heap: it decides which objects the sweep
    keeps, and so when the stored pointer dangles.
    [calm_threads_safe] is the third case, threads between collections: they lose and
    change nothing, all return, and the heap they leave is idle, with exactly the bytes
    that they have allocated and the roots that they still hold.  The programs with
    threads are such threads from their first statement to their last
    ([multi_threaded_runs], [concurrent_collection_passes],
    [write_barrier_test_passes]).

    Termination: every theorem that says [run p w = Done r w'] says that the code
    returns, and the interleavings of [calm_safe] and [sweep_safe] are finite and
    end with all threads returned; [concurrent_cycle_terminates] is the lemma for the
    mark phase.  [background_leak]: the thread that nobody stops does not end, and keeps
    what a root reaches.  Errors: the second context of a thread, a busy
    collector, a stopped thread.  Bounds: pacing and the counters on 64-bit
    integers.  Types: the threads between collections keep the types of the cells
    ([CellTypes]), so that [multi_threaded_runs] can follow the list that they have
    built.  Programs: the examples run to completion and print what the theorems
    say, which for two of them is that their own check fails, and for the
    multi-threaded one that no collection takes place; the unit tests and six of the
    seven integration tests pass.  In [threshold_triggers_collection] and in
    [concurrent_collection] collections are due: the background thread runs any number
    of rounds while the test sleeps, but none before.

    [Limits] has schedules and runs that break the code, each in the model and in
    safe client code: a store during the sweep, which no barrier sees; an assist that
    the end of the mark phase misses; two collections that overlap, because a cycle
    is ended twice, and free under each other; a count during the sweep; a new object lost by
    the sweep; a stale pointer; an object that was allocated during marking; a
    background thread stopped while it marks.

    ** Bounds and fuel

    [usize] is 64 bits wide; atomic additions wrap, plain ones panic in a build
    with overflow checks and wrap in one without ([usize_op]).  Loops take fuel.
    [enough_fuel w], twice the number of blocks plus two, is enough for every loop
    of a collection that starts from the idle heap [w]: each iteration of a marking
    loop removes a gray object, blackens an object or refills the tracer, and the
    list is as long as there are blocks.  [mark_fuel w] adds the length of the gray
    queue for a heap in its mark phase.  The compare-exchange loop of an allocation
    needs as many attempts as there are threads, or with other allocations going on
    as many as there may ever be objects ([capacity]): an attempt fails only when
    another object has been linked.  For threads between collections the bound is
    [calm_turns], the objects that exist and two for each one that may be allocated;
    the traversal of [multi_threaded.rs] needs one unit of fuel per object, since it
    never visits a number twice.  A client program of [HeapTransparency] allocates at
    most 2^40 bytes, so that no counter and no product of the pacing overflows.  The
    background thread takes one
    element of a list of wait results per round.

    ** What is not modelled

    - Memory orderings: the interleaving semantics is sequentially consistent.
    - Clients that run during the root scan, or between the last marking step and the
      start of the sweep, action by action: the schedules of [Limits] show what can
      happen there.  Clients run during the mark phase ([ConcurrentCycle]), during the
      sweep ([SweepCycle]) or between collections ([CalmPool], and [HeapClient] with
      collections between the steps).
    - Contexts that come and go while other threads run: the threads of
      [ConcurrentCycle], [SweepCycle] and [CalmPool] have theirs before.  In
      [multi_threaded.rs] the first barrier says so; in the test of [lib.rs] it is an
      assumption.  The barriers themselves, and pauses, are left out: they only
      exclude interleavings, and the theorems hold for all.
    - The background thread of the test of [lib.rs] with threads, before the test
      sleeps: the test relies on its not collecting before the peak of the bytes is read
      ([early_collection_panics]).  While the test sleeps it has any number of rounds,
      each of them complete.
    - That a freed block takes its cells with it: the table of cells keeps them.  What
      faults is an access to the block, which a client needs to get at its cells.
    - Destructors of client data that call back into the collector (a client type
      whose field is a [GcRoot]); a second heap in the same process.
    - [Debug] output, the wrappers [GcContext::heap] and [Deref for GcContext], which
      hand out the one heap of the state, the markers [Send], [Sync] and [Copy] of the pointer types.
    - The re-exports of [lib.rs]; benches.
    - [concurrent_alloc_and_collect_no_race] of [tests/gc_functional.rs]: its threads
      pass the threshold and collect while others allocate, and [Limits] shows what may
      happen then (an object lost by the sweep, an assist that ends the marking early,
      and [overlapping_collections_fault], in which three threads do what its threads do
      and one of them reads a freed object): it does not pass in every interleaving.
    - The background thread's loop as one of the threads of [ConcurrentCycle]: it spins
      while another thread is marking, so that it only terminates under a fair schedule;
      its marking steps are the marking threads of that file. *)

From stdpp Require Export prelude gmap list.
From Stdlib Require Export ZArith Lia.

#[global] Set Default Goal Selector "!".

(** ** Machine integers

    [usize] and [u8] values are kept as [Z]; the operations that can leave the
    range write their wrap-around out.  The crate is built for 64-bit targets
    (the documentation gives "GcPtr is pointer-sized (8 bytes on 64-bit)"). *)

Open Scope Z_scope.

Definition usize_bits : Z := 64.
Definition usize_modulus : Z := 2 ^ usize_bits.
Definition usize_max : Z := usize_modulus - 1.
Definition usize_wrap (z : Z) : Z := z mod usize_modulus.
Definition is_usize (z : Z) : Prop := 0 ≤ z ≤ usize_max.

(** [AtomicUsize::fetch_add] and [fetch_sub] wrap around on overflow in every
    build profile. *)
Definition usize_fetch_add (z d : Z) : Z := usize_wrap (z + d).
Definition usize_fetch_sub (z d : Z) : Z := usize_wrap (z - d).

(** The plain [+], [-], [*] operators on [usize]: [None] is the overflow panic
    of a build with overflow checks; without them the result wraps. *)
Definition usize_op (overflow_checks : bool) (z : Z) : option Z :=
  if bool_decide (is_usize z) then Some z
  else if overflow_checks then None else Some (usize_wrap z).

(** The plain operators on [i32]. *)
Definition is_i32 (z : Z) : Prop := -2147483648 ≤ z ≤ 2147483647.
Definition i32_op (overflow_checks : bool) (z : Z) : option Z :=
  if bool_decide (is_i32 z) then Some z
  else if overflow_checks then None else Some ((z + 2147483648) mod 4294967296 - 2147483648).

(** ** Addresses *)

(** Addresses of heap blocks.  A raw pointer that may be null is an
    [option loc], with [None] for [null_mut()]. *)
Abbreviation loc := nat.

(** ** Vectors

    A [Vec<T>] is the list of its elements in index order: [push] appends at
    the end, [pop] removes the last element. *)

Definition vec_push {A} (l : list A) (x : A) : list A := l ++ [x].

Fixpoint vec_pop {A} (l : list A) : option (A * list A) :=
  match l with
  | [] => None
  | [x] => Some (x, [])
  | y :: l' =>
      match vec_pop l' with
      | Some (x, r) => Some (x, y :: r)
      | None => None
      end
  end.

(** ** Automation *)

Create HintDb gc discriminated.
Create Rewrite HintDb gc_simpl.

(** Turn boolean comparisons on [Z] in the context and the goal into
    propositions, then call [lia]. *)
Ltac bool_lia :=
  repeat match goal with
  | H : (_ <? _) = true |- _ => apply Z.ltb_lt in H
  | H : (_ <? _) = false |- _ => apply Z.ltb_ge in H
  | H : (_ =? _) = true |- _ => apply Z.eqb_eq in H
  | H : (_ =? _) = false |- _ => apply Z.eqb_neq in H
  | |- (_ <? _) = true => apply Z.ltb_lt
  | |- (_ <? _) = false => apply Z.ltb_ge
  | |- (_ =? _) = true => apply Z.eqb_eq
  | |- (_ =? _) = false => apply Z.eqb_neq
  end; lia.

(** Split conjunctions and existentials of the context. *)
Ltac split_hyps :=
  repeat match goal with
  | H : _ ∧ _ |- _ => destruct H
  | H : ∃ _, _ |- _ => destruct H
  end.

(** ** Lemmas on machine integers *)

Lemma usize_modulus_pos : 0 < usize_modulus.
Proof. reflexivity. Qed.

Lemma is_usize_0 : is_usize 0.
Proof. split; [lia|]. vm_compute. discriminate. Qed.

Lemma is_usize_1 : is_usize 1.
Proof. split; [lia|]. vm_compute. discriminate. Qed.

Lemma usize_wrap_small z : is_usize z → usize_wrap z = z.
Proof. intros H. apply Z.mod_small. unfold is_usize, usize_max in H. lia. Qed.

Lemma usize_wrap_range z : is_usize (usize_wrap z).
Proof.
  unfold is_usize, usize_wrap, usize_max.
  pose proof (Z.mod_pos_bound z usize_modulus usize_modulus_pos). lia.
Qed.

Lemma usize_add_sub z d : is_usize z → usize_fetch_sub (usize_fetch_add z d) d = z.
Proof.
  intros Hz. unfold usize_fetch_sub, usize_fetch_add, usize_wrap.
  rewrite Zminus_mod_idemp_l. replace (z + d - d) with z by lia.
  by apply usize_wrap_small.
Qed.

Lemma usize_fetch_add_small z d :
  is_usize (z + d) → usize_fetch_add z d = z + d.
Proof. apply usize_wrap_small. Qed.

Lemma usize_fetch_sub_small z d :
  is_usize (z - d) → usize_fetch_sub z d = z - d.
Proof. apply usize_wrap_small. Qed.

Lemma usize_op_Some c z : is_usize z → usize_op c z = Some z.
Proof. intros H. unfold usize_op. by rewrite bool_decide_eq_true_2. Qed.

Lemma i32_op_Some c z : is_i32 z → i32_op c z = Some z.
Proof. intros H. unfold i32_op. by rewrite bool_decide_eq_true_2. Qed.

Lemma usize_op_range c z r : usize_op c z = Some r → is_usize r.
Proof.
  unfold usize_op. case_bool_decide; [by intros [= <-]|].
  destruct c; [done|]. intros [= <-]. apply usize_wrap_range.
Qed.

#[export] Hint Rewrite @length_app @length_cons @length_nil : gc_simpl.
#[export] Hint Resolve usize_wrap_range usize_wrap_small : gc.

(** ** Lemmas on vectors *)

Lemma vec_pop_push {A} (l : list A) (x : A) : vec_pop (vec_push l x) = Some (x, l).
Proof.
  unfold vec_push. induction l as [|y l IH]; [done|]. cbn.
  rewrite IH. by destruct l.
Qed.

Lemma vec_pop_Some {A} (l : list A) x r : vec_pop l = Some (x, r) ↔ l = vec_push r x.
Proof.
  split; [|intros ->; apply vec_pop_push].
  revert x r. induction l as [|y l IH]; [done|]. intros x r.
  cbn. destruct l as [|z l]; [intros [= <- <-]; done|].
  destruct (vec_pop (z :: l)) as [[x' r']|] eqn:E; [|done].
  intros [= <- <-]. rewrite (IH _ _ eq_refl). done.
Qed.

Lemma vec_pop_None {A} (l : list A) : vec_pop l = None ↔ l = [].
Proof.
  split; [|by intros ->]. destruct l as [|x l] using rev_ind; [done|].
  change (l ++ [x]) with (vec_push l x). by rewrite vec_pop_push.
Qed.
