(* ===== verification/Prog.v ===== *)
(** * Programs as sequences of atomic actions

    The collector is concurrent code: its functions are sequences of atomic
    loads, stores, read-modify-write operations and short critical sections on
    shared state, with thread-local computation in between.  [prog A] is such a
    function with a result of type [A]: a tree whose nodes are atomic actions.
    The same definition is run alone ([run], sequential semantics) and
    interleaved with other threads ([pool_step], one atomic action at a time,
    sequentially consistent).

    This file holds the type, its monad, the sequential semantics with a
    weakest-precondition calculus for total correctness, and the interleaving
    semantics with a rely-guarantee calculus. *)

From S2P Require Import Prelude.
From stdpp Require Import relations.

(** ** Results of an action *)

Inductive panic_reason :=
  | ArithmeticOverflow
  | ContextAlreadySet
  | AssertionFailed
  | UnwrapOnNone
  | IndexOutOfBounds.

Inductive fault :=
  | UseAfterFree (a : loc)       (* access to a block that is not allocated *)
  | Panic (r : panic_reason)
  | IllTyped.                    (* a state the type system of Rust excludes *)

(** What an atomic action does in a state: it completes, it has to wait (a join
    of a thread that still runs), it faults, or the fuel of the loop that issued
    it is used up. *)
Inductive outcome (W X : Type) :=
  | Done (x : X) (w : W)
  | Blocked
  | Fault (f : fault)
  | NoFuel.
Arguments Done {W X} _ _.
Arguments Blocked {W X}.
Arguments Fault {W X} _.
Arguments NoFuel {W X}.

Inductive prog (W A : Type) :=
  | Ret (a : A)
  | Act {X : Type} (f : W → outcome W X) (k : X → prog W A).
Arguments Ret {W A} _.
Arguments Act {W A X} _ _.

Declare Scope gc_scope.
Delimit Scope gc_scope with gc.

Section prog.
Context {W : Type}.

Fixpoint bind {A B} (p : prog W A) (k : A → prog W B) : prog W B :=
  match p with
  | Ret a => k a
  | Act f k' => Act f (λ x, bind (k' x) k)
  end.

Definition action {X} (f : W → outcome W X) : prog W X := Act f Ret.

(** Atomic read of a part of the state, atomic read-modify-write, fault, and
    the exhausted loop. *)
Definition get {X} (f : W → X) : prog W X := action (λ w, Done (f w) w).
Definition modify (f : W → W) : prog W unit := action (λ w, Done tt (f w)).
Definition throw {X} (e : fault) : prog W X := action (λ _, Fault e).
Definition out_of_fuel {X} : prog W X := action (λ _, NoFuel).

(** [None] is an arithmetic overflow panic. *)
Definition checked {X} (o : option X) : prog W X :=
  match o with
  | Some x => Ret x
  | None => throw (Panic ArithmeticOverflow)
  end.

(** ** Sequential semantics *)

Fixpoint run {A} (p : prog W A) (w : W) : outcome W A :=
  match p with
  | Ret a => Done a w
  | Act f k =>
      match f w with
      | Done x w' => run (k x) w'
      | Blocked => Blocked
      | Fault e => Fault e
      | NoFuel => NoFuel
      end
  end.

(** Total correctness: the program runs to completion, without fault, and its
    result and final state satisfy [Q]. *)
Fixpoint wp {A} (p : prog W A) (Q : A → W → Prop) (w : W) : Prop :=
  match p with
  | Ret a => Q a w
  | Act f k =>
      match f w with
      | Done x w' => wp (k x) Q w'
      | _ => False
      end
  end.

(** ** Interleaving semantics *)

Abbreviation pool := (list (prog W unit)).

(** One thread of the pool performs its next atomic action. *)
Inductive pool_step : pool * W → pool * W → Prop :=
  | pool_act (tp : pool) (i : nat) {X} (f : W → outcome W X) k x w w' :
      tp !! i = Some (Act f k) →
      f w = Done x w' →
      pool_step (tp, w) (<[i := k x]> tp, w').

(** A thread of the pool cannot perform its next action: it is about to fault, to
    run out of fuel or to wait. *)
Definition pool_stuck (c : pool * W) : Prop :=
  ∃ i X (f : W → outcome W X) k, c.1 !! i = Some (Act f k) ∧ ∀ x w, f c.2 ≠ Done x w.

(** The executable form: a schedule names the thread that moves next. *)
Fixpoint run_sched (sched : list nat) (tp : pool) (w : W) : outcome W pool :=
  match sched with
  | [] => Done tp w
  | i :: sched' =>
      match tp !! i with
      | Some (Act f k) =>
          match f w with
          | Done x w' => run_sched sched' (<[i := k x]> tp) w'
          | Blocked => Blocked
          | Fault e => Fault e
          | NoFuel => NoFuel
          end
      | _ => Blocked
      end
  end.

(** ** Rely-guarantee

    The assertions are about the state and a ghost state [Gh], which only the
    proofs update.  [rg R G p Q s]: from [s], if every step of the environment is in
    [R], each atomic action of [p] is, with some update of the ghost state, a [G]
    step that neither faults nor waits, no loop of [p] runs out of fuel, and a
    result is returned in states of [Q]. *)
Fixpoint rg {Gh A} (R G : W * Gh → W * Gh → Prop) (p : prog W A)
    (Q : A → W * Gh → Prop) (s : W * Gh) : Prop :=
  match p with
  | Ret a => ∀ s', rtc R s s' → Q a s'
  | Act f k => ∀ s', rtc R s s' →
      match f s'.1 with
      | Done x w => ∃ g, G s' (w, g) ∧ rg R G (k x) Q (w, g)
      | Blocked | Fault _ | NoFuel => False
      end
  end.

End prog.

Notation "x ← y ; z" := (bind y (λ x : _, z))
  (at level 20, y at level 100, z at level 200, only parsing) : gc_scope.
Notation "' x ← y ; z" := (bind y (λ x : _, z))
  (at level 20, x pattern, y at level 100, z at level 200, only parsing) : gc_scope.
Notation "x ;; z" := (bind x (λ _, z))
  (at level 100, z at level 200, only parsing, right associativity) : gc_scope.
Arguments bind {W A B} p k : simpl nomatch.

(** ** Laws *)

Section laws.
Context {W : Type}.
Implicit Types w : W.

Lemma bind_Ret_l {A B} (a : A) (k : A → prog W B) : bind (Ret a) k = k a.
Proof. done. Qed.

Lemma run_bind {A B} (p : prog W A) (k : A → prog W B) w :
  run (bind p k) w =
    match run p w with
    | Done a w' => run (k a) w'
    | Blocked => Blocked
    | Fault e => Fault e
    | NoFuel => NoFuel
    end.
Proof.
  revert w. induction p as [a|X f k' IH]; intros w; [done|].
  cbn. destruct (f w) as [x w'| | |]; [apply IH|done..].
Qed.

Lemma wp_run {A} (p : prog W A) Q w :
  wp p Q w ↔ ∃ a w', run p w = Done a w' ∧ Q a w'.
Proof.
  revert w. induction p as [a|X f k IH]; intros w; cbn.
  - split; [by eauto|]. intros (b & w' & Heq & ?). by simplify_eq.
  - destruct (f w) as [x w'| | |]; [apply IH|..];
      (split; [done|intros (a & w' & [=] & _)]).
Qed.

Lemma wp_Done {A} (p : prog W A) Q w a w' : wp p Q w → run p w = Done a w' → Q a w'.
Proof. intros (b & w2 & Hrun & HQ)%wp_run Hr. rewrite Hrun in Hr. by simplify_eq. Qed.

Lemma wp_bind {A B} (p : prog W A) (k : A → prog W B) Q w :
  wp (bind p k) Q w ↔ wp p (λ a, wp (k a) Q) w.
Proof.
  revert w. induction p as [a|X f k' IH]; intros w; [done|].
  cbn. destruct (f w) as [x w'| | |]; [apply IH|done..].
Qed.

Lemma wp_mono {A} (p : prog W A) (P Q : A → W → Prop) w :
  wp p P w → (∀ a w', P a w' → Q a w') → wp p Q w.
Proof. rewrite !wp_run. intros (a & w' & ? & ?) HQ. exists a, w'. auto. Qed.

Lemma wp_bind_mono {A B} (p : prog W A) (k : A → prog W B) P Q w :
  wp p P w → (∀ a w', P a w' → wp (k a) Q w') → wp (bind p k) Q w.
Proof. intros. rewrite wp_bind. by eapply wp_mono. Qed.

Lemma wp_and {A} (p : prog W A) P Q w :
  wp p P w → wp p Q w → wp p (λ a w', P a w' ∧ Q a w') w.
Proof.
  rewrite !wp_run. intros (a & w1 & H1 & ?) (b & w2 & H2 & ?).
  rewrite H1 in H2. simplify_eq. eauto.
Qed.

Lemma rg_rely {Gh A} (R G : W * Gh → W * Gh → Prop) (p : prog W A) Q s s' :
  rg R G p Q s → rtc R s s' → rg R G p Q s'.
Proof.
  intros H Hr. destruct p as [a|X f k]; intros s'' Hr'; apply (H s'');
    by transitivity s'.
Qed.

Lemma rg_bind {Gh A B} (R G : W * Gh → W * Gh → Prop) (p : prog W A) (k : A → prog W B) P Q s :
  rg R G p P s → (∀ a s', P a s' → rg R G (k a) Q s') → rg R G (bind p k) Q s.
Proof.
  intros Hp Hk. revert s Hp. induction p as [a|X f k' IH]; intros s Hp.
  - apply Hk. by apply Hp.
  - intros s' Hs'. specialize (Hp s' Hs').
    destruct (f s'.1) as [x w| | |]; [|done..].
    destruct Hp as (g & HG & Hp). exists g. split; [done|]. by apply IH.
Qed.

Lemma rg_mono {Gh A} (R G : W * Gh → W * Gh → Prop) (p : prog W A) (P Q : A → W * Gh → Prop) s :
  rg R G p P s → (∀ a s', P a s' → Q a s') → rg R G p Q s.
Proof.
  revert s. induction p as [a|X f k IH]; intros s; cbn; [auto|].
  intros Hp HPQ s' Hr. specialize (Hp s' Hr).
  destruct (f s'.1); [|done..]. destruct Hp as (g & ? & Hp). eauto.
Qed.

(** Fewer steps of the other threads. *)
Lemma rg_weaken {Gh A} (R R' G : W * Gh → W * Gh → Prop) (p : prog W A) Q s :
  (∀ u v, R' u v → R u v) → rg R G p Q s → rg R' G p Q s.
Proof.
  intros HR. assert (∀ u v, rtc R' u v → rtc R u v) as Hrt.
  { intros u v. apply rtc_subrel. exact HR. }
  revert s. induction p as [a|X f k IH]; intros s; cbn; [auto|].
  intros Hp s' Hr. specialize (Hp s' (Hrt _ _ Hr)).
  destruct (f s'.1); [|done..]. destruct Hp as (g & ? & Hp). eauto.
Qed.

(** An assertion that every step keeps. *)
Lemma rg_frame {Gh A} (R G : W * Gh → W * Gh → Prop) (p : prog W A) Q (I : W * Gh → Prop) s :
  (∀ u v, R u v → I u → I v) → (∀ u v, G u v → I u → I v) → I s →
  rg R G p Q s → rg R G p (λ a s', Q a s' ∧ I s') s.
Proof.
  intros HR HG. assert (∀ u v, rtc R u v → I u → I v) as Hrt by (induction 1; eauto).
  revert s. induction p as [a|X f k IH]; intros s Hi; cbn; [eauto|].
  intros Hp s' Hr. specialize (Hp s' Hr). pose proof (Hrt _ _ Hr Hi) as Hi'.
  destruct (f s'.1); [|done..]. destruct Hp as (g & Hg & Hp). exists g. split; [done|].
  apply IH; [by eapply HG|done].
Qed.

Section pool.
Context {Gh : Type}.
Variables (R G : nat → W * Gh → W * Gh → Prop) (Q : nat → unit → W * Gh → Prop).
Hypothesis HGR : ∀ i j, i ≠ j → ∀ u v, G j u v → R i u v.

(** The specification of a pool in a state. *)
Definition pool_spec (tp : list (prog W unit)) (s : W * Gh) : Prop :=
  ∀ i p, tp !! i = Some p → rg (R i) (G i) p (Q i) s.

(** Threads whose guarantees are within each other's relies keep their
    specifications along every interleaving; so does an assertion [I] that every
    guarantee preserves. *)
Lemma pool_rg_step I tp w g tp' w' :
  (∀ i s s', G i s s' → I s → I s') →
  pool_step (tp, w) (tp', w') → pool_spec tp (w, g) → I (w, g) →
  ∃ g', pool_spec tp' (w', g') ∧ I (w', g').
Proof.
  intros HI Hs Hall Hi0. inversion Hs as [? i X f k x ? ? Hi Hf]; simplify_eq.
  pose proof (Hall i _ Hi (w, g) (rtc_refl _ _)) as Hst. cbn in Hst. rewrite Hf in Hst.
  destruct Hst as (g' & HG & Hk). exists g'. split; [|by eapply HI].
  intros j p Hj. destruct (decide (i = j)) as [->|Hne].
  - assert (j < length tp)%nat by (by eapply lookup_lt_Some).
    rewrite list_lookup_insert_eq in Hj by done. by simplify_eq.
  - rewrite list_lookup_insert_ne in Hj by done.
    eapply rg_rely; [by apply Hall|]. apply rtc_once. by apply (HGR j i).
Qed.

Lemma pool_rg I c c' g :
  (∀ i s s', G i s s' → I s → I s') →
  rtc pool_step c c' → pool_spec c.1 (c.2, g) → I (c.2, g) →
  ∃ g', pool_spec c'.1 (c'.2, g') ∧ I (c'.2, g').
Proof.
  intros HI Hs. revert g. induction Hs as [|[tp1 w1] [tp2 w2] c3 Hs _ IH]; intros g.
  { by exists g. }
  intros Hall Hi. destruct (pool_rg_step I _ _ _ _ _ HI Hs Hall Hi) as (g2 & ? & ?).
  by apply (IH g2).
Qed.

Lemma pool_rg_not_stuck tp w g : pool_spec tp (w, g) → ¬ pool_stuck (tp, w).
Proof.
  intros Hall (i & X & f & k & Hi & Hf).
  specialize (Hall i _ Hi (w, g) (rtc_refl _ _)). cbn in *.
  destruct (f w) as [x w'| | |]; [by eapply Hf|done..].
Qed.

(** A thread that has returned has established its postcondition. *)
Lemma pool_rg_done tp s i : pool_spec tp s → tp !! i = Some (Ret tt) → Q i tt s.
Proof. intros Hall Hi. apply (Hall i _ Hi s). constructor. Qed.

End pool.

Lemma pool_steps_length (c c' : list (prog W unit) * W) :
  rtc pool_step c c' → length c'.1 = length c.1.
Proof.
  induction 1 as [|c1 c2 c3 Hst _ IH]; [done|]. rewrite IH. destruct Hst. cbn.
  apply length_insert.
Qed.

(** In a pool that is not stuck, some thread can move unless all have returned. *)
Lemma pool_acting (tp : list (prog W unit)) :
  Forall (λ p, p = Ret tt) tp ∨ ∃ i X (f : W → outcome W X) k, tp !! i = Some (Act f k).
Proof.
  induction tp as [|[[]|X f k] tp IH]; [by left| |by right; exists 0%nat, X, f, k].
  destruct IH as [?|(i & X & f & k & Hi)]; [left; by constructor|].
  right. by exists (Datatypes.S i), X, f, k.
Qed.

Lemma pool_progress (tp : list (prog W unit)) w :
  ¬ pool_stuck (tp, w) → Forall (λ p, p = Ret tt) tp ∨ ∃ c, pool_step (tp, w) c.
Proof.
  intros Hn. destruct (pool_acting tp) as [?|(i & X & f & k & Hi)]; [by left|right].
  destruct (f w) as [x w'| | |] eqn:Hf; [by eexists; econstructor|..];
    destruct Hn; exists i, X, f, k; (split; [done|]); intros; cbn; by rewrite Hf.
Qed.

(** Every interleaving is finite: an action leaves a smaller program. *)
Definition sub_prog (p' p : prog W unit) : Prop :=
  match p with Ret _ => False | Act f k => ∃ x, p' = k x end.

Definition sub_pool (tp' tp : list (prog W unit)) : Prop :=
  ∃ i p p', tp !! i = Some p ∧ sub_prog p' p ∧ tp' = <[i := p']> tp.

Lemma sub_prog_acc p : Acc sub_prog p.
Proof. induction p as [a|X f k IH]; constructor; intros p'; [done|]. intros [x ->]. apply IH. Qed.

Lemma sub_pool_acc tp : Acc sub_pool tp.
Proof.
  induction tp as [|p tp IH]; [constructor; by intros tp' (i & p & p' & ? & _)|].
  pose proof (sub_prog_acc p) as Hp. revert tp IH. induction Hp as [p _ IHp].
  intros tp Htp. pose proof Htp as Htp0. induction Htp as [tp _ IHtp].
  constructor. intros tp' ([|i] & p1 & p' & Hi & Hs & ->); cbn in *.
  - simplify_eq. by apply IHp.
  - apply IHtp; [|eapply Acc_inv; [exact Htp0|]]; by exists i, p1, p'.
Qed.

Lemma pool_step_acc (c : list (prog W unit) * W) : Acc (flip pool_step) c.
Proof.
  destruct c as [tp w]. pose proof (sub_pool_acc tp) as Htp. revert w.
  induction Htp as [tp _ IH]. intros w. constructor. intros [tp' w'] Hs.
  inversion Hs as [? i X f k x ? ? Hi Hf]; simplify_eq. apply IH.
  exists i, (Act f k), (k x). split; [done|]. split; [by exists x|done].
Qed.

(** The schedule form is sound for the relational form. *)
Lemma run_sched_steps sched tp w tp' w' :
  run_sched sched tp w = Done tp' w' → rtc pool_step (tp, w) (tp', w').
Proof.
  revert tp w. induction sched as [|i sched IH]; intros tp w; cbn.
  { by intros [= <- <-]. }
  destruct (tp !! i) as [[?|X f k]|] eqn:Hi; [done| |done].
  destruct (f w) as [x w1| | |] eqn:Hf; [|done..].
  intros Hr. eapply rtc_l; [by econstructor|]. by apply IH.
Qed.

End laws.

(** From here on [bind] only goes away through [wp_bind] and [run_bind]. *)
#[global] Arguments bind : simpl never.

(** ** Automation *)

(** The next action of a program, under [wp] and under [run]. *)
Ltac wp_next := rewrite wp_bind; cbn.
Ltac run_next := rewrite run_bind; cbn.

(** From a specification of [p] that says what its result and final state are to
    the run. *)
Lemma wp_run_eq {W A} (p : prog W A) r (w1 w : W) :
  wp p (λ a w', a = r ∧ w' = w1) w → run p w = Done r w1.
Proof. intros (a & w' & Hrun & -> & ->)%wp_run. done. Qed.
