(* ===== verification/Color.v ===== *)
(** * Object colours ([src/src/color.rs])

    [Color] and its [u8] representation, and the atomic cell [AtomicColor] that
    every object header holds.  Each operation of the cell is one atomic
    transition of its contents; the memory orderings do not appear, since the
    model is sequentially consistent. *)

From S2P Require Import Prelude.

Open Scope Z_scope.

Inductive Color := White | Gray | Black.

#[export] Instance Color_eq_dec : EqDecision Color.
Proof. solve_decision. Defined.

(** [color as u8] *)
Definition Color_as_u8 (c : Color) : Z :=
  match c with White => 0 | Gray => 1 | Black => 2 end.

(** [impl From<u8> for Color] *)
Definition Color_from (value : Z) : Color :=
  if value =? 0 then White
  else if value =? 1 then Gray
  else if value =? 2 then Black
  else White.

Module AtomicColor.

Record t := mk { inner : Z }.

Definition new (color : Color) : t := mk (Color_as_u8 color).

Definition load (s : t) : Color := Color_from (inner s).

Definition store (s : t) (color : Color) : t := mk (Color_as_u8 color).

(** [compare_exchange]: the comparison is on the raw bytes; the result carries
    the previous colour ([inl] is [Ok], [inr] is [Err]). *)
Definition compare_exchange (s : t) (current new : Color) : (Color + Color) * t :=
  if inner s =? Color_as_u8 current
  then (inl (Color_from (inner s)), mk (Color_as_u8 new))
  else (inr (Color_from (inner s)), s).

Definition is_ok {A B} (r : A + B) : bool :=
  match r with inl _ => true | inr _ => false end.

Definition mark_white_to_gray (s : t) : bool * t :=
  let '(r, s') := compare_exchange s White Gray in (is_ok r, s').

Definition mark_black (s : t) : t := store s Black.

Definition reset_white (s : t) : t := store s White.

Definition is_white (s : t) : bool := bool_decide (load s = White).

(** The cells that the operations of the module produce hold one of the three
    representations. *)
Definition valid (s : t) : Prop := ∃ c, inner s = Color_as_u8 c.

End AtomicColor.

(** ** The representation *)

Lemma Color_from_as_u8 c : Color_from (Color_as_u8 c) = c.
Proof. by destruct c. Qed.

Lemma Color_as_u8_inj c c' : Color_as_u8 c = Color_as_u8 c' → c = c'.
Proof. by destruct c, c'. Qed.

Lemma load_new c : AtomicColor.load (AtomicColor.new c) = c.
Proof. apply Color_from_as_u8. Qed.

Lemma load_store s c : AtomicColor.load (AtomicColor.store s c) = c.
Proof. apply Color_from_as_u8. Qed.

Lemma valid_new c : AtomicColor.valid (AtomicColor.new c).
Proof. by exists c. Qed.

Lemma valid_store s c : AtomicColor.valid (AtomicColor.store s c).
Proof. by exists c. Qed.

(** The representation of colours round-trips, a byte that represents no
    colour reads as [White], and a cell returns the colour last stored. *)
Theorem color_roundtrip :
  (∀ c, Color_from (Color_as_u8 c) = c) ∧
  (∀ z, (∀ c, z ≠ Color_as_u8 c) → Color_from z = White) ∧
  (∀ s c, AtomicColor.load (AtomicColor.store s c) = c) ∧
  (∀ c, AtomicColor.load (AtomicColor.new c) = c).
Proof.
  split_and!; [apply Color_from_as_u8| |apply load_store|apply load_new].
  intros z Hz. unfold Color_from.
  pose proof (Hz White). pose proof (Hz Gray). pose proof (Hz Black). cbn in *.
  rewrite !(proj2 (Z.eqb_neq _ _)) by done. done.
Qed.

(** Of several attempts to turn a white object gray exactly the first
    succeeds, and an attempt on a marked object changes nothing. *)
Theorem mark_white_to_gray_correct s :
  AtomicColor.valid s →
  let '(ok, s') := AtomicColor.mark_white_to_gray s in
  ok = AtomicColor.is_white s ∧ AtomicColor.valid s' ∧
  AtomicColor.is_white s' = false ∧
  AtomicColor.load s' = (if ok then Gray else AtomicColor.load s) ∧
  AtomicColor.mark_white_to_gray s' = (false, s').
Proof. destruct s as [z]. intros [c Hc]. cbn in Hc. subst. destruct c; cbn;
    (split_and!; [done|first [by exists Gray | by exists Black]|done..]).
Qed.
