(* ===== verification/TraceImpls.v ===== *)
(** * The [Trace] trait and its implementations ([src/src/trace.rs])

    The types whose values can be stored in the collected heap, their values,
    the constant [NO_TRACE] of each type and the [trace] method of each value.

    The trait is implemented in the crate for the scalar types, the smart
    pointers, the collections, the maps, [Result], [Option], arrays, [GcPtr]
    ([src/src/ptr.rs]) and [GcCell] ([src/src/cell.rs]).  The implementations of
    client types are code outside the crate: they are the fields
    [user_NO_TRACE] and [user_trace] of the environment, and the contract in the
    trait's safety section is [TraceContract].

    A [GcCell] is a memory location; its contents live in a store of cells, so
    that two paths to one cell alias.  [GcCell::new] and [set] require the
    contents to be [Copy]. *)

From S2P Require Import Prelude.

Open Scope Z_scope.

(** ** Types *)

(** The types of the macro [impl_no_trace!]. *)
Inductive prim :=
  | Unit | I8 | I16 | I32 | I64 | I128 | Isize
  | U8 | U16 | U32 | U64 | U128 | Usize
  | F32 | F64 | Bool | Char | StringT | Str | Infallible | PhantomData.

(** The types of [impl_trace_deref!], [impl_trace_iterable!], [impl_trace_map!]. *)
Inductive deref_kind := Box | Rc | Arc.
Inductive iter_kind := Vec | VecDeque | HashSet | BTreeSet.
Inductive map_kind := HashMap | BTreeMap.

Inductive ty :=
  | TPrim (p : prim)
  | TDeref (k : deref_kind) (t : ty)
  | TIter (k : iter_kind) (t : ty)
  | TMap (k : map_kind) (tk tv : ty)
  | TResult (t e : ty)
  | TOption (t : ty)
  | TArray (t : ty) (n : nat)
  | TGcPtr (t : ty)
  | TGcCell (t : ty)
  | TUser (u : nat).

#[export] Instance prim_eq_dec : EqDecision prim.
Proof. solve_decision. Defined.
#[export] Instance deref_kind_eq_dec : EqDecision deref_kind.
Proof. solve_decision. Defined.
#[export] Instance iter_kind_eq_dec : EqDecision iter_kind.
Proof. solve_decision. Defined.
#[export] Instance map_kind_eq_dec : EqDecision map_kind.
Proof. solve_decision. Defined.
#[export] Instance ty_eq_dec : EqDecision ty.
Proof. solve_decision. Defined.

(** ** Values *)

(** The payload of a scalar is opaque.  A [GcPtr<T>] carries its static pointee
    type, which [Tracer::mark] reads as [T::NO_TRACE].  The elements of a
    collection or map are in iteration order. *)
Inductive val :=
  | VPrim (p : prim) (payload : Z)
  | VDeref (k : deref_kind) (v : val)
  | VIter (k : iter_kind) (vs : list val)
  | VMap (k : map_kind) (kvs : list (val * val))
  | VOk (v : val)
  | VErr (v : val)
  | VSome (v : val)
  | VNone
  | VArray (vs : list val)
  | VGcPtr (t : ty) (a : loc)
  | VGcCell (c : loc)
  | VUser (u : nat) (fields : list val).

(** What tracing a value does with the tracer: it calls [Tracer::mark] on a
    pointer, or it reads a cell and traces the contents. *)
Inductive treq :=
  | RMark (t : ty) (a : loc)
  | RCell (c : loc).

#[export] Instance treq_eq_dec : EqDecision treq.
Proof. solve_decision. Defined.

(** ** The environment: code outside the crate *)

(** - [user_fields u] are the field types of the client type [u] and
      [user_copy u] says whether it implements [Copy];
    - [user_NO_TRACE u] and [user_trace u fields] are its [Trace]
      implementation;
    - [layout_size t] is the size rustc gives [GcBox<t>];
    - [malloc used] is the address that the global allocator returns when the
      blocks [used] are allocated;
    - [overflow_checks] is the build profile. *)
Class Env := {
  user_fields : nat → list ty;
  user_copy : nat → bool;
  user_NO_TRACE : nat → bool;
  user_trace : nat → list val → list treq;
  layout_size : ty → Z;
  malloc : gset loc → loc;
  overflow_checks : bool;
}.

Section trace.
Context `{Env}.

(** ** [NO_TRACE] *)

Fixpoint NO_TRACE (t : ty) : bool :=
  match t with
  | TPrim _ => true
  | TDeref _ t => NO_TRACE t
  | TIter _ t => NO_TRACE t
  | TMap _ tk tv => NO_TRACE tk && NO_TRACE tv
  | TResult t e => NO_TRACE t && NO_TRACE e
  | TOption t => NO_TRACE t
  | TArray t _ => NO_TRACE t
  | TGcPtr _ => false
  | TGcCell _ => false
  | TUser u => user_NO_TRACE u
  end.

(** ** [trace] *)

Fixpoint trace (v : val) : list treq :=
  match v with
  | VPrim _ _ => []
  | VDeref _ v => trace v
  | VIter _ vs => flat_map trace vs
  | VMap _ kvs => flat_map (λ kv, match kv with (k, w) => trace k ++ trace w end) kvs
  | VOk v => trace v
  | VErr v => trace v
  | VSome v => trace v
  | VNone => []
  | VArray vs => flat_map trace vs
  | VGcPtr t a => [RMark t a]
  | VGcCell c => [RCell c]
  | VUser u fields => user_trace u fields
  end.

(** The pointers and cells that a value owns, whatever its [trace] does. *)
Fixpoint owned (v : val) : list treq :=
  match v with
  | VPrim _ _ => []
  | VDeref _ v => owned v
  | VIter _ vs => flat_map owned vs
  | VMap _ kvs => flat_map (λ kv, match kv with (k, w) => owned k ++ owned w end) kvs
  | VOk v => owned v
  | VErr v => owned v
  | VSome v => owned v
  | VNone => []
  | VArray vs => flat_map owned vs
  | VGcPtr t a => [RMark t a]
  | VGcCell c => [RCell c]
  | VUser _ fields => flat_map owned fields
  end.

(** ** Typing of values *)

(** [Copy] types: what [GcCell::new] and [GcCell::set] accept. *)
Fixpoint is_copy (t : ty) : bool :=
  match t with
  | TPrim p => negb (bool_decide (p = StringT))
  | TResult t e => is_copy t && is_copy e
  | TOption t => is_copy t
  | TArray t _ => is_copy t
  | TGcPtr _ => true
  | TUser u => user_copy u
  | TDeref _ _ | TIter _ _ | TMap _ _ _ | TGcCell _ => false
  end.

Fixpoint has_type (v : val) (t : ty) : bool :=
  match v, t with
  | VPrim p _, TPrim p' => bool_decide (p = p' ∧ p ≠ Infallible)
  | VDeref k v, TDeref k' t => bool_decide (k = k') && has_type v t
  | VIter k vs, TIter k' t =>
      bool_decide (k = k') && forallb (λ v, has_type v t) vs
  | VMap k kvs, TMap k' tk tv =>
      bool_decide (k = k') &&
      forallb (λ kv, match kv with (x, y) => has_type x tk && has_type y tv end) kvs
  | VOk v, TResult t _ => has_type v t
  | VErr v, TResult _ e => has_type v e
  | VSome v, TOption t => has_type v t
  | VNone, TOption _ => true
  | VArray vs, TArray t n =>
      bool_decide (length vs = n) && forallb (λ v, has_type v t) vs
  | VGcPtr t _, TGcPtr t' => bool_decide (t = t')
  | VGcCell _, TGcCell _ => true
  | VUser u fields, TUser u' =>
      bool_decide (u = u') &&
      (fix go (vs : list val) (ts : list ty) : bool :=
         match vs, ts with
         | [], [] => true
         | v :: vs, t :: ts => has_type v t && go vs ts
         | _, _ => false
         end) fields (user_fields u)
  | _, _ => false
  end.

Definition has_types : list val → list ty → bool :=
  fix go vs ts :=
    match vs, ts with
    | [], [] => true
    | v :: vs, t :: ts => has_type v t && go vs ts
    | _, _ => false
    end.

(** ** The contract of client implementations

    The safety section of the trait: "Implementations must call [tracer.mark()]
    on all [GcPtr] fields"; [user_trace_sound] adds that they mark nothing else.
    [NO_TRACE] may be set only for a type with nothing to trace, and the language
    implements [Copy] only for types whose fields are [Copy].  The last two
    fields are the contracts of [Layout::size] and of the global allocator. *)
Class TraceContract : Prop := {
  user_trace_complete u fields r :
    has_types fields (user_fields u) = true →
    r ∈ flat_map owned fields → r ∈ user_trace u fields;
  user_trace_sound u fields r :
    has_types fields (user_fields u) = true →
    r ∈ user_trace u fields → r ∈ flat_map owned fields;
  user_NO_TRACE_fields u fields :
    user_NO_TRACE u = true → has_types fields (user_fields u) = true →
    flat_map owned fields = [];
  user_copy_fields u :
    user_copy u = true → forallb is_copy (user_fields u) = true;
  layout_size_usize t : is_usize (layout_size t);
  malloc_fresh used : malloc used ∉ used;
}.

End trace.

(** ** Induction on values *)

Section val_ind.
Variable P : val → Prop.
Hypothesis HPrim : ∀ p z, P (VPrim p z).
Hypothesis HDeref : ∀ k v, P v → P (VDeref k v).
Hypothesis HIter : ∀ k vs, Forall P vs → P (VIter k vs).
Hypothesis HMap : ∀ k kvs, Forall (λ kv, P kv.1 ∧ P kv.2) kvs → P (VMap k kvs).
Hypothesis HOk : ∀ v, P v → P (VOk v).
Hypothesis HErr : ∀ v, P v → P (VErr v).
Hypothesis HSome : ∀ v, P v → P (VSome v).
Hypothesis HNone : P VNone.
Hypothesis HArray : ∀ vs, Forall P vs → P (VArray vs).
Hypothesis HPtr : ∀ t a, P (VGcPtr t a).
Hypothesis HCell : ∀ c, P (VGcCell c).
Hypothesis HUser : ∀ u vs, Forall P vs → P (VUser u vs).

Fixpoint val_nested_ind (v : val) : P v :=
  let all := fix all vs : Forall P vs :=
    match vs with
    | [] => List.Forall_nil _
    | v :: vs => List.Forall_cons _ v vs (val_nested_ind v) (all vs)
    end in
  match v with
  | VPrim p z => HPrim p z
  | VDeref k v => HDeref k v (val_nested_ind v)
  | VIter k vs => HIter k vs (all vs)
  | VMap k kvs => HMap k kvs
      ((fix allp kvs : Forall (λ kv, P kv.1 ∧ P kv.2) kvs :=
          match kvs with
          | [] => List.Forall_nil _
          | (x, y) :: kvs =>
              List.Forall_cons _ (x, y) kvs
                (conj (val_nested_ind x) (val_nested_ind y)) (allp kvs)
          end) kvs)
  | VOk v => HOk v (val_nested_ind v)
  | VErr v => HErr v (val_nested_ind v)
  | VSome v => HSome v (val_nested_ind v)
  | VNone => HNone
  | VArray vs => HArray vs (all vs)
  | VGcPtr t a => HPtr t a
  | VGcCell c => HCell c
  | VUser u vs => HUser u vs (all vs)
  end.

End val_ind.

(** ** Properties of the implementations *)

Section trace_lemmas.
Context `{Env} `{!TraceContract}.

Lemma elem_of_flat_map {A B} (f : A → list B) l y :
  y ∈ flat_map f l ↔ ∃ x, x ∈ l ∧ y ∈ f x.
Proof.
  rewrite !list_elem_of_In, in_flat_map. by setoid_rewrite list_elem_of_In.
Qed.

Lemma flat_map_iff {A B} (f g : A → list B) l y :
  Forall (λ x, y ∈ f x ↔ y ∈ g x) l → y ∈ flat_map f l ↔ y ∈ flat_map g l.
Proof.
  rewrite !elem_of_flat_map, Forall_forall. intros Hall.
  split; intros (x & Hx & Hy); exists x; (split; [done|]); by apply Hall.
Qed.

Lemma flat_map_Forall {A B} (P : B → Prop) (f : A → list B) l :
  Forall (λ x, Forall P (f x)) l → Forall P (flat_map f l).
Proof. induction 1; cbn; [done|]. by apply Forall_app. Qed.

Lemma flat_map_nil {A B} (f : A → list B) l :
  Forall (λ x, f x = []) l → flat_map f l = [].
Proof. induction 1 as [|x l Hx _ IH]; cbn; [done|]. by rewrite Hx. Qed.

Lemma forallb_Forall {A} (f : A → bool) l : forallb f l = true ↔ Forall f l.
Proof.
  rewrite forallb_forall, Forall_forall.
  by setoid_rewrite list_elem_of_In; setoid_rewrite Is_true_true.
Qed.

Lemma has_type_user u fields u' :
  has_type (VUser u fields) (TUser u') = true →
  u = u' ∧ has_types fields (user_fields u) = true.
Proof. cbn. rewrite andb_true_iff, bool_decide_eq_true. done. Qed.

(** Split a typing hypothesis into its parts. *)
Ltac type_inv :=
  repeat match goal with
  | H : has_type (VUser _ _) (TUser _) = true |- _ => apply has_type_user in H
  | H : has_type _ _ = true |- _ => progress cbn [has_type] in H
  | H : _ && _ = true |- _ => apply andb_true_iff in H
  | H : bool_decide _ = true |- _ => apply bool_decide_eq_true in H
  | H : forallb _ _ = true |- _ => apply forallb_Forall in H
  | H : _ ∧ _ |- _ => destruct H
  end; subst.

Lemma Forall_typed (P : val → ty → Prop) vs t :
  Forall (λ v, ∀ t, has_type v t = true → P v t) vs →
  Forall (λ v, has_type v t) vs → Forall (λ v, P v t) vs.
Proof.
  rewrite !Forall_forall. intros HP Ht v Hv. apply HP; [done|].
  by apply Is_true_true, Ht.
Qed.

Lemma Forall_typed_pairs (P : val → ty → Prop) kvs t1 t2 :
  Forall (λ kv : val * val,
    (∀ t, has_type kv.1 t = true → P kv.1 t) ∧ (∀ t, has_type kv.2 t = true → P kv.2 t)) kvs →
  Forall (λ kv : val * val, Is_true (let (x, y) := kv in has_type x t1 && has_type y t2)) kvs →
  Forall (λ kv : val * val, P kv.1 t1 ∧ P kv.2 t2) kvs.
Proof.
  rewrite !Forall_forall. intros HP Ht [x y] Hv. specialize (HP _ Hv).
  specialize (Ht _ Hv). cbn in *. apply Is_true_true, andb_true_iff in Ht.
  destruct HP, Ht. auto.
Qed.

Lemma Forall_typed_fields (P : val → ty → Prop) vs ts :
  Forall (λ v, ∀ t, has_type v t = true → P v t) vs →
  has_types vs ts = true → Forall2 P vs ts.
Proof.
  intros HP. revert ts. induction HP as [|v vs Hv _ IH]; intros [|t ts]; cbn; try done.
  rewrite andb_true_iff. intros [? ?]. constructor; auto.
Qed.

(** The requests of [trace] are the pointers and cells of the value. *)
Lemma trace_owned v t r : has_type v t = true → r ∈ trace v ↔ r ∈ owned v.
Proof.
  revert t. induction v as [| |k vs IH|k kvs IH| | | | |vs IH| | |u vs IH]
    using val_nested_ind; intros t' Hty; destruct t'; try discriminate Hty;
    type_inv; cbn [trace owned]; eauto.
  - apply flat_map_iff.
    eapply (Forall_typed (λ v _, r ∈ trace v ↔ r ∈ owned v)); eassumption.
  - apply flat_map_iff.
    eapply (Forall_typed_pairs (λ v _, r ∈ trace v ↔ r ∈ owned v)) in IH; [|eassumption].
    eapply Forall_impl; [exact IH|]. intros [x y] [Hx Hy]; cbn in *.
    by rewrite !elem_of_app, Hx, Hy.
  - apply flat_map_iff.
    eapply (Forall_typed (λ v _, r ∈ trace v ↔ r ∈ owned v)); eassumption.
  - split; [by apply user_trace_sound|by apply user_trace_complete].
Qed.

(** A value of a [NO_TRACE] type holds no pointer and no cell, so that its
    object may be marked black without being scanned. *)
Lemma NO_TRACE_owned v t : has_type v t = true → NO_TRACE t = true → owned v = [].
Proof.
  revert t. induction v as [| |k vs IH|k kvs IH| | | | |vs IH| | |u vs IH]
    using val_nested_ind; intros t' Hty; destruct t'; try discriminate Hty;
    type_inv; cbn [NO_TRACE owned]; try done; eauto.
  - intros Hn. apply flat_map_nil.
    eapply (Forall_typed (λ v t, NO_TRACE t = true → owned v = [])) in IH; [|eassumption].
    eapply Forall_impl; [exact IH|]. auto.
  - rewrite andb_true_iff. intros [Hk Hv]. apply flat_map_nil.
    eapply (Forall_typed_pairs (λ v t, NO_TRACE t = true → owned v = [])) in IH; [|eassumption].
    eapply Forall_impl; [exact IH|]. intros [x y] [Hx Hy]; cbn in *.
    by rewrite Hx, Hy.
  - rewrite andb_true_iff. intros []. eauto.
  - rewrite andb_true_iff. intros []. eauto.
  - intros Hn. apply flat_map_nil.
    eapply (Forall_typed (λ v t, NO_TRACE t = true → owned v = [])) in IH; [|eassumption].
    eapply Forall_impl; [exact IH|]. auto.
  - intros Hn. by eapply user_NO_TRACE_fields.
Qed.

Definition is_mark (r : treq) : Prop :=
  match r with RMark _ _ => True | RCell _ => False end.

(** The contents of a cell hold no cell. *)
Lemma copy_owned v t :
  has_type v t = true → is_copy t = true → Forall is_mark (owned v).
Proof.
  revert t. induction v as [| |k vs IH|k kvs IH| | | | |vs IH| | |u vs IH]
    using val_nested_ind; intros t' Hty; destruct t'; try discriminate Hty;
    type_inv; cbn [is_copy owned]; try done; eauto.
  - rewrite andb_true_iff. intros []. eauto.
  - rewrite andb_true_iff. intros []. eauto.
  - intros Hn. apply flat_map_Forall.
    eapply (Forall_typed (λ v t, is_copy t = true → Forall is_mark (owned v))) in IH; [|eassumption].
    eapply Forall_impl; [exact IH|]. auto.
  - by repeat constructor.
  - intros Hc%user_copy_fields%forallb_Forall. apply flat_map_Forall.
    eapply (Forall_typed_fields (λ v t, is_copy t = true → Forall is_mark (owned v))) in IH; [|eassumption].
    clear -IH Hc. induction IH as [|v t vs ts Hv _ IH]; [done|].
    apply Forall_cons in Hc as [Hc%Is_true_true ?]. constructor; auto.
Qed.

(** C25: every implementation of [Trace] in the crate requests exactly the
    pointers and cells that the value owns; where [NO_TRACE] is set there is none,
    so that skipping the scan loses nothing. *)
Theorem trace_complete v t :
  has_type v t = true →
  (∀ r, r ∈ trace v ↔ r ∈ owned v) ∧ (NO_TRACE t = true → trace v = [] ∧ owned v = []).
Proof.
  intros Hv. split; [intros r; by eapply trace_owned|]. intros Hn.
  pose proof (NO_TRACE_owned _ _ Hv Hn) as Ho. split; [|done].
  destruct (trace v) as [|r rs] eqn:E; [done|]. exfalso.
  apply (not_elem_of_nil r). rewrite <- Ho, <- trace_owned, E by done. by left.
Qed.

End trace_lemmas.
