(* ===== verification/Options.v ===== *)
(** * Collection options and pacing ([GcOptions] in [src/src/heap.rs])

    The option record, its presets, the predicates that switch features off and
    [calculate_threshold].  Durations are in nanoseconds. *)

From S2P Require Import Prelude TraceImpls.

Open Scope Z_scope.

Record GcOptions := mkOptions {
  collection_interval : Z;
  incremental_work_budget : Z;
  assist_work_budget : Z;
  threshold_percent : Z;
  threshold_shrink_percent : Z;
  min_threshold_bytes : Z;
  limit_bytes : Z;
}.

(** [Duration::from_millis], [as_millis] and [is_zero]. *)
Definition Duration_from_millis (ms : Z) : Z := ms * 1000000.
Definition Duration_as_millis (d : Z) : Z := d / 1000000.
Definition Duration_is_zero (d : Z) : bool := d =? 0.

Module GcOptions.

Definition DEFAULT : GcOptions := {|
  collection_interval := Duration_from_millis 100;
  incremental_work_budget := 100;
  assist_work_budget := 5;
  threshold_percent := 30;
  threshold_shrink_percent := 30;
  min_threshold_bytes := 1024 * 1024;
  limit_bytes := usize_max;
|}.

Definition OFF : GcOptions := {|
  collection_interval := Duration_from_millis 0;
  incremental_work_budget := usize_max;
  assist_work_budget := 0;
  threshold_percent := usize_max;
  threshold_shrink_percent := 0;
  min_threshold_bytes := usize_max;
  limit_bytes := usize_max;
|}.

Definition new : GcOptions := DEFAULT.
Definition off : GcOptions := OFF.
Definition default : GcOptions := DEFAULT.

Definition is_threshold_off (o : GcOptions) : bool :=
  (threshold_percent o =? 0) || (threshold_percent o =? usize_max).

Definition is_limit_off (o : GcOptions) : bool := limit_bytes o =? usize_max.

Definition is_background_collection_off (o : GcOptions) : bool :=
  is_threshold_off o || (Duration_as_millis (collection_interval o) =? 0).

Definition is_completely_off (o : GcOptions) : bool :=
  is_threshold_off o && is_limit_off o.

Section pacing.
Context `{Env}.

(** The last conditional of [calculate_threshold]. *)
Definition clamp_threshold (o : GcOptions) (new_threshold : Z) : Z :=
  if new_threshold <? min_threshold_bytes o
  then min_threshold_bytes o else new_threshold.
#[global] Arguments clamp_threshold : simpl never.

(** [None] is an arithmetic overflow panic. *)
Definition calculate_threshold (o : GcOptions) (old_threshold live_usage : Z) : option Z :=
  if is_threshold_off o then Some usize_max
  else
    scaled ← usize_op overflow_checks (live_usage * threshold_percent o);
    new_threshold ← usize_op overflow_checks (live_usage + scaled / 100);
    if new_threshold <? old_threshold then
      if threshold_shrink_percent o =? 0 then Some old_threshold
      else if threshold_shrink_percent o <? 100 then
        scaled_old ← usize_op overflow_checks (old_threshold * threshold_shrink_percent o);
        let shrink_limit := scaled_old / 100 in
        if shrink_limit <? new_threshold then Some old_threshold
        else Some (clamp_threshold o new_threshold)
      else Some (clamp_threshold o new_threshold)
    else Some (clamp_threshold o new_threshold).

End pacing.

(** The fields are [usize] values. *)
Definition wf (o : GcOptions) : Prop :=
  0 ≤ collection_interval o ∧
  is_usize (incremental_work_budget o) ∧ is_usize (assist_work_budget o) ∧
  is_usize (threshold_percent o) ∧ is_usize (threshold_shrink_percent o) ∧
  is_usize (min_threshold_bytes o) ∧ is_usize (limit_bytes o).

End GcOptions.

(** ** Pacing: specification *)

Module Pacing.
Section pacing.
Context `{Env}.

(** The intermediate products of [calculate_threshold] are [usize] values. *)
Definition fits (o : GcOptions) (old live : Z) : Prop :=
  live * threshold_percent o ≤ usize_max ∧
  live + live * threshold_percent o / 100 ≤ usize_max ∧
  old * threshold_shrink_percent o ≤ usize_max.

(** Live bytes plus the configured growth. *)
Definition target (o : GcOptions) (live : Z) : Z :=
  live + live * threshold_percent o / 100.

(** The documented shrinking rule: 100 means always, 0 never; in between, only
    when the target is at most that percentage of the old threshold. *)
Definition may_shrink (o : GcOptions) (old target : Z) : Prop :=
  threshold_shrink_percent o ≠ 0 ∧
  (100 ≤ threshold_shrink_percent o ∨
   target ≤ old * threshold_shrink_percent o / 100).

#[global] Instance may_shrink_dec o old t : Decision (may_shrink o old t).
Proof. unfold may_shrink. apply _. Defined.

Definition spec (o : GcOptions) (old live : Z) : Z :=
  if GcOptions.is_threshold_off o then usize_max
  else if decide (old ≤ target o live ∨ may_shrink o old (target o live))
  then Z.max (min_threshold_bytes o) (target o live)
  else old.

Lemma clamp_max o t : GcOptions.clamp_threshold o t = Z.max (min_threshold_bytes o) t.
Proof.
  unfold GcOptions.clamp_threshold.
  destruct (t <? min_threshold_bytes o) eqn:E; bool_lia.
Qed.

Lemma calculate_threshold_eq o old live :
  GcOptions.wf o → is_usize old → is_usize live → fits o old live →
  GcOptions.calculate_threshold o old live = Some (spec o old live).
Proof.
  intros (_ & _ & _ & Hp & Hs & Hm & _) Hold Hlive (H1 & H2 & H3).
  unfold GcOptions.calculate_threshold, spec.
  destruct (GcOptions.is_threshold_off o); [done|].
  assert (0 ≤ live * threshold_percent o / 100) as Hdiv
    by (apply Z.div_pos; [unfold is_usize in *; nia|lia]).
  rewrite (usize_op_Some _ (live * _)) by (unfold is_usize in *; nia). cbn.
  rewrite (usize_op_Some _ (live + _)) by (unfold is_usize in *; lia). cbn.
  fold (target o live).
  destruct (target o live <? old) eqn:Hlt; cycle 1.
  { rewrite decide_True by bool_lia. by rewrite clamp_max. }
  destruct (threshold_shrink_percent o =? 0) eqn:Hz.
  { rewrite decide_False; [done|]. unfold may_shrink. bool_lia. }
  destruct (threshold_shrink_percent o <? 100) eqn:Hc.
  - rewrite (usize_op_Some _ (old * _)) by (unfold is_usize in *; nia). cbn.
    destruct (old * threshold_shrink_percent o / 100 <? target o live) eqn:Ht.
    + rewrite decide_False; [done|]. unfold may_shrink. bool_lia.
    + rewrite decide_True, clamp_max; [done|]. unfold may_shrink. bool_lia.
  - rewrite decide_True, clamp_max; [done|]. unfold may_shrink. bool_lia.
Qed.

(** The new threshold is a [usize], whatever overflows. *)
Lemma calculate_threshold_range o old live r :
  GcOptions.wf o → is_usize old →
  GcOptions.calculate_threshold o old live = Some r → is_usize r.
Proof.
  intros (_ & _ & _ & _ & _ & Hm & _) Hold. unfold GcOptions.calculate_threshold.
  assert (∀ t, is_usize t → is_usize (GcOptions.clamp_threshold o t)) as Hclamp.
  { intros t Ht. unfold GcOptions.clamp_threshold. by destruct (t <? min_threshold_bytes o). }
  destruct (GcOptions.is_threshold_off o); [intros [= <-]; done|].
  destruct (usize_op _ (live * threshold_percent o)) as [s|]; [|done]. cbn.
  destruct (usize_op _ (live + s / 100)) as [t|] eqn:Et; [|done]. cbn.
  apply usize_op_range in Et. specialize (Hclamp _ Et).
  destruct (usize_op _ (old * threshold_shrink_percent o)) as [u|]; cbn;
    repeat match goal with |- context [if ?b then _ else _] => destruct b end;
    (intros [= <-] || intros [=]); done.
Qed.

(** C26: without overflow, [calculate_threshold] is the documented pacing rule in
    every build profile: off is [usize::MAX], growth is always applied, shrinking
    only when it is significant. *)
Theorem calculate_threshold_spec o old live :
  GcOptions.wf o → is_usize old → is_usize live → fits o old live →
  GcOptions.calculate_threshold o old live = Some (spec o old live).
Proof. apply calculate_threshold_eq. Qed.

(** C27: the threshold is at least the live bytes and the configured minimum. *)
Theorem calculate_threshold_lower o old live :
  GcOptions.wf o → is_usize old → is_usize live → fits o old live →
  min_threshold_bytes o ≤ old →
  ∃ r, GcOptions.calculate_threshold o old live = Some r ∧
    live ≤ r ∧ min_threshold_bytes o ≤ r ∧ is_usize r.
Proof.
  intros Hwf Hold Hlive Hfits Hmin. pose proof (calculate_threshold_eq _ _ _ Hwf Hold Hlive Hfits) as Hs.
  exists (spec o old live). split; [done|].
  pose proof (calculate_threshold_range _ _ _ _ Hwf Hold Hs). destruct Hwf as (_ & _ & _ & Hp & _).
  assert (live ≤ target o live).
  { unfold target. assert (0 ≤ live * threshold_percent o / 100); [|lia].
    apply Z.div_pos; [unfold is_usize in *; nia|lia]. }
  unfold spec in *. destruct (GcOptions.is_threshold_off o); [unfold is_usize in *; lia|].
  case_decide as Hd; [split_and!; [lia..|done]|].
  unfold may_shrink in Hd. split_and!; [lia..|done].
Qed.

End pacing.
End Pacing.
