(* ===== verification/BgThread.v ===== *)
(** * Starting and stopping the background thread ([StartStopJoinHandle] in
    [src/src/heap.rs])

    The mutex protects the pair of a generation counter and the handle of the
    running thread; every critical section is a transition of that pair.  A
    thread is named by the generation it was started with, which is also the
    [StopCondition] it receives. *)

From stdpp Require Import relations.
From S2P Require Import Prelude TraceImpls.

Open Scope Z_scope.

Module StartStop.

Record t := mk { counter : Z; handle : option Z }.

(** [StopCondition] *)
Abbreviation StopCondition := Z.

Definition new : t := mk 0 None.

Section ops.
Context `{Env}.

(** [start]: the result says whether a thread was spawned; its stop condition is
    the new counter.  [None] is the overflow panic of [guard.0 + 1]. *)
Definition start (s : t) : option (bool * t) :=
  match handle s with
  | Some _ => Some (false, s)
  | None =>
      c ← usize_op overflow_checks (counter s + 1);
      Some (true, mk c (Some c))
  end.

(** The critical section of [stop]: [take] the handle; the caller then joins the
    thread it names. *)
Definition stop_take (s : t) : option Z * t :=
  (handle s, mk (counter s) None).

(** [Drop for StartStopJoinHandle] *)
Definition drop (s : t) : option Z * t := stop_take s.

Definition is_stopped (s : t) (c : StopCondition) : bool :=
  bool_decide (handle s = None) || negb (counter s =? c).

(** [wait_stopped]: the check on entry, and the result after the wait on the
    condition variable, which says whether it timed out. *)
Definition wait_entry (s : t) (c : StopCondition) : bool := is_stopped s c.
Definition wait_result (timed_out : bool) : bool := negb timed_out.

Definition is_started (s : t) : bool := bool_decide (is_Some (handle s)).

(** After a [stop] the destructor has no thread left to join. *)
Lemma drop_stopped s : drop (stop_take s).2 = (None, (stop_take s).2).
Proof. done. Qed.

(** Any thread may call [start] or [stop] at any time. *)
Inductive step : t → t → Prop :=
  | step_start s b s' : start s = Some (b, s') → step s s'
  | step_stop s : step s (stop_take s).2.

End ops.

End StartStop.
