(* ===== verification/Graph.v ===== *)
(** * The abstract heap: object graphs

    What a client of the collector can observe: objects with their type, root
    count and contents, and the contents of the cells.  Colours, the allocation
    list, the gray queue and the byte counter are not part of it.  The file
    defines edges, reachability and well-formedness of graphs, and the contract
    of a collection. *)

From stdpp Require Import relations.
From S2P Require Import Prelude TraceImpls.
Open Scope Z_scope.

Record obj := mkObj {
  ob_ty : ty;
  ob_roots : Z;
  ob_data : val;
}.

Record graph := mkGraph {
  objs : gmap loc obj;
  gcells : gmap loc val;
}.

(** [points cs v t a]: the value [v] holds a [GcPtr<t>] to [a], directly or as
    the contents of a cell it owns. *)
Inductive points (cs : gmap loc val) (v : val) (t : ty) (a : loc) : Prop :=
  | points_here : RMark t a ∈ owned v → points cs v t a
  | points_cell c v' :
      RCell c ∈ owned v → cs !! c = Some v' → RMark t a ∈ owned v' →
      points cs v t a.

Definition edge (G : graph) (a b : loc) : Prop :=
  ∃ o t, objs G !! a = Some o ∧ points (gcells G) (ob_data o) t b.

Definition rooted (G : graph) (a : loc) : Prop :=
  ∃ o, objs G !! a = Some o ∧ 0 < ob_roots o.

(** Reachable from an object that a [GcRoot] protects. *)
Definition reachable (G : graph) (b : loc) : Prop :=
  ∃ a, rooted G a ∧ rtc (edge G) a b.

Section wf.
Context `{Env}.

(** A value whose pointers lead to live objects of their static type. *)
Record wf_val (G : graph) (v : val) : Prop := {
  wf_val_points t a : points (gcells G) v t a →
    ∃ o, objs G !! a = Some o ∧ ob_ty o = t;
  wf_val_cells c : RCell c ∈ owned v → is_Some (gcells G !! c);
}.

(** Every object is well typed and holds no dangling pointer; the contents of
    every cell have a [Copy] type. *)
Record wf_graph (G : graph) : Prop := {
  wf_obj_type a o : objs G !! a = Some o → has_type (ob_data o) (ob_ty o) = true;
  wf_obj_roots a o : objs G !! a = Some o → is_usize (ob_roots o);
  wf_obj_val a o : objs G !! a = Some o → wf_val G (ob_data o);
  wf_cell_type c v : gcells G !! c = Some v →
    ∃ t, is_copy t = true ∧ has_type v t = true;
}.

(** ** The contract of a collection *)

(** The objects that remain are the reachable ones, unchanged; the cells are
    untouched. *)
Record collected (G G' : graph) : Prop := {
  collected_cells : gcells G' = gcells G;
  collected_objs a o : objs G' !! a = Some o ↔ objs G !! a = Some o ∧ reachable G a;
}.

End wf.

(** A collection that may keep unreachable objects too. *)
Record retained (G G' : graph) : Prop := {
  retained_cells : gcells G' = gcells G;
  retained_sub a o : objs G' !! a = Some o → objs G !! a = Some o;
  retained_reachable a : reachable G a → objs G' !! a = objs G !! a;
}.

(** ** The abstract operations of a client *)

(** A new object; a change of an object's root count; a new content of a cell. *)
Definition g_alloc (G : graph) (a : loc) (o : obj) : graph :=
  mkGraph (<[a := o]> (objs G)) (gcells G).

Definition g_roots (G : graph) (a : loc) (f : Z → Z) : graph :=
  mkGraph (alter (λ o, mkObj (ob_ty o) (f (ob_roots o)) (ob_data o)) a (objs G)) (gcells G).

Definition g_set (G : graph) (c : loc) (v : val) : graph :=
  mkGraph (objs G) (<[c := v]> (gcells G)).

(** ** Lemmas *)

Lemma edge_points G a b o t :
  objs G !! a = Some o → points (gcells G) (ob_data o) t b → edge G a b.
Proof. intros. by exists o, t. Qed.

Lemma reachable_rooted G a : rooted G a → reachable G a.
Proof. intros Hr. by exists a. Qed.

Lemma reachable_edge G a b : reachable G a → edge G a b → reachable G b.
Proof. intros (r & Hr & Hs) He. exists r. split; [done|]. by eapply rtc_r. Qed.

#[export] Hint Resolve edge_points reachable_rooted reachable_edge : gc.

(** A set of addresses that has the roots and is closed under edges has every
    reachable address. *)
Lemma reachable_ind_closed G (S : loc → Prop) :
  (∀ a, rooted G a → S a) → (∀ a b, S a → edge G a b → S b) →
  ∀ a, reachable G a → S a.
Proof.
  intros Hroot Hedge b (a & Ha & Hs). apply Hroot in Ha. clear Hroot.
  induction Hs; eauto.
Qed.

Section wf_lemmas.
Context `{Env}.

Lemma wf_edge G a b : wf_graph G → edge G a b → is_Some (objs G !! b).
Proof.
  intros HG (o & t & Ho & Hp).
  destruct (wf_val_points _ _ (wf_obj_val _ HG _ _ Ho) _ _ Hp) as (o' & ? & _). eauto.
Qed.

Lemma wf_reachable G a : wf_graph G → reachable G a → is_Some (objs G !! a).
Proof.
  intros HG. revert a. apply (reachable_ind_closed _ (λ a, is_Some (objs G !! a))).
  - intros b (o & ? & _). eauto.
  - intros b c _. by apply wf_edge.
Qed.

(** ** Consequences of the contract *)

Lemma collected_edge G G' a b :
  collected G G' → edge G' a b ↔ edge G a b ∧ reachable G a.
Proof.
  intros [Hc Ho]. split.
  - intros (o & t & [Ha Hr]%Ho & Hp). rewrite Hc in Hp. split; [by exists o, t|done].
  - intros [(o & t & Ha & Hp) Hr]. exists o, t. by rewrite Ho, Hc.
Qed.

Lemma collected_rooted G G' a : collected G G' → rooted G' a ↔ rooted G a.
Proof.
  intros [_ Ho]. split.
  - intros (o & [Ha _]%Ho & Hr). by exists o.
  - intros (o & Ha & Hr). exists o. rewrite Ho. split; [|done]. split; [done|].
    apply reachable_rooted. by exists o.
Qed.

Lemma collected_reachable G G' a : collected G G' → reachable G' a ↔ reachable G a.
Proof.
  intros HC. split; revert a.
  - apply (reachable_ind_closed _ (reachable G)).
    + intros a Ha. rewrite collected_rooted in Ha by done. by apply reachable_rooted.
    + intros a b Ha He. rewrite collected_edge in He by done.
      destruct He. by eapply reachable_edge.
  - intros a Ha. enough (reachable G a ∧ reachable G' a) by tauto. revert a Ha.
    apply (reachable_ind_closed _ (λ a, reachable G a ∧ reachable G' a)).
    + intros a Ha. split; apply reachable_rooted; [done|]. by rewrite collected_rooted.
    + intros a b [Ha Ha'] He. split; [by eapply reachable_edge|].
      eapply reachable_edge; [done|]. by rewrite collected_edge.
Qed.

(** A collection leaves no dangling pointer. *)
Lemma collected_wf G G' : wf_graph G → collected G G' → wf_graph G'.
Proof.
  intros HG HC. destruct (HC) as [Hcells Hobjs]. split.
  - intros a o [Ha _]%Hobjs. by eapply wf_obj_type.
  - intros a o [Ha _]%Hobjs. by eapply wf_obj_roots.
  - intros a o [Ha Hr]%Hobjs. destruct (wf_obj_val _ HG _ _ Ha) as [Hp Hcl].
    split; rewrite ?Hcells; [|done]. intros t b Hb.
    destruct (Hp _ _ Hb) as (ob & Hob & Hty). exists ob. split; [|done].
    apply Hobjs. split; [done|]. eapply reachable_edge; [done|]. by exists o, t.
  - intros c v Hc. rewrite Hcells in Hc. by eapply wf_cell_type.
Qed.

(** The contract determines the result. *)
Lemma collected_unique G G1 G2 : collected G G1 → collected G G2 → G1 = G2.
Proof.
  intros [Hc1 Ho1] [Hc2 Ho2]. destruct G1 as [o1 c1], G2 as [o2 c2]. cbn in *. f_equal; [|congruence].
  apply map_eq. intros a. apply option_eq. intros o. by rewrite Ho1, Ho2.
Qed.

(** Collecting twice is collecting once. *)
Lemma collected_idemp G G' G'' :
  collected G G' → collected G' G'' → objs G'' = objs G' ∧ gcells G'' = gcells G'.
Proof.
  intros H1 H2. split; [|apply H2]. apply map_eq. intros a.
  apply option_eq. intros o. destruct H2 as [_ H2]. rewrite H2.
  rewrite (collected_reachable G G') by done. split; [tauto|].
  intros Ha. split; [done|]. by apply H1 in Ha as [_ ?].
Qed.

End wf_lemmas.

(** ** The abstract operations keep graphs well formed *)

Section wf_ops.
Context `{Env}.

(** Growing the set of objects keeps values well formed. *)
Lemma wf_val_grow G G' v :
  gcells G' = gcells G →
  (∀ a o, objs G !! a = Some o → ∃ o', objs G' !! a = Some o' ∧ ob_ty o' = ob_ty o) →
  wf_val G v → wf_val G' v.
Proof.
  intros Hc Ho [Hp Hcl]. split; rewrite ?Hc; [|done].
  intros t a (o & Ha & <-)%Hp. by apply Ho.
Qed.

Lemma wf_g_alloc G a t n d :
  wf_graph G → objs G !! a = None → has_type d t = true → is_usize n →
  wf_val G d → wf_graph (g_alloc G a (mkObj t n d)).
Proof.
  intros HG Ha Hty Hn Hd.
  assert (∀ x o, objs G !! x = Some o →
    ∃ o', objs (g_alloc G a (mkObj t n d)) !! x = Some o' ∧ ob_ty o' = ob_ty o) as Hgrow.
  { intros x o Hx. exists o. cbn. rewrite lookup_insert_ne; [done|]. congruence. }
  split; cbn.
  - intros x o [[<- <-]|[_ Hx]]%lookup_insert_Some; [done|]. by eapply wf_obj_type.
  - intros x o [[<- <-]|[_ Hx]]%lookup_insert_Some; [done|]. by eapply wf_obj_roots.
  - intros x o [[<- <-]|[_ Hx]]%lookup_insert_Some;
      (apply (wf_val_grow G); [done|exact Hgrow|]); [done|]. by eapply wf_obj_val.
  - apply HG.
Qed.

Lemma g_roots_lookup G a f x o' :
  objs (g_roots G a f) !! x = Some o' ↔
  ∃ o, objs G !! x = Some o ∧
    o' = mkObj (ob_ty o) (if decide (a = x) then f (ob_roots o) else ob_roots o) (ob_data o).
Proof.
  cbn. destruct (decide (a = x)) as [->|Hne].
  - rewrite lookup_alter_eq, fmap_Some. done.
  - rewrite lookup_alter_ne by done. split.
    + intros Hx. exists o'. by destruct o'.
    + intros (o & Hx & ->). by destruct o.
Qed.

Lemma wf_g_roots G a f :
  wf_graph G → (∀ o, objs G !! a = Some o → is_usize (f (ob_roots o))) →
  wf_graph (g_roots G a f).
Proof.
  intros HG Hf.
  assert (∀ x o, objs G !! x = Some o →
    ∃ o', objs (g_roots G a f) !! x = Some o' ∧ ob_ty o' = ob_ty o) as Hgrow.
  { intros x o Hx. eexists. rewrite g_roots_lookup. split; [by eexists|done]. }
  split.
  - intros x o' (o & Hx & ->)%g_roots_lookup. apply (wf_obj_type _ HG _ _ Hx).
  - intros x o' (o & Hx & ->)%g_roots_lookup. cbn. case_decide; subst; [auto|].
    apply (wf_obj_roots _ HG _ _ Hx).
  - intros x o' (o & Hx & ->)%g_roots_lookup. cbn.
    apply (wf_val_grow G); [done|exact Hgrow|]. by eapply wf_obj_val.
  - apply HG.
Qed.

(** The value that is stored need only be well formed if an object owns the
    cell. *)
Lemma wf_g_set G c v t :
  wf_graph G → is_copy t = true → has_type v t = true →
  (∀ a o, objs G !! a = Some o → RCell c ∈ owned (ob_data o) → wf_val G v) →
  wf_graph (g_set G c v).
Proof.
  intros HG Hc Hv Hown. split; cbn; [apply HG|apply HG| |].
  - intros x o Hx. pose proof (wf_obj_val _ HG _ _ Hx) as [Hp Hcl]. split; cbn.
    + intros t' a [Hin|c' v' Hin Hc' Hin'].
      * apply Hp. by apply points_here.
      * apply lookup_insert_Some in Hc' as [[<- <-]|[_ Hc']].
        -- apply (Hown _ _ Hx Hin). by apply points_here.
        -- apply Hp. by eapply points_cell.
    + intros c' Hin. rewrite lookup_insert_is_Some. destruct (decide (c = c')); [by left|].
      right. split; [done|]. auto.
  - intros c' v' [[<- <-]|[_ Hc']]%lookup_insert_Some; [by exists t|]. by eapply wf_cell_type.
Qed.

(** The edges after a store. *)
Lemma g_set_edge G c v x y :
  edge (g_set G c v) x y → edge G x y ∨ ∃ t, RMark t y ∈ owned v.
Proof.
  intros (o & t & Ho & [Hin|c' v' Hin Hc' Hv']); cbn in *.
  - left. exists o, t. split; [done|by apply points_here].
  - apply lookup_insert_Some in Hc' as [[<- <-]|[_ Hc']]; [by right; exists t|].
    left. exists o, t. split; [done|by eapply points_cell].
Qed.

(** No object owns a cell that does not exist. *)
Lemma wf_fresh_cell G c a o :
  wf_graph G → gcells G !! c = None → objs G !! a = Some o → RCell c ∉ owned (ob_data o).
Proof.
  intros HG Hc Ha Hin. destruct (wf_val_cells _ _ (wf_obj_val _ HG _ _ Ha) _ Hin) as [? Hx].
  congruence.
Qed.

Lemma g_set_fresh_edge G c v x y :
  wf_graph G → gcells G !! c = None → edge (g_set G c v) x y → edge G x y.
Proof.
  intros HG Hc (o & t & Ho & [Hin|c' v' Hin Hc' Hv']); cbn in *.
  - exists o, t. split; [done|by apply points_here].
  - apply lookup_insert_Some in Hc' as [[<- _]|[_ Hc']].
    + by apply (wf_fresh_cell G c x o) in Hin.
    + exists o, t. split; [done|by eapply points_cell].
Qed.

(** Edges after an allocation: those of the new object are new. *)
Lemma g_alloc_edge G a o x y :
  x ≠ a → edge (g_alloc G a o) x y ↔ edge G x y.
Proof.
  intros Hne. unfold edge. cbn. rewrite lookup_insert_ne by done. done.
Qed.

Lemma g_roots_edge G a f x y : edge (g_roots G a f) x y ↔ edge G x y.
Proof.
  split.
  - intros (o' & t & (o & Hx & ->)%g_roots_lookup & Hp). by exists o, t.
  - intros (o & t & Hx & Hp). eexists _, t. rewrite g_roots_lookup.
    split; [by eexists|done].
Qed.

End wf_ops.
