(* ===== verification/GcBox.v ===== *)
(** * Object layout ([src/src/gc_box.rs])

    The type-erased vtable, the object header and the object.  A function
    pointer in a vtable is a constructor that names the function and the type it
    is instantiated with. *)

From S2P Require Import Prelude Color TraceImpls.

Open Scope Z_scope.

(** The [trace] slot: [trace_noop], or [trace_impl::<T>]. *)
Inductive trace_fn :=
  | trace_noop
  | trace_impl (t : ty).

(** The [drop] slot: [drop_impl::<T>]. *)
Inductive drop_fn :=
  | drop_impl (t : ty).

Record GcVTable := mkVTable {
  vt_trace : trace_fn;
  vt_drop : drop_fn;
  vt_layout_size : Z;
}.

Record GcHeader := mkHeader {
  color : AtomicColor.t;
  root_count : Z;
  next : option loc;
  vtable : GcVTable;
}.

Record GcBox := mkBox {
  header : GcHeader;
  data : val;
}.

Section gc_box.
Context `{Env}.

(** [GcVTable::new::<T>] *)
Definition GcVTable_new (t : ty) : GcVTable := {|
  vt_trace := if NO_TRACE t then trace_noop else trace_impl t;
  vt_drop := drop_impl t;
  vt_layout_size := layout_size t;
|}.

(** [GcHeader::new]: white, with a root count of one. *)
Definition GcHeader_new (vt : GcVTable) : GcHeader := {|
  color := AtomicColor.new White;
  root_count := 1;
  next := None;
  vtable := vt;
|}.

(** The block that [GcBox::new] initialises. *)
Definition GcBox_init (t : ty) (d : val) : GcBox := {|
  header := GcHeader_new (GcVTable_new t);
  data := d;
|}.

End gc_box.

(** The effect of the header methods on the header.  [is_white] is two atomic
    loads, see [Heap.is_white]. *)
Definition set_color (h : GcHeader) (c : AtomicColor.t) : GcHeader :=
  mkHeader c (root_count h) (next h) (vtable h).
Definition set_next (h : GcHeader) (n : option loc) : GcHeader :=
  mkHeader (color h) (root_count h) n (vtable h).
Definition set_root_count (h : GcHeader) (n : Z) : GcHeader :=
  mkHeader (color h) n (next h) (vtable h).

Definition GcHeader_inc_root (h : GcHeader) : GcHeader :=
  set_root_count h (usize_fetch_add (root_count h) 1).
Definition GcHeader_dec_root (h : GcHeader) : GcHeader :=
  set_root_count h (usize_fetch_sub (root_count h) 1).
Definition GcHeader_is_root (h : GcHeader) : bool := 0 <? root_count h.
