(* ===== verification/World.v ===== *)
(** * The shared state and its atomic actions

    The state of the collector and of the client threads: the [Heap] structure
    of [src/src/heap.rs], the blocks that the allocator has handed out, the
    contents of the [GcCell]s and the contexts of [src/src/gc.rs].  Every action
    below is one atomic step of a program. *)

From S2P Require Import Prelude Prog Color TraceImpls GcBox Options BgThread.

Open Scope Z_scope.

(** ** The GC phase *)

Inductive GcPhase := Idle | Marking | Sweeping.

#[export] Instance GcPhase_eq_dec : EqDecision GcPhase.
Proof. solve_decision. Defined.

(** [phase as u8] and [impl From<u8> for GcPhase] *)
Definition GcPhase_as_u8 (p : GcPhase) : Z :=
  match p with Idle => 0 | Marking => 1 | Sweeping => 2 end.
Definition GcPhase_from (value : Z) : GcPhase :=
  if value =? 1 then Marking else if value =? 2 then Sweeping else Idle.

(** ** The state *)

Record Heap := mkHeap {
  head : option loc;
  options : GcOptions;
  bytes_allocated : Z;
  current_threshold : Z;
  gray_queue : list loc;
  phase : Z;
  bg_thread : StartStop.t;
  n_busy_marking : Z;
}.

(** - [mem]: the [GcBox] blocks that are allocated;
    - [cells]: the contents of the [GcCell]s;
    - [tls]: the thread-local [CURRENT_CTX] of each thread, absent for null;
    - [ctxs]: the live [GcContextInner]s, by the address of their pinned box,
      with the contents of their tracer [local_gray];
    - [running]: the background threads that have been spawned and have not
      returned;
    - [dropped]: the blocks on which the vtable's drop function has run, latest
      last;
    - [strong]: the strong count of the [Arc] that owns the heap. *)
Record world := mkWorld {
  heap : Heap;
  mem : gmap loc GcBox;
  cells : gmap loc val;
  tls : gmap nat loc;
  ctxs : gmap loc (list loc);
  running : gset Z;
  dropped : list loc;
  strong : Z;
}.

Definition set_heap (w : world) (h : Heap) : world :=
  mkWorld h (mem w) (cells w) (tls w) (ctxs w) (running w) (dropped w) (strong w).
Definition set_mem (w : world) (m : gmap loc GcBox) : world :=
  mkWorld (heap w) m (cells w) (tls w) (ctxs w) (running w) (dropped w) (strong w).
Definition set_cells (w : world) (c : gmap loc val) : world :=
  mkWorld (heap w) (mem w) c (tls w) (ctxs w) (running w) (dropped w) (strong w).
Definition set_tls (w : world) (t : gmap nat loc) : world :=
  mkWorld (heap w) (mem w) (cells w) t (ctxs w) (running w) (dropped w) (strong w).
Definition set_ctxs (w : world) (c : gmap loc (list loc)) : world :=
  mkWorld (heap w) (mem w) (cells w) (tls w) c (running w) (dropped w) (strong w).
Definition set_running (w : world) (r : gset Z) : world :=
  mkWorld (heap w) (mem w) (cells w) (tls w) (ctxs w) r (dropped w) (strong w).
Definition set_dropped (w : world) (d : list loc) : world :=
  mkWorld (heap w) (mem w) (cells w) (tls w) (ctxs w) (running w) d (strong w).
Definition set_strong (w : world) (n : Z) : world :=
  mkWorld (heap w) (mem w) (cells w) (tls w) (ctxs w) (running w) (dropped w) n.

Definition set_head (h : Heap) (x : option loc) : Heap :=
  mkHeap x (options h) (bytes_allocated h) (current_threshold h) (gray_queue h)
    (phase h) (bg_thread h) (n_busy_marking h).
Definition set_bytes_allocated (h : Heap) (x : Z) : Heap :=
  mkHeap (head h) (options h) x (current_threshold h) (gray_queue h)
    (phase h) (bg_thread h) (n_busy_marking h).
Definition set_current_threshold (h : Heap) (x : Z) : Heap :=
  mkHeap (head h) (options h) (bytes_allocated h) x (gray_queue h)
    (phase h) (bg_thread h) (n_busy_marking h).
Definition set_gray_queue (h : Heap) (x : list loc) : Heap :=
  mkHeap (head h) (options h) (bytes_allocated h) (current_threshold h) x
    (phase h) (bg_thread h) (n_busy_marking h).
Definition set_phase (h : Heap) (x : Z) : Heap :=
  mkHeap (head h) (options h) (bytes_allocated h) (current_threshold h)
    (gray_queue h) x (bg_thread h) (n_busy_marking h).
Definition set_bg_thread (h : Heap) (x : StartStop.t) : Heap :=
  mkHeap (head h) (options h) (bytes_allocated h) (current_threshold h)
    (gray_queue h) (phase h) x (n_busy_marking h).
Definition set_n_busy_marking (h : Heap) (x : Z) : Heap :=
  mkHeap (head h) (options h) (bytes_allocated h) (current_threshold h)
    (gray_queue h) (phase h) (bg_thread h) x.

Abbreviation gc := (prog world).

(** ** Actions on the heap structure *)

Definition heap_get {X} (f : Heap → X) : gc X := get (λ w, f (heap w)).
Definition heap_set (f : Heap → Heap) : gc unit := modify (λ w, set_heap w (f (heap w))).

(** A read-modify-write that returns a result. *)
Definition heap_update {X} (f : Heap → X * Heap) : gc X :=
  action (λ w, let '(x, h) := f (heap w) in Done x (set_heap w h)).

(** ** Actions on blocks *)

(** Dereference of a header or object pointer. *)
Definition box_get {X} (a : loc) (f : GcBox → X) : gc X :=
  action (λ w,
    match mem w !! a with
    | Some b => Done (f b) w
    | None => Fault (UseAfterFree a)
    end).

Definition header_update {X} (a : loc) (f : GcHeader → X * GcHeader) : gc X :=
  action (λ w,
    match mem w !! a with
    | Some b =>
        let '(x, h) := f (header b) in
        Done x (set_mem w (<[a := mkBox h (data b)]> (mem w)))
    | None => Fault (UseAfterFree a)
    end).

Definition header_set (a : loc) (f : GcHeader → GcHeader) : gc unit :=
  header_update a (λ h, (tt, f h)).

(** [Box::new] of an initialised block, and [Box::from_raw] going out of
    scope. *)
Definition box_new `{Env} (b : GcBox) : gc loc :=
  action (λ w,
    let a := malloc (dom (mem w)) in Done a (set_mem w (<[a := b]> (mem w)))).

Definition box_drop (a : loc) : gc unit :=
  action (λ w,
    match mem w !! a with
    | Some _ =>
        Done tt (set_dropped (set_mem w (delete a (mem w))) (dropped w ++ [a]))
    | None => Fault (UseAfterFree a)
    end).

(** ** Actions on cells *)

Definition cell_get (c : loc) : gc val :=
  action (λ w,
    match cells w !! c with
    | Some v => Done v w
    | None => Fault (UseAfterFree c)
    end).

Definition cell_set (c : loc) (v : val) : gc unit :=
  action (λ w,
    match cells w !! c with
    | Some _ => Done tt (set_cells w (<[c := v]> (cells w)))
    | None => Fault (UseAfterFree c)
    end).

(** The phase survives its representation as a byte; any other byte reads as
    [Idle]. *)
Theorem phase_roundtrip :
  (∀ p, GcPhase_from (GcPhase_as_u8 p) = p) ∧
  (∀ z, z ≠ GcPhase_as_u8 Marking → z ≠ GcPhase_as_u8 Sweeping → GcPhase_from z = Idle).
Proof.
  split; [by intros []|]. intros z H1 H2. unfold GcPhase_from. cbn in *.
  by rewrite !(proj2 (Z.eqb_neq _ _)).
Qed.
