(* ===== verification/Console.v ===== *)
(** * Programs that print

    The example programs and tests of the crate print, and they assert.  An [io]
    program is a program that appends lines to a log.  A line is a format string
    with the values that are printed in its place holders. *)

From stdpp Require Export strings.
From S2P Require Import Prelude Prog TraceImpls World.
Open Scope Z_scope.

(** A number, or a value of the heap by its [Display] or [Debug] implementation. *)
Inductive arg :=
  | Num (n : Z)
  | Shown (v : val).

Definition line : Type := string * list arg.

Definition io (A : Type) : Type := list line → gc (list line * A).

Section io.
Definition done {A} (a : A) : io A := λ log, Ret (log, a).
Definition then_io {A B} (p : io A) (k : A → io B) : io B :=
  λ log, (r ← p log; k r.2 r.1)%gc.

(** A step of the heap. *)
Definition lift {A} (p : gc A) : io A := λ log, (a ← p; Ret (log, a))%gc.

Definition println (fmt : string) (args : list arg) : io unit :=
  λ log, Ret ((log ++ [(fmt, args)])%list, tt).

(** [assert!] *)
Definition assert (b : bool) : io unit :=
  λ log, if b then Ret (log, tt) else throw (Panic AssertionFailed).

(** The program with an empty log. *)
Definition main {A} (p : io A) : gc (list line * A) := p [].
End io.

Declare Scope io_scope.
Delimit Scope io_scope with io.

Notation "x ← y ; z" := (then_io (lift y) (λ x : _, z))
  (at level 20, y at level 100, z at level 200, only parsing) : io_scope.
Notation "x ⇐ y ; z" := (then_io y (λ x : _, z))
  (at level 20, y at level 100, z at level 200, only parsing) : io_scope.
Notation "x ;; z" := (then_io (lift x) (λ _, z))
  (at level 100, z at level 200, only parsing, right associativity) : io_scope.
Notation "! x ; z" := (then_io x (λ _, z))
  (at level 20, x at level 100, z at level 200, only parsing) : io_scope.

(** ** Reasoning *)

(** [wpio log p Q w]: started with the log [log], [p] runs to completion and its
    log, result and state satisfy [Q]. *)
Definition wpio {A} (log : list line) (p : io A) (Q : list line → A → world → Prop)
    (w : world) : Prop := wp (p log) (λ r w', Q r.1 r.2 w') w.

Section laws.
Implicit Types w : world.

Lemma wpio_done {A} log (a : A) Q w : Q log a w → wpio log (done a) Q w.
Proof. done. Qed.

Lemma wpio_then {A B} log (p : io A) (k : A → io B) Q w :
  wpio log p (λ log' a w', wpio log' (k a) Q w') w → wpio log (then_io p k) Q w.
Proof. intros Hp. unfold wpio, then_io. by rewrite wp_bind. Qed.

Lemma wpio_lift {A B} log (p : gc A) (k : A → io B) Q w :
  wp p (λ a w', wpio log (k a) Q w') w → wpio log (then_io (lift p) k) Q w.
Proof. intros Hp. apply wpio_then. unfold wpio, lift. rewrite wp_bind. exact Hp. Qed.

Lemma wpio_println {B} log fmt args (k : unit → io B) Q w :
  wpio (log ++ [(fmt, args)]) (k tt) Q w → wpio log (then_io (println fmt args) k) Q w.
Proof. intros Hk. by apply wpio_then. Qed.

Lemma wpio_assert {B} log b (k : unit → io B) Q w :
  b = true → wpio log (k tt) Q w → wpio log (then_io (assert b) k) Q w.
Proof. intros -> Hk. by apply wpio_then. Qed.

Lemma wpio_mono {A} log (p : io A) (P Q : list line → A → world → Prop) w :
  wpio log p P w → (∀ l a w', P l a w' → Q l a w') → wpio log p Q w.
Proof. intros Hp HPQ. eapply wp_mono; [exact Hp|]. intros [l a] w'. apply HPQ. Qed.

Lemma wpio_run {A} (p : io A) Q w :
  wpio [] p Q w → ∃ log a w', run (main p) w = Done (log, a) w' ∧ Q log a w'.
Proof. intros ([l a] & w' & Hrun & HQ)%wp_run. by exists l, a, w'. Qed.

Lemma wpio_output (p : io unit) out (P : world → Prop) w :
  wpio [] p (λ log _ w', log = out ∧ P w') w →
  ∃ w', run (main p) w = Done (out, tt) w' ∧ P w'.
Proof. intros (log & [] & w' & Hrun & -> & HP)%wpio_run. by exists w'. Qed.

End laws.
