(* ===== verification/Tracing.v ===== *)
(** * The tracer and the methods of object headers

    [Tracer] of [src/src/trace.rs] is a vector of header pointers that belongs
    to one thread; its operations take the vector and return the new one.
    [mark] and [mark_header] also act on the shared colour of the object.  The
    last part runs the [trace] slot of a vtable. *)

From S2P Require Import Prelude Prog Color TraceImpls GcBox World.

Open Scope Z_scope.

Open Scope gc_scope.

(** ** [GcHeader] methods, by address *)

Definition inc_root (a : loc) : gc unit := header_set a GcHeader_inc_root.
Definition dec_root (a : loc) : gc unit := header_set a GcHeader_dec_root.
Definition is_root (a : loc) : gc bool := box_get a (λ b, GcHeader_is_root (header b)).

(** [self.color.is_white() && !self.is_root()] *)
Definition is_white (a : loc) : gc bool :=
  white ← box_get a (λ b, AtomicColor.is_white (color (header b)));
  if white : bool then root ← is_root a; Ret (negb root) else Ret false.

Definition mark_white_to_gray (a : loc) : gc bool :=
  header_update a (λ h,
    let '(ok, c) := AtomicColor.mark_white_to_gray (color h) in (ok, set_color h c)).

Definition mark_black (a : loc) : gc unit :=
  header_set a (λ h, set_color h (AtomicColor.mark_black (color h))).

Definition reset_white (a : loc) : gc unit :=
  header_set a (λ h, set_color h (AtomicColor.reset_white (color h))).

(** ** [Tracer] *)

Abbreviation Tracer := (list loc).

Module Tracer.

Definition new : Tracer := [].

(** [append_to]: the new destination and the emptied tracer. *)
Definition append_to (self dest : Tracer) : Tracer * Tracer := (dest ++ self, []).

(** The loop of [steal_from]. *)
Fixpoint steal_loop (num_items : nat) (self src : Tracer) : Tracer * Tracer :=
  match num_items with
  | O => (self, src)
  | S n =>
      match vec_pop src with
      | Some (item, src') => steal_loop n (vec_push self item) src'
      | None => (self, src)
      end
  end.

Definition steal_from (self : Tracer) (num_items : Z) (src : Tracer)
    : bool * Tracer * Tracer :=
  if bool_decide (src = []) || (num_items =? 0) then (false, self, src)
  else
    let '(self', src') := steal_loop (Z.to_nat num_items) self src in
    (true, self', src').

Definition pop_work (self : Tracer) : option (loc * Tracer) := vec_pop self.

Definition has_work (self : Tracer) : bool := negb (bool_decide (self = [])).

Section mark.
Context `{Env}.

Definition mark_header (self : Tracer) (a : loc) : gc Tracer :=
  ok ← mark_white_to_gray a;
  if ok : bool then Ret (vec_push self a) else Ret self.

(** [mark::<T>] *)
Definition mark (self : Tracer) (t : ty) (a : loc) : gc Tracer :=
  if NO_TRACE t then mark_black a;; Ret self
  else mark_header self a.

(** The requests that trace the contents of a cell. *)
Fixpoint mark_all (self : Tracer) (rs : list treq) : gc Tracer :=
  match rs with
  | [] => Ret self
  | RMark t a :: rs => self ← mark self t a; mark_all self rs
  | RCell _ :: _ => throw IllTyped
  end.

(** [GcCell::trace] reads the cell and traces the value it finds. *)
Fixpoint trace_all (self : Tracer) (rs : list treq) : gc Tracer :=
  match rs with
  | [] => Ret self
  | RMark t a :: rs => self ← mark self t a; trace_all self rs
  | RCell c :: rs =>
      v ← cell_get c;
      self ← mark_all self (trace v);
      trace_all self rs
  end.

(** [data.trace(tracer)] *)
Definition trace_val (self : Tracer) (v : val) : gc Tracer := trace_all self (trace v).

(** [(header.vtable.trace)(ptr, tracer)] *)
Definition call_trace (f : trace_fn) (ptr : loc) (self : Tracer) : gc Tracer :=
  match f with
  | trace_noop => Ret self
  | trace_impl _ => d ← box_get ptr data; trace_val self d
  end.

End mark.
End Tracer.

(** ** The tracer's vector *)

Lemma steal_loop_eq n self src :
  Tracer.steal_loop n self src =
    (self ++ take n (rev src), rev (drop n (rev src))).
Proof.
  revert self src. induction n as [|n IH]; intros self src.
  { cbn [Tracer.steal_loop]. by rewrite take_0, drop_0, app_nil_r, rev_involutive. }
  cbn [Tracer.steal_loop].
  destruct src as [|x src _] using rev_ind.
  { cbn. by rewrite app_nil_r. }
  change (src ++ [x]) with (vec_push src x). rewrite vec_pop_push. unfold vec_push.
  rewrite IH, rev_app_distr. cbn. by rewrite <- app_assoc.
Qed.

(** Stealing moves the last [num_items] objects of the shared queue, last
    first, behind the tracer's own ones; popping takes the object pushed last;
    merging appends all and empties the tracer.  No object is lost or duplicated. *)
Theorem tracer_correct self n src :
  0 ≤ n →
  Tracer.steal_from self n src =
    (negb (bool_decide (src = []) || (n =? 0)),
     self ++ take (Z.to_nat n) (rev src), rev (drop (Z.to_nat n) (rev src))) ∧
  (∀ a, Tracer.pop_work (vec_push self a) = Some (a, self)) ∧
  Tracer.append_to self src = (src ++ self, Tracer.new).
Proof.
  intros Hn. split; [|split; [apply vec_pop_push|done]]. unfold Tracer.steal_from.
  case_bool_decide as Hs; cbn.
  { subst. cbn. by rewrite take_nil, drop_nil, app_nil_r. }
  destruct (n =? 0) eqn:E; cbn.
  - apply Z.eqb_eq in E as ->. cbn [Z.to_nat]. by rewrite take_0, drop_0, app_nil_r, rev_involutive.
  - by rewrite steal_loop_eq.
Qed.
