(* ===== verification/State.v ===== *)
(** * Views and invariants of the concrete state

    The abstraction of a world to its object graph, the colour of an object, the
    allocation list, and the representation invariant of a heap that no
    collection is working on ([idle]).  The lemmas say which views an action
    leaves alone. *)

From stdpp Require Import relations.
From S2P Require Import Prelude Prog Color TraceImpls GcBox Options BgThread World.
From S2P Require Import Graph Tracing.
Open Scope Z_scope.

(** ** Abstraction *)

(** The type an object was allocated with. *)
Definition box_ty (b : GcBox) : ty :=
  match vt_drop (vtable (header b)) with drop_impl t => t end.

Definition abs_box (b : GcBox) : obj := {|
  ob_ty := box_ty b;
  ob_roots := root_count (header b);
  ob_data := data b;
|}.

Definition abs (w : world) : graph := {|
  objs := abs_box <$> mem w;
  gcells := cells w;
|}.

(** ** Colours *)

Definition box_color (b : GcBox) : Color := AtomicColor.load (color (header b)).

Definition color_of (w : world) (a : loc) : option Color := box_color <$> mem w !! a.

Definition nonwhite (w : world) (a : loc) : Prop :=
  ∃ c, color_of w a = Some c ∧ c ≠ White.

(** The number of white objects. *)
Definition white_count (w : world) : nat :=
  size (filter (λ ab : loc * GcBox, box_color ab.2 = White) (mem w)).

(** ** The allocation list *)

(** [lseg m p l q]: following the [next] links from [p] visits the addresses
    [l] and arrives at [q]. *)
Fixpoint lseg (m : gmap loc GcBox) (p : option loc) (l : list loc) (q : option loc)
    : Prop :=
  match l with
  | [] => p = q
  | a :: l' =>
      p = Some a ∧ ∃ b, m !! a = Some b ∧ lseg m (next (header b)) l' q
  end.

(** The list from the head visits every block once. *)
Record alloc_list (w : world) (l : list loc) : Prop := {
  al_lseg : lseg (mem w) (head (heap w)) l None;
  al_nodup : NoDup l;
  al_all a : is_Some (mem w !! a) → a ∈ l;
}.

(** ** Sizes *)

Definition box_size (b : GcBox) : Z := vt_layout_size (vtable (header b)).

Definition total_size (m : gmap loc GcBox) : Z :=
  map_fold (λ _ b n, box_size b + n) 0 m.

(** ** Invariants *)

Section inv.
Context `{Env}.

(** Every block has the vtable of its type and a colour byte that represents a
    colour. *)
Record wf_mem (m : gmap loc GcBox) : Prop := {
  wf_vtable a b : m !! a = Some b → vtable (header b) = GcVTable_new (box_ty b);
  wf_color a b : m !! a = Some b → AtomicColor.valid (color (header b));
}.

(** What holds of the heap whatever the phase. *)
Record wf_world (w : world) : Prop := {
  ww_mem : wf_mem (mem w);
  ww_graph : wf_graph (abs w);
  ww_list : ∃ l, alloc_list w l;
  ww_bytes : bytes_allocated (heap w) = total_size (mem w);
  ww_bytes_usize : is_usize (total_size (mem w));
  ww_local_gray c tracer : ctxs w !! c = Some tracer → tracer = [];
  ww_tls th c : tls w !! th = Some c → is_Some (ctxs w !! c);
  ww_options : GcOptions.wf (options (heap w));
  ww_threshold : is_usize (current_threshold (heap w));
}.

(** A heap between collections. *)
Record idle (w : world) : Prop := {
  idle_wf : wf_world w;
  idle_phase : phase (heap w) = GcPhase_as_u8 Idle;
  idle_queue : gray_queue (heap w) = [];
  idle_busy : n_busy_marking (heap w) = 0;
  idle_white a b : mem w !! a = Some b → box_color b = White;
}.

End inv.

(** ** Painting *)

Definition box_paint (c : Color) (b : GcBox) : GcBox :=
  mkBox (set_color (header b) (AtomicColor.new c)) (data b).

Definition paint (w : world) (a : loc) (c : Color) : world :=
  set_mem w (alter (box_paint c) a (mem w)).

(** A block without its colour. *)
Definition uncolored (b : GcBox) : GcBox := box_paint White b.

(** [recolored w w']: the worlds differ in colours and in the gray queue only. *)
Record recolored (w w' : world) : Prop := {
  rc_mem : uncolored <$> mem w = uncolored <$> mem w';
  rc_heap : set_gray_queue (heap w) [] = set_gray_queue (heap w') [];
  rc_cells : cells w = cells w';
  rc_tls : tls w = tls w';
  rc_ctxs : ctxs w = ctxs w';
  rc_running : running w = running w';
  rc_dropped : dropped w = dropped w';
  rc_strong : strong w = strong w';
}.

#[export] Instance recolored_equiv : Equivalence recolored.
Proof.
  split.
  - by split.
  - intros ? ? []; by split.
  - intros ? ? ? [] []; split; by etransitivity.
Qed.

Lemma box_color_paint c b : box_color (box_paint c b) = c.
Proof. apply load_new. Qed.

Lemma uncolored_paint c b : uncolored (box_paint c b) = uncolored b.
Proof. done. Qed.

Lemma abs_box_paint c b : abs_box (box_paint c b) = abs_box b.
Proof. done. Qed.

Lemma paint_recolored w a c : recolored w (paint w a c).
Proof.
  split; try done. cbn. apply map_eq. intros i. rewrite !lookup_fmap, lookup_alter.
  case_decide as Heq; [|done]. subst. by destruct (mem w !! i).
Qed.

Lemma queue_recolored w q : recolored w (set_heap w (set_gray_queue (heap w) q)).
Proof. by split. Qed.

#[export] Hint Resolve paint_recolored queue_recolored : gc.

Lemma recolored_lookup w w' a b :
  recolored w w' → mem w !! a = Some b →
  ∃ b', mem w' !! a = Some b' ∧ uncolored b' = uncolored b.
Proof.
  intros [Hm _ _ _ _ _ _ _] Ha. apply (f_equal (.!! a)) in Hm.
  rewrite !lookup_fmap, Ha in Hm. cbn in Hm.
  destruct (mem w' !! a) as [b'|]; [|done]. apply (inj Some) in Hm. by exists b'.
Qed.

Lemma uncolored_eq b b' : uncolored b' = uncolored b →
  root_count (header b') = root_count (header b) ∧
  next (header b') = next (header b) ∧
  vtable (header b') = vtable (header b) ∧ data b' = data b.
Proof. unfold uncolored, box_paint, set_color. by intros [=]. Qed.

Lemma uncolored_abs b b' : uncolored b' = uncolored b → abs_box b' = abs_box b.
Proof.
  intros (E1 & E2 & E3 & E4)%uncolored_eq. unfold abs_box, box_ty. by rewrite E1, E3, E4.
Qed.

Lemma abs_box_uncolored b : abs_box (uncolored b) = abs_box b.
Proof. done. Qed.

Lemma recolored_abs w w' : recolored w w' → abs w = abs w'.
Proof.
  intros Hr. unfold abs. f_equal; [|apply Hr].
  pose proof (rc_mem _ _ Hr) as Hm. apply (f_equal (fmap abs_box)) in Hm.
  rewrite <- !map_fmap_compose in Hm. done.
Qed.

Lemma recolored_heap w w' :
  recolored w w' → heap w' = set_gray_queue (heap w) (gray_queue (heap w')).
Proof.
  intros Hr. pose proof (rc_heap _ _ Hr) as Hh.
  unfold set_gray_queue in *. destruct (heap w), (heap w'); cbn in *. congruence.
Qed.

(** Heap fields other than the gray queue, under [recolored]. *)
Lemma recolored_head w w' : recolored w w' → head (heap w') = head (heap w).
Proof. intros Hr%recolored_heap. by rewrite Hr. Qed.
Lemma recolored_options w w' : recolored w w' → options (heap w') = options (heap w).
Proof. intros Hr%recolored_heap. by rewrite Hr. Qed.
Lemma recolored_phase w w' : recolored w w' → phase (heap w') = phase (heap w).
Proof. intros Hr%recolored_heap. by rewrite Hr. Qed.
Lemma recolored_busy w w' :
  recolored w w' → n_busy_marking (heap w') = n_busy_marking (heap w).
Proof. intros Hr%recolored_heap. by rewrite Hr. Qed.

Lemma lseg_recolored m m' p l q :
  uncolored <$> m = uncolored <$> m' → lseg m p l q → lseg m' p l q.
Proof.
  intros Hm. revert p. induction l as [|a l IH]; intros p; cbn; [done|].
  intros (-> & b & Hb & Hl). split; [done|].
  apply (f_equal (.!! a)) in Hm. rewrite !lookup_fmap, Hb in Hm. cbn in Hm.
  destruct (m' !! a) as [b'|]; [|done]. apply (inj Some) in Hm.
  exists b'. split; [done|]. apply uncolored_eq in Hm as (_ & Hn & _).
  rewrite <- Hn. by apply IH.
Qed.

Lemma alloc_list_recolored w w' l : recolored w w' → alloc_list w l → alloc_list w' l.
Proof.
  intros Hr [Hs Hn Ha]. split; [|done|].
  - rewrite (recolored_head _ _ Hr). eapply lseg_recolored; [apply Hr|done].
  - intros a [b Hb]. apply Ha. symmetry in Hr.
    destruct (recolored_lookup _ _ _ _ Hr Hb) as (b' & -> & _). eauto.
Qed.

Lemma recolored_is_Some w w' a :
  recolored w w' → is_Some (mem w !! a) → is_Some (mem w' !! a).
Proof. intros Hr [b Hb]. destruct (recolored_lookup _ _ _ _ Hr Hb) as (? & ? & _). eauto. Qed.

(** ** Colours after painting *)

Lemma paint_lookup w a c b :
  mem w !! a = Some b → paint w a c = set_mem w (<[a := box_paint c b]> (mem w)).
Proof. intros Ha. unfold paint. by rewrite alter_alt, Ha. Qed.

Lemma color_of_paint_eq w a c :
  is_Some (mem w !! a) → color_of (paint w a c) a = Some c.
Proof.
  intros [b Hb]. unfold color_of, paint. cbn.
  rewrite lookup_alter_eq, Hb. cbn. by rewrite box_color_paint.
Qed.

Lemma color_of_paint_ne w a a' c :
  a ≠ a' → color_of (paint w a c) a' = color_of w a'.
Proof. intros Hne. unfold color_of, paint. cbn. by rewrite lookup_alter_ne. Qed.

Lemma color_of_Some w a c :
  color_of w a = Some c ↔ ∃ b, mem w !! a = Some b ∧ box_color b = c.
Proof. unfold color_of. rewrite fmap_Some. by split; intros (b & ? & ?); exists b. Qed.

Lemma nonwhite_paint w a a' c :
  c ≠ White → nonwhite w a' → nonwhite (paint w a c) a'.
Proof.
  intros Hc (c' & Hc' & Hw). destruct (decide (a = a')) as [<-|Hne].
  - exists c. split; [|done]. apply color_of_paint_eq.
    apply color_of_Some in Hc' as (b & ? & _). eauto.
  - exists c'. by rewrite color_of_paint_ne.
Qed.

Lemma nonwhite_paint_eq w a c :
  c ≠ White → is_Some (mem w !! a) → nonwhite (paint w a c) a.
Proof. intros Hc Ha. exists c. by rewrite color_of_paint_eq. Qed.

Lemma white_count_paint w a b c :
  c ≠ White → mem w !! a = Some b →
  (white_count (paint w a c) + (if decide (box_color b = White) then 1 else 0)
   = white_count w)%nat.
Proof.
  intros Hc Hb. unfold white_count. rewrite (paint_lookup _ _ _ _ Hb). cbn.
  set (P := λ ab : loc * GcBox, box_color ab.2 = White).
  rewrite (map_filter_insert_False P), (map_filter_delete P)
    by (unfold P; cbn; by rewrite box_color_paint).
  case_decide as Hw.
  - assert (filter P (mem w) !! a = Some b) as Hf by by apply map_lookup_filter_Some.
    rewrite map_size_delete_Some by done.
    assert (size (filter P (mem w)) ≠ 0)%nat; [|lia].
    intros Hs%map_size_empty_inv. by rewrite Hs in Hf.
  - rewrite map_size_delete_None; [lia|].
    apply map_lookup_filter_None. right. intros b' Hb'. by simplify_eq.
Qed.

Lemma white_count_paint_le w a c :
  c ≠ White → (white_count (paint w a c) ≤ white_count w)%nat.
Proof.
  intros Hc. destruct (mem w !! a) as [b|] eqn:Hb.
  - pose proof (white_count_paint _ _ _ _ Hc Hb). lia.
  - unfold white_count, paint. cbn. by rewrite alter_alt, Hb.
Qed.

Lemma wf_mem_paint `{Env} w a c : wf_mem (mem w) → wf_mem (mem (paint w a c)).
Proof.
  intros [Hv Hc]. split; intros i b; cbn; rewrite lookup_alter_Some;
    intros [(<- & b' & Hb' & ->)|[_ Hb]]; eauto.
  - by apply (Hv a b').
  - apply valid_new.
Qed.

#[export] Hint Resolve nonwhite_paint nonwhite_paint_eq wf_mem_paint : gc.

(** ** The blocks of the allocation list *)

Lemma lseg_is_Some m p l q a : lseg m p l q → a ∈ l → is_Some (m !! a).
Proof.
  revert p. induction l as [|x l IH]; intros p; cbn; [by intros _ ?%elem_of_nil|].
  intros (_ & b & Hb & Hl) [->|Ha]%elem_of_cons; eauto.
Qed.

Lemma alloc_list_elem w l a : alloc_list w l → a ∈ l ↔ is_Some (mem w !! a).
Proof.
  intros [Hl _ Hall]. split; [by eapply lseg_is_Some|apply Hall].
Qed.

Lemma alloc_list_length w l : alloc_list w l → length l = size (mem w).
Proof.
  intros Hl. assert (list_to_set l = dom (mem w)) as Hd.
  { apply leibniz_equiv. intros a. rewrite elem_of_list_to_set, elem_of_dom.
    by apply alloc_list_elem. }
  rewrite <- size_dom, <- Hd. symmetry. apply size_list_to_set, Hl.
Qed.

Lemma white_count_le w : (white_count w ≤ size (mem w))%nat.
Proof. apply map_size_filter. Qed.

Lemma total_size_fmap (f : GcBox → GcBox) m :
  (∀ b, box_size (f b) = box_size b) → total_size (f <$> m) = total_size m.
Proof.
  intros Hf. unfold total_size. rewrite map_fold_fmap.
  rewrite !map_fold_foldr. induction (map_to_list m) as [|[i b] l IH]; cbn; [done|].
  by rewrite IH, Hf.
Qed.

Lemma recolored_total w w' : recolored w w' → total_size (mem w') = total_size (mem w).
Proof.
  intros Hr. rewrite <- (total_size_fmap uncolored (mem w)), (rc_mem _ _ Hr) by done.
  by rewrite total_size_fmap.
Qed.

(** The size of the heap is determined by its abstraction. *)
Definition graph_size `{Env} (G : graph) : Z :=
  map_fold (λ _ o n, layout_size (ob_ty o) + n) 0 (objs G).

Lemma total_size_abs `{Env} w : wf_mem (mem w) → total_size (mem w) = graph_size (abs w).
Proof.
  intros [Hv _]. unfold total_size, graph_size. cbn. rewrite map_fold_fmap.
  rewrite !map_fold_foldr.
  assert (Forall (λ ib : loc * GcBox, vtable (header ib.2) = GcVTable_new (box_ty ib.2))
    (map_to_list (mem w))) as Hall.
  { apply Forall_forall. intros [a b] Hin%elem_of_map_to_list. by apply (Hv a). }
  induction Hall as [|[a b] l Hb _ IH]; cbn; [done|]. rewrite IH. f_equal.
  unfold box_size. cbn in Hb. by rewrite Hb.
Qed.

Lemma lseg_functional m p l l' : lseg m p l None → lseg m p l' None → l = l'.
Proof.
  revert p l'. induction l as [|a l IH]; intros p [|a' l']; cbn; try done.
  - by intros -> [? _].
  - by intros [-> _] ?.
  - intros (-> & b & Hb & Hl) ([= ->] & b' & Hb' & Hl'). simplify_eq. f_equal. by eapply IH.
Qed.

(** ** Frames *)

Section frame.
Context `{Env}.

(** A state with the same blocks, list and byte counter. *)
Lemma wf_world_frame w w' :
  wf_world w → mem w' = mem w → head (heap w') = head (heap w) →
  bytes_allocated (heap w') = bytes_allocated (heap w) → wf_graph (abs w') →
  GcOptions.wf (options (heap w')) → is_usize (current_threshold (heap w')) →
  (∀ c tracer, ctxs w' !! c = Some tracer → tracer = []) →
  (∀ th c, tls w' !! th = Some c → is_Some (ctxs w' !! c)) → wf_world w'.
Proof.
  intros [Hm _ [l [H1 H2 H3]] Hb Hbu _ _ _ _] Em Eh Eb HG Ho Ht Hlg Htls.
  split; rewrite ?Em, ?Eb; try done. exists l. split; rewrite ?Em, ?Eh; done.
Qed.

Lemma idle_frame w w' :
  idle w → mem w' = mem w → head (heap w') = head (heap w) →
  bytes_allocated (heap w') = bytes_allocated (heap w) →
  phase (heap w') = phase (heap w) → gray_queue (heap w') = gray_queue (heap w) →
  n_busy_marking (heap w') = n_busy_marking (heap w) → wf_graph (abs w') →
  GcOptions.wf (options (heap w')) → is_usize (current_threshold (heap w')) →
  (∀ c tracer, ctxs w' !! c = Some tracer → tracer = []) →
  (∀ th c, tls w' !! th = Some c → is_Some (ctxs w' !! c)) → idle w'.
Proof.
  intros [Hwf Hp Hq Hb Hwh] Em Eh Eby Ep Eq Eb HG Ho Ht Hlg Htls.
  split; [by eapply wf_world_frame|congruence..|]. rewrite Em. exact Hwh.
Qed.

End frame.
