(* ===== verification/HeapOps.v ===== *)
(** * The heap's operations ([impl Heap] in [src/src/heap.rs])

    Allocation, pacing, the phase transitions, marking, sweeping, the background
    thread and the destructor, each as the sequence of its atomic actions.

    Loops take fuel; [Marking], [Sweeping] and [Collection] prove how much is
    enough.  The lock of the gray queue is held only around one vector
    operation, so a critical section is one action. *)

From S2P Require Import Prelude Prog Color TraceImpls GcBox Options BgThread World.
From S2P Require Import Tracing.
Open Scope Z_scope.
Open Scope gc_scope.

Module Heap.
Section ops.
Context `{Env}.

(** ** Phase transitions *)

Definition is_marking : gc bool :=
  heap_get (λ h, bool_decide (GcPhase_from (phase h) = Marking)).

Definition n_busy_fetch_add : gc unit :=
  heap_set (λ h, set_n_busy_marking h (usize_fetch_add (n_busy_marking h) 1)).
Definition n_busy_fetch_sub : gc unit :=
  heap_set (λ h, set_n_busy_marking h (usize_fetch_sub (n_busy_marking h) 1)).

Definition check_is_marking_and_increment_busy : gc bool :=
  n_busy_fetch_add;;
  marking ← is_marking;
  if marking : bool then Ret true
  else n_busy_fetch_sub;; Ret false.

Definition decrement_busy_marking : gc unit := n_busy_fetch_sub.

(** The compare-exchange of [Idle] for [Marking]. *)
Definition try_start_marking : gc bool :=
  heap_update (λ h,
    if phase h =? GcPhase_as_u8 Idle
    then (true, set_phase h (GcPhase_as_u8 Marking)) else (false, h)).

Definition start_sweeping : gc unit :=
  heap_set (λ h, set_phase h (GcPhase_as_u8 Sweeping)).

Definition finish_gc : gc unit :=
  heap_set (λ h, set_phase h (GcPhase_as_u8 Idle)).

(** ** Marking *)

Definition steal_work (tracer : Tracer) (max_items : Z) : gc (bool * Tracer) :=
  heap_update (λ h,
    let '(r, tracer', queue') := Tracer.steal_from tracer max_items (gray_queue h) in
    ((r, tracer'), set_gray_queue h queue')).

Definition merge_work (tracer : Tracer) : gc Tracer :=
  heap_update (λ h,
    let '(queue', tracer') := Tracer.append_to tracer (gray_queue h) in
    (tracer', set_gray_queue h queue')).

Definition BATCH_SIZE : Z := 8.

(** The loop of [do_mark_with_tracer]: the work done and the tracer. *)
Fixpoint mark_loop (fuel : nat) (tracer : Tracer) (work_budget work_done : Z)
    : gc (Z * Tracer) :=
  match fuel with
  | O => out_of_fuel
  | S fuel =>
      if work_done <? work_budget then
        match Tracer.pop_work tracer with
        | Some (ptr, tracer) =>
            f ← box_get ptr (λ b, vt_trace (vtable (header b)));
            tracer ← Tracer.call_trace f ptr tracer;
            mark_black ptr;;
            mark_loop fuel tracer work_budget (work_done + 1)
        | None =>
            '(stolen, tracer) ← steal_work tracer BATCH_SIZE;
            if stolen : bool then mark_loop fuel tracer work_budget work_done
            else Ret (work_done, tracer)
        end
      else Ret (work_done, tracer)
  end.

Definition do_mark_with_tracer (fuel : nat) (tracer : Tracer) (work_budget : Z)
    : gc (Z * Tracer) :=
  '(work_done, tracer) ← mark_loop fuel tracer work_budget 0;
  tracer ← (if Tracer.has_work tracer then merge_work tracer else Ret tracer);
  Ret (work_done, tracer).

Definition do_mark_incremental (fuel : nat) (work_budget : Z) : gc bool :=
  '(work_done, _) ← do_mark_with_tracer fuel Tracer.new work_budget;
  Ret (work_done =? 0).

Definition yield_once_if_marking_busy : gc bool :=
  heap_get (λ h, 0 <? n_busy_marking h).

Fixpoint do_mark_work_full (fuel : nat) (tracer : Tracer) : gc Tracer :=
  match fuel with
  | O => out_of_fuel
  | S n =>
      budget ← heap_get (λ h, incremental_work_budget (options h));
      '(work_done, tracer) ← do_mark_with_tracer fuel tracer budget;
      again ← (if 0 <? work_done then Ret true else yield_once_if_marking_busy);
      if again : bool then do_mark_work_full n tracer else Ret tracer
  end.

(** The loop of [do_mark_roots]. *)
Fixpoint mark_roots_loop (fuel : nat) (tracer : Tracer) (current : option loc)
    : gc Tracer :=
  match current with
  | None => Ret tracer
  | Some a =>
      match fuel with
      | O => out_of_fuel
      | S fuel =>
          root ← is_root a;
          tracer ← (if root : bool then Tracer.mark_header tracer a else Ret tracer);
          current ← box_get a (λ b, next (header b));
          mark_roots_loop fuel tracer current
      end
  end.

Definition do_mark_roots (fuel : nat) (tracer : Tracer) : gc Tracer :=
  current ← heap_get head;
  tracer ← mark_roots_loop fuel tracer current;
  merge_work tracer.

Definition try_mark_full (fuel : nat) : gc bool :=
  started ← try_start_marking;
  if started : bool then
    tracer ← do_mark_roots fuel Tracer.new;
    do_mark_work_full fuel tracer;;
    Ret true
  else Ret false.

(** ** Sweeping *)

(** The pointer [prev_next]: to the heap's head or to an object's link. *)
Inductive next_ref :=
  | AtHead
  | AtNext (a : loc).

Definition next_ref_store (r : next_ref) (p : option loc) : gc unit :=
  match r with
  | AtHead => heap_set (λ h, set_head h p)
  | AtNext a => header_set a (λ h, set_next h p)
  end.

(** [(header.vtable.drop)(current)] *)
Definition call_drop (f : drop_fn) (a : loc) : gc unit :=
  match f with drop_impl _ => box_drop a end.

Fixpoint sweep_loop (fuel : nat) (prev_next : next_ref) (current : option loc)
    (freed : Z) : gc Z :=
  match current with
  | None => Ret freed
  | Some a =>
      match fuel with
      | O => out_of_fuel
      | S fuel =>
          nxt ← box_get a (λ b, next (header b));
          white ← is_white a;
          if white : bool then
            next_ref_store prev_next nxt;;
            size ← box_get a (λ b, vt_layout_size (vtable (header b)));
            f ← box_get a (λ b, vt_drop (vtable (header b)));
            call_drop f a;;
            freed ← checked (usize_op overflow_checks (freed + size));
            sweep_loop fuel prev_next nxt freed
          else
            reset_white a;;
            sweep_loop fuel (AtNext a) nxt freed
      end
  end.

Definition do_sweep (fuel : nat) : gc Z :=
  start_sweeping;;
  current ← heap_get head;
  freed ← sweep_loop fuel AtHead current 0;
  old ← heap_update (λ h, (bytes_allocated h,
          set_bytes_allocated h (usize_fetch_sub (bytes_allocated h) freed)));
  allocated ← checked (usize_op overflow_checks (old - freed));
  finish_gc;;
  Ret allocated.

(** ** Pacing *)

Definition update_threshold (live_bytes : Z) : gc unit :=
  old_threshold ← heap_get current_threshold;
  o ← heap_get options;
  new_threshold ← checked (GcOptions.calculate_threshold o old_threshold live_bytes);
  heap_set (λ h, set_current_threshold h new_threshold).

Definition should_collect : gc bool :=
  o ← heap_get options;
  if GcOptions.is_completely_off o then Ret false
  else
    allocated ← heap_get bytes_allocated;
    threshold ← heap_get current_threshold;
    if negb (GcOptions.is_limit_off o) && (limit_bytes o <? allocated)
    then Ret true
    else Ret (threshold <? allocated).

(** ** Collection *)

Definition sweep_and_finish (fuel : nat) : gc Z :=
  live_bytes ← do_sweep fuel;
  update_threshold live_bytes;;
  finish_gc;;
  Ret live_bytes.

Definition get_bytes_allocated : gc Z := heap_get bytes_allocated.

Definition force_collect (fuel : nat) : gc Z :=
  marked ← try_mark_full fuel;
  if marked : bool then sweep_and_finish fuel else get_bytes_allocated.

Definition collect (fuel : nat) : gc unit :=
  c ← should_collect;
  if c : bool then force_collect fuel;; Ret tt else Ret tt.

Fixpoint allocation_count_loop (fuel : nat) (current : option loc) (count : Z) : gc Z :=
  match current with
  | None => Ret count
  | Some a =>
      match fuel with
      | O => out_of_fuel
      | S fuel =>
          current ← box_get a (λ b, next (header b));
          allocation_count_loop fuel current (count + 1)
      end
  end.

Definition allocation_count (fuel : nat) : gc Z :=
  current ← heap_get head;
  allocation_count_loop fuel current 0.

(** ** Allocation *)

(** The loop that links a new object in front of the allocation list. *)
Fixpoint push_loop (fuel : nat) (a : loc) : gc unit :=
  match fuel with
  | O => out_of_fuel
  | S fuel =>
      current_head ← heap_get head;
      header_set a (λ h, set_next h current_head);;
      ok ← heap_update (λ h,
             if bool_decide (head h = current_head)
             then (true, set_head h (Some a)) else (false, h));
      if ok : bool then Ret tt else push_loop fuel a
  end.

(** The mutator assist at the start of [allocate]. *)
Definition assist (fuel : nat) : gc unit :=
  o ← heap_get options;
  if 0 <? assist_work_budget o then
    marking ← check_is_marking_and_increment_busy;
    if marking : bool then
      do_mark_incremental fuel (assist_work_budget o);;
      decrement_busy_marking
    else Ret tt
  else Ret tt.

(** [allocate::<t>(d)]: the address that the returned [GcRoot] holds. *)
Definition allocate (fuel : nat) (t : ty) (d : val) : gc loc :=
  assist fuel;;
  a ← box_new (GcBox_init t d);
  size ← box_get a (λ b, vt_layout_size (vtable (header b)));
  push_loop fuel a;;
  heap_set (λ h, set_bytes_allocated h (usize_fetch_add (bytes_allocated h) size));;
  Ret a.

(** ** The background thread *)

(** [wait_stopped]; [timed_out] is the result of the wait. *)
Definition wait_stopped (c : Z) (timed_out : bool) : gc bool :=
  stopped ← heap_get (λ h, StartStop.wait_entry (bg_thread h) c);
  if stopped : bool then Ret true else Ret (StartStop.wait_result timed_out).

Definition is_stopped (c : Z) : gc bool :=
  heap_get (λ h, StartStop.is_stopped (bg_thread h) c).

(** The incremental marking loop; the result says whether to go on to the sweep
    ([false]: the thread was stopped and has ended the cycle). *)
Fixpoint bg_mark_loop (fuel : nat) (c : Z) : gc bool :=
  match fuel with
  | O => out_of_fuel
  | S n =>
      stopped ← is_stopped c;
      if stopped : bool then finish_gc;; Ret false
      else
        budget ← heap_get (λ h, incremental_work_budget (options h));
        complete ← do_mark_incremental fuel budget;
        if complete : bool then
          busy ← yield_once_if_marking_busy;
          if busy : bool then bg_mark_loop n c else Ret true
        else bg_mark_loop n c
  end.

(** [background_gc_thread]: one element of [timeouts] per round of the outer
    loop. *)
Fixpoint background_gc_thread (fuel : nat) (timeouts : list bool) (c : Z)
    (tracer : Tracer) : gc unit :=
  match timeouts with
  | [] => out_of_fuel
  | timed_out :: timeouts =>
      o ← heap_get options;
      if Duration_is_zero (collection_interval o) then Ret tt
      else
        stop ← wait_stopped c timed_out;
        if stop : bool then Ret tt
        else
          go ← should_collect;
          started ← (if go : bool then try_start_marking else Ret false);
          if started : bool then
            tracer ← do_mark_roots fuel tracer;
            completed ← bg_mark_loop fuel c;
            if completed : bool then
              sweep_and_finish fuel;;
              background_gc_thread fuel timeouts c tracer
            else Ret tt
          else background_gc_thread fuel timeouts c tracer
  end.

(** ** Start and stop *)

(** [StartStopJoinHandle::start]: one critical section. *)
Definition bg_start : gc bool :=
  action (λ w,
    match StartStop.start (bg_thread (heap w)) with
    | None => Fault (Panic ArithmeticOverflow)
    | Some (b, s) =>
        let w' := set_heap w (set_bg_thread (heap w) s) in
        Done b (if b then set_running w' ({[StartStop.counter s]} ∪ running w') else w')
    end).

Definition join (c : Z) : gc unit :=
  action (λ w, if bool_decide (c ∈ running w) then Blocked else Done tt w).

(** [StartStopJoinHandle::stop] *)
Definition stop_background_collection : gc bool :=
  h ← heap_update (λ h,
        let '(x, s) := StartStop.stop_take (bg_thread h) in (x, set_bg_thread h s));
  match h with
  | Some c => join c;; Ret true
  | None => Ret false
  end.

(** ** Destruction *)

Fixpoint drop_loop (fuel : nat) (current : option loc) : gc unit :=
  match current with
  | None => Ret tt
  | Some a =>
      match fuel with
      | O => out_of_fuel
      | S fuel =>
          nxt ← box_get a (λ b, next (header b));
          f ← box_get a (λ b, vt_drop (vtable (header b)));
          call_drop f a;;
          drop_loop fuel nxt
      end
  end.

(** [Drop for Heap], then the destructor of the field [bg_thread]. *)
Definition drop (fuel : nat) : gc unit :=
  current ← heap_get head;
  drop_loop fuel current;;
  stop_background_collection;;
  Ret tt.

(** ** The [Arc] that owns the heap *)

Definition arc_clone : gc unit :=
  modify (λ w, set_strong w (usize_fetch_add (strong w) 1)).

(** The last owner runs the destructor. *)
Definition arc_drop (fuel : nat) : gc unit :=
  last ← action (λ w,
           Done (bool_decide (strong w = 1)) (set_strong w (usize_fetch_sub (strong w) 1)));
  if last : bool then drop fuel else Ret tt.

(** The end of the spawned thread, which a [join] waits for. *)
Definition bg_exit (c : Z) : gc unit :=
  modify (λ w, set_running w (running w ∖ {[c]})).

(** The spawned closure: the thread owns an [Arc] of the heap until it returns. *)
Definition bg_main (fuel : nat) (timeouts : list bool) (c : Z) : gc unit :=
  background_gc_thread fuel timeouts c Tracer.new;;
  arc_drop fuel;;
  bg_exit c.

(** The closure owns a clone of the [Arc]; it is dropped if the thread has been
    started meanwhile. *)
Definition start_background_collection (fuel : nat) : gc bool :=
  o ← heap_get options;
  if GcOptions.is_background_collection_off o then Ret false
  else
    started ← heap_get (λ h, StartStop.is_started (bg_thread h));
    if started : bool then Ret false
    else
      arc_clone;;
      spawned ← bg_start;
      if spawned : bool then Ret true else arc_drop fuel;; Ret false.

(** ** Construction *)

Definition heap_init (o : GcOptions) : Heap := {|
  head := None;
  options := o;
  bytes_allocated := 0;
  current_threshold := min_threshold_bytes o;
  gray_queue := [];
  phase := GcPhase_as_u8 Idle;
  bg_thread := StartStop.new;
  n_busy_marking := 0;
|}.

(** The caller gets the one [Arc] that [Arc::new] makes. *)
Definition with_options (fuel : nat) (o : GcOptions) : gc unit :=
  modify (λ w, set_strong (set_heap w (heap_init o)) 1);;
  start_background_collection fuel;;
  Ret tt.

Definition new (fuel : nat) : gc unit := with_options fuel GcOptions.new.
Definition off (fuel : nat) : gc unit := with_options fuel GcOptions.off.

End ops.
End Heap.
