(* ===== verification/Mutator.v ===== *)
(** * The client interface ([src/src/ptr.rs], [src/src/cell.rs], [src/src/gc.rs])

    Smart pointers, cells with their write barrier, and the thread-local
    contexts.  [th] is the thread that executes an operation. *)

From S2P Require Import Prelude Prog Color TraceImpls GcBox Options World Tracing.
From S2P Require Import HeapOps.
Open Scope Z_scope.
Open Scope gc_scope.

(** ** Smart pointers *)

Module GcPtr.
(** [new] and [clone] wrap and copy an address. *)
Definition new (a : loc) : loc := a.
Definition clone (a : loc) : loc := a.
(** [GcPtr::header_ptr], when the header behind the pointer is read. *)
Definition header_ptr (a : loc) : gc GcHeader := box_get a header.
(** [GcPtr::root] *)
Definition root (a : loc) : gc loc := inc_root a;; Ret a.
(** [GcPtr::as_ptr], when the raw pointer is read. *)
Definition as_ptr (a : loc) : gc val := box_get a data.
End GcPtr.

Module GcRoot.
(** [new_from_nonnull] and [as_ptr] wrap and unwrap the same address. *)
Definition new_from_nonnull (a : loc) : loc := a.
Definition as_ptr (r : loc) : loc := r.
Definition deref (r : loc) : gc val := box_get r data.
Definition clone (r : loc) : gc loc := inc_root r;; Ret r.
Definition drop (r : loc) : gc unit := dec_root r.
End GcRoot.

(** ** Thread-local contexts *)

Module GcContext.
Section context.
Context `{Env}.

Definition set_current_context (th : nat) (ctx : loc) : gc unit :=
  action (λ w,
    match tls w !! th with
    | Some _ => Fault (Panic ContextAlreadySet)
    | None => Done tt (set_tls w (<[th := ctx]> (tls w)))
    end).

Definition reset_current_context (th : nat) (ctx : loc) : gc unit :=
  modify (λ w,
    if bool_decide (tls w !! th = Some ctx) then set_tls w (delete th (tls w)) else w).

(** [with_current_context(f)]; [f] gets the address of the context. *)
Definition with_current_context (th : nat) (f : loc → gc unit) : gc bool :=
  ctx ← get (λ w, tls w !! th);
  match ctx with
  | None => Ret false
  | Some ctx => f ctx;; Ret true
  end.

(** The tracer [local_gray] of a context. *)
Definition local_gray_get (ctx : loc) : gc Tracer :=
  action (λ w,
    match ctxs w !! ctx with
    | Some tracer => Done tracer w
    | None => Fault (UseAfterFree ctx)
    end).
Definition local_gray_set (ctx : loc) (tracer : Tracer) : gc unit :=
  modify (λ w, set_ctxs w (<[ctx := tracer]> (ctxs w))).

(** [GcContext::with_heap] for the heap of the world; the context takes over the
    caller's [Arc]. *)
Definition with_heap (th : nat) : gc loc :=
  ctx ← action (λ w,
          let c := malloc (dom (ctxs w)) in
          Done c (set_ctxs w (<[c := Tracer.new]> (ctxs w))));
  set_current_context th ctx;;
  Ret ctx.

Definition with_options (fuel th : nat) (o : GcOptions) : gc loc :=
  Heap.with_options fuel o;; with_heap th.
Definition new (fuel th : nat) : gc loc := Heap.new fuel;; with_heap th.
Definition off (fuel th : nat) : gc loc := Heap.off fuel;; with_heap th.
Definition default (fuel th : nat) : gc loc := new fuel th.

Definition allocate (fuel : nat) (t : ty) (d : val) : gc loc := Heap.allocate fuel t d.

(** [Drop for GcContext], then the destructors of the fields of the pinned box,
    the [Arc] first. *)
Definition drop (fuel th : nat) (ctx : loc) : gc unit :=
  reset_current_context th ctx;;
  Heap.arc_drop fuel;;
  modify (λ w, set_ctxs w (delete ctx (ctxs w))).

End context.
End GcContext.

(** ** Cells *)

Module GcCell.
Section cell.
Context `{Env}.

(** A fresh location holds the value. *)
Definition new (v : val) : gc loc :=
  action (λ w,
    let c := malloc (dom (cells w)) in
    Done c (set_cells w (<[c := v]> (cells w)))).

Definition get (c : loc) : gc val := cell_get c.

(** The closure passed to [with_current_context] by [set]. *)
Definition barrier (new_value : val) (ctx : loc) : gc unit :=
  marking ← Heap.check_is_marking_and_increment_busy;
  if marking : bool then
    tracer ← GcContext.local_gray_get ctx;
    tracer ← Tracer.trace_val tracer new_value;
    tracer ← Heap.merge_work tracer;
    GcContext.local_gray_set ctx tracer;;
    Heap.decrement_busy_marking
  else Ret tt.

Definition set (th : nat) (c : loc) (new_value : val) : gc unit :=
  GcContext.with_current_context th (barrier new_value);;
  cell_set c new_value.

End cell.
End GcCell.
