(* ===== verification/Marking.v ===== *)
(** * The mark phase

    The tri-colour invariant of a mark phase that one thread runs, and its
    preservation by [Tracer::mark], by tracing an object, by the marking loops
    and by the root scan.  [Marked] states what a full mark phase establishes. *)

From stdpp Require Import relations.
From S2P Require Import Prelude Prog Color TraceImpls GcBox Options BgThread World.
From S2P Require Import Graph Tracing State HeapOps.
Open Scope Z_scope.

(** [tri G S P tr w]: the marking of the graph [G] is under way, [P] are the
    objects being scanned, [tr] the tracer's local vector, and the objects
    marked so far are in the set [S]. *)
Record tri `{Env} (G : graph) (S : loc → Prop) (P tr : list loc) (w : world) : Prop := {
  tri_abs : abs w = G;
  tri_mem : wf_mem (mem w);
  tri_alloc a : a ∈ P ++ tr ++ gray_queue (heap w) → is_Some (mem w !! a);
  tri_gray a : color_of w a = Some Gray → a ∈ P ++ tr ++ gray_queue (heap w);
  tri_black a b : color_of w a = Some Black → edge G a b → nonwhite w b;
  tri_sound a : nonwhite w a → S a;
  tri_sound_queue a : a ∈ P ++ tr ++ gray_queue (heap w) → S a;
}.

(** The work that is left: queued objects, and white ones that may be queued. *)
Definition work (tr : list loc) (w : world) : nat :=
  length tr + length (gray_queue (heap w)) + white_count w.
Arguments work : simpl never.

(** [advance tr w tr' w']: marking went on from [w] to [w']. *)
Record advance (tr : list loc) (w : world) (tr' : list loc) (w' : world) : Prop := {
  adv_recolored : recolored w w';
  adv_nonwhite a : nonwhite w a → nonwhite w' a;
  adv_work : (work tr' w' ≤ work tr w)%nat;
}.

Lemma advance_refl tr w : advance tr w tr w.
Proof. by split. Qed.

Lemma advance_trans tr w tr1 w1 tr2 w2 :
  advance tr w tr1 w1 → advance tr1 w1 tr2 w2 → advance tr w tr2 w2.
Proof. intros [] []. split; [by etransitivity|auto|lia]. Qed.

#[export] Hint Resolve advance_refl : gc.

Section marking.
Context `{Env} `{!TraceContract}.
Variables (G : graph) (S : loc → Prop).
Hypothesis HG : wf_graph G.
Hypothesis HS : ∀ a b, S a → edge G a b → S b.

Lemma tri_lookup P tr w a o :
  tri G S P tr w → objs G !! a = Some o →
  ∃ b, mem w !! a = Some b ∧ abs_box b = o.
Proof.
  intros Ht Ho. rewrite <- (tri_abs _ _ _ _ _ Ht) in Ho. cbn in Ho.
  rewrite lookup_fmap in Ho. apply fmap_Some in Ho as (b & ? & ->). eauto.
Qed.

Lemma tri_obj P tr w a b :
  tri G S P tr w → mem w !! a = Some b → objs G !! a = Some (abs_box b).
Proof.
  intros Ht Hb. rewrite <- (tri_abs _ _ _ _ _ Ht). cbn. by rewrite lookup_fmap, Hb.
Qed.

(** ** Painting an object *)

(** Painting an object gray and queueing it. *)
Lemma tri_paint_gray P tr w a b :
  tri G S P tr w → S a → mem w !! a = Some b → box_color b = White →
  tri G S P (vec_push tr a) (paint w a Gray) ∧
  advance tr w (vec_push tr a) (paint w a Gray) ∧ nonwhite (paint w a Gray) a.
Proof.
  intros Ht Ha Hb Hw. destruct Ht as [Habs Hmem Halloc Hgray Hblack Hsound Hqueue].
  assert (is_Some (mem w !! a)) as Hs by eauto. unfold vec_push.
  split; [|split; [split|by apply nonwhite_paint_eq]].
  - split.
    + rewrite <- Habs. symmetry. apply recolored_abs, paint_recolored.
    + by apply wf_mem_paint.
    + intros a' Hin. apply (recolored_is_Some w); [apply paint_recolored|].
      cbn in Hin. destruct (decide (a' = a)) as [->|]; [done|]. apply Halloc. set_solver.
    + intros a' Hg. destruct (decide (a = a')) as [<-|Hne]; [set_solver|].
      rewrite color_of_paint_ne in Hg by done. apply Hgray in Hg. cbn. set_solver.
    + intros a1 a2 Hbl He. destruct (decide (a = a1)) as [<-|Hne].
      * by rewrite color_of_paint_eq in Hbl.
      * rewrite color_of_paint_ne in Hbl by done. apply nonwhite_paint; [done|]. eauto.
    + intros a' (c & Hc & Hn). destruct (decide (a = a')) as [<-|Hne]; [done|].
      rewrite color_of_paint_ne in Hc by done. apply Hsound. by exists c.
    + intros a' Hin. cbn in Hin. destruct (decide (a' = a)) as [->|]; [done|].
      apply Hqueue. set_solver.
  - apply paint_recolored.
  - intros a' Ha'. by apply nonwhite_paint.
  - pose proof (white_count_paint w a b Gray ltac:(done) Hb) as Hcount.
    rewrite decide_True in Hcount by done. unfold work. cbn. autorewrite with gc_simpl. lia.
Qed.

(** Painting an object black whose targets are all marked; it need not be
    pending any more. *)
Lemma tri_paint_black P P' tr w a :
  tri G S P tr w → S a → is_Some (mem w !! a) →
  (∀ b, edge G a b → nonwhite w b) →
  (∀ x, x ∈ P' → x ∈ P) → (∀ x, x ∈ P → x = a ∨ x ∈ P') →
  tri G S P' tr (paint w a Black) ∧
  advance tr w tr (paint w a Black) ∧ nonwhite (paint w a Black) a.
Proof.
  intros Ht Ha Hs Hch HP1 HP2. destruct Ht as [Habs Hmem Halloc Hgray Hblack Hsound Hqueue].
  assert (∀ x, x ∈ P' ++ tr ++ gray_queue (heap w) → x ∈ P ++ tr ++ gray_queue (heap w))
    as Hsub by (intros x; rewrite !elem_of_app; intros [?|?]; auto).
  split; [|split; [split|by apply nonwhite_paint_eq]].
  - split.
    + rewrite <- Habs. symmetry. apply recolored_abs, paint_recolored.
    + by apply wf_mem_paint.
    + intros a' Hin. apply (recolored_is_Some w); [apply paint_recolored|]. auto.
    + intros a' Hg. destruct (decide (a = a')) as [<-|Hne].
      { by rewrite color_of_paint_eq in Hg. }
      rewrite color_of_paint_ne in Hg by done. apply Hgray in Hg. cbn.
      rewrite !elem_of_app in Hg |- *. destruct Hg as [Hg|]; [|by right].
      left. by destruct (HP2 _ Hg) as [->|].
    + intros a1 a2 Hbl He. apply nonwhite_paint; [done|].
      destruct (decide (a = a1)) as [<-|Hne]; [by apply Hch|].
      rewrite color_of_paint_ne in Hbl by done. eauto.
    + intros a' (c & Hc & Hn). destruct (decide (a = a')) as [<-|Hne]; [done|].
      rewrite color_of_paint_ne in Hc by done. apply Hsound. by exists c.
    + intros a' Hin. by apply Hqueue, Hsub.
  - apply paint_recolored.
  - intros a' Ha'. by apply nonwhite_paint.
  - unfold work. cbn. pose proof (white_count_paint_le w a Black ltac:(done)). lia.
Qed.

(** ** [Tracer::mark] *)

(** The result of marking [a]: the invariant, progress, and [a] is not white. *)
Definition marked (P : list loc) (tr : list loc) (w : world) (Q : world → Prop)
    (tr' : list loc) (w' : world) : Prop :=
  tri G S P tr' w' ∧ advance tr w tr' w' ∧ Q w'.

Lemma mark_header_wp P tr w a :
  tri G S P tr w → S a → is_Some (mem w !! a) →
  wp (Tracer.mark_header tr a) (marked P tr w (λ w', nonwhite w' a)) w.
Proof.
  intros Ht Ha [b Hb]. unfold Tracer.mark_header, mark_white_to_gray, header_update.
  wp_next. rewrite Hb. destruct (wf_color _ (tri_mem _ _ _ _ _ Ht) _ _ Hb) as [c Hc].
  unfold AtomicColor.mark_white_to_gray, AtomicColor.compare_exchange.
  destruct c; rewrite Hc; cbn.
  - assert (box_color b = White) as Hw by (unfold box_color, AtomicColor.load; by rewrite Hc).
    pose proof (tri_paint_gray _ _ _ _ _ Ht Ha Hb Hw) as Hp.
    by rewrite (paint_lookup _ _ _ _ Hb) in Hp.
  - replace (set_mem w _) with w; [|by destruct w, b as [[]]; cbn in *; rewrite insert_id].
    split; [done|]. split; [apply advance_refl|].
    exists Gray. split; [|done]. apply color_of_Some. exists b. split; [done|].
    unfold box_color, AtomicColor.load. by rewrite Hc.
  - replace (set_mem w _) with w; [|by destruct w, b as [[]]; cbn in *; rewrite insert_id].
    split; [done|]. split; [apply advance_refl|].
    exists Black. split; [|done]. apply color_of_Some. exists b. split; [done|].
    unfold box_color, AtomicColor.load. by rewrite Hc.
Qed.

Lemma mark_black_wp w a (Q : unit → world → Prop) :
  is_Some (mem w !! a) → Q tt (paint w a Black) → wp (mark_black a) Q w.
Proof.
  intros [b Hb]. unfold mark_black, header_set, header_update. cbn.
  rewrite Hb. by rewrite (paint_lookup _ _ _ _ Hb).
Qed.

Lemma NO_TRACE_no_edge P tr w a o b :
  tri G S P tr w → objs G !! a = Some o → NO_TRACE (ob_ty o) = true → ¬ edge G a b.
Proof.
  intros Ht Ho Hn (o' & t & Ho' & Hp). simplify_eq.
  pose proof (wf_obj_type _ HG _ _ Ho) as Hty.
  pose proof (NO_TRACE_owned _ _ Hty Hn) as Hnil.
  destruct Hp as [Hp|? ? Hp]; rewrite Hnil in Hp; by apply elem_of_nil in Hp.
Qed.

Lemma mark_wp P tr w t a o :
  tri G S P tr w → S a → objs G !! a = Some o → ob_ty o = t →
  wp (Tracer.mark tr t a) (marked P tr w (λ w', nonwhite w' a)) w.
Proof.
  intros Ht Ha Ho Hty. destruct (tri_lookup _ _ _ _ _ Ht Ho) as (b & Hb & _).
  unfold Tracer.mark. destruct (NO_TRACE t) eqn:Hn.
  - rewrite wp_bind. apply mark_black_wp; [by eauto|]. cbn.
    apply (tri_paint_black P P); eauto.
    intros b' He. exfalso. eapply NO_TRACE_no_edge; [done|exact Ho|by rewrite Hty|done].
  - apply mark_header_wp; eauto.
Qed.

(** ** Tracing a value *)

(** What the requests of a value mark. *)
Definition targets (rs : list treq) (a : loc) : Prop :=
  (∃ t, RMark t a ∈ rs) ∨
  (∃ c v t, RCell c ∈ rs ∧ gcells G !! c = Some v ∧ RMark t a ∈ owned v).

(** Requests that can be served: they lead to objects of [S] of the right type
    and to existing cells. *)
Record wf_reqs (rs : list treq) : Prop := {
  wf_reqs_mark t a : RMark t a ∈ rs → S a ∧ ∃ o, objs G !! a = Some o ∧ ob_ty o = t;
  wf_reqs_cell c : RCell c ∈ rs → ∃ v, gcells G !! c = Some v ∧
    ∀ t a, RMark t a ∈ owned v → S a ∧ ∃ o, objs G !! a = Some o ∧ ob_ty o = t;
}.

Lemma wf_reqs_cons r rs : wf_reqs (r :: rs) → wf_reqs rs.
Proof.
  intros [Hm Hc]. split; intros.
  - apply Hm. by right.
  - apply Hc. by right.
Qed.

Lemma marked_bind (P tr : list loc) w (Q Q' R : world → Prop) (p : gc Tracer) k :
  wp p (marked P tr w Q) w →
  (∀ tr1 w1, tri G S P tr1 w1 → advance tr w tr1 w1 → Q w1 → wp (k tr1) (marked P tr1 w1 Q') w1) →
  (∀ w1 w2, (∀ a, nonwhite w1 a → nonwhite w2 a) → Q w1 → Q w2) →
  (∀ w', Q w' → Q' w' → R w') →
  wp (bind p k) (marked P tr w R) w.
Proof.
  intros Hp Hk Hmono HR. eapply wp_bind_mono; [exact Hp|].
  intros tr1 w1 (Ht1 & Hadv1 & HQ1). eapply wp_mono; [by apply Hk|].
  intros tr2 w2 (Ht2 & Hadv2 & HQ2). split; [done|].
  split; [by eapply advance_trans|]. apply HR; [|done].
  eapply Hmono; [|done]. apply Hadv2.
Qed.

Lemma mark_all_wp rs P tr w :
  tri G S P tr w → Forall is_mark rs →
  (∀ t a, RMark t a ∈ rs → S a ∧ ∃ o, objs G !! a = Some o ∧ ob_ty o = t) →
  wp (Tracer.mark_all tr rs)
     (marked P tr w (λ w', ∀ t a, RMark t a ∈ rs → nonwhite w' a)) w.
Proof.
  intros Ht Hm. revert tr w Ht.
  induction Hm as [|[t a|c] rs Hr Hm IH]; intros tr w Ht Hwf; cbn [Tracer.mark_all].
  - split; [done|]. split; [apply advance_refl|]. intros ? ? []%elem_of_nil.
  - destruct (Hwf t a ltac:(by left)) as (Ha & o & Ho & Hty).
    apply (marked_bind P tr w (λ w', nonwhite w' a)
      (λ w', ∀ t a, RMark t a ∈ rs → nonwhite w' a)).
    + by eapply mark_wp.
    + intros tr1 w1 Ht1 _ _. apply IH; [done|]. intros t' a' Hin. apply Hwf. by right.
    + auto.
    + intros w' Hna Hrs.
      intros t' a' [[= <- <-]|Hin]%elem_of_cons; eauto.
  - done.
Qed.

Lemma trace_all_wp rs P tr w :
  tri G S P tr w → wf_reqs rs →
  wp (Tracer.trace_all tr rs) (marked P tr w (λ w', ∀ a, targets rs a → nonwhite w' a)) w.
Proof.
  revert tr w. induction rs as [|[t a|c] rs IH]; intros tr w Ht Hwf; cbn [Tracer.trace_all].
  - split; [done|]. split; [apply advance_refl|].
    intros a [[t Hin]|(c & v & t & Hin & _)]; by apply elem_of_nil in Hin.
  - destruct (wf_reqs_mark _ Hwf t a ltac:(by left)) as (Ha & o & Ho & Hty).
    apply (marked_bind P tr w (λ w', nonwhite w' a)
      (λ w', ∀ a, targets rs a → nonwhite w' a)).
    + by eapply mark_wp.
    + intros tr1 w1 Ht1 _ _. apply IH; [done|]. by eapply wf_reqs_cons.
    + auto.
    + intros w' Hna Hrs.
      intros a' [[t' [[= <- <-]|Hin]%elem_of_cons]|(c & v & t' & Hin & ?)]; [done| |].
      * apply Hrs. left. eauto.
      * apply elem_of_cons in Hin as [?|Hin]; [done|]. apply Hrs. right. eauto.
  - destruct (wf_reqs_cell _ Hwf c ltac:(by left)) as (v & Hv & Hown).
    assert (cells w = gcells G) as Hcells by by rewrite <- (tri_abs _ _ _ _ _ Ht).
    destruct (wf_cell_type _ HG _ _ Hv) as (tv & Hcopy & Htv).
    wp_next. rewrite Hcells, Hv.
    apply (marked_bind P tr w
      (λ w', ∀ t a, RMark t a ∈ trace v → nonwhite w' a)
      (λ w', ∀ a, targets rs a → nonwhite w' a)).
    + apply mark_all_wp; [done| |].
      * eapply Forall_forall. intros r Hr. rewrite trace_owned in Hr by done.
        pose proof (copy_owned _ _ Htv Hcopy) as Hall.
        rewrite Forall_forall in Hall. by apply Hall.
      * intros t a Hin. apply Hown. by rewrite <- trace_owned.
    + intros tr1 w1 Ht1 _ _. apply IH; [done|]. by eapply wf_reqs_cons.
    + intros w1 w2 Hnw HQ t a Hin. eauto.
    + intros w' Hna Hrs.
      intros a' [[t' Hin]|(c' & v' & t' & Hin & Hc' & Hin')].
      * apply elem_of_cons in Hin as [?|Hin]; [done|]. apply Hrs. left. eauto.
      * apply elem_of_cons in Hin as [[= ->]|Hin]; [|apply Hrs; right; eauto 6].
        simplify_eq. apply (Hna t'). by rewrite trace_owned.
Qed.

(** ** Scanning one object *)

(** The requests of an object can be served, and lead to its targets. *)
Lemma wf_scan a b :
  S a → objs G !! a = Some (abs_box b) →
  wf_reqs (trace (data b)) ∧ ∀ c, edge G a c → targets (trace (data b)) c.
Proof.
  intros Ha Ho. pose proof (wf_obj_type _ HG _ _ Ho) as Hty. cbn in Hty.
  destruct (wf_obj_val _ HG _ _ Ho) as [Hpts Hcl]. cbn in Hpts, Hcl.
  assert (∀ t c, points (gcells G) (data b) t c →
    S c ∧ ∃ o, objs G !! c = Some o ∧ ob_ty o = t) as Hpt.
  { intros t c Hp. split; [|by apply Hpts]. apply (HS a); [done|]. by exists (abs_box b), t. }
  split; [split|].
  - intros t c Hin. apply Hpt. apply points_here. by rewrite <- trace_owned.
  - intros c Hin. rewrite trace_owned in Hin by done.
    destruct (Hcl _ Hin) as [v Hv]. exists v. split; [done|].
    intros t d Hd. apply Hpt. by eapply points_cell.
  - intros c (o & t & Ho' & Hp). simplify_eq. destruct Hp as [Hp|c' v' Hp Hc' Hin].
    + left. exists t. by rewrite trace_owned.
    + right. exists c', v', t. by rewrite trace_owned.
Qed.

Lemma call_trace_wp P tr w a b :
  tri G S P tr w → S a → mem w !! a = Some b →
  wp (Tracer.call_trace (vt_trace (vtable (header b))) a tr)
     (marked P tr w (λ w', ∀ c, edge G a c → nonwhite w' c)) w.
Proof.
  intros Ht Ha Hb. pose proof (tri_obj _ _ _ _ _ Ht Hb) as Ho.
  rewrite (wf_vtable _ (tri_mem _ _ _ _ _ Ht) _ _ Hb). unfold GcVTable_new. cbn [vt_trace].
  destruct (NO_TRACE (box_ty b)) eqn:Hn; cbn [Tracer.call_trace].
  - split; [done|]. split; [apply advance_refl|].
    intros c He. exfalso. eapply (NO_TRACE_no_edge _ _ _ _ _ _ Ht Ho Hn); done.
  - wp_next. rewrite Hb. destruct (wf_scan a b Ha Ho) as [Hreqs Htgt].
    eapply wp_mono; [by apply trace_all_wp|].
    intros tr' w' (Ht' & Hadv & Hall). split; [done|]. split; [done|]. auto.
Qed.

(** ** Moving objects between the tracer and the shared queue *)

Lemma steal_loop_perm n self src self' src' :
  Tracer.steal_loop n self src = (self', src') → self' ++ src' ≡ₚ self ++ src.
Proof.
  revert self src. induction n as [|n IH]; intros self src; cbn; [by intros [= <- <-]|].
  destruct (vec_pop src) as [[x r]|] eqn:Hp; [|by intros [= <- <-]].
  apply vec_pop_Some in Hp as ->. intros ->%IH. unfold vec_push.
  rewrite <- app_assoc. apply Permutation_app_head. apply Permutation_cons_append.
Qed.

Lemma steal_loop_length n self src :
  (length self ≤ length (Tracer.steal_loop n self src).1)%nat.
Proof.
  revert self src. induction n as [|n IH]; intros self src; cbn; [done|].
  destruct (vec_pop src) as [[x r]|]; [|done].
  etransitivity; [|apply IH]. unfold vec_push. rewrite length_app. lia.
Qed.

Lemma steal_from_spec self n src r self' src' :
  0 < n → Tracer.steal_from self n src = (r, self', src') →
  self' ++ src' ≡ₚ self ++ src ∧
  (r = false → src = [] ∧ self' = self ∧ src' = src) ∧ (r = true → self' ≠ []).
Proof.
  intros Hn. unfold Tracer.steal_from. case_bool_decide as Hsrc; cbn.
  { intros [= <- <- <-]. done. }
  replace (n =? 0) with false by (symmetry; bool_lia).
  destruct (Tracer.steal_loop (Z.to_nat n) self src) as [self1 src1] eqn:E.
  intros [= <- <- <-]. split; [by eapply steal_loop_perm|]. split; [done|]. intros _ ->.
  destruct (vec_pop src) as [[x src0]|] eqn:Hp; [|by apply vec_pop_None in Hp].
  destruct (Z.to_nat n) as [|k] eqn:Hk; [lia|]. cbn in E. rewrite Hp in E.
  pose proof (steal_loop_length k (vec_push self x) src0) as Hlen. rewrite E in Hlen.
  unfold vec_push in Hlen. rewrite length_app in Hlen. cbn in Hlen. lia.
Qed.

Definition with_queue (w : world) (q : list loc) : world :=
  set_heap w (set_gray_queue (heap w) q).

(** Only which objects are queued matters. *)
Lemma tri_elems P P' tr tr' q' w :
  (∀ x, x ∈ P' ++ tr' ++ q' ↔ x ∈ P ++ tr ++ gray_queue (heap w)) →
  tri G S P tr w → tri G S P' tr' (with_queue w q').
Proof.
  intros HP [Habs Hmem Halloc Hgray Hblack Hsound Hqueue]. split; cbn; try done.
  - intros a. rewrite HP. apply Halloc.
  - intros a Hg. rewrite HP. by apply Hgray.
  - intros a. rewrite HP. apply Hqueue.
Qed.

Lemma tri_perm P P' tr tr' q' w :
  P' ++ tr' ++ q' ≡ₚ P ++ tr ++ gray_queue (heap w) →
  tri G S P tr w → tri G S P' tr' (with_queue w q').
Proof. intros HP. apply tri_elems. intros x. by rewrite HP. Qed.

Lemma with_queue_id w : with_queue w (gray_queue (heap w)) = w.
Proof. by destruct w as [[]]. Qed.

Lemma advance_perm tr tr' q' w :
  tr' ++ q' ≡ₚ tr ++ gray_queue (heap w) → advance tr w tr' (with_queue w q').
Proof.
  intros Hp%Permutation_length. rewrite !length_app in Hp.
  split; [apply queue_recolored|done|]. unfold work, white_count. cbn. lia.
Qed.

Lemma steal_work_wp tr w n (Q : bool * Tracer → world → Prop) :
  tri G S [] tr w → 0 < n →
  (∀ tr' q', tri G S [] tr' (with_queue w q') → advance tr w tr' (with_queue w q') →
     tr' ≠ [] → Q (true, tr') (with_queue w q')) →
  (gray_queue (heap w) = [] → Q (false, tr) w) →
  wp (Heap.steal_work tr n) Q w.
Proof.
  intros Ht Hn Hyes Hno. unfold Heap.steal_work, heap_update. cbn.
  destruct (Tracer.steal_from tr n (gray_queue (heap w))) as [[r tr'] q'] eqn:E.
  cbn. apply steal_from_spec in E as (Hp & Hf & Hr); [|done].
  destruct r.
  - apply Hyes; [|by apply advance_perm|by apply Hr]. by apply (tri_perm [] [] tr).
  - destruct (Hf eq_refl) as (Hq & -> & ->).
    replace (set_heap w _) with w by (by destruct w as [[]]). by apply Hno.
Qed.

(** ** The marking loops *)

(** What a marking loop guarantees: work is never created, and it stops early
    only when there is none left. *)
Definition mark_loop_post (tr : list loc) (w : world) (budget work_done : Z)
    (r : Z * Tracer) (w' : world) : Prop :=
  tri G S [] r.2 w' ∧ advance tr w r.2 w' ∧ work_done ≤ r.1 ∧
  (r.1 - work_done) + Z.of_nat (work r.2 w') ≤ Z.of_nat (work tr w) ∧
  (budget ≤ r.1 ∨ r.2 = [] ∧ gray_queue (heap w') = []).

Definition loop_fuel (tr : list loc) (w : world) : nat :=
  2 * work tr w + (if bool_decide (tr = []) then 1 else 0).

Lemma loop_fuel_nil w : loop_fuel [] w = (2 * work [] w + 1)%nat.
Proof. done. Qed.

(** One object is popped, scanned and blackened. *)
Lemma process_wp {A} tr a w (k : Tracer → gc A) (Q : A → world → Prop) :
  tri G S [] (vec_push tr a) w →
  (∀ tr' w', tri G S [] tr' w' → advance (vec_push tr a) w tr' w' →
     (work tr' w' < work (vec_push tr a) w)%nat → wp (k tr') Q w') →
  wp (f ← box_get a (λ b, vt_trace (vtable (header b)));
      tr' ← Tracer.call_trace f a tr; mark_black a;; k tr')%gc Q w.
Proof.
  intros Ht HQ.
  assert (a ∈ [] ++ vec_push tr a ++ gray_queue (heap w)) as Hin by (unfold vec_push; set_solver).
  destruct (tri_alloc _ _ _ _ _ Ht a Hin) as [b Hb].
  pose proof (tri_sound_queue _ _ _ _ _ Ht a Hin) as Ha.
  assert (tri G S [a] tr w) as Ht1.
  { replace w with (with_queue w (gray_queue (heap w))) by (by destruct w as [[]]).
    apply (tri_perm [] [a] (vec_push tr a)); [|done]. unfold vec_push. cbn. rewrite <- app_assoc.
    apply Permutation_middle. }
  wp_next. rewrite Hb. eapply wp_bind_mono; [by apply call_trace_wp|].
  intros tr1 w1 (Ht2 & Hadv & Hch). cbv beta. rewrite wp_bind.
  assert (is_Some (mem w1 !! a)) as Hs1.
  { eapply recolored_is_Some; [apply Hadv|]. eauto. }
  destruct (tri_paint_black [a] [] tr1 w1 a Ht2 Ha Hs1 Hch) as (Ht3 & Hadv3 & _);
    [set_solver..|].
  apply mark_black_wp; [done|].
  pose proof (adv_work _ _ _ _ Hadv) as Hw1. pose proof (adv_work _ _ _ _ Hadv3) as Hw3.
  assert (work tr w < work (vec_push tr a) w)%nat as Hlt.
  { unfold work, vec_push. autorewrite with gc_simpl. lia. }
  apply HQ; [done| |lia]. split; [| |lia].
  - etransitivity; [apply Hadv|apply Hadv3].
  - intros x Hx. apply Hadv3. by apply Hadv.
Qed.

Lemma mark_loop_post_step tr w tr1 w1 budget done0 done1 r w' :
  advance tr w tr1 w1 → done0 ≤ done1 →
  (done1 - done0) + Z.of_nat (work tr1 w1) ≤ Z.of_nat (work tr w) →
  mark_loop_post tr1 w1 budget done1 r w' → mark_loop_post tr w budget done0 r w'.
Proof.
  intros Hadv Hd Hw (Ht & Hadv' & Hle & Hsum & Hend).
  split; [done|]. split; [by eapply advance_trans|]. split; [lia|]. split; [lia|done].
Qed.

(** Enough fuel is twice the work that is left, plus one to steal. *)
Lemma mark_loop_wp fuel tr budget work_done w :
  tri G S [] tr w → (loop_fuel tr w < fuel)%nat →
  wp (Heap.mark_loop fuel tr budget work_done) (mark_loop_post tr w budget work_done) w.
Proof.
  revert tr work_done w. induction fuel as [|fuel IH]; intros tr work_done w Ht Hfuel; [lia|].
  cbn [Heap.mark_loop].
  destruct (work_done <? budget) eqn:Hb; cycle 1.
  { split; [done|]. split; [apply advance_refl|]. cbn. split; [done|].
    split; [lia|]. left. bool_lia. }
  unfold Tracer.pop_work. destruct (vec_pop tr) as [[a tr0]|] eqn:Hp.
  - apply vec_pop_Some in Hp as ->. apply process_wp; [done|].
    intros tr1 w1 Ht1 Hadv Hlt. eapply wp_mono; [apply IH; [done|]|].
    + unfold loop_fuel in *. repeat case_bool_decide; lia.
    + intros r w'. apply mark_loop_post_step; [done|lia|lia].
  - apply vec_pop_None in Hp as ->. rewrite wp_bind.
    apply steal_work_wp; [done|done| |]; cbv beta.
    + intros tr1 q1 Ht1 Hadv Hne. eapply wp_mono; [apply IH; [done|]|].
      * pose proof (adv_work _ _ _ _ Hadv). unfold loop_fuel in *. cbn in Hfuel.
        rewrite bool_decide_eq_false_2 by done. lia.
      * intros r w'. apply mark_loop_post_step; [done|lia|].
        pose proof (adv_work _ _ _ _ Hadv). lia.
    + intros Hq. split; [done|]. split; [apply advance_refl|]. cbn.
      split; [done|]. split; [lia|by right].
Qed.

(** [merge_work] moves the tracer's objects to the shared queue. *)
Lemma merge_work_wp tr w (Q : Tracer → world → Prop) :
  tri G S [] tr w →
  (∀ w', tri G S [] [] w' → advance tr w [] w' →
     gray_queue (heap w') = gray_queue (heap w) ++ tr → Q [] w') →
  wp (Heap.merge_work tr) Q w.
Proof.
  intros Ht HQ. unfold Heap.merge_work, heap_update. cbn.
  apply (HQ (with_queue w (gray_queue (heap w) ++ tr))); [| |done].
  - apply (tri_perm [] [] tr); [|done]. cbn. apply Permutation_app_comm.
  - apply advance_perm. cbn. apply Permutation_app_comm.
Qed.

Lemma do_mark_with_tracer_wp fuel tr budget w :
  tri G S [] tr w → (loop_fuel tr w < fuel)%nat → 0 ≤ budget →
  wp (Heap.do_mark_with_tracer fuel tr budget)
     (λ r w', mark_loop_post tr w budget 0 r w' ∧ r.2 = []) w.
Proof.
  intros Ht Hfuel Hb. unfold Heap.do_mark_with_tracer.
  eapply wp_bind_mono; [by apply mark_loop_wp|].
  intros [done1 tr1] w1 (Ht1 & Hadv1 & Hle & Hsum & Hend); cbn [fst snd] in *.
  unfold Tracer.has_work. case_bool_decide as Htr; cbn [negb].
  - subst tr1. wp_next. done.
  - rewrite wp_bind. apply merge_work_wp; [done|]. intros w2 Ht2 Hadv2 Hq2. cbn.
    pose proof (adv_work _ _ _ _ Hadv2).
    split; [|done]. split; [done|]. split; [by eapply advance_trans|].
    cbn. split; [done|]. split; [lia|]. left. destruct Hend as [?|[-> _]]; done.
Qed.

Lemma do_mark_work_full_wp fuel tr w :
  tri G S [] tr w → (loop_fuel tr w < fuel)%nat →
  0 < incremental_work_budget (options (heap w)) →
  n_busy_marking (heap w) = 0 →
  wp (Heap.do_mark_work_full fuel tr)
     (λ tr' w', tri G S [] [] w' ∧ advance tr w [] w' ∧ gray_queue (heap w') = []) w.
Proof.
  enough (∀ n tr w, tri G S [] tr w → (loop_fuel tr w < n)%nat →
    0 < incremental_work_budget (options (heap w)) → n_busy_marking (heap w) = 0 →
    wp (Heap.do_mark_work_full n tr)
      (λ tr' w', tri G S [] [] w' ∧ advance tr w [] w' ∧ gray_queue (heap w') = []) w)
    by auto. clear fuel tr w.
  induction n as [|n IH]; intros tr w Ht Hfuel Hbud Hbusy; [lia|].
  cbn [Heap.do_mark_work_full]. wp_next.
  eapply wp_bind_mono; [apply do_mark_with_tracer_wp; [done|lia|lia]|].
  intros [done1 tr1] w1 [(Ht1 & Hadv1 & Hle & Hsum & Hend) Hnil]; cbn in *. subst tr1.
  assert (n_busy_marking (heap w1) = 0) as Hbusy1
    by by rewrite (recolored_busy w w1) by apply Hadv1.
  assert (incremental_work_budget (options (heap w1)) =
          incremental_work_budget (options (heap w))) as Hbud1
    by by rewrite (recolored_options w w1) by apply Hadv1.
  rewrite wp_bind. destruct (0 <? done1) eqn:Hd; cbn.
  - eapply wp_mono; [apply IH; [done| |lia|done]|].
    + unfold loop_fuel in *. rewrite bool_decide_eq_true_2 by done.
      case_bool_decide; bool_lia.
    + intros tr2 w2 (? & Hadv2 & ?). split; [done|]. split; [|done].
      by eapply advance_trans.
  - rewrite Hbusy1. cbn. split; [done|]. split; [done|].
    destruct Hend as [?|[_ ?]]; [bool_lia|done].
Qed.

(** ** The root scan *)

Lemma is_root_wp w a b (Q : bool → world → Prop) :
  mem w !! a = Some b → Q (0 <? root_count (header b)) w → wp (is_root a) Q w.
Proof. intros Hb HQ. unfold is_root, box_get. cbn. by rewrite Hb. Qed.

Lemma mark_roots_loop_wp l fuel tr current w :
  tri G S [] tr w → lseg (mem w) current l None → (length l ≤ fuel)%nat →
  (∀ a, rooted G a → S a) →
  wp (Heap.mark_roots_loop fuel tr current)
     (marked [] tr w (λ w', ∀ a, a ∈ l → rooted G a → nonwhite w' a)) w.
Proof.
  intros Ht Hl Hfuel HSr. revert fuel tr current w Ht Hl Hfuel.
  induction l as [|a l IH]; intros fuel tr current w Ht Hl Hfuel; cbn in Hl.
  { subst. destruct fuel; (split; [done|]; split; [apply advance_refl|];
      by intros ? ?%elem_of_nil). }
  destruct Hl as (-> & b & Hb & Hl). destruct fuel as [|fuel]; cbn in Hfuel; [lia|].
  cbn [Heap.mark_roots_loop]. pose proof (tri_obj _ _ _ _ _ Ht Hb) as Ho.
  rewrite wp_bind. eapply is_root_wp; [done|].
  apply (marked_bind [] tr w (λ w', rooted G a → nonwhite w' a)
    (λ w', ∀ c, c ∈ l → rooted G c → nonwhite w' c)).
  - destruct (0 <? root_count (header b)) eqn:Hr.
    + assert (rooted G a) as Hra by (exists (abs_box b); split; [done|cbn; bool_lia]).
      eapply wp_mono; [apply mark_header_wp; [done|by apply HSr|by eauto]|].
      intros tr' w' (? & ? & ?). by split.
    + split; [done|]. split; [apply advance_refl|].
      intros (o & Ho' & Hpos). simplify_eq. cbn in Hpos. bool_lia.
  - intros tr1 w1 Ht1 [Hrc _ _] _.
    destruct (recolored_lookup _ _ _ _ Hrc Hb) as (b1 & Hb1 & Hun).
    wp_next. rewrite Hb1. apply IH; [done| |lia].
    apply uncolored_eq in Hun as (_ & -> & _). eapply lseg_recolored; [apply Hrc|done].
  - auto.
  - intros w' Ha Hall c [->|Hc]%elem_of_cons; auto.
Qed.

Lemma do_mark_roots_wp l fuel w :
  tri G S [] [] w → alloc_list w l → (length l ≤ fuel)%nat →
  (∀ a, rooted G a → S a) →
  wp (Heap.do_mark_roots fuel [])
     (λ tr' w', tr' = [] ∧ marked [] [] w (λ w', ∀ a, rooted G a → nonwhite w' a) tr' w') w.
Proof.
  intros Ht [Hl _ Hall] Hfuel HSr. unfold Heap.do_mark_roots. wp_next.
  eapply wp_bind_mono; [by eapply mark_roots_loop_wp|].
  intros tr1 w1 (Ht1 & Hadv1 & Hr). apply merge_work_wp; [done|].
  intros w2 Ht2 Hadv2 _. split; [done|]. split; [done|].
  split; [by eapply advance_trans|]. intros a Ha. apply Hadv2. apply Hr; [|done]. apply Hall.
  destruct Ha as (o & Ho & _). destruct (tri_lookup _ _ _ _ _ Ht Ho) as (b & ? & _). eauto.
Qed.

End marking.

(** ** The whole mark phase *)

(** [mark_done w w']: [w'] is [w] after a complete mark phase. *)
Record mark_done `{Env} (w w' : world) : Prop := {
  md_mem : wf_mem (mem w');
  md_recolored : recolored (set_heap w (set_phase (heap w) (GcPhase_as_u8 Marking))) w';
  md_queue : gray_queue (heap w') = [];
  md_black a : color_of w' a = Some Black ↔ reachable (abs w) a;
  md_no_gray a : color_of w' a ≠ Some Gray;
}.

Section mark_phase.
Context `{Env} `{!TraceContract}.

(** With no gray object left and no white root, what is reachable is black. *)
Lemma tri_reachable_black G S w a :
  wf_graph G → tri G S [] [] w → gray_queue (heap w) = [] →
  (∀ r, rooted G r → nonwhite w r) → reachable G a → color_of w a = Some Black.
Proof.
  intros HG Ht Hq Hroots.
  assert (∀ x, nonwhite w x → color_of w x = Some Black) as Hblack.
  { intros x (c & Hc & Hn). destruct c; [done| |done].
    apply (tri_gray _ _ _ _ _ Ht) in Hc. cbn in Hc. rewrite Hq in Hc.
    by apply elem_of_nil in Hc. }
  apply (reachable_ind_closed _ (λ x, color_of w x = Some Black)).
  - auto.
  - intros x y Hx Hxy. apply Hblack. by eapply tri_black.
Qed.

Lemma tri_init G S w :
  abs w = G → wf_mem (mem w) → gray_queue (heap w) = [] →
  (∀ a b, mem w !! a = Some b → box_color b = White) → tri G S [] [] w.
Proof.
  intros Habs Hm Hq Hw.
  assert (∀ a c, color_of w a = Some c → c = White) as Hwhite.
  { intros a c (b & Hb & <-)%color_of_Some. eauto. }
  split; cbn; rewrite ?Hq; try done.
  - by intros ? ?%elem_of_nil.
  - intros a Ha%Hwhite. done.
  - intros a b Ha%Hwhite. done.
  - intros a (c & Hc%Hwhite & Hn). done.
  - by intros ? ?%elem_of_nil.
Qed.

(** Fuel that is enough for every loop of a collection of [w]. *)
Definition enough_fuel (w : world) : nat := 2 * size (mem w) + 2.

(** [w] with the phase [Marking]. *)
Definition marking_started (w : world) : world :=
  set_heap w (set_phase (heap w) (GcPhase_as_u8 Marking)).

Lemma try_start_marking_run w :
  phase (heap w) = GcPhase_as_u8 Idle →
  run Heap.try_start_marking w = Done true (marking_started w).
Proof. intros Hp. unfold Heap.try_start_marking. cbn. by rewrite Hp. Qed.

(** The invariant between the root scan and the end of the mark phase of [w]. *)
Record scanned (w : world) (tr : list loc) (w1 : world) : Prop := {
  sc_tri : tri (abs w) (reachable (abs w)) [] tr w1;
  sc_recolored : recolored (marking_started w) w1;
  sc_work : (work tr w1 ≤ size (mem w))%nat;
  sc_roots a : rooted (abs w) a → nonwhite w1 a;
}.

Lemma scanned_advance w tr w1 tr' w2 :
  scanned w tr w1 → tri (abs w) (reachable (abs w)) [] tr' w2 → advance tr w1 tr' w2 →
  scanned w tr' w2.
Proof.
  intros [Ht Hrc Hw Hr] Ht' [Hrc' Hn Hw']. split; [done|by etransitivity|lia|auto].
Qed.

Lemma scanned_fuel w tr w1 : scanned w tr w1 → (loop_fuel tr w1 < enough_fuel w)%nat.
Proof.
  intros Hs. pose proof (sc_work _ _ _ Hs). unfold loop_fuel, enough_fuel.
  case_bool_decide; lia.
Qed.

(** When no work is left the mark phase is complete. *)
Lemma scanned_done w w1 :
  idle w → scanned w [] w1 → gray_queue (heap w1) = [] → mark_done w w1.
Proof.
  intros Hidle [Ht Hrc _ Hroots] Hq. split; [apply Ht|done|done| |].
  - intros a. split.
    + intros Ha. apply (tri_sound _ _ _ _ _ Ht). by exists Black.
    + apply (tri_reachable_black (abs w) (reachable (abs w)) w1 a); try done.
      apply Hidle.
  - intros a Ha%(tri_gray _ _ _ _ _ Ht). cbn in Ha. rewrite Hq in Ha.
    by apply elem_of_nil in Ha.
Qed.

Lemma scan_roots_wp w fuel :
  idle w → (enough_fuel w ≤ fuel)%nat →
  wp (Heap.do_mark_roots fuel []) (λ tr w1, tr = [] ∧ scanned w [] w1) (marking_started w).
Proof.
  intros [Hwf Hph Hq Hbusy Hwhite] Hfuel. unfold enough_fuel in Hfuel.
  destruct (ww_list _ Hwf) as [l Hl].
  assert (∀ a b, reachable (abs w) a → edge (abs w) a b → reachable (abs w) b) as HS
    by (by eauto with gc).
  assert (tri (abs w) (reachable (abs w)) [] [] (marking_started w)) as Ht0
    by (apply tri_init; [done|apply Hwf|done..]).
  assert (alloc_list (marking_started w) l) as Hl0 by (destruct Hl; by split).
  eapply wp_mono; [apply (do_mark_roots_wp _ _ (ww_graph _ Hwf) HS l); try done|].
  { rewrite (alloc_list_length _ _ Hl). lia. }
  { apply reachable_rooted. }
  intros tr1 w1 (-> & Ht1 & [Hrc _ Hwork] & Hroots). split; [done|]. split; [done..| |done].
  etransitivity; [exact Hwork|]. unfold work. cbn. rewrite Hq.
  apply (white_count_le (marking_started w)).
Qed.

Lemma try_mark_full_wp w fuel :
  idle w → 0 < incremental_work_budget (options (heap w)) →
  (enough_fuel w ≤ fuel)%nat →
  ∃ w', run (Heap.try_mark_full fuel) w = Done true w' ∧ mark_done w w'.
Proof.
  intros Hidle Hbud Hfuel.
  assert (wp (Heap.try_mark_full fuel) (λ r w', r = true ∧ mark_done w w') w) as Hwp.
  2:{ apply wp_run in Hwp as (r & w' & Hrun & -> & Hdone). eauto. }
  assert (∀ a b, reachable (abs w) a → edge (abs w) a b → reachable (abs w) b) as HS
    by (by eauto with gc).
  unfold Heap.try_mark_full. rewrite wp_bind. apply wp_run.
  exists true, (marking_started w).
  split; [by apply try_start_marking_run, Hidle|]. cbv beta iota.
  eapply wp_bind_mono; [by apply scan_roots_wp|]. intros tr1 w1 [-> Hs1].
  pose proof (scanned_fuel _ _ _ Hs1). pose proof (sc_recolored _ _ _ Hs1) as Hrc1.
  eapply wp_bind_mono;
    [apply (do_mark_work_full_wp _ _ (ww_graph _ (idle_wf _ Hidle)) HS); [apply Hs1|lia|..]|].
  { by rewrite (recolored_options _ _ Hrc1). }
  { rewrite (recolored_busy _ _ Hrc1). apply Hidle. }
  intros tr2 w2 (Ht2 & Hadv2 & Hq2). cbn. split; [done|].
  apply scanned_done; [done| |done]. by eapply scanned_advance.
Qed.

(** C18: a mark phase that starts from an idle heap terminates, and blackens
    exactly the objects that are reachable from the roots. *)
Theorem try_mark_full_correct w fuel :
  idle w → 0 < incremental_work_budget (options (heap w)) →
  (enough_fuel w ≤ fuel)%nat →
  ∃ w', run (Heap.try_mark_full fuel) w = Done true w' ∧
    abs w' = abs w ∧ gray_queue (heap w') = [] ∧
    (∀ a, color_of w' a = Some Black ↔ reachable (abs w) a) ∧
    (∀ a, color_of w' a ≠ Some Gray).
Proof.
  intros Hidle Hbud Hfuel. destruct (try_mark_full_wp w fuel Hidle Hbud Hfuel) as (w' & ? & [_ Hrc ? ? ?]).
  exists w'. split; [done|]. split; [|done]. symmetry.
  by apply (recolored_abs (set_heap w (set_phase (heap w) (GcPhase_as_u8 Marking)))).
Qed.

End mark_phase.
