(* ===== verification/Sweeping.v ===== *)
(** * The sweep phase

    The sweep walks the allocation list once, unlinks and drops the objects that
    are white and not rooted, and resets the colour of the others.  The loop
    invariant [sweep_inv] relates the state to the memory at the start. *)

From stdpp Require Import relations.
From S2P Require Import Prelude Prog Color TraceImpls GcBox Options BgThread World.
From S2P Require Import Graph Tracing State HeapOps.
Open Scope Z_scope.

(** ** Segments of the allocation list *)

Definition next_at (m : gmap loc GcBox) (a : loc) : option (option loc) :=
  (λ b, next (header b)) <$> m !! a.

Lemma lseg_frame m m' p l q :
  (∀ a, a ∈ l → next_at m' a = next_at m a) → lseg m p l q → lseg m' p l q.
Proof.
  revert p. induction l as [|a l IH]; intros p Hn; cbn; [done|].
  intros (-> & b & Hb & Hl). split; [done|].
  pose proof (Hn a ltac:(by left)) as Ha. unfold next_at in Ha. rewrite Hb in Ha.
  destruct (m' !! a) as [b'|]; [|done]. apply (inj Some) in Ha.
  exists b'. split; [done|]. rewrite Ha. apply IH; [|done].
  intros x Hx. apply Hn. by right.
Qed.

Lemma lseg_app m p l1 l2 q :
  lseg m p (l1 ++ l2) q ↔ ∃ r, lseg m p l1 r ∧ lseg m r l2 q.
Proof.
  revert p. induction l1 as [|a l1 IH]; intros p; cbn.
  - split; [by eauto|]. by intros (r & -> & ?).
  - setoid_rewrite IH. split.
    + intros (-> & b & Hb & r & ? & ?). exists r. split; [|done]. split; [done|]. eauto.
    + intros (r & (-> & b & Hb & ?) & ?). split; [done|]. eauto.
Qed.

(** [prev_ok prev kept]: the sweep's [prev_next] is the link behind the last
    object kept. *)
Definition prev_ok (prev : Heap.next_ref) (kept : list loc) : Prop :=
  match prev with
  | Heap.AtHead => kept = []
  | Heap.AtNext c => ∃ k, kept = k ++ [c]
  end.

(** The state after [prev_next] was made to point to [nxt]. *)
Definition relink (w : world) (prev : Heap.next_ref) (nxt : option loc) : world :=
  match prev with
  | Heap.AtHead => set_heap w (set_head (heap w) nxt)
  | Heap.AtNext c =>
      set_mem w (alter (λ b, mkBox (set_next (header b) nxt) (data b)) c (mem w))
  end.

Lemma relink_lseg w prev kept a b rest :
  prev_ok prev kept → NoDup (kept ++ a :: rest) →
  lseg (mem w) (head (heap w)) (kept ++ a :: rest) None → mem w !! a = Some b →
  lseg (mem (relink w prev (next (header b)))) (head (heap (relink w prev (next (header b)))))
    (kept ++ rest) None.
Proof.
  intros Hp Hnd Hl Hb. apply lseg_app in Hl as (r & Hk & -> & b' & Hb' & Hr).
  simplify_eq. destruct prev as [|c]; cbn in *.
  { by subst kept. }
  destruct Hp as [k ->]. rewrite <- app_assoc in *. cbn in *.
  apply NoDup_app in Hnd as (_ & Hdisj & Hnd).
  apply lseg_app in Hk as (r & Hk & -> & bc & Hc & Hn). cbn in Hn.
  apply lseg_app. exists (Some c). split; [|split; [done|]].
  - eapply lseg_frame; [|done]. intros x Hx. unfold next_at.
    rewrite lookup_alter_ne; [done|]. intros ->. apply (Hdisj x); set_solver.
  - eexists. rewrite lookup_alter_eq, Hc. split; [done|]. cbn.
    eapply lseg_frame; [|done]. intros x Hx. unfold next_at.
    rewrite lookup_alter_ne; [done|]. intros ->.
    apply NoDup_cons in Hnd as [Hnd _]. set_solver.
Qed.

Lemma next_ref_store_wp w prev kept p l (Q : unit → world → Prop) nxt :
  prev_ok prev kept → lseg (mem w) p (kept ++ l) None →
  Q tt (relink w prev nxt) → wp (Heap.next_ref_store prev nxt) Q w.
Proof.
  intros Hp Hl HQ. destruct prev as [|c]; [done|]. destruct Hp as [k ->].
  destruct (lseg_is_Some _ _ _ _ c Hl) as [b Hb]; [set_solver|].
  unfold Heap.next_ref_store, header_set, header_update. cbn. rewrite Hb. cbn.
  unfold relink in HQ. by rewrite alter_alt, Hb in HQ.
Qed.

(** ** Dead objects *)

(** The test of [GcHeader::is_white]. *)
Definition box_dead (b : GcBox) : bool :=
  AtomicColor.is_white (color (header b)) && negb (GcHeader_is_root (header b)).

Definition dead_at (m : gmap loc GcBox) (a : loc) : bool :=
  match m !! a with Some b => box_dead b | None => false end.

Definition size_at (m : gmap loc GcBox) (a : loc) : Z :=
  match m !! a with Some b => box_size b | None => 0 end.

Definition sum_sizes (m : gmap loc GcBox) (l : list loc) : Z :=
  foldr (λ a n, size_at m a + n) 0 l.

Abbreviation live m := (List.filter (λ a, negb (dead_at m a))).
Abbreviation dead m := (List.filter (dead_at m)).

(** A block without its colour and its link. *)
Definition stripped (b : GcBox) : GcBox :=
  mkBox (set_next (set_color (header b) (AtomicColor.new White)) None) (data b).

Lemma is_white_wp w a b (Q : bool → world → Prop) :
  mem w !! a = Some b → Q (box_dead b) w → wp (is_white a) Q w.
Proof.
  intros Hb HQ. unfold is_white, is_root. wp_next. rewrite Hb.
  unfold box_dead in HQ. destruct (AtomicColor.is_white (color (header b))); [|done].
  wp_next. by rewrite Hb.
Qed.

Lemma sum_sizes_app m l1 l2 : sum_sizes m (l1 ++ l2) = sum_sizes m l1 + sum_sizes m l2.
Proof. unfold sum_sizes. induction l1 as [|a l1 IH]; cbn; [done|]. rewrite IH. lia. Qed.

Lemma sum_sizes_ext m m' l :
  (∀ a, a ∈ l → size_at m' a = size_at m a) → sum_sizes m' l = sum_sizes m l.
Proof.
  unfold sum_sizes. induction l as [|a l IH]; intros Hs; cbn; [done|].
  rewrite (Hs a) by set_solver. rewrite IH; [done|]. intros x Hx. apply Hs. by right.
Qed.

Lemma total_size_sum m l :
  NoDup l → (∀ a, a ∈ l ↔ is_Some (m !! a)) → total_size m = sum_sizes m l.
Proof.
  intros Hnd. revert m. induction Hnd as [|a l Ha Hnd IH]; intros m Hl.
  - replace m with (∅ : gmap loc GcBox); [done|]. symmetry. apply map_empty. intros a.
    apply eq_None_not_Some. rewrite <- Hl. apply not_elem_of_nil.
  - destruct (proj1 (Hl a) ltac:(by left)) as [b Hb].
    unfold total_size. rewrite (map_fold_delete_L _ _ a b m) by (intros; lia || done).
    fold (total_size (delete a m)). rewrite (IH (delete a m)).
    + change (sum_sizes m (a :: l)) with (size_at m a + sum_sizes m l).
      unfold size_at at 1. rewrite Hb. f_equal. apply sum_sizes_ext.
      intros x Hx. unfold size_at. rewrite lookup_delete_ne; [done|]. by intros <-.
    + intros x. rewrite lookup_delete_is_Some, <- Hl, elem_of_cons.
      split; [|by intros [? [?|?]]; subst]. intros Hx. split; [by intros <-|by right].
Qed.

(** ** The memory after a relink *)

Lemma relink_lookup w prev n x b :
  mem w !! x = Some b →
  ∃ b', mem (relink w prev n) !! x = Some b' ∧ stripped b' = stripped b ∧
    color (header b') = color (header b).
Proof.
  intros Hb. destruct prev as [|c]; cbn; [by exists b|].
  destruct (decide (c = x)) as [->|Hne].
  - rewrite lookup_alter_eq, Hb. by eexists.
  - rewrite lookup_alter_ne by done. by exists b.
Qed.

Lemma relink_other w prev n x kept :
  prev_ok prev kept → x ∉ kept → mem (relink w prev n) !! x = mem w !! x.
Proof.
  intros Hp Hx. destruct prev as [|c]; cbn; [done|]. rewrite lookup_alter_ne; [done|].
  intros ->. destruct Hp as [k ->]. set_solver.
Qed.

Lemma relink_None w prev n x :
  mem w !! x = None → mem (relink w prev n) !! x = None.
Proof. intros Hx. destruct prev; cbn; [done|]. by rewrite lookup_alter_None. Qed.

Lemma filter_visit (f : loc → bool) visited a :
  List.filter f (visited ++ [a]) = List.filter f visited ++ (if f a then [a] else []).
Proof. rewrite List.filter_app. cbn. by destruct (f a). Qed.

Section sweep.
Context `{Env} `{!TraceContract}.

(** ** The loop invariant *)

(** [m0] is the memory at the start, [l0] the allocation list, of which [done]
    has been visited and [rest] not yet. *)
Record sweep_inv (w0 : world) (prev : Heap.next_ref) (visited rest : list loc)
    (freed : Z) (w : world) : Prop := {
  si_prev : prev_ok prev (live (mem w0) visited);
  si_lseg : lseg (mem w) (head (heap w)) (live (mem w0) visited ++ rest) None;
  si_rest a : a ∈ rest → mem w !! a = mem w0 !! a;
  si_kept a : a ∈ live (mem w0) visited → ∃ b0 b,
    mem w0 !! a = Some b0 ∧ mem w !! a = Some b ∧
    stripped b = stripped b0 ∧ box_color b = White ∧ AtomicColor.valid (color (header b));
  si_gone a : a ∉ live (mem w0) visited ++ rest → mem w !! a = None;
  si_freed : freed = sum_sizes (mem w0) (dead (mem w0) visited);
  si_dropped : dropped w = dropped w0 ++ dead (mem w0) visited;
  si_heap : heap w = set_head (heap w0) (head (heap w));
  si_frame : cells w = cells w0 ∧ tls w = tls w0 ∧ ctxs w = ctxs w0 ∧ running w = running w0 ∧
    strong w = strong w0;
}.

Section loop.
Variables (w0 : world) (l0 : list loc).
Hypothesis Hl0 : alloc_list w0 l0.
Hypothesis Hmem0 : wf_mem (mem w0).
Hypothesis Hsize0 : is_usize (total_size (mem w0)).

Lemma sweep_inv_nodup prev visited rest freed w :
  l0 = visited ++ rest → sweep_inv w0 prev visited rest freed w →
  NoDup (live (mem w0) visited ++ rest).
Proof.
  intros Hl _. pose proof (al_nodup _ _ Hl0) as Hnd. rewrite Hl in Hnd.
  apply NoDup_app in Hnd as (H1 & H2 & H3). apply NoDup_app. split; [|split; [|done]].
  - apply NoDup_ListNoDup, List.NoDup_filter. by apply NoDup_ListNoDup.
  - intros x Hx. apply H2. rewrite list_elem_of_In in *. by apply List.filter_In in Hx as [].
Qed.

(** The loop drops [a]. *)
Lemma sweep_inv_dead prev visited a rest freed w b :
  l0 = visited ++ a :: rest →
  sweep_inv w0 prev visited (a :: rest) freed w →
  mem w0 !! a = Some b → box_dead b = true →
  let w1 := relink w prev (next (header b)) in
  sweep_inv w0 prev (visited ++ [a]) rest (freed + box_size b)
    (set_dropped (set_mem w1 (delete a (mem w1))) (dropped w ++ [a])).
Proof.
  intros Hl Hinv Hb Hd w1. pose proof (sweep_inv_nodup _ _ _ _ _ Hl Hinv) as Hnd.
  destruct Hinv as [Hprev Hseg Hrest Hkept Hgone Hfreed Hdrop Hheap Hframe].
  assert (dead_at (mem w0) a = true) as Hda by (unfold dead_at; by rewrite Hb).
  assert (mem w !! a = Some b) as Hba by (rewrite Hrest; [done|by left]).
  apply NoDup_app in Hnd as (Hnd1 & Hdisj & [Ha Hnd2]%NoDup_cons).
  split; rewrite ?filter_visit, ?Hda; cbn [negb]; rewrite ?app_nil_r; cbn.
  - done.
  - assert (lseg (mem w1) (head (heap w1)) (live (mem w0) visited ++ rest) None) as Hseg1.
    { apply (relink_lseg _ _ _ a); [done| |done|done]. apply NoDup_app.
      split; [done|]. split; [done|]. by apply NoDup_cons. }
    eapply lseg_frame; [|exact Hseg1]. intros x Hx. unfold next_at.
    rewrite lookup_delete_ne; [done|]. intros <-. set_solver.
  - intros x Hx. rewrite lookup_delete_ne by (by intros <-).
    unfold w1. rewrite (relink_other _ _ _ _ _ Hprev); [apply Hrest; by right|set_solver].
  - intros x Hx. destruct (Hkept _ Hx) as (b0 & bx & ? & Hbx & Hst & Hcol & Hval).
    destruct (relink_lookup w prev (next (header b)) _ _ Hbx) as (b' & Hb' & Hst' & Hcol').
    exists b0, b'. rewrite lookup_delete_ne by (intros <-; set_solver).
    unfold box_color in *. rewrite Hcol', Hst'. done.
  - intros x Hx. destruct (decide (x = a)) as [->|Hne]; [apply lookup_delete_eq|].
    rewrite lookup_delete_ne by done. apply relink_None, Hgone. set_solver.
  - rewrite sum_sizes_app, Hfreed. f_equal. unfold sum_sizes, size_at. cbn.
    rewrite Hb. lia.
  - by rewrite Hdrop, app_assoc.
  - unfold w1. destruct prev; cbn; [by rewrite Hheap|done].
  - unfold w1. by destruct prev.
Qed.

(** The loop keeps [a]. *)
Lemma sweep_inv_live prev visited a rest freed w b :
  l0 = visited ++ a :: rest →
  sweep_inv w0 prev visited (a :: rest) freed w →
  mem w0 !! a = Some b → box_dead b = false →
  sweep_inv w0 (Heap.AtNext a) (visited ++ [a]) rest freed (paint w a White).
Proof.
  intros Hl Hinv Hb Hd. pose proof (sweep_inv_nodup _ _ _ _ _ Hl Hinv) as Hnd.
  destruct Hinv as [Hprev Hseg Hrest Hkept Hgone Hfreed Hdrop Hheap Hframe].
  assert (dead_at (mem w0) a = false) as Hda by (unfold dead_at; by rewrite Hb).
  assert (mem w !! a = Some b) as Hba by (rewrite Hrest; [done|by left]).
  apply NoDup_app in Hnd as (Hnd1 & Hdisj & [Ha Hnd2]%NoDup_cons).
  split; rewrite ?filter_visit, ?Hda; cbn [negb]; rewrite ?app_nil_r; try done.
  - by eexists.
  - rewrite <- app_assoc. cbn. eapply lseg_recolored; [|exact Hseg].
    apply paint_recolored.
  - intros x Hx. cbn. rewrite lookup_alter_ne by (by intros <-). apply Hrest. by right.
  - intros x Hx. cbn. apply elem_of_app in Hx as [Hx|Hx%list_elem_of_singleton].
    + destruct (Hkept _ Hx) as (b0 & bx & ? & Hbx & ?). exists b0, bx.
      rewrite lookup_alter_ne; [done|]. intros <-. set_solver.
    + subst x. exists b, (box_paint White b). rewrite lookup_alter_eq, Hba.
      split; [done|]. split; [done|]. split; [done|].
      split; [apply box_color_paint|apply valid_new].
  - intros x Hx. cbn. apply lookup_alter_None, Hgone. set_solver.
Qed.

Lemma reset_white_wp w a b (Q : unit → world → Prop) :
  mem w !! a = Some b → Q tt (paint w a White) → wp (reset_white a) Q w.
Proof.
  intros Hb HQ. unfold reset_white, header_set, header_update. cbn.
  rewrite Hb. by rewrite (paint_lookup _ _ _ _ Hb) in HQ.
Qed.

Lemma size_at_nonneg a : 0 ≤ size_at (mem w0) a.
Proof.
  unfold size_at. destruct (mem w0 !! a) as [b|] eqn:Hb; [|done].
  unfold box_size. rewrite (wf_vtable _ Hmem0 _ _ Hb). apply layout_size_usize.
Qed.

Lemma sum_sizes_nonneg l : 0 ≤ sum_sizes (mem w0) l.
Proof.
  unfold sum_sizes. induction l as [|a l IH]; cbn; [done|].
  pose proof (size_at_nonneg a). lia.
Qed.

(** Dead and live objects make up the list. *)
Lemma sum_sizes_split l :
  sum_sizes (mem w0) l =
  sum_sizes (mem w0) (live (mem w0) l) + sum_sizes (mem w0) (dead (mem w0) l).
Proof.
  unfold sum_sizes. induction l as [|a l IH]; cbn; [done|].
  destruct (dead_at (mem w0) a); cbn; lia.
Qed.

Lemma dead_sum_le l l' : l0 = l ++ l' →
  sum_sizes (mem w0) (dead (mem w0) l) ≤ total_size (mem w0).
Proof.
  intros Hl. rewrite (total_size_sum _ l0).
  - rewrite Hl, sum_sizes_app, (sum_sizes_split l).
    pose proof (sum_sizes_nonneg (live (mem w0) l)).
    pose proof (sum_sizes_nonneg l'). lia.
  - apply Hl0.
  - intros a. by apply alloc_list_elem.
Qed.

Lemma sweep_loop_wp fuel prev visited rest freed w current :
  l0 = visited ++ rest → sweep_inv w0 prev visited rest freed w →
  lseg (mem w0) current rest None → (length rest ≤ fuel)%nat →
  wp (Heap.sweep_loop fuel prev current freed)
     (λ freed' w', ∃ prev', sweep_inv w0 prev' l0 [] freed' w') w.
Proof.
  revert fuel prev visited freed w current.
  induction rest as [|a rest IH]; intros fuel prev visited freed w current Hl Hinv Hs Hfuel.
  { cbn in Hs. subst current. rewrite app_nil_r in Hl. subst visited.
    destruct fuel; by exists prev. }
  destruct Hs as (-> & b & Hb & Hs). destruct fuel as [|fuel]; cbn in Hfuel; [lia|].
  assert (mem w !! a = Some b) as Hba by (rewrite (si_rest _ _ _ _ _ _ Hinv); [done|by left]).
  assert (l0 = (visited ++ [a]) ++ rest) as Hl' by by rewrite <- app_assoc.
  cbn [Heap.sweep_loop]. wp_next. rewrite Hba. rewrite wp_bind.
  eapply is_white_wp; [done|]. destruct (box_dead b) eqn:Hd; rewrite wp_bind.
  - pose proof (sweep_inv_dead _ _ _ _ _ _ _ Hl Hinv Hb Hd) as Hinv'. cbv zeta in Hinv'.
    eapply next_ref_store_wp; [apply Hinv|apply Hinv|].
    assert (mem (relink w prev (next (header b))) !! a = Some b) as Hba1.
    { rewrite (relink_other _ _ _ _ _ (si_prev _ _ _ _ _ _ Hinv)); [done|].
      pose proof (sweep_inv_nodup _ _ _ _ _ Hl Hinv) as (_ & Hdisj & _)%NoDup_app.
      intros Hin. apply (Hdisj a Hin). by left. }
    do 2 (rewrite wp_bind; cbn; rewrite Hba1).
    unfold Heap.call_drop. destruct (vt_drop _). wp_next. rewrite Hba1. cbn.
    rewrite wp_bind, usize_op_Some; cbn.
    + eapply IH; [exact Hl'| |done|lia].
      by replace (dropped (relink w prev (next (header b)))) with (dropped w)
        by (by destruct prev).
    + change (is_usize (freed + box_size b)). rewrite (si_freed _ _ _ _ _ _ Hinv').
      pose proof (dead_sum_le _ _ Hl'). pose proof (sum_sizes_nonneg (dead (mem w0) (visited ++ [a]))).
      unfold is_usize in *. lia.
  - eapply reset_white_wp; [done|]. eapply IH; [exact Hl'| |done|lia].
    by eapply sweep_inv_live.
Qed.

End loop.

(** ** The whole sweep *)

(** [swept l w w']: [w'] is [w], whose allocation list is [l], after a sweep. *)
Record swept (l : list loc) (w w' : world) : Prop := {
  sw_list : alloc_list w' (live (mem w) l);
  sw_dropped : dropped w' = dropped w ++ dead (mem w) l;
  sw_survivor a b' : mem w' !! a = Some b' →
    ∃ b, mem w !! a = Some b ∧ box_dead b = false ∧ stripped b' = stripped b ∧
      box_color b' = White ∧ AtomicColor.valid (color (header b'));
  sw_kept a b : mem w !! a = Some b → box_dead b = false → is_Some (mem w' !! a);
  sw_bytes : bytes_allocated (heap w') = total_size (mem w');
  sw_bytes_le : 0 ≤ total_size (mem w') ≤ total_size (mem w);
  sw_heap : heap w' =
    set_phase (set_bytes_allocated (set_head (heap w) (head (heap w')))
      (total_size (mem w'))) (GcPhase_as_u8 Idle);
  sw_frame : cells w' = cells w ∧ tls w' = tls w ∧ ctxs w' = ctxs w ∧ running w' = running w ∧
    strong w' = strong w;
}.

Lemma stripped_eq b b' : stripped b' = stripped b →
  root_count (header b') = root_count (header b) ∧
  vtable (header b') = vtable (header b) ∧ data b' = data b.
Proof. unfold stripped, set_color, set_next. by intros [=]. Qed.

Lemma sweep_inv_init w l : alloc_list w l → sweep_inv w Heap.AtHead [] l 0 w.
Proof.
  intros Hl. split; cbn; try done.
  - apply Hl.
  - by intros ? ?%elem_of_nil.
  - intros a Ha. apply eq_None_not_Some. by rewrite <- (alloc_list_elem w l).
  - by rewrite app_nil_r.
  - by destruct w as [[]].
Qed.

Lemma elem_of_live m l a :
  a ∈ live m l ↔ a ∈ l ∧ dead_at m a = false.
Proof. rewrite !list_elem_of_In, List.filter_In, negb_true_iff. done. Qed.

Lemma sweep_inv_alloc_list w l prev freed w' :
  alloc_list w l → sweep_inv w prev l [] freed w' → alloc_list w' (live (mem w) l).
Proof.
  intros Hl Hinv. pose proof (si_lseg _ _ _ _ _ _ Hinv) as Hs.
  pose proof (si_gone _ _ _ _ _ _ Hinv) as Hg. rewrite app_nil_r in Hs, Hg. split; [done| |].
  - apply NoDup_ListNoDup, List.NoDup_filter, NoDup_ListNoDup, Hl.
  - intros a [b Hb]. destruct (decide (a ∈ live (mem w) l)) as [|Hn]; [done|].
    by rewrite Hg in Hb.
Qed.

Lemma sweep_inv_total w l prev freed w' :
  alloc_list w l → sweep_inv w prev l [] freed w' →
  total_size (mem w') = total_size (mem w) - freed.
Proof.
  intros Hl Hinv. pose proof (sweep_inv_alloc_list _ _ _ _ _ Hl Hinv) as Hl'.
  rewrite (total_size_sum (mem w') (live (mem w) l)).
  2: apply Hl'. 2: intros; by apply alloc_list_elem.
  rewrite (total_size_sum (mem w) l), (sum_sizes_split w l).
  2: apply Hl. 2: intros; by apply alloc_list_elem.
  rewrite (si_freed _ _ _ _ _ _ Hinv).
  assert (sum_sizes (mem w') (live (mem w) l) = sum_sizes (mem w) (live (mem w) l)); [|lia].
  apply sum_sizes_ext. intros a Ha.
  destruct (si_kept _ _ _ _ _ _ Hinv _ Ha) as (b0 & b & Hb0 & Hb & Hst & _).
  apply stripped_eq in Hst as (_ & Hv & _).
  unfold size_at, box_size. by rewrite Hb0, Hb, Hv.
Qed.

Lemma do_sweep_wp w l fuel (Q : Z → world → Prop) :
  alloc_list w l → wf_mem (mem w) →
  bytes_allocated (heap w) = total_size (mem w) → is_usize (total_size (mem w)) →
  (length l ≤ fuel)%nat →
  (∀ w', swept l w w' → Q (total_size (mem w')) w') →
  wp (Heap.do_sweep fuel) Q w.
Proof.
  intros Hl Hm Hbytes Hsz Hfuel HQ.
  set (w0 := set_heap w (set_phase (heap w) (GcPhase_as_u8 Sweeping))).
  assert (alloc_list w0 l) as Hl0 by (destruct Hl; by split).
  unfold Heap.do_sweep. wp_next. fold w0. wp_next.
  eapply wp_bind_mono.
  { apply (sweep_loop_wp w0 l Hl0 Hm Hsz fuel Heap.AtHead [] l 0 w0); [done| | |done].
    - by apply sweep_inv_init.
    - apply Hl0. }
  intros freed w1 [prev Hinv]. pose proof (sweep_inv_total _ _ _ _ _ Hl0 Hinv) as Htot.
  pose proof (sweep_inv_alloc_list _ _ _ _ _ Hl0 Hinv) as Hl1.
  pose proof (si_heap _ _ _ _ _ _ Hinv) as Hh. change (mem w0) with (mem w) in *.
  assert (0 ≤ freed ≤ total_size (mem w)) as Hfr.
  { rewrite (si_freed _ _ _ _ _ _ Hinv). split; [by apply sum_sizes_nonneg|].
    apply (dead_sum_le w0 l Hl0 Hm l []). by rewrite app_nil_r. }
  assert (bytes_allocated (heap w1) = total_size (mem w)) as Hb1 by (rewrite Hh; exact Hbytes).
  rewrite wp_bind. unfold heap_update. cbn. rewrite Hb1.
  rewrite usize_fetch_sub_small by (unfold is_usize in *; lia). rewrite <- Htot.
  rewrite wp_bind, usize_op_Some by (unfold is_usize in *; lia). cbn.
  wp_next.
  match goal with |- Q _ ?w' => apply (HQ w') end.
  split; cbn; try done.
  - destruct Hl1. by split.
  - apply (si_dropped _ _ _ _ _ _ Hinv).
  - intros a b' Hb'. assert (a ∈ live (mem w) l) as Ha.
    { apply (al_all _ _ Hl1). eauto. }
    destruct (si_kept _ _ _ _ _ _ Hinv _ Ha) as (b0 & b & Hb0 & Hb & ? & ? & ?).
    assert (b = b') as -> by congruence. exists b0. apply elem_of_live in Ha as [_ Hd].
    unfold dead_at in Hd. cbn in Hb0. by rewrite Hb0 in Hd.
  - intros a b Hb Hd. assert (a ∈ live (mem w) l) as Ha.
    { apply elem_of_live. split; [apply (al_all _ _ Hl); eauto|].
      unfold dead_at. by rewrite Hb. }
    destruct (si_kept _ _ _ _ _ _ Hinv _ Ha) as (b0 & b1 & _ & ? & _). eauto.
  - lia.
  - rewrite Hh. by destruct w as [[]].
  - apply (si_frame _ _ _ _ _ _ Hinv).
Qed.

End sweep.
