(* ===== verification/Collection.v ===== *)
(** * A complete collection

    [force_collect] refines the abstract contract [collected] of [Graph]: from an
    idle heap it runs to completion without fault, keeps exactly the objects
    that are reachable from the roots, runs the drop function of every other
    object once, and leaves the heap idle again. *)

From stdpp Require Import relations.
From S2P Require Import Prelude Prog Color TraceImpls GcBox Options BgThread World.
From S2P Require Import Graph Tracing State HeapOps Marking Sweeping.
Open Scope Z_scope.

Section collection.
Context `{Env} `{!TraceContract}.

(** Every threshold that the end of the collection may compute is free of
    overflow panics. *)
Definition pacing_ok (w : world) : Prop :=
  ∀ live, 0 ≤ live ≤ bytes_allocated (heap w) →
    is_Some (GcOptions.calculate_threshold (options (heap w))
               (current_threshold (heap w)) live).

Lemma pacing_ok_unchecked w : overflow_checks = false → pacing_ok w.
Proof.
  intros Hc live _. unfold GcOptions.calculate_threshold, usize_op. rewrite Hc.
  repeat first [case_bool_decide | progress cbn
    | match goal with |- context [if ?b then _ else _] => destruct b end]; eauto.
Qed.

(** ** Frames *)

Lemma recolored_wf_world w w' :
  recolored w w' → wf_mem (mem w') → wf_world w → wf_world w'.
Proof.
  intros Hr Hm [_ HG [l Hl] Hb Hbu Hlg Htls Ho Hthr].
  pose proof (recolored_heap _ _ Hr) as Hh. pose proof (recolored_total _ _ Hr) as Ht.
  split.
  - exact Hm.
  - by rewrite <- (recolored_abs _ _ Hr).
  - exists l. by eapply alloc_list_recolored.
  - rewrite Ht, Hh. exact Hb.
  - by rewrite Ht.
  - rewrite <- (rc_ctxs _ _ Hr). exact Hlg.
  - rewrite <- (rc_ctxs _ _ Hr), <- (rc_tls _ _ Hr). exact Htls.
  - rewrite Hh. exact Ho.
  - rewrite Hh. exact Hthr.
Qed.

Lemma marking_started_wf w : wf_world w → wf_world (marking_started w).
Proof.
  intros Hw. eapply wf_world_frame; [exact Hw|done..| | | | |]; apply Hw.
Qed.

(** ** Survivors *)

(** After a mark phase, [GcHeader::is_white] tells the unreachable objects. *)
Lemma mark_done_dead w w1 a b :
  idle w → mark_done w w1 → mem w1 !! a = Some b →
  box_dead b = false ↔ reachable (abs w) a.
Proof.
  intros Hidle [_ Hrc Hq Hbl Hgr] Hb.
  assert (abs w1 = abs w) as Habs by (symmetry; apply (recolored_abs _ _ Hrc)).
  assert (color_of w1 a = Some (box_color b)) as Hcol by (unfold color_of; by rewrite Hb).
  assert (box_color b = Black ↔ reachable (abs w) a) as Hiff.
  { rewrite <- Hbl, Hcol. split; congruence. }
  unfold box_dead, AtomicColor.is_white. fold (box_color b). rewrite andb_false_iff.
  rewrite bool_decide_eq_false, negb_false_iff. split.
  - intros [Hw|Hr].
    + apply Hiff. destruct (box_color b) eqn:E; [done| |done].
      exfalso. by apply (Hgr a).
    + apply reachable_rooted. rewrite <- Habs. exists (abs_box b). split.
      * cbn. by rewrite lookup_fmap, Hb.
      * unfold GcHeader_is_root in Hr. cbn. bool_lia.
  - intros Hr%Hiff. left. by rewrite Hr.
Qed.

Lemma stripped_abs b b' : stripped b' = stripped b → abs_box b' = abs_box b.
Proof.
  intros (E1 & E2 & E3)%stripped_eq. unfold abs_box, box_ty. by rewrite E1, E2, E3.
Qed.

Lemma swept_collected w w1 w2 l :
  idle w → mark_done w w1 → swept l w1 w2 → collected (abs w) (abs w2).
Proof.
  intros Hidle Hm Hs. pose proof (md_recolored _ _ Hm) as Hrc.
  assert (abs w1 = abs w) as Habs by (symmetry; apply (recolored_abs _ _ Hrc)).
  split.
  - rewrite <- Habs. cbn. apply Hs.
  - intros a o. rewrite <- Habs. cbn. rewrite !lookup_fmap, !fmap_Some. split.
    + intros (b2 & Hb2 & ->). destruct (sw_survivor _ _ _ Hs _ _ Hb2) as (b1 & Hb1 & Hd & Hst & _).
      rewrite Habs. rewrite <- (mark_done_dead _ _ _ _ Hidle Hm Hb1). split; [|done].
      exists b1. split; [done|]. by apply stripped_abs.
    + intros [(b1 & Hb1 & ->) Hr]. rewrite Habs, <- (mark_done_dead _ _ _ _ Hidle Hm Hb1) in Hr.
      destruct (sw_kept _ _ _ Hs _ _ Hb1 Hr) as [b2 Hb2].
      destruct (sw_survivor _ _ _ Hs _ _ Hb2) as (b1' & Hb1' & _ & Hst & _).
      exists b2. split; [done|]. assert (b1' = b1) as -> by congruence.
      symmetry. by apply stripped_abs.
Qed.

(** ** The invariant after the sweep *)

Lemma swept_wf_mem l w w' : wf_mem (mem w) → swept l w w' → wf_mem (mem w').
Proof.
  intros [Hv _] Hs. split; intros a b' Hb';
    destruct (sw_survivor _ _ _ Hs _ _ Hb') as (b & Hb & _ & Hst & _ & Hval); [|done].
  apply stripped_eq in Hst as (_ & Hvt & _). unfold box_ty. rewrite Hvt. by apply (Hv a).
Qed.

(** The heap after a sweep, with the new threshold stored. *)
Definition repaced (w : world) (t : Z) : world :=
  set_heap w (set_current_threshold (heap w) t).

Lemma swept_wf w1 w2 l t :
  wf_world w1 → swept l w1 w2 → wf_graph (abs w2) → is_usize t → wf_world (repaced w2 t).
Proof.
  intros Hwf Hs HG Ht. pose proof (sw_heap _ _ _ Hs) as Hh2.
  destruct (sw_frame _ _ _ Hs) as (_ & Htls & Hctx & _). split.
  - cbn. eapply swept_wf_mem; [apply Hwf|done].
  - exact HG.
  - destruct (sw_list _ _ _ Hs) as [H1 H2 H3]. exists (live (mem w1) l). by split.
  - cbn. apply Hs.
  - cbn. pose proof (sw_bytes_le _ _ _ Hs). pose proof (ww_bytes_usize _ Hwf).
    unfold is_usize in *. lia.
  - cbn. rewrite Hctx. apply Hwf.
  - cbn. rewrite Hctx, Htls. apply Hwf.
  - cbn. rewrite Hh2. cbn. apply Hwf.
  - done.
Qed.

Lemma swept_idle w1 w2 l t :
  wf_world w1 → gray_queue (heap w1) = [] → n_busy_marking (heap w1) = 0 →
  swept l w1 w2 → wf_graph (abs w2) → is_usize t → idle (repaced w2 t).
Proof.
  intros Hwf Hq Hbusy Hs HG Ht. pose proof (sw_heap _ _ _ Hs) as Hh2.
  split; [by eapply swept_wf| | | |].
  - cbn. by rewrite Hh2.
  - cbn. rewrite Hh2. cbn. apply Hq.
  - cbn. rewrite Hh2. cbn. done.
  - cbn. intros a b Hb. by destruct (sw_survivor _ _ _ Hs _ _ Hb) as (_ & _ & _ & _ & ? & _).
Qed.

Lemma sweep_and_finish_wp w1 l fuel (Q : Z → world → Prop) :
  wf_world w1 → alloc_list w1 l → pacing_ok w1 → (length l ≤ fuel)%nat →
  (∀ w2 t, swept l w1 w2 → is_usize t →
     GcOptions.calculate_threshold (options (heap w1)) (current_threshold (heap w1))
       (total_size (mem w2)) = Some t →
     Q (total_size (mem w2)) (repaced w2 t)) →
  wp (Heap.sweep_and_finish fuel) Q w1.
Proof.
  intros Hwf Hl Hpace Hfuel HQ. unfold Heap.sweep_and_finish. rewrite wp_bind.
  apply (do_sweep_wp w1 l); [done|apply Hwf..|done|].
  intros w2 Hs. pose proof (sw_heap _ _ _ Hs) as Hh2. pose proof (sw_bytes_le _ _ _ Hs) as Hle.
  destruct (Hpace (total_size (mem w2))) as [t Ht]; [by rewrite (ww_bytes _ Hwf)|].
  unfold Heap.update_threshold. rewrite !wp_bind. cbn. wp_next.
  rewrite wp_bind, Hh2. cbn. rewrite Ht. cbn. wp_next.
  replace (set_heap _ _) with (repaced w2 t).
  - apply HQ; [done| |done].
    eapply Pacing.calculate_threshold_range; [| |exact Ht]; apply Hwf.
  - unfold repaced. rewrite Hh2. done.
Qed.

Lemma elem_of_dead m l a : a ∈ dead m l ↔ a ∈ l ∧ dead_at m a = true.
Proof. by rewrite !list_elem_of_In, List.filter_In. Qed.

(** A sweep that finds no dead object. *)
Lemma sweep_keeps_all w1 fuel (Q : Z → world → Prop) :
  wf_world w1 → pacing_ok w1 → (size (mem w1) ≤ fuel)%nat →
  (∀ a b, mem w1 !! a = Some b → box_dead b = false) →
  (∀ w2, wf_world w2 → abs w2 = abs w1 → dropped w2 = dropped w1 → running w2 = running w1 →
     strong w2 = strong w1 → bg_thread (heap w2) = bg_thread (heap w1) →
     Q (total_size (mem w1)) w2) →
  wp (Heap.sweep_and_finish fuel) Q w1.
Proof.
  intros Hwf Hp Hf Halive HQ. destruct (ww_list _ Hwf) as [l Hl].
  apply (sweep_and_finish_wp w1 l); [done|done|done|by rewrite (alloc_list_length _ _ Hl)|].
  intros w2 t Hs Ht _. pose proof (sw_heap _ _ _ Hs) as Hh2.
  destruct (sw_frame _ _ _ Hs) as (Hc & _ & _ & Hr & Hst).
  assert (abs w2 = abs w1) as Habs.
  { unfold abs. f_equal; [|done]. apply map_eq. intros a. rewrite !lookup_fmap.
    destruct (mem w1 !! a) as [b|] eqn:Hb, (mem w2 !! a) as [b2|] eqn:Hb2; cbn; try done.
    - destruct (sw_survivor _ _ _ Hs _ _ Hb2) as (b' & Hb' & _ & Hstr & _).
      assert (b' = b) as -> by congruence. f_equal. by apply stripped_abs.
    - destruct (sw_kept _ _ _ Hs _ _ Hb (Halive _ _ Hb)) as [? ?]. congruence.
    - destruct (sw_survivor _ _ _ Hs _ _ Hb2) as (b' & Hb' & _). congruence. }
  assert (dead (mem w1) l = []) as Hdead.
  { destruct (dead (mem w1) l) as [|a d] eqn:E; [done|]. exfalso.
    assert (a ∈ dead (mem w1) l) as [_ Hd]%elem_of_dead by (rewrite E; by left).
    unfold dead_at in Hd. destruct (mem w1 !! a) as [b|] eqn:Hb; [|done].
    rewrite (Halive _ _ Hb) in Hd. done. }
  assert (total_size (mem w2) = total_size (mem w1)) as ->.
  { rewrite !total_size_abs, Habs by (first [apply Hwf|by eapply swept_wf_mem; [apply Hwf|]]). done. }
  apply HQ; [|done|by cbn; rewrite (sw_dropped _ _ _ Hs), Hdead, app_nil_r|done..|].
  - eapply swept_wf; [done..| |done]. rewrite Habs. apply Hwf.
  - cbn. by rewrite Hh2.
Qed.

(** ** [force_collect] *)

(** What a completed [force_collect] establishes. *)
Record collection_done (w w' : world) : Prop := {
  cd_idle : idle w';
  cd_collected : collected (abs w) (abs w');
  cd_dropped : ∃ d, dropped w' = dropped w ++ d ∧ NoDup d ∧
    ∀ a, a ∈ d ↔ is_Some (mem w !! a) ∧ ¬ reachable (abs w) a;
  cd_options : options (heap w') = options (heap w);
  cd_threshold : GcOptions.calculate_threshold (options (heap w))
    (current_threshold (heap w)) (total_size (mem w')) = Some (current_threshold (heap w'));
  cd_bytes : 0 ≤ total_size (mem w') ≤ total_size (mem w);
  cd_frame : cells w' = cells w ∧ tls w' = tls w ∧ ctxs w' = ctxs w ∧ running w' = running w ∧
    strong w' = strong w;
  cd_bg : bg_thread (heap w') = bg_thread (heap w);
}.

Lemma swept_dropped w w1 w2 l :
  idle w → mark_done w w1 → alloc_list w1 l → swept l w1 w2 →
  ∃ d, dropped w2 = dropped w ++ d ∧ NoDup d ∧
    ∀ a, a ∈ d ↔ is_Some (mem w !! a) ∧ ¬ reachable (abs w) a.
Proof.
  intros Hidle Hm Hl Hs. pose proof (md_recolored _ _ Hm) as Hrc.
  exists (dead (mem w1) l). split; [|split].
  - rewrite (sw_dropped _ _ _ Hs), <- (rc_dropped _ _ Hrc). done.
  - apply NoDup_ListNoDup, List.NoDup_filter, NoDup_ListNoDup, Hl.
  - intros a. rewrite elem_of_dead, (alloc_list_elem w1) by done. split.
    + intros [[b Hb] Hd]. split.
      * symmetry in Hrc. apply (recolored_is_Some _ _ a Hrc). eauto.
      * unfold dead_at in Hd. rewrite Hb in Hd.
        rewrite <- (mark_done_dead _ _ _ _ Hidle Hm Hb). congruence.
    + intros [Hb Hr]. assert (is_Some (mem w1 !! a)) as [b1 Hb1]
        by (apply (recolored_is_Some _ _ a Hrc); done).
      split; [eauto|]. unfold dead_at. rewrite Hb1.
      rewrite <- (mark_done_dead _ _ _ _ Hidle Hm Hb1) in Hr. by destruct (box_dead b1).
Qed.

(** A complete mark phase, then the sweep. *)
Lemma finish_collection_wp w w1 l fuel :
  idle w → mark_done w w1 → alloc_list w1 l → pacing_ok w → (length l ≤ fuel)%nat →
  wp (Heap.sweep_and_finish fuel)
     (λ r w', r = total_size (mem w') ∧ collection_done w w') w1.
Proof.
  intros Hidle Hm Hl Hpace Hfuel. pose proof (md_recolored _ _ Hm) as Hrc.
  pose proof (recolored_heap _ _ Hrc) as Hh1. pose proof (idle_wf _ Hidle) as Hwf.
  pose proof (recolored_total _ _ Hrc) as Htot. cbn in Htot.
  assert (wf_world w1) as Hwf1.
  { eapply recolored_wf_world; [exact Hrc|apply Hm|]. by apply marking_started_wf. }
  apply (sweep_and_finish_wp w1 l); [done|done| |done|].
  { intros live Hlive. rewrite Hh1 in *. cbn in *. by apply Hpace. }
  intros w2 t Hs Ht Hthr. pose proof (sw_bytes_le _ _ _ Hs) as Hle. rewrite Htot in Hle.
  pose proof (swept_collected _ _ _ _ Hidle Hm Hs) as Hcol. split; [done|].
  split; try done.
  - apply (swept_idle w1 w2 l t); try done; [apply Hm|by rewrite Hh1; cbn; apply Hidle|].
    by eapply collected_wf; [apply Hwf|].
  - by apply (swept_dropped w w1 w2 l).
  - cbn. by rewrite (sw_heap _ _ _ Hs), Hh1.
  - cbn. by rewrite Hh1 in Hthr.
  - cbn. destruct (sw_frame _ _ _ Hs) as (-> & -> & -> & -> & ->).
    by rewrite <- (rc_cells _ _ Hrc), <- (rc_tls _ _ Hrc), <- (rc_ctxs _ _ Hrc),
      <- (rc_running _ _ Hrc), <- (rc_strong _ _ Hrc).
  - cbn. by rewrite (sw_heap _ _ _ Hs), Hh1.
Qed.

Lemma force_collect_run w fuel :
  idle w → 0 < incremental_work_budget (options (heap w)) → pacing_ok w →
  (enough_fuel w ≤ fuel)%nat →
  ∃ w', run (Heap.force_collect fuel) w = Done (total_size (mem w')) w' ∧
    collection_done w w'.
Proof.
  intros Hidle Hbud Hpace Hfuel.
  destruct (try_mark_full_wp w fuel Hidle Hbud Hfuel) as (w1 & Hrun & Hm).
  destruct (ww_list _ (idle_wf _ Hidle)) as [l Hl].
  assert (alloc_list w1 l) as Hl1.
  { eapply alloc_list_recolored; [apply Hm|]. by destruct Hl. }
  assert (wp (Heap.sweep_and_finish fuel)
    (λ r w', r = total_size (mem w') ∧ collection_done w w') w1) as Hwp.
  { apply (finish_collection_wp w w1 l); try done.
    rewrite (alloc_list_length _ _ Hl). unfold enough_fuel in Hfuel. lia. }
  apply wp_run in Hwp as (r & w' & Hrun' & -> & Hdone). exists w'. split; [|done].
  unfold Heap.force_collect. by rewrite run_bind, Hrun.
Qed.

(** Two collections of the same heap agree on everything but the colours, the
    allocation list and the order in which they drop. *)
Lemma collection_done_unique w w1 w2 :
  collection_done w w1 → collection_done w w2 →
  abs w1 = abs w2 ∧ bytes_allocated (heap w1) = bytes_allocated (heap w2) ∧
  current_threshold (heap w1) = current_threshold (heap w2) ∧
  options (heap w1) = options (heap w2) ∧ dropped w1 ≡ₚ dropped w2.
Proof.
  intros H1 H2.
  pose proof (collected_unique _ _ _ (cd_collected _ _ H1) (cd_collected _ _ H2)) as Habs.
  assert (total_size (mem w1) = total_size (mem w2)) as Hsize.
  { rewrite !total_size_abs by (apply idle_wf; first [apply H1|apply H2]). by rewrite Habs. }
  split_and!; [done| | | |].
  - by rewrite !ww_bytes by (apply idle_wf; first [apply H1|apply H2]).
  - pose proof (cd_threshold _ _ H1) as T1. pose proof (cd_threshold _ _ H2) as T2.
    rewrite Hsize in T1. congruence.
  - by rewrite (cd_options _ _ H1), (cd_options _ _ H2).
  - destruct (cd_dropped _ _ H1) as (d1 & -> & N1 & D1), (cd_dropped _ _ H2) as (d2 & -> & N2 & D2).
    apply Permutation_app_head, NoDup_Permutation; [done|done|]. intros a. by rewrite D1, D2.
Qed.

(** C2: [force_collect] on an idle heap, with a marking budget that is not zero, returns
    the bytes that are left: it keeps exactly the reachable objects, unchanged, drops
    every other object once and leaves the heap idle. *)
Theorem force_collect_correct w fuel :
  idle w → 0 < incremental_work_budget (options (heap w)) → pacing_ok w →
  (enough_fuel w ≤ fuel)%nat →
  ∃ w' d, run (Heap.force_collect fuel) w = Done (total_size (mem w')) w' ∧ idle w' ∧
    collected (abs w) (abs w') ∧ dropped w' = dropped w ++ d ∧ NoDup d ∧
    ∀ a, a ∈ d ↔ is_Some (mem w !! a) ∧ ¬ reachable (abs w) a.
Proof.
  intros. destruct (force_collect_run w fuel) as (w' & Hrun & [? ? (d & ?) _ _ _ _]);
    [done..|]. by exists w', d.
Qed.

(** The fuel for one collection is enough for the next. *)
Lemma collection_fuel w w1 : collection_done w w1 → (enough_fuel w1 ≤ enough_fuel w)%nat.
Proof.
  intros Hd. unfold enough_fuel. assert (size (mem w1) ≤ size (mem w))%nat; [|lia].
  rewrite <- !size_dom. apply subseteq_size. intros a. rewrite !elem_of_dom.
  intros [b Hb1]. assert (objs (abs w1) !! a = Some (abs_box b)) as Ho
    by (cbn; by rewrite lookup_fmap, Hb1).
  apply (collected_objs _ _ (cd_collected _ _ Hd)) in Ho as [Ho _]. cbn in Ho.
  rewrite lookup_fmap in Ho. destruct (mem w !! a); [by eexists|done].
Qed.

(** A second collection frees nothing and changes no object. *)
Theorem force_collect_twice w w1 n fuel :
  idle w → 0 < incremental_work_budget (options (heap w)) → pacing_ok w → pacing_ok w1 →
  (enough_fuel w ≤ fuel)%nat → run (Heap.force_collect fuel) w = Done n w1 →
  ∃ w2, run (Heap.force_collect fuel) w1 = Done n w2 ∧ abs w2 = abs w1 ∧
    dropped w2 = dropped w1.
Proof.
  intros Hidle Hb Hp Hp1 Hf Hrun.
  destruct (force_collect_run w fuel) as (w1' & Hrun1 & Hd1); [done..|].
  rewrite Hrun1 in Hrun. assert (w1' = w1) as -> by congruence.
  pose proof (collection_fuel _ _ Hd1) as Hle.
  destruct (force_collect_run w1 fuel) as (w2 & Hrun2 & Hd2);
    [apply Hd1|by rewrite (cd_options _ _ Hd1)|done|lia|].
  destruct (collected_idemp _ _ _ (cd_collected _ _ Hd1) (cd_collected _ _ Hd2)) as [Ho Hc].
  assert (abs w2 = abs w1) as Habs by (unfold abs in *; cbn in *; congruence).
  exists w2. split; [|split; [done|]].
  - rewrite Hrun2. assert (n = total_size (mem w1)) as -> by congruence. f_equal.
    rewrite !total_size_abs by (apply idle_wf; first [apply Hd1|apply Hd2]). by rewrite Habs.
  - destruct (cd_dropped _ _ Hd2) as (d & -> & _ & Hd). destruct d as [|a d]; [by rewrite app_nil_r|].
    exfalso. destruct (proj1 (Hd a) ltac:(by left)) as [[b Hb1] Hr]. apply Hr.
    rewrite (collected_reachable _ _ _ (cd_collected _ _ Hd1)).
    apply (collected_objs _ _ (cd_collected _ _ Hd1) a (abs_box b)). cbn.
    by rewrite lookup_fmap, Hb1.
Qed.

(** ** The other paths of a collection *)

(** A [force_collect] during another thread's collection changes nothing. *)
Theorem force_collect_busy w fuel :
  phase (heap w) ≠ GcPhase_as_u8 Idle →
  run (Heap.force_collect fuel) w = Done (bytes_allocated (heap w)) w.
Proof.
  intros Hp. unfold Heap.force_collect, Heap.try_mark_full, Heap.try_start_marking.
  rewrite !run_bind. cbn. rewrite (proj2 (Z.eqb_neq _ _)) by done. cbn.
  by destruct w.
Qed.

(** When the byte counter triggers a collection. *)
Definition triggered (h : Heap) : Prop :=
  ¬ (GcOptions.is_threshold_off (options h) ∧ limit_bytes (options h) = usize_max) ∧
  (current_threshold h < bytes_allocated h ∨
   limit_bytes (options h) ≠ usize_max ∧ limit_bytes (options h) < bytes_allocated h).

#[global] Instance triggered_dec h : Decision (triggered h).
Proof. unfold triggered. apply _. Defined.

(** The test as one boolean expression. *)
Definition triggered_b (h : Heap) : bool :=
  negb (GcOptions.is_completely_off (options h)) &&
  (negb (GcOptions.is_limit_off (options h)) && (limit_bytes (options h) <? bytes_allocated h)
   || (current_threshold h <? bytes_allocated h)).

Lemma triggered_b_spec h : triggered_b h = bool_decide (triggered h).
Proof.
  apply eq_true_iff_eq. rewrite bool_decide_eq_true. unfold triggered_b, triggered,
    GcOptions.is_completely_off, GcOptions.is_limit_off.
  rewrite andb_true_iff, orb_true_iff, andb_true_iff, !negb_true_iff, andb_false_iff,
    !Z.eqb_neq, !Z.ltb_lt.
  destruct (GcOptions.is_threshold_off (options h)); cbn; intuition congruence.
Qed.

Lemma should_collect_run w :
  run Heap.should_collect w = Done (bool_decide (triggered (heap w))) w.
Proof.
  rewrite <- triggered_b_spec. unfold Heap.should_collect, triggered_b.
  run_next. destruct (GcOptions.is_completely_off _); [done|].
  run_next. run_next. by destruct (_ && _).
Qed.

Lemma collect_run w fuel :
  idle w → 0 < incremental_work_budget (options (heap w)) → pacing_ok w →
  (enough_fuel w ≤ fuel)%nat →
  ∃ w', run (Heap.collect fuel) w = Done tt w' ∧
    if decide (triggered (heap w)) then collection_done w w' else w' = w.
Proof.
  intros Hidle Hb Hp Hf. unfold Heap.collect. rewrite run_bind, should_collect_run.
  case_bool_decide; case_decide; try done; [|by eexists].
  destruct (force_collect_run w fuel) as (w' & Hrun & Hdone); [done..|].
  exists w'. split; [|done]. by rewrite run_bind, Hrun.
Qed.

(** C24: [collect] on an idle heap collects when the byte counter exceeds the
    threshold or the limit, and changes nothing otherwise; afterwards the heap is
    idle. *)
Theorem collect_correct w fuel :
  idle w → 0 < incremental_work_budget (options (heap w)) → pacing_ok w →
  (enough_fuel w ≤ fuel)%nat →
  ∃ w', run (Heap.collect fuel) w = Done tt w' ∧ idle w' ∧
    (triggered (heap w) → collected (abs w) (abs w')) ∧ (¬ triggered (heap w) → w' = w).
Proof.
  intros Hidle ???. destruct (collect_run w fuel) as (w' & Hrun & Hd); [done..|].
  exists w'. split; [done|].
  case_decide; [by destruct Hd|subst w']. split; [done|]. split; [|done]. done.
Qed.

(** ** Counting *)

Lemma allocation_count_loop_wp l fuel current n w (Q : Z → world → Prop) :
  lseg (mem w) current l None → (length l ≤ fuel)%nat → Q (n + Z.of_nat (length l)) w →
  wp (Heap.allocation_count_loop fuel current n) Q w.
Proof.
  revert fuel current n. induction l as [|a l IH]; intros fuel current n; cbn.
  { intros -> _. rewrite Z.add_0_r. by destruct fuel. }
  intros (-> & b & Hb & Hl) Hfuel HQ. destruct fuel as [|fuel]; [lia|].
  cbn [Heap.allocation_count_loop]. wp_next. rewrite Hb.
  apply IH; [done|lia|]. by replace (n + 1 + Z.of_nat (length l)) with (n + Z.of_nat (S (length l))) by lia.
Qed.

(** [allocation_count] is the number of live objects. *)
Theorem allocation_count_correct w fuel :
  wf_world w → (size (mem w) ≤ fuel)%nat →
  run (Heap.allocation_count fuel) w = Done (Z.of_nat (size (objs (abs w)))) w.
Proof.
  intros Hwf Hfuel. destruct (ww_list _ Hwf) as [l Hl].
  pose proof (alloc_list_length _ _ Hl) as Hlen.
  apply wp_run_eq. unfold Heap.allocation_count. wp_next.
  apply (allocation_count_loop_wp l); [apply Hl|lia|]. rewrite map_size_fmap. split; [lia|done].
Qed.

End collection.
