(* ===== verification/Client.v ===== *)
(** * Client operations on an idle heap

    Each operation of [GcContext], [GcRoot], [GcPtr] and [GcCell] that runs
    between collections refines its abstract operation of [Graph] and keeps the
    heap idle. *)

From stdpp Require Import relations.
From S2P Require Import Prelude Prog Color TraceImpls GcBox Options BgThread World.
From S2P Require Import Graph Tracing State HeapOps Mutator Marking Sweeping.
Open Scope Z_scope.

Section client.
Context `{Env} `{!TraceContract}.

(** ** The busy counter *)

(** Outside a mark phase the check leaves no trace. *)
Lemma check_busy_idle w (Q : bool → world → Prop) :
  phase (heap w) = GcPhase_as_u8 Idle → n_busy_marking (heap w) = 0 →
  Q false w → wp Heap.check_is_marking_and_increment_busy Q w.
Proof.
  intros Hp Hb HQ. unfold Heap.check_is_marking_and_increment_busy.
  wp_next. wp_next. rewrite Hp. cbn.
  rewrite bool_decide_eq_false_2, wp_bind by done. cbn. rewrite Hb. cbn.
  replace (set_heap _ _) with w; [done|].
  destruct w as [h ? ? ? ? ? ? ?]; cbn in *. f_equal. destruct h; cbn in *. by subst.
Qed.

(** ** Allocation *)

(** The world after [allocate] returned [a] on an idle heap. *)
Definition allocated (w : world) (a : loc) (t : ty) (d : val) : world :=
  let h := heap w in
  set_heap
    (set_mem w (<[a := mkBox (set_next (GcHeader_new (GcVTable_new t)) (head h)) d]> (mem w)))
    (set_bytes_allocated (set_head h (Some a))
       (usize_fetch_add (bytes_allocated h) (layout_size t))).

(** The part of [allocate] after the assist. *)
Lemma allocate_wp w fuel t d (Q : loc → world → Prop) :
  (0 < fuel)%nat →
  wp (Heap.assist fuel) (λ _ w1, let a := malloc (dom (mem w1)) in Q a (allocated w1 a t d)) w →
  wp (Heap.allocate fuel t d) Q w.
Proof.
  intros Hfuel HQ. destruct fuel as [|fuel]; [lia|].
  unfold Heap.allocate. eapply wp_bind_mono; [exact HQ|]. intros [] w1 HQ1.
  wp_next. wp_next.
  rewrite lookup_insert_eq, wp_bind. cbn [Heap.push_loop]. wp_next.
  rewrite wp_bind. unfold header_set, header_update. cbn. rewrite lookup_insert_eq. cbn.
  rewrite wp_bind. unfold heap_update. cbn. rewrite bool_decide_eq_true_2 by done. cbn.
  rewrite insert_insert_eq, wp_bind. cbn. exact HQ1.
Qed.

(** On an idle heap the assist does nothing. *)
Lemma assist_idle_wp w fuel (Q : unit → world → Prop) :
  idle w → Q tt w → wp (Heap.assist fuel) Q w.
Proof.
  intros Hidle HQ. unfold Heap.assist. rewrite !wp_bind. cbn.
  destruct (0 <? _); [|done]. rewrite wp_bind. by apply check_busy_idle; [apply Hidle..|].
Qed.

Lemma total_size_insert m a b :
  m !! a = None → total_size (<[a := b]> m) = box_size b + total_size m.
Proof.
  intros Ha. unfold total_size. rewrite map_fold_insert_L; [done| |done].
  intros; lia.
Qed.

Lemma lseg_insert m p l q a b : m !! a = None → lseg m p l q → lseg (<[a := b]> m) p l q.
Proof.
  intros Ha Hl. eapply lseg_frame; [|done]. intros x Hx. unfold next_at.
  rewrite lookup_insert_ne; [done|]. intros <-.
  destruct (lseg_is_Some _ _ _ _ a Hl Hx) as [? ?]. congruence.
Qed.

Lemma allocated_abs w a t d :
  mem w !! a = None → abs (allocated w a t d) = g_alloc (abs w) a (mkObj t 1 d).
Proof. intros Ha. unfold abs, g_alloc. cbn. by rewrite fmap_insert. Qed.

Lemma allocated_wf w a t d :
  wf_world w → mem w !! a = None → has_type d t = true → wf_val (abs w) d →
  total_size (mem w) + layout_size t ≤ usize_max →
  wf_world (allocated w a t d).
Proof.
  intros [Hm HG [l Hl] Hb Hbu Hlg Htls Ho Hthr] Ha Hty Hd Hsz.
  pose proof (layout_size_usize t) as Hlay.
  assert (total_size (mem (allocated w a t d)) = layout_size t + total_size (mem w)) as Htot
    by (cbn; by rewrite total_size_insert).
  split; try done.
  - split; cbn; intros x b [[<- <-]|[_ Hx]]%lookup_insert_Some; try by eapply Hm.
    + done.
    + by exists White.
  - rewrite allocated_abs by done. apply wf_g_alloc; try done.
    cbn. by rewrite lookup_fmap, Ha.
  - exists (a :: l). destruct Hl as [H1 H2 H3]. split; cbn.
    + split; [done|]. eexists. rewrite lookup_insert_eq. split; [done|]. cbn.
      by apply lseg_insert.
    + apply NoDup_cons. split; [|done]. intros Hin.
      destruct (lseg_is_Some _ _ _ _ a H1 Hin) as [? ?]. congruence.
    + intros x. rewrite lookup_insert_is_Some. intros [<-|[_ Hx]]; [by left|]. right. auto.
  - cbn [heap bytes_allocated allocated set_heap set_bytes_allocated]. rewrite Htot, Hb.
    cbn. rewrite usize_fetch_add_small; [lia|]. unfold is_usize in *. lia.
  - rewrite Htot. unfold is_usize in *. lia.
Qed.

Lemma allocated_idle w a t d :
  idle w → mem w !! a = None → has_type d t = true → wf_val (abs w) d →
  total_size (mem w) + layout_size t ≤ usize_max →
  idle (allocated w a t d).
Proof.
  intros [Hwf Hp Hq Hb Hwh] Ha Hty Hd Hsz. split; try done.
  - by apply allocated_wf.
  - cbn. intros x b [[<- <-]|[_ Hx]]%lookup_insert_Some; [done|]. by eapply Hwh.
Qed.

Lemma allocate_run w fuel t d :
  idle w → (0 < fuel)%nat →
  let a := malloc (dom (mem w)) in
  mem w !! a = None ∧ run (Heap.allocate fuel t d) w = Done a (allocated w a t d).
Proof.
  intros Hidle Hfuel a. split; [apply not_elem_of_dom, malloc_fresh|].
  by apply wp_run_eq, allocate_wp, assist_idle_wp.
Qed.

(** C22: [allocate] on an idle heap returns a new object with one root, linked
    in front of the allocation list and added to the byte counter. *)
Theorem allocate_correct w fuel t d :
  idle w → (0 < fuel)%nat → has_type d t = true → wf_val (abs w) d →
  total_size (mem w) + layout_size t ≤ usize_max →
  ∃ a w', run (Heap.allocate fuel t d) w = Done a w' ∧ idle w' ∧
    mem w !! a = None ∧ abs w' = g_alloc (abs w) a (mkObj t 1 d) ∧
    head (heap w') = Some a ∧ next_at (mem w') a = Some (head (heap w)) ∧
    bytes_allocated (heap w') = bytes_allocated (heap w) + layout_size t.
Proof.
  intros Hidle Hfuel Hty Hd Hsz. destruct (allocate_run w fuel t d Hidle Hfuel) as [Ha Hrun].
  set (a := malloc (dom (mem w))) in *. exists a, (allocated w a t d). split_and!; try done.
  - by apply allocated_idle.
  - by apply allocated_abs.
  - unfold next_at. cbn. by rewrite lookup_insert_eq.
  - cbn. apply usize_fetch_add_small. pose proof (layout_size_usize t).
    pose proof (idle_wf _ Hidle) as Hwf. rewrite (ww_bytes _ Hwf).
    pose proof (ww_bytes_usize _ Hwf). unfold is_usize in *. lia.
Qed.

(** ** Root counts *)

(** A change of the root count of [a]. *)
Definition rerooted (w : world) (a : loc) (f : Z → Z) : world :=
  set_mem w (alter (λ b, mkBox (set_root_count (header b) (f (root_count (header b)))) (data b))
               a (mem w)).

Lemma header_set_roots w a f (Q : unit → world → Prop) :
  is_Some (mem w !! a) → Q tt (rerooted w a f) →
  wp (header_set a (λ h, set_root_count h (f (root_count h)))) Q w.
Proof.
  intros [b Hb] HQ. unfold header_set, header_update. cbn. rewrite Hb. cbn.
  unfold rerooted in HQ. by rewrite alter_alt, Hb in HQ.
Qed.

Lemma rerooted_abs w a f : abs (rerooted w a f) = g_roots (abs w) a f.
Proof.
  unfold abs, g_roots. cbn. f_equal. apply map_eq. intros x.
  destruct (decide (a = x)) as [->|Hne].
  - rewrite lookup_alter_eq, !lookup_fmap, lookup_alter_eq. by destruct (mem w !! x).
  - by rewrite lookup_alter_ne, !lookup_fmap, lookup_alter_ne.
Qed.

Lemma rerooted_lookup w a f x b' :
  mem (rerooted w a f) !! x = Some b' → ∃ b, mem w !! x = Some b ∧
    color (header b') = color (header b) ∧ next (header b') = next (header b) ∧
    vtable (header b') = vtable (header b) ∧ data b' = data b.
Proof.
  cbn. rewrite lookup_alter_Some. intros [(<- & b & Hb & ->)|[_ Hb]]; [by exists b|by exists b'].
Qed.

Lemma rerooted_next w a f x : next_at (mem (rerooted w a f)) x = next_at (mem w) x.
Proof.
  unfold next_at. cbn. destruct (decide (a = x)) as [->|Hne].
  - rewrite lookup_alter_eq. by destruct (mem w !! x).
  - by rewrite lookup_alter_ne.
Qed.

Lemma total_size_replace m a b b' :
  m !! a = Some b → box_size b' = box_size b → total_size (<[a := b']> m) = total_size m.
Proof.
  intros Hb Hs. rewrite <- (insert_delete_eq m a b'), total_size_insert by apply lookup_delete_eq.
  rewrite Hs, <- (total_size_insert (delete a m) a b) by apply lookup_delete_eq.
  by rewrite insert_delete_eq, insert_id.
Qed.

Lemma rerooted_total w a f : total_size (mem (rerooted w a f)) = total_size (mem w).
Proof.
  destruct (mem w !! a) as [b|] eqn:Hb; cbn; rewrite alter_alt, Hb; [|done].
  by apply (total_size_replace _ _ b).
Qed.

Lemma rerooted_wf w a f :
  wf_world w → (∀ o, objs (abs w) !! a = Some o → is_usize (f (ob_roots o))) →
  wf_world (rerooted w a f).
Proof.
  intros [Hm HG [l [H1 H2 H3]] Hb Hbu Hlg Htls Ho Hthr] Hf. split; try done.
  - split; intros x b' (b & Hb' & Hc & _ & Hv & _)%rerooted_lookup.
    + unfold box_ty. rewrite Hv. by apply (wf_vtable _ Hm x).
    + rewrite Hc. by apply (wf_color _ Hm x).
  - rewrite rerooted_abs. by apply wf_g_roots.
  - exists l. split; [|done|].
    + eapply lseg_frame; [|exact H1]. intros; apply rerooted_next.
    + intros x. cbn. rewrite lookup_alter_is_Some. apply H3.
  - rewrite rerooted_total. done.
  - rewrite rerooted_total. done.
Qed.

Lemma rerooted_idle w a f :
  idle w → (∀ o, objs (abs w) !! a = Some o → is_usize (f (ob_roots o))) →
  idle (rerooted w a f).
Proof.
  intros [Hwf Hp Hq Hb Hwh] Hf. split; try done; [by apply rerooted_wf|].
  intros x b' (b & Hb' & Hc & _)%rerooted_lookup. unfold box_color. rewrite Hc.
  by apply (Hwh x).
Qed.

Lemma abs_is_Some w a : is_Some (objs (abs w) !! a) ↔ is_Some (mem w !! a).
Proof. cbn. by rewrite lookup_fmap, fmap_is_Some. Qed.

Lemma inc_root_run w a :
  is_Some (mem w !! a) →
  run (inc_root a) w = Done tt (rerooted w a (λ n, usize_fetch_add n 1)).
Proof.
  intros Ha. by apply wp_run_eq, (header_set_roots w a (λ n, usize_fetch_add n 1)).
Qed.

Lemma dec_root_run w a :
  is_Some (mem w !! a) →
  run (dec_root a) w = Done tt (rerooted w a (λ n, usize_fetch_sub n 1)).
Proof.
  intros Ha. by apply wp_run_eq, (header_set_roots w a (λ n, usize_fetch_sub n 1)).
Qed.

(** An atomic update of the count that does not wrap refines the update of the
    graph. *)
Lemma rerooted_refines w a o f g :
  idle w → objs (abs w) !! a = Some o → f (ob_roots o) = g (ob_roots o) →
  is_usize (g (ob_roots o)) →
  idle (rerooted w a f) ∧ abs (rerooted w a f) = g_roots (abs w) a g.
Proof.
  intros Hidle Ho Hfg Hr. split.
  - apply rerooted_idle; [done|]. intros o' Ho'. simplify_eq. by rewrite Hfg.
  - rewrite rerooted_abs. unfold g_roots. f_equal. apply map_eq. intros x.
    destruct (decide (a = x)) as [->|Hne]; [|by rewrite !lookup_alter_ne].
    rewrite !lookup_alter_eq, Ho. cbn. by rewrite Hfg.
Qed.

Lemma inc_root_refines w a o :
  idle w → objs (abs w) !! a = Some o → ob_roots o < usize_max →
  let w' := rerooted w a (λ n, usize_fetch_add n 1) in
  idle w' ∧ abs w' = g_roots (abs w) a (λ n, n + 1).
Proof.
  intros Hidle Ho Hmax.
  pose proof (wf_obj_roots _ (ww_graph _ (idle_wf _ Hidle)) _ _ Ho) as Hr.
  assert (is_usize (ob_roots o + 1)) by (unfold is_usize in *; lia).
  apply (rerooted_refines w a o); try done. by apply usize_fetch_add_small.
Qed.

Lemma dec_root_refines w a o :
  idle w → objs (abs w) !! a = Some o → 0 < ob_roots o →
  let w' := rerooted w a (λ n, usize_fetch_sub n 1) in
  idle w' ∧ abs w' = g_roots (abs w) a (λ n, n - 1).
Proof.
  intros Hidle Ho Hmax.
  pose proof (wf_obj_roots _ (ww_graph _ (idle_wf _ Hidle)) _ _ Ho) as Hr.
  assert (is_usize (ob_roots o - 1)) by (unfold is_usize in *; lia).
  apply (rerooted_refines w a o); try done. by apply usize_fetch_sub_small.
Qed.

(** [GcPtr::root] and [GcRoot::clone] add one root to a live object. *)
Theorem root_correct w a o :
  idle w → objs (abs w) !! a = Some o → ob_roots o < usize_max →
  ∃ w', run (GcPtr.root a) w = Done a w' ∧ run (GcRoot.clone a) w = Done a w' ∧
    idle w' ∧ abs w' = g_roots (abs w) a (λ n, n + 1).
Proof.
  intros Hidle Ho Hmax. exists (rerooted w a (λ n, usize_fetch_add n 1)).
  unfold GcPtr.root, GcRoot.clone. rewrite run_bind, inc_root_run
    by (apply abs_is_Some; by eexists).
  split; [done|]. split; [done|]. by eapply inc_root_refines.
Qed.

(** Dropping a [GcRoot] removes one root. *)
Theorem drop_root_correct w a o :
  idle w → objs (abs w) !! a = Some o → 0 < ob_roots o →
  ∃ w', run (GcRoot.drop a) w = Done tt w' ∧ idle w' ∧
    abs w' = g_roots (abs w) a (λ n, n - 1).
Proof.
  intros Hidle Ho Hpos. exists (rerooted w a (λ n, usize_fetch_sub n 1)).
  split; [apply dec_root_run, abs_is_Some; by eexists|]. by eapply dec_root_refines.
Qed.

Lemma deref_run w a o :
  objs (abs w) !! a = Some o → run (GcRoot.deref a) w = Done (ob_data o) w.
Proof.
  cbn. rewrite lookup_fmap, fmap_Some. intros (b & Hb & ->).
  unfold box_get. cbn. by rewrite Hb.
Qed.

(** ** Cells *)

Definition celled (w : world) (c : loc) (v : val) : world :=
  set_cells w (<[c := v]> (cells w)).

Lemma celled_idle w c v :
  idle w → wf_graph (g_set (abs w) c v) → idle (celled w c v).
Proof.
  intros Hw HG. eapply idle_frame; [exact Hw|done..|exact HG| | | |]; apply Hw.
Qed.

(** Storing a value in the cell of an idle heap, whether or not the thread has
    a context. *)
Lemma cell_set_run w th c v :
  idle w → is_Some (cells w !! c) → run (GcCell.set th c v) w = Done tt (celled w c v).
Proof.
  intros Hidle [v0 Hc].
  apply wp_run_eq. unfold GcCell.set, GcContext.with_current_context.
  rewrite !wp_bind. cbn. destruct (tls w !! th) as [ctx|].
  - rewrite wp_bind. unfold GcCell.barrier. rewrite wp_bind.
    apply check_busy_idle; [apply Hidle..|]. cbn. by rewrite Hc.
  - cbn. by rewrite Hc.
Qed.

Lemma cell_new_refines w v t :
  idle w → is_copy t = true → has_type v t = true →
  let c := malloc (dom (cells w)) in
  cells w !! c = None ∧ run (GcCell.new v) w = Done c (celled w c v) ∧ idle (celled w c v).
Proof.
  intros Hidle Hc Hv c.
  assert (cells w !! c = None) as Hfresh by (apply not_elem_of_dom, malloc_fresh).
  split; [done|]. split; [done|].
  apply celled_idle; [done|]. apply (wf_g_set _ _ _ t); [apply Hidle|done|done|].
  intros a o Ha Hin. pose proof (ww_graph _ (idle_wf _ Hidle)) as HG.
  destruct (wf_val_cells _ _ (wf_obj_val _ HG _ _ Ha) _ Hin) as [? Hx].
  cbn in Hx. congruence.
Qed.

Lemma cell_set_refines w c v t :
  idle w → is_copy t = true → has_type v t = true → wf_val (abs w) v → idle (celled w c v).
Proof.
  intros Hidle Hcopy Hv Hwf. apply celled_idle; [done|].
  apply (wf_g_set _ _ _ t); [apply Hidle|done..].
Qed.

Lemma cell_get_run w c v : gcells (abs w) !! c = Some v → run (GcCell.get c) w = Done v w.
Proof. intros Hc. unfold GcCell.get, cell_get. cbn in *. by rewrite Hc. Qed.

Lemma cell_get_celled w c v : run (GcCell.get c) (celled w c v) = Done v (celled w c v).
Proof. apply cell_get_run. cbn. apply lookup_insert_eq. Qed.

(** [GcCell::new] on an idle heap makes a new cell, from which [get] reads
    the value. *)
Theorem cell_new_correct w v t :
  idle w → is_copy t = true → has_type v t = true →
  ∃ c w', run (GcCell.new v) w = Done c w' ∧ idle w' ∧
    gcells (abs w) !! c = None ∧ abs w' = g_set (abs w) c v ∧
    run (GcCell.get c) w' = Done v w'.
Proof.
  intros Hidle Hc Hv. destruct (cell_new_refines w v t) as (? & ? & ?); [done..|].
  eexists _, _. split; [done|]. split_and!; try done. apply cell_get_celled.
Qed.

(** [GcCell::set] on an idle heap replaces the contents and changes nothing
    else, whether or not the thread has a context. *)
Theorem cell_set_correct w th c v t :
  idle w → is_Some (gcells (abs w) !! c) → is_copy t = true → has_type v t = true →
  wf_val (abs w) v →
  ∃ w', run (GcCell.set th c v) w = Done tt w' ∧ idle w' ∧
    abs w' = g_set (abs w) c v ∧ run (GcCell.get c) w' = Done v w'.
Proof.
  intros Hidle Hc Hcopy Hv Hwf. exists (celled w c v). split; [by apply cell_set_run|].
  split; [by eapply cell_set_refines|]. split; [done|]. apply cell_get_celled.
Qed.

End client.
