(* ===== verification/Background.v ===== *)
(** * The background thread

    The generations of [StartStopJoinHandle]: a stopped thread stays stopped
    whatever the other threads start and stop.  [background_gc_thread]: a round
    on an idle heap is a complete collection when one is due and does nothing
    otherwise, and a stopped thread returns. *)

From stdpp Require Import relations.
From S2P Require Import Prelude Prog Color TraceImpls GcBox Options BgThread World.
From S2P Require Import Graph Tracing State HeapOps Marking Sweeping Collection.
Open Scope Z_scope.

(** ** Generations *)

Module Generations.
Section generations.
Context `{Env}.

(** The running thread is the one of the current generation. *)
Definition inv (s : StartStop.t) : Prop :=
  is_usize (StartStop.counter s) ∧
  ∀ c, StartStop.handle s = Some c → c = StartStop.counter s.

Lemma inv_new : inv StartStop.new.
Proof. split; [apply is_usize_0|]. intros c Hc. discriminate Hc. Qed.

Lemma inv_step s s' : inv s → StartStop.step s s' → inv s'.
Proof.
  intros Hi Hs. inversion Hs as [? b ? Hst|]; subst; [|by split; [apply Hi|]].
  unfold StartStop.start in Hst. destruct (StartStop.handle s) as [c|] eqn:E.
  { by simplify_eq. }
  destruct (usize_op _ _) as [c|] eqn:Ho; [|done]. cbn in Hst. simplify_eq.
  apply usize_op_range in Ho. split; [done|]. by intros ? [= <-].
Qed.

(** One step under which the counter does not wrap. *)
Lemma step_stopped s s' c :
  inv s → StartStop.counter s < usize_max → StartStop.step s s' →
  c ≤ StartStop.counter s → StartStop.is_stopped s c = true →
  StartStop.counter s ≤ StartStop.counter s' ≤ StartStop.counter s + 1 ∧
  StartStop.is_stopped s' c = true.
Proof.
  intros [Hc Hh] Hmax Hs Hle Hst. inversion Hs as [? b ? Hstart|]; subst.
  - unfold StartStop.start in Hstart. destruct (StartStop.handle s) as [c'|] eqn:E.
    { simplify_eq. split; [lia|done]. }
    rewrite usize_op_Some in Hstart by (unfold is_usize in *; lia).
    cbn in Hstart. simplify_eq. cbn. split; [lia|].
    unfold StartStop.is_stopped. cbn. by rewrite (proj2 (Z.eqb_neq _ _)) by lia.
  - cbn. split; [lia|]. done.
Qed.

(** C28: a background thread that has been told to stop is never told to go on
    again, however often collection is restarted and stopped. *)
Theorem stopped_forever n s s' c :
  inv s → nsteps StartStop.step n s s' → StartStop.counter s + Z.of_nat n ≤ usize_max →
  c ≤ StartStop.counter s → StartStop.is_stopped s c = true →
  StartStop.is_stopped s' c = true.
Proof.
  intros Hinv Hs. induction Hs as [s|n s1 s2 s3 Hs _ IH]; [done|].
  intros Hmax Hle Hst.
  destruct (step_stopped s1 s2 c) as [Hcnt Hst2]; [done|lia|done..|].
  apply IH; [by eapply inv_step|lia|lia|done].
Qed.

(** [start] spawns a thread of a new generation, which is not stopped, and
    [stop] stops it; starting twice or stopping twice does nothing. *)
Theorem start_stop_correct s :
  inv s → StartStop.counter s < usize_max →
  match StartStop.handle s with
  | Some c =>
      StartStop.start s = Some (false, s) ∧ StartStop.is_stopped s c = false ∧
      ∃ s', StartStop.stop_take s = (Some c, s') ∧ StartStop.is_stopped s' c = true ∧
        StartStop.stop_take s' = (None, s')
  | None =>
      ∃ s', StartStop.start s = Some (true, s') ∧
        StartStop.handle s' = Some (StartStop.counter s + 1) ∧
        (∀ c, c ≤ StartStop.counter s →
           StartStop.is_stopped s c = true ∧ StartStop.is_stopped s' c = true)
  end.
Proof.
  intros [Hc Hh] Hmax. destruct (StartStop.handle s) as [c|] eqn:E.
  - pose proof (Hh _ eq_refl) as ->. unfold StartStop.start, StartStop.is_stopped.
    rewrite E, Z.eqb_refl. split; [done|]. split; [done|].
    exists (StartStop.mk (StartStop.counter s) None).
    unfold StartStop.stop_take. rewrite E. done.
  - unfold StartStop.start. rewrite E.
    rewrite usize_op_Some by (unfold is_usize in *; lia). cbn.
    eexists. split; [done|]. split; [done|]. intros c Hle. unfold StartStop.is_stopped.
    rewrite (bool_decide_eq_true_2 (StartStop.handle s = None)) by done. split; [done|].
    cbn. by rewrite (proj2 (Z.eqb_neq _ _)) by lia.
Qed.

End generations.
End Generations.

(** ** The owners of the heap *)

Section owners.
Context `{Env}.

Definition owners (w : world) (n : Z) : world := set_strong w n.

Lemma owners_idle w n : idle w → idle (owners w n).
Proof. intros Hw. eapply idle_frame; [exact Hw|done..| | | | |]; apply Hw. Qed.

Lemma owners_id w : owners w (strong w) = w.
Proof. by destruct w. Qed.

Lemma arc_clone_run w :
  0 ≤ strong w < usize_max → run Heap.arc_clone w = Done tt (owners w (strong w + 1)).
Proof. intros Hs. cbn. by rewrite usize_fetch_add_small by (unfold is_usize; lia). Qed.

(** Dropping an [Arc] that is not the last one. *)
Lemma arc_drop_shared w fuel :
  1 < strong w ≤ usize_max → run (Heap.arc_drop fuel) w = Done tt (owners w (strong w - 1)).
Proof.
  intros Hs. unfold Heap.arc_drop. run_next.
  rewrite bool_decide_eq_false_2, usize_fetch_sub_small by (unfold is_usize in *; lia). done.
Qed.

(** Dropping the last one runs the destructor. *)
Lemma arc_drop_last w fuel :
  strong w = 1 → run (Heap.arc_drop fuel) w = run (Heap.drop fuel) (owners w 0).
Proof.
  intros Hs. unfold Heap.arc_drop. run_next.
  rewrite bool_decide_eq_true_2, Hs by done. done.
Qed.

End owners.

(** ** A round of the background thread *)

Section background.
Context `{Env} `{!TraceContract}.

(** The incremental marking loop completes the mark phase. *)
Lemma bg_mark_loop_wp w w1 n c :
  idle w → (0 < incremental_work_budget (options (heap w))) →
  StartStop.is_stopped (bg_thread (heap w)) c = false →
  scanned w [] w1 → (loop_fuel [] w1 < n)%nat →
  wp (Heap.bg_mark_loop n c) (λ r w2, r = true ∧ mark_done w w2) w1.
Proof.
  intros Hidle Hbud Hstop Hs Hfuel.
  assert (∀ a b, reachable (abs w) a → edge (abs w) a b → reachable (abs w) b) as HS
    by (by eauto with gc).
  revert w1 Hs Hfuel. induction n as [|n IH]; intros w1 Hs Hfuel; [lia|].
  pose proof (recolored_heap _ _ (sc_recolored _ _ _ Hs)) as Hh.
  cbn [Heap.bg_mark_loop]. wp_next. rewrite Hh. cbn. rewrite Hstop.
  wp_next. rewrite Hh. cbn. rewrite wp_bind. unfold Heap.do_mark_incremental.
  eapply wp_bind_mono;
    [apply (do_mark_with_tracer_wp _ _ (ww_graph _ (idle_wf _ Hidle)) HS);
     [apply Hs|done|lia]|].
  intros [d tr1] w2 [(Ht & Hadv & Hle & Hsum & Hend) Hnil]; cbn in *. subst tr1.
  pose proof (scanned_advance _ _ _ _ _ Hs Ht Hadv) as Hs2.
  destruct (d =? 0) eqn:Hd.
  - wp_next. rewrite (recolored_heap _ _ (sc_recolored _ _ _ Hs2)). cbn.
    rewrite (idle_busy _ Hidle). cbn. split; [done|]. apply scanned_done; [done..|].
    destruct Hend as [?|[_ ?]]; [bool_lia|done].
  - apply IH; [done|]. unfold Tracer.new in Hsum. bool_lia.
Qed.

Lemma background_thread_stopped fuel timed_out ts c tr w :
  StartStop.is_stopped (bg_thread (heap w)) c = true →
  run (Heap.background_gc_thread fuel (timed_out :: ts) c tr) w = Done tt w.
Proof.
  intros Hstop. cbn [Heap.background_gc_thread]. run_next.
  destruct (Duration_is_zero _); [done|]. unfold Heap.wait_stopped.
  rewrite !run_bind. cbn. unfold StartStop.wait_entry. by rewrite Hstop.
Qed.

Lemma background_thread_woken fuel ts c tr w :
  run (Heap.background_gc_thread fuel (false :: ts) c tr) w = Done tt w.
Proof.
  cbn [Heap.background_gc_thread]. run_next. destruct (Duration_is_zero _); [done|].
  unfold Heap.wait_stopped. rewrite !run_bind. cbn. by destruct (StartStop.wait_entry _ _).
Qed.

(** C29: a stopped background thread returns and gives up its [Arc] of the heap, and
    [join] then returns too. *)
Theorem bg_main_stops fuel timed_out ts c w :
  StartStop.is_stopped (bg_thread (heap w)) c = true → 1 < strong w ≤ usize_max →
  ∃ w', run (Heap.bg_main fuel (timed_out :: ts) c) w = Done tt w' ∧
    run (Heap.join c) w' = Done tt w' ∧ strong w' = strong w - 1 ∧
    heap w' = heap w ∧ mem w' = mem w ∧ running w' = running w ∖ {[c]}.
Proof.
  intros Hstop Hs. exists (set_running (owners w (strong w - 1)) (running w ∖ {[c]})).
  unfold Heap.bg_main.
  rewrite run_bind, background_thread_stopped, run_bind, arc_drop_shared by done.
  split; [done|]. split; [|done]. cbn. rewrite bool_decide_eq_false_2; [done|]. set_solver.
Qed.

(** A round, for any rounds [ts] that follow it. *)
Lemma background_round fuel c w :
  idle w → 0 < incremental_work_budget (options (heap w)) → pacing_ok w →
  (enough_fuel w ≤ fuel)%nat → 0 < collection_interval (options (heap w)) →
  StartStop.is_stopped (bg_thread (heap w)) c = false →
  ∃ w', (∀ ts, run (Heap.background_gc_thread fuel (true :: ts) c []) w =
               run (Heap.background_gc_thread fuel ts c []) w') ∧
    if decide (triggered (heap w)) then collection_done w w' else w' = w.
Proof.
  intros Hidle Hbud Hpace Hfuel Hint Hstop.
  assert (∀ ts, run (Heap.background_gc_thread fuel (true :: ts) c []) w =
    run (started ← (if bool_decide (triggered (heap w)) then Heap.try_start_marking else Ret false);
         if started : bool then
           tracer ← Heap.do_mark_roots fuel [];
           completed ← Heap.bg_mark_loop fuel c;
           if completed : bool then
             Heap.sweep_and_finish fuel;; Heap.background_gc_thread fuel ts c tracer
           else Ret tt
         else Heap.background_gc_thread fuel ts c [])%gc w) as Hround.
  { intros ts. cbn [Heap.background_gc_thread]. run_next.
    unfold Duration_is_zero. rewrite (proj2 (Z.eqb_neq _ _)) by lia.
    unfold Heap.wait_stopped. rewrite !run_bind. cbn. unfold StartStop.wait_entry.
    rewrite Hstop. cbn. etransitivity; [apply run_bind|]. rewrite should_collect_run. by rewrite run_bind. }
  setoid_rewrite Hround. clear Hround.
  case_bool_decide as Htr; case_decide; try done; cycle 1.
  { exists w. split; [|done]. intros ts. by rewrite run_bind. }
  pose proof (scan_roots_wp w fuel Hidle Hfuel) as Hscan.
  apply wp_run in Hscan as (tr1 & w1 & Hrun1 & -> & Hs1).
  assert (wp (Heap.bg_mark_loop fuel c) (λ r w2, r = true ∧ mark_done w w2) w1) as Hmark.
  { apply bg_mark_loop_wp; try done. pose proof (scanned_fuel _ _ _ Hs1). lia. }
  apply wp_run in Hmark as (r & w2 & Hrun2 & -> & Hm).
  destruct (ww_list _ (idle_wf _ Hidle)) as [l Hl].
  assert (alloc_list w2 l) as Hl2.
  { eapply alloc_list_recolored; [apply Hm|]. by destruct Hl. }
  assert (wp (Heap.sweep_and_finish fuel)
    (λ r w', r = total_size (mem w') ∧ collection_done w w') w2) as Hsweep.
  { apply (finish_collection_wp w w2 l); try done.
    rewrite (alloc_list_length _ _ Hl). unfold enough_fuel in Hfuel. lia. }
  apply wp_run in Hsweep as (? & w' & Hrun3 & _ & Hdone). exists w'. split; [|done]. intros ts.
  rewrite run_bind, try_start_marking_run by apply Hidle.
  by rewrite run_bind, Hrun1, run_bind, Hrun2, run_bind, Hrun3.
Qed.

(** The thread's timer fires once; the next time it waits it is woken to stop. *)
Definition one_round : list bool := [true; false].

(** A round on an idle heap, whatever the interval and the state of the thread. *)
Lemma one_round_run c w :
  idle w → 0 < incremental_work_budget (options (heap w)) → pacing_ok w →
  ∃ w', run (Heap.background_gc_thread (enough_fuel w) one_round c []) w = Done tt w' ∧
    (collection_done w w' ∨ w' = w).
Proof.
  intros Hidle Hbud Hpace.
  destruct (StartStop.is_stopped (bg_thread (heap w)) c) eqn:Hstop.
  { exists w. split; [by apply background_thread_stopped|by right]. }
  pose proof (ww_options _ (idle_wf _ Hidle)) as [Hint _].
  destruct (decide (collection_interval (options (heap w)) = 0)) as [Hz|Hz].
  { exists w. split; [|by right]. cbn [Heap.background_gc_thread one_round]. run_next.
    unfold Duration_is_zero. by rewrite Hz. }
  destruct (background_round (enough_fuel w) c w) as (w' & Hrun & Hw'); [done..|lia|done|].
  exists w'. split; [unfold one_round; rewrite Hrun|case_decide; [by left|by right]].
  apply background_thread_woken.
Qed.

(** C20: a round of the background thread, which marks in increments, has the
    effect of [force_collect], which marks all at once, when a collection is due:
    the same objects and cells remain, the byte counter, the threshold and the
    options are the same and the same objects have been dropped; when none is due
    it changes nothing. *)
Theorem background_round_equivalent fuel c w :
  idle w → 0 < incremental_work_budget (options (heap w)) → pacing_ok w →
  (enough_fuel w ≤ fuel)%nat → 0 < collection_interval (options (heap w)) →
  StartStop.is_stopped (bg_thread (heap w)) c = false →
  ∃ w1, run (Heap.background_gc_thread fuel one_round c []) w = Done tt w1 ∧
    if decide (triggered (heap w)) then
      ∃ w2 n, run (Heap.force_collect fuel) w = Done n w2 ∧
        abs w1 = abs w2 ∧ bytes_allocated (heap w1) = bytes_allocated (heap w2) ∧
        current_threshold (heap w1) = current_threshold (heap w2) ∧
        options (heap w1) = options (heap w2) ∧ dropped w1 ≡ₚ dropped w2
    else w1 = w.
Proof.
  intros Hidle Hbud Hpace Hfuel Hint Hstop.
  destruct (background_round fuel c w) as (w1 & Hrun & Hw1); [done..|]. exists w1.
  split; [unfold one_round; rewrite Hrun; apply background_thread_woken|].
  case_decide; [|done].
  destruct (force_collect_run w fuel) as (w2 & Hrun2 & Hd2); [done..|].
  exists w2, (total_size (mem w2)). split; [done|]. by apply (collection_done_unique w).
Qed.

(** a round of the background thread on an idle heap collects, as
    [force_collect] does, when a collection is due, and changes nothing
    otherwise. *)
Theorem background_round_correct fuel ts c w :
  idle w → 0 < incremental_work_budget (options (heap w)) → pacing_ok w →
  (enough_fuel w ≤ fuel)%nat → 0 < collection_interval (options (heap w)) →
  StartStop.is_stopped (bg_thread (heap w)) c = false →
  ∃ w', run (Heap.background_gc_thread fuel (true :: ts) c []) w =
        run (Heap.background_gc_thread fuel ts c []) w' ∧
    if decide (triggered (heap w)) then collection_done w w' else w' = w.
Proof.
  intros Hidle Hbud Hpace Hfuel Hint Hstop.
  destruct (background_round fuel c w) as (w' & Hrun & Hw'); [done..|]. exists w'. split; [apply Hrun|done].
Qed.

End background.
