(* ===== verification/Lifecycle.v ===== *)
(** * Construction and destruction of heaps and contexts

    [Heap::with_options] establishes the invariant, [Drop for Heap] frees every
    object once, in list order, whatever is rooted.  [GcContext::with_heap] and
    [Drop for GcContext] set and clear the context of the thread. *)

From stdpp Require Import relations.
From S2P Require Import Prelude Prog Color TraceImpls GcBox Options BgThread World.
From S2P Require Import Graph Tracing State HeapOps Mutator Sweeping Background.
Open Scope Z_scope.

Section lifecycle.
Context `{Env} `{!TraceContract}.

(** ** Heaps *)

(** Before a heap exists: no block, no cell, no thread, no context. *)
Record unborn (w : world) : Prop := {
  ub_mem : mem w = ∅;
  ub_cells : cells w = ∅;
  ub_tls : tls w = ∅;
  ub_ctxs : ctxs w = ∅;
  ub_running : running w = ∅;
}.

(** The background thread that the constructor leaves running. *)
Definition born_running (o : GcOptions) : gset Z :=
  if GcOptions.is_background_collection_off o then ∅ else {[1]}.

(** The owners of a new heap: the caller and the background thread. *)
Definition born_strong (o : GcOptions) : Z :=
  if GcOptions.is_background_collection_off o then 1 else 2.

Lemma heap_init_idle w o h :
  unborn w → GcOptions.wf o → h = Heap.heap_init o ∨
    h = set_bg_thread (Heap.heap_init o) (StartStop.mk 1 (Some 1)) →
  idle (set_heap w h).
Proof.
  intros [Hm Hc Ht Hx _] Ho Hh.
  assert (abs (set_heap w h) = mkGraph ∅ ∅) as Habs
    by (unfold abs; cbn; by rewrite Hm, Hc, fmap_empty).
  split; [split|..]; cbn; rewrite ?Hm, ?Hc, ?Ht, ?Hx; try (by destruct Hh as [->| ->]).
  - rewrite Habs. split; intros a o'; cbn; by rewrite lookup_empty.
  - exists []. split; cbn; rewrite ?Hm; [by destruct Hh as [->| ->]|by constructor|].
    intros a [? Ha]. by rewrite lookup_empty in Ha.
  - destruct Ho as (_ & _ & _ & _ & _ & ? & _). by destruct Hh as [->| ->].
Qed.

Lemma running_idle w r : idle w → idle (set_running w r).
Proof. intros Hw. eapply idle_frame; [exact Hw|done..| | | | |]; apply Hw. Qed.

(** The state after the constructor. *)
Definition born (w : world) (o : GcOptions) : world :=
  let h := Heap.heap_init o in
  if GcOptions.is_background_collection_off o then owners (set_heap w h) 1
  else set_running (owners (set_heap w (set_bg_thread h (StartStop.mk 1 (Some 1)))) 2)
         ({[1]} ∪ running w).

Lemma born_run w o fuel : run (Heap.with_options fuel o) w = Done tt (born w o).
Proof.
  unfold Heap.with_options, Heap.start_background_collection, born.
  rewrite !run_bind. cbn. rewrite !run_bind. cbn.
  destruct (GcOptions.is_background_collection_off o); [done|].
  do 3 run_next. by rewrite usize_op_Some by apply is_usize_1.
Qed.

Lemma born_idle w o : unborn w → GcOptions.wf o → idle (born w o).
Proof.
  intros Hu Ho. unfold born. destruct (GcOptions.is_background_collection_off o).
  - apply owners_idle, (heap_init_idle w o); auto.
  - by apply running_idle, owners_idle, (heap_init_idle w o _ Hu Ho (or_intror eq_refl)).
Qed.

Lemma with_options_run w o fuel :
  unborn w → GcOptions.wf o →
  ∃ w', run (Heap.with_options fuel o) w = Done tt w' ∧ idle w' ∧
    objs (abs w') = ∅ ∧ options (heap w') = o ∧
    current_threshold (heap w') = min_threshold_bytes o ∧
    running w' = born_running o ∧ strong w' = born_strong o ∧
    StartStop.is_started (bg_thread (heap w')) =
      negb (GcOptions.is_background_collection_off o).
Proof.
  intros Hu Ho. exists (born w o). split; [apply born_run|]. split; [by apply born_idle|].
  unfold born, born_running, born_strong.
  destruct (GcOptions.is_background_collection_off o); cbn;
    rewrite (ub_mem _ Hu), (ub_running _ Hu), fmap_empty, ?union_empty_r_L; done.
Qed.

(** C30: [Heap::with_options] returns an empty idle heap, with one background
    thread, which owns the heap too, unless the options switch it off. *)
Theorem with_options_correct w o fuel :
  unborn w → GcOptions.wf o →
  ∃ w', run (Heap.with_options fuel o) w = Done tt w' ∧ idle w' ∧
    objs (abs w') = ∅ ∧ options (heap w') = o ∧
    current_threshold (heap w') = min_threshold_bytes o ∧
    running w' = (if GcOptions.is_background_collection_off o then ∅ else {[1]}) ∧
    strong w' = (if GcOptions.is_background_collection_off o then 1 else 2).
Proof.
  intros Hu Ho.
  destruct (with_options_run w o fuel Hu Ho) as (w' & ? & ? & ? & ? & ? & ? & ? & _).
  by exists w'.
Qed.

(** The blocks [l] removed one after the other. *)
Definition deletes (m : gmap loc GcBox) (l : list loc) : gmap loc GcBox :=
  foldl (λ m a, delete a m) m l.

Lemma deletes_lookup m l a : deletes m l !! a = if decide (a ∈ l) then None else m !! a.
Proof.
  revert m. induction l as [|b l IH]; intros m; cbn; [by rewrite decide_False by apply not_elem_of_nil|].
  rewrite IH. destruct (decide (a = b)) as [->|Hne].
  - rewrite lookup_delete_eq, (decide_True (P := b ∈ b :: l)) by by left. by case_decide.
  - rewrite lookup_delete_ne by done. destruct (decide (a ∈ l)) as [Hin|Hin].
    + by rewrite decide_True by by right.
    + rewrite decide_False; [done|]. rewrite elem_of_cons. tauto.
Qed.

(** The loop of the destructor. *)
Lemma drop_loop_run l fuel current w :
  lseg (mem w) current l None → NoDup l → (length l ≤ fuel)%nat →
  run (Heap.drop_loop fuel current) w =
    Done tt (set_dropped (set_mem w (deletes (mem w) l)) (dropped w ++ l)).
Proof.
  revert fuel current w. induction l as [|a l IH]; intros fuel current w Hl Hnd Hfuel.
  { cbn in Hl. subst. rewrite app_nil_r. by destruct fuel, w. }
  destruct Hl as (-> & b & Hb & Hl). apply NoDup_cons in Hnd as [Ha Hnd].
  destruct fuel as [|fuel]; cbn in Hfuel; [lia|]. cbn [Heap.drop_loop].
  run_next. rewrite Hb. run_next. rewrite Hb, run_bind.
  unfold Heap.call_drop. destruct (vt_drop _). cbn. rewrite Hb. rewrite IH; [|clear IH|done|lia].
  - cbn. by rewrite <- app_assoc.
  - cbn. eapply lseg_frame; [|exact Hl]. intros x Hx. unfold next_at. cbn.
    rewrite lookup_delete_ne; [done|]. by intros <-.
Qed.

(** The state after the destructor. *)
Definition destroyed (w : world) (l : list loc) : world :=
  set_heap (set_dropped (set_mem w ∅) (dropped w ++ l))
    (set_bg_thread (heap w) (StartStop.stop_take (bg_thread (heap w))).2).

Lemma drop_run w l fuel :
  alloc_list w l → (size (mem w) ≤ fuel)%nat →
  (∀ c, StartStop.handle (bg_thread (heap w)) = Some c → c ∉ running w) →
  run (Heap.drop fuel) w = Done tt (destroyed w l).
Proof.
  intros Hl Hfuel Hrun. pose proof (alloc_list_length _ _ Hl) as Hlen.
  unfold Heap.drop. run_next. rewrite run_bind.
  rewrite (drop_loop_run l) by (apply Hl || lia).
  replace (deletes (mem w) l) with (∅ : gmap loc GcBox).
  2:{ symmetry. apply map_empty. intros a. rewrite deletes_lookup.
      case_decide as Hin; [done|]. apply eq_None_not_Some. intros Hs. by apply Hin, Hl. }
  unfold Heap.stop_background_collection, destroyed. rewrite !run_bind. cbn.
  unfold StartStop.stop_take.
  destruct (StartStop.handle (bg_thread (heap w))) as [c|] eqn:E; cbn; [|done].
  run_next. by rewrite bool_decide_eq_false_2 by by apply Hrun.
Qed.

(** C23: [Drop for Heap] runs the drop function of every object exactly once, in
    list order, also of the rooted ones. *)
Theorem drop_correct w l fuel :
  alloc_list w l → (size (mem w) ≤ fuel)%nat →
  (∀ c, StartStop.handle (bg_thread (heap w)) = Some c → c ∉ running w) →
  ∃ w', run (Heap.drop fuel) w = Done tt w' ∧ mem w' = ∅ ∧
    dropped w' = dropped w ++ l ∧ NoDup l ∧ (∀ a, a ∈ l ↔ is_Some (mem w !! a)) ∧
    StartStop.is_started (bg_thread (heap w')) = false.
Proof.
  intros Hl Hfuel Hrun. exists (destroyed w l). split; [by apply drop_run|].
  split; [done|]. split; [done|]. split; [apply Hl|].
  split; [intros a; by apply alloc_list_elem|]. cbn.
  unfold StartStop.stop_take, StartStop.is_started.
  by destruct (StartStop.handle _) eqn:E; cbn; rewrite ?E.
Qed.

(** ** Contexts *)

Definition entered (w : world) (th : nat) (ctx : loc) : world :=
  set_tls (set_ctxs w (<[ctx := Tracer.new]> (ctxs w))) (<[th := ctx]> (tls w)).

Lemma with_heap_run w th :
  tls w !! th = None →
  let ctx := malloc (dom (ctxs w)) in
  run (GcContext.with_heap th) w = Done ctx (entered w th ctx).
Proof.
  intros Hth. unfold GcContext.with_heap. run_next.
  run_next. by rewrite Hth.
Qed.

Lemma entered_idle w th ctx :
  idle w → tls w !! th = None → ctxs w !! ctx = None → idle (entered w th ctx).
Proof.
  intros Hw Hth Hfresh. pose proof (idle_wf _ Hw) as Hwf.
  eapply idle_frame; [exact Hw|done..|apply Hwf|apply Hwf|apply Hwf| |]; cbn.
  - intros c t [[<- <-]|[_ Hc]]%lookup_insert_Some; [done|]. by eapply Hwf.
  - intros th' c Hc. rewrite lookup_insert_is_Some.
    destruct (decide (ctx = c)) as [|Hne]; [by left|right; split; [done|]].
    apply lookup_insert_Some in Hc as [[_ ?]|[_ Hc]]; [done|]. by eapply Hwf.
Qed.

(** C31: [GcContext::with_heap] makes the new context the current one of its
    thread, and dropping it, when it is not the last owner of the heap, restores the
    state before, less the [Arc] that the context has taken over: there is one owner
    less. *)
Theorem context_roundtrip w th fuel :
  idle w → tls w !! th = None → 1 < strong w ≤ usize_max →
  ∃ ctx w', run (GcContext.with_heap th) w = Done ctx w' ∧ idle w' ∧ abs w' = abs w ∧
    tls w' = <[th := ctx]> (tls w) ∧ ctxs w' !! ctx = Some Tracer.new ∧
    run (GcContext.drop fuel th ctx) w' = Done tt (owners w (strong w - 1)).
Proof.
  intros Hidle Hth Hst. set (ctx := malloc (dom (ctxs w))).
  assert (ctxs w !! ctx = None) as Hfresh by (apply not_elem_of_dom, malloc_fresh).
  exists ctx, (entered w th ctx). split; [by apply with_heap_run|].
  split_and!; [by apply entered_idle|done|done|by apply lookup_insert_eq|].
  unfold GcContext.drop, GcContext.reset_current_context. run_next.
  rewrite lookup_insert_eq, bool_decide_eq_true_2, run_bind, arc_drop_shared by done. cbn.
  unfold owners, set_tls, set_ctxs. cbn. rewrite !delete_insert_eq, !delete_id by done.
  by destruct w.
Qed.

(** A second context on a thread panics. *)
Theorem context_twice_panics w th c :
  tls w !! th = Some c →
  run (GcContext.with_heap th) w = Fault (Panic ContextAlreadySet).
Proof.
  intros Hth. unfold GcContext.with_heap. run_next.
  run_next. by rewrite Hth.
Qed.

End lifecycle.
