(* ===== verification/Ownership.v ===== *)
(** * Who owns the heap

    The heap lives in an [Arc]: every [GcContext] owns one and so does the
    background thread.  The destructor runs when the last owner is gone.  A thread
    that has been stopped gives its share up; one that has not keeps the heap
    alive for ever, because the destructor that would stop it never runs
    ([BackgroundLeak]). *)

From stdpp Require Import relations.
From S2P Require Import Prelude Prog Color TraceImpls GcBox Options BgThread World.
From S2P Require Import Graph Tracing State HeapOps Mutator Sweeping Collection.
From S2P Require Import Background Lifecycle.
Open Scope Z_scope.

Section ownership.
Context `{Env} `{!TraceContract}.

(** The state after a context is gone. *)
Definition left_ctx (w : world) (th : nat) (ctx : loc) : world :=
  set_ctxs (set_tls w (if bool_decide (tls w !! th = Some ctx) then delete th (tls w)
                       else tls w)) (delete ctx (ctxs w)).

(** Dropping a context, when it is not the last owner and when it is. *)
Lemma context_drop_shared w th ctx fuel :
  1 < strong w ≤ usize_max →
  run (GcContext.drop fuel th ctx) w = Done tt (owners (left_ctx w th ctx) (strong w - 1)).
Proof.
  intros Hs. unfold GcContext.drop, GcContext.reset_current_context, left_ctx. run_next.
  destruct (bool_decide (tls w !! th = Some ctx)); cbn; by rewrite run_bind, arc_drop_shared.
Qed.

Lemma context_drop_last w l th ctx fuel :
  strong w = 1 → alloc_list w l → (size (mem w) ≤ fuel)%nat →
  (∀ c, StartStop.handle (bg_thread (heap w)) = Some c → c ∉ running w) →
  run (GcContext.drop fuel th ctx) w =
    Done tt (owners (left_ctx (destroyed w l) th ctx) 0).
Proof.
  intros Hs Hl Hf Hr. unfold GcContext.drop, GcContext.reset_current_context, left_ctx.
  run_next. destruct (bool_decide (tls w !! th = Some ctx)) eqn:E; cbn;
    rewrite run_bind, arc_drop_last by done; erewrite drop_run; try done;
    try (destruct Hl; by split); cbn; by rewrite E.
Qed.

(** C32: stopping the background thread and dropping the last context destroys the
    heap: the stopped thread returns and gives up its share, the join returns, and
    the context's destructor drops every object once, in list order. *)
Theorem shutdown_correct w l c th ctx timed_out ts fuel :
  alloc_list w l → (size (mem w) ≤ fuel)%nat → strong w = 2 →
  StartStop.handle (bg_thread (heap w)) = Some c → running w = {[c]} →
  let stopped := set_heap w (set_bg_thread (heap w) (StartStop.mk
    (StartStop.counter (bg_thread (heap w))) None)) in
  run Heap.stop_background_collection w = Blocked ∧
  ∃ w1 w2, run (Heap.bg_main fuel (timed_out :: ts) c) stopped = Done tt w1 ∧
    run (Heap.join c;; GcContext.drop fuel th ctx)%gc w1 = Done tt w2 ∧
    strong w2 = 0 ∧ mem w2 = ∅ ∧ dropped w2 = dropped w ++ l ∧ running w2 = ∅.
Proof.
  intros Hl Hf Hs Hh Hr stopped. split.
  { unfold Heap.stop_background_collection. rewrite run_bind. cbn. unfold StartStop.stop_take.
    rewrite Hh. run_next. by rewrite Hr, bool_decide_eq_true_2 by set_solver. }
  set (w1 := set_running (owners stopped 1) (running w ∖ {[c]})).
  assert (running w1 = ∅) as Hr1 by (cbn; rewrite Hr; set_solver).
  exists w1, (owners (left_ctx (destroyed w1 l) th ctx) 0). split_and!; try done.
  - unfold Heap.bg_main. rewrite run_bind, background_thread_stopped by done.
    rewrite run_bind, arc_drop_shared by (cbn; rewrite Hs; done).
    cbn. by rewrite Hs.
  - run_next. rewrite bool_decide_eq_false_2 by (cbn in Hr1; rewrite Hr1; set_solver).
    apply context_drop_last; [done| |done|done]. destruct Hl. by split.
Qed.

End ownership.
