(* ===== verification/Scripts.v ===== *)
(** * Scripts

    Sequential client programs on a heap at rest: every object of the heap is
    known, in a list from the youngest to the oldest.  Each operation of the
    client has a rule that says how the list changes, so that a program is
    followed by applying one rule per statement. *)

From stdpp Require Import relations.
From S2P Require Import Prelude Prog Color TraceImpls GcBox Options BgThread World.
From S2P Require Import Graph Tracing State HeapOps Mutator Sweeping Collection Client.
From S2P Require Import Background Lifecycle Ownership Console.
Open Scope Z_scope.

Section scripts.
Context `{Env} `{!TraceContract}.

(** ** The known objects *)

Abbreviation known := (list (loc * obj)).

Definition kgraph (k : known) (cs : gmap loc val) : graph := mkGraph (list_to_map k) cs.

Definition ksize (k : known) : Z := foldr (λ ao n, layout_size (ob_ty ao.2) + n) 0 k.

(** The heap of [w] holds exactly the objects [k] and the cells [cs], and no
    collection is going on; the rest of the state is that of [w0]. *)
Record rest (w0 : world) (k : known) (cs : gmap loc val) (w : world) : Prop := {
  rs_idle : idle w;
  rs_abs : abs w = kgraph k cs;
  rs_keys : NoDup k.*1;
  rs_options : options (heap w) = options (heap w0);
  rs_threshold : current_threshold (heap w) = current_threshold (heap w0);
  rs_bg : bg_thread (heap w) = bg_thread (heap w0);
  rs_frame : tls w = tls w0 ∧ ctxs w = ctxs w0 ∧ running w = running w0 ∧
    strong w = strong w0 ∧ dropped w = dropped w0;
}.

Lemma known_lookup k i a o :
  NoDup k.*1 → k !! i = Some (a, o) → (list_to_map k : gmap loc obj) !! a = Some o.
Proof. intros Hn Hi. apply elem_of_list_to_map_1; [done|]. by eapply list_elem_of_lookup_2. Qed.

Lemma known_fresh k a : (list_to_map k : gmap loc obj) !! a = None → a ∉ k.*1.
Proof. apply not_elem_of_list_to_map_2. Qed.

Lemma kgraph_size k cs : NoDup k.*1 → graph_size (kgraph k cs) = ksize k.
Proof.
  unfold graph_size, kgraph. cbn. induction k as [|[a o] k IH]; cbn; intros Hn.
  - by rewrite map_fold_empty.
  - apply NoDup_cons in Hn as [Ha Hn]. rewrite map_fold_insert_L.
    + by rewrite IH.
    + intros; lia.
    + by apply not_elem_of_list_to_map_1.
Qed.

Lemma ksize_cons a o k : ksize ((a, o) :: k) = layout_size (ob_ty o) + ksize k.
Proof. done. Qed.

Lemma ksize_app k k' : ksize (k ++ k') = ksize k + ksize k'.
Proof. induction k as [|ao k IH]; [done|]. unfold ksize in *. cbn. rewrite IH. lia. Qed.

Lemma ksize_nonneg k : 0 ≤ ksize k.
Proof.
  induction k as [|[a o] k IH]; [done|]. unfold ksize in *. cbn.
  pose proof (layout_size_usize (ob_ty o)). unfold is_usize in *. lia.
Qed.

Section rules.
Context {w0 : world} {k : known} {cs : gmap loc val} {w : world} (Hw : rest w0 k cs w).

Lemma rest_lookup i a o : k !! i = Some (a, o) → objs (abs w) !! a = Some o.
Proof. intros Hi. rewrite (rs_abs _ _ _ _ Hw). by eapply known_lookup; [apply Hw|]. Qed.

Lemma rest_total : total_size (mem w) = ksize k.
Proof.
  rewrite total_size_abs by apply (idle_wf _ (rs_idle _ _ _ _ Hw)).
  by rewrite (rs_abs _ _ _ _ Hw), kgraph_size by apply Hw.
Qed.

Lemma rest_bytes : bytes_allocated (heap w) = ksize k.
Proof. rewrite (ww_bytes _ (idle_wf _ (rs_idle _ _ _ _ Hw))). apply rest_total. Qed.

Lemma rest_count_size : size (mem w) = length k.
Proof.
  rewrite <- (map_size_fmap abs_box). change (size (objs (abs w)) = length k).
  rewrite (rs_abs _ _ _ _ Hw). cbn. pose proof (rs_keys _ _ _ _ Hw) as Hn. clear Hw.
  induction k as [|[a o] k' IH]; cbn; [by rewrite map_size_empty|].
  apply NoDup_cons in Hn as [Ha Hn].
  by rewrite map_size_insert_None, IH by by try apply not_elem_of_list_to_map_1.
Qed.

(** ** Rules *)

Lemma rest_allocate fuel t d (Q : loc → world → Prop) :
  (0 < fuel)%nat → has_type d t = true → wf_val (kgraph k cs) d →
  ksize k + layout_size t ≤ usize_max →
  (∀ a w', a ∉ k.*1 → rest w0 ((a, mkObj t 1 d) :: k) cs w' → Q a w') →
  wp (Heap.allocate fuel t d) Q w.
Proof.
  intros Hf Hty Hd Hsz HQ. destruct (allocate_run w fuel t d) as [Ha Hrun]; [apply Hw|done|].
  set (a := malloc (dom (mem w))) in *. apply wp_run. eexists _, _. split; [exact Hrun|].
  assert (a ∉ k.*1) as Hfresh.
  { apply known_fresh. change (objs (kgraph k cs) !! a = None).
    rewrite <- (rs_abs _ _ _ _ Hw). cbn. by rewrite lookup_fmap, Ha. }
  apply HQ; [done|]. split; try apply Hw.
  - apply allocated_idle; [apply Hw|done..| |by rewrite rest_total].
    by rewrite (rs_abs _ _ _ _ Hw).
  - rewrite allocated_abs by done. by rewrite (rs_abs _ _ _ _ Hw).
  - cbn. apply NoDup_cons. split; [done|]. apply Hw.
Qed.

(** A change of one root count. *)
Lemma rest_rerooted i a t n d f g :
  k !! i = Some (a, mkObj t n d) → f n = g n → is_usize (g n) →
  rest w0 (<[i := (a, mkObj t (g n) d)]> k) cs (rerooted w a f).
Proof.
  intros Hi Hfg Hu. pose proof (rest_lookup _ _ _ Hi) as Ho.
  destruct (rerooted_refines w a _ f g (rs_idle _ _ _ _ Hw) Ho Hfg Hu) as [Hidle Habs].
  assert ((<[i:=(a, mkObj t (g n) d)]> k).*1 = k.*1) as Hkeys.
  { rewrite list_fmap_insert. cbn. apply list_insert_id. by rewrite list_lookup_fmap, Hi. }
  split; try apply Hw; [done| |by rewrite Hkeys; apply Hw].
  rewrite Habs, (rs_abs _ _ _ _ Hw). unfold g_roots, kgraph. cbn. f_equal.
  apply map_eq. intros x. pose proof (rs_keys _ _ _ _ Hw) as Hn.
  rewrite lookup_alter. case_decide as Hx.
  - subst x. rewrite (known_lookup k i a _ Hn Hi). symmetry.
    apply (known_lookup _ i); [by rewrite Hkeys|].
    apply list_lookup_insert_eq. by eapply lookup_lt_Some.
  - apply option_eq. intros o. rewrite <- !elem_of_list_to_map by (by rewrite ?Hkeys).
    rewrite !list_elem_of_lookup. split; intros [j Hj]; exists j.
    + rewrite list_lookup_insert_ne; [done|]. intros ->. rewrite Hi in Hj. by simplify_eq.
    + destruct (decide (i = j)) as [->|Hne]; [|by rewrite list_lookup_insert_ne in Hj].
      rewrite list_lookup_insert_eq in Hj by (by eapply lookup_lt_Some). by simplify_eq.
Qed.

Lemma rest_roots i a t n d : k !! i = Some (a, mkObj t n d) → is_usize n.
Proof.
  intros Hi. apply (wf_obj_roots _ (ww_graph _ (idle_wf _ (rs_idle _ _ _ _ Hw))) a (mkObj t n d)).
  by eapply rest_lookup.
Qed.

Lemma rest_root i a t n d (Q : loc → world → Prop) :
  k !! i = Some (a, mkObj t n d) → n < usize_max →
  (∀ w', rest w0 (<[i := (a, mkObj t (n + 1) d)]> k) cs w' → Q a w') →
  wp (GcPtr.root a) Q w ∧ wp (GcRoot.clone a) Q w.
Proof.
  intros Hi Hn HQ. pose proof (rest_roots _ _ _ _ _ Hi) as Hn0.
  assert (wp (GcPtr.root a) Q w); [|done]. unfold GcPtr.root. apply wp_run.
  exists a, (rerooted w a (λ n, usize_fetch_add n 1)).
  rewrite run_bind, inc_root_run by (apply abs_is_Some; eexists; by eapply rest_lookup).
  split; [done|]. apply HQ. assert (is_usize (n + 1)) by (unfold is_usize in *; lia).
  apply (rest_rerooted i a t n d _ (λ n, n + 1)); [done|by apply usize_fetch_add_small|done].
Qed.

Lemma rest_drop i a t n d (Q : unit → world → Prop) :
  k !! i = Some (a, mkObj t n d) → 0 < n →
  (∀ w', rest w0 (<[i := (a, mkObj t (n - 1) d)]> k) cs w' → Q tt w') →
  wp (GcRoot.drop a) Q w.
Proof.
  intros Hi Hn HQ. pose proof (rest_roots _ _ _ _ _ Hi) as Hn0. unfold GcRoot.drop. apply wp_run.
  exists tt, (rerooted w a (λ n, usize_fetch_sub n 1)).
  split; [apply dec_root_run, abs_is_Some; eexists; by eapply rest_lookup|].
  apply HQ. assert (is_usize (n - 1)) by (unfold is_usize in *; lia).
  apply (rest_rerooted i a t n d _ (λ n, n - 1)); [done|by apply usize_fetch_sub_small|done].
Qed.

Lemma rest_deref i a o (Q : val → world → Prop) :
  k !! i = Some (a, o) → Q (ob_data o) w → wp (GcRoot.deref a) Q w.
Proof.
  intros Hi HQ. apply wp_run. eexists _, _. split; [|exact HQ].
  apply deref_run. by eapply rest_lookup.
Qed.

Lemma rest_count fuel (Q : Z → world → Prop) :
  (length k ≤ fuel)%nat → Q (Z.of_nat (length k)) w → wp (Heap.allocation_count fuel) Q w.
Proof.
  intros Hf HQ. destruct (ww_list _ (idle_wf _ (rs_idle _ _ _ _ Hw))) as [l Hl].
  pose proof (alloc_list_length _ _ Hl) as Hlen. rewrite rest_count_size in Hlen.
  unfold Heap.allocation_count. wp_next.
  apply (allocation_count_loop_wp l); [apply Hl|lia|]. by rewrite Hlen.
Qed.

Lemma rest_get_bytes (Q : Z → world → Prop) :
  Q (ksize k) w → wp Heap.get_bytes_allocated Q w.
Proof. intros HQ. cbn. by rewrite rest_bytes. Qed.

(** Below the threshold [collect] does nothing. *)
Lemma rest_collect_below fuel (Q : unit → world → Prop) :
  ksize k ≤ current_threshold (heap w0) → limit_bytes (options (heap w0)) = usize_max →
  Q tt w → wp (Heap.collect fuel) Q w.
Proof.
  intros Hk Hl HQ. unfold Heap.collect. apply wp_run. exists tt, w.
  rewrite run_bind, should_collect_run, bool_decide_eq_false_2; [done|].
  unfold triggered. rewrite rest_bytes, (rs_threshold _ _ _ _ Hw), (rs_options _ _ _ _ Hw).
  rewrite Hl. intros [_ [?|[? _]]]; [lia|done].
Qed.

End rules.

(** A new context on a new heap. *)
Lemma rest_new w0 o th fuel (Q : loc → world → Prop) :
  unborn w0 → GcOptions.wf o →
  (∀ ctx w, rest w [] ∅ w → options (heap w) = o →
     current_threshold (heap w) = min_threshold_bytes o →
     running w = born_running o → strong w = born_strong o → dropped w = dropped w0 →
     (StartStop.is_stopped (bg_thread (heap w)) 1 =
        GcOptions.is_background_collection_off o) →
     tls w = {[th := ctx]} → ctxs w = {[ctx := Tracer.new]} → Q ctx w) →
  wp (GcContext.with_options fuel th o) Q w0.
Proof.
  intros Hu Ho HQ. unfold GcContext.with_options. apply wp_run.
  assert (tls (born w0 o) = ∅ ∧ ctxs (born w0 o) = ∅ ∧ mem (born w0 o) = ∅ ∧
    cells (born w0 o) = ∅) as (Ht & Hx & Hm & Hc).
  { unfold born. destruct (GcOptions.is_background_collection_off o); cbn; apply Hu || split_and!; apply Hu. }
  set (ctx := malloc (dom (ctxs (born w0 o)))).
  exists ctx, (entered (born w0 o) th ctx). split.
  { rewrite run_bind, born_run. apply with_heap_run. by rewrite Ht. }
  assert (idle (born w0 o)) as Hidle by by apply born_idle.
  apply HQ; try (unfold born, born_running, born_strong;
    destruct (GcOptions.is_background_collection_off o); cbn;
    rewrite ?(ub_running _ Hu), ?union_empty_r_L; done).
  - split; try done.
    + apply entered_idle; [done|by rewrite Ht|by rewrite Hx].
    + unfold abs, kgraph. cbn. by rewrite Hm, Hc, fmap_empty.
    + by constructor.
  - cbn. by rewrite Ht.
  - cbn. by rewrite Hx.
Qed.

(** What a context leaves behind whose heap has a background thread: nobody but
    the thread owns the heap, and nothing has been dropped. *)
Record abandoned (n : nat) (w : world) : Prop := {
  ab_strong : strong w = 1;
  ab_running : running w = {[1]};
  ab_stopped : StartStop.is_stopped (bg_thread (heap w)) 1 = false;
  ab_objects : size (mem w) = n;
  ab_dropped : dropped w = [];
}.

Lemma rest_leave w0 k cs w th ctx fuel (Q : unit → world → Prop) :
  rest w0 k cs w → strong w0 = 2 → running w0 = {[1]} → dropped w0 = [] →
  StartStop.is_stopped (bg_thread (heap w0)) 1 = false →
  (∀ w', abandoned (length k) w' → Q tt w') →
  wp (GcContext.drop fuel th ctx) Q w.
Proof.
  intros Hw Hs Hr Hd Hst HQ. destruct (rs_frame _ _ _ _ Hw) as (_ & _ & Hr' & Hs' & Hd').
  apply wp_run. eexists _, _. split; [apply context_drop_shared; rewrite Hs', Hs; done|].
  apply HQ. split; cbn.
  - by rewrite Hs', Hs.
  - by rewrite Hr'.
  - by rewrite (rs_bg _ _ _ _ Hw).
  - by apply (rest_count_size Hw).
  - by rewrite Hd'.
Qed.

(** An idle heap is at rest. *)
Lemma rest_idle w k cs :
  idle w → abs w = kgraph k cs → NoDup k.*1 → rest w k cs w.
Proof. intros. by split. Qed.

(** A value without pointers. *)
Lemma plain_wf_val G v : owned v = [] → wf_val G v.
Proof.
  intros Hv. split; [intros t a Hp|intros c Hc; rewrite Hv in Hc; by apply elem_of_nil in Hc].
  exfalso. destruct Hp as [Hin|c v' Hin _ _]; rewrite Hv in Hin; by apply elem_of_nil in Hin.
Qed.

(** A value with one pointer, to a known object. *)
Lemma pointer_wf_val k cs v t a i o :
  owned v = [RMark t a] → NoDup k.*1 → k !! i = Some (a, o) → ob_ty o = t →
  wf_val (kgraph k cs) v.
Proof.
  intros Hv Hk Hi Ht. split; [intros t' a' Hp|intros c Hc]; rewrite ?Hv in *.
  - destruct Hp as [Hin|c v' Hin _ _]; rewrite Hv in Hin;
      apply list_elem_of_singleton in Hin; [|done]. simplify_eq.
    exists o. split; [by eapply known_lookup|done].
  - by apply list_elem_of_singleton in Hc.
Qed.

Lemma DEFAULT_wf : GcOptions.wf GcOptions.DEFAULT.
Proof. unfold GcOptions.wf, is_usize. split_and!; vm_compute; discriminate. Qed.

(** ** Programs that print *)

(** A program with a context of its own on a new heap with the default options. *)
Lemma wpio_new w0 fuel th log (k : loc → io unit) Q :
  unborn w0 → dropped w0 = [] →
  (∀ ctx w, rest w [] ∅ w → limit_bytes (options (heap w)) = usize_max →
     current_threshold (heap w) = 1048576 →
     (∀ k' cs' w' log' (Q' : list line → unit → world → Prop), rest w k' cs' w' →
        (∀ w2, abandoned (length k') w2 → Q' log' tt w2) →
        wpio log' (GcContext.drop fuel th ctx;; done tt)%io Q' w') →
     wpio log (k ctx) Q w) →
  wpio log (then_io (lift (GcContext.new fuel th)) k) Q w0.
Proof.
  intros Hu Hd HQ. apply wpio_lift, rest_new; [done|apply DEFAULT_wf|].
  intros ctx w Hw Ho Ht Hr Hs Hd' Hst _ _. apply HQ; [done|by rewrite Ho|by rewrite Ht|].
  intros k' cs' w' log' Q' Hw' HQ'. apply wpio_lift.
  apply (rest_leave _ _ _ _ _ _ _ _ Hw'); [done|done|by rewrite Hd'|done|exact HQ'].
Qed.

End scripts.

(** ** The steps of a script *)

Ltac known_size := cbn [ksize foldr ob_ty snd app]; unfold is_usize in *; lia.

(** The next statement, on the heap described by [Hw]. *)
Ltac io_alloc Hw a w Ha :=
  apply wpio_lift; apply (rest_allocate Hw);
  [lia|reflexivity|by apply plain_wf_val|known_size|];
  clear Hw; intros a w Ha Hw.
(** An allocation of a value that points to the [i]th known object. *)
Ltac io_alloc_ptr Hw i a w Ha :=
  apply wpio_lift; apply (rest_allocate Hw);
  [lia|reflexivity|eapply (pointer_wf_val _ _ _ _ _ i);
     [reflexivity|apply (rs_keys _ _ _ _ Hw)|reflexivity|reflexivity]|known_size|];
  clear Hw; intros a w Ha Hw.
Ltac io_deref Hw i :=
  apply wpio_lift; eapply (rest_deref Hw i); [reflexivity|]; cbn [ob_data].
Ltac io_drop Hw i w :=
  apply wpio_lift; eapply (rest_drop Hw i); [reflexivity|done|];
  clear Hw; intros w Hw; cbn [insert list_insert] in Hw.
Ltac io_count Hw :=
  apply wpio_lift; apply (rest_count Hw); [cbn; lia|]; cbn [length Z.of_nat].
Ltac io_bytes Hw := apply wpio_lift; apply (rest_get_bytes Hw).
Ltac io_collect Hw Hthr :=
  apply wpio_lift; apply (rest_collect_below Hw); [rewrite Hthr; known_size|done|].
Ltac io_print := apply wpio_println; cbn [app].
