(* ===== verification/ScriptRules.v ===== *)
(** * Collections and cells in scripts

    The rules of [Scripts] for forced collections and for cells. *)

From stdpp Require Import relations.
From S2P Require Import Prelude Prog Color TraceImpls GcBox Options BgThread World.
From S2P Require Import Graph Tracing State HeapOps Mutator Marking Sweeping Collection Client.
From S2P Require Import Background Lifecycle Ownership Console Scripts.
Open Scope Z_scope.

Section rules.
Context `{Env} `{!TraceContract}.

Abbreviation known := (list (loc * obj)).

(** ** Collections *)

(** The objects of which [keep] holds. *)
Abbreviation kept_of keep k := (List.filter keep k).

Lemma kept_elem (keep : loc * obj → bool) (k : known) ao :
  ao ∈ kept_of keep k ↔ ao ∈ k ∧ keep ao = true.
Proof. by rewrite !list_elem_of_In, filter_In. Qed.

Lemma kept_keys (keep : loc * obj → bool) (k : known) : NoDup k.*1 → NoDup (kept_of keep k).*1.
Proof.
  induction k as [|[a o] k IH]; cbn; intros Hn; [done|]. apply NoDup_cons in Hn as [Ha Hn].
  destruct (keep (a, o)); [|by apply IH]. cbn. apply NoDup_cons. split; [|by apply IH].
  intros (ao & Hao & Hin)%list_elem_of_fmap. apply kept_elem in Hin as [Hin _]. apply Ha.
  apply list_elem_of_fmap. by exists ao.
Qed.

Lemma NoDup_keys_eq (k : known) a o o' : NoDup k.*1 → (a, o) ∈ k → (a, o') ∈ k → o = o'.
Proof.
  intros Hk H1 H2. apply (elem_of_list_to_map k a o Hk) in H1.
  apply (elem_of_list_to_map k a o' Hk) in H2. congruence.
Qed.

(** What a collection changes in the rest of the state. *)
Record collected_rest (k : known) (keep : loc * obj → bool) (w0 w : world) : Prop := {
  cr_options : options (heap w) = options (heap w0);
  cr_threshold : GcOptions.calculate_threshold (options (heap w0)) (current_threshold (heap w0))
    (ksize (kept_of keep k)) = Some (current_threshold (heap w));
  cr_bg : bg_thread (heap w) = bg_thread (heap w0);
  cr_frame : tls w = tls w0 ∧ ctxs w = ctxs w0 ∧ running w = running w0 ∧ strong w = strong w0;
  cr_dropped : ∃ d, dropped w = dropped w0 ++ d ∧ NoDup d ∧
    ∀ a, a ∈ d ↔ ∃ o, (a, o) ∈ k ∧ keep (a, o) = false;
}.

(** Moderate percentages cannot make the pacing overflow on a small heap. *)
Lemma pacing_small w :
  GcOptions.wf (options (heap w)) → threshold_percent (options (heap w)) ≤ 100 →
  threshold_shrink_percent (options (heap w)) ≤ 100 → bytes_allocated (heap w) ≤ 1048576 →
  0 ≤ current_threshold (heap w) ≤ 1048576 → pacing_ok w.
Proof.
  intros Ho Hp Hs Hb Ht live Hl. assert (1048576 * 1000 ≤ usize_max) by (vm_compute; discriminate).
  rewrite Pacing.calculate_threshold_eq; [by eexists|done|unfold is_usize; lia|unfold is_usize; lia|].
  pose proof Ho as (_ & _ & _ & Hp0 & Hs0 & _). unfold is_usize in Hp0, Hs0. unfold Pacing.fits.
  assert (live * threshold_percent (options (heap w)) ≤ 1048576 * 100) by nia.
  assert (live * threshold_percent (options (heap w)) / 100 ≤ 1048576) by (apply Z.div_le_upper_bound; lia).
  assert (current_threshold (heap w) * threshold_shrink_percent (options (heap w)) ≤ 1048576 * 100) by nia.
  lia.
Qed.

(** So the default options cannot. *)
Lemma pacing_DEFAULT w :
  options (heap w) = GcOptions.DEFAULT → bytes_allocated (heap w) ≤ 1048576 →
  0 ≤ current_threshold (heap w) ≤ 1048576 → pacing_ok w.
Proof. intros Ho. apply pacing_small; rewrite Ho; [apply DEFAULT_wf|by vm_compute..]. Qed.

Section collect.
Context {w0 : world} {k : known} {cs : gmap loc val} {w : world} (Hw : rest w0 k cs w).

(** The heap after a collection that keeps the objects of which [keep] holds. *)
Lemma rest_collected (keep : loc * obj → bool) w' :
  (∀ ao, ao ∈ k → keep ao = true ↔ reachable (kgraph k cs) ao.1) → collection_done w w' →
  rest w' (kept_of keep k) cs w' ∧ collected_rest k keep w0 w'.
Proof.
  intros Hkeep Hd. pose proof (rs_keys _ _ _ _ Hw) as Hk.
  destruct Hd as [Hidle [Hcells Hobjs] (d & Hdr & Hnd & Hd) Ho Hth _ (_ & F1 & F2 & F3 & F4) Hbg].
  rewrite (rs_abs _ _ _ _ Hw) in Hcells, Hobjs.
  assert (abs w' = kgraph (kept_of keep k) cs) as Habs.
  { destruct (abs w') as [objs' cells'] eqn:E. unfold kgraph. cbn in *. f_equal; [|done].
    apply map_eq. intros a. apply option_eq. intros o. rewrite Hobjs.
    rewrite <- !elem_of_list_to_map, kept_elem by (try done; by apply kept_keys).
    split; intros [Hin Hr]; (split; [done|]); by apply (Hkeep (a, o)). }
  assert (rest w' (kept_of keep k) cs w') as Hw' by (apply rest_idle; [done|done|by apply kept_keys]).
  split; [done|]. destruct (rs_frame _ _ _ _ Hw) as (G1 & G2 & G3 & G4 & G5). split.
  - by rewrite Ho, (rs_options _ _ _ _ Hw).
  - by rewrite <- (rest_total Hw'), <- (rs_options _ _ _ _ Hw), <- (rs_threshold _ _ _ _ Hw).
  - by rewrite Hbg, (rs_bg _ _ _ _ Hw).
  - by rewrite F1, F2, F3, F4.
  - exists d. split; [by rewrite Hdr, G5|]. split; [done|]. intros a. rewrite Hd.
    rewrite <- abs_is_Some, (rs_abs _ _ _ _ Hw). split.
    + intros [[o Ho'] Hr]. exists o. cbn in Ho'. apply elem_of_list_to_map in Ho'; [|done].
      split; [done|]. rewrite <- (Hkeep (a, o) Ho') in Hr. by destruct (keep (a, o)).
    + intros (o & Hin & Hn). split.
      * exists o. cbn. by apply elem_of_list_to_map.
      * intros Hr. apply (Hkeep (a, o) Hin) in Hr. congruence.
Qed.

Lemma rest_fuel fuel : (2 * length k + 2 ≤ fuel)%nat → (enough_fuel w ≤ fuel)%nat.
Proof. unfold enough_fuel. rewrite (rest_count_size Hw). lia. Qed.

Lemma rest_force_collect (keep : loc * obj → bool) fuel (Q : Z → world → Prop) :
  (∀ ao, ao ∈ k → keep ao = true ↔ reachable (kgraph k cs) ao.1) →
  0 < incremental_work_budget (options (heap w0)) → pacing_ok w →
  (2 * length k + 2 ≤ fuel)%nat →
  (∀ w', rest w' (kept_of keep k) cs w' → collected_rest k keep w0 w' →
     Q (ksize (kept_of keep k)) w') →
  wp (Heap.force_collect fuel) Q w.
Proof.
  intros Hkeep Hb Hp Hf HQ.
  destruct (force_collect_run w fuel) as (w' & Hrun & Hd);
    [apply Hw|by rewrite (rs_options _ _ _ _ Hw)|done|by apply rest_fuel|].
  destruct (rest_collected keep w' Hkeep Hd) as [Hw' Hrest].
  apply wp_run. exists (total_size (mem w')), w'. split; [done|]. rewrite (rest_total Hw').
  by apply HQ.
Qed.

(** Without pointers exactly the rooted objects are reachable. *)
Definition has_root (ao : loc * obj) : bool := 0 <? ob_roots ao.2.

Lemma plain_reachable ao :
  (∀ ao, ao ∈ k → owned (ob_data ao.2) = []) → ao ∈ k →
  has_root ao = true ↔ reachable (kgraph k cs) ao.1.
Proof.
  intros Hplain Hin. pose proof (rs_keys _ _ _ _ Hw) as Hk.
  assert (∀ a o, objs (kgraph k cs) !! a = Some o ↔ (a, o) ∈ k) as Hlook
    by (intros; cbn; by rewrite <- elem_of_list_to_map).
  unfold has_root. rewrite Z.ltb_lt. destruct ao as [a o]. cbn. split.
  - intros Hr. apply reachable_rooted. exists o. split; [by apply Hlook|done].
  - intros Ha. assert (rooted (kgraph k cs) a) as (o' & Ho' & Hr).
    { revert a Ha Hin. refine (reachable_ind_closed _ (λ a, (a, o) ∈ k → rooted _ a) _ _); [done|].
      intros a b _ (oa & t & Hoa & Hp) _. exfalso. apply Hlook in Hoa.
      destruct Hp as [Hin|c v Hin _ _]; specialize (Hplain _ Hoa); cbn in Hplain;
        rewrite Hplain in Hin; by apply elem_of_nil in Hin. }
    apply Hlook in Ho'. assert (o' = o) as ->; [|done].
    eapply NoDup_keys_eq; [exact Hk|exact Ho'|exact Hin].
Qed.

End collect.
(** ** Cells *)

Section cells.
Context {w0 : world} {k : known} {cs : gmap loc val} {w : world} (Hw : rest w0 k cs w).

Lemma rest_cells c : cells w !! c = cs !! c.
Proof. change (gcells (abs w) !! c = cs !! c). by rewrite (rs_abs _ _ _ _ Hw). Qed.

Lemma rest_celled c v : idle (celled w c v) → rest w0 k (<[c := v]> cs) (celled w c v).
Proof.
  intros Hidle. split; try apply Hw; [done|].
  change (abs (celled w c v)) with (g_set (abs w) c v). by rewrite (rs_abs _ _ _ _ Hw).
Qed.

Lemma rest_cell_new v t (Q : loc → world → Prop) :
  is_copy t = true → has_type v t = true →
  (∀ c w', cs !! c = None → rest w0 k (<[c := v]> cs) w' → Q c w') → wp (GcCell.new v) Q w.
Proof.
  intros Hc Hv HQ. destruct (cell_new_refines w v t (rs_idle _ _ _ _ Hw) Hc Hv) as (Hn & Hrun & Hi).
  apply wp_run. eexists _, _. split; [exact Hrun|]. apply HQ; [by rewrite <- rest_cells|].
  by apply rest_celled.
Qed.

Lemma rest_cell_get c v (Q : val → world → Prop) :
  cs !! c = Some v → Q v w → wp (GcCell.get c) Q w.
Proof. intros Hc HQ. cbn. by rewrite rest_cells, Hc. Qed.

Lemma rest_cell_set th c v t (Q : unit → world → Prop) :
  is_Some (cs !! c) → is_copy t = true → has_type v t = true → wf_val (kgraph k cs) v →
  (∀ w', rest w0 k (<[c := v]> cs) w' → Q tt w') → wp (GcCell.set th c v) Q w.
Proof.
  intros Hc Hct Hty Hv HQ. apply wp_run. exists tt, (celled w c v). split.
  - apply cell_set_run; [apply Hw|by rewrite rest_cells].
  - apply HQ, rest_celled. apply (cell_set_refines w c v t); [apply Hw|done|done|].
    by rewrite (rs_abs _ _ _ _ Hw).
Qed.

End cells.
End rules.
