(* ===== verification/Clients.v ===== *)
(** * Client types

    The types that the example programs of the crate store in the heap, with their
    [Trace] implementations.  [clients] is the environment that they form, for any
    layout, allocator and build profile; the implementations satisfy the contract
    of the trait. *)

From S2P Require Import Prelude TraceImpls.
Open Scope Z_scope.

(** The [Node] of [trace_demo.rs], the [Node] of [multi_threaded.rs], the
    [DropCounter] of [vtable_drop_test.rs] and the [Node] of [gc_functional.rs]. *)
Definition list_node : nat := 0.
Definition cell_node : nat := 1.
Definition drop_counter : nat := 2.
Definition chain_node : nat := 3.

(** [Option<GcPtr<Node>>] *)
Definition next_ty (u : nat) : ty := TOption (TGcPtr (TUser u)).

Definition next_val (u : nat) (next : option loc) : val :=
  match next with
  | Some a => VSome (VGcPtr (TUser u) a)
  | None => VNone
  end.

Definition next_of (v : val) : option loc :=
  match v with VSome (VGcPtr _ a) => Some a | _ => None end.

(** [struct Node { value: i32, next: Option<GcPtr<Node>> }] *)
Definition ListNode (value : Z) (next : option loc) : val :=
  VUser list_node [VPrim I32 value; next_val list_node next].

(** [struct Node { id: usize, value: i32, next: GcCell<Option<GcPtr<Node>>> }] *)
Definition CellNode (id value : Z) (next : loc) : val :=
  VUser cell_node [VPrim Usize id; VPrim I32 value; VGcCell next].

(** [struct DropCounter { id: usize }] *)
Definition DropCounter (id : Z) : val := VUser drop_counter [VPrim Usize id].

(** [struct Node { value: usize, next: Option<GcPtr<Node>> }] *)
Definition ChainNode (value : Z) (next : option loc) : val :=
  VUser chain_node [VPrim Usize value; next_val chain_node next].

Definition client_fields (u : nat) : list ty :=
  match u with
  | 0%nat => [TPrim I32; next_ty list_node]
  | 1%nat => [TPrim Usize; TPrim I32; TGcCell (next_ty cell_node)]
  | 2%nat => [TPrim Usize]
  | 3%nat => [TPrim Usize; next_ty chain_node]
  | _ => []
  end.

(** The bodies of [trace]: mark the next node; trace the cell; nothing; mark the next
    node. *)
Definition ListNode_trace (fields : list val) : list treq :=
  match fields with
  | [_; VSome (VGcPtr t a)] => [RMark t a]
  | _ => []
  end.

Definition CellNode_trace (fields : list val) : list treq :=
  match fields with
  | [_; _; VGcCell c] => [RCell c]
  | _ => []
  end.

Definition DropCounter_trace (fields : list val) : list treq := [].

Definition ChainNode_trace (fields : list val) : list treq :=
  match fields with
  | [_; VSome (VGcPtr t a)] => [RMark t a]
  | _ => []
  end.

Definition client_trace (u : nat) : list val → list treq :=
  match u with
  | 0%nat => ListNode_trace
  | 1%nat => CellNode_trace
  | 3%nat => ChainNode_trace
  | _ => DropCounter_trace
  end.

Section clients.
Variables (layout : ty → Z) (mall : gset loc → loc) (checks : bool).

(** [NO_TRACE] keeps its default in every client type. *)
Definition clients : Env := {|
  user_fields := client_fields;
  user_copy _ := false;
  user_NO_TRACE _ := false;
  user_trace := client_trace;
  layout_size := layout;
  malloc := mall;
  overflow_checks := checks;
|}.

#[local] Existing Instance clients.

Hypothesis layout_usize : ∀ t, is_usize (layout t).
Hypothesis mall_fresh : ∀ used, mall used ∉ used.

(** The value [v] has the type [t] and therefore its shape. *)
Ltac shape v :=
  destruct v; try discriminate; cbn [has_types has_type] in *;
  repeat match goal with
  | H : _ && _ = true |- _ => apply andb_true_iff in H as [? ?]
  end.

(** The two types of list nodes. *)
Lemma next_trace_owned p u fields :
  has_types fields [TPrim p; next_ty u] = true → ListNode_trace fields = flat_map owned fields.
Proof.
  intros Hf. destruct fields as [|v1 [|v2 [|v3 fields]]]; cbn in Hf; try done;
    rewrite ?andb_false_r in Hf; try done.
  shape v1. shape v2; [shape v2|]; done.
Qed.

Lemma client_trace_owned u fields :
  has_types fields (client_fields u) = true → client_trace u fields = flat_map owned fields.
Proof.
  intros Hf. destruct u as [|[|[|[|u]]]]; cbn [client_fields] in Hf.
  - by eapply next_trace_owned.
  - destruct fields as [|v1 [|v2 [|v3 [|v4 fields]]]]; cbn in Hf; try done;
      rewrite ?andb_false_r in Hf; try done.
    shape v1. shape v2. shape v3. done.
  - destruct fields as [|v1 [|v2 fields]]; cbn in Hf; try done;
      rewrite ?andb_false_r in Hf; try done.
    shape v1. done.
  - by eapply next_trace_owned.
  - by destruct fields.
Qed.

#[local] Instance clients_contract : TraceContract.
Proof.
  split; try done.
  - intros u fields r Hf. cbn in *. by rewrite (client_trace_owned u fields Hf).
  - intros u fields r Hf. cbn in *. by rewrite (client_trace_owned u fields Hf).
Qed.

(** C34: the [Trace] implementations of the example programs satisfy the contract
    of the trait: on every well-typed value they mark exactly the pointers and trace
    exactly the cells among the fields. *)
Theorem client_traces_correct u fields :
  has_types fields (user_fields u) = true →
  (∀ r, r ∈ trace (VUser u fields) ↔ r ∈ owned (VUser u fields)) ∧ TraceContract.
Proof.
  intros Hf. split; [|apply clients_contract]. intros r.
  apply (trace_owned _ (TUser u)). cbn. by rewrite bool_decide_eq_true_2.
Qed.

End clients.
