(* ===== verification/Demo.v ===== *)
(** * The basic demo ([src/examples/demo.rs])

    Three programs, each with a heap of its own: what they print, and what they
    leave behind.  With the default options a collection is due above one
    mebibyte, so the calls of [collect] in the demo collect nothing. *)

From S2P Require Import Prelude Prog Color TraceImpls GcBox Options BgThread World.
From S2P Require Import Graph Tracing State HeapOps Mutator Collection Client.
From S2P Require Import Background Lifecycle Console Ownership Scripts.
Open Scope Z_scope.

(** ** Values *)

Definition i32 (n : Z) : val := VPrim I32 n.
Definition str (s : string) : val := VPrim Str (Zpos (encode s)).
Definition vec (vs : list val) : val := VIter Vec vs.

Section demo.
Context `{Env}.

(** The destructor of a [Vec] of roots. *)
Fixpoint drop_roots (rs : list loc) : gc unit :=
  match rs with
  | [] => Ret tt
  | r :: rs => (GcRoot.drop r;; drop_roots rs)%gc
  end.

(** ** The programs *)

Open Scope io_scope.

Definition basic_allocation (fuel th : nat) : io unit :=
  ctx ← GcContext.new fuel th;
  number ← GcContext.allocate fuel (TPrim I32) (i32 42);
  text ← GcContext.allocate fuel (TPrim Str) (str "Hello, World!");
  vector ← GcContext.allocate fuel (TIter Vec (TPrim I32)) (vec (map i32 [1; 2; 3; 4; 5]));
  v ← GcRoot.deref number;
  ! println "  Number: {}" [Shown v];
  v ← GcRoot.deref text;
  ! println "  Text: {}" [Shown v];
  v ← GcRoot.deref vector;
  ! println "  Vector: {:?}" [Shown v];
  count ← Heap.allocation_count fuel;
  ! println "  Allocations: {}" [Num count];
  GcRoot.drop vector;;
  GcRoot.drop text;;
  GcRoot.drop number;;
  GcContext.drop fuel th ctx;;
  done tt.

Definition manual_collection (fuel th : nat) : io unit :=
  ctx ← GcContext.new fuel th;
  ! println "  Allocating 5 objects..." [];
  ptr1 ← GcContext.allocate fuel (TPrim I32) (i32 1);
  ptr2 ← GcContext.allocate fuel (TPrim I32) (i32 2);
  ptr3 ← GcContext.allocate fuel (TPrim I32) (i32 3);
  ptr4 ← GcContext.allocate fuel (TPrim I32) (i32 4);
  ptr5 ← GcContext.allocate fuel (TPrim I32) (i32 5);
  count ← Heap.allocation_count fuel;
  bytes ← Heap.get_bytes_allocated;
  ! println "  Before collection: {} allocations, {} bytes" [Num count; Num bytes];
  GcRoot.drop ptr2;;
  GcRoot.drop ptr3;;
  GcRoot.drop ptr4;;
  GcRoot.drop ptr5;;
  count ← Heap.allocation_count fuel;
  ! println "  After drops (before GC): {} allocations" [Num count];
  Heap.collect fuel;;
  count ← Heap.allocation_count fuel;
  bytes ← Heap.get_bytes_allocated;
  ! println "  After collection: {} allocations, {} bytes" [Num count; Num bytes];
  v ← GcRoot.deref ptr1;
  ! println "  ptr1 still alive: {}" [Shown v];
  GcRoot.drop ptr1;;
  GcContext.drop fuel th ctx;;
  done tt.

(** The loop of [memory_pressure]; [live_objects] grows at its end. *)
Fixpoint pressure_loop (fuel : nat) (range : list Z) (live_objects : list loc)
    : gc (list loc) :=
  match range with
  | [] => Ret live_objects
  | i :: range =>
      (ptr ← GcContext.allocate fuel (TIter Vec (TPrim I32)) (vec (replicate 100 (i32 i)));
       if i mod 100 =? 0 then pressure_loop fuel range (live_objects ++ [ptr])
       else GcRoot.drop ptr;; pressure_loop fuel range live_objects)%gc
  end.

Definition memory_pressure (fuel th : nat) : io unit :=
  ctx ← GcContext.new fuel th;
  ! println "  Allocating many objects..." [];
  live_objects ← pressure_loop fuel (seqZ 0 1000) [];
  count ← Heap.allocation_count fuel;
  bytes ← Heap.get_bytes_allocated;
  ! println "  Before collection: {} allocations, {} bytes" [Num count; Num bytes];
  Heap.collect fuel;;
  count ← Heap.allocation_count fuel;
  bytes ← Heap.get_bytes_allocated;
  ! println "  After collection: {} allocations, {} bytes" [Num count; Num bytes];
  ! println "  Live objects kept: {}" [Num (Z.of_nat (length live_objects))];
  drop_roots live_objects;;
  GcContext.drop fuel th ctx;;
  done tt.

(** A program of [main]: its context creates a heap of its own, in the state [w0] of
    the process, and the heap of [main] is not touched. *)
Definition on_own_heap (w0 : world) (p : io unit) : io unit :=
  λ log, action (λ w,
    match run (main p) w0 with
    | Done (out, a) _ => Done ((log ++ out)%list, a) w
    | Blocked => Blocked
    | Fault e => Fault e
    | NoFuel => NoFuel
    end).

(** The whole [main] of the example. *)
Definition demo_main (w0 : world) (fuel th : nat) : io unit :=
  ! println "=== Abfall Garbage Collector Demo ===\n" [];
  ! println "Example 1: Basic Allocation" [];
  ! on_own_heap w0 (basic_allocation fuel th);
  ! println "" [];
  ! println "Example 2: Manual Collection" [];
  ! on_own_heap w0 (manual_collection fuel th);
  ! println "" [];
  ! println "Example 3: Memory Pressure and Collection" [];
  ! on_own_heap w0 (memory_pressure fuel th);
  ! println "" [];
  done tt.

End demo.

Section correct.
Context `{Env} `{!TraceContract}.

(** ** What they print *)

Definition basic_output : list line :=
  [("  Number: {}", [Shown (i32 42)]);
   ("  Text: {}", [Shown (str "Hello, World!")]);
   ("  Vector: {:?}", [Shown (vec (map i32 [1; 2; 3; 4; 5]))]);
   ("  Allocations: {}", [Num 3])].

Definition plain_sizes : Z :=
  layout_size (TPrim I32) + layout_size (TPrim Str) + layout_size (TIter Vec (TPrim I32)).

Lemma basic_allocation_wp w0 fuel th :
  unborn w0 → dropped w0 = [] → (3 ≤ fuel)%nat → plain_sizes ≤ usize_max →
  wpio [] (basic_allocation fuel th)
    (λ log _ w, log = basic_output ∧ abandoned 3 w) w0.
Proof.
  intros Hu Hd Hf Hsz. unfold plain_sizes in Hsz.
  pose proof (layout_size_usize (TPrim I32)). pose proof (layout_size_usize (TPrim Str)).
  pose proof (layout_size_usize (TIter Vec (TPrim I32))).
  apply wpio_new; [done..|]. intros ctx w Hw _ _ Hend.
  io_alloc Hw number w1 Hn. io_alloc Hw text w2 Htx. io_alloc Hw vector w3 Hv.
  io_deref Hw 2%nat. io_print. io_deref Hw 1%nat. io_print. io_deref Hw 0%nat. io_print.
  io_count Hw. io_print.
  io_drop Hw 0%nat w4. io_drop Hw 1%nat w5. io_drop Hw 2%nat w6.
  eapply Hend; [exact Hw|]. by split.
Qed.

Definition manual_output (sz : Z) : list line :=
  [("  Allocating 5 objects...", []);
   ("  Before collection: {} allocations, {} bytes", [Num 5; Num (5 * sz)]);
   ("  After drops (before GC): {} allocations", [Num 5]);
   ("  After collection: {} allocations, {} bytes", [Num 5; Num (5 * sz)]);
   ("  ptr1 still alive: {}", [Shown (i32 1)])].

Lemma manual_collection_wp w0 fuel th :
  unborn w0 → dropped w0 = [] → (5 ≤ fuel)%nat → 5 * layout_size (TPrim I32) ≤ 1048576 →
  wpio [] (manual_collection fuel th)
    (λ log _ w, log = manual_output (layout_size (TPrim I32)) ∧ abandoned 5 w) w0.
Proof.
  intros Hu Hd Hf Hsz. pose proof (layout_size_usize (TPrim I32)).
  assert (1048576 ≤ usize_max) by done.
  apply wpio_new; [done..|]. intros ctx w Hw Hlim Hthr Hend. io_print.
  io_alloc Hw ptr1 w1 Hp1. io_alloc Hw ptr2 w2 Hp2. io_alloc Hw ptr3 w3 Hp3.
  io_alloc Hw ptr4 w4 Hp4. io_alloc Hw ptr5 w5 Hp5.
  io_count Hw. io_bytes Hw. io_print.
  io_drop Hw 3%nat w6. io_drop Hw 2%nat w7. io_drop Hw 1%nat w8. io_drop Hw 0%nat w9.
  io_count Hw. io_print.
  io_collect Hw Hthr.
  io_count Hw. io_bytes Hw. io_print. io_deref Hw 4%nat. io_print.
  io_drop Hw 4%nat w10. eapply Hend; [exact Hw|]. intros w11 Hab. split; [|done].
  unfold manual_output. repeat f_equal; known_size.
Qed.

(** The loop: every hundredth object stays rooted. *)
Definition kept (range : list Z) : list Z := filter (λ i, i mod 100 = 0) range.

Lemma kept_cons i range :
  kept (i :: range) = if i mod 100 =? 0 then i :: kept range else kept range.
Proof.
  unfold kept. destruct (Z.eqb_spec (i mod 100) 0).
  - by rewrite filter_cons_True.
  - by rewrite filter_cons_False.
Qed.

Definition vec_ty : ty := TIter Vec (TPrim I32).

(** Distinct objects with one root each. *)
Definition single_roots (k : list (loc * obj)) (rs : list loc) : Prop :=
  NoDup rs ∧ ∀ a, a ∈ rs → ∃ i t d, k !! i = Some (a, mkObj t 1 d).

Lemma single_roots_cons k rs ao : single_roots k rs → single_roots (ao :: k) rs.
Proof. intros [Hn Hr]. split; [done|]. intros a (i & t & d & Hi)%Hr. by exists (S i), t, d. Qed.

Lemma single_roots_alloc k rs a t d :
  a ∉ k.*1 → single_roots k rs → single_roots ((a, mkObj t 1 d) :: k) (rs ++ [a]).
Proof.
  intros Ha [Hn Hr]. split.
  - apply NoDup_app. split; [done|]. split; [|by apply NoDup_singleton].
    intros x Hx Hxa. apply list_elem_of_singleton in Hxa as ->.
    apply Hr in Hx as (i & t' & d' & Hi). apply Ha.
    apply list_elem_of_lookup. exists i. by rewrite list_lookup_fmap, Hi.
  - intros x [Hx|Hx]%elem_of_app.
    + by apply (single_roots_cons k rs).
    + apply list_elem_of_singleton in Hx as ->. by exists 0%nat, t, d.
Qed.

(** Changing an object that is not among them. *)
Lemma single_roots_insert k rs i a o o' :
  NoDup k.*1 → k !! i = Some (a, o) → a ∉ rs →
  single_roots k rs → single_roots (<[i := (a, o')]> k) rs.
Proof.
  intros Hk Hi Ha [Hn Hr]. split; [done|]. intros x Hx.
  destruct (Hr x Hx) as (j & t & d & Hj). exists j, t, d.
  rewrite list_lookup_insert_ne; [done|]. intros ->. rewrite Hi in Hj. by simplify_eq.
Qed.

Lemma pressure_loop_wp fuel range live w0 k cs w (Q : list loc → world → Prop) :
  rest w0 k cs w → (0 < fuel)%nat →
  ksize k + Z.of_nat (length range) * layout_size vec_ty ≤ usize_max →
  single_roots k live →
  (∀ live' k' w', rest w0 k' cs w' → single_roots k' live' →
     length k' = (length k + length range)%nat →
     ksize k' = ksize k + Z.of_nat (length range) * layout_size vec_ty →
     length live' = (length live + length (kept range))%nat → Q live' w') →
  wp (pressure_loop fuel range live) Q w.
Proof.
  intros Hw Hf. revert live k w Hw.
  induction range as [|i range IH]; intros live k w Hw Hsz Hl HQ; cbn [pressure_loop].
  { cbn. by eapply HQ; cbn; [exact Hw|done|lia..]. }
  cbn [length] in Hsz. fold vec_ty. pose proof (layout_size_usize vec_ty) as Hlay. unfold is_usize in Hlay.
  rewrite wp_bind. apply (rest_allocate Hw); [done| | |fold vec_ty; lia|].
  { reflexivity. }
  { by apply plain_wf_val. }
  intros a w1 Ha Hw1. pose proof (single_roots_alloc _ _ _ vec_ty (vec (replicate 100 (i32 i))) Ha Hl) as Hl1.
  rewrite kept_cons in HQ. destruct (i mod 100 =? 0).
  - eapply (IH _ _ _ Hw1); [rewrite ksize_cons; cbn [ob_ty]; lia|done|].
    intros live' k' w' Hw' Hl' Hlen Hks Hlive. apply (HQ live' k' w'); [done|done| | |].
    + rewrite Hlen. cbn. lia.
    + rewrite Hks, ksize_cons. cbn [ob_ty length]. lia.
    + rewrite Hlive, length_app. cbn. lia.
  - rewrite wp_bind.
    apply (rest_drop Hw1 0 a vec_ty 1 (vec (replicate 100 (i32 i)))); [reflexivity|done|].
    intros w2 Hw2. cbn [insert list_insert] in Hw2. eapply (IH _ _ _ Hw2); [rewrite ksize_cons; cbn [ob_ty]; lia|by apply single_roots_cons|].
    intros live' k' w' Hw' Hl' Hlen Hks Hlive. apply (HQ live' k' w'); [done|done| | |done].
    + rewrite Hlen. cbn. lia.
    + rewrite Hks, ksize_cons. cbn [ob_ty length]. lia.
Qed.

(** The objects after their roots are dropped. *)
Definition unroot (rs : list loc) (ao : loc * obj) : loc * obj :=
  if decide (ao.1 ∈ rs) then (ao.1, mkObj (ob_ty ao.2) 0 (ob_data ao.2)) else ao.

Lemma unroot_cons (k : list (loc * obj)) i r rs t d :
  NoDup k.*1 → r ∉ rs → k !! i = Some (r, mkObj t 1 d) →
  unroot rs <$> <[i := (r, mkObj t (1 - 1) d)]> k = unroot (r :: rs) <$> k.
Proof.
  intros Hk Hr Hi. rewrite list_fmap_insert. apply list_eq. intros j.
  destruct (decide (i = j)) as [<-|Hij].
  - rewrite list_lookup_insert_eq by (rewrite length_fmap; by eapply lookup_lt_Some).
    rewrite list_lookup_fmap, Hi. cbn. unfold unroot. cbn.
    by rewrite decide_False, decide_True by (by try left).
  - rewrite list_lookup_insert_ne, !list_lookup_fmap by done. destruct (k !! j) as [[a o]|] eqn:Hj; [|done].
    cbn. f_equal. unfold unroot. cbn. assert (a ≠ r) as Har.
    { intros ->. apply Hij. eapply (NoDup_lookup k.*1); [done| |]; by rewrite list_lookup_fmap, ?Hi, ?Hj. }
    destruct (decide (a ∈ rs)).
    + by rewrite decide_True by by right.
    + by rewrite decide_False by by intros [?|?]%elem_of_cons.
Qed.

Lemma unroot_roots_wp rs w0 k cs w (Q : unit → world → Prop) :
  rest w0 k cs w → single_roots k rs →
  (∀ w', rest w0 (unroot rs <$> k) cs w' → Q tt w') →
  wp (drop_roots rs) Q w.
Proof.
  revert k w. induction rs as [|r rs IH]; intros k w Hw Hr HQ; cbn [drop_roots].
  { apply HQ. by replace (unroot [] <$> k) with k by (symmetry; apply list_fmap_id). }
  destruct Hr as [[Hrs Hn]%NoDup_cons Hr]. destruct (Hr r) as (i & t & d & Hi); [by left|].
  rewrite wp_bind. apply (rest_drop Hw i r t 1 d); [done|done|]. intros w1 Hw1.
  eapply IH; [exact Hw1| |].
  - apply (single_roots_insert _ _ _ _ (mkObj t 1 d)); [apply Hw|done|done|].
    split; [done|]. intros x Hx. apply Hr. by right.
  - rewrite unroot_cons by (done || apply Hw). exact HQ.
Qed.

Lemma drop_roots_wp rs w0 k cs w (Q : unit → world → Prop) :
  rest w0 k cs w → single_roots k rs →
  (∀ k' w', rest w0 k' cs w' → length k' = length k → Q tt w') →
  wp (drop_roots rs) Q w.
Proof.
  intros Hw Hr HQ. apply (unroot_roots_wp _ _ _ _ _ _ Hw Hr). intros w' Hw'.
  apply (HQ _ _ Hw'). by rewrite length_fmap.
Qed.

Definition pressure_output (sz : Z) : list line :=
  [("  Allocating many objects...", []);
   ("  Before collection: {} allocations, {} bytes", [Num 1000; Num (1000 * sz)]);
   ("  After collection: {} allocations, {} bytes", [Num 1000; Num (1000 * sz)]);
   ("  Live objects kept: {}", [Num 10])].

Lemma memory_pressure_wp w0 fuel th :
  unborn w0 → dropped w0 = [] → (1000 ≤ fuel)%nat → 1000 * layout_size vec_ty ≤ 1048576 →
  wpio [] (memory_pressure fuel th)
    (λ log _ w, log = pressure_output (layout_size vec_ty) ∧ abandoned 1000 w) w0.
Proof.
  intros Hu Hd Hf Hsz. assert (1048576 ≤ usize_max) by done.
  apply wpio_new; [done..|]. intros ctx w Hw Hlim Hthr Hend. io_print.
  assert (length (seqZ 0 1000) = 1000%nat) as Hlen by apply length_seqZ.
  apply wpio_lift, (pressure_loop_wp _ _ _ _ _ _ _ _ Hw); [lia| | |].
  { rewrite Hlen. cbn. lia. }
  { split; [by constructor|]. by intros a ?%elem_of_nil. }
  intros live k w1 Hw1 Hl Hk Hks Hlive. rewrite Hlen in Hk, Hks. cbn in Hk, Hks.
  assert (length (kept (seqZ 0 1000)) = 10%nat) as Hkept by by vm_compute.
  rewrite Hkept in Hlive. cbn in Hlive.
  apply wpio_lift, (rest_count Hw1); [lia|]. io_bytes Hw1. io_print.
  apply wpio_lift, (rest_collect_below Hw1); [lia|done|].
  apply wpio_lift, (rest_count Hw1); [lia|]. io_bytes Hw1. io_print. io_print.
  apply wpio_lift, (drop_roots_wp _ _ _ _ _ _ Hw1 Hl). intros k2 w2 Hw2 Hk2.
  eapply Hend; [exact Hw2|]. intros w3 Hab. rewrite Hk2, Hk in Hab. split; [|done].
  rewrite Hk, Hks, Hlive. done.
Qed.

(** What [main] prints, for boxes of [n] and of [m] bytes. *)
Definition demo_output (n m : Z) : list line :=
  ([("=== Abfall Garbage Collector Demo ===\n", []); ("Example 1: Basic Allocation", [])] ++
   basic_output ++ [("", []); ("Example 2: Manual Collection", [])] ++
   manual_output n ++ [("", []); ("Example 3: Memory Pressure and Collection", [])] ++
   pressure_output m ++ [("", [])])%list.

Lemma wpio_on_own_heap {B} log w0 (p : io unit) (k : unit → io B) out w' Q w :
  run (main p) w0 = Done (out, tt) w' → wpio (log ++ out) (k tt) Q w →
  wpio log (then_io (on_own_heap w0 p) k) Q w.
Proof.
  intros Hrun Hk. apply wpio_then. unfold wpio, on_own_heap, action. cbn [wp].
  by rewrite Hrun.
Qed.

(** C35: the demo: from a fresh process state [main] prints these lines and
    returns.  The heaps stay far below the threshold, so that [collect] collects
    nothing: the dropped objects are still counted after the "collection".  Each
    program abandons its heap, with all its objects, to the background thread. *)
Theorem demo_correct w0 fuel th :
  unborn w0 → dropped w0 = [] → (1000 ≤ fuel)%nat → plain_sizes ≤ usize_max →
  5 * layout_size (TPrim I32) ≤ 1048576 → 1000 * layout_size vec_ty ≤ 1048576 →
  run (main (demo_main w0 fuel th)) w0 =
    Done (demo_output (layout_size (TPrim I32)) (layout_size vec_ty), tt) w0 ∧
  (∃ w, run (main (basic_allocation fuel th)) w0 = Done (basic_output, tt) w ∧
     abandoned 3 w) ∧
  (∃ w, run (main (manual_collection fuel th)) w0 =
     Done (manual_output (layout_size (TPrim I32)), tt) w ∧ abandoned 5 w) ∧
  (∃ w, run (main (memory_pressure fuel th)) w0 =
     Done (pressure_output (layout_size vec_ty), tt) w ∧ abandoned 1000 w).
Proof.
  intros Hu Hd Hf H1 H2 H3.
  pose proof (wpio_output _ _ _ _ (basic_allocation_wp w0 fuel th Hu Hd ltac:(lia) H1)) as HA.
  pose proof (wpio_output _ _ _ _ (manual_collection_wp w0 fuel th Hu Hd ltac:(lia) H2)) as HB.
  pose proof (wpio_output _ _ _ _ (memory_pressure_wp w0 fuel th Hu Hd Hf H3)) as HC.
  split; [|done]. destruct HA as (wa & HA & _), HB as (wb & HB & _), HC as (wc & HC & _).
  assert (wpio [] (demo_main w0 fuel th) (λ log _ w, log = demo_output (layout_size (TPrim I32))
    (layout_size vec_ty) ∧ w = w0) w0) as Hmain.
  { do 2 apply wpio_println. eapply wpio_on_own_heap; [exact HA|].
    do 2 apply wpio_println. eapply wpio_on_own_heap; [exact HB|].
    do 2 apply wpio_println. eapply wpio_on_own_heap; [exact HC|].
    apply wpio_println, wpio_done. split; [|done]. unfold demo_output. by rewrite <- !app_assoc. }
  by apply wpio_output in Hmain as (w & Hrun & ->).
Qed.

End correct.
