(* ===== verification/TraceDemo.v ===== *)
(** * The linked-list demo ([src/examples/trace_demo.rs])

    The program builds the list 1 -> 2 -> 3, traverses it, and expects [collect] to
    remove it once its head is dropped.  It prints that its own test failed. *)

From S2P Require Import Prelude Prog Color TraceImpls GcBox Options BgThread World.
From S2P Require Import Graph Tracing State HeapOps Mutator Collection Client.
From S2P Require Import Background Lifecycle Console Ownership Scripts Clients.
Open Scope Z_scope.

Section trace_demo.
Variables (layout : ty → Z) (mall : gset loc → loc) (checks : bool).
#[local] Instance clients_env : Env := clients layout mall checks.

Abbreviation Node := (TUser list_node).

(** The fields [value] and [next] of a node. *)
Definition value_of (v : val) : val :=
  match v with VUser _ [value; _] => value | _ => VNone end.
Definition next_field (v : val) : option loc :=
  match v with VUser _ [_; next] => next_of next | _ => None end.

Open Scope io_scope.

(** The [while let] loop that traverses the list. *)
Fixpoint traverse (fuel : nat) (current : option loc) : io unit :=
  match current with
  | None => done tt
  | Some ptr =>
      match fuel with
      | O => lift out_of_fuel
      | S fuel =>
          node ← GcPtr.root ptr;
          v ← GcRoot.deref node;
          ! println "  Node value: {}" [Shown (value_of v)];
          v ← GcRoot.deref node;
          GcRoot.drop node;;
          traverse fuel (next_field v)
      end
  end.

Definition trace_demo (fuel th : nat) : io unit :=
  ! println "=== Trace Trait Demo: Linked List ===" [];
  ctx ← GcContext.new fuel th;
  ! println "Creating linked list: 1 -> 2 -> 3" [];
  node3 ← GcContext.allocate fuel Node (ListNode 3 None);
  node2 ← GcContext.allocate fuel Node (ListNode 2 (Some (GcRoot.as_ptr node3)));
  node1 ← GcContext.allocate fuel Node (ListNode 1 (Some (GcRoot.as_ptr node2)));
  GcRoot.drop node2;;
  GcRoot.drop node3;;
  count ← Heap.allocation_count fuel;
  bytes ← Heap.get_bytes_allocated;
  ! println "Allocations: {}, Bytes: {}" [Num count; Num bytes];
  ! println "Traversing list:" [];
  ! traverse fuel (Some (GcRoot.as_ptr node1));
  ! println "All nodes only reachable through node1" [];
  count ← Heap.allocation_count fuel;
  ! println "Before collection: {} allocations" [Num count];
  Heap.collect fuel;;
  count ← Heap.allocation_count fuel;
  ! println "After collection: {} allocations" [Num count];
  ! println "Expected: 3 (all nodes still reachable through node1)" [];
  ! println "Verifying list is still intact:" [];
  ! traverse fuel (Some (GcRoot.as_ptr node1));
  ! println "Dropping node1 (head) - makes entire list unreachable" [];
  GcRoot.drop node1;;
  count ← Heap.allocation_count fuel;
  ! println "Before collection: {} allocations" [Num count];
  Heap.collect fuel;;
  count ← Heap.allocation_count fuel;
  ! println "After collection: {} allocations" [Num count];
  ! println "Expected: 0 (all nodes unreachable)" [];
  count ← Heap.allocation_count fuel;
  ! (if count =? 0 then println "Trace-based collection works correctly!" []
     else
       count ← Heap.allocation_count fuel;
       println "TEST FAILED: {} nodes not collected!" [Num count]);
  GcContext.drop fuel th ctx;;
  done tt.

(** ** What it prints *)

Definition node_line (v : Z) : line := ("  Node value: {}", [Shown (VPrim I32 v)]).

Definition trace_output (sz : Z) : list line :=
  [("=== Trace Trait Demo: Linked List ===", []);
   ("Creating linked list: 1 -> 2 -> 3", []);
   ("Allocations: {}, Bytes: {}", [Num 3; Num (3 * sz)]);
   ("Traversing list:", []);
   node_line 1; node_line 2; node_line 3;
   ("All nodes only reachable through node1", []);
   ("Before collection: {} allocations", [Num 3]);
   ("After collection: {} allocations", [Num 3]);
   ("Expected: 3 (all nodes still reachable through node1)", []);
   ("Verifying list is still intact:", []);
   node_line 1; node_line 2; node_line 3;
   ("Dropping node1 (head) - makes entire list unreachable", []);
   ("Before collection: {} allocations", [Num 3]);
   ("After collection: {} allocations", [Num 3]);
   ("Expected: 0 (all nodes unreachable)", []);
   ("TEST FAILED: {} nodes not collected!", [Num 3])].

Hypothesis layout_usize : ∀ t, is_usize (layout t).
Hypothesis mall_fresh : ∀ used, mall used ∉ used.

#[local] Instance trace_demo_contract : TraceContract.
Proof. by apply clients_contract. Qed.

(** The list from [current] has the values [vs]. *)
Fixpoint chain (k : list (loc * obj)) (current : option loc) (vs : list Z) : Prop :=
  match vs with
  | [] => current = None
  | v :: vs => ∃ a i n next, current = Some a ∧
      k !! i = Some (a, mkObj Node n (ListNode v next)) ∧ n < usize_max ∧ chain k next vs
  end.

Lemma next_of_val u next : next_of (next_val u next) = next.
Proof. by destruct next. Qed.

Lemma traverse_wpio vs w0 k cs w fuel current log (Q : list line → unit → world → Prop) :
  rest w0 k cs w → chain k current vs → (length vs ≤ fuel)%nat →
  (∀ w', rest w0 k cs w' → Q (log ++ map node_line vs) tt w') →
  wpio log (traverse fuel current) Q w.
Proof.
  revert fuel current log w. induction vs as [|v vs IH]; intros fuel current log w Hw Hc Hf HQ.
  { cbn in Hc. subst. destruct fuel; apply wpio_done; rewrite <- (app_nil_r log); by apply HQ. }
  destruct Hc as (a & i & n & next & -> & Hi & Hn & Hc).
  destruct fuel as [|fuel]; cbn in Hf; [lia|]. cbn [traverse].
  apply wpio_lift, (rest_root Hw i a Node n (ListNode v next)); [done|done|]. intros w1 Hw1.
  assert (i < length k)%nat as Hlt by by eapply lookup_lt_Some.
  assert (<[i:=(a, mkObj Node (n + 1) (ListNode v next))]> k !! i =
    Some (a, mkObj Node (n + 1) (ListNode v next))) as Hi1 by by apply list_lookup_insert_eq.
  apply wpio_lift, (rest_deref Hw1 i a _ _ Hi1). io_print.
  apply wpio_lift, (rest_deref Hw1 i a _ _ Hi1).
  pose proof (rest_roots Hw _ _ _ _ _ Hi) as [? _].
  apply wpio_lift, (rest_drop Hw1 i a _ _ _ _ Hi1); [lia|]. intros w2 Hw2.
  rewrite list_insert_insert_eq, Z.add_simpl_r, (list_insert_id k) in Hw2 by done.
  cbn [ob_data]. change (next_field (ListNode v next)) with (next_of (next_val list_node next)).
  rewrite next_of_val. apply (IH _ _ _ w2); [done|done|lia|].
  intros w3 Hw3. rewrite <- app_assoc. by apply HQ.
Qed.

Lemma trace_demo_wp w0 fuel th :
  unborn w0 → dropped w0 = [] → (3 ≤ fuel)%nat → 3 * layout_size Node ≤ 1048576 →
  wpio [] (trace_demo fuel th)
    (λ log _ w, log = trace_output (layout_size Node) ∧ abandoned 3 w) w0.
Proof.
  intros Hu Hd Hf Hsz. pose proof (layout_size_usize Node) as Hl.
  assert (1048576 ≤ usize_max) by done.
  unfold trace_demo. io_print. apply wpio_new; [done..|]. intros ctx w Hw Hlim Hthr Hend. io_print.
  io_alloc Hw node3 w1 H3. io_alloc_ptr Hw 0%nat node2 w2 H2.
  io_alloc_ptr Hw 0%nat node1 w3 H1.
  io_drop Hw 1%nat w4. io_drop Hw 2%nat w5.
  io_count Hw. io_bytes Hw. io_print. io_print.
  assert (chain [(node1, mkObj Node 1 (ListNode 1 (Some node2)));
                 (node2, mkObj Node (1 - 1) (ListNode 2 (Some node3)));
                 (node3, mkObj Node (1 - 1) (ListNode 3 None))] (Some node1) [1; 2; 3]) as Hc.
  { exists node1, 0%nat, 1, (Some node2). split_and!; try done.
    exists node2, 1%nat, (1 - 1), (Some node3). split_and!; try done.
    exists node3, 2%nat, (1 - 1), None. done. }
  apply wpio_then, (traverse_wpio _ _ _ _ _ _ _ _ _ Hw Hc); [done|]. clear Hw. intros w6 Hw.
  cbn [map app]. io_print. io_count Hw. io_print. io_collect Hw Hthr. io_count Hw.
  do 3 io_print.
  apply wpio_then, (traverse_wpio _ _ _ _ _ _ _ _ _ Hw Hc); [done|]. clear Hw. intros w7 Hw.
  cbn [map app]. io_print. io_drop Hw 0%nat w8. io_count Hw. io_print.
  io_collect Hw Hthr. io_count Hw. do 2 io_print. io_count Hw. cbn [Z.eqb].
  apply wpio_then. io_count Hw. eapply (wpio_println _ _ _ done). apply wpio_done.
  eapply Hend; [exact Hw|]. intros w9 Hab. split; [|done].
  unfold trace_output, node_line. cbn [app]. repeat f_equal; known_size.
Qed.

(** C36: the linked-list demo runs to completion and traverses the list correctly
    before and after the first [collect].  Once the head is dropped, [collect]
    collects nothing, because the heap is below the default threshold: the program
    prints that its test failed. *)
Theorem trace_demo_correct w0 fuel th :
  unborn w0 → dropped w0 = [] → (3 ≤ fuel)%nat → 3 * layout_size Node ≤ 1048576 →
  ∃ w, run (main (trace_demo fuel th)) w0 = Done (trace_output (layout_size Node), tt) w ∧
    abandoned 3 w.
Proof. intros. by eapply wpio_output, trace_demo_wp. Qed.

End trace_demo.
