(* ===== verification/VtableDropTest.v ===== *)
(** * The destructor test ([src/examples/vtable_drop_test.rs])

    Test 1 allocates three counted objects, drops two of the roots, and asserts
    that [collect] has run two destructors.  The assertion fails, so that the tests
    after it never run; on a heap of their own they return, and collect nothing. *)

From S2P Require Import Prelude Prog Color TraceImpls GcBox Options BgThread World.
From S2P Require Import Graph Tracing State HeapOps Mutator Collection Client.
From S2P Require Import Background Lifecycle Console Ownership Scripts Clients Demo.
Open Scope Z_scope.

(** [io] programs that run up to a point and fault there. *)
Lemma wpio_fault {A B} log (p : io A) (k : A → io B) e w :
  wpio log p (λ log' a w', run (k a log') w' = Fault e) w → run (then_io p k log) w = Fault e.
Proof.
  intros ([l a] & w' & Hrun & HQ)%wp_run. unfold then_io. by rewrite run_bind, Hrun.
Qed.

Lemma run_then_fault {A B} log (p : io A) (k : A → io B) e w :
  run (p log) w = Fault e → run (then_io p k log) w = Fault e.
Proof. intros Hp. unfold then_io. by rewrite run_bind, Hp. Qed.

Section vtable_drop_test.
Variables (layout : ty → Z) (mall : gset loc → loc) (checks : bool).
#[local] Instance vtable_drop_env : Env := clients layout mall checks.

Abbreviation DropCounter_ty := (TUser drop_counter).
Abbreviation String_ty := (TPrim StringT).
Abbreviation Ints_ty := (TIter Vec (TPrim I32)).
Abbreviation Strs_ty := (TIter Vec (TPrim Str)).

(** [String::from(s)] *)
Definition string_from (s : string) : val := VPrim StringT (Zpos (encode s)).

(** The static [DROP_COUNT], which the destructor of [DropCounter] increments: all
    objects of the test are [DropCounter]s. *)
Definition DROP_COUNT : gc Z := get (λ w, Z.of_nat (length (dropped w))).

Open Scope io_scope.

(** Test 1 up to the collection, and from the assertion on. *)
Definition test1_collect (fuel th : nat) : io (loc * loc) :=
  ! println "Test 1: Drop is called during GC" [];
  ctx ← GcContext.new fuel th;
  obj1 ← GcContext.allocate fuel DropCounter_ty (DropCounter 1);
  obj2 ← GcContext.allocate fuel DropCounter_ty (DropCounter 2);
  obj3 ← GcContext.allocate fuel DropCounter_ty (DropCounter 3);
  ! println "  Created 3 DropCounter objects" [];
  GcRoot.drop obj2;;
  GcRoot.drop obj3;;
  ! println "  Dropped 2 GcRoot references" [];
  Heap.collect fuel;;
  count ← DROP_COUNT;
  ! println "  After GC: {} objects dropped" [Num count];
  done (ctx, obj1).

Definition test1_assert (fuel th : nat) (ctx obj1 : loc) : io unit :=
  count ← DROP_COUNT;
  ! assert (count =? 2);
  GcRoot.drop obj1;;
  GcContext.drop fuel th ctx;;
  count ← DROP_COUNT;
  ! println "  After context dropped: {} total drops" [Num count];
  count ← DROP_COUNT;
  ! assert (count =? 3);
  ! println "Test passed: All Drop implementations called!" [];
  done tt.

Definition test1 (fuel th : nat) : io unit :=
  r ⇐ test1_collect fuel th; test1_assert fuel th r.1 r.2.

(** Tests 2 and 3, which share a context. *)
Definition test2_and_3 (fuel th : nat) : io unit :=
  ! println "Test 2: String deallocation (has internal Drop)" [];
  ctx ← GcContext.new fuel th;
  s1 ← GcContext.allocate fuel String_ty
         (string_from "Hello, World! This is a long string that allocates on the heap");
  s2 ← GcContext.allocate fuel String_ty (string_from "Another heap-allocated string");
  s3 ← GcContext.allocate fuel String_ty (string_from "Yet another string");
  ! println "  Created 3 String objects" [];
  v ← GcRoot.deref s1;
  ! println "  s1: {}" [Shown v];
  GcRoot.drop s2;;
  GcRoot.drop s3;;
  Heap.collect fuel;;
  ! println "  After GC: String objects properly deallocated" [];
  v ← GcRoot.deref s1;
  ! println "  s1 still accessible: {}" [Shown v];
  ! println "Test passed: Strings properly deallocated!" [];
  ! println "Test 3: Vec deallocation (has internal Drop)" [];
  v1 ← GcContext.allocate fuel Ints_ty (vec (map i32 (seqZ 1 10)));
  v2 ← GcContext.allocate fuel Strs_ty (vec (map str ["a"; "b"; "c"; "d"; "e"]));
  ! println "  Created 2 Vec objects" [];
  v ← GcRoot.deref v1;
  ! println "  v1: {:?}" [Shown v];
  GcRoot.drop v2;;
  Heap.collect fuel;;
  ! println "  After GC: Vec objects properly deallocated" [];
  v ← GcRoot.deref v1;
  ! println "  v1 still accessible: {:?}" [Shown v];
  ! println "Test passed: Vecs properly deallocated!" [];
  ! println "ALL TESTS PASSED" [];
  ! println "   Custom Drop implementations called" [];
  ! println "   String (internal Drop) handled correctly" [];
  ! println "   Vec (internal Drop) handled correctly" [];
  GcRoot.drop v1;;
  GcRoot.drop s1;;
  GcContext.drop fuel th ctx;;
  done tt.

Definition vtable_drop_test (fuel th : nat) : io unit :=
  ! println "=== Drop Semantics Verification ===" [];
  ! test1 fuel th;
  test2_and_3 fuel th.

Hypothesis layout_usize : ∀ t, is_usize (layout t).
Hypothesis mall_fresh : ∀ used, mall used ∉ used.

#[local] Instance vtable_drop_contract : TraceContract.
Proof. by apply clients_contract. Qed.

Definition test1_output : list line :=
  [("Test 1: Drop is called during GC", []);
   ("  Created 3 DropCounter objects", []);
   ("  Dropped 2 GcRoot references", []);
   ("  After GC: {} objects dropped", [Num 0])].

Lemma test1_collect_wp log0 w0 fuel th :
  unborn w0 → dropped w0 = [] → (3 ≤ fuel)%nat → 3 * layout_size DropCounter_ty ≤ 1048576 →
  wpio log0 (test1_collect fuel th)
    (λ log _ w, log = log0 ++ test1_output ∧ dropped w = [] ∧ size (mem w) = 3%nat) w0.
Proof.
  intros Hu Hd Hf Hsz. pose proof (layout_size_usize DropCounter_ty) as Hl.
  assert (1048576 ≤ usize_max) by done.
  unfold test1_collect. io_print. apply wpio_lift, rest_new; [done|apply DEFAULT_wf|].
  intros ctx w Hw Ho Hthr _ _ Hdr _ _ _.
  assert (limit_bytes (options (heap w)) = usize_max) as Hlim by by rewrite Ho.
  assert (current_threshold (heap w) = 1048576) as Hthr' by by rewrite Hthr.
  rewrite Hd in Hdr.
  io_alloc Hw obj1 w1 H1. io_alloc Hw obj2 w2 H2. io_alloc Hw obj3 w3 H3. io_print.
  io_drop Hw 1%nat w4. io_drop Hw 0%nat w5. io_print. io_collect Hw Hthr'.
  destruct (rs_frame _ _ _ _ Hw) as (_ & _ & _ & _ & Hdw). rewrite Hdr in Hdw.
  apply wpio_lift. cbn. rewrite Hdw. io_print. apply wpio_done.
  split_and!; [by rewrite <- !app_assoc|done|]. by rewrite (rest_count_size Hw).
Qed.

Definition test23_output : list line :=
  let s1 := Shown (string_from "Hello, World! This is a long string that allocates on the heap") in
  let v1 := Shown (vec (map i32 (seqZ 1 10))) in
  [("Test 2: String deallocation (has internal Drop)", []);
   ("  Created 3 String objects", []);
   ("  s1: {}", [s1]);
   ("  After GC: String objects properly deallocated", []);
   ("  s1 still accessible: {}", [s1]);
   ("Test passed: Strings properly deallocated!", []);
   ("Test 3: Vec deallocation (has internal Drop)", []);
   ("  Created 2 Vec objects", []);
   ("  v1: {:?}", [v1]);
   ("  After GC: Vec objects properly deallocated", []);
   ("  v1 still accessible: {:?}", [v1]);
   ("Test passed: Vecs properly deallocated!", []);
   ("ALL TESTS PASSED", []);
   ("   Custom Drop implementations called", []);
   ("   String (internal Drop) handled correctly", []);
   ("   Vec (internal Drop) handled correctly", [])].

(** What Test 1, and Tests 2 and 3, allocate. *)
Definition test1_size : Z := 3 * layout_size DropCounter_ty.
Definition test23_size : Z := 3 * layout_size String_ty + layout_size Ints_ty + layout_size Strs_ty.

Lemma test2_and_3_wp w0 fuel th :
  unborn w0 → dropped w0 = [] → (5 ≤ fuel)%nat → test23_size ≤ 1048576 →
  wpio [] (test2_and_3 fuel th) (λ log _ w, log = test23_output ∧ abandoned 5 w) w0.
Proof.
  unfold test23_size. intros Hu Hd Hf Hsz. assert (1048576 ≤ usize_max) by done.
  pose proof (layout_size_usize String_ty). pose proof (layout_size_usize Ints_ty).
  pose proof (layout_size_usize Strs_ty). unfold is_usize in *.
  unfold test2_and_3. io_print. apply wpio_new; [done..|]. intros ctx w Hw Hlim Hthr Hend.
  io_alloc Hw s1 w1 Hn1. io_alloc Hw s2 w2 Hn2. io_alloc Hw s3 w3 Hn3. io_print.
  io_deref Hw 2%nat. io_print. io_drop Hw 1%nat w4. io_drop Hw 0%nat w5. io_collect Hw Hthr. io_print.
  io_deref Hw 2%nat. io_print. io_print. io_print.
  io_alloc Hw v1 w6 Hn4. io_alloc Hw v2 w7 Hn5. io_print. io_deref Hw 1%nat. io_print.
  io_drop Hw 0%nat w8. io_collect Hw Hthr. io_print. io_deref Hw 1%nat. do 6 io_print.
  io_drop Hw 1%nat w9. io_drop Hw 4%nat w10. eapply Hend; [exact Hw|]. by split.
Qed.

(** C37: the program panics at the first assertion of Test 1: [collect] has run no
    destructor, because the heap is below the default threshold.  Up to there Test 1
    prints these lines, and the three objects are still allocated.  Tests 2 and 3, which
    the program does not reach, return when they have a heap of their own; they print
    that all strings and vectors are deallocated, and all five objects still exist. *)
Theorem drop_test_fails w0 fuel th :
  unborn w0 → dropped w0 = [] → (5 ≤ fuel)%nat → test1_size ≤ 1048576 → test23_size ≤ 1048576 →
  run (main (vtable_drop_test fuel th)) w0 = Fault (Panic AssertionFailed) ∧
  (∃ r w, run (main (test1_collect fuel th)) w0 = Done (test1_output, r) w ∧
     size (mem w) = 3%nat) ∧
  (∃ w, run (main (test2_and_3 fuel th)) w0 = Done (test23_output, tt) w ∧ abandoned 5 w).
Proof.
  intros Hu Hd Hf Hsz1 Hsz2. split; [|split].
  - change (run (then_io (test1 fuel th) (λ _, test2_and_3 fuel th)
      [("=== Drop Semantics Verification ==="%string, [])]) w0 = Fault (Panic AssertionFailed)).
    apply run_then_fault, wpio_fault.
    eapply wpio_mono; [apply test1_collect_wp; [done|done|lia|done]|]. intros log r w (_ & Hdr & _).
    unfold test1_assert, then_io, lift, DROP_COUNT.
    rewrite !run_bind. unfold get, action. cbn [run bind]. by rewrite Hdr.
  - assert (3 ≤ fuel)%nat as Hf3 by lia. pose proof (test1_collect_wp [] w0 fuel th Hu Hd Hf3 Hsz1) as Hwp.
    apply wpio_run in Hwp as (log & r & w & Hrun & -> & _ & Hm). by exists r, w.
  - by apply wpio_output, test2_and_3_wp.
Qed.

End vtable_drop_test.
