(* ===== verification/Interface.v ===== *)
(** * What the collector promises to a client

    The operations of the crate as a client calls them, with the laws that a
    client relies on: each refines its abstract operation on object graphs.
    [Session] proves the safety of client programs against this interface, and
    shows that the heap implements it. *)

From S2P Require Import Prelude Prog TraceImpls Graph.
Open Scope Z_scope.

(** The operations; [op_background c] is a round of the background thread with stop
    condition [c].  An operation on a state returns an outcome; the
    preconditions [can_alloc] and [can_collect] are about the size of the heap. *)
Class Collector (W : Type) := {
  view : W → graph;
  op_alloc : ty → val → W → outcome W loc;
  op_root : loc → W → outcome W loc;
  op_drop : loc → W → outcome W unit;
  op_deref : loc → W → outcome W val;
  op_cell_new : val → W → outcome W loc;
  op_cell_get : loc → W → outcome W val;
  op_cell_set : nat → loc → val → W → outcome W unit;
  op_force_collect : W → outcome W Z;
  op_collect : W → outcome W unit;
  op_background : Z → W → outcome W unit;
  ready : W → Prop;
  can_alloc : ty → W → Prop;
  can_collect : W → Prop;
}.
Arguments view {W _} _ : simpl never.

Class CollectorLaws (W : Type) `{Env, !Collector W} : Prop := {
  law_wf w : ready w → wf_graph (view w);
  law_alloc w t d :
    ready w → has_type d t = true → wf_val (view w) d → can_alloc t w →
    ∃ a w', op_alloc t d w = Done a w' ∧ ready w' ∧ objs (view w) !! a = None ∧
      view w' = g_alloc (view w) a (mkObj t 1 d);
  law_root w a o :
    ready w → objs (view w) !! a = Some o → ob_roots o < usize_max →
    ∃ w', op_root a w = Done a w' ∧ ready w' ∧ view w' = g_roots (view w) a (λ n, n + 1);
  law_drop w a o :
    ready w → objs (view w) !! a = Some o → 0 < ob_roots o →
    ∃ w', op_drop a w = Done tt w' ∧ ready w' ∧ view w' = g_roots (view w) a (λ n, n - 1);
  law_deref w a o :
    objs (view w) !! a = Some o → op_deref a w = Done (ob_data o) w;
  law_cell_new w v t :
    ready w → is_copy t = true → has_type v t = true →
    ∃ c w', op_cell_new v w = Done c w' ∧ ready w' ∧ gcells (view w) !! c = None ∧
      view w' = g_set (view w) c v;
  law_cell_get w c v :
    gcells (view w) !! c = Some v → op_cell_get c w = Done v w;
  law_cell_set w th c v t :
    ready w → is_Some (gcells (view w) !! c) → is_copy t = true → has_type v t = true →
    wf_val (view w) v →
    ∃ w', op_cell_set th c v w = Done tt w' ∧ ready w' ∧ view w' = g_set (view w) c v;
  law_force_collect w :
    ready w → can_collect w →
    ∃ n w', op_force_collect w = Done n w' ∧ ready w' ∧ collected (view w) (view w');
  law_collect w :
    ready w → can_collect w →
    ∃ w', op_collect w = Done tt w' ∧ ready w' ∧
      (collected (view w) (view w') ∨ view w' = view w);
  law_background w c :
    ready w → can_collect w →
    ∃ w', op_background c w = Done tt w' ∧ ready w' ∧
      (collected (view w) (view w') ∨ view w' = view w);
}.
