(* ===== verification/Session.v ===== *)
(** * Client sessions

    A session is a state of the collector with the [GcRoot]s that the client
    holds.  [step] is one operation of the client.  Against the interface, by
    induction on the steps: the root count of every object is the number of its
    handles, a handle always leads to a live object, and what is reachable from
    the handles keeps its type and contents.  The heap of [src/src/heap.rs],
    between collections, is an instance. *)

From stdpp Require Import relations.
From S2P Require Import Prelude Prog TraceImpls Graph Interface.
Open Scope Z_scope.

(** The number of handles to an object. *)
Definition handle_count (hs : list loc) (a : loc) : Z := Z.of_nat (count_occ Nat.eq_dec hs a).

Lemma handle_count_cons hs a b :
  handle_count (b :: hs) a = if decide (b = a) then handle_count hs a + 1 else handle_count hs a.
Proof.
  unfold handle_count. cbn. destruct (Nat.eq_dec b a), (decide (b = a)); done || lia.
Qed.

Lemma handle_count_perm hs hs' a : hs ≡ₚ hs' → handle_count hs a = handle_count hs' a.
Proof.
  intros Hp. unfold handle_count. f_equal.
  by apply (Permutation_count_occ Nat.eq_dec).
Qed.

Lemma handle_count_pos hs a : 0 < handle_count hs a ↔ a ∈ hs.
Proof.
  unfold handle_count. rewrite list_elem_of_In, (count_occ_In Nat.eq_dec). lia.
Qed.

Lemma handle_count_le hs a : 0 ≤ handle_count hs a ≤ Z.of_nat (length hs).
Proof.
  unfold handle_count. pose proof (count_occ_bound Nat.eq_dec a hs). lia.
Qed.

Section session.
Context {W : Type} `{Env} `{!Collector W} `{!CollectorLaws W}.

(** What a client may do next.  It stores well-typed values whose pointers lead
    to live objects (the safety contract of [GcPtr]); it holds fewer handles than
    a [usize] can count. *)
Inductive step : W * list loc → W * list loc → Prop :=
  | step_alloc w hs t d a w' :
      has_type d t = true → wf_val (view w) d → can_alloc t w →
      op_alloc t d w = Done a w' → step (w, hs) (w', a :: hs)
  | step_root w hs a w' :
      reachable (view w) a → Z.of_nat (length hs) < usize_max →
      op_root a w = Done a w' → step (w, hs) (w', a :: hs)
  | step_drop w hs hs' a w' :
      hs ≡ₚ a :: hs' → op_drop a w = Done tt w' → step (w, hs) (w', hs')
  | step_cell_new w hs v t c w' :
      is_copy t = true → has_type v t = true →
      op_cell_new v w = Done c w' → step (w, hs) (w', hs)
  | step_cell_set w hs th c v t w' :
      is_Some (gcells (view w) !! c) → is_copy t = true → has_type v t = true →
      wf_val (view w) v →
      op_cell_set th c v w = Done tt w' → step (w, hs) (w', hs)
  | step_force_collect w hs n w' :
      can_collect w → op_force_collect w = Done n w' → step (w, hs) (w', hs)
  | step_collect w hs w' :
      can_collect w → op_collect w = Done tt w' → step (w, hs) (w', hs)
  | step_background w hs c w' :
      can_collect w → op_background c w = Done tt w' → step (w, hs) (w', hs).

(** ** The invariant *)

Definition counts (G : graph) (hs : list loc) : Prop :=
  ∀ a, match objs G !! a with
       | Some o => ob_roots o = handle_count hs a
       | None => a ∉ hs
       end.

Definition inv (s : W * list loc) : Prop := ready s.1 ∧ counts (view s.1) s.2.

Lemma inv_perm w hs hs' : inv (w, hs) → hs ≡ₚ hs' → inv (w, hs').
Proof.
  intros [Hr Hc] Hp. split; [done|]. intros a. specialize (Hc a). cbn in *.
  destruct (objs (view w) !! a) as [o|]; [by rewrite <- (handle_count_perm hs hs')|by rewrite <- Hp].
Qed.

Lemma counts_handle G hs a : counts G hs → a ∈ hs → ∃ o, objs G !! a = Some o ∧ 0 < ob_roots o.
Proof.
  intros Hc Ha. specialize (Hc a). destruct (objs G !! a) as [o|]; [|done].
  exists o. split; [done|]. rewrite Hc. by apply handle_count_pos.
Qed.

Lemma counts_alloc G hs a t d :
  counts G hs → objs G !! a = None → counts (g_alloc G a (mkObj t 1 d)) (a :: hs).
Proof.
  intros Hc Ha x. cbn. pose proof (Hc a) as Hca. rewrite Ha in Hca. specialize (Hc x).
  destruct (decide (a = x)) as [<-|Hne].
  - rewrite lookup_insert_eq, handle_count_cons, decide_True by done. cbn.
    pose proof (handle_count_pos hs a). pose proof (handle_count_le hs a).
    destruct (decide (0 < handle_count hs a)); [tauto|lia].
  - rewrite lookup_insert_ne by done. destruct (objs G !! x) as [o|].
    + by rewrite handle_count_cons, decide_False.
    + rewrite not_elem_of_cons. split; [congruence|done].
Qed.

(** Changing the count of one object by the change of its handles. *)
Lemma counts_roots G hs hs' a f :
  counts G hs → is_Some (objs G !! a) →
  (∀ x, x ∈ hs' → x = a ∨ x ∈ hs) →
  (∀ x, handle_count hs' x =
     if decide (a = x) then f (handle_count hs x) else handle_count hs x) →
  counts (g_roots G a f) hs'.
Proof.
  intros Hc [o Ho] Hin Hcount x. destruct (objs (g_roots G a f) !! x) as [o'|] eqn:E.
  - apply g_roots_lookup in E as (o1 & Ho1 & ->). specialize (Hc x). rewrite Ho1 in Hc.
    cbn. rewrite Hcount, Hc. by case_decide.
  - assert (objs G !! x = None) as Hx.
    { destruct (objs G !! x) as [o1|] eqn:E1; [|done]. exfalso.
      apply eq_None_not_Some in E. apply E. eexists. apply g_roots_lookup. by eexists. }
    specialize (Hc x). rewrite Hx in Hc. intros [->|?]%Hin; [congruence|done].
Qed.

Lemma counts_collected G G' hs : counts G hs → collected G G' → counts G' hs.
Proof.
  intros Hc [_ Ho] a. destruct (objs G' !! a) as [o|] eqn:E.
  - apply Ho in E as [Ha _]. specialize (Hc a). by rewrite Ha in Hc.
  - intros Hin. destruct (counts_handle _ _ _ Hc Hin) as (o & Ha & Hr).
    assert (objs G' !! a = Some o); [|congruence].
    apply Ho. split; [done|]. apply reachable_rooted. by exists o.
Qed.

Lemma counts_collected_or_same G G' hs :
  counts G hs → collected G G' ∨ G' = G → counts G' hs.
Proof. intros Hc [Hg| ->]; [by eapply counts_collected|done]. Qed.

Lemma reachable_lookup w a :
  ready w → reachable (view w) a → ∃ o, objs (view w) !! a = Some o.
Proof. intros Hr Ha. by apply (wf_reachable _ _ (law_wf _ Hr)) in Ha as [o ?]; exists o. Qed.

Ltac use_law law :=
  let w2 := fresh "w2" in
  edestruct law as (w2 & Hop & Hready & Hview); [eassumption..|];
  rewrite Hop in *; simplify_eq.

Lemma step_inv s s' : step s s' → inv s → inv s'.
Proof.
  intros Hs [Hr Hc]; destruct Hs; cbn in *.
  - edestruct (law_alloc (W:=W)) as (a2 & w2 & Hop & Hready & Hfresh & Hview); [eassumption..|].
    rewrite Hop in *. simplify_eq. split; cbn; [done|]. rewrite Hview. by apply counts_alloc.
  - destruct (reachable_lookup _ _ Hr ltac:(eassumption)) as [o Ho].
    pose proof (Hc a) as Hca. rewrite Ho in Hca.
    pose proof (handle_count_le hs a).
    destruct (law_root w a o) as (w2 & Hop & Hready & Hview); [done..|lia|].
    rewrite Hop in *. simplify_eq. split; cbn; [done|]. rewrite Hview.
    apply (counts_roots _ hs); [done|by eexists| |].
    + intros x ?%elem_of_cons. done.
    + intros x. apply handle_count_cons.
  - destruct (counts_handle _ _ a Hc) as (o & Ho & Hpos).
    { match goal with Hp : _ ≡ₚ _ |- _ => rewrite Hp end. by left. }
    use_law law_drop. split; cbn; [done|]. rewrite Hview.
    match goal with Hp : _ ≡ₚ _ |- _ => rename Hp into Hperm end.
    apply (counts_roots _ hs); [done|by eexists| |].
    + intros x Hx. right. rewrite Hperm. by right.
    + intros x. rewrite (handle_count_perm _ _ x Hperm), handle_count_cons.
      case_decide; lia.
  - edestruct (law_cell_new (W:=W)) as (c2 & w2 & Hop & Hready & Hfresh & Hview); [eassumption..|].
    rewrite Hop in *. simplify_eq. split; cbn; [done|]. by rewrite Hview.
  - use_law law_cell_set. split; cbn; [done|]. by rewrite Hview.
  - edestruct (law_force_collect (W:=W)) as (n2 & w2 & Hop & Hready & Hview); [eassumption..|].
    rewrite Hop in *. simplify_eq. split; cbn; [done|]. by eapply counts_collected.
  - edestruct (law_collect (W:=W)) as (w2 & Hop & Hready & Hview); [eassumption..|].
    rewrite Hop in *. simplify_eq. split; cbn; [done|]. by eapply counts_collected_or_same.
  - edestruct (law_background (W:=W)) as (w2 & Hop & Hready & Hview); [eassumption..|].
    rewrite Hop in *. simplify_eq. split; cbn; [done|]. by eapply counts_collected_or_same.
Qed.

Lemma steps_inv s s' : rtc step s s' → inv s → inv s'.
Proof. induction 1; eauto using step_inv. Qed.

(** ** Safety *)

Lemma steps_handle s w hs a :
  rtc step s (w, hs) → inv s → a ∈ hs →
  ∃ o, objs (view w) !! a = Some o ∧ op_deref a w = Done (ob_data o) w.
Proof.
  intros Hs [_ Hc]%(steps_inv _ _ Hs) Ha.
  destruct (counts_handle _ _ _ Hc Ha) as (o & Ho & _). exists o. split; [done|].
  by apply law_deref.
Qed.

(** One step keeps every reachable object, with its type and contents. *)
Lemma step_stable w hs w' hs' a o :
  step (w, hs) (w', hs') → inv (w, hs) → reachable (view w) a → objs (view w) !! a = Some o →
  ∃ o', objs (view w') !! a = Some o' ∧ ob_ty o' = ob_ty o ∧ ob_data o' = ob_data o.
Proof.
  intros Hs [Hr Hc] Ha Ho. cbn in Hr, Hc. inversion Hs; subst.
  - edestruct (law_alloc (W:=W)) as (a2 & w2 & Hop & _ & Hfresh & Hview); [eassumption..|].
    rewrite Hop in *. simplify_eq. exists o. rewrite Hview. split; [|done]. cbn.
    rewrite lookup_insert_ne; [done|]. congruence.
  - match goal with Hx : op_root ?x _ = _, Hy : reachable _ ?x |- _ =>
      destruct (reachable_lookup _ _ Hr Hy) as [o1 Ho1]; pose proof (Hc x) as Hcx end.
    rewrite Ho1 in Hcx. rename a0 into b. pose proof (handle_count_le hs b).
    destruct (law_root w b o1) as (w2 & Hop & _ & Hview); [done..|lia|].
    rewrite Hop in *. simplify_eq. eexists. rewrite Hview, g_roots_lookup.
    split; [by eexists|done].
  - rename a0 into b. destruct (counts_handle _ _ b Hc) as (o1 & Ho1 & Hpos).
    { match goal with Hp : _ ≡ₚ _ |- _ => rewrite Hp end. by left. }
    destruct (law_drop w b o1) as (w2 & Hop & _ & Hview); [done..|].
    rewrite Hop in *. simplify_eq. eexists. rewrite Hview, g_roots_lookup.
    split; [by eexists|done].
  - edestruct (law_cell_new (W:=W)) as (c2 & w2 & Hop & _ & _ & Hview); [eassumption..|].
    rewrite Hop in *. simplify_eq. exists o. by rewrite Hview.
  - use_law law_cell_set. exists o. by rewrite Hview.
  - edestruct (law_force_collect (W:=W)) as (n2 & w2 & Hop & _ & Hview); [eassumption..|].
    rewrite Hop in *. simplify_eq. exists o. split; [|done]. by apply Hview.
  - edestruct (law_collect (W:=W)) as (w2 & Hop & _ & Hview); [eassumption..|].
    rewrite Hop in *. simplify_eq. exists o. destruct Hview as [Hview| ->]; [|done].
    split; [|done]. by apply Hview.
  - edestruct (law_background (W:=W)) as (w2 & Hop & _ & Hview); [eassumption..|].
    rewrite Hop in *. simplify_eq. exists o. destruct Hview as [Hview| ->]; [|done].
    split; [|done]. by apply Hview.
Qed.

(** Without handles, a collection leaves no object. *)
Lemma no_handles_collected w w' :
  inv (w, []) → collected (view w) (view w') → objs (view w') = ∅.
Proof.
  intros [_ Hc] [_ Ho]. cbn in Hc. apply map_empty. intros a.
  destruct (objs (view w') !! a) as [o|] eqn:E; [|done]. exfalso.
  apply Ho in E as [_ Hr]. revert a Hr.
  apply (reachable_ind_closed _ (λ _, False)); [|done].
  intros a (o' & Ha & Hpos). specialize (Hc a). rewrite Ha in Hc. unfold handle_count in Hc.
  cbn in Hc. lia.
Qed.

End session.
