(* ===== verification/HeapClient.v ===== *)
(** * The heap implements the client interface

    The instance of [Collector] for the heap of [src/src/heap.rs] with one
    thread that runs at a time, and the safety of client sessions for it. *)

From stdpp Require Import relations.
From S2P Require Import Prelude Prog Color TraceImpls GcBox Options BgThread World.
From S2P Require Import Graph Tracing State HeapOps Mutator Marking Sweeping Collection.
From S2P Require Import Client Background Lifecycle Interface Session.
Open Scope Z_scope.

Section heap_client.
Context `{Env} `{!TraceContract}.

(** The root of a pointer and the clone of a handle are the same operation. *)
#[global] Instance heap_collector : Collector world := {|
  view := abs;
  op_alloc t d w := run (Heap.allocate 1 t d) w;
  op_root a w := run (GcPtr.root a) w;
  op_drop a w := run (GcRoot.drop a) w;
  op_deref a w := run (GcRoot.deref a) w;
  op_cell_new v w := run (GcCell.new v) w;
  op_cell_get c w := run (GcCell.get c) w;
  op_cell_set th c v w := run (GcCell.set th c v) w;
  op_force_collect w := run (Heap.force_collect (enough_fuel w)) w;
  op_collect w := run (Heap.collect (enough_fuel w)) w;
  op_background c w := run (Heap.background_gc_thread (enough_fuel w) one_round c []) w;
  ready w := idle w ∧ 0 < incremental_work_budget (options (heap w));
  can_alloc t w := total_size (mem w) + layout_size t ≤ usize_max;
  can_collect := pacing_ok;
|}.

Lemma ready_budget w w' :
  ready w → idle w' → options (heap w') = options (heap w) → ready w'.
Proof. intros [_ Hb] Hi Ho. split; [done|]. by rewrite Ho. Qed.

#[global] Instance heap_laws : CollectorLaws world.
Proof.
  split; unfold view, op_alloc, op_root, op_drop, op_deref, op_cell_new, op_cell_get, op_cell_set,
    op_force_collect, op_collect, op_background, can_alloc, can_collect, heap_collector.
  - intros w [Hi _]. apply Hi.
  - intros w t d Hw Hty Hd Hsz. destruct (allocate_run w 1 t d) as [Ha Hrun]; [apply Hw|lia|].
    eexists _, _. split; [exact Hrun|]. split_and!.
    + eapply ready_budget; [done|by apply allocated_idle; [apply Hw|..]|done].
    + cbn. by rewrite lookup_fmap, Ha.
    + by apply allocated_abs.
  - intros w a o Hw Ho Hmax. exists (rerooted w a (λ n, usize_fetch_add n 1)).
    destruct (inc_root_refines w a o) as [Hi Ha]; [apply Hw|done..|].
    split; [|split; [by eapply ready_budget|done]].
    unfold GcPtr.root. by rewrite run_bind, inc_root_run by (apply abs_is_Some; by eexists).
  - intros w a o Hw Ho Hpos. exists (rerooted w a (λ n, usize_fetch_sub n 1)).
    destruct (dec_root_refines w a o) as [Hi Ha]; [apply Hw|done..|].
    split; [|split; [by eapply ready_budget|done]].
    apply dec_root_run, abs_is_Some. by eexists.
  - intros w a o. apply deref_run.
  - intros w v t Hw Hc Hv. destruct (cell_new_refines w v t) as (? & Hrun & Hi); [apply Hw|done..|].
    eexists _, _. split; [exact Hrun|]. split; [by eapply ready_budget|done].
  - intros w c v. apply cell_get_run.
  - intros w th c v t Hw Hcell Hc Hv Hwf. exists (celled w c v).
    split; [by apply cell_set_run; [apply Hw|]|]. split; [|done].
    eapply ready_budget; [done|by eapply cell_set_refines; [apply Hw|..]|done].
  - intros w Hw Hp. destruct (force_collect_run w (enough_fuel w)) as (w' & Hrun & Hd);
      [apply Hw|apply Hw|done..|].
    eexists _, w'. split; [exact Hrun|]. split; [|apply Hd].
    by eapply ready_budget; [|apply Hd|apply Hd].
  - intros w Hw Hp. destruct (collect_run w (enough_fuel w)) as (w' & Hrun & Hd);
      [apply Hw|apply Hw|done..|].
    exists w'. split; [exact Hrun|]. case_decide.
    + split; [|left; apply Hd]. by eapply ready_budget; [|apply Hd|apply Hd].
    + subst. split; [done|by right].
  - intros w c Hw Hp. destruct (one_round_run c w) as (w' & Hrun & [Hd| ->]); [apply Hw|apply Hw|done| |].
    + exists w'. split; [done|]. split; [|left; apply Hd].
      by eapply ready_budget; [|apply Hd|apply Hd].
    + exists w. split; [done|]. split; [done|by right].
Qed.

(** ** Sessions on a new heap *)

(** The state of a client that has created a heap. *)
Definition opened (o : GcOptions) (w : world) : Prop :=
  ∃ w0 fuel, unborn w0 ∧ run (Heap.with_options fuel o) w0 = Done tt w.

Lemma opened_inv o w :
  opened o w → GcOptions.wf o → 0 < incremental_work_budget o → inv (w, []).
Proof.
  intros (w0 & fuel & Hu & Hrun) Ho Hb.
  destruct (with_options_run w0 o fuel Hu Ho) as (w' & Hrun' & Hi & He & Hopt & _).
  rewrite Hrun' in Hrun. assert (w' = w) as -> by congruence. split.
  - cbn. split; [done|]. by rewrite Hopt.
  - intros a. change (view _) with (abs w). cbn [fst]. rewrite He, lookup_empty.
    apply not_elem_of_nil.
Qed.

(** C4: in every session of a client, each [GcRoot] dereferences to the contents
    of a live object. *)
Theorem session_handles_safe o w1 w hs a :
  GcOptions.wf o → 0 < incremental_work_budget o → opened o w1 →
  rtc step (w1, []) (w, hs) → a ∈ hs →
  ∃ ob, objs (abs w) !! a = Some ob ∧ run (GcRoot.deref a) w = Done (ob_data ob) w ∧
    has_type (ob_data ob) (ob_ty ob) = true ∧ wf_val (abs w) (ob_data ob).
Proof.
  intros Ho Hb Hopen Hs Ha. pose proof (opened_inv _ _ Hopen Ho Hb) as Hinv.
  destruct (steps_handle _ _ _ _ Hs Hinv Ha) as (ob & Hob & Hd).
  apply (steps_inv _ _ Hs) in Hinv as [Hr _]. apply law_wf in Hr.
  exists ob. split; [done|]. split; [done|]. split; [by eapply wf_obj_type|by eapply wf_obj_val].
Qed.

(** C12: in every session the root count of an object is the number of [GcRoot]s
    to it: no decrement underflows and no count wraps. *)
Theorem session_root_counts o w1 w hs a ob :
  GcOptions.wf o → 0 < incremental_work_budget o → opened o w1 →
  rtc step (w1, []) (w, hs) → objs (abs w) !! a = Some ob →
  ob_roots ob = Z.of_nat (count_occ Nat.eq_dec hs a) ∧ (rooted (abs w) a ↔ a ∈ hs).
Proof.
  intros Ho Hb Hopen Hs Ha. pose proof (opened_inv _ _ Hopen Ho Hb) as Hinv.
  apply (steps_inv _ _ Hs) in Hinv as [_ Hc]. specialize (Hc a).
  change (view (w, hs).1) with (abs w) in Hc. rewrite Ha in Hc. split; [done|].
  rewrite <- handle_count_pos. split.
  - intros (ob' & ? & ?). simplify_eq. cbn in Hc. lia.
  - intros ?. exists ob. split; [done|]. cbn in Hc. lia.
Qed.

(** C11: a step of a client, collections included, keeps the type and the contents
    of every object that is reachable from its [GcRoot]s. *)
Theorem session_step_stable o w1 w hs w' hs' a ob :
  GcOptions.wf o → 0 < incremental_work_budget o → opened o w1 →
  rtc step (w1, []) (w, hs) → step (w, hs) (w', hs') →
  reachable (abs w) a → objs (abs w) !! a = Some ob →
  ∃ ob', objs (abs w') !! a = Some ob' ∧ ob_ty ob' = ob_ty ob ∧ ob_data ob' = ob_data ob.
Proof.
  intros Ho Hb Hopen Hs Hst Ha Hob. pose proof (opened_inv _ _ Hopen Ho Hb) as Hinv.
  apply (steps_inv _ _ Hs) in Hinv. exact (step_stable w hs w' hs' a ob Hst Hinv Ha Hob).
Qed.

(** C19: nothing leaks: when a client has dropped all its [GcRoot]s, the next
    collection frees every object, cycles included, and the byte counter is zero. *)
Theorem session_no_leak o w1 w :
  GcOptions.wf o → 0 < incremental_work_budget o → opened o w1 →
  rtc step (w1, []) (w, []) → pacing_ok w →
  ∃ w', run (Heap.force_collect (enough_fuel w)) w = Done 0 w' ∧ mem w' = ∅ ∧
    bytes_allocated (heap w') = 0.
Proof.
  intros Ho Hb Hopen Hs Hp. pose proof (opened_inv _ _ Hopen Ho Hb) as Hinv.
  apply (steps_inv _ _ Hs) in Hinv. pose proof Hinv as [[Hi Hbud] _]. cbn in Hi, Hbud.
  destruct (force_collect_run w (enough_fuel w)) as (w' & Hrun & Hd); [done..|].
  pose proof (no_handles_collected w w' Hinv (cd_collected _ _ Hd)) as Hemp.
  assert (mem w' = ∅) as Hm by by apply (fmap_empty_inv abs_box).
  exists w'. rewrite Hrun. rewrite (ww_bytes _ (idle_wf _ (cd_idle _ _ Hd))), Hm. done.
Qed.

End heap_client.
