(* ===== verification/ClientPrograms.v ===== *)
(** * Client programs and the machine that never frees

    A client program is a list of commands on variables, which hold the
    [GcRoot]s of the client: allocate, clone, drop, follow a pointer and root it,
    store in a cell, look at an object, compare two pointers, assert a value, ask for
    a collection, and let the background thread run.  Its meaning is defined once, for any machine that has the
    operations of the crate's interface.  The heap is one machine; the arena,
    which appends to a list and never frees, is another.

    A value in a command is a template: its pointers are variables and its cells the
    numbers of the cells that the same command creates.  What a client
    sees of an object is its contents without the addresses. *)

From stdpp Require Import relations.
From S2P Require Import Prelude Prog TraceImpls Graph Interface.
Open Scope Z_scope.

(** ** Renaming the addresses of a value *)

Fixpoint rename (f g : loc → loc) (v : val) : val :=
  match v with
  | VPrim p z => VPrim p z
  | VDeref k v => VDeref k (rename f g v)
  | VIter k vs => VIter k (map (rename f g) vs)
  | VMap k kvs => VMap k (map (λ kv, match kv with (x, y) => (rename f g x, rename f g y) end) kvs)
  | VOk v => VOk (rename f g v)
  | VErr v => VErr (rename f g v)
  | VSome v => VSome (rename f g v)
  | VNone => VNone
  | VArray vs => VArray (map (rename f g) vs)
  | VGcPtr t a => VGcPtr t (f a)
  | VGcCell c => VGcCell (g c)
  | VUser u vs => VUser u (map (rename f g) vs)
  end.

(** The contents without the addresses. *)
Definition erase : val → val := rename (λ _, 0%nat) (λ _, 0%nat).

Definition rename_req (f g : loc → loc) (r : treq) : treq :=
  match r with RMark t a => RMark t (f a) | RCell c => RCell (g c) end.

(** The pointers and the cells of a value, in order. *)
Definition marks (v : val) : list (ty * loc) :=
  omap (λ r, match r with RMark t a => Some (t, a) | RCell _ => None end) (owned v).

Definition cells_of (v : val) : list loc :=
  omap (λ r, match r with RMark _ _ => None | RCell c => Some c end) (owned v).

(** ** Machines *)

Class Machine (W : Type) := {
  m_alloc : ty → val → prog W loc;
  m_root : loc → prog W loc;
  m_drop : loc → prog W unit;
  m_deref : loc → prog W val;
  m_cell_new : val → prog W loc;
  m_cell_get : loc → prog W val;
  m_cell_set : nat → loc → val → prog W unit;
  m_force_collect : prog W unit;
  m_collect : prog W unit;
  m_background : Z → prog W unit;
}.

(** Every implementation of the client interface is a machine. *)
#[export] Instance collector_machine {W} `{!Collector W} : Machine W := {|
  m_alloc t d := action (op_alloc t d);
  m_root a := action (op_root a);
  m_drop a := action (op_drop a);
  m_deref a := action (op_deref a);
  m_cell_new v := action (op_cell_new v);
  m_cell_get c := action (op_cell_get c);
  m_cell_set th c v := action (op_cell_set th c v);
  m_force_collect := (action op_force_collect;; Ret tt)%gc;
  m_collect := action op_collect;
  m_background c := action (op_background c);
|}.

(** The arena: objects with their type and contents, and cells, in the order of
    their creation.  It keeps no roots, and a collection does nothing. *)
Record arena := mkArena {
  ar_objs : list (ty * val);
  ar_cells : list val;
}.

Definition ar_empty : arena := mkArena [] [].

Definition ar_deref (a : loc) (s : arena) : outcome arena val :=
  match ar_objs s !! a with
  | Some (_, d) => Done d s
  | None => Fault (UseAfterFree a)
  end.

#[export] Instance arena_machine : Machine arena := {|
  m_alloc t d := action (λ s,
    Done (length (ar_objs s)) (mkArena (ar_objs s ++ [(t, d)]) (ar_cells s)));
  m_root a := (action (ar_deref a);; Ret a)%gc;
  m_drop a := (action (ar_deref a);; Ret tt)%gc;
  m_deref a := action (ar_deref a);
  m_cell_new v := action (λ s,
    Done (length (ar_cells s)) (mkArena (ar_objs s) (ar_cells s ++ [v])));
  m_cell_get c := action (λ s,
    match ar_cells s !! c with Some v => Done v s | None => Fault (UseAfterFree c) end);
  m_cell_set _ c v := action (λ s,
    match ar_cells s !! c with
    | Some _ => Done tt (mkArena (ar_objs s) (<[c := v]> (ar_cells s)))
    | None => Fault (UseAfterFree c)
    end);
  m_force_collect := Ret tt;
  m_collect := Ret tt;
  m_background _ := Ret tt;
|}.

(** ** Programs *)

(** - [CAlloc x t d cs]: [let x] be a new object [d : t] with new cells of the given
      types and contents;
    - [CClone x r], [CDrop r]: [let x] be a clone of the [GcRoot] in [r]; drop it;
    - [CFollow x r k n]: [let x] be a root of the [n]-th pointer of the object in [r],
      or of the contents of its [k]-th cell;
    - [CSet th r k t v]: store [v : t] in the [k]-th cell of the object in [r];
    - [CSee r]: look at the object and the contents of its cells;
    - [CSame r r']: do the variables point to the same object?
    - [CAssertEq r p z]: panic unless the object in [r] is the scalar [z : p];
    - [CForceCollect], [CCollect]: call the collector;
    - [CBackground c]: the client does nothing while the background thread has a
      round. *)
Inductive cmd :=
  | CAlloc (x : nat) (t : ty) (d : val) (cs : list (ty * val))
  | CClone (x r : nat)
  | CDrop (r : nat)
  | CFollow (x r : nat) (k : option nat) (n : nat)
  | CSet (th r k : nat) (t : ty) (v : val)
  | CSee (r : nat)
  | CSame (r r' : nat)
  | CAssertEq (r : nat) (p : prim) (z : Z)
  | CForceCollect
  | CCollect
  | CBackground (c : Z).

Inductive seen :=
  | Saw (d : val) (cs : list val)
  | Compared (same : bool).

(** The variables that are bound, with their static types. *)
Abbreviation vars := (gmap nat (ty * loc)).

Definition is_scalar (v : val) (p : prim) (z : Z) : bool :=
  match v with VPrim p' z' => bool_decide (p' = p ∧ z' = z) | _ => false end.

Section programs.
Context `{Env}.

(** The pointers of a template name variables of their static type; its cells
    name the first [n] new cells. *)
Definition well_named (rs : vars) (n : nat) (v : val) : bool :=
  forallb (λ r, match r with
                | RMark t i => bool_decide (fst <$> rs !! i = Some t)
                | RCell i => bool_decide (i < n)%nat
                end) (owned v).

Definition instantiate (rs : vars) (news : list loc) : val → val :=
  rename (λ i, default 0%nat (snd <$> rs !! i)) (λ i, default 0%nat (news !! i)).

(** What the compiler checks of a template. *)
Definition typechecks (rs : vars) (n : nat) (t : ty) (v : val) : bool :=
  has_type v t && well_named rs n v.

Section machine.
Context {W : Type} `{!Machine W}.
Open Scope gc_scope.

(** A program that the compiler rejects, or a place that an object does not
    have. *)
Definition expect {A} (o : option A) : prog W A :=
  match o with Some a => Ret a | None => throw IllTyped end.

Definition assure (b : bool) : prog W unit := if b then Ret tt else throw IllTyped.

Fixpoint new_cells (rs : vars) (cs : list (ty * val)) : prog W (list loc) :=
  match cs with
  | [] => Ret []
  | (t, v) :: cs =>
      assure (is_copy t && typechecks rs 0 t v);;
      c ← m_cell_new (instantiate rs [] v);
      l ← new_cells rs cs;
      Ret (c :: l)
  end.

Fixpoint get_cells (cs : list loc) : prog W (list val) :=
  match cs with
  | [] => Ret []
  | c :: cs => v ← m_cell_get c; l ← get_cells cs; Ret (v :: l)
  end.

(** [let x = ...]; a variable is bound once. *)
Definition unbound (rs : vars) (x : nat) : bool := bool_decide (rs !! x = None).

(** The object, or the contents of its [k]-th cell. *)
Definition place (d : val) (k : option nat) : prog W val :=
  match k with
  | None => Ret d
  | Some k => c ← expect (cells_of d !! k); m_cell_get c
  end.

Definition exec_cmd (rs : vars) (c : cmd) : prog W (vars * list seen) :=
  match c with
  | CAlloc x t d cs =>
      assure (unbound rs x);;
      news ← new_cells rs cs;
      assure (typechecks rs (length news) t d);;
      a ← m_alloc t (instantiate rs news d);
      Ret (<[x := (t, a)]> rs, [])
  | CClone x r =>
      assure (unbound rs x);;
      y ← expect (rs !! r);
      a ← m_root y.2;
      Ret (<[x := (y.1, a)]> rs, [])
  | CDrop r =>
      x ← expect (rs !! r);
      m_drop x.2;;
      Ret (delete r rs, [])
  | CFollow x r k n =>
      assure (unbound rs x);;
      y ← expect (rs !! r);
      d ← m_deref y.2;
      v ← place d k;
      z ← expect (marks v !! n);
      a ← m_root z.2;
      Ret (<[x := (z.1, a)]> rs, [])
  | CSet th r k t v =>
      x ← expect (rs !! r);
      d ← m_deref x.2;
      c ← expect (cells_of d !! k);
      assure (is_copy t && typechecks rs 0 t v);;
      m_cell_set th c (instantiate rs [] v);;
      Ret (rs, [])
  | CSee r =>
      x ← expect (rs !! r);
      d ← m_deref x.2;
      vs ← get_cells (cells_of d);
      Ret (rs, [Saw (erase d) (map erase vs)])
  | CSame r r' =>
      x ← expect (rs !! r);
      y ← expect (rs !! r');
      Ret (rs, [Compared (bool_decide (x.2 = y.2))])
  | CAssertEq r p z =>
      x ← expect (rs !! r);
      d ← m_deref x.2;
      if is_scalar d p z then Ret (rs, []) else throw (Panic AssertionFailed)
  | CForceCollect => m_force_collect;; Ret (rs, [])
  | CCollect => m_collect;; Ret (rs, [])
  | CBackground c => m_background c;; Ret (rs, [])
  end.

(** The outputs of a program. *)
Fixpoint exec (p : list cmd) (rs : vars) : prog W (list seen) :=
  match p with
  | [] => Ret []
  | c :: p =>
      x ← exec_cmd rs c;
      out ← exec p x.1;
      Ret (x.2 ++ out)
  end.

(** What a program shows when it starts without roots. *)
Definition shown (p : list cmd) (w : W) : outcome unit (list seen) :=
  match run (exec p ∅) w with
  | Done out _ => Done out tt
  | Blocked => Blocked
  | Fault e => Fault e
  | NoFuel => NoFuel
  end.

End machine.

(** The bytes that a program allocates. *)
Definition cmd_demand (c : cmd) : Z :=
  match c with CAlloc _ t _ _ => layout_size t | _ => 0 end.

Definition demand (p : list cmd) : Z := foldr (λ c n, cmd_demand c + n) 0 p.

(** The program without its collections. *)
Definition is_request (c : cmd) : bool :=
  match c with CForceCollect | CCollect | CBackground _ => true | _ => false end.

Definition unprompted (p : list cmd) : list cmd := List.filter (λ c, negb (is_request c)) p.

(** ** Lemmas on renaming *)

Lemma rename_owned f g v : owned (rename f g v) = map (rename_req f g) (owned v).
Proof.
  assert (∀ vs, Forall (λ v, owned (rename f g v) = map (rename_req f g) (owned v)) vs →
    flat_map owned (map (rename f g) vs) = map (rename_req f g) (flat_map owned vs)) as Hmap.
  { induction 1 as [|x vs Hx _ IH]; cbn; [done|]. by rewrite map_app, Hx, IH. }
  induction v as [| |k vs IH|k kvs IH| | | | |vs IH| | |u vs IH] using val_nested_ind;
    cbn [rename owned]; auto.
  induction IH as [|[x y] kvs [Hx Hy] _ IH]; cbn in *; [done|].
  by rewrite !map_app, Hx, Hy, IH.
Qed.

Lemma rename_rename f g f' g' v : rename f' g' (rename f g v) = rename (λ a, f' (f a)) (λ c, g' (g c)) v.
Proof.
  assert (∀ vs, Forall (λ v, rename f' g' (rename f g v) = rename (λ a, f' (f a)) (λ c, g' (g c)) v) vs →
    map (rename f' g') (map (rename f g) vs) = map (rename (λ a, f' (f a)) (λ c, g' (g c))) vs) as Hmap.
  { induction 1 as [|x vs Hx _ IH]; cbn; [done|]. by rewrite Hx, IH. }
  induction v as [| |k vs IH|k kvs IH| | | | |vs IH| | |u vs IH] using val_nested_ind;
    cbn [rename]; try f_equal; auto.
  induction IH as [|[x y] kvs [Hx Hy] _ IH]; cbn in *; [done|]. by rewrite Hx, Hy, IH.
Qed.

Lemma erase_rename f g v : erase (rename f g v) = erase v.
Proof. apply rename_rename. Qed.

Lemma rename_has_type f g v t : has_type (rename f g v) t = has_type v t.
Proof.
  assert (∀ vs t, Forall (λ v, ∀ t, has_type (rename f g v) t = has_type v t) vs →
    forallb (λ v, has_type v t) (map (rename f g) vs) = forallb (λ v, has_type v t) vs) as Hmap.
  { intros vs t'. induction 1 as [|x vs Hx _ IH]; cbn; [done|]. by rewrite Hx, IH. }
  revert t. induction v as [| |k vs IH|k kvs IH| | | | |vs IH| | |u vs IH] using val_nested_ind;
    intros []; cbn [rename has_type]; try done; try (by f_equal; auto).
  - f_equal. induction IH as [|[x y] kvs [Hx Hy] _ IH]; cbn in *; [done|]. by rewrite Hx, Hy, IH.
  - rewrite length_map. f_equal. auto.
  - f_equal. generalize (user_fields u). clear Hmap.
    induction IH as [|x vs Hx _ IH]; intros []; cbn; try done. by rewrite Hx, IH.
Qed.

Lemma erase_has_type v v' t : erase v = erase v' → has_type v t = has_type v' t.
Proof.
  intros He. unfold erase in He.
  by rewrite <- (rename_has_type (λ _, 0%nat) (λ _, 0%nat) v), He, rename_has_type.
Qed.

(** The requests allocate nothing. *)
Lemma unprompted_demand p : demand (unprompted p) = demand p.
Proof.
  induction p as [|c p IH]; [done|]. change (demand (c :: p)) with (cmd_demand c + demand p).
  rewrite <- IH. by destruct c.
Qed.

(** The arena ignores requests for collections. *)
Lemma arena_unprompted p rs s :
  run (exec (W := arena) (unprompted p) rs) s = run (exec p rs) s.
Proof.
  revert rs s. induction p as [|c p IH]; intros rs s; [done|].
  assert (run (exec (c :: unprompted p) rs) s = run (exec (c :: p) rs) s) as Hc.
  { cbn [exec]. rewrite !run_bind. destruct (run (exec_cmd rs c) s) as [[rs' out] s'| | |]; [|done..].
    rewrite !run_bind. cbn. by rewrite IH. }
  assert (run (exec p rs) s = run (out ← exec p rs; Ret ([] ++ out))%gc s) as Hskip.
  { rewrite run_bind. by destruct (run (exec p rs) s). }
  destruct c; try exact Hc; change (unprompted (_ :: p)) with (unprompted p); by rewrite IH, Hskip.
Qed.

End programs.
