(* ===== verification/Transparency.v ===== *)
(** * Collections are invisible

    A client program shows the same on every implementation of the client
    interface as on the arena, which never frees: the same contents, the same
    identities of objects, and it is accepted or rejected alike.  The two machines
    run in a simulation.  Its relation pairs the addresses of the two for the
    objects that the client can still reach; an allocation extends it, also when
    the heap reuses the address of a freed object, and a collection cuts it down to
    the reachable objects. *)

From stdpp Require Import relations.
From S2P Require Import Prelude Prog TraceImpls Graph Interface Session ClientPrograms.
Open Scope Z_scope.

Lemma Forall2_impl_elem {A B} (R S : A → B → Prop) l k :
  Forall2 R l k → (∀ x y, x ∈ l → R x y → S x y) → Forall2 S l k.
Proof.
  induction 1 as [|x y l k HR _ IH]; intros HS; constructor.
  - apply HS; [by left|done].
  - apply IH. intros x' y' Hx. apply HS. by right.
Qed.

Lemma Forall2_elem {A B} (R : A → B → Prop) l k x :
  Forall2 R l k → x ∈ l → ∃ y, y ∈ k ∧ R x y.
Proof.
  intros HR Hx. induction HR as [|x' y' l k HR _ IH]; [by apply elem_of_nil in Hx|].
  apply elem_of_cons in Hx as [->|Hx]; [exists y'; split; [by left|done]|].
  destruct (IH Hx) as (y & ? & ?). exists y. split; [by right|done].
Qed.

(** ** The relation *)

Abbreviation objs_rel := (ty → loc → loc → Prop).
Abbreviation cells_rel := (loc → loc → Prop).

Definition no_cell : cells_rel := λ _ _, False.

Definition req_rel (ρ : objs_rel) (σ : cells_rel) (r r' : treq) : Prop :=
  match r, r' with
  | RMark t a, RMark t' a' => t = t' ∧ ρ t a a'
  | RCell c, RCell c' => σ c c'
  | _, _ => False
  end.

(** Values that are equal up to related addresses. *)
Record val_rel (ρ : objs_rel) (σ : cells_rel) (v v' : val) : Prop := {
  vr_erase : erase v = erase v';
  vr_owned : Forall2 (req_rel ρ σ) (owned v) (owned v');
}.

Definition ptr_rel (ρ : objs_rel) (x y : ty * loc) : Prop := x.1 = y.1 ∧ ρ x.1 x.2 y.2.

Record related (ρ : objs_rel) (σ : cells_rel) (G : graph) (s : arena) : Prop := {
  rel_obj t a a' : ρ t a a' → ∃ o d', objs G !! a = Some o ∧ ob_ty o = t ∧
    ar_objs s !! a' = Some (t, d') ∧ val_rel ρ σ (ob_data o) d';
  rel_cell c c' : σ c c' → ∃ v v', gcells G !! c = Some v ∧ ar_cells s !! c' = Some v' ∧
    val_rel ρ no_cell v v';
  rel_obj_inj t a a' u b b' : ρ t a a' → ρ u b b' → a = b ↔ a' = b';
  rel_cell_inj c c' e e' : σ c c' → σ e e' → c = e ↔ c' = e';
}.

(** ** Related values *)

Section values.
Context `{Env}.
Implicit Types (ρ : objs_rel) (σ : cells_rel) (v : val).

Lemma val_rel_sub ρ σ ρ' σ' v v' :
  val_rel ρ σ v v' →
  (∀ t a a', RMark t a ∈ owned v → ρ t a a' → ρ' t a a') →
  (∀ c c', RCell c ∈ owned v → σ c c' → σ' c c') → val_rel ρ' σ' v v'.
Proof.
  intros [He Ho] Hm Hc. split; [done|]. eapply Forall2_impl_elem; [exact Ho|].
  intros [] [] Hin; cbn; try done; [|by apply Hc]. intros [-> ?]. split; [done|by apply Hm].
Qed.

Lemma val_rel_mono ρ σ ρ' σ' v v' :
  val_rel ρ σ v v' → (∀ t a a', ρ t a a' → ρ' t a a') → (∀ c c', σ c c' → σ' c c') →
  val_rel ρ' σ' v v'.
Proof. intros Hv ??. by eapply val_rel_sub; eauto. Qed.

Lemma val_rel_no_cell ρ σ v v' : val_rel ρ no_cell v v' → val_rel ρ σ v v'.
Proof. intros Hv. by eapply val_rel_mono. Qed.

Lemma marks_rel ρ σ v v' : val_rel ρ σ v v' → Forall2 (ptr_rel ρ) (marks v) (marks v').
Proof.
  intros [_ Ho]. unfold marks. induction Ho as [|[] [] l k Hr _ IH]; cbn in *; try done.
  by constructor.
Qed.

Lemma cells_of_rel ρ σ v v' : val_rel ρ σ v v' → Forall2 σ (cells_of v) (cells_of v').
Proof.
  intros [_ Ho]. unfold cells_of. induction Ho as [|[] [] l k Hr _ IH]; cbn in *; try done.
  by constructor.
Qed.

Lemma elem_of_marks v t a : (t, a) ∈ marks v ↔ RMark t a ∈ owned v.
Proof.
  unfold marks. rewrite list_elem_of_omap. split.
  - intros ([] & ? & ?); by simplify_eq.
  - intros Hin. by exists (RMark t a).
Qed.

Lemma elem_of_cells_of v c : c ∈ cells_of v ↔ RCell c ∈ owned v.
Proof.
  unfold cells_of. rewrite list_elem_of_omap. split.
  - intros ([] & ? & ?); by simplify_eq.
  - intros Hin. by exists (RCell c).
Qed.

(** Related values are well formed on the left. *)
Lemma related_wf_val ρ σ G s v v' : related ρ σ G s → val_rel ρ σ v v' → wf_val G v.
Proof.
  intros HR [_ Ho]. split.
  - intros t a [Hin|c v0 Hin Hc Hin0].
    + destruct (Forall2_elem _ _ _ _ Ho Hin) as ([] & _ & Hr); cbn in Hr; [|done].
      destruct Hr as [-> Hr]. destruct (rel_obj _ _ _ _ HR _ _ _ Hr) as (o & ? & ? & ? & _). by exists o.
    + destruct (Forall2_elem _ _ _ _ Ho Hin) as ([] & _ & Hr); cbn in Hr; [done|].
      destruct (rel_cell _ _ _ _ HR _ _ Hr) as (v1 & v1' & Hv1 & _ & [_ Ho1]).
      assert (v1 = v0) as -> by congruence.
      destruct (Forall2_elem _ _ _ _ Ho1 Hin0) as ([] & _ & Hr0); cbn in Hr0; [|done].
      destruct Hr0 as [-> Hr0]. destruct (rel_obj _ _ _ _ HR _ _ _ Hr0) as (o & ? & ? & ? & _). by exists o.
  - intros c Hin. destruct (Forall2_elem _ _ _ _ Ho Hin) as ([] & _ & Hr); cbn in Hr; [done|].
    destruct (rel_cell _ _ _ _ HR _ _ Hr) as (v1 & _ & Hv1 & _). by exists v1.
Qed.

(** ** Related templates *)

(** The same variables are bound, to related objects. *)
Definition vars_rel ρ (rs rs' : vars) : Prop := ∀ r, option_Forall2 (ptr_rel ρ) (rs !! r) (rs' !! r).

Lemma vars_rel_type ρ rs rs' r : vars_rel ρ rs rs' → fst <$> rs !! r = fst <$> rs' !! r.
Proof. intros Hrs. destruct (Hrs r) as [x y [Hxy _]|]; cbn; [by rewrite Hxy|done]. Qed.

Lemma vars_rel_unbound ρ rs rs' x : vars_rel ρ rs rs' → unbound rs x = unbound rs' x.
Proof. intros Hrs. unfold unbound. by destruct (Hrs x). Qed.

Lemma vars_rel_insert ρ rs rs' x y y' :
  vars_rel ρ rs rs' → ptr_rel ρ y y' → vars_rel ρ (<[x := y]> rs) (<[x := y']> rs').
Proof.
  intros Hrs Hy r. destruct (decide (x = r)) as [<-|].
  - rewrite !lookup_insert_eq. by constructor.
  - by rewrite !lookup_insert_ne.
Qed.

Lemma vars_rel_delete ρ rs rs' x : vars_rel ρ rs rs' → vars_rel ρ (delete x rs) (delete x rs').
Proof.
  intros Hrs r. destruct (decide (x = r)) as [<-|].
  - rewrite !lookup_delete_eq. constructor.
  - by rewrite !lookup_delete_ne.
Qed.

Lemma vars_rel_mono ρ ρ' rs rs' :
  vars_rel ρ rs rs' →
  (∀ r x x', rs !! r = Some x → ρ x.1 x.2 x' → ρ' x.1 x.2 x') → vars_rel ρ' rs rs'.
Proof.
  intros Hrs Hsub r. specialize (Hsub r). destruct (Hrs r) as [x y [Hxy Hx]|]; [|by constructor].
  constructor. split; [done|]. by apply Hsub.
Qed.

Lemma well_named_rel ρ rs rs' n v :
  vars_rel ρ rs rs' → well_named rs n v = well_named rs' n v.
Proof.
  intros Hrs. unfold well_named. induction (owned v) as [|[t i|i] l IH]; cbn;
    rewrite ?IH; [done| |done].
  by rewrite (vars_rel_type ρ rs rs' i).
Qed.

Lemma typechecks_rel ρ rs rs' n t v :
  vars_rel ρ rs rs' → typechecks rs n t v = typechecks rs' n t v.
Proof. intros Hrs. unfold typechecks. by erewrite well_named_rel. Qed.

Lemma instantiate_rel ρ σ rs rs' news news' v :
  vars_rel ρ rs rs' → Forall2 σ news news' → well_named rs (length news) v = true →
  val_rel ρ σ (instantiate rs news v) (instantiate rs' news' v).
Proof.
  intros Hrs Hnews Hv. unfold instantiate. split; [by rewrite !erase_rename|].
  rewrite !rename_owned. unfold well_named in Hv. apply forallb_Forall in Hv.
  induction Hv as [|[t i|i] l Hi _ IH]; cbn; [done| |]; apply Is_true_true, bool_decide_eq_true in Hi;
    (constructor; [cbn|exact IH]).
  - destruct (Hrs i) as [x y Hxy|]; [|done].
    destruct x as [u a], y as [u' a'], Hxy; cbn in *. by simplify_eq.
  - destruct (lookup_lt_is_Some_2 _ _ Hi) as [c Hc].
    destruct (Forall2_lookup_l _ _ _ _ _ Hnews Hc) as (c' & Hc' & ?). by rewrite Hc, Hc'.
Qed.

Lemma instantiate_type rs news v t : has_type (instantiate rs news v) t = has_type v t.
Proof. apply rename_has_type. Qed.

End values.

(** ** The operations on graphs keep the relation *)

Section graphs.
Context `{Env}.
Implicit Types (ρ : objs_rel) (σ : cells_rel).

(** A root count is not part of it. *)
Lemma related_roots ρ σ G s a f : related ρ σ G s → related ρ σ (g_roots G a f) s.
Proof.
  intros [Ho Hc Hi Hj]. split; [|done..]. intros t b b' Hb.
  destruct (Ho _ _ _ Hb) as (o & d' & Hob & <- & Hb' & Hd). eexists _, d'.
  rewrite g_roots_lookup. by split; [by eexists|].
Qed.

Definition add_obj ρ (t : ty) (a a' : loc) : objs_rel :=
  λ u b b', ρ u b b' ∨ (u = t ∧ b = a ∧ b' = a').

Definition add_cell σ (c c' : loc) : cells_rel := λ e e', σ e e' ∨ (e = c ∧ e' = c').

Lemma related_alloc ρ σ G s a t n d d' :
  related ρ σ G s → objs G !! a = None → val_rel ρ σ d d' →
  related (add_obj ρ t a (length (ar_objs s))) σ (g_alloc G a (mkObj t n d))
    (mkArena (ar_objs s ++ [(t, d')]) (ar_cells s)).
Proof.
  intros [Ho Hc Hi Hj] Ha Hd.
  assert (∀ u b b', ρ u b b' → b ≠ a ∧ (b' < length (ar_objs s))%nat) as Hold.
  { intros u b b' Hb. destruct (Ho _ _ _ Hb) as (o & ? & Hob & _ & Hb' & _).
    split; [congruence|by eapply lookup_lt_Some]. }
  split; [..|done].
  - intros u b b' [Hb|(-> & -> & ->)].
    + destruct (Ho _ _ _ Hb) as (o & e' & Hob & <- & Hb' & He). exists o, e'. cbn.
      destruct (Hold _ _ _ Hb). rewrite lookup_insert_ne, lookup_app_l by done.
      split_and!; try done. eapply val_rel_mono; [exact He|by left|done].
    + eexists _, d'. cbn. rewrite lookup_insert_eq, list_lookup_middle by done.
      split_and!; try done. eapply val_rel_mono; [exact Hd|by left|done].
  - intros c c' Hcc. destruct (Hc _ _ Hcc) as (v & v' & ? & ? & Hv). exists v, v'.
    split_and!; try done. eapply val_rel_mono; [exact Hv|by left|done].
  - intros u b b' u2 e e' [Hb|(-> & -> & ->)] [He|(-> & -> & ->)].
    + by eapply Hi.
    + destruct (Hold _ _ _ Hb). split; [done|lia].
    + destruct (Hold _ _ _ He). split; [done|lia].
    + done.
Qed.

Lemma related_cell_new ρ σ G s c v v' :
  related ρ σ G s → gcells G !! c = None → val_rel ρ no_cell v v' →
  related ρ (add_cell σ c (length (ar_cells s))) (g_set G c v)
    (mkArena (ar_objs s) (ar_cells s ++ [v'])).
Proof.
  intros [Ho Hc Hi Hj] Hcn Hv.
  assert (∀ e e', σ e e' → e ≠ c ∧ (e' < length (ar_cells s))%nat) as Hold.
  { intros e e' He. destruct (Hc _ _ He) as (u & ? & Hu & He' & _).
    split; [congruence|by eapply lookup_lt_Some]. }
  split; [| |done|].
  - intros t b b' Hb. destruct (Ho _ _ _ Hb) as (o & d' & ? & ? & ? & Hd). exists o, d'.
    split_and!; try done. eapply val_rel_mono; [exact Hd|done|by left].
  - intros e e' [He|[-> ->]]; cbn.
    + destruct (Hc _ _ He) as (u & u' & ? & ? & ?), (Hold _ _ He). exists u, u'.
      by rewrite lookup_insert_ne, lookup_app_l by done.
    + exists v, v'. by rewrite lookup_insert_eq, list_lookup_middle by done.
  - intros b b' e e' [Hb|[-> ->]] [He|[-> ->]].
    + by eapply Hj.
    + destruct (Hold _ _ Hb). split; [done|lia].
    + destruct (Hold _ _ He). split; [done|lia].
    + done.
Qed.

Lemma related_cell_set ρ σ G s c c' v v' :
  related ρ σ G s → σ c c' → val_rel ρ no_cell v v' →
  related ρ σ (g_set G c v) (mkArena (ar_objs s) (<[c' := v']> (ar_cells s))).
Proof.
  intros [Ho Hc Hi Hj] Hcc Hv. split; [done| |done|done].
  intros e e' He. cbn. destruct (decide (e = c)) as [->|Hne].
  - assert (e' = c') as -> by (by apply (Hj c e' c c')). exists v, v'.
    destruct (Hc _ _ Hcc) as (? & ? & _ & ?%lookup_lt_Some & _).
    by rewrite lookup_insert_eq, list_lookup_insert_eq.
  - assert (e' ≠ c') as Hne' by (intros ->; by apply Hne, (Hj e c' c c')).
    destruct (Hc _ _ He) as (u & u' & ? & ? & ?). exists u, u'.
    by rewrite lookup_insert_ne, list_lookup_insert_ne by done.
Qed.

(** A collection cuts the relation down to the reachable objects and the cells
    that they own. *)
Lemma related_collected ρ σ G G' s :
  collected G G' → related ρ σ G s →
  related (λ t a a', ρ t a a' ∧ reachable G a)
    (λ c c', σ c c' ∧ ∃ a o, reachable G a ∧ objs G !! a = Some o ∧ RCell c ∈ owned (ob_data o))
    G' s.
Proof.
  intros [Hcells Hobjs] [Ho Hc Hi Hj]. split.
  - intros t a a' [Ha Hr]. destruct (Ho _ _ _ Ha) as (o & d' & Hoa & <- & Ha' & Hd).
    exists o, d'. split_and!; try done; [by apply Hobjs|].
    eapply val_rel_sub; [exact Hd|..].
    + intros t b b' Hin Hb. split; [done|]. eapply reachable_edge; [exact Hr|].
      exists o, t. split; [done|by apply points_here].
    + intros c c' Hin Hcc. split; [done|]. by exists a, o.
  - intros c c' (Hcc & a & o & Hr & Hoa & Hin).
    destruct (Hc _ _ Hcc) as (v & v' & Hv & Hv' & Hvv). exists v, v'. rewrite Hcells.
    split_and!; try done. eapply val_rel_sub; [exact Hvv| |done].
    intros t b b' Hinb Hb. split; [done|]. eapply reachable_edge; [exact Hr|].
    exists o, t. split; [done|by eapply points_cell].
  - intros t a a' u b b' [? _] [? _]. by eapply Hi.
  - intros c c' e e' [? _] [? _]. by eapply Hj.
Qed.

End graphs.

(** ** Room for what a program allocates *)

(** [room n w]: [n] more bytes fit, so that no allocation or collection until
    then overflows. *)
Class CollectorRoom (W : Type) `{Env, !Collector W} := {
  room : Z → W → Prop;
  room_can_alloc n w t : ready w → room n w → layout_size t ≤ n → can_alloc t w;
  room_can_collect n w : ready w → room n w → 0 ≤ n → can_collect w;
  room_alloc n w t d a w' :
    ready w → room n w → op_alloc t d w = Done a w' → room (n - layout_size t) w';
  room_root n w a b w' :
    is_Some (objs (view w) !! a) → room n w → op_root a w = Done b w' → room n w';
  room_drop n w a w' :
    is_Some (objs (view w) !! a) → room n w → op_drop a w = Done tt w' → room n w';
  room_cell_new n w v c w' : ready w → room n w → op_cell_new v w = Done c w' → room n w';
  room_cell_set n w th c v w' :
    ready w → is_Some (gcells (view w) !! c) → room n w →
    op_cell_set th c v w = Done tt w' → room n w';
  room_force_collect n w k w' :
    ready w → can_collect w → 0 ≤ n → room n w → op_force_collect w = Done k w' → room n w';
  room_collect n w w' :
    ready w → can_collect w → 0 ≤ n → room n w → op_collect w = Done tt w' → room n w';
  room_background n w c w' :
    ready w → can_collect w → 0 ≤ n → room n w → op_background c w = Done tt w' → room n w';
}.

(** ** Two machines side by side *)

(** Both fail alike (they reject the program, or they panic), or both complete in
    states of [Q]. *)
Definition sim {W W' A A'} (p : prog W A) (p' : prog W' A') (Q : A → W → A' → W' → Prop)
    (w : W) (w' : W') : Prop :=
  match run p w, run p' w' with
  | Done x w1, Done x' w1' => Q x w1 x' w1'
  | Fault e, Fault e' => e = e'
  | _, _ => False
  end.

Section sim.
Context {W W' : Type}.

Lemma sim_bind {A A' B B'} (p : prog W A) (p' : prog W' A') (k : A → prog W B) (k' : A' → prog W' B')
    (P : A → W → A' → W' → Prop) (Q : B → W → B' → W' → Prop) (w : W) (w' : W') :
  sim p p' P w w' → (∀ x w1 x' w1', P x w1 x' w1' → sim (k x) (k' x') Q w1 w1') →
  sim (bind p k) (bind p' k') Q w w'.
Proof.
  unfold sim. intros Hp Hk. rewrite !run_bind.
  destruct (run p w) as [x w1| |e|], (run p' w') as [x' w1'| |e'|]; try done. by apply Hk.
Qed.

Lemma sim_done {A A'} (p : prog W A) (p' : prog W' A') (Q : A → W → A' → W' → Prop)
    (w : W) (w' : W') x x' w1 w1' :
  run p w = Done x w1 → run p' w' = Done x' w1' → Q x w1 x' w1' → sim p p' Q w w'.
Proof. unfold sim. by intros -> ->. Qed.

Lemma sim_expect {A A'} (R : A → A' → Prop) (o : option A) (o' : option A') (w : W) (w' : W') :
  option_Forall2 R o o' →
  sim (expect o) (expect o') (λ x w1 x' w1', w1 = w ∧ w1' = w' ∧ o = Some x ∧ o' = Some x' ∧ R x x') w w'.
Proof. by destruct 1. Qed.

Lemma sim_assure (b b' : bool) (w : W) (w' : W') :
  b = b' → sim (assure b) (assure b') (λ _ w1 _ w1', w1 = w ∧ w1' = w' ∧ b = true) w w'.
Proof. intros <-. by destruct b. Qed.

Lemma sim_mono {A A'} (p : prog W A) (p' : prog W' A') (P Q : A → W → A' → W' → Prop) (w : W) (w' : W') :
  sim p p' P w w' → (∀ x w1 x' w1', P x w1 x' w1' → Q x w1 x' w1') → sim p p' Q w w'.
Proof.
  unfold sim. intros Hp HPQ. destruct (run p w) as [x w1| |e|], (run p' w') as [x' w1'| |e'|]; auto.
Qed.

End sim.

Lemma arena_deref s a t d : ar_objs s !! a = Some (t, d) → run (action (ar_deref a)) s = Done d s.
Proof. intros Ha. cbn. unfold ar_deref. by rewrite Ha. Qed.

Lemma arena_drop s a t d :
  ar_objs s !! a = Some (t, d) → run (m_drop (W := arena) a) s = Done tt s.
Proof. intros Ha. cbn [m_drop arena_machine]. by rewrite run_bind, (arena_deref _ _ _ _ Ha). Qed.

Section transparency.
Context {W : Type} `{Env} `{!TraceContract} `{!Collector W} `{!CollectorLaws W} `{!CollectorRoom W}.
Implicit Types (ρ : objs_rel) (σ : cells_rel) (w : W) (s : arena) (rs : vars).

(** The [GcRoot]s that the variables hold. *)
Definition handles (rs : vars) : list loc := (map_to_list rs).*2.*2.

Lemma handles_insert rs x t a : rs !! x = None → handles (<[x := (t, a)]> rs) ≡ₚ a :: handles rs.
Proof. intros Hx. unfold handles. by rewrite (map_to_list_insert _ _ _ Hx). Qed.

Lemma handles_delete rs x y : rs !! x = Some y → handles rs ≡ₚ y.2 :: handles (delete x rs).
Proof. intros Hx. unfold handles. by rewrite <- (map_to_list_delete _ _ _ Hx). Qed.

Lemma handles_elem rs x y : rs !! x = Some y → y.2 ∈ handles rs.
Proof. intros Hx. rewrite (handles_delete _ _ _ Hx). by left. Qed.

Lemma handles_length rs : length (handles rs) = size rs.
Proof. unfold handles. by rewrite !length_fmap, length_map_to_list. Qed.

(** The states of the two machines, the client having the variables [rs] on the one
    and [rs'] on the other; [n] more bytes fit. *)
Record matching ρ σ (n : Z) w rs s rs' : Prop := {
  mt_inv : inv (w, handles rs);
  mt_room : room n w;
  mt_related : related ρ σ (view w) s;
  mt_regs : vars_rel ρ rs rs';
}.

Lemma mt_ready ρ σ n w rs s rs' : matching ρ σ n w rs s rs' → ready w.
Proof. intros HM. apply (mt_inv _ _ _ _ _ _ _ HM). Qed.

(** What a related variable leads to. *)
Lemma mt_obj ρ σ n w rs s rs' t a a' :
  matching ρ σ n w rs s rs' → ρ t a a' → ∃ o d', objs (view w) !! a = Some o ∧ ob_ty o = t ∧
    ar_objs s !! a' = Some (t, d') ∧ val_rel ρ σ (ob_data o) d'.
Proof. intros HM. apply (mt_related _ _ _ _ _ _ _ HM). Qed.

Lemma mt_reg ρ σ n w rs s rs' r :
  matching ρ σ n w rs s rs' → option_Forall2 (ptr_rel ρ) (rs !! r) (rs' !! r).
Proof. intros HM. apply HM. Qed.

Lemma mt_reg_reachable ρ σ n w rs s rs' r x :
  matching ρ σ n w rs s rs' → rs !! r = Some x → reachable (view w) x.2.
Proof.
  intros [[_ Hc] _ _ _] Hx. apply reachable_rooted. apply (counts_handle _ _ _ Hc).
  by eapply handles_elem.
Qed.

(** ** The operations *)

Lemma sim_root ρ σ n w rs s rs' x t a a' :
  matching ρ σ n w rs s rs' → rs !! x = None → ρ t a a' → reachable (view w) a →
  Z.of_nat (size rs) < usize_max →
  sim (m_root a) (m_root a')
    (λ b w1 b' s1, matching ρ σ n w1 (<[x := (t, b)]> rs) s1 (<[x := (t, b')]> rs')) w s.
Proof.
  intros HM Hx Ha Hr Hlen. destruct (mt_obj _ _ _ _ _ _ _ _ _ _ HM Ha) as (o & d' & Ho & _ & Ha' & _).
  destruct HM as [Hinv Hroom HR Hregs]. pose proof Hinv as [Hready Hc]. cbn in Hready, Hc.
  pose proof (Hc a) as Hca. rewrite Ho in Hca. pose proof (handle_count_le (handles rs) a) as Hle.
  rewrite handles_length in Hle.
  destruct (law_root w a o) as (w1 & Hop & Hready1 & Hview); [done..|lia|].
  eapply (sim_done _ _ _ _ _ a a' w1 s); cbn; [by rewrite Hop|by rewrite run_bind, (arena_deref _ _ _ _ Ha')|].
  split.
  - eapply inv_perm; [|symmetry; by apply handles_insert].
    eapply step_inv; [|exact Hinv]. eapply (step_root w _ a); [done| |done]. by rewrite handles_length.
  - eapply (room_root (W := W)); [by exists o|done|done].
  - rewrite Hview. by apply related_roots.
  - by apply vars_rel_insert.
Qed.

Lemma sim_drop ρ σ n w rs s rs' r x x' :
  matching ρ σ n w rs s rs' → rs !! r = Some x → rs' !! r = Some x' → ptr_rel ρ x x' →
  sim (m_drop x.2) (m_drop x'.2) (λ _ w1 _ s1, matching ρ σ n w1 (delete r rs) s1 (delete r rs')) w s.
Proof.
  intros HM Hx Hx' [_ Ha]. destruct (mt_obj _ _ _ _ _ _ _ _ _ _ HM Ha) as (o & d' & Ho & _ & Ha' & _).
  destruct HM as [Hinv Hroom HR Hregs]. pose proof Hinv as [Hready Hc]. cbn in Hready, Hc.
  pose proof (handles_elem _ _ _ Hx) as Hin.
  destruct (counts_handle _ _ _ Hc Hin) as (o1 & Ho1 & Hpos).
  destruct (law_drop w x.2 o1) as (w1 & Hop & Hready1 & Hview); [done..|].
  eapply (sim_done _ _ _ _ _ tt tt w1 s); cbn; [by rewrite Hop|by rewrite run_bind, (arena_deref _ _ _ _ Ha')|].
  split.
  - eapply step_inv; [|exact Hinv]. eapply (step_drop w _ _ x.2); [|done].
    by apply handles_delete.
  - eapply (room_drop (W := W)); [by exists o|done|done].
  - rewrite Hview. by apply related_roots.
  - by apply vars_rel_delete.
Qed.

Lemma sim_deref ρ σ n w rs s rs' t a a' :
  matching ρ σ n w rs s rs' → ρ t a a' →
  sim (m_deref a) (m_deref a')
    (λ d w1 d' s1, w1 = w ∧ s1 = s ∧ val_rel ρ σ d d' ∧
       ∃ o, objs (view w) !! a = Some o ∧ ob_data o = d) w s.
Proof.
  intros HM Ha. destruct (mt_obj _ _ _ _ _ _ _ _ _ _ HM Ha) as (o & d' & Ho & _ & Ha' & Hd).
  eapply (sim_done _ _ _ _ _ (ob_data o) d' w s); cbn.
  - by rewrite (law_deref w a o).
  - exact (arena_deref _ _ _ _ Ha').
  - split_and!; try done. by exists o.
Qed.

Lemma sim_cell_get ρ σ n w rs s rs' c c' :
  matching ρ σ n w rs s rs' → σ c c' →
  sim (m_cell_get c) (m_cell_get c')
    (λ v w1 v' s1, w1 = w ∧ s1 = s ∧ val_rel ρ no_cell v v' ∧ gcells (view w) !! c = Some v) w s.
Proof.
  intros HM Hc. destruct (rel_cell _ _ _ _ (mt_related _ _ _ _ _ _ _ HM) _ _ Hc) as (v & v' & Hv & Hv' & Hr).
  eapply (sim_done _ _ _ _ _ v v' w s); cbn; [by rewrite (law_cell_get w c v)|by rewrite Hv'|done].
Qed.

Lemma sim_cell_set ρ σ n w rs s rs' th c c' t v v' :
  matching ρ σ n w rs s rs' → σ c c' → is_copy t = true → has_type v t = true → val_rel ρ no_cell v v' →
  sim (m_cell_set th c v) (m_cell_set th c' v') (λ _ w1 _ s1, matching ρ σ n w1 rs s1 rs') w s.
Proof.
  intros [Hinv Hroom HR Hregs] Hc Hcopy Hty Hv. pose proof (proj1 Hinv) as Hready. cbn in Hready.
  destruct (rel_cell _ _ _ _ HR _ _ Hc) as (u & u' & Hu & Hu' & _).
  assert (is_Some (gcells (view w) !! c)) as Hsome by by exists u.
  pose proof (related_wf_val _ _ _ _ _ _ HR (val_rel_no_cell _ σ _ _ Hv)) as Hwf.
  destruct (law_cell_set w th c v t) as (w1 & Hop & Hready1 & Hview); [done..|].
  eapply (sim_done _ _ _ _ _ tt tt w1); cbn; [by rewrite Hop|by rewrite Hu'|].
  split; [|by eapply (room_cell_set n w th c v)|rewrite Hview; by apply related_cell_set|done].
  eapply step_inv; [|exact Hinv]. by eapply (step_cell_set w _ th c v t).
Qed.

Lemma sim_cell_new ρ σ n w rs s rs' t v v' :
  matching ρ σ n w rs s rs' → is_copy t = true → has_type v t = true → val_rel ρ no_cell v v' →
  sim (m_cell_new v) (m_cell_new v')
    (λ c w1 c' s1, matching ρ (add_cell σ c c') n w1 rs s1 rs') w s.
Proof.
  intros [Hinv Hroom HR Hregs] Hcopy Hty Hv. pose proof (proj1 Hinv) as Hready. cbn in Hready.
  destruct (law_cell_new w v t) as (c & w1 & Hop & Hready1 & Hfresh & Hview); [done..|].
  eapply (sim_done _ _ _ _ _ c _ w1); cbn; [by rewrite Hop|done|].
  split; [|by eapply (room_cell_new n w v c)|rewrite Hview; by apply related_cell_new|done].
  eapply step_inv; [|exact Hinv]. by eapply (step_cell_new w _ v t c).
Qed.

Lemma sim_alloc ρ σ n w rs s rs' x t d d' :
  matching ρ σ n w rs s rs' → rs !! x = None → has_type d t = true → val_rel ρ σ d d' → layout_size t ≤ n →
  sim (m_alloc t d) (m_alloc t d')
    (λ a w1 a' s1, matching (add_obj ρ t a a') σ (n - layout_size t) w1
       (<[x := (t, a)]> rs) s1 (<[x := (t, a')]> rs')) w s.
Proof.
  intros [Hinv Hroom HR Hregs] Hx Hty Hd Hn. pose proof (proj1 Hinv) as Hready. cbn in Hready.
  pose proof (related_wf_val _ _ _ _ _ _ HR Hd) as Hwf.
  pose proof (room_can_alloc _ _ _ Hready Hroom Hn) as Hcan.
  destruct (law_alloc w t d) as (a & w1 & Hop & Hready1 & Hfresh & Hview); [done..|].
  eapply (sim_done _ _ _ _ _ a _ w1); cbn; [by rewrite Hop|done|]. split.
  - eapply inv_perm; [|symmetry; by apply handles_insert].
    eapply step_inv; [|exact Hinv]. by eapply (step_alloc w _ t d a).
  - by eapply (room_alloc n w t d a).
  - rewrite Hview. by apply related_alloc.
  - apply vars_rel_insert; [|split; [done|by right]].
    eapply vars_rel_mono; [exact Hregs|]. by left.
Qed.

(** After a collection. *)
Lemma matching_collected ρ σ n w w' rs s rs' :
  matching ρ σ n w rs s rs' → collected (view w) (view w') → inv (w', handles rs) → room n w' →
  ∃ ρ' σ', matching ρ' σ' n w' rs s rs'.
Proof.
  intros HM Hcol Hinv Hroom. eexists _, _. split; [done|done| |].
  - eapply related_collected; [exact Hcol|apply HM].
  - eapply vars_rel_mono; [apply HM|]. intros r x x' Hx ?. split; [done|]. by eapply mt_reg_reachable.
Qed.

Definition matched n rs rs' : W → arena → Prop := λ w s, ∃ ρ σ, matching ρ σ n w rs s rs'.

Lemma matched_after ρ σ n w w1 rs s rs' :
  matching ρ σ n w rs s rs' → step (w, handles rs) (w1, handles rs) → room n w1 →
  collected (view w) (view w1) ∨ view w1 = view w → matched n rs rs' w1 s.
Proof.
  intros HM Hs Hroom Hcol. pose proof (step_inv _ _ Hs (mt_inv _ _ _ _ _ _ _ HM)) as Hinv.
  destruct Hcol as [Hcol|Hsame]; [by eapply matching_collected|].
  exists ρ, σ. split; [done|done|rewrite Hsame|]; apply HM.
Qed.

Ltac enter_collect HM :=
  pose proof (mt_ready _ _ _ _ _ _ _ HM) as Hready;
  pose proof (mt_room _ _ _ _ _ _ _ HM) as Hroom;
  pose proof (room_can_collect _ _ Hready Hroom ltac:(assumption)) as Hcan.

Lemma sim_force_collect ρ σ n w rs s rs' :
  matching ρ σ n w rs s rs' → 0 ≤ n →
  sim m_force_collect m_force_collect (λ _ w1 _ s1, matched n rs rs' w1 s1) w s.
Proof.
  intros HM Hn. enter_collect HM.
  destruct (law_force_collect w) as (k & w1 & Hop & _ & Hcol); [done..|].
  eapply (sim_done _ _ _ _ _ tt tt w1 s); cbn; [rewrite run_bind; cbn; by rewrite Hop|done|].
  eapply matched_after; [exact HM|by eapply (step_force_collect w)| |by left].
  by eapply (room_force_collect n w k).
Qed.

Lemma sim_collect ρ σ n w rs s rs' :
  matching ρ σ n w rs s rs' → 0 ≤ n →
  sim m_collect m_collect (λ _ w1 _ s1, matched n rs rs' w1 s1) w s.
Proof.
  intros HM Hn. enter_collect HM.
  destruct (law_collect w) as (w1 & Hop & _ & Hcol); [done..|].
  eapply (sim_done _ _ _ _ _ tt tt w1 s); cbn; [by rewrite Hop|done|].
  eapply matched_after; [exact HM|by eapply (step_collect w)| |done].
  by eapply (room_collect n w).
Qed.

Lemma sim_background ρ σ n w rs s rs' c :
  matching ρ σ n w rs s rs' → 0 ≤ n →
  sim (m_background c) (m_background c) (λ _ w1 _ s1, matched n rs rs' w1 s1) w s.
Proof.
  intros HM Hn. enter_collect HM.
  destruct (law_background w c) as (w1 & Hop & _ & Hcol); [done..|].
  eapply (sim_done _ _ _ _ _ tt tt w1 s); cbn; [by rewrite Hop|done|].
  eapply matched_after; [exact HM|by eapply (step_background w _ c)| |done].
  by eapply (room_background n w c).
Qed.

(** ** Commands *)

Lemma sim_new_cells ρ σ n w rs s rs' cs :
  matching ρ σ n w rs s rs' →
  sim (new_cells rs cs) (new_cells rs' cs)
    (λ l w1 l' s1, ∃ σ', matching ρ σ' n w1 rs s1 rs' ∧ Forall2 σ' l l' ∧ ∀ c c', σ c c' → σ' c c') w s.
Proof.
  revert σ w s. induction cs as [|[t v] cs IH]; intros σ w s HM.
  { eapply (sim_done _ _ _ _ _ [] [] w s); [done..|]. by exists σ. }
  pose proof (mt_regs _ _ _ _ _ _ _ HM) as Hrs. cbn [new_cells].
  eapply sim_bind; [by apply sim_assure; f_equal; apply (typechecks_rel ρ)|].
  intros [] ? [] ? (-> & -> & Hv). unfold typechecks in Hv. rewrite !andb_true_iff in Hv.
  destruct Hv as (Hcopy & Hty & Hnames).
  eapply sim_bind; [eapply sim_cell_new; [exact HM|exact Hcopy|by rewrite instantiate_type|]|].
  { by apply (instantiate_rel ρ no_cell _ _ [] [] v Hrs). }
  intros c w1 c' s1 HM1. eapply sim_bind; [exact (IH _ _ _ HM1)|].
  intros l w2 l' s2 (σ' & HM2 & Hl & Hsub). eapply sim_done; [done..|]. exists σ'.
  split; [done|]. split; [constructor; [apply Hsub; by right|done]|]. intros. apply Hsub. by left.
Qed.

Lemma sim_get_cells ρ σ n w rs s rs' l l' :
  matching ρ σ n w rs s rs' → Forall2 σ l l' →
  sim (get_cells l) (get_cells l')
    (λ vs w1 vs' s1, w1 = w ∧ s1 = s ∧ map erase vs = map erase vs') w s.
Proof.
  intros HM. induction 1 as [|c c' l l' Hc _ IH]; [by eapply (sim_done _ _ _ _ _ [] [] w s)|].
  cbn [get_cells]. eapply sim_bind; [by eapply sim_cell_get|].
  intros v ? v' ? (-> & -> & [He _] & _). eapply sim_bind; [exact IH|].
  intros vs ? vs' ? (-> & -> & Hvs). eapply sim_done; [done..|]. cbn. by rewrite He, Hvs.
Qed.

(** The pointers at a place of a reachable object lead to reachable objects. *)
Lemma sim_place ρ σ n w rs s rs' a o d' k :
  matching ρ σ n w rs s rs' → reachable (view w) a → objs (view w) !! a = Some o →
  val_rel ρ σ (ob_data o) d' →
  sim (place (ob_data o) k) (place d' k)
    (λ v w1 v' s1, w1 = w ∧ s1 = s ∧ Forall2 (ptr_rel ρ) (marks v) (marks v') ∧
       ∀ x, x ∈ marks v → reachable (view w) x.2) w s.
Proof.
  intros HM Ha Ho Hd. destruct k as [k|]; cbn [place].
  - eapply sim_bind; [by apply (sim_expect σ), Forall2_lookup, cells_of_rel with ρ|].
    intros c ? c' ? (-> & -> & Hk & _ & Hc). eapply sim_mono; [by eapply sim_cell_get|].
    intros v ? v' ? (-> & -> & Hv & Hcv). split_and!; [done|done|by eapply marks_rel|].
    intros [u b] Hx%elem_of_marks. eapply reachable_edge; [exact Ha|].
    exists o, u. split; [done|]. eapply points_cell; [|done|done].
    apply elem_of_cells_of. by eapply list_elem_of_lookup_2.
  - eapply (sim_done _ _ _ _ _ (ob_data o) d' w s); [done..|].
    split_and!; [done|done|by eapply marks_rel|].
    intros [u b] Hx%elem_of_marks. eapply reachable_edge; [exact Ha|].
    exists o, u. split; [done|]. by apply points_here.
Qed.

(** What a command leaves: matching states again, and the same outputs. *)
Definition matched_out n (len : nat) (x : vars * list seen) w (x' : vars * list seen) s : Prop :=
  matched n x.1 x'.1 w s ∧ x.2 = x'.2 ∧ (size x.1 ≤ S len)%nat.

Lemma matched_ret ρ σ n m w rs s rs' out :
  matching ρ σ n w rs s rs' → (size rs ≤ S m)%nat →
  sim (Ret (rs, out)) (Ret (rs', out)) (matched_out n m) w s.
Proof. intros HM Hm. eapply sim_done; [done..|]. split; [by exists ρ, σ|done]. Qed.

Lemma is_scalar_erase v v' p z : erase v = erase v' → is_scalar v p z = is_scalar v' p z.
Proof. intros He. destruct v, v'; try done; cbn in *; by simplify_eq. Qed.

(** The fresh variable of a [let]. *)
Ltac enter_let HM :=
  eapply sim_bind; [apply sim_assure; eapply vars_rel_unbound; apply HM|];
  intros [] ? [] ? (-> & -> & Hnew); unfold unbound in Hnew; apply bool_decide_eq_true in Hnew.

(** The contents of a variable's object. *)
Ltac enter_reg HM :=
  eapply sim_bind; [apply sim_expect; eapply mt_reg; exact HM|];
  intros [t a] ? [t' a'] ? (-> & -> & Hx & Hx' & Hxx);
  pose proof (mt_reg_reachable _ _ _ _ _ _ _ _ _ HM Hx) as Hreach;
  pose proof Hxx as [Htt Haa]; cbn in Htt, Hreach, Haa; subst t'; cbn [fst snd].

Ltac enter_obj HM :=
  enter_reg HM; eapply sim_bind; [eapply sim_deref; [exact HM|eassumption]|];
  intros ? ? d' ? (-> & -> & Hd & o & Ho & <-).

Lemma exec_cmd_sim ρ σ n w rs s rs' c :
  matching ρ σ n w rs s rs' → 0 ≤ n - cmd_demand c → 0 ≤ cmd_demand c →
  Z.of_nat (size rs) < usize_max →
  sim (exec_cmd rs c) (exec_cmd rs' c) (matched_out (n - cmd_demand c) (size rs)) w s.
Proof.
  intros HM Hn Hdem Hlen. pose proof (mt_regs _ _ _ _ _ _ _ HM) as Hrs.
  destruct c as [x u d cs|x r|r|x r k i|th r k u v|r|r r'|r q z| | |c];
    cbn [exec_cmd cmd_demand] in *; rewrite ?Z.sub_0_r in *.
  - enter_let HM. eapply sim_bind; [by eapply sim_new_cells|].
    intros l w1 l' s1 (σ' & HM1 & Hl & _). eapply sim_bind.
    { apply sim_assure. rewrite <- (Forall2_length _ _ _ Hl). by apply (typechecks_rel ρ). }
    intros [] ? [] ? (-> & -> & [Hty Hnames]%andb_true_iff).
    eapply sim_bind; [eapply (sim_alloc _ _ _ _ _ _ _ x);
      [exact HM1|exact Hnew|by rewrite instantiate_type|by apply instantiate_rel|lia]|].
    intros a w2 a' s2 HM2. eapply matched_ret; [exact HM2|by rewrite map_size_insert_None].
  - enter_let HM. enter_reg HM. eapply sim_bind; [by eapply (sim_root _ _ _ _ _ _ _ x)|].
    intros b w1 b' s1 HM1. eapply matched_ret; [exact HM1|by rewrite map_size_insert_None].
  - enter_reg HM. eapply sim_bind; [exact (sim_drop _ _ _ _ _ _ _ r (t, a) (t, a') HM Hx Hx' Hxx)|].
    intros [] w1 [] s1 HM1. eapply matched_ret; [exact HM1|].
    rewrite map_size_delete_Some by by eexists. lia.
  - enter_let HM. enter_obj HM. eapply sim_bind; [by eapply sim_place|].
    intros v ? v' ? (-> & -> & Hm & Hr).
    eapply sim_bind; [by apply (sim_expect (ptr_rel ρ)), Forall2_lookup|].
    intros [u b] ? [u' b'] ? (-> & -> & Hi & _ & [Huu Hb]). cbn in Huu, Hb. subst u'.
    eapply sim_bind; [eapply (sim_root _ _ _ _ _ _ _ x); [exact HM|exact Hnew|exact Hb| |done]|].
    { apply (Hr (u, b)). by eapply list_elem_of_lookup_2. }
    intros b2 w1 b2' s1 HM1. eapply matched_ret; [exact HM1|by rewrite map_size_insert_None].
  - enter_obj HM.
    eapply sim_bind; [by apply (sim_expect σ), Forall2_lookup, cells_of_rel with ρ|].
    intros c ? c' ? (-> & -> & _ & _ & Hc).
    eapply sim_bind; [by apply sim_assure; f_equal; apply (typechecks_rel ρ)|].
    intros [] ? [] ? (-> & -> & Hv). unfold typechecks in Hv. rewrite !andb_true_iff in Hv.
    destruct Hv as (Hcopy & Hty & Hnames).
    eapply sim_bind; [eapply sim_cell_set; [exact HM|exact Hc|exact Hcopy|by rewrite instantiate_type|]|].
    { by apply (instantiate_rel ρ no_cell _ _ [] [] v Hrs). }
    intros [] w1 [] s1 HM1. eapply matched_ret; [exact HM1|lia].
  - enter_obj HM. eapply sim_bind; [by eapply sim_get_cells, cells_of_rel|].
    intros vs ? vs' ? (-> & -> & Hvs). rewrite Hvs, (vr_erase _ _ _ _ Hd).
    eapply matched_ret; [exact HM|lia].
  - enter_reg HM. eapply sim_bind; [apply sim_expect; eapply mt_reg; exact HM|].
    intros [u b] ? [u' b'] ? (-> & -> & _ & _ & [_ Hb]). cbn in Hb.
    rewrite (bool_decide_ext (a = b) (a' = b')).
    + eapply matched_ret; [exact HM|lia].
    + by eapply (rel_obj_inj _ _ _ _ (mt_related _ _ _ _ _ _ _ HM)).
  - enter_obj HM. rewrite (is_scalar_erase (ob_data o) d') by apply Hd.
    destruct (is_scalar d' q z); [|done]. eapply matched_ret; [exact HM|lia].
  - eapply sim_bind; [by eapply sim_force_collect|]. intros [] w1 [] s1 (ρ' & σ' & HM1).
    eapply matched_ret; [exact HM1|lia].
  - eapply sim_bind; [by eapply sim_collect|]. intros [] w1 [] s1 (ρ' & σ' & HM1).
    eapply matched_ret; [exact HM1|lia].
  - eapply sim_bind; [by eapply sim_background|]. intros [] w1 [] s1 (ρ' & σ' & HM1).
    eapply matched_ret; [exact HM1|lia].
Qed.

Lemma cmd_demand_nonneg c : 0 ≤ cmd_demand c.
Proof. destruct c; cbn; try done. apply layout_size_usize. Qed.

Lemma demand_nonneg p : 0 ≤ demand p.
Proof.
  induction p as [|c p IH]; [done|]. change (demand (c :: p)) with (cmd_demand c + demand p).
  pose proof (cmd_demand_nonneg c). lia.
Qed.

Lemma exec_sim ρ σ n w rs s rs' p :
  matching ρ σ n w rs s rs' → demand p ≤ n → Z.of_nat (size rs + length p) < usize_max →
  sim (exec p rs) (exec p rs') (λ out _ out' _, out = out') w s.
Proof.
  revert ρ σ n w rs s rs'. induction p as [|c p IH]; intros ρ σ n w rs s rs' HM Hn Hlen.
  { by eapply sim_done. }
  cbn [exec]. change (demand (c :: p)) with (cmd_demand c + demand p) in Hn. cbn in Hlen. pose proof (cmd_demand_nonneg c). pose proof (demand_nonneg p).
  eapply sim_bind; [eapply exec_cmd_sim; [exact HM|lia..]|].
  intros [rs1 out1] w1 [rs1' out1'] s1 ((ρ' & σ' & HM1) & Hout & Hl). cbn [fst snd] in *.
  eapply sim_bind; [eapply IH; [exact HM1|lia..]|].
  intros out2 w2 out2' s2 ->. eapply sim_done; [done..|]. by rewrite Hout.
Qed.

(** From a state without objects: the two machines show the same. *)
Lemma shown_arena w p :
  inv (w, []) → room (demand p) w → Z.of_nat (length p) < usize_max →
  shown p w = shown p ar_empty.
Proof.
  intros Hinv Hroom Hlen.
  assert (matching (λ _ _ _, False) no_cell (demand p) w ∅ ar_empty ∅) as HM.
  { split; [done|done|by split|]. intros r. rewrite !lookup_empty. constructor. }
  pose proof (exec_sim _ _ _ _ _ _ _ p HM (Z.le_refl _) Hlen) as Hsim.
  unfold sim in Hsim. unfold shown.
  destruct (run (exec p ∅) w), (run (exec p ∅) ar_empty); try done; by rewrite Hsim.
Qed.

End transparency.
