(* ===== verification/HeapTransparency.v ===== *)
(** * The heap never shows that it frees

    The heap of [src/src/heap.rs] has room for the allocations of a program when
    they and its live objects fit in 2^40 bytes and its pacing options are
    moderate; so every client program shows on it what it shows on the arena,
    which never frees.  The options, the places where the program asks for a collection
    and the rounds of the background thread make no difference. *)

From stdpp Require Import relations.
From S2P Require Import Prelude Prog Color TraceImpls GcBox Options BgThread World.
From S2P Require Import Graph Tracing State HeapOps Mutator Marking Sweeping Collection.
From S2P Require Import Client Background Lifecycle Interface Session HeapClient ClientPrograms Transparency.
Open Scope Z_scope.

(** Pacing is off, or the percentages are at most 100 and the first threshold is
    at most 2^40 bytes. *)
Definition moderate (o : GcOptions) : Prop :=
  GcOptions.is_threshold_off o = true ∨
  threshold_percent o ≤ 100 ∧ threshold_shrink_percent o ≤ 100 ∧ min_threshold_bytes o ≤ 2 ^ 40.

Section heap_room.
Context `{Env} `{!TraceContract}.

Record heap_room (n : Z) (w : world) : Prop := {
  hr_moderate : moderate (options (heap w));
  hr_bytes : total_size (mem w) + n ≤ 2 ^ 40;
  hr_threshold : GcOptions.is_threshold_off (options (heap w)) = true ∨
    current_threshold (heap w) ≤ 2 ^ 41;
}.

Lemma heap_room_frame n n' w w' :
  heap_room n w → options (heap w') = options (heap w) →
  current_threshold (heap w') = current_threshold (heap w) →
  total_size (mem w') + n' ≤ total_size (mem w) + n → heap_room n' w'.
Proof. intros [Hm Hb Ht] Ho Hc Hs. split; rewrite ?Ho, ?Hc; [done|lia|done]. Qed.

(** The bound of the products in [calculate_threshold]. *)
Lemma heap_room_fits n w live :
  idle w → heap_room n w → 0 ≤ n → 0 ≤ live ≤ total_size (mem w) →
  GcOptions.is_threshold_off (options (heap w)) = false →
  GcOptions.calculate_threshold (options (heap w)) (current_threshold (heap w)) live =
    Some (Pacing.spec (options (heap w)) (current_threshold (heap w)) live) ∧
  Pacing.spec (options (heap w)) (current_threshold (heap w)) live ≤ 2 ^ 41.
Proof.
  intros Hidle [Hm Hb Ht] Hn Hlive Hoff. destruct Hm as [?|(Hp & Hs & Hmin)]; [congruence|].
  destruct Ht as [?|Ht]; [congruence|]. pose proof (idle_wf _ Hidle) as Hwf.
  pose proof (ww_options _ Hwf) as Ho. pose proof (ww_threshold _ Hwf) as Hold.
  pose proof Ho as (_ & _ & _ & Hp0 & Hs0 & _). unfold is_usize in *.
  assert (2 ^ 41 * 1000 ≤ usize_max) by (vm_compute; discriminate).
  assert (live * threshold_percent (options (heap w)) / 100 ≤ 2 ^ 40) as Hdiv
    by (apply Z.div_le_upper_bound; nia).
  split.
  - apply Pacing.calculate_threshold_eq; [done|done|unfold is_usize; lia|].
    unfold Pacing.fits. split_and!; nia.
  - unfold Pacing.spec, Pacing.target. rewrite Hoff. case_decide; lia.
Qed.

Lemma calculate_threshold_off o old live :
  GcOptions.is_threshold_off o = true → GcOptions.calculate_threshold o old live = Some usize_max.
Proof. intros Ho. unfold GcOptions.calculate_threshold. by rewrite Ho. Qed.

Lemma heap_room_pacing n w : idle w → heap_room n w → 0 ≤ n → pacing_ok w.
Proof.
  intros Hidle Hr Hn live Hlive. rewrite (ww_bytes _ (idle_wf _ Hidle)) in Hlive.
  destruct (GcOptions.is_threshold_off (options (heap w))) eqn:Hoff.
  - rewrite calculate_threshold_off by done. by eexists.
  - destruct (heap_room_fits n w live) as [-> _]; [done..|]. by eexists.
Qed.

Lemma heap_room_collected n w w' :
  idle w → heap_room n w → 0 ≤ n → collection_done w w' → heap_room n w'.
Proof.
  intros Hidle Hr Hn Hd. pose proof (cd_bytes _ _ Hd) as Hb.
  pose proof Hr as [Hm Hbytes _]. split; rewrite ?(cd_options _ _ Hd); [done|lia|].
  destruct (GcOptions.is_threshold_off (options (heap w))) eqn:Hoff; [by left|right].
  destruct (heap_room_fits n w (total_size (mem w'))) as [Hc Hle]; [done..|].
  rewrite (cd_threshold _ _ Hd) in Hc. by injection Hc as ->.
Qed.

#[global] Instance heap_collector_room : CollectorRoom world.
Proof.
  refine {| room := heap_room |};
    unfold ready, view, can_alloc, can_collect, op_alloc, op_root, op_drop, op_cell_new, op_cell_set,
      op_force_collect, op_collect, op_background, heap_collector.
  - intros n w t _ [_ Hb _] Ht. assert (2 ^ 40 ≤ usize_max) by (vm_compute; discriminate). lia.
  - intros n w [Hidle _] Hr Hn. by eapply heap_room_pacing.
  - intros n w t d a w' [Hidle _] Hr Hrun.
    destruct (allocate_run w 1 t d Hidle) as [Ha Hrun']; [lia|]. rewrite Hrun' in Hrun.
    injection Hrun as <- <-. eapply heap_room_frame; [exact Hr|done..|]. cbn.
    rewrite total_size_insert by done. unfold box_size. cbn. lia.
  - intros n w a b w' Ha Hr Hrun. unfold GcPtr.root in Hrun.
    rewrite run_bind, inc_root_run in Hrun by by apply abs_is_Some. injection Hrun as <- <-.
    eapply heap_room_frame; [exact Hr|done..|]. by rewrite rerooted_total.
  - intros n w a w' Ha Hr Hrun. unfold GcRoot.drop in Hrun.
    rewrite dec_root_run in Hrun by by apply abs_is_Some. injection Hrun as <-.
    eapply heap_room_frame; [exact Hr|done..|]. by rewrite rerooted_total.
  - intros n w v c w' _ Hr Hrun. injection Hrun as <- <-. by eapply heap_room_frame.
  - intros n w th c v w' [Hidle _] Hc Hr Hrun. rewrite cell_set_run in Hrun by done.
    injection Hrun as <-. by eapply heap_room_frame.
  - intros n w k w' [Hidle Hb] Hp Hn Hr Hrun.
    destruct (force_collect_run w (enough_fuel w)) as (w2 & Hrun' & Hd); [done..|].
    rewrite Hrun' in Hrun. injection Hrun as <- <-. by eapply heap_room_collected.
  - intros n w w' [Hidle Hb] Hp Hn Hr Hrun.
    destruct (collect_run w (enough_fuel w)) as (w2 & Hrun' & Hd); [done..|].
    rewrite Hrun' in Hrun. injection Hrun as <-.
    case_decide; [by eapply heap_room_collected|by subst].
  - intros n w c w' [Hidle Hb] Hp Hn Hr Hrun.
    destruct (one_round_run c w) as (w2 & Hrun' & Hd); [done..|].
    rewrite Hrun' in Hrun. injection Hrun as <-.
    destruct Hd as [Hd| ->]; [by eapply heap_room_collected|done].
Defined.

(** What the client of a new heap may ask of it. *)
Record fits_in (o : GcOptions) (p : list cmd) : Prop := {
  fi_wf : GcOptions.wf o;
  fi_budget : 0 < incremental_work_budget o;
  fi_moderate : moderate o;
  fi_demand : demand p ≤ 2 ^ 40;
  fi_length : Z.of_nat (length p) < usize_max;
}.

Lemma fits_in_unprompted o p : fits_in o p → fits_in o (unprompted p).
Proof.
  intros [? ? ? Hd Hl]. split; [done|done|done| |].
  - pose proof (unprompted_demand p). lia.
  - pose proof (List.filter_length_le (λ c, negb (is_request c)) p). unfold unprompted. lia.
Qed.

Lemma shown_opened o w p : opened o w → fits_in o p → shown p w = shown p ar_empty.
Proof.
  intros Hopen [Ho Hb Hm Hd Hl]. pose proof (opened_inv _ _ Hopen Ho Hb) as Hinv.
  apply shown_arena; [done| |done]. destruct Hopen as (w0 & fuel & Hu & Hrun).
  destruct (with_options_run w0 o fuel Hu Ho) as (w' & Hrun' & Hidle & He & Hopt & Hthr & _).
  rewrite Hrun' in Hrun. injection Hrun as ->.
  change (heap_room (demand p) w). split.
  - by rewrite Hopt.
  - assert (mem w = ∅) as -> by by apply (fmap_empty_inv abs_box). by rewrite Z.add_0_l.
  - rewrite Hopt, Hthr. destruct Hm as [?|(_ & _ & ?)]; [by left|right]. lia.
Qed.

(** C1: a client program shows on a new heap, with every collection that it asks for,
    exactly what it shows on the arena, where nothing is ever freed and no address
    is used twice; it is accepted by the one when it is accepted by the other. *)
Theorem collections_transparent o w p :
  opened o w → fits_in o p → shown p w = shown p ar_empty.
Proof. apply shown_opened. Qed.

(** C3: the requests for collections of a program, and the options of the heap, which
    decide when [collect] and the background thread collect, make no difference to what it shows. *)
Theorem collection_requests_invisible o1 w1 o2 w2 p :
  opened o1 w1 → opened o2 w2 → fits_in o1 p → fits_in o2 p →
  shown (unprompted p) w2 = shown p w1.
Proof.
  intros Hw1 Hw2 H1 H2. rewrite (shown_opened o1 w1 p) by done.
  rewrite (shown_opened o2 w2) by (done || by apply fits_in_unprompted).
  unfold shown. by rewrite arena_unprompted.
Qed.

End heap_room.
