(* ===== verification/BackgroundLeak.v ===== *)
(** * The heap that nobody destroys

    The thread that [start_background_collection] of [src/src/heap.rs] spawns owns a
    share of the heap.  When the last context goes without stopping the thread, the
    heap stays, and the thread goes on collecting it. *)

From stdpp Require Import relations.
From S2P Require Import Prelude Prog Color TraceImpls GcBox Options BgThread World.
From S2P Require Import Graph Tracing State HeapOps Mutator Marking Sweeping Collection.
From S2P Require Import Client Background Lifecycle Ownership HeapTransparency.
Open Scope Z_scope.

Section leak.
Context `{Env} `{!TraceContract}.

(** [leaking w0 c w]: the thread with the number [c] is the only owner of [w], which is
    what its rounds have made of [w0]. *)
Record leaking (w0 : world) (c : Z) (w : world) : Prop := {
  lk_idle : idle w;
  lk_room : heap_room 0 w;
  lk_options : options (heap w) = options (heap w0);
  lk_strong : strong w = 1;
  lk_running : running w = {[c]};
  lk_bg : StartStop.is_stopped (bg_thread (heap w)) c = false;
  lk_fuel : (enough_fuel w ≤ enough_fuel w0)%nat;
  lk_reachable a : reachable (abs w) a ↔ reachable (abs w0) a;
  lk_kept a : reachable (abs w0) a → objs (abs w) !! a = objs (abs w0) !! a;
  lk_dropped : ∃ d, dropped w = dropped w0 ++ d ∧ ∀ a, a ∈ d → ¬ reachable (abs w0) a;
}.

Lemma leaking_collected w0 c w w' : leaking w0 c w → collection_done w w' → leaking w0 c w'.
Proof.
  intros [Hi Hr Ho Hs Hru Hb Hf Hre Hk (d & Hd & Hnd)] Hc.
  pose proof (collection_fuel _ _ Hc) as Hf'. pose proof (cd_collected _ _ Hc) as Hcol.
  pose proof (cd_frame _ _ Hc) as (_ & _ & _ & Hru' & Hs').
  split; try congruence.
  - apply Hc.
  - by eapply heap_room_collected.
  - by rewrite (cd_options _ _ Hc).
  - by rewrite (cd_bg _ _ Hc).
  - lia.
  - intros a. by rewrite (collected_reachable _ _ _ Hcol).
  - intros a Ha. rewrite <- Hk by done. apply option_eq. intros ob.
    rewrite (collected_objs _ _ Hcol). split; [by intros [? _]|]. intros ?. split; [done|by apply Hre].
  - destruct (cd_dropped _ _ Hc) as (d' & -> & _ & Hd'). exists (d ++ d').
    rewrite Hd, app_assoc. split; [done|]. intros a [Ha|Ha]%elem_of_app; [by apply Hnd|].
    apply Hd' in Ha as [_ Ha]. by rewrite <- Hre.
Qed.

Lemma leaking_rounds w0 c fuel n w :
  0 < incremental_work_budget (options (heap w0)) → 0 < collection_interval (options (heap w0)) →
  (enough_fuel w0 ≤ fuel)%nat → leaking w0 c w →
  ∃ wn, (∀ ts, run (Heap.background_gc_thread fuel (replicate n true ++ ts) c []) w =
               run (Heap.background_gc_thread fuel ts c []) wn) ∧ leaking w0 c wn ∧
    (¬ triggered (heap w) → wn = w).
Proof.
  intros Hbud Hint Hf. revert w. induction n as [|n IH]; intros w Hw; [by exists w|].
  destruct (background_round fuel c w) as (w1 & Hrun & Hw1);
    [apply Hw|by rewrite (lk_options _ _ _ Hw)|by eapply heap_room_pacing; [apply Hw|apply Hw|]
    |pose proof (lk_fuel _ _ _ Hw); lia|by rewrite (lk_options _ _ _ Hw)|apply Hw|].
  assert (leaking w0 c w1 ∧ (¬ triggered (heap w) → w1 = w)) as [Hl1 Heq].
  { case_decide; [|by subst]. split; [by eapply leaking_collected|done]. }
  destruct (IH w1 Hl1) as (wn & Hrun' & Hln & Heq'). exists wn. split; [|split; [done|]].
  - intros ts. cbn [replicate app]. by rewrite Hrun, Hrun'.
  - intros Ht. specialize (Heq Ht). subst w1. by apply Heq'.
Qed.

Lemma left_last_idle w th ctx :
  idle w → tls w = {[th := ctx]} → ctxs w = {[ctx := []]} → idle (owners (left_ctx w th ctx) 1).
Proof.
  intros Hw Ht Hc. apply owners_idle. unfold left_ctx.
  rewrite Ht, Hc, lookup_singleton_eq, bool_decide_eq_true_2, !delete_singleton_eq by done.
  eapply idle_frame; [exact Hw|done..| | | | |]; try apply Hw; cbn.
  - by intros ? ? ?%lookup_empty_Some.
  - by intros ? ? ?%lookup_empty_Some.
Qed.

(** C33: the background thread owns the heap that it collects.  When the last context
    goes without stopping it, nothing is dropped, and nobody is left to stop the
    thread.  After any number of rounds it waits for the next one: it is still not
    stopped, it still owns the heap, which has never been destroyed, and every object
    that was reachable from a root is still there, unchanged.  The rounds drop only
    objects that no root reached, and none as long as no collection is due.  The
    thread returns only when a wait is notified, which only [stop] does. *)
Theorem background_leak w c th ctx fuel0 fuel :
  idle w → tls w = {[th := ctx]} → ctxs w = {[ctx := []]} →
  strong w = 2 → running w = {[c]} →
  StartStop.is_stopped (bg_thread (heap w)) c = false →
  0 < collection_interval (options (heap w)) → 0 < incremental_work_budget (options (heap w)) →
  heap_room 0 w → (enough_fuel w ≤ fuel)%nat →
  ∃ w', run (GcContext.drop fuel0 th ctx) w = Done tt w' ∧
    mem w' = mem w ∧ dropped w' = dropped w ∧
    ∀ n, ∃ wn, leaking w c wn ∧ (¬ triggered (heap w) → wn = w') ∧
      run (Heap.background_gc_thread fuel (replicate n true) c []) w' = NoFuel ∧
      run (Heap.background_gc_thread fuel (replicate n true ++ [false]) c []) w' = Done tt wn.
Proof.
  intros Hi Ht Hc Hs Hr Hst Hint Hbud Hroom Hf.
  pose proof (left_last_idle _ _ _ Hi Ht Hc) as Hi'. set (w' := owners (left_ctx w th ctx) 1) in *.
  exists w'. split.
  { unfold w'. replace 1 with (strong w - 1) by lia. apply context_drop_shared. rewrite Hs. done. }
  split; [done|]. split; [done|]. intros n.
  assert (leaking w c w') as Hl.
  { split; try done; [by eapply heap_room_frame|].
    exists []. rewrite app_nil_r. split; [done|]. by intros a ?%elem_of_nil. }
  destruct (leaking_rounds w c fuel n w' Hbud Hint Hf Hl) as (wn & Hrun & Hln & Heq).
  exists wn. split; [done|]. split; [exact Heq|]. split.
  - specialize (Hrun []). rewrite app_nil_r in Hrun. by rewrite Hrun.
  - rewrite Hrun. cbn [Heap.background_gc_thread]. run_next.
    unfold Duration_is_zero. rewrite (proj2 (Z.eqb_neq _ _)) by (rewrite (lk_options _ _ _ Hln); lia).
    unfold Heap.wait_stopped. rewrite !run_bind. cbn. unfold StartStop.wait_entry.
    by rewrite (lk_bg _ _ _ Hln).
Qed.

End leak.
