(* ===== verification/Incremental.v ===== *)
(** * Incremental marking with mutators

    Between the root scan and the sweep, marking proceeds in steps
    ([do_mark_incremental], by the background thread or as a mutator assist) that
    alternate with client operations.  [mid_mark] is the invariant of that phase;
    every marking step and every client operation preserves it, the write barrier
    of [GcCell::set] included.

    The root scan is not repeated at the end of the phase, so an object that is
    rooted after the scan may stay white.  [shaded] is the condition under which
    this is harmless: such an object has no white target.  With it the sweep
    frees no reachable object. *)

From stdpp Require Import relations.
From S2P Require Import Prelude Prog Color TraceImpls GcBox Options BgThread World.
From S2P Require Import Graph Tracing State HeapOps Mutator Marking Sweeping Collection.
From S2P Require Import Client.
Open Scope Z_scope.

Abbreviation anywhere := (λ _ : loc, True).

Section incremental.
Context `{Env} `{!TraceContract}.

(** ** The invariant *)

Record mid_mark (w : world) : Prop := {
  mm_wf : wf_world w;
  mm_phase : phase (heap w) = GcPhase_as_u8 Marking;
  mm_tri : tri (abs w) anywhere [] [] w;
  mm_busy : is_usize (n_busy_marking (heap w));
}.

(** No white root has a white target. *)
Definition shaded (w : world) : Prop :=
  ∀ a b, rooted (abs w) a → color_of w a = Some White → edge (abs w) a b → nonwhite w b.

(** ** Changes that the marking state does not see *)

(** Only the memory, the cells and the gray queue matter. *)
Lemma tri_frame G S P tr w w' :
  mem w' = mem w → cells w' = cells w → gray_queue (heap w') = gray_queue (heap w) →
  tri G S P tr w → tri G S P tr w'.
Proof.
  intros Hm Hc Hq [Habs Hmem Halloc Hgray Hblack Hsound Hqueue].
  assert (∀ a, color_of w' a = color_of w a) as Hcol by (intros; unfold color_of; by rewrite Hm).
  assert (∀ a, nonwhite w' a ↔ nonwhite w a) as Hnw
    by (intros; unfold nonwhite; by rewrite Hcol).
  split; rewrite ?Hm, ?Hq; try done.
  - unfold abs in *. by rewrite Hm, Hc.
  - intros a. rewrite Hcol. auto.
  - intros a b. rewrite Hcol, Hnw. eauto.
  - intros a. rewrite Hnw. auto.
Qed.

(** ** A marking step *)

(** [marked_on w w']: marking went on, and the graph is the same. *)
Record marked_on (w w' : world) : Prop := {
  mo_mid : mid_mark w';
  mo_recolored : recolored w w';
  mo_nonwhite a : nonwhite w a → nonwhite w' a;
}.

Lemma marked_on_intro w tr' w' :
  mid_mark w → tri (abs w) anywhere [] [] w' → advance [] w tr' w' → marked_on w w'.
Proof.
  intros [Hwf Hp Ht Hb] Ht' [Hrc Hn _]. split; [|done..].
  split; [by eapply recolored_wf_world, Hwf; [|apply Ht']| |by rewrite <- (recolored_abs _ _ Hrc)|].
  - by rewrite (recolored_phase _ _ Hrc).
  - by rewrite (recolored_busy _ _ Hrc).
Qed.

Lemma marked_on_abs w w' : marked_on w w' → abs w' = abs w.
Proof. intros Hm. symmetry. apply recolored_abs, Hm. Qed.

Lemma marked_on_refl w : mid_mark w → marked_on w w.
Proof. by split. Qed.

Lemma recolored_shaded w w' :
  recolored w w' → (∀ a, nonwhite w a → nonwhite w' a) → shaded w → shaded w'.
Proof.
  intros Hrc Hnw Hs a b. rewrite <- (recolored_abs _ _ Hrc). intros Hr Hc He.
  apply Hnw, (Hs a b); [done| |done].
  destruct Hr as (o & Ho & _). cbn in Ho. rewrite lookup_fmap in Ho.
  apply fmap_Some in Ho as (bx & Hbx & _).
  destruct (box_color bx) eqn:E; [unfold color_of; by rewrite Hbx, <- E|..];
    (assert (nonwhite w' a) as (c & Hc' & ?) by
       (apply Hnw; eexists; unfold color_of; rewrite Hbx; cbn;
        split; [by rewrite E|done]); congruence).
Qed.

Lemma marked_on_shaded w w' : marked_on w w' → shaded w → shaded w'.
Proof. intros [_ Hrc Hnw]. by apply recolored_shaded. Qed.

Lemma do_mark_incremental_wp w fuel budget :
  mid_mark w → 0 ≤ budget → (2 * size (mem w) + 2 * length (gray_queue (heap w)) + 1 < fuel)%nat →
  wp (Heap.do_mark_incremental fuel budget)
     (λ r w', marked_on w w' ∧ (0 < budget → r = true → gray_queue (heap w') = []) ∧
        (r = false → (work [] w' < work [] w)%nat)) w.
Proof.
  intros Hm Hb Hfuel. unfold Heap.do_mark_incremental.
  eapply wp_bind_mono.
  { apply (do_mark_with_tracer_wp (abs w) anywhere (ww_graph _ (mm_wf _ Hm)));
      [done|apply Hm| |done].
    rewrite loop_fuel_nil. unfold work. pose proof (white_count_le w). cbn. lia. }
  intros [d tr] w' [(Ht & Hadv & Hle & Hsum & Hend) Hnil]. cbn in *. subst tr.
  split; [by eapply marked_on_intro|]. unfold Tracer.new in Hsum. split.
  - intros Hb0 Hd. destruct Hend as [?|[_ ?]]; [bool_lia|done].
  - intros Hd. bool_lia.
Qed.

(** ** The busy counter *)

Definition with_busy (w : world) (n : Z) : world :=
  set_heap w (set_n_busy_marking (heap w) n).

Lemma with_busy_mid w n : mid_mark w → is_usize n → mid_mark (with_busy w n).
Proof.
  intros [Hwf Hp Ht Hbz] Hn. split; [|done| |done].
  - eapply wf_world_frame; [exact Hwf|done..| | | | |]; apply Hwf.
  - by eapply tri_frame; [..|exact Ht].
Qed.

Lemma check_busy_marking_wp w (Q : bool → world → Prop) :
  phase (heap w) = GcPhase_as_u8 Marking →
  Q true (with_busy w (usize_fetch_add (n_busy_marking (heap w)) 1)) →
  wp Heap.check_is_marking_and_increment_busy Q w.
Proof.
  intros Hp HQ. unfold Heap.check_is_marking_and_increment_busy.
  wp_next. wp_next. rewrite Hp. cbn. exact HQ.
Qed.

(** What the mutator does between the increment and the decrement of the busy
    counter is a marking step. *)
Lemma busy_section_wp w n w1 (Q : unit → world → Prop) :
  is_usize n → n_busy_marking (heap w) = n →
  marked_on (with_busy w (usize_fetch_add n 1)) w1 →
  (∀ w', marked_on w w' → (∀ a, nonwhite w' a ↔ nonwhite w1 a) → Q tt w') →
  wp Heap.decrement_busy_marking Q w1.
Proof.
  intros Hn Hw [Hm Hrc Hnw] HQ. pose proof (recolored_busy _ _ Hrc) as Hb. cbn in Hb.
  unfold Heap.decrement_busy_marking, Heap.n_busy_fetch_sub. cbn.
  rewrite Hb, usize_add_sub by done. change (Q tt (with_busy w1 n)). apply HQ; [|done]. split.
  - by apply with_busy_mid.
  - pose proof (recolored_heap _ _ Hrc) as Hh. destruct Hrc as [Hmem _ ? ? ? ? ? ?].
    split; try done. cbn. rewrite Hh. cbn. rewrite <- Hw. by destruct (heap w).
  - exact Hnw.
Qed.

(** The assist of [allocate]. *)
Definition mark_fuel (w : world) : nat :=
  2 * size (mem w) + 2 * length (gray_queue (heap w)) + 2.

Lemma assist_wp w fuel :
  mid_mark w → (mark_fuel w ≤ fuel)%nat →
  wp (Heap.assist fuel) (λ _ w', marked_on w w') w.
Proof.
  intros Hm Hfuel. unfold mark_fuel in Hfuel. unfold Heap.assist. wp_next.
  destruct (0 <? _) eqn:Hb; [|by apply marked_on_refl]. rewrite wp_bind.
  apply check_busy_marking_wp; [apply Hm|].
  set (w0 := with_busy w _).
  assert (mid_mark w0) as Hm0 by (apply with_busy_mid; [done|apply usize_wrap_range]).
  eapply wp_bind_mono.
  - apply do_mark_incremental_wp; [done|bool_lia|]. change (mem w0) with (mem w). cbn. lia.
  - intros r w1 [Hw1 _]. apply (busy_section_wp w (n_busy_marking (heap w))); [apply Hm|done|done|auto].
Qed.

(** ** Client operations *)

(** A new object has appeared at [a]: it is white, whatever the phase. *)
Record appeared (w w' : world) (a : loc) (t : ty) (d : val) : Prop := {
  ap_fresh : mem w !! a = None;
  ap_mem : ∃ n, mem w' =
    <[a := mkBox (set_next (GcHeader_new (GcVTable_new t)) n) d]> (mem w);
  ap_cells : cells w' = cells w;
  ap_queue : gray_queue (heap w') = gray_queue (heap w);
}.

Lemma appeared_color w w' a t d x :
  appeared w w' a t d → color_of w' x = if decide (x = a) then Some White else color_of w x.
Proof.
  intros [Ha [n Hm] _ _]. unfold color_of. rewrite Hm. case_decide as Hx.
  - subst. by rewrite lookup_insert_eq.
  - by rewrite lookup_insert_ne.
Qed.

Lemma appeared_nonwhite w w' a t d x :
  appeared w w' a t d → nonwhite w' x ↔ nonwhite w x.
Proof.
  intros Hap. unfold nonwhite. rewrite (appeared_color _ _ _ _ _ _ Hap).
  case_decide as Hx; [|done]. subst. split.
  - by intros (c & [= <-] & ?).
  - intros (c & Hc & _). unfold color_of in Hc. by rewrite (ap_fresh _ _ _ _ _ Hap) in Hc.
Qed.

Lemma appeared_abs w w' a t d :
  appeared w w' a t d → abs w' = g_alloc (abs w) a (mkObj t 1 d).
Proof.
  intros [Ha [n Hm] Hc _]. unfold abs, g_alloc. rewrite Hm, Hc. cbn. by rewrite fmap_insert.
Qed.

Lemma appeared_wf_mem w w' a t d : appeared w w' a t d → wf_mem (mem w) → wf_mem (mem w').
Proof.
  intros [Ha [n ->] _ _] [Hv Hc].
  split; intros x b [[<- <-]|[_ Hx]]%lookup_insert_Some; [done|eauto|by exists White|eauto].
Qed.

Lemma appeared_tri w w' a t d P tr :
  appeared w w' a t d →
  tri (abs w) anywhere P tr w → tri (abs w') anywhere P tr w'.
Proof.
  intros Hap [_ Hmem Halloc Hgray Hblack _ _]. split; try done.
  - by eapply appeared_wf_mem.
  - intros x. destruct Hap as [Ha [n ->] _ ->]. intros Hx. rewrite lookup_insert_is_Some.
    destruct (decide (a = x)); [by left|]. right. split; [done|]. by apply Halloc.
  - intros x. rewrite (appeared_color _ _ _ _ _ _ Hap), (ap_queue _ _ _ _ _ Hap).
    case_decide; [done|]. apply Hgray.
  - intros x y. rewrite (appeared_color _ _ _ _ _ _ Hap), (appeared_nonwhite _ _ _ _ _ _ Hap),
      (appeared_abs _ _ _ _ _ Hap).
    case_decide as Hx; [done|]. rewrite g_alloc_edge by done. apply Hblack.
Qed.

Lemma allocated_appeared w a t d : mem w !! a = None → appeared w (allocated w a t d) a t d.
Proof. intros Ha. split; [done| |done..]. by eexists. Qed.

Lemma allocated_mid w a t d :
  mid_mark w → mem w !! a = None → has_type d t = true → wf_val (abs w) d →
  total_size (mem w) + layout_size t ≤ usize_max → mid_mark (allocated w a t d).
Proof.
  intros [Hwf Hp Ht Hb] Ha Hty Hd Hsz. split; [by apply allocated_wf|done| |done].
  eapply appeared_tri; [by apply allocated_appeared|done].
Qed.

Lemma rerooted_color w a f x : color_of (rerooted w a f) x = color_of w x.
Proof.
  unfold color_of. cbn. destruct (decide (a = x)) as [<-|Hne].
  - rewrite lookup_alter_eq. by destruct (mem w !! a).
  - by rewrite lookup_alter_ne.
Qed.

Lemma rerooted_nonwhite w a f x : nonwhite (rerooted w a f) x ↔ nonwhite w x.
Proof. unfold nonwhite. by rewrite rerooted_color. Qed.

Lemma rerooted_wf_mem w a f : wf_mem (mem w) → wf_mem (mem (rerooted w a f)).
Proof.
  intros [Hv Hc]. split; intros x b' (b & Hb' & Hcol & _ & Hvt & _)%rerooted_lookup.
  - unfold box_ty. rewrite Hvt. by apply (Hv x).
  - rewrite Hcol. by apply (Hc x).
Qed.

Lemma rerooted_tri w a f P tr :
  tri (abs w) anywhere P tr w → tri (abs (rerooted w a f)) anywhere P tr (rerooted w a f).
Proof.
  intros [_ Hmem Halloc Hgray Hblack _ _]. split; try done.
  - by apply rerooted_wf_mem.
  - intros x Hx. cbn. rewrite lookup_alter_is_Some. by apply Halloc.
  - intros x. rewrite rerooted_color. apply Hgray.
  - intros x y. rewrite rerooted_nonwhite, rerooted_color, rerooted_abs, g_roots_edge.
    apply Hblack.
Qed.

Lemma rerooted_mid w a f :
  mid_mark w → (∀ o, objs (abs w) !! a = Some o → is_usize (f (ob_roots o))) →
  mid_mark (rerooted w a f).
Proof.
  intros [Hwf Hp Ht Hb] Hf. split; [by apply rerooted_wf|done| |done].
  by apply rerooted_tri.
Qed.

(** A store whose targets are marked. *)
Lemma celled_tri w c v P tr :
  (∀ t a, RMark t a ∈ owned v → nonwhite w a) →
  tri (abs w) anywhere P tr w → tri (abs (celled w c v)) anywhere P tr (celled w c v).
Proof.
  intros Hnw [_ Hmem Halloc Hgray Hblack _ _]. split; try done.
  intros x y Hx He. change (edge (g_set (abs w) c v) x y) in He.
  apply g_set_edge in He as [He|[t' Hy]]; [by eapply Hblack|by eapply Hnw].
Qed.

Lemma celled_mid w c v t :
  mid_mark w → is_copy t = true → has_type v t = true → wf_val (abs w) v →
  (∀ t a, RMark t a ∈ owned v → nonwhite w a) → mid_mark (celled w c v).
Proof.
  intros [Hww Hp Ht Hbz] Hc Hv Hwf Hnw. split; [|done|by apply celled_tri|done].
  eapply wf_world_frame; [exact Hww|done..| | | | |]; try apply Hww.
  apply (wf_g_set (abs w) _ _ t); [apply Hww|done..].
Qed.

(** A cell that no object owns yet. *)
Lemma celled_new_wf w c v t :
  wf_graph (abs w) → cells w !! c = None → is_copy t = true → has_type v t = true →
  wf_graph (abs (celled w c v)).
Proof.
  intros HG Hfresh Hc Hv. apply (wf_g_set (abs w) _ _ t); [done..|].
  intros a o Ha Hin. by apply (wf_fresh_cell (abs w) c a o) in Hin.
Qed.

Lemma celled_new_tri w c v P tr :
  wf_graph (abs w) → cells w !! c = None →
  tri (abs w) anywhere P tr w → tri (abs (celled w c v)) anywhere P tr (celled w c v).
Proof.
  intros HG Hfresh [_ Hmem Halloc Hgray Hblack _ _]. split; try done.
  intros x y Hx He. apply (Hblack x y Hx). by apply (g_set_fresh_edge (abs w) c v).
Qed.

Lemma celled_new_mid w c v t :
  mid_mark w → cells w !! c = None → is_copy t = true → has_type v t = true →
  mid_mark (celled w c v).
Proof.
  intros [Hww Hp Ht Hbz] Hfresh Hc Hv. pose proof (ww_graph _ Hww) as HG.
  split; [|done|by apply celled_new_tri|done].
  eapply wf_world_frame; [exact Hww|done..| | | | |]; try apply Hww.
  by eapply celled_new_wf.
Qed.

(** ** The write barrier *)

(** The closure that [GcCell::set] runs shades every target of the new value. *)
Lemma barrier_wp w ctx v t :
  mid_mark w → ctxs w !! ctx = Some [] → is_copy t = true → has_type v t = true →
  wf_val (abs w) v →
  wp (GcCell.barrier v ctx)
     (λ _ w', marked_on w w' ∧ ∀ t a, RMark t a ∈ owned v → nonwhite w' a) w.
Proof.
  intros Hm Hctx Hc Hv [Hpts Hcl]. unfold GcCell.barrier. rewrite wp_bind.
  apply check_busy_marking_wp; [apply Hm|]. set (w0 := with_busy w _).
  assert (mid_mark w0) as Hm0 by (apply with_busy_mid; [done|apply usize_wrap_range]).
  rewrite wp_bind. cbn [wp action GcContext.local_gray_get].
  change (ctxs w0) with (ctxs w). rewrite Hctx. cbn [wp].
  eapply wp_bind_mono.
  { apply (trace_all_wp (abs w0) anywhere (ww_graph _ (mm_wf _ Hm0)) (λ _ _ _ _, I) (trace v) []); [apply Hm0|].
    pose proof (copy_owned _ _ Hv Hc) as Hmarks. rewrite Forall_forall in Hmarks. split.
    - intros t' a Hin. rewrite trace_owned in Hin by done. split; [done|].
      apply Hpts. by apply points_here.
    - intros c Hin. rewrite trace_owned in Hin by done. by apply Hmarks in Hin. }
  intros tr1 w1 (Ht1 & Hadv1 & Htgt). rewrite wp_bind.
  apply (merge_work_wp (abs w0) anywhere tr1 w1); [done|].
  intros w2 Ht2 Hadv2 _.
  assert (marked_on w0 w2) as Hw2.
  { eapply marked_on_intro; [done|done|]. by eapply advance_trans. }
  rewrite wp_bind. cbn [wp modify action GcContext.local_gray_set].
  replace (set_ctxs w2 _) with w2.
  2:{ rewrite insert_id; [by destruct w2|].
      by rewrite <- (rc_ctxs _ _ (mo_recolored _ _ Hw2)). }
  apply (busy_section_wp w (n_busy_marking (heap w))); [apply Hm|done|done|].
  intros w' Hw' Hnw. split; [done|]. intros t' a Hin.
  apply Hnw, (adv_nonwhite _ _ _ _ Hadv2), Htgt. left. exists t'. by rewrite trace_owned.
Qed.

Lemma cell_set_mid_wp w th ctx c v t :
  mid_mark w → tls w !! th = Some ctx → is_Some (cells w !! c) →
  is_copy t = true → has_type v t = true → wf_val (abs w) v →
  wp (GcCell.set th c v)
     (λ _ w', ∃ w1, marked_on w w1 ∧ (∀ t a, RMark t a ∈ owned v → nonwhite w1 a) ∧
        w' = celled w1 c v) w.
Proof.
  intros Hm Hth [v0 Hcell] Hc Hv Hwf.
  destruct (ww_tls _ (mm_wf _ Hm) _ _ Hth) as [tr Hctx].
  pose proof (ww_local_gray _ (mm_wf _ Hm) _ _ Hctx) as ->.
  unfold GcCell.set, GcContext.with_current_context. rewrite wp_bind, wp_bind.
  cbn [wp get action]. rewrite Hth, wp_bind.
  eapply wp_mono; [by eapply barrier_wp|]. intros _ w1 [Hw1 Htgt]. cbn.
  rewrite <- (rc_cells _ _ (mo_recolored _ _ Hw1)), Hcell. exists w1.
  split; [done|]. split; [done|]. unfold celled.
  by rewrite <- (rc_cells _ _ (mo_recolored _ _ Hw1)).
Qed.

(** ** White roots *)

Lemma appeared_shaded w w' a t d :
  appeared w w' a t d → (∀ t' b, points (gcells (abs w)) d t' b → nonwhite w b) →
  shaded w → shaded w'.
Proof.
  intros Hap Hd Hs x y. rewrite (appeared_abs _ _ _ _ _ Hap), (appeared_color _ _ _ _ _ _ Hap),
    (appeared_nonwhite _ _ _ _ _ _ Hap).
  case_decide as Hx.
  - subst. intros _ _ (o & t' & Ho & Hp). cbn in Ho. rewrite lookup_insert_eq in Ho.
    simplify_eq. by eapply Hd.
  - intros (o & Ho & Hr) Hc He. rewrite g_alloc_edge in He by done. apply (Hs x); [|done..].
    exists o. cbn in Ho. by rewrite lookup_insert_ne in Ho.
Qed.

Lemma allocated_shaded w a t d :
  mem w !! a = None → (∀ t' b, points (gcells (abs w)) d t' b → nonwhite w b) →
  shaded w → shaded (allocated w a t d).
Proof. intros Ha. by apply (appeared_shaded _ _ a t), allocated_appeared. Qed.

(** A root may be added to an object that is not white, or that is a root. *)
Lemma rerooted_shaded w a f :
  (nonwhite w a ∨ rooted (abs w) a) → shaded w → shaded (rerooted w a f).
Proof.
  intros Ha Hs x y. unfold nonwhite. rewrite !rerooted_color, rerooted_abs, g_roots_edge.
  intros (o' & (o & Ho & ->)%g_roots_lookup & Hr) Hc He. apply (Hs x); [|done..].
  cbn in Hr. case_decide as Hx; [|by exists o]. subst.
  destruct Ha as [(c & Hc' & ?)|]; [congruence|done].
Qed.

Lemma celled_shaded w c v :
  (∀ t a, RMark t a ∈ owned v → nonwhite w a) → shaded w → shaded (celled w c v).
Proof.
  intros Hv Hs x y Hr Hc He. change (edge (g_set (abs w) c v) x y) in He.
  apply g_set_edge in He as [He|[t Hy]]; [by apply (Hs x)|by eapply Hv].
Qed.

Lemma celled_new_shaded w c v :
  wf_graph (abs w) → cells w !! c = None → shaded w → shaded (celled w c v).
Proof.
  intros HG Hc Hs x y Hr Hcol He. apply (Hs x y); [done..|].
  by apply (g_set_fresh_edge (abs w) c v).
Qed.

(** ** The mark phase as a transition system *)

(** One step: marking work, or a client operation.  An object that the client
    roots or points a new object at is marked already, or a root; the thread that
    stores into a cell has a context. *)
Inductive mstep : world → world → Prop :=
  | mstep_mark w fuel budget r w' :
      0 ≤ budget → (mark_fuel w ≤ fuel)%nat →
      run (Heap.do_mark_incremental fuel budget) w = Done r w' → mstep w w'
  | mstep_alloc w fuel t d a w' :
      (mark_fuel w ≤ fuel)%nat → has_type d t = true → wf_val (abs w) d →
      (∀ t' b, points (gcells (abs w)) d t' b → nonwhite w b) →
      total_size (mem w) + layout_size t ≤ usize_max →
      run (Heap.allocate fuel t d) w = Done a w' → mstep w w'
  | mstep_root w a o w' :
      objs (abs w) !! a = Some o → ob_roots o < usize_max → nonwhite w a ∨ 0 < ob_roots o →
      run (GcPtr.root a) w = Done a w' → mstep w w'
  | mstep_drop w a o w' :
      objs (abs w) !! a = Some o → 0 < ob_roots o →
      run (GcRoot.drop a) w = Done tt w' → mstep w w'
  | mstep_cell_new w v t c w' :
      is_copy t = true → has_type v t = true →
      run (GcCell.new v) w = Done c w' → mstep w w'
  | mstep_cell_set w th ctx c v t w' :
      tls w !! th = Some ctx → is_Some (cells w !! c) →
      is_copy t = true → has_type v t = true → wf_val (abs w) v →
      run (GcCell.set th c v) w = Done tt w' → mstep w w'.

Record safe_mark (o : GcOptions) (w : world) : Prop := {
  sm_mid : mid_mark w;
  sm_shaded : shaded w;
  sm_busy : n_busy_marking (heap w) = 0;
  sm_options : options (heap w) = o;
}.

Lemma marked_on_safe o w w' : safe_mark o w → marked_on w w' → safe_mark o w'.
Proof.
  intros [Hm Hs Hb Ho] Hw. pose proof (mo_recolored _ _ Hw) as Hrc.
  split; [apply Hw|by eapply marked_on_shaded| |].
  - by rewrite (recolored_busy _ _ Hrc).
  - by rewrite (recolored_options _ _ Hrc).
Qed.

Lemma rerooted_safe o w a f ob :
  safe_mark o w → objs (abs w) !! a = Some ob → is_usize (f (ob_roots ob)) →
  nonwhite w a ∨ rooted (abs w) a → safe_mark o (rerooted w a f).
Proof.
  intros [Hm Hs Hb Ho] Ha Hf Hr. split; [|by apply rerooted_shaded|done..].
  apply rerooted_mid; [done|]. intros ob' Hob'. by simplify_eq.
Qed.

Lemma mstep_safe o w w' : mstep w w' → safe_mark o w → safe_mark o w'.
Proof.
  intros Hst Hs; destruct Hst as [w fuel budget r w' Hb Hf Hrun
    |w fuel t d a w' Hf Hty Hd Hnw Hsz Hrun|w a ob w' Ha Hmax Hr Hrun|w a ob w' Ha Hpos Hrun
    |w v t c w' Hc Hv Hrun|w th ctx c v t w' Hth Hcell Hc Hv Hwf Hrun].
  - eapply wp_Done in Hrun; [|apply do_mark_incremental_wp; [apply Hs|done|unfold mark_fuel in Hf; lia]].
    by eapply marked_on_safe, Hrun.
  - eapply (wp_Done _ (λ _ w', safe_mark o w')); [|exact Hrun].
    apply allocate_wp; [unfold mark_fuel in Hf; lia|].
    eapply wp_mono; [apply assist_wp; [apply Hs|done]|]. intros [] w1 Hw1. cbv zeta.
    pose proof (marked_on_safe _ _ _ Hs Hw1) as Hs1. pose proof (marked_on_abs _ _ Hw1) as Habs.
    pose proof (recolored_total _ _ (mo_recolored _ _ Hw1)) as Htot.
    assert (mem w1 !! malloc (dom (mem w1)) = None) as Hfresh
      by (apply not_elem_of_dom, malloc_fresh).
    split; [| |apply Hs1..].
    + apply allocated_mid; [apply Hs1|done|done|by rewrite Habs|by rewrite Htot].
    + apply allocated_shaded; [done| |apply Hs1]. rewrite Habs. intros t' b Hp.
      apply (mo_nonwhite _ _ Hw1). by eapply Hnw.
  - unfold GcPtr.root in Hrun.
    rewrite run_bind, inc_root_run in Hrun by (apply abs_is_Some; by eexists).
    cbn in Hrun. simplify_eq. eapply rerooted_safe; [done..|apply usize_wrap_range|].
    destruct Hr; [by left|right; by exists ob].
  - unfold GcRoot.drop in Hrun. rewrite dec_root_run in Hrun by (apply abs_is_Some; by eexists).
    simplify_eq. eapply rerooted_safe; [done..|apply usize_wrap_range|]. right. by exists ob.
  - cbn in Hrun. simplify_eq. set (c := malloc _).
    assert (cells w !! c = None) as Hfresh by (apply not_elem_of_dom, malloc_fresh).
    destruct Hs as [Hm Hs Hb Ho]. split; [by eapply celled_new_mid| |done..].
    apply celled_new_shaded; [apply Hm|done|done].
  - eapply (wp_Done _ (λ _ w', safe_mark o w')); [|exact Hrun].
    eapply wp_mono; [eapply cell_set_mid_wp; [apply Hs|done..]|].
    intros _ w2 (w1 & Hw1 & Htgt & ->). pose proof (marked_on_safe _ _ _ Hs Hw1) as [Hm1 Hs1 Hb1 Ho1].
    split; [|by apply celled_shaded|done..].
    eapply celled_mid; [done..| |done]. by rewrite (marked_on_abs _ _ Hw1).
Qed.

Lemma msteps_safe o w w' : rtc mstep w w' → safe_mark o w → safe_mark o w'.
Proof. induction 1; eauto using mstep_safe. Qed.

(** The root scan establishes the invariant. *)
Lemma scanned_safe w w1 : idle w → scanned w [] w1 → safe_mark (options (heap w)) w1.
Proof.
  intros Hidle [Ht Hrc _ Hroots]. pose proof (recolored_abs _ _ Hrc) as Habs.
  change (abs (marking_started w)) with (abs w) in Habs. split.
  - split.
    + eapply recolored_wf_world; [exact Hrc|apply Ht|]. apply marking_started_wf, Hidle.
    + by rewrite (recolored_phase _ _ Hrc).
    + destruct Ht. split; try done. by rewrite <- Habs.
    + rewrite (recolored_busy _ _ Hrc). cbn. rewrite (idle_busy _ Hidle). apply is_usize_0.
  - intros a b Hr Hc _. rewrite <- Habs in Hr. destruct (Hroots a Hr) as (c & ? & ?). congruence.
  - rewrite (recolored_busy _ _ Hrc). apply Hidle.
  - by rewrite (recolored_options _ _ Hrc).
Qed.

(** So does a complete mark phase. *)
Lemma mark_done_safe w w1 : idle w → mark_done w w1 → safe_mark (options (heap w)) w1.
Proof.
  intros Hidle [Hmem Hrc Hq Hbl Hgr].
  assert (abs w1 = abs w) as Habs by (symmetry; apply (recolored_abs _ _ Hrc)).
  assert (∀ a, reachable (abs w) a → nonwhite w1 a) as Hnw.
  { intros a Ha. exists Black. split; [by apply Hbl|done]. }
  split.
  - split.
    + eapply recolored_wf_world; [exact Hrc|done|]. apply marking_started_wf, Hidle.
    + by rewrite (recolored_phase _ _ Hrc).
    + split; try done; rewrite ?Hq.
      * by intros a ?%elem_of_nil.
      * intros a Ha. by apply Hgr in Ha.
      * intros a b Ha%Hbl He. rewrite Habs in He. apply Hnw. by eapply reachable_edge.
    + rewrite (recolored_busy _ _ Hrc). cbn. rewrite (idle_busy _ Hidle). apply is_usize_0.
  - intros a b Hr Hc _. rewrite Habs in Hr. destruct (Hnw a) as (c & ? & ?);
      [by apply reachable_rooted|]. congruence.
  - rewrite (recolored_busy _ _ Hrc). apply Hidle.
  - by rewrite (recolored_options _ _ Hrc).
Qed.

(** ** The end of the cycle *)

(** With an empty gray queue and shaded roots, what the sweep frees is
    unreachable. *)
Lemma safe_mark_dead o w a b :
  safe_mark o w → gray_queue (heap w) = [] → mem w !! a = Some b → reachable (abs w) a →
  box_dead b = false.
Proof.
  intros [Hm Hs _ _] Hq Hb Ha. pose proof (mm_tri _ Hm) as Ht.
  assert (nonwhite w a ∨ rooted (abs w) a) as Hor.
  { clear Hb. revert a Ha. apply (reachable_ind_closed _ (λ a, nonwhite w a ∨ rooted (abs w) a)).
    - by right.
    - intros x y Hx He. left. assert (∃ c, color_of w x = Some c) as [c Hc].
      { destruct He as (ob & t & Hob & _). cbn in Hob. rewrite lookup_fmap in Hob.
        unfold color_of. destruct (mem w !! x); [by eexists|done]. }
      destruct c.
      + destruct Hx as [(c & ? & ?)|Hx]; [congruence|]. by apply (Hs x).
      + apply (tri_gray _ _ _ _ _ Ht) in Hc. cbn in Hc. rewrite Hq in Hc.
        by apply elem_of_nil in Hc.
      + by eapply (tri_black _ _ _ _ _ Ht). }
  unfold box_dead, AtomicColor.is_white. fold (box_color b). apply andb_false_iff.
  destruct Hor as [(c & Hc & Hn)|(ob & Hob & Hr)].
  - left. apply bool_decide_eq_false. unfold color_of in Hc. rewrite Hb in Hc. naive_solver.
  - right. cbn in Hob. rewrite lookup_fmap, Hb in Hob. cbn in Hob. simplify_eq. cbn in Hr.
    unfold GcHeader_is_root. apply negb_false_iff. bool_lia.
Qed.

(** The survivors are closed under edges, so the heap has no dangling pointer. *)
(** What an object that survives points to is marked. *)
Lemma safe_mark_edge o w a b y :
  safe_mark o w → gray_queue (heap w) = [] → mem w !! a = Some b → box_dead b = false →
  edge (abs w) a y → nonwhite w y.
Proof.
  intros [Hm Hs _ _] Hq Hb Hd He. pose proof (mm_tri _ Hm) as Ht.
  assert (color_of w a = Some (box_color b)) as Hca by (unfold color_of; by rewrite Hb).
  destruct (box_color b) eqn:E.
  - apply (Hs a); [|done..]. exists (abs_box b). split; [cbn; by rewrite lookup_fmap, Hb|].
    unfold box_dead, AtomicColor.is_white in Hd. fold (box_color b) in Hd.
    rewrite E in Hd. cbn in Hd. apply negb_false_iff in Hd. unfold GcHeader_is_root in Hd.
    cbn. bool_lia.
  - apply (tri_gray _ _ _ _ _ Ht) in Hca. cbn in Hca. rewrite Hq in Hca.
    by apply elem_of_nil in Hca.
  - by eapply (tri_black _ _ _ _ _ Ht).
Qed.

Lemma safe_mark_survivor_edge o w a b y :
  safe_mark o w → gray_queue (heap w) = [] → mem w !! a = Some b → box_dead b = false →
  edge (abs w) a y → ∃ by', mem w !! y = Some by' ∧ box_dead by' = false.
Proof.
  intros Hs Hq Hb Hd He. destruct (safe_mark_edge _ _ _ _ _ Hs Hq Hb Hd He) as (c & Hc & Hn).
  apply color_of_Some in Hc as (by' & Hby & Hc). exists by'. split; [done|].
  unfold box_dead, AtomicColor.is_white. fold (box_color by'). rewrite Hc.
  by rewrite bool_decide_eq_false_2.
Qed.

Lemma swept_lookup l w w' a b' :
  swept l w w' → mem w' !! a = Some b' →
  ∃ b, mem w !! a = Some b ∧ box_dead b = false ∧ abs_box b' = abs_box b.
Proof.
  intros Hs Hb'. destruct (sw_survivor _ _ _ Hs _ _ Hb') as (b & Hb & Hd & Hst & _).
  exists b. split; [done|]. split; [done|]. by apply stripped_abs.
Qed.

Lemma safe_mark_swept o w w' l :
  safe_mark o w → gray_queue (heap w) = [] → swept l w w' →
  retained (abs w) (abs w') ∧ wf_graph (abs w').
Proof.
  intros Hsm Hq Hs. pose proof (ww_graph _ (mm_wf _ (sm_mid _ _ Hsm))) as HG.
  destruct (sw_frame _ _ _ Hs) as (Hcells & _).
  assert (∀ a ob, objs (abs w') !! a = Some ob → objs (abs w) !! a = Some ob ∧
    ∃ b, mem w !! a = Some b ∧ box_dead b = false) as Hsub.
  { intros a ob. cbn. rewrite !lookup_fmap, !fmap_Some. intros (b' & Hb' & ->).
    destruct (swept_lookup _ _ _ _ _ Hs Hb') as (b & Hb & Hd & Hab). eauto 10. }
  assert (∀ a b, mem w !! a = Some b → box_dead b = false →
    objs (abs w') !! a = Some (abs_box b)) as Hkeep.
  { intros a b Hb Hd. destruct (sw_kept _ _ _ Hs _ _ Hb Hd) as [b' Hb'].
    destruct (swept_lookup _ _ _ _ _ Hs Hb') as (b0 & Hb0 & _ & Hab).
    cbn. rewrite lookup_fmap, Hb'. cbn. congruence. }
  split.
  - split; [done|by intros a ob [? _]%Hsub|]. intros a Ha.
    destruct (wf_reachable _ _ HG Ha) as [ob Hob]. rewrite Hob. cbn in Hob.
    rewrite lookup_fmap in Hob. apply fmap_Some in Hob as (b & Hb & ->).
    apply Hkeep; [done|]. by eapply safe_mark_dead.
  - split.
    + intros a ob [Hob _]%Hsub. by eapply wf_obj_type.
    + intros a ob [Hob _]%Hsub. by eapply wf_obj_roots.
    + intros a ob [Hob (b & Hb & Hd)]%Hsub. destruct (wf_obj_val _ HG _ _ Hob) as [Hp Hc].
      split; [|intros c; cbn; rewrite Hcells; apply Hc].
      intros t y Hy. cbn in Hy. rewrite Hcells in Hy. destruct (Hp _ _ Hy) as (oy & Hoy & Hty).
      destruct (safe_mark_survivor_edge o w a b y) as (by' & Hby & Hdy); try done.
      { by exists ob, t. }
      exists (abs_box by'). split; [by apply Hkeep|]. cbn in Hoy.
      rewrite lookup_fmap, Hby in Hoy. cbn in Hoy. by simplify_eq.
    + intros c v. cbn. rewrite Hcells. apply HG.
Qed.

(** The rest of a cycle from any state of the mark phase. *)
Lemma finish_cycle_run o w fuel :
  safe_mark o w → 0 < incremental_work_budget o → pacing_ok w → (mark_fuel w ≤ fuel)%nat →
  ∃ w', run (Heap.do_mark_work_full fuel Tracer.new;; Heap.sweep_and_finish fuel)%gc w =
      Done (total_size (mem w')) w' ∧ idle w' ∧ retained (abs w) (abs w').
Proof.
  intros Hs Hb Hp Hfuel. pose proof (sm_mid _ _ Hs) as Hm.
  assert (wp (Heap.do_mark_work_full fuel Tracer.new;; Heap.sweep_and_finish fuel)%gc
    (λ r w', r = total_size (mem w') ∧ idle w' ∧ retained (abs w) (abs w')) w) as Hwp.
  2:{ apply wp_run in Hwp as (r & w' & ? & -> & ? & ?). by exists w'. }
  unfold mark_fuel in Hfuel. pose proof (white_count_le w).
  eapply wp_bind_mono.
  { apply (do_mark_work_full_wp (abs w) anywhere (ww_graph _ (mm_wf _ Hm)) (λ _ _ _ _, I)).
    - apply Hm.
    - unfold Tracer.new. rewrite loop_fuel_nil. unfold work. cbn. lia.
    - by rewrite (sm_options _ _ Hs).
    - apply Hs. }
  intros tr w1 (Ht1 & Hadv & Hq1). cbv beta.
  assert (marked_on w w1) as Hw1 by by eapply marked_on_intro.
  pose proof (marked_on_safe _ _ _ Hs Hw1) as Hs1. pose proof (mo_recolored _ _ Hw1) as Hrc.
  pose proof (mm_wf _ (sm_mid _ _ Hs1)) as Hwf1. destruct (ww_list _ Hwf1) as [l Hl].
  apply (sweep_and_finish_wp w1 l); [done|done| | |].
  - intros live Hlive. rewrite (recolored_heap _ _ Hrc) in *. cbn in *. by apply Hp.
  - rewrite (alloc_list_length _ _ Hl).
    assert (size (mem w1) = size (mem w)) as ->; [|lia].
    pose proof (f_equal size (rc_mem _ _ Hrc)) as Hsz. rewrite !map_size_fmap in Hsz. done.
  - intros w2 t Hsw Ht _. split; [done|].
    destruct (safe_mark_swept _ _ _ _ Hs1 Hq1 Hsw) as [Hret HG].
    rewrite (marked_on_abs _ _ Hw1) in Hret. split; [|done].
    by apply (swept_idle w1 w2 l t); [..|apply Hs1| | |].
Qed.

(** C5: a collection cycle whose mark phase is interleaved with marking steps and with
    operations of disciplined clients ([mstep]) frees no object that is reachable at its
    end, and leaves an idle heap without dangling pointers.  The discipline: a new
    object points, directly or through the cells that it owns, to marked objects only;
    a new root is taken only of a marked object or of one that has a root already; and
    a thread that stores has a context.  Without it the claim is false:
    [Limits.unscanned_new_root] is a client that breaks the first rule and loses a
    reachable object. *)
Theorem incremental_cycle_safe w w1 tr w2 fuel0 fuel :
  idle w → 0 < incremental_work_budget (options (heap w)) → (enough_fuel w ≤ fuel0)%nat →
  run (Heap.try_start_marking;; Heap.do_mark_roots fuel0 Tracer.new)%gc w = Done tr w1 →
  rtc mstep w1 w2 → pacing_ok w2 → (mark_fuel w2 ≤ fuel)%nat →
  ∃ w3, run (Heap.do_mark_work_full fuel tr;; Heap.sweep_and_finish fuel)%gc w2 =
      Done (total_size (mem w3)) w3 ∧ idle w3 ∧
    ∀ a, reachable (abs w2) a → objs (abs w3) !! a = objs (abs w2) !! a.
Proof.
  intros Hidle Hb Hf0 Hrun Hst Hp Hf.
  rewrite run_bind, try_start_marking_run in Hrun by apply Hidle.
  destruct (wp_Done _ _ _ _ _ (scan_roots_wp w fuel0 Hidle Hf0) Hrun) as [-> Hs1].
  pose proof (msteps_safe _ _ _ Hst (scanned_safe _ _ Hidle Hs1)) as Hs2.
  destruct (finish_cycle_run _ _ fuel Hs2 Hb Hp Hf) as (w3 & Hrun3 & Hi & Hret).
  exists w3. split; [exact Hrun3|]. split; [done|]. apply Hret.
Qed.

(** C17: the write barrier: a store during the mark phase by a thread that has a
    context shades every object that the new value points to, so that no black object
    points to a white one. *)
Theorem write_barrier_correct o w th ctx c v t :
  safe_mark o w → tls w !! th = Some ctx → is_Some (cells w !! c) →
  is_copy t = true → has_type v t = true → wf_val (abs w) v →
  ∃ w', run (GcCell.set th c v) w = Done tt w' ∧ abs w' = g_set (abs w) c v ∧
    (∀ t a, RMark t a ∈ owned v → nonwhite w' a) ∧
    (∀ a b, color_of w' a = Some Black → edge (abs w') a b → nonwhite w' b) ∧
    (∀ a, color_of w' a = Some Gray → a ∈ gray_queue (heap w')) ∧
    n_busy_marking (heap w') = n_busy_marking (heap w).
Proof.
  intros Hs Hth Hcell Hc Hv Hwf.
  assert (wp (GcCell.set th c v) (λ _ w', safe_mark o w' ∧ abs w' = g_set (abs w) c v ∧
    ∀ t a, RMark t a ∈ owned v → nonwhite w' a) w) as Hwp.
  { eapply wp_mono; [eapply cell_set_mid_wp; [apply Hs|done..]|].
    intros _ w2 (w1 & Hw1 & Htgt & ->).
    pose proof (marked_on_safe _ _ _ Hs Hw1) as [Hm1 Hs1 Hb1 Ho1].
    pose proof (marked_on_abs _ _ Hw1) as Habs. split; [split|split].
    - eapply celled_mid; [done..| |done]. by rewrite Habs.
    - by apply celled_shaded.
    - done.
    - done.
    - change (g_set (abs w1) c v = g_set (abs w) c v). by rewrite Habs.
    - done. }
  apply wp_run in Hwp as ([] & w' & Hrun & Hs' & Habs & Htgt). exists w'.
  pose proof (mm_tri _ (sm_mid _ _ Hs')) as Ht. split; [done|]. split; [done|].
  split; [done|]. split; [apply (tri_black _ _ _ _ _ Ht)|].
  split; [apply (tri_gray _ _ _ _ _ Ht)|].
  by rewrite (sm_busy _ _ Hs), (sm_busy _ _ Hs').
Qed.

(** C21: a marking step keeps the invariant and the graph, unmarks nothing, makes
    progress unless it reports completion, and reports completion only when no gray
    object is left: repeating it terminates with everything marked. *)
Theorem do_mark_incremental_correct w fuel budget :
  mid_mark w → 0 < budget → (mark_fuel w ≤ fuel)%nat →
  ∃ complete w', run (Heap.do_mark_incremental fuel budget) w = Done complete w' ∧
    mid_mark w' ∧ abs w' = abs w ∧ (∀ a, nonwhite w a → nonwhite w' a) ∧
    (complete = true → gray_queue (heap w') = [] ∧ ∀ a, color_of w' a ≠ Some Gray) ∧
    (complete = false → (work [] w' < work [] w)%nat).
Proof.
  intros Hm Hb Hf. assert (0 ≤ budget) as Hb0 by lia. unfold mark_fuel in Hf.
  destruct (proj1 (wp_run _ _ _) (do_mark_incremental_wp w fuel budget Hm Hb0 ltac:(lia)))
    as (r & w' & Hrun & Hw & Hq & Hwork).
  exists r, w'. split; [done|]. split; [apply Hw|]. split; [by apply marked_on_abs|].
  split; [apply Hw|]. split; [|done]. intros Hr. specialize (Hq Hb Hr). split; [done|].
  intros a Ha%(tri_gray _ _ _ _ _ (mm_tri _ (mo_mid _ _ Hw))). cbn in Ha. rewrite Hq in Ha.
  by apply elem_of_nil in Ha.
Qed.

(** The busy counter: the check counts the mutator as busy exactly when a mark
    phase is running, and the decrement undoes it. *)
Theorem busy_counter_correct w :
  is_usize (n_busy_marking (heap w)) →
  let marking := bool_decide (GcPhase_from (phase (heap w)) = Marking) in
  ∃ w', run Heap.check_is_marking_and_increment_busy w = Done marking w' ∧
    w' = with_busy w (if marking then usize_fetch_add (n_busy_marking (heap w)) 1
                      else n_busy_marking (heap w)) ∧
    (marking = true → run Heap.decrement_busy_marking w' = Done tt w).
Proof.
  intros Hn marking. eexists. split; [|split; [reflexivity|]].
  - unfold Heap.check_is_marking_and_increment_busy. run_next.
    run_next. subst marking. case_bool_decide; [done|].
    run_next. by rewrite usize_add_sub.
  - intros Hmk. rewrite Hmk. cbn. rewrite usize_add_sub by done. f_equal.
    destruct w as [[] ? ? ? ? ? ? ?]. done.
Qed.

End incremental.
