(* ===== verification/ScriptLoops.v ===== *)
(** * Loops of the test programs

    What the tests of the crate do many times: allocate temporaries, fill a vector of
    roots, check the contents of its objects.  With the rules for these loops, and for
    a forced collection of a heap whose objects hold no pointers. *)

From stdpp Require Import relations.
From S2P Require Import Prelude Prog Color TraceImpls GcBox Options BgThread World.
From S2P Require Import Graph Tracing State HeapOps Mutator Marking Sweeping Collection Client.
From S2P Require Import Background Lifecycle Ownership Console Scripts ScriptRules Demo.
Open Scope Z_scope.

Section programs.
Context `{Env}.

(** [for _ in 0..n { let _tmp = ctx.allocate(d); }] *)
Fixpoint temporaries (fuel n : nat) (t : ty) (d : val) : gc unit :=
  match n with
  | O => Ret tt
  | S n =>
      (tmp ← GcContext.allocate fuel t d;
       GcRoot.drop tmp;;
       temporaries fuel n t d)%gc
  end.

(** [range.map(|i| ctx.allocate(f(i))).collect()] *)
Fixpoint alloc_roots (fuel : nat) (t : ty) (f : Z → val) (range : list Z) : gc (list loc) :=
  match range with
  | [] => Ret []
  | i :: range =>
      (root ← GcContext.allocate fuel t (f i);
       roots ← alloc_roots fuel t f range;
       Ret (root :: roots))%gc
  end.

(** [range.map(|i| ctx.allocate(f(i)).as_ptr()).collect()] *)
Fixpoint alloc_ptrs (fuel : nat) (t : ty) (f : Z → val) (range : list Z) : gc (list loc) :=
  match range with
  | [] => Ret []
  | i :: range =>
      (root ← GcContext.allocate fuel t (f i);
       GcRoot.drop root;;
       ptrs ← alloc_ptrs fuel t f range;
       Ret (GcRoot.as_ptr root :: ptrs))%gc
  end.

Open Scope io_scope.

(** [for (i, root) in roots.iter().enumerate() { assert_eq!(f(root), i); }] *)
Fixpoint check_roots (f : val → Z) (i : Z) (roots : list loc) : io unit :=
  match roots with
  | [] => done tt
  | root :: roots =>
      v ← GcRoot.deref root;
      ! assert (f v =? i);
      check_roots f (i + 1) roots
  end.

End programs.

Section rules.
Context `{Env} `{!TraceContract}.

Abbreviation known := (list (loc * obj)).

Lemma ksize_same (k : known) t :
  (∀ ao, ao ∈ k → ob_ty ao.2 = t) → ksize k = Z.of_nat (length k) * layout_size t.
Proof.
  induction k as [|[a ob] k IH]; intros Hk; [done|]. rewrite ksize_cons, IH by (intros; apply Hk; by right).
  pose proof (Hk (a, ob) ltac:(by left)) as Ht. cbn in Ht. rewrite Ht. cbn [length]. lia.
Qed.

(** [n] objects without roots. *)
Record temps (n : nat) (t : ty) (d : val) (k : known) : Prop := {
  tp_length : length k = n;
  tp_object ao : ao ∈ k → ao.2 = mkObj t 0 d;
}.

Lemma temporaries_wp fuel n t d w0 k cs w (Q : unit → world → Prop) :
  rest w0 k cs w → (0 < fuel)%nat → has_type d t = true → owned d = [] →
  ksize k + Z.of_nat n * layout_size t ≤ usize_max →
  (∀ k' w', rest w0 (k' ++ k) cs w' → temps n t d k' → Q tt w') →
  wp (temporaries fuel n t d) Q w.
Proof.
  intros Hw Hf Hty Hd. revert k w Hw. induction n as [|n IH]; intros k w Hw Hsz HQ; cbn [temporaries].
  { apply (HQ []); [done|]. split; [done|]. by intros ao ?%elem_of_nil. }
  pose proof (layout_size_usize t) as Hl. unfold is_usize in Hl. rewrite wp_bind.
  apply (rest_allocate Hw); [done|done|by apply plain_wf_val|lia|].
  intros a w1 _ Hw1. rewrite wp_bind. apply (rest_drop Hw1 0 a t 1 d); [done|done|].
  intros w2 Hw2. cbn [insert list_insert] in Hw2. eapply IH; [exact Hw2|rewrite ksize_cons; cbn [ob_ty]; lia|].
  intros k' w3 Hw3 [Hlen Hk']. apply (HQ (k' ++ [(a, mkObj t 0 d)])); [by rewrite <- app_assoc|].
  split; [rewrite length_app, Hlen; cbn; lia|].
  intros ao [Hao| ->%list_elem_of_singleton]%elem_of_app; [by apply Hk'|done].
Qed.

(** The object of the number [i], with [n] roots. *)
Definition number_obj (n : Z) (t : ty) (f : Z → val) (i : Z) (a : loc) : loc * obj := (a, mkObj t n (f i)).

(** The objects of the vector, the youngest first. *)
Definition numbered (n : Z) (t : ty) (f : Z → val) (range : list Z) (roots : list loc) : known :=
  reverse (zip_with (number_obj n t f) range roots).

Lemma alloc_roots_wp fuel t f range w0 k cs w (Q : list loc → world → Prop) :
  rest w0 k cs w → (0 < fuel)%nat → (∀ i, has_type (f i) t = true ∧ owned (f i) = []) →
  ksize k + Z.of_nat (length range) * layout_size t ≤ usize_max →
  (∀ roots w', length roots = length range → rest w0 (numbered 1 t f range roots ++ k) cs w' → Q roots w') →
  wp (alloc_roots fuel t f range) Q w.
Proof.
  intros Hw Hf Hty. revert k w Q Hw. induction range as [|i range IH]; intros k w Q Hw Hsz HQ; cbn [alloc_roots].
  { by apply (HQ []). }
  cbn [length] in Hsz. pose proof (layout_size_usize t) as Hl. unfold is_usize in Hl.
  rewrite wp_bind. apply (rest_allocate Hw); [done|apply Hty|by apply plain_wf_val, Hty|lia|].
  intros a w1 _ Hw1. rewrite wp_bind. eapply IH; [exact Hw1|rewrite ksize_cons; cbn [ob_ty]; lia|].
  intros roots w2 Hlen Hw2. apply (HQ (a :: roots)); [cbn; by rewrite Hlen|].
  unfold numbered. cbn [zip_with]. by rewrite reverse_cons, <- app_assoc.
Qed.

Lemma alloc_ptrs_wp fuel t f range w0 k cs w (Q : list loc → world → Prop) :
  rest w0 k cs w → (0 < fuel)%nat → (∀ i, has_type (f i) t = true ∧ owned (f i) = []) →
  ksize k + Z.of_nat (length range) * layout_size t ≤ usize_max →
  (∀ ptrs w', length ptrs = length range → rest w0 (numbered 0 t f range ptrs ++ k) cs w' → Q ptrs w') →
  wp (alloc_ptrs fuel t f range) Q w.
Proof.
  intros Hw Hf Hty. revert k w Q Hw. induction range as [|i range IH]; intros k w Q Hw Hsz HQ; cbn [alloc_ptrs].
  { by apply (HQ []). }
  cbn [length] in Hsz. pose proof (layout_size_usize t) as Hl. unfold is_usize in Hl.
  rewrite wp_bind. apply (rest_allocate Hw); [done|apply Hty|by apply plain_wf_val, Hty|lia|].
  intros a w1 _ Hw1. rewrite wp_bind. apply (rest_drop Hw1 0 a t 1 (f i)); [done|done|].
  intros w2 Hw2. cbn [insert list_insert] in Hw2. rewrite wp_bind.
  eapply IH; [exact Hw2|rewrite ksize_cons; cbn [ob_ty]; lia|].
  intros ptrs w3 Hlen Hw3. apply (HQ (a :: ptrs)); [cbn; by rewrite Hlen|].
  unfold numbered. cbn [zip_with]. by rewrite reverse_cons, <- app_assoc.
Qed.

Lemma numbered_elem n t f range roots ao :
  ao ∈ numbered n t f range roots → ∃ i, ao.2 = mkObj t n (f i).
Proof.
  unfold numbered. rewrite elem_of_reverse. intros [j Hj]%list_elem_of_lookup.
  apply lookup_zip_with_Some in Hj as (i & a & -> & _). by exists i.
Qed.

Lemma numbered_lookup n t f range roots j i a :
  range !! j = Some i → roots !! j = Some a → (a, mkObj t n (f i)) ∈ numbered n t f range roots.
Proof.
  intros Hi Ha. unfold numbered. apply elem_of_reverse, list_elem_of_lookup. exists j.
  apply lookup_zip_with_Some. by exists i, a.
Qed.

Lemma numbered_keys n t f range roots :
  length roots = length range → (numbered n t f range roots).*1 = reverse roots.
Proof.
  intros Hlen. unfold numbered. rewrite fmap_reverse. f_equal. revert roots Hlen.
  induction range as [|i range IH]; intros [|a roots] Hlen; try done. cbn.
  f_equal. apply IH. by injection Hlen.
Qed.

Lemma numbered_length n t f range roots :
  length roots = length range → length (numbered n t f range roots) = length range.
Proof.
  intros Hlen. rewrite <- (length_fmap fst), numbered_keys by done. by rewrite length_reverse.
Qed.

Lemma numbered_size n t f range roots :
  length roots = length range →
  ksize (numbered n t f range roots) = Z.of_nat (length range) * layout_size t.
Proof.
  intros Hlen. rewrite (ksize_same _ t); [by rewrite numbered_length|].
  intros ao [i Hi]%numbered_elem. by rewrite Hi.
Qed.

(** The vector holds one root of each of its objects. *)
Lemma numbered_single t f range roots k :
  length roots = length range → NoDup (numbered 1 t f range roots).*1 →
  (∀ ao, ao ∈ numbered 1 t f range roots → ao ∈ k) → single_roots k roots.
Proof.
  intros Hlen Hnd Hk. split.
  - by rewrite numbered_keys, reverse_Permutation in Hnd by done.
  - intros a [j Hj]%list_elem_of_lookup. assert (j < length range)%nat as Hlt
      by (rewrite <- Hlen; by eapply lookup_lt_Some).
    apply lookup_lt_is_Some_2 in Hlt as [i Hi].
    pose proof (Hk _ (numbered_lookup 1 t f range roots j i a Hi Hj)) as Hin.
    apply list_elem_of_lookup in Hin as [l Hl]. by exists l, t, (f i).
Qed.

Lemma numbered_rooted n t f range roots ao :
  length roots = length range → ao ∈ numbered n t f range roots → ao.1 ∈ roots.
Proof.
  intros Hlen Hao. rewrite <- elem_of_reverse, <- (numbered_keys n t f range) by done.
  apply list_elem_of_fmap. by exists ao.
Qed.

(** Dropping roots changes neither the contents nor the sizes. *)
Lemma unroot_owned rs ao : owned (ob_data (unroot rs ao).2) = owned (ob_data ao.2).
Proof. unfold unroot. by case_decide. Qed.

Lemma unroot_size rs k : ksize (unroot rs <$> k) = ksize k.
Proof.
  induction k as [|ao k IH]; [done|]. unfold ksize in *. cbn. rewrite IH. unfold unroot. by case_decide.
Qed.

Lemma check_roots_wp f rs i k cs w0 w log (Q : list line → unit → world → Prop) :
  rest w0 k cs w →
  (∀ j a, rs !! j = Some a → ∃ l ob, k !! l = Some (a, ob) ∧ f (ob_data ob) = i + Z.of_nat j) →
  Q log tt w → wpio log (check_roots f i rs) Q w.
Proof.
  intros Hw. revert i. induction rs as [|a rs IH]; intros i Hrs HQ; [by apply wpio_done|].
  cbn [check_roots]. destruct (Hrs 0%nat a eq_refl) as (l & ob & Hl & Hob). rewrite Z.add_0_r in Hob.
  apply wpio_lift, (rest_deref Hw l _ _ _ Hl), wpio_assert; [by apply Z.eqb_eq|].
  apply IH; [|done]. intros j b Hj. destruct (Hrs (S j) b Hj) as (l' & ob' & Hl' & Hob').
  exists l', ob'. split; [done|lia].
Qed.

(** ** Collections without pointers *)

Lemma collect_plain w0 k cs w fuel (Q : Z → world → Prop) :
  rest w0 k cs w → (∀ ao, ao ∈ k → owned (ob_data ao.2) = []) →
  0 < incremental_work_budget (options (heap w0)) → pacing_ok w → (2 * length k + 2 ≤ fuel)%nat →
  (∀ w', rest w' (List.filter has_root k) cs w' → collected_rest k has_root w0 w' →
     Q (ksize (List.filter has_root k)) w') →
  wp (Heap.force_collect fuel) Q w.
Proof.
  intros Hw Hplain Hb Hp Hf HQ. apply (rest_force_collect Hw has_root); [|done..].
  intros ao Hao. by apply (plain_reachable Hw).
Qed.

Lemma filter_temps n t d k' k :
  temps n t d k' → List.filter has_root (k' ++ k) = List.filter has_root k.
Proof.
  intros [_ Hk']. clear n. induction k' as [|ao k' IH]; [done|]. cbn.
  unfold has_root at 1. rewrite (Hk' ao) by by left. apply IH. intros x Hx. apply Hk'. by right.
Qed.

Lemma filter_unrooted k : (∀ ao, ao ∈ k → has_root ao = false) → List.filter has_root k = [].
Proof.
  induction k as [|ao k IH]; intros Hk; [done|]. cbn. rewrite (Hk ao) by by left.
  apply IH. intros x Hx. apply Hk. by right.
Qed.

Lemma filter_rooted k : (∀ ao, ao ∈ k → has_root ao = true) → List.filter has_root k = k.
Proof.
  induction k as [|ao k IH]; intros Hk; [done|]. cbn. rewrite (Hk ao) by by left.
  f_equal. apply IH. intros x Hx. apply Hk. by right.
Qed.

Lemma temps_size n t d k : temps n t d k → ksize k = Z.of_nat n * layout_size t.
Proof.
  intros [Hlen Hk]. rewrite (ksize_same _ t), Hlen; [done|]. intros ao Hao. by rewrite (Hk ao).
Qed.

Lemma temps_plain n t d k :
  temps n t d k → owned d = [] → ∀ ao, ao ∈ k → owned (ob_data ao.2) = [].
Proof. intros [_ Hk] Hd ao Hao. by rewrite (Hk ao Hao). Qed.

Lemma numbered_plain n t f range roots :
  (∀ i, owned (f i) = []) → ∀ ao, ao ∈ numbered n t f range roots → owned (ob_data ao.2) = [].
Proof. intros Hf ao [i Hi]%numbered_elem. rewrite Hi. apply Hf. Qed.

(** Without its roots nothing of a vector stays. *)
Lemma filter_unroot rs k :
  (∀ ao, ao ∈ k → ob_roots ao.2 = 0 ∨ ao.1 ∈ rs) → List.filter has_root (unroot rs <$> k) = [].
Proof.
  intros Hk. apply filter_unrooted. intros x (ao & -> & Hao)%list_elem_of_fmap.
  unfold unroot. case_decide; [done|]. destruct (Hk ao Hao) as [Hr|]; [|done].
  unfold has_root. by rewrite Hr.
Qed.

(** ** The end of a test *)

(** [n] objects are left, and only the background thread owns the heap. *)
Definition ended (n : nat) (w : world) : Prop := size (mem w) = n ∧ strong w = 1.

Lemma rest_end w0 k cs w fuel th ctx (Q : unit → world → Prop) :
  rest w0 k cs w → strong w0 = 2 → (∀ w', ended (length k) w' → Q tt w') →
  wp (GcContext.drop fuel th ctx) Q w.
Proof.
  intros Hw Hs HQ. destruct (rs_frame _ _ _ _ Hw) as (_ & _ & _ & Hs' & _). rewrite Hs in Hs'.
  apply wp_run. eexists _, _. split; [apply context_drop_shared; by rewrite Hs'|].
  apply HQ. split; cbn; [by apply (rest_count_size Hw)|by rewrite Hs'].
Qed.

End rules.
