(* ===== verification/UnitTests.v ===== *)
(** * The unit tests of the crate

    The tests of [src/src/lib.rs] that run on one thread, and the tests of
    [src/src/cell.rs], as programs with assertions: none of them panics, for any
    layout and any allocator.  The last one drives a collection by hand and stores
    into a cell in the middle of it. *)

From stdpp Require Import relations.
From S2P Require Import Prelude Prog Color TraceImpls GcBox Options BgThread World.
From S2P Require Import Graph Tracing State HeapOps Mutator Marking Sweeping Collection Client.
From S2P Require Import Background Lifecycle Console Ownership Scripts ScriptRules Demo.
From S2P Require Import Incremental.
Open Scope Z_scope.

Section tests.
Context `{Env}.

Abbreviation I32_ty := (TPrim I32).
Abbreviation Vec_ty := (TIter Vec (TPrim I32)).
Abbreviation Ptr_ty := (TGcPtr (TPrim I32)).

(** A number, and the length of a vector. *)
Definition number (v : val) : Z := match v with VPrim _ n => n | _ => -1 end.
Definition len (v : val) : Z := match v with VIter _ vs => Z.of_nat (length vs) | _ => -1 end.

(** The pointer, and the cell, that a value is. *)
Definition pointer (v : val) : gc loc :=
  match v with VGcPtr _ a => Ret a | _ => throw IllTyped end.
Definition cell (v : val) : gc loc :=
  match v with VGcCell c => Ret c | _ => throw IllTyped end.

Definition ptr_to (a : loc) : val := VGcPtr I32_ty (GcRoot.as_ptr a).

Open Scope io_scope.

(** ** [src/src/lib.rs] *)

Definition test_basic_allocation (fuel th : nat) : io unit :=
  ctx ← GcContext.new fuel th;
  ptr ← GcContext.allocate fuel I32_ty (i32 42);
  v ← GcRoot.deref ptr;
  ! assert (number v =? 42);
  GcRoot.drop ptr;;
  GcContext.drop fuel th ctx;;
  done tt.

Definition allocation_and_collection (fuel th : nat) : io unit :=
  ctx ← GcContext.new fuel th;
  ptr1 ← GcContext.allocate fuel I32_ty (i32 100);
  ptr2 ← GcContext.allocate fuel I32_ty (i32 200);
  GcRoot.drop ptr2;;
  Heap.collect fuel;;
  v ← GcRoot.deref ptr1;
  ! assert (number v =? 100);
  GcRoot.drop ptr1;;
  GcContext.drop fuel th ctx;;
  done tt.

Definition incremental_marking (fuel th : nat) : io unit :=
  ctx ← GcContext.new fuel th;
  root ← GcContext.allocate fuel Vec_ty (vec (map i32 [1; 2; 3]));
  temp ← GcContext.allocate fuel Vec_ty (vec (map i32 [4; 5; 6]));
  Heap.force_collect fuel;;
  v ← GcRoot.deref root;
  ! assert (len v =? 3);
  GcRoot.drop temp;;
  GcRoot.drop root;;
  GcContext.drop fuel th ctx;;
  done tt.

(** ** [src/src/cell.rs] *)

Definition test_gcptrcell_basic (fuel th : nat) : io unit :=
  ctx ← GcContext.new fuel th;
  value1 ← GcContext.allocate fuel I32_ty (i32 10);
  value2 ← GcContext.allocate fuel I32_ty (i32 20);
  c ← GcCell.new (ptr_to value1);
  retrieved ← (v ← GcCell.get c; p ← pointer v; GcPtr.root p)%gc;
  v ← GcRoot.deref retrieved;
  ! assert (number v =? 10);
  GcCell.set th c (ptr_to value2);;
  retrieved2 ← (v ← GcCell.get c; p ← pointer v; GcPtr.root p)%gc;
  v ← GcRoot.deref retrieved2;
  ! assert (number v =? 20);
  GcRoot.drop retrieved2;;
  GcRoot.drop retrieved;;
  GcRoot.drop value2;;
  GcRoot.drop value1;;
  GcContext.drop fuel th ctx;;
  done tt.

Definition test_gcptrcell_write_barrier (fuel th : nat) : io unit :=
  ctx ← GcContext.off fuel th;
  value1 ← GcContext.allocate fuel I32_ty (i32 10);
  value2 ← GcContext.allocate fuel I32_ty (i32 20);
  GcRoot.drop value2;;
  c ← GcCell.new (ptr_to value1);
  cell_ptr ← GcContext.allocate fuel (TGcCell Ptr_ty) (VGcCell c);
  old_allocated ← Heap.get_bytes_allocated;
  Heap.try_mark_full fuel;;
  white ← is_white value2;
  ! assert white;
  (v ← GcRoot.deref cell_ptr; c ← cell v; GcCell.set th c (ptr_to value2))%gc;;
  white ← is_white value2;
  ! assert (negb white);
  Heap.sweep_and_finish fuel;;
  new_allocated ← Heap.get_bytes_allocated;
  ! assert (new_allocated =? old_allocated);
  v ← GcPtr.as_ptr value2;
  ! assert (number v =? 20);
  GcRoot.drop cell_ptr;;
  GcRoot.drop value1;;
  GcContext.drop fuel th ctx;;
  done tt.

End tests.

Section pass.
Context `{Env} `{!TraceContract}.

Abbreviation I32_ty := (TPrim I32).
Abbreviation Vec_ty := (TIter Vec (TPrim I32)).
Abbreviation Ptr_ty := (TGcPtr (TPrim I32)).

(** The test returns without a panic, and leaves [n] objects to the background
    thread. *)
Definition passes (n : nat) (test : io unit) (w0 : world) : Prop :=
  ∃ w, run (main test) w0 = Done ([], tt) w ∧ abandoned n w.

Lemma passes_intro n test w0 :
  wpio [] test (λ log _ w, log = [] ∧ abandoned n w) w0 → passes n test w0.
Proof. apply wpio_output. Qed.

Lemma basic_allocation_passes w0 fuel th :
  unborn w0 → dropped w0 = [] → (0 < fuel)%nat → layout_size I32_ty ≤ 1048576 →
  passes 1 (test_basic_allocation fuel th) w0.
Proof.
  intros Hu Hd Hf Hsz. assert (1048576 ≤ usize_max) by done.
  pose proof (layout_size_usize I32_ty). apply passes_intro, wpio_new; [done..|].
  intros ctx w Hw Hlim Hthr Hend. io_alloc Hw ptr w1 Hn1. io_deref Hw 0%nat.
  apply wpio_assert; [done|]. io_drop Hw 0%nat w2. eapply Hend; [exact Hw|]. by split.
Qed.

Lemma allocation_and_collection_passes w0 fuel th :
  unborn w0 → dropped w0 = [] → (0 < fuel)%nat → 2 * layout_size I32_ty ≤ 1048576 →
  passes 2 (allocation_and_collection fuel th) w0.
Proof.
  intros Hu Hd Hf Hsz. assert (1048576 ≤ usize_max) by done.
  pose proof (layout_size_usize I32_ty). apply passes_intro, wpio_new; [done..|].
  intros ctx w Hw Hlim Hthr Hend. io_alloc Hw ptr1 w1 Hn1. io_alloc Hw ptr2 w2 Hn2.
  io_drop Hw 0%nat w3. io_collect Hw Hthr. io_deref Hw 1%nat.
  apply wpio_assert; [done|]. io_drop Hw 1%nat w4. eapply Hend; [exact Hw|]. by split.
Qed.

(** A new context with the default options. *)
Lemma wpio_born w0 fuel th log (k : loc → io unit) Q :
  unborn w0 → dropped w0 = [] →
  (∀ ctx w, rest w [] ∅ w → options (heap w) = GcOptions.DEFAULT →
     current_threshold (heap w) = 1048576 → strong w = 2 → running w = {[1]} →
     dropped w = [] → StartStop.is_stopped (bg_thread (heap w)) 1 = false →
     wpio log (k ctx) Q w) →
  wpio log (then_io (lift (GcContext.new fuel th)) k) Q w0.
Proof.
  intros Hu Hd HQ. apply wpio_lift, rest_new; [done|apply DEFAULT_wf|].
  intros ctx w Hw Ho Ht Hr Hs Hd' Hst _ _. apply HQ; try done; by rewrite ?Ht, ?Hd'.
Qed.

Lemma incremental_marking_passes w0 fuel th :
  unborn w0 → dropped w0 = [] → (6 ≤ fuel)%nat → 2 * layout_size Vec_ty ≤ 1048576 →
  passes 2 (incremental_marking fuel th) w0.
Proof.
  intros Hu Hd Hf Hsz. assert (1048576 ≤ usize_max) by done.
  pose proof (layout_size_usize Vec_ty). apply passes_intro, wpio_born; [done..|].
  intros ctx w Hw Ho Hthr Hs Hr Hdr Hst. io_alloc Hw root w1 Hn1. io_alloc Hw temp w2 Hn2.
  apply wpio_lift, (rest_force_collect Hw has_root).
  - intros ao Hao. apply (plain_reachable Hw); [|done]. clear.
    intros ao [->|[->|[]%elem_of_nil]%elem_of_cons]%elem_of_cons; done.
  - by rewrite Ho.
  - apply pacing_DEFAULT; rewrite ?(rs_options _ _ _ _ Hw), ?(rs_threshold _ _ _ _ Hw),
      ?(rest_bytes Hw), ?Hthr; [done| |done]. known_size.
  - cbn. lia.
  - cbn [List.filter has_root ob_roots snd Z.ltb Z.compare]. intros w3 Hw3 [_ _ Hbg (F1 & F2 & F3 & F4) (d & Hd3 & _ & Hall)].
    assert (d = []) as ->.
    { destruct d as [|a d]; [done|]. destruct (proj1 (Hall a)) as (o & Hin & Hk); [by left|].
      apply elem_of_cons in Hin as [[= -> ->]|Hin]; [done|].
      apply list_elem_of_singleton in Hin. by simplify_eq. }
    io_deref Hw3 1%nat. apply wpio_assert; [done|]. io_drop Hw3 0%nat w4. io_drop Hw3 1%nat w5.
    apply wpio_lift. eapply rest_leave; [exact Hw3|by rewrite F4|by rewrite F3| |by rewrite Hbg|].
    { by rewrite Hd3, Hdr. }
    intros w6 Hab. by split.
Qed.

Lemma test_gcptrcell_basic_passes w0 fuel th :
  unborn w0 → dropped w0 = [] → (0 < fuel)%nat → 2 * layout_size I32_ty ≤ 1048576 →
  passes 2 (test_gcptrcell_basic fuel th) w0.
Proof.
  intros Hu Hd Hf Hsz. assert (1048576 ≤ usize_max) by done.
  pose proof (layout_size_usize I32_ty). apply passes_intro, wpio_new; [done..|].
  intros ctx w Hw Hlim Hthr Hend. io_alloc Hw value1 w1 Hn1. io_alloc Hw value2 w2 Hn2.
  apply wpio_lift, (rest_cell_new Hw _ Ptr_ty); [done|done|].
  clear Hw. intros c w3 Hc Hw. apply wpio_lift. rewrite wp_bind.
  eapply (rest_cell_get Hw); [apply lookup_insert_eq|]. rewrite wp_bind. cbn [pointer ptr_to wp].
  eapply (rest_root Hw 1); [reflexivity|done|]. clear Hw. intros w4 Hw. cbn [insert list_insert] in Hw.
  io_deref Hw 1%nat. apply wpio_assert; [done|].
  apply wpio_lift. eapply (rest_cell_set Hw _ _ _ Ptr_ty); [by rewrite lookup_insert_eq|done|done| |].
  { eapply (pointer_wf_val _ _ _ _ _ 0); [reflexivity|apply (rs_keys _ _ _ _ Hw)|reflexivity|reflexivity]. }
  clear Hw. intros w5 Hw. apply wpio_lift. rewrite wp_bind.
  eapply (rest_cell_get Hw); [apply lookup_insert_eq|]. rewrite wp_bind. cbn [pointer ptr_to wp].
  eapply (rest_root Hw 0); [reflexivity|done|]. clear Hw. intros w6 Hw. cbn [insert list_insert] in Hw.
  io_deref Hw 0%nat. apply wpio_assert; [done|].
  io_drop Hw 0%nat w7. io_drop Hw 1%nat w8. io_drop Hw 0%nat w9. io_drop Hw 1%nat w10.
  eapply Hend; [exact Hw|]. by split.
Qed.

(** ** The test of the write barrier *)

Lemma pacing_off w : options (heap w) = GcOptions.OFF → pacing_ok w.
Proof. intros Ho live _. rewrite Ho. by eexists. Qed.

Lemma OFF_wf : GcOptions.wf GcOptions.OFF.
Proof. unfold GcOptions.wf, is_usize. split_and!; vm_compute; discriminate. Qed.

(** The heap of the test: [a2] has no root, and the cell points to [target]. *)
Section barrier.
Variables (a1 a2 ap c : loc).

Definition barrier_values : list (loc * obj) :=
  [(a2, mkObj I32_ty 0 (i32 20)); (a1, mkObj I32_ty 1 (i32 10))].
Definition barrier_known : list (loc * obj) :=
  (ap, mkObj (TGcCell Ptr_ty) 1 (VGcCell c)) :: barrier_values.
Definition barrier_cells (target : loc) : gmap loc val :=
  {[c := VGcPtr I32_ty target]}.

Lemma barrier_wf_val :
  NoDup barrier_values.*1 → wf_val (kgraph barrier_values (barrier_cells a1)) (VGcCell c).
Proof.
  intros [H2 _]%NoDup_cons. cbn in H2. rewrite list_elem_of_singleton in H2. split.
  - intros t a [Hin|c' v Hin Hc Hin']; apply list_elem_of_singleton in Hin; [done|]. simplify_eq.
    unfold barrier_cells in Hc. cbn in Hc. rewrite lookup_singleton_eq in Hc. simplify_eq. cbn in Hin'.
    apply list_elem_of_singleton in Hin'. simplify_eq. exists (mkObj I32_ty 1 (i32 10)).
    split; [|done]. cbn. rewrite lookup_insert_ne by done. apply lookup_insert_eq.
  - intros c' Hin. apply list_elem_of_singleton in Hin. simplify_eq. unfold barrier_cells. cbn.
    rewrite lookup_singleton_eq. by eexists.
Qed.

Hypothesis Hkeys : NoDup barrier_known.*1.

Lemma barrier_distinct : ap ≠ a2 ∧ a1 ≠ a2.
Proof.
  apply NoDup_cons in Hkeys as [Hp Hk]. apply NoDup_cons in Hk as [H2 _].
  cbn in Hp, H2. rewrite !not_elem_of_cons in Hp, H2. by destruct Hp, H2.
Qed.

Lemma barrier_objs target x o :
  objs (kgraph barrier_known (barrier_cells target)) !! x = Some o →
  (x = ap ∧ o = mkObj (TGcCell Ptr_ty) 1 (VGcCell c)) ∨
  (x = a2 ∧ o = mkObj I32_ty 0 (i32 20)) ∨ (x = a1 ∧ o = mkObj I32_ty 1 (i32 10)).
Proof.
  intros Hx%(elem_of_list_to_map_2 barrier_known). unfold barrier_known, barrier_values in Hx.
  rewrite !elem_of_cons in Hx. destruct Hx as [[= -> ->]|[[= -> ->]|[[= -> ->]|Hx]]]; auto.
  by apply elem_of_nil in Hx.
Qed.

Lemma barrier_reachable x :
  reachable (kgraph barrier_known (barrier_cells a1)) x → x = ap ∨ x = a1.
Proof.
  revert x. apply (reachable_ind_closed _ (λ x, x = ap ∨ x = a1)).
  - intros x (o & Ho & Hn). apply barrier_objs in Ho as [[? ->]|[[? ->]|[? ->]]]; cbn in Hn; auto; lia.
  - intros x y _ (o & t & Ho & Hpt). right.
    apply barrier_objs in Ho as [[_ ->]|[[_ ->]|[_ ->]]]; destruct Hpt as [Hin|c' v Hin Hc Hin'];
      cbn in Hin; try (by apply elem_of_nil in Hin); apply list_elem_of_singleton in Hin; simplify_eq.
    unfold barrier_cells in Hc. cbn in Hc. rewrite lookup_singleton_eq in Hc. simplify_eq. cbn in Hin'.
    apply list_elem_of_singleton in Hin'. by simplify_eq.
Qed.

Lemma barrier_unreachable : ¬ reachable (kgraph barrier_known (barrier_cells a1)) a2.
Proof. intros [->| ->]%barrier_reachable; by destruct barrier_distinct. Qed.

Lemma barrier_alive w x b :
  abs w = kgraph barrier_known (barrier_cells a2) → nonwhite w a2 → mem w !! x = Some b →
  box_dead b = false.
Proof.
  intros Habs (col & Hcol & Hn) Hb. unfold box_dead, AtomicColor.is_white. fold (box_color b).
  assert (objs (abs w) !! x = Some (abs_box b)) as Ho by (cbn; by rewrite lookup_fmap, Hb).
  rewrite Habs in Ho. apply andb_false_iff.
  apply barrier_objs in Ho as [[_ Ho]|[[-> _]|[_ Ho]]].
  - right. unfold abs_box in Ho. injection Ho as _ Hr _. unfold GcHeader_is_root. by rewrite Hr.
  - left. unfold color_of in Hcol. rewrite Hb in Hcol. cbn in Hcol. simplify_eq.
    by apply bool_decide_eq_false.
  - right. unfold abs_box in Ho. injection Ho as _ Hr _. unfold GcHeader_is_root. by rewrite Hr.
Qed.

End barrier.

(** From the mark phase to the end of the test: everything survives. *)
Definition barrier_end (w : world) : Prop :=
  mem w = ∅ ∧ strong w = 0 ∧ size (list_to_set (dropped w) : gset loc) = 3%nat.

Abbreviation barrier_state a1 a2 ap c target :=
  (kgraph (barrier_known a1 a2 ap c) (barrier_cells c target)).

(** What neither marking nor a store changes. *)
Record same_rest (w w' : world) : Prop := {
  sr_bytes : bytes_allocated (heap w') = bytes_allocated (heap w);
  sr_options : options (heap w') = options (heap w);
  sr_bg : bg_thread (heap w') = bg_thread (heap w);
  sr_tls : tls w' = tls w;
  sr_running : running w' = running w;
  sr_strong : strong w' = strong w;
  sr_dropped : dropped w' = dropped w;
}.

Lemma recolored_rest w w' : recolored w w' → same_rest w w'.
Proof.
  intros Hrc. split; try (symmetry; apply Hrc); rewrite (recolored_heap _ _ Hrc); done.
Qed.

Lemma barrier_store_wp th ctx a1 a2 ap c w (Q : unit → world → Prop) :
  NoDup (barrier_known a1 a2 ap c).*1 →
  safe_mark GcOptions.OFF w → tls w !! th = Some ctx → abs w = barrier_state a1 a2 ap c a1 →
  (∀ w', wf_world w' → abs w' = barrier_state a1 a2 ap c a2 → nonwhite w' a2 →
     same_rest w w' → Q tt w') →
  wp (v ← GcRoot.deref ap; c ← cell v; GcCell.set th c (ptr_to a2))%gc Q w.
Proof.
  intros Hk Hs Hth Habs HQ. assert (objs (abs w) !! ap = Some (mkObj (TGcCell Ptr_ty) 1 (VGcCell c))) as Hap
    by (rewrite Habs; apply lookup_insert_eq).
  rewrite wp_bind. apply wp_run. exists (VGcCell c), w. split; [exact (deref_run _ _ _ Hap)|].
  rewrite wp_bind. cbn [cell wp].
  assert (wf_val (abs w) (ptr_to a2)) as Hwf.
  { rewrite Habs. by eapply (pointer_wf_val _ _ _ _ _ 1). }
  assert (is_Some (cells w !! c)) as Hc.
  { change (is_Some (gcells (abs w) !! c)). rewrite Habs. unfold barrier_cells. cbn.
    rewrite lookup_singleton_eq. by eexists. }
  eapply wp_mono; [by eapply (cell_set_mid_wp w th ctx c _ Ptr_ty); [apply Hs|..]|].
  intros [] w2 (w1 & Hw1 & Htgt & ->). pose proof (mo_recolored _ _ Hw1) as Hrc.
  pose proof (marked_on_safe _ _ _ Hs Hw1) as Hs1.
  assert (nonwhite w1 a2) as Hnw by (apply (Htgt I32_ty); by left).
  apply HQ; [| |done|by destruct (recolored_rest _ _ Hrc); split].
  - assert (mid_mark (celled w1 c (ptr_to a2))) as Hm; [|apply Hm].
    eapply (celled_mid _ _ _ Ptr_ty); [apply Hs1|done|done| |].
    + by rewrite (marked_on_abs _ _ Hw1).
    + intros t a Hin. by eapply Htgt.
  - change (g_set (abs w1) c (ptr_to a2) = barrier_state a1 a2 ap c a2).
    rewrite (marked_on_abs _ _ Hw1), Habs. unfold g_set, kgraph, barrier_cells. cbn.
    by rewrite insert_singleton_eq.
Qed.

(** The last steps, on a heap that is not at rest: the queue still holds [a2]. *)
Lemma barrier_leave_wp th ctx fuel a1 a2 ap c w log Q :
  wf_world w → NoDup (barrier_known a1 a2 ap c).*1 →
  abs w = barrier_state a1 a2 ap c a2 → strong w = 1 → running w = ∅ → dropped w = [] →
  (3 ≤ fuel)%nat → (∀ w', barrier_end w' → Q log tt w') →
  wpio log (GcRoot.drop ap;; GcRoot.drop a1;; GcContext.drop fuel th ctx;; done tt)%io Q w.
Proof.
  intros Hwf Hk Habs Hs Hr Hd Hf HQ.
  assert (∀ x o, objs (abs w) !! x = Some o → is_usize (usize_fetch_sub (ob_roots o) 1)) as Hu
    by (intros; apply usize_wrap_range).
  assert (∀ x, x ∈ (barrier_known a1 a2 ap c).*1 →
    is_Some (objs (abs w) !! x)) as Hex.
  { intros x ([y o] & -> & Hin)%list_elem_of_fmap. rewrite Habs. exists o. cbn [objs kgraph].
    by apply elem_of_list_to_map. }
  set (w1 := rerooted w ap (λ n, usize_fetch_sub n 1)).
  assert (wf_world w1) as Hwf1 by (apply rerooted_wf; [done|by apply Hu]).
  set (w2 := rerooted w1 a1 (λ n, usize_fetch_sub n 1)).
  assert (wf_world w2) as Hwf2 by (apply rerooted_wf; [done|intros; apply usize_wrap_range]).
  destruct (ww_list _ Hwf2) as [l Hl].
  assert (dom (mem w2) = list_to_set (barrier_known a1 a2 ap c).*1)
    as Hdom.
  { assert (dom (mem w2) = dom (objs (abs w))) as ->.
    { cbn. rewrite !dom_alter_L, dom_fmap_L. done. }
    rewrite Habs. apply dom_list_to_map_L. }
  apply wpio_lift, wp_run. exists tt, w1. split; [apply dec_root_run, abs_is_Some, Hex; by left|].
  apply wpio_lift, wp_run. exists tt, w2. split.
  { apply dec_root_run, abs_is_Some. unfold w1. rewrite rerooted_abs. cbn.
    rewrite lookup_alter_is_Some. apply Hex. do 2 right. by left. }
  apply wpio_lift, wp_run. exists tt, (owners (left_ctx (destroyed w2 l) th ctx) 0). split.
  - apply context_drop_last; [done|done| |].
    + rewrite <- size_dom, Hdom. etransitivity; [|exact Hf]. rewrite size_list_to_set by done. done.
    + intros c0 _. change (c0 ∉ running w). rewrite Hr. apply not_elem_of_empty.
  - apply wpio_done, HQ. split; [done|]. split; [done|]. cbn. rewrite Hd. cbn.
    assert (list_to_set l = dom (mem w2)) as ->.
    { apply leibniz_equiv. intros x. rewrite elem_of_list_to_set, elem_of_dom.
      by apply alloc_list_elem. }
    rewrite Hdom. by rewrite size_list_to_set.
Qed.

Lemma write_barrier_passes w0 fuel th :
  unborn w0 → dropped w0 = [] → (8 ≤ fuel)%nat →
  2 * layout_size I32_ty + layout_size (TGcCell Ptr_ty) ≤ usize_max →
  ∃ w, run (main (test_gcptrcell_write_barrier fuel th)) w0 = Done ([], tt) w ∧ barrier_end w.
Proof.
  intros Hu Hd Hf Hsz. apply wpio_output.
  pose proof (layout_size_usize I32_ty). pose proof (layout_size_usize (TGcCell Ptr_ty)).
  unfold test_gcptrcell_write_barrier. apply wpio_lift.
  apply (rest_new w0 GcOptions.OFF th fuel); [done|apply OFF_wf|].
  intros ctx w Hw Ho _ Hr Hs Hdr _ Htls _. rewrite Hd in Hdr.
  io_alloc Hw a1 w1 Hn1. io_alloc Hw a2 w2 Hn2. io_drop Hw 0%nat w3.
  apply wpio_lift, (rest_cell_new Hw _ Ptr_ty); [done|done|]. clear Hw. intros c w4 Hc Hw.
  apply wpio_lift, (rest_allocate Hw); [lia|done| |known_size|].
  { apply (barrier_wf_val a1 a2 c), (rs_keys _ _ _ _ Hw). }
  clear Hw. intros ap w5 Hn3 Hw. change (rest w (barrier_known a1 a2 ap c) (barrier_cells c a1) w5) in Hw.
  io_bytes Hw. pose proof (rs_keys _ _ _ _ Hw) as Hk. pose proof (rs_idle _ _ _ _ Hw) as Hidle.
  destruct (rs_frame _ _ _ _ Hw) as (F1 & _ & F3 & F4 & F5).
  destruct (try_mark_full_wp w5 fuel Hidle) as (w6 & Hrun & Hm);
    [by rewrite (rs_options _ _ _ _ Hw), Ho|unfold enough_fuel; rewrite (rest_count_size Hw); cbn; lia|].
  pose proof (mark_done_safe _ _ Hidle Hm) as Hsafe.
  rewrite (rs_options _ _ _ _ Hw), Ho in Hsafe.
  pose proof (md_recolored _ _ Hm) as Hrc. pose proof (recolored_rest _ _ Hrc) as H6.
  pose proof (recolored_abs _ _ Hrc) as Habs6. change (abs w5 = abs w6) in Habs6.
  pose proof (rs_abs _ _ _ _ Hw) as Habs5.
  apply wpio_lift, wp_run. exists true, w6. split; [done|].
  assert (is_Some (mem w6 !! a2)) as [b6 Hb6].
  { apply abs_is_Some. rewrite <- Habs6, Habs5. eexists. apply (known_lookup _ 1 a2 _ Hk). done. }
  apply wpio_lift, (is_white_wp _ _ _ _ Hb6). apply wpio_assert.
  { destruct (box_dead b6) eqn:E; [done|]. exfalso.
    apply (mark_done_dead _ _ _ _ Hidle Hm Hb6) in E. rewrite Habs5 in E.
    by apply (barrier_unreachable a1 a2 ap c Hk). }
  apply wpio_lift, (barrier_store_wp th ctx a1 a2 ap c w6); [done|done| |by rewrite <- Habs6|].
  { rewrite (sr_tls _ _ H6). change (tls w5 !! th = Some ctx). rewrite F1, Htls.
    apply lookup_singleton_eq. }
  intros w7 Hwf7 Habs7 Hnw7 H7.
  assert (∀ x b, mem w7 !! x = Some b → box_dead b = false) as Halive
    by (intros x b; by eapply barrier_alive).
  assert (is_Some (mem w7 !! a2)) as [b7 Hb7].
  { apply abs_is_Some. rewrite Habs7. eexists. apply (known_lookup _ 1 a2 _ Hk). done. }
  apply wpio_lift, (is_white_wp _ _ _ _ Hb7). rewrite (Halive _ _ Hb7).
  apply wpio_assert; [done|].
  assert (options (heap w7) = GcOptions.OFF) as Ho7
    by by rewrite (sr_options _ _ H7), (sm_options _ _ Hsafe).
  assert (size (mem w7) = 3%nat) as Hsize.
  { rewrite <- (map_size_fmap abs_box). change (size (objs (abs w7)) = 3%nat).
    rewrite Habs7, <- size_dom. cbn [objs kgraph]. rewrite dom_list_to_map_L.
    by rewrite size_list_to_set by exact Hk. }
  apply wpio_lift, sweep_keeps_all; [done|by apply pacing_off|lia|done|].
  intros w8 Hwf8 Habs8 Hd8 Hr8 Hs8 _.
  assert (bytes_allocated (heap w8) = ksize (barrier_known a1 a2 ap c)) as Hb8.
  { rewrite (ww_bytes _ Hwf8), total_size_abs by apply Hwf8. rewrite Habs8, Habs7.
    by apply kgraph_size. }
  apply wpio_lift. cbn [wp Heap.get_bytes_allocated heap_get get action]. rewrite Hb8.
  apply wpio_assert; [by rewrite Z.eqb_refl|].
  apply wpio_lift, wp_run. exists (i32 20), w8. split.
  { apply (deref_run w8 a2 (mkObj I32_ty 0 (i32 20))). rewrite Habs8, Habs7.
    apply (known_lookup _ 1 a2 _ Hk). done. }
  apply wpio_assert; [done|].
  apply (barrier_leave_wp th ctx fuel a1 a2 ap c); [done|done|by rewrite Habs8| | | |lia|].
  - rewrite Hs8, (sr_strong _ _ H7), (sr_strong _ _ H6). change (strong w5 = 1). by rewrite F4, Hs.
  - rewrite Hr8, (sr_running _ _ H7), (sr_running _ _ H6). change (running w5 = ∅). by rewrite F3, Hr.
  - rewrite Hd8, (sr_dropped _ _ H7), (sr_dropped _ _ H6). change (dropped w5 = []). by rewrite F5, Hdr.
  - intros w9 Hend. by split.
Qed.

(** C39: the unit tests of the crate that run on one thread pass: from a fresh
    process state each returns without a failed assertion, for any layout and any
    allocator.  The first four abandon their heap to the background thread; the last,
    which sweeps in the middle of a mark phase, destroys its heap with its three
    objects. *)
Theorem unit_tests_pass w0 fuel th :
  unborn w0 → dropped w0 = [] → (8 ≤ fuel)%nat → 2 * layout_size I32_ty ≤ 1048576 →
  2 * layout_size Vec_ty ≤ 1048576 →
  2 * layout_size I32_ty + layout_size (TGcCell Ptr_ty) ≤ usize_max →
  passes 1 (test_basic_allocation fuel th) w0 ∧
  passes 2 (allocation_and_collection fuel th) w0 ∧
  passes 2 (incremental_marking fuel th) w0 ∧
  passes 2 (test_gcptrcell_basic fuel th) w0 ∧
  ∃ w, run (main (test_gcptrcell_write_barrier fuel th)) w0 = Done ([], tt) w ∧ barrier_end w.
Proof.
  intros Hu Hd Hf H1 H2 H3. pose proof (layout_size_usize I32_ty) as Hl. unfold is_usize in Hl.
  split; [apply basic_allocation_passes; auto with lia|].
  split; [apply allocation_and_collection_passes; auto with lia|].
  split; [apply incremental_marking_passes; auto with lia|].
  split; [apply test_gcptrcell_basic_passes; auto with lia|]. by apply write_barrier_passes.
Qed.

End pass.
