(* ===== verification/IntegrationTests.v ===== *)
(** * The integration tests ([src/tests/gc_functional.rs])

    The tests that run on one thread, as programs with assertions: none of them panics,
    for any allocator.  While [threshold_triggers_collection] sleeps, the background
    thread runs any number of its rounds.  *)

From stdpp Require Import relations.
From S2P Require Import Prelude Prog Color TraceImpls GcBox Options BgThread World.
From S2P Require Import Graph Tracing State HeapOps Mutator Marking Sweeping Collection Client.
From S2P Require Import Background Lifecycle Ownership Console Scripts ScriptRules Clients Demo.
From S2P Require Import Incremental ScriptLoops UnitTests.
Open Scope Z_scope.

Section integration_tests.
Variables (layout : ty → Z) (mall : gset loc → loc) (checks : bool).
#[local] Instance integration_env : Env := clients layout mall checks.

Abbreviation I32_ty := (TPrim I32).
Abbreviation Usize_ty := (TPrim Usize).
Abbreviation Node := (TUser chain_node).
(** [[u8; 64]], [Vec<u8>] and [Vec<usize>] *)
Definition array64_ty : ty := TArray (TPrim U8) 64.
Definition bytes_ty : ty := TIter Vec (TPrim U8).
Definition usizes_ty : ty := TIter Vec Usize_ty.

Definition array64 : val := VArray (replicate 64 (VPrim U8 0)).
(** [vec![0u8; 256]] and [vec![i; 32]] *)
Definition bytes256 : val := vec (replicate 256 (VPrim U8 0)).
Definition usizes32 (i : Z) : val := vec (replicate 32 (VPrim Usize i)).

(** The number [n], and [v[0]], as the tests read them. *)
Definition scalar (v : val) : Z := match v with VPrim _ n => n | _ => -1 end.
Definition first (v : val) : Z := match v with VIter _ (v :: _) => scalar v | _ => -1 end.

Open Scope io_scope.

Definition root_preservation_after_collection (fuel th : nat) : io unit :=
  ctx ← GcContext.new fuel th;
  keep ← GcContext.allocate fuel I32_ty (i32 1234);
  temporaries fuel 1000 Usize_ty (VPrim Usize 0);;
  Heap.force_collect fuel;;
  v ← GcRoot.deref keep;
  ! assert (scalar v =? 1234);
  GcRoot.drop keep;;
  GcContext.drop fuel th ctx;;
  done tt.

Definition sweep_frees_memory (fuel th : nat) : io unit :=
  ctx ← GcContext.new fuel th;
  roots ← alloc_roots fuel I32_ty i32 (seqZ 0 10);
  temporaries fuel 500 bytes_ty bytes256;;
  peak ← Heap.get_bytes_allocated;
  drop_roots roots;;
  Heap.force_collect fuel;;
  after ← Heap.get_bytes_allocated;
  ! assert (after <? peak / 2);
  GcContext.drop fuel th ctx;;
  done tt.

(** The options of [threshold_triggers_collection]. *)
Definition small_threshold : GcOptions := {|
  collection_interval := collection_interval GcOptions.DEFAULT;
  incremental_work_budget := incremental_work_budget GcOptions.DEFAULT;
  assist_work_budget := assist_work_budget GcOptions.DEFAULT;
  threshold_percent := 10;
  threshold_shrink_percent := threshold_shrink_percent GcOptions.DEFAULT;
  min_threshold_bytes := 4 * 1024;
  limit_bytes := limit_bytes GcOptions.DEFAULT;
|}.

(** The test up to the call of [sleep], and after it. *)
Definition threshold_before_sleep (fuel th : nat) : io loc :=
  ctx ← GcContext.with_options fuel th small_threshold;
  temporaries fuel 200 array64_ty array64;;
  done ctx.

Definition threshold_after_sleep (fuel th : nat) (ctx : loc) : io unit :=
  after_bg ← Heap.get_bytes_allocated;
  Heap.force_collect fuel;;
  after_force ← Heap.get_bytes_allocated;
  ! assert (after_force <=? after_bg);
  GcContext.drop fuel th ctx;;
  done tt.

(** [next: prev.map(|p| p.as_ptr())] consumes the root [prev]. *)
Definition as_next (prev : option loc) : gc (option loc) :=
  match prev with
  | Some p => (GcRoot.drop p;; Ret (Some (GcRoot.as_ptr p)))%gc
  | None => Ret None
  end.

(** The loop that builds the chain. *)
Fixpoint grow_chain (fuel : nat) (range : list Z) (prev : option loc) : gc (option loc) :=
  match range with
  | [] => Ret prev
  | i :: range =>
      (next ← as_next prev;
       n ← GcContext.allocate fuel Node (ChainNode i next);
       grow_chain fuel range (Some n))%gc
  end.

(** The field [next] of a node. *)
Definition chain_next (v : val) : option loc :=
  match v with VUser _ [_; next] => next_of next | _ => None end.

(** The loop that walks down the chain and counts its nodes; the last node is [cur]. *)
Fixpoint walk (steps : nat) (count : Z) (cur : loc) : gc (Z * loc) :=
  match steps with
  | O => out_of_fuel
  | S steps =>
      (count ← checked (i32_op checks (count + 1));
       v ← GcRoot.deref cur;
       match chain_next v with
       | Some next_ptr =>
           next ← GcPtr.root next_ptr;
           GcRoot.drop cur;;
           walk steps count next
       | None => Ret (count, cur)
       end)%gc
  end.

(** [Option::unwrap] *)
Definition unwrap {A} (o : option A) : gc A :=
  match o with Some a => Ret a | None => throw (Panic UnwrapOnNone) end.

Definition tracing_chain_keeps_all_nodes (fuel th : nat) : io unit :=
  ctx ← GcContext.new fuel th;
  head ← GcContext.allocate fuel Node (ChainNode 0 None);
  prev ← GcRoot.clone head;
  prev ← grow_chain fuel (seqZ 1 99) (Some prev);
  Heap.force_collect fuel;;
  cur ← unwrap prev;
  r ← walk fuel 0 cur;
  ! assert (r.1 =? 100);
  GcRoot.drop r.2;;
  GcRoot.drop head;;
  GcContext.drop fuel th ctx;;
  done tt.

(** The five cycles of [large_object_graph_survives_multiple_cycles]. *)
Fixpoint cycles (fuel : nat) (roots : list loc) (range : list Z) : io unit :=
  match range with
  | [] => done tt
  | cycle :: range =>
      temporaries fuel 500 array64_ty array64;;
      Heap.force_collect fuel;;
      ! check_roots first 0 roots;
      ! println "cycle {} ok" [Num cycle];
      cycles fuel roots range
  end.

Definition large_object_graph_survives_multiple_cycles (fuel th : nat) : io unit :=
  ctx ← GcContext.new fuel th;
  roots ← alloc_roots fuel usizes_ty usizes32 (seqZ 0 100);
  ! cycles fuel roots (seqZ 0 5);
  drop_roots roots;;
  GcContext.drop fuel th ctx;;
  done tt.

Close Scope io_scope.

Hypothesis layout_usize : ∀ t, is_usize (layout t).
Hypothesis mall_fresh : ∀ used, mall used ∉ used.

#[local] Instance integration_contract : TraceContract.
Proof. by apply clients_contract. Qed.

Abbreviation known := (list (loc * obj)).

(** The test prints [out], does not panic, and leaves [n] objects. *)
Definition succeeds (out : list line) (n : nat) (test : io unit) (w0 : world) : Prop :=
  ∃ w, run (main test) w0 = Done (out, tt) w ∧ ended n w.

(** A heap with the options [o] at rest, owned by the background thread and the test. *)
Record at_rest (o : GcOptions) (k : known) (w : world) : Prop := {
  ar_rest : rest w k ∅ w;
  ar_options : options (heap w) = o;
  ar_threshold : current_threshold (heap w) = min_threshold_bytes o;
  ar_strong : strong w = 2;
  ar_running : StartStop.is_stopped (bg_thread (heap w)) 1 = false;
}.

Lemma at_rest_self w0 k cs w : rest w0 k cs w → rest w k cs w.
Proof. intros Hw. apply rest_idle; apply Hw. Qed.

Lemma at_rest_step o k w0 k' w : at_rest o k w0 → rest w0 k' ∅ w → at_rest o k' w.
Proof.
  intros Hw Hw'. destruct (rs_frame _ _ _ _ Hw') as (_ & _ & _ & Hs & _). split.
  - by eapply at_rest_self.
  - rewrite (rs_options _ _ _ _ Hw'). apply Hw.
  - rewrite (rs_threshold _ _ _ _ Hw'). apply Hw.
  - rewrite Hs. apply Hw.
  - rewrite (rs_bg _ _ _ _ Hw'). apply Hw.
Qed.

Lemma at_rest_new w0 o th fuel (Q : loc → world → Prop) :
  unborn w0 → GcOptions.wf o → GcOptions.is_background_collection_off o = false →
  (∀ ctx w, at_rest o [] w → Q ctx w) → wp (GcContext.with_options fuel th o) Q w0.
Proof.
  intros Hu Ho Hon HQ. apply rest_new; [done..|]. intros ctx w Hw Hopt Hthr _ Hs _ Hst _ _.
  apply HQ. split; [done|done|by rewrite Hthr| |by rewrite Hst].
  rewrite Hs. unfold born_strong. by rewrite Hon.
Qed.

(** Options that keep the threshold of a small heap where it is. *)
Record steady (o : GcOptions) (bound : Z) : Prop := {
  sd_wf : GcOptions.wf o;
  sd_budget : 0 < incremental_work_budget o;
  sd_percent : threshold_percent o ≤ 100;
  sd_shrink : threshold_shrink_percent o ≤ 100;
  sd_minimum : min_threshold_bytes o ≤ 1048576;
  sd_threshold live : 0 ≤ live ≤ bound →
    GcOptions.calculate_threshold o (min_threshold_bytes o) live = Some (min_threshold_bytes o);
}.

Lemma at_rest_pacing o bound k w :
  steady o bound → at_rest o k w → ksize k ≤ 1048576 → pacing_ok w.
Proof.
  intros [Ho _ Hp Hs Hm _] Hw Hk. pose proof (ar_rest _ _ _ Hw) as Hr.
  pose proof Ho as (_ & _ & _ & _ & _ & Hmin & _). unfold is_usize in Hmin.
  apply pacing_small; rewrite ?(ar_options _ _ _ Hw), ?(ar_threshold _ _ _ Hw), ?(rest_bytes Hr); done || lia.
Qed.

Lemma at_rest_collected o bound keep k w w' :
  steady o bound → at_rest o k w → ksize (List.filter keep k) ≤ bound →
  rest w' (List.filter keep k) ∅ w' → collected_rest k keep w w' →
  at_rest o (List.filter keep k) w'.
Proof.
  intros Ho Hw Hb Hw' [Hopt Hthr Hbg (_ & _ & _ & Hs) _].
  rewrite (ar_options _ _ _ Hw), (ar_threshold _ _ _ Hw), (sd_threshold _ _ Ho) in Hthr
    by (split; [apply ksize_nonneg|done]). injection Hthr as Hthr. split.
  - done.
  - rewrite Hopt. apply Hw.
  - done.
  - rewrite Hs. apply Hw.
  - rewrite Hbg. apply Hw.
Qed.

Lemma at_rest_force_collect o bound keep k w fuel (Q : Z → world → Prop) :
  steady o bound → at_rest o k w → ksize k ≤ 1048576 → ksize (List.filter keep k) ≤ bound →
  (∀ ao, ao ∈ k → keep ao = true ↔ reachable (kgraph k ∅) ao.1) → (2 * length k + 2 ≤ fuel)%nat →
  (∀ w', at_rest o (List.filter keep k) w' → Q (ksize (List.filter keep k)) w') →
  wp (Heap.force_collect fuel) Q w.
Proof.
  intros Ho Hw Hk Hb Hkeep Hf HQ. pose proof (ar_rest _ _ _ Hw) as Hr.
  apply (rest_force_collect Hr keep); [done| |by eapply at_rest_pacing|done|].
  { rewrite (ar_options _ _ _ Hw). apply Ho. }
  intros w' Hw' Hc. apply HQ. by eapply at_rest_collected.
Qed.

Lemma at_rest_end o k w fuel th ctx log out n :
  at_rest o k w → log = out → length k = n →
  wpio log (GcContext.drop fuel th ctx;; done tt)%io (λ out' _ w', out' = out ∧ ended n w') w.
Proof.
  intros Hw -> <-. apply wpio_lift. eapply (rest_end _ _ _ _ _ _ _ _ (ar_rest _ _ _ Hw)); [apply Hw|].
  intros w' Hend. by apply wpio_done.
Qed.

Lemma steady_DEFAULT : steady GcOptions.DEFAULT 800000.
Proof.
  split; [apply DEFAULT_wf|by vm_compute..|]. intros live Hl.
  assert (1048576 * 1000 ≤ usize_max) by (vm_compute; discriminate).
  rewrite Pacing.calculate_threshold_eq; [|apply DEFAULT_wf|by vm_compute|unfold is_usize; lia|].
  - unfold Pacing.spec. replace (GcOptions.is_threshold_off GcOptions.DEFAULT) with false by by vm_compute.
    assert (Pacing.target GcOptions.DEFAULT live ≤ 1048576).
    { unfold Pacing.target. cbn [threshold_percent GcOptions.DEFAULT].
      assert (live * 30 / 100 ≤ 240000); [|lia]. apply Z.div_le_upper_bound; lia. }
    change (min_threshold_bytes GcOptions.DEFAULT) with 1048576. case_decide; f_equal; lia.
  - unfold Pacing.fits. cbn [threshold_percent threshold_shrink_percent GcOptions.DEFAULT min_threshold_bytes].
    assert (live * 30 / 100 ≤ 240000) by (apply Z.div_le_upper_bound; lia). lia.
Qed.

Lemma steady_small : steady small_threshold 0.
Proof.
  split; [unfold GcOptions.wf, is_usize; split_and!; vm_compute; discriminate|by vm_compute..|].
  intros live Hl. replace live with 0 by lia. by vm_compute.
Qed.

(** ** The tests *)

(** What the tests allocate takes at most a kibibyte each. *)
Definition test_types : list ty := [I32_ty; Usize_ty; Node; array64_ty; bytes_ty; usizes_ty].
Definition small_sizes : Prop := ∀ t, t ∈ test_types → 0 < layout_size t ≤ 1024.

Lemma kibibytes n : n ≤ 1024 → n * 1024 ≤ usize_max.
Proof. assert (1024 * 1024 ≤ usize_max) by (vm_compute; discriminate). lia. Qed.

Ltac sizes Hsz :=
  pose proof (Hsz I32_ty ltac:(unfold test_types; set_solver));
  pose proof (Hsz Usize_ty ltac:(unfold test_types; set_solver));
  pose proof (Hsz Node ltac:(unfold test_types; set_solver));
  pose proof (Hsz array64_ty ltac:(unfold test_types; set_solver));
  pose proof (Hsz bytes_ty ltac:(unfold test_types; set_solver));
  pose proof (Hsz usizes_ty ltac:(unfold test_types; set_solver));
  pose proof (kibibytes 1024 ltac:(lia)).

Ltac filtered := cbn [List.filter has_root ob_roots snd Z.ltb Z.compare] in *.

Lemma root_preservation_passes w0 fuel th :
  unborn w0 → small_sizes → (2004 ≤ fuel)%nat →
  succeeds [] 1 (root_preservation_after_collection fuel th) w0.
Proof.
  intros Hu Hsz Hf. sizes Hsz. apply wpio_output. unfold root_preservation_after_collection.
  apply wpio_lift, at_rest_new; [done|apply DEFAULT_wf|done|]. intros ctx w Hr.
  pose proof (ar_rest _ _ _ Hr) as Hw. io_alloc Hw keep w1 Hn1.
  apply wpio_lift, (temporaries_wp _ _ _ _ _ _ _ _ _ Hw); [lia|done|done|known_size|].
  clear Hw. intros k w2 Hw Hk. pose proof (at_rest_step _ _ _ _ _ Hr Hw) as Hr2.
  pose proof (temps_size _ _ _ _ Hk) as Hks. pose proof (tp_length _ _ _ _ Hk) as Hlen.
  apply wpio_lift. eapply (at_rest_force_collect _ _ has_root); [apply steady_DEFAULT|exact Hr2|..].
  - rewrite ksize_app, Hks. known_size.
  - rewrite (filter_temps _ _ _ _ _ Hk). filtered. known_size.
  - intros ao Hao. apply (plain_reachable Hw); [|done].
    intros x [Hx|Hx]%elem_of_app; [by eapply temps_plain|]. by apply list_elem_of_singleton in Hx as ->.
  - rewrite length_app, Hlen. cbn. lia.
  - rewrite (filter_temps _ _ _ _ _ Hk). intros w3 Hr3. pose proof (ar_rest _ _ _ Hr3) as Hw3.
    filtered.
    io_deref Hw3 0%nat. apply wpio_assert; [done|]. io_drop Hw3 0%nat w4.
    eapply at_rest_end; [by eapply at_rest_step|done|done].
Qed.

Lemma sweep_frees_memory_passes w0 fuel th :
  unborn w0 → small_sizes → (1022 ≤ fuel)%nat → succeeds [] 0 (sweep_frees_memory fuel th) w0.
Proof.
  intros Hu Hsz Hf. sizes Hsz. apply wpio_output. unfold sweep_frees_memory.
  apply wpio_lift, at_rest_new; [done|apply DEFAULT_wf|done|]. intros ctx w Hr.
  pose proof (ar_rest _ _ _ Hr) as Hw. assert (length (seqZ 0 10) = 10%nat) as Hl10 by done.
  apply wpio_lift. eapply (alloc_roots_wp _ _ _ _ _ _ _ _ _ Hw); [lia|done|rewrite Hl10; known_size|].
  clear Hw. intros roots w1 Hlen Hw. rewrite app_nil_r in Hw.
  apply wpio_lift, (temporaries_wp _ _ _ _ _ _ _ _ _ Hw); [lia|done|done| |].
  { rewrite numbered_size, Hl10 by done. lia. }
  clear Hw. intros k w2 Hw Hk. io_bytes Hw.
  pose proof (temps_size _ _ _ _ Hk) as Hks. pose proof (tp_length _ _ _ _ Hk) as Hkl.
  set (nk := numbered 1 _ _ _ _) in *.
  assert (ksize nk = 10 * layout_size I32_ty ∧ length nk = 10%nat) as [Hns Hnl].
  { unfold nk. by rewrite numbered_size, numbered_length, Hl10. }
  pose proof (rs_keys _ _ _ _ Hw) as Hnd.
  apply wpio_lift, (unroot_roots_wp _ _ _ _ _ _ Hw).
  { apply (numbered_single I32_ty i32 (seqZ 0 10)); [done| |].
    - rewrite fmap_app in Hnd. by apply NoDup_app in Hnd as (_ & _ & Hnd).
    - intros ao Hao. apply elem_of_app. by right. }
  clear Hw. intros w3 Hw. pose proof (at_rest_step _ _ _ _ _ Hr Hw) as Hr3.
  assert (List.filter has_root (unroot roots <$> k ++ nk) = []) as Hnone.
  { apply filter_unroot. intros ao [Hao|Hao]%elem_of_app; [left|right].
    - by rewrite (tp_object _ _ _ _ Hk ao Hao).
    - by eapply numbered_rooted. }
  apply wpio_lift. eapply (at_rest_force_collect _ _ has_root); [apply steady_DEFAULT|exact Hr3|..].
  - rewrite unroot_size, ksize_app. lia.
  - rewrite Hnone. done.
  - intros ao Hao. apply (plain_reachable Hw); [|done].
    intros x (y & -> & [Hy|Hy]%elem_of_app)%list_elem_of_fmap; rewrite unroot_owned;
      [by eapply temps_plain|by eapply (numbered_plain 1 I32_ty i32)].
  - rewrite length_fmap, length_app, Hkl, Hnl. lia.
  - rewrite Hnone. intros w4 Hr4. pose proof (ar_rest _ _ _ Hr4) as Hw4. io_bytes Hw4.
    apply wpio_assert; [|by eapply at_rest_end].
    apply Z.ltb_lt. cbn [ksize foldr]. rewrite ksize_app, Hks, Hns.
    assert (1 ≤ (Z.of_nat 500 * layout_size bytes_ty + 10 * layout_size I32_ty) / 2); [|lia].
    apply Z.div_le_lower_bound; lia.
Qed.

(** A round of the background thread collects or does nothing. *)
Lemma at_rest_round o bound k w fuel :
  steady o bound → at_rest o k w → ksize k ≤ 1048576 → ksize (List.filter has_root k) ≤ bound →
  (∀ ao, ao ∈ k → owned (ob_data ao.2) = []) → 0 < collection_interval o →
  (2 * length k + 2 ≤ fuel)%nat →
  ∃ w', (∀ ts, run (Heap.background_gc_thread fuel (true :: ts) 1 []) w =
               run (Heap.background_gc_thread fuel ts 1 []) w') ∧
    (at_rest o k w' ∨ at_rest o (List.filter has_root k) w').
Proof.
  intros Ho Hw Hk Hb Hplain Hint Hf. pose proof (ar_rest _ _ _ Hw) as Hr.
  destruct (background_round fuel 1 w) as (w' & Hrun & Hw').
  - apply Hr.
  - rewrite (ar_options _ _ _ Hw). apply Ho.
  - by eapply at_rest_pacing.
  - by apply (rest_fuel Hr).
  - by rewrite (ar_options _ _ _ Hw).
  - apply Hw.
  - exists w'. split; [done|]. case_decide; [right|left; by subst].
    destruct (rest_collected Hr has_root w') as [Hr' Hc]; [|done|by eapply at_rest_collected].
    intros ao Hao. by apply (plain_reachable Hr).
Qed.

Lemma at_rest_rounds o bound k w fuel n :
  steady o bound → at_rest o k w → ksize k ≤ 1048576 → 0 ≤ bound →
  (∀ ao, ao ∈ k → has_root ao = false ∧ owned (ob_data ao.2) = []) → 0 < collection_interval o →
  (2 * length k + 2 ≤ fuel)%nat →
  ∃ k' w', (∀ ts, run (Heap.background_gc_thread fuel (replicate n true ++ ts) 1 []) w =
                  run (Heap.background_gc_thread fuel ts 1 []) w') ∧
    at_rest o k' w' ∧ (k' = k ∨ k' = []).
Proof.
  intros Ho Hw Hk Hb0 Hall Hint Hf. revert k w Hw Hk Hall Hf.
  induction n as [|n IH]; intros k w Hw Hk Hall Hf; [exists k, w; auto|].
  assert (List.filter has_root k = []) as Hnone by (apply filter_unrooted; intros; by apply Hall).
  destruct (at_rest_round o bound k w fuel) as (w1 & Hrun1 & Hw1);
    [done|done|done|by rewrite Hnone|intros ao Hao; by apply Hall|done|done|].
  rewrite Hnone in Hw1. destruct Hw1 as [Hw1|Hw1].
  - destruct (IH k w1) as (k' & w' & Hrun & Hw' & Hk'); [done..|]. exists k', w'.
    split; [|done]. intros ts. cbn [replicate app]. by rewrite Hrun1, Hrun.
  - destruct (IH [] w1) as (k' & w' & Hrun & Hw' & Hk'); [done|done| |cbn; lia|].
    { by intros ao ?%elem_of_nil. }
    exists k', w'. split; [|split; [done|]; right; by destruct Hk'].
    intros ts. cbn [replicate app]. by rewrite Hrun1, Hrun.
Qed.

(** The test of the threshold, whose background thread runs [n] rounds meanwhile. *)
Definition threshold_test_passes (fuel th n : nat) (w0 : world) : Prop :=
  ∃ ctx w1 w2 w3,
    run (main (threshold_before_sleep fuel th)) w0 = Done ([], ctx) w1 ∧
    (∀ ts, run (Heap.background_gc_thread fuel (replicate n true ++ ts) 1 []) w1 =
           run (Heap.background_gc_thread fuel ts 1 []) w2) ∧
    run (main (threshold_after_sleep fuel th ctx)) w2 = Done ([], tt) w3 ∧ ended 0 w3.

Lemma threshold_before_sleep_wp w0 fuel th :
  unborn w0 → small_sizes → (0 < fuel)%nat →
  wpio [] (threshold_before_sleep fuel th)
    (λ log ctx w, log = [] ∧ ∃ k, at_rest small_threshold k w ∧ temps 200 array64_ty array64 k) w0.
Proof.
  intros Hu Hsz Hf. sizes Hsz. apply wpio_lift, at_rest_new; [done|apply steady_small|done|].
  intros ctx w Hr. pose proof (ar_rest _ _ _ Hr) as Hw.
  apply wpio_lift, (temporaries_wp _ _ _ _ _ _ _ _ _ Hw); [lia|done|done|known_size|].
  clear Hw. intros k w2 Hw Hk. rewrite app_nil_r in Hw. apply wpio_done. split; [done|]. exists k.
  split; [by eapply at_rest_step|done].
Qed.

Lemma threshold_after_sleep_wp k w fuel th ctx :
  at_rest small_threshold k w → ksize k ≤ 1048576 → (2 * length k + 2 ≤ fuel)%nat →
  (∀ ao, ao ∈ k → has_root ao = false ∧ owned (ob_data ao.2) = []) →
  wpio [] (threshold_after_sleep fuel th ctx) (λ log _ w, log = [] ∧ ended 0 w) w.
Proof.
  intros Hr Hk Hf Hall. pose proof (ar_rest _ _ _ Hr) as Hw. io_bytes Hw.
  assert (List.filter has_root k = []) as Hnone by (apply filter_unrooted; intros; by apply Hall).
  apply wpio_lift. eapply (at_rest_force_collect _ _ has_root); [apply steady_small|exact Hr|done|..].
  - by rewrite Hnone.
  - intros ao Hao. apply (plain_reachable Hw); [|done]. intros x Hx. by apply Hall.
  - done.
  - rewrite Hnone. intros w1 Hr1. pose proof (ar_rest _ _ _ Hr1) as Hw1. io_bytes Hw1.
    apply wpio_assert; [|by eapply at_rest_end]. apply Z.leb_le, ksize_nonneg.
Qed.

Lemma threshold_triggers_collection_passes w0 fuel th n :
  unborn w0 → small_sizes → (402 ≤ fuel)%nat → threshold_test_passes fuel th n w0.
Proof.
  intros Hu Hsz Hf. sizes Hsz.
  destruct (wpio_run _ _ _ (threshold_before_sleep_wp w0 fuel th Hu Hsz ltac:(lia)))
    as (log & ctx & w1 & Hrun1 & -> & k & Hw1 & Hk).
  pose proof (temps_size _ _ _ _ Hk) as Hks. pose proof (tp_length _ _ _ _ Hk) as Hkl.
  assert (∀ ao, ao ∈ k → has_root ao = false ∧ owned (ob_data ao.2) = []) as Hall.
  { intros ao Hao. unfold has_root. by rewrite (tp_object _ _ _ _ Hk ao Hao). }
  destruct (at_rest_rounds small_threshold 0 k w1 fuel n) as (k2 & w2 & Hrun2 & Hw2 & Hk2);
    [apply steady_small|done|lia|done|done|done|lia|].
  assert (wpio [] (threshold_after_sleep fuel th ctx) (λ log _ w, log = [] ∧ ended 0 w) w2) as Hend.
  { destruct Hk2 as [->| ->].
    - apply (threshold_after_sleep_wp k); [done|lia|lia|done].
    - apply (threshold_after_sleep_wp []); [done|done|cbn; lia|by intros ao ?%elem_of_nil]. }
  apply wpio_output in Hend as (w3 & Hrun3 & Hend). by exists ctx, w1, w2, w3.
Qed.

Definition cycle_line (cycle : Z) : line := ("cycle {} ok"%string, [Num cycle]).

Lemma cycles_wp fuel roots range k w log (Q : list line → unit → world → Prop) :
  at_rest GcOptions.DEFAULT k w → small_sizes → ksize k ≤ 100 * 1024 →
  (2 * length k + 1002 ≤ fuel)%nat →
  (∀ ao, ao ∈ k → has_root ao = true ∧ owned (ob_data ao.2) = []) →
  (∀ j a, roots !! j = Some a → ∃ l ob, k !! l = Some (a, ob) ∧ first (ob_data ob) = 0 + Z.of_nat j) →
  (∀ w', at_rest GcOptions.DEFAULT k w' → Q (log ++ map cycle_line range)%list tt w') →
  wpio log (cycles fuel roots range) Q w.
Proof.
  intros Hr Hsz Hk Hf Hall Hroots. sizes Hsz. revert log w Hr.
  induction range as [|i range IH]; intros log w Hr HQ; cbn [cycles].
  { apply wpio_done. cbn in HQ. rewrite app_nil_r in HQ. by apply HQ. }
  pose proof (ar_rest _ _ _ Hr) as Hw.
  apply wpio_lift, (temporaries_wp _ _ _ _ _ _ _ _ _ Hw); [lia|done|done|lia|].
  clear Hw. intros tk w1 Hw Htk. pose proof (at_rest_step _ _ _ _ _ Hr Hw) as Hr1.
  pose proof (temps_size _ _ _ _ Htk) as Hts. pose proof (tp_length _ _ _ _ Htk) as Htl.
  assert (List.filter has_root (tk ++ k) = k) as Hkept.
  { rewrite (filter_temps _ _ _ _ _ Htk). apply filter_rooted. intros; by apply Hall. }
  apply wpio_lift. eapply (at_rest_force_collect _ _ has_root); [apply steady_DEFAULT|exact Hr1|..].
  - rewrite ksize_app. lia.
  - rewrite Hkept. lia.
  - intros ao Hao. apply (plain_reachable Hw); [|done].
    intros x [Hx|Hx]%elem_of_app; [by eapply temps_plain|by apply Hall].
  - rewrite length_app. lia.
  - rewrite Hkept. intros w2 Hr2. apply wpio_then, (check_roots_wp _ _ _ _ _ _ _ _ _ (ar_rest _ _ _ Hr2)); [done|].
    apply wpio_println, IH; [done|]. intros w3 Hr3. cbn [map] in HQ. rewrite <- app_assoc. by apply HQ.
Qed.

Lemma large_object_graph_passes w0 fuel th :
  unborn w0 → small_sizes → (1202 ≤ fuel)%nat →
  succeeds (map cycle_line (seqZ 0 5)) 100 (large_object_graph_survives_multiple_cycles fuel th) w0.
Proof.
  intros Hu Hsz Hf. sizes Hsz. apply wpio_output. unfold large_object_graph_survives_multiple_cycles.
  apply wpio_lift, at_rest_new; [done|apply DEFAULT_wf|done|]. intros ctx w Hr.
  pose proof (ar_rest _ _ _ Hr) as Hw. assert (length (seqZ 0 100) = 100%nat) as Hl by done.
  apply wpio_lift. eapply (alloc_roots_wp _ _ _ _ _ _ _ _ _ Hw); [lia|done|rewrite Hl; known_size|].
  clear Hw. intros roots w1 Hlen Hw. rewrite app_nil_r in Hw.
  pose proof (at_rest_step _ _ _ _ _ Hr Hw) as Hr1. pose proof (rs_keys _ _ _ _ Hw) as Hnd. clear Hw Hr.
  pose proof (numbered_size 1 usizes_ty usizes32 _ _ Hlen) as Hns.
  pose proof (numbered_length 1 usizes_ty usizes32 _ _ Hlen) as Hnl. rewrite Hl in Hns, Hnl, Hlen.
  apply wpio_then. eapply cycles_wp; [exact Hr1|done|lia|lia| | |].
  - by intros ao [i Hi]%numbered_elem; unfold has_root; rewrite Hi.
  - intros j a Hj. assert (j < 100)%nat by (rewrite <- Hlen; by eapply lookup_lt_Some).
    assert ((a, mkObj usizes_ty 1 (usizes32 (Z.of_nat j))) ∈ numbered 1 usizes_ty usizes32 (seqZ 0 100) roots)
      as [l Hl']%list_elem_of_lookup.
    { apply (numbered_lookup _ _ _ _ _ j); [|done]. by rewrite lookup_seqZ_lt by lia. }
    by exists l, (mkObj usizes_ty 1 (usizes32 (Z.of_nat j))).
  - intros w2 Hr2. pose proof (ar_rest _ _ _ Hr2) as Hw2.
    apply wpio_lift, (drop_roots_wp _ _ _ _ _ _ Hw2).
    { by apply (numbered_single usizes_ty usizes32 (seqZ 0 100)); rewrite ?Hl. }
    intros k3 w3 Hw3 Hk3. eapply at_rest_end; [by eapply at_rest_step|done|by rewrite Hk3].
Qed.

(** *** The chain *)

(** The chain that ends in [head], from the node that was allocated last; only [head]
    has a root. *)
Fixpoint links (head : loc) (nodes : list loc) : known :=
  match nodes with
  | [] => [(head, mkObj Node 1 (ChainNode 0 None))]
  | a :: nodes =>
      (a, mkObj Node 0 (ChainNode (Z.of_nat (S (length nodes))) (Some (hd head nodes)))) :: links head nodes
  end.

(** One more root of the last node. *)
Definition held (k : known) : known :=
  match k with (a, mkObj t n d) :: k => (a, mkObj t (n + 1) d) :: k | [] => [] end.

Lemma held_links head nodes :
  ∃ n d, 0 ≤ n ≤ 1 ∧ links head nodes !! 0%nat = Some (hd head nodes, mkObj Node n d) ∧
    held (links head nodes) !! 0%nat = Some (hd head nodes, mkObj Node (n + 1) d) ∧
    <[0%nat := (hd head nodes, mkObj Node (n + 1 - 1) d)]> (held (links head nodes)) = links head nodes.
Proof.
  destruct nodes as [|a nodes]; [exists 1|exists 0]; eexists; split_and!; reflexivity || done.
Qed.

Lemma held_insert k a n d t :
  k !! 0%nat = Some (a, mkObj t n d) → <[0%nat := (a, mkObj t (n + 1) d)]> k = held k.
Proof. by destruct k as [|[a' [t' n' d']] k]; cbn; intros; simplify_eq. Qed.

Lemma chain_length head nodes : length (links head nodes) = S (length nodes).
Proof. induction nodes as [|a nodes IH]; cbn; by rewrite ?IH. Qed.

Lemma held_length k : length (held k) = length k.
Proof. by destruct k as [|[a [t n d]] k]. Qed.

Lemma links_type head nodes ao : ao ∈ links head nodes → ob_ty ao.2 = Node.
Proof.
  induction nodes as [|a nodes IH]; cbn.
  - by intros ->%list_elem_of_singleton.
  - intros [->|Hao]%elem_of_cons; [done|by apply IH].
Qed.

Lemma chain_size head nodes : ksize (links head nodes) = Z.of_nat (S (length nodes)) * layout_size Node.
Proof. rewrite (ksize_same _ Node), chain_length; [done|]. apply links_type. Qed.

Lemma held_size k : ksize (held k) = ksize k.
Proof. by destruct k as [|[a [t n d]] k]. Qed.

Lemma chain_wf_val k cs next v i o :
  k !! i = Some (next, o) → ob_ty o = Node → NoDup k.*1 → wf_val (kgraph k cs) (ChainNode v (Some next)).
Proof. intros Hi Ht Hk. by eapply (pointer_wf_val k cs _ Node next i o). Qed.

Lemma grow_chain_wp fuel head range nodes w0 cs w (Q : option loc → world → Prop) :
  rest w0 (held (links head nodes)) cs w → (0 < fuel)%nat →
  range = seqZ (Z.of_nat (S (length nodes))) (Z.of_nat (length range)) →
  Z.of_nat (S (length nodes) + length range) * layout_size Node ≤ usize_max →
  (∀ nodes' w', rest w0 (held (links head nodes')) cs w' →
     length nodes' = (length nodes + length range)%nat → Q (Some (hd head nodes')) w') →
  wp (grow_chain fuel range (Some (hd head nodes))) Q w.
Proof.
  intros Hw Hf. revert nodes w Hw. induction range as [|i range IH]; intros nodes w Hw Hrange Hsz HQ;
    cbn [grow_chain as_next].
  { apply (HQ nodes); [done|cbn; lia]. }
  destruct (held_links head nodes) as (n & d & Hn & Hl & Hh & Hdrop).
  rewrite !wp_bind. apply (rest_drop Hw _ _ _ _ _ _ Hh); [lia|]. intros w1 Hw1. rewrite Hdrop in Hw1.
  cbn [wp]. rewrite wp_bind. cbn [length] in *.
  rewrite seqZ_cons in Hrange by lia. injection Hrange as Hi Hrange.
  pose proof (layout_size_usize Node) as Hls. unfold is_usize in Hls.
  apply (rest_allocate Hw1); [done|done| |rewrite chain_size; lia|].
  { eapply chain_wf_val; [exact Hl|done|apply Hw1]. }
  intros a w2 _ Hw2. eapply (IH (a :: nodes)).
  - subst i. exact Hw2.
  - rewrite Hrange at 1. cbn [length]. f_equal; lia.
  - cbn [length]. lia.
  - intros nodes' w3 Hw3 Hlen. apply HQ; [done|]. cbn [length] in Hlen. lia.
Qed.

(** All nodes can be reached from the last one. *)
Lemma links_reachable head nodes k cs :
  NoDup k.*1 → (∀ ao, ao ∈ links head nodes → ∃ o, (ao.1, o) ∈ k ∧ ob_data o = ob_data ao.2) →
  reachable (kgraph k cs) (hd head nodes) →
  ∀ ao, ao ∈ links head nodes → reachable (kgraph k cs) ao.1.
Proof.
  intros Hk. induction nodes as [|a nodes IH]; cbn [links hd]; intros Hin Hr ao.
  - by intros ->%list_elem_of_singleton.
  - intros [->|Hao]%elem_of_cons; [done|]. apply IH; [intros x Hx; apply Hin; by right| |done].
    destruct (Hin _ ltac:(by left)) as (o & Ho & Hd). cbn in Ho, Hd.
    eapply reachable_edge; [exact Hr|]. exists o, Node. split; [by apply elem_of_list_to_map|].
    apply points_here. rewrite Hd. cbn. by left.
Qed.

Lemma held_reachable head nodes cs ao :
  NoDup (held (links head nodes)).*1 → ao ∈ held (links head nodes) →
  reachable (kgraph (held (links head nodes)) cs) ao.1.
Proof.
  intros Hk Hao. destruct (held_links head nodes) as (n & d & Hn & Hl & Hh & _).
  assert (∀ x, x ∈ links head nodes → ∃ o, (x.1, o) ∈ held (links head nodes) ∧ ob_data o = ob_data x.2) as Hsub.
  { destruct nodes as [|a nodes]; cbn [links held]; intros x.
    - intros ->%list_elem_of_singleton. eexists. by split; [left|].
    - intros [->|Hx]%elem_of_cons; [eexists; by split; [left|]|]. exists x.2. split; [|done].
      right. by destruct x. }
  assert (∃ o, (ao.1, o) ∈ links head nodes) as [o Ho].
  { destruct nodes as [|a nodes]; cbn [links held] in *.
    - apply list_elem_of_singleton in Hao as ->. eexists. by left.
    - apply elem_of_cons in Hao as [->|Hao]; [eexists; by left|]. exists ao.2. right. by destruct ao. }
  apply (links_reachable head nodes _ cs Hk Hsub) in Ho; [done|].
  apply reachable_rooted. exists (mkObj Node (n + 1) d). split; [|cbn; lia].
  by apply (known_lookup _ 0%nat).
Qed.

(** The walk gives the root of each node to the next one, down to [head]. *)
Lemma walk_wp steps head nodes pre count w0 cs w (Q : Z * loc → world → Prop) :
  rest w0 (pre ++ held (links head nodes)) cs w → (length nodes < steps)%nat →
  0 ≤ count → count + Z.of_nat (length nodes) < 2147483647 →
  (∀ pre' w', length pre' = (length pre + length nodes)%nat → rest w0 (pre' ++ held (links head [])) cs w' →
     Q (count + Z.of_nat (length nodes) + 1, head) w') →
  wp (walk steps count (hd head nodes)) Q w.
Proof.
  intros Hw. revert pre count nodes w Hw. induction steps as [|steps IH]; intros pre count nodes w Hw Hs Hc0 Hc HQ; [lia|].
  cbn [walk]. rewrite wp_bind. rewrite i32_op_Some by (unfold is_i32; lia). cbn [checked wp]. rewrite wp_bind.
  destruct nodes as [|a nodes]; cbn [links held hd length] in *.
  - eapply (rest_deref Hw (length pre)); [by apply list_lookup_middle|]. cbn.
    rewrite Z.add_0_r in HQ. apply (HQ pre); [lia|done].
  - eapply (rest_deref Hw (length pre)); [by apply list_lookup_middle|]. cbn [ob_data chain_next next_val next_of ChainNode].
    destruct (held_links head nodes) as (n & d & Hn & Hl & Hh & Hdrop).
    rewrite wp_bind. eapply (rest_root Hw (length pre + 1)%nat).
    { rewrite lookup_app_r by lia. replace (length pre + 1 - length pre)%nat with 1%nat by lia. exact Hl. }
    { assert (2 < usize_max) by (vm_compute; reflexivity). lia. }
    intros w1 Hw1. rewrite insert_app_r in Hw1.
    change (<[1%nat := ?x]> (?y :: ?l)) with (y :: <[0%nat := x]> l) in Hw1.
    rewrite (held_insert _ _ _ _ _ Hl) in Hw1. rewrite wp_bind.
    eapply (rest_drop Hw1 (length pre)); [by apply list_lookup_middle|done|]. intros w2 Hw2.
    rewrite <- (Nat.add_0_r (length pre)), insert_app_r in Hw2. cbn [insert list_insert] in Hw2.
    rewrite (cons_middle _ pre), app_assoc in Hw2.
    apply (IH _ _ _ _ Hw2); [lia|lia|lia|]. rewrite length_app. cbn [length].
    intros pre' w' Hpre Hw'. replace (count + 1 + Z.of_nat (length nodes)) with (count + Z.of_nat (S (length nodes))) by lia.
    apply (HQ pre'); [lia|done].
Qed.

Lemma tracing_chain_passes w0 fuel th :
  unborn w0 → small_sizes → (202 ≤ fuel)%nat →
  succeeds [] 100 (tracing_chain_keeps_all_nodes fuel th) w0.
Proof.
  intros Hu Hsz Hf. sizes Hsz. apply wpio_output. unfold tracing_chain_keeps_all_nodes.
  apply wpio_lift, at_rest_new; [done|apply DEFAULT_wf|done|]. intros ctx w Hr.
  pose proof (ar_rest _ _ _ Hr) as Hw. io_alloc Hw node0 w1 Hn1.
  apply wpio_lift. eapply (rest_root Hw 0%nat); [reflexivity|by vm_compute|]. clear Hw. intros w2 Hw.
  cbn [insert list_insert] in Hw. change (rest w (held (links node0 [])) ∅ w2) in Hw.
  apply wpio_lift. eapply (grow_chain_wp fuel node0 (seqZ 1 99) [] _ _ _ _ Hw); [lia|done| |].
  { change (length (seqZ 1 99)) with 99%nat. cbn [length]. lia. }
  clear Hw. intros nodes w3 Hw Hlen. change (length nodes = 99%nat) in Hlen.
  pose proof (at_rest_step _ _ _ _ _ Hr Hw) as Hr3.
  assert (ksize (held (links node0 nodes)) ≤ 100 * 1024) as Hks by (rewrite held_size, chain_size, Hlen; lia).
  assert (List.filter (λ _, true) (held (links node0 nodes)) = held (links node0 nodes)) as Hkept.
  { clear. by induction (held _) as [|ao k IH]; cbn; rewrite ?IH. }
  apply wpio_lift. eapply (at_rest_force_collect _ _ (λ _, true)); [apply steady_DEFAULT|exact Hr3|lia| | | |].
  - rewrite Hkept. lia.
  - intros ao Hao. split; [intros _|done]. by apply held_reachable; [apply Hw|].
  - rewrite held_length, chain_length, Hlen. lia.
  - rewrite Hkept. intros w4 Hr4. pose proof (ar_rest _ _ _ Hr4) as Hw4. apply wpio_lift. cbn [unwrap wp].
    apply wpio_lift. eapply (walk_wp fuel node0 nodes []); [exact Hw4|lia|lia|lia|].
    intros pre w5 Hpre Hw5. rewrite Hlen. apply wpio_assert; [done|]. cbn [snd].
    cbn [links held] in Hw5.
    apply wpio_lift. eapply (rest_drop Hw5 (length pre)); [by apply list_lookup_middle|done|]. intros w6 Hw6.
    rewrite <- (Nat.add_0_r (length pre)), insert_app_r in Hw6. cbn [insert list_insert] in Hw6.
    apply wpio_lift. eapply (rest_drop Hw6 (length pre)); [by apply list_lookup_middle|done|]. intros w7 Hw7.
    eapply at_rest_end; [by eapply at_rest_step|done|].
    rewrite length_insert, length_app, Hpre, Hlen. done.
Qed.

(** C40: the integration tests that run on one thread pass: from a fresh process state
    each returns without a failed assertion, for any allocator and any small layout.
    The collections free all temporaries, and keep the rooted numbers and vectors with
    their contents and the hundred nodes of the chain.  The test of the threshold
    passes whatever the number of rounds that the background thread runs while the
    test sleeps. *)
Theorem integration_tests_pass w0 fuel th :
  unborn w0 → small_sizes → (2004 ≤ fuel)%nat →
  succeeds [] 1 (root_preservation_after_collection fuel th) w0 ∧
  succeeds [] 0 (sweep_frees_memory fuel th) w0 ∧
  (∀ n, threshold_test_passes fuel th n w0) ∧
  succeeds [] 100 (tracing_chain_keeps_all_nodes fuel th) w0 ∧
  succeeds (map cycle_line (seqZ 0 5)) 100 (large_object_graph_survives_multiple_cycles fuel th) w0.
Proof.
  intros Hu Hsz Hf.
  split; [by apply root_preservation_passes|].
  split; [apply sweep_frees_memory_passes; auto with lia|].
  split; [intros n; apply threshold_triggers_collection_passes; auto with lia|].
  split; [apply tracing_chain_passes; auto with lia|].
  apply large_object_graph_passes; auto with lia.
Qed.

End integration_tests.
