(* ===== verification/Concurrent.v ===== *)
(** * Concurrent allocation

    Threads that link new objects at the same time, interleaved action by
    action: the compare-exchange loop of [allocate] loses no object.  The proof
    is by rely-guarantee; every loop terminates, because an attempt fails only
    when another thread has linked its object. *)

From stdpp Require Import relations.
From S2P Require Import Prelude Prog Color TraceImpls GcBox Options BgThread World.
From S2P Require Import Graph Tracing State HeapOps Sweeping.
Open Scope Z_scope.

Section push.
Variables (w0 : world) (l0 A : list loc).
Hypothesis HA : NoDup A.

(** A block without its link. *)
Definition unlinked (b : GcBox) : GcBox := mkBox (set_next (header b) None) (data b).

(** The objects [l] are in the list; those before [l0] are of [A]. *)
Record pushed (w : world) (l : list loc) : Prop := {
  pu_lseg : lseg (mem w) (head (heap w)) l None;
  pu_nodup : NoDup l;
  pu_split : ∃ lp, l = lp ++ l0 ∧ ∀ x, x ∈ lp → x ∈ A;
  pu_alloc a : a ∈ A → is_Some (mem w !! a);
  pu_mem : unlinked <$> mem w = unlinked <$> mem w0;
  pu_heap : heap w = set_head (heap w0) (head (heap w));
  pu_cells : cells w = cells w0;
}.

Definition relinked (w : world) (a : loc) (p : option loc) : world :=
  set_mem w (alter (λ b, mkBox (set_next (header b) p) (data b)) a (mem w)).

Definition with_head (w : world) (p : option loc) : world :=
  set_heap w (set_head (heap w) p).

(** What a thread that links [a] does to the state and to the ghost list. *)
Inductive guar (a : loc) : world * list loc → world * list loc → Prop :=
  | guar_load s : guar a s s
  | guar_link w l p : a ∉ l → guar a (w, l) (relinked w a p, l)
  | guar_push w l : a ∉ l → a ∈ A → next_at (mem w) a = Some (head (heap w)) →
      guar a (w, l) (with_head w (Some a), a :: l).

Definition rely (a : loc) (s s' : world * list loc) : Prop := ∃ b, b ≠ a ∧ guar b s s'.

Lemma relinked_next w a p x :
  x ≠ a → next_at (mem (relinked w a p)) x = next_at (mem w) x.
Proof. intros Hx. unfold next_at. cbn. by rewrite lookup_alter_ne. Qed.

Lemma relinked_pushed w l a p : pushed w l → a ∉ l → pushed (relinked w a p) l.
Proof.
  intros [Hl Hn Hs Ha Hm Hh Hc] Hal. split; try done.
  - eapply lseg_frame; [|exact Hl]. intros x Hx. apply relinked_next. by intros ->.
  - intros x Hx. cbn. rewrite lookup_alter_is_Some. auto.
  - rewrite <- Hm. cbn. apply map_eq. intros x. rewrite !lookup_fmap, lookup_alter.
    case_decide; subst; [|done]. by destruct (mem w !! x).
Qed.

Lemma head_pushed w l a :
  pushed w l → a ∉ l → a ∈ A → next_at (mem w) a = Some (head (heap w)) →
  pushed (with_head w (Some a)) (a :: l).
Proof.
  intros [Hl Hn Hs Ha Hm Hh Hc] Hal HaA Hnext. split; try done.
  - cbn. split; [done|]. unfold next_at in Hnext. destruct (mem w !! a) as [b|]; [|done].
    cbn in Hnext. simplify_eq. exists b. split; [done|]. by rewrite Hnext.
  - by apply NoDup_cons.
  - destruct Hs as (lp & -> & Hlp). exists (a :: lp). split; [done|].
    intros x [->|?]%elem_of_cons; auto.
  - cbn. by rewrite Hh.
Qed.

Lemma guar_pushed a s s' : guar a s s' → pushed s.1 s.2 → pushed s'.1 s'.2.
Proof.
  intros Hg Hp. destruct Hg; [done|by apply relinked_pushed|by apply head_pushed].
Qed.

(** What the other threads may do keeps the list, which may grow in front. *)
Lemma rely_pushed a w l s' :
  rtc (rely a) (w, l) s' → pushed w l →
  ∃ ex, s'.2 = ex ++ l ∧ pushed s'.1 s'.2 ∧ a ∉ ex ∧
    (a ∉ l → next_at (mem s'.1) a = next_at (mem w) a).
Proof.
  intros Hr. remember (w, l) as s eqn:E. revert w l E.
  induction Hr as [s|s s1 s2 (b & Hne & Hg) Hr IH]; intros w l ->; intros Hp.
  { exists []. split_and!; try done. apply not_elem_of_nil. }
  pose proof (guar_pushed _ _ _ Hg Hp) as Hp1. destruct s1 as [w1 l1].
  destruct (IH w1 l1 eq_refl Hp1) as (ex & Hl & Hp2 & Hex & Hn2). clear IH.
  inversion Hg as [|? ? p Hb|? ? Hb HbA Hn]; subst; cbn in *.
  - by exists ex.
  - exists ex. split_and!; try done. intros Ha. rewrite Hn2 by done. by apply relinked_next.
  - exists (ex ++ [b]). rewrite <- app_assoc. split_and!; try done.
    + rewrite elem_of_app, list_elem_of_singleton. naive_solver.
    + intros Ha. rewrite Hn2; [done|]. apply not_elem_of_cons. split; [congruence|done].
Qed.

(** The head is the first object of the list. *)
Lemma pushed_same_head w w' l : pushed w l → pushed w' l → head (heap w) = head (heap w').
Proof.
  intros [Hl _ _ _ _ _ _] [Hl' _ _ _ _ _ _].
  destruct l as [|x l]; cbn in Hl, Hl'; [congruence|].
  destruct Hl as [-> _], Hl' as [-> _]. done.
Qed.

Lemma pushed_length w l a :
  pushed w l → a ∈ A → a ∉ l → (length l < length A + length l0)%nat.
Proof.
  intros [_ Hn (lp & -> & Hlp) _ _ _ _] Ha Hal. rewrite length_app.
  assert (length (a :: lp) ≤ length A)%nat; [|cbn in *; lia].
  apply submseteq_length, NoDup_submseteq.
  - apply NoDup_app in Hn as (Hn & _ & _). apply NoDup_cons. split; [|done].
    intros ?. apply Hal. rewrite elem_of_app. by left.
  - intros x [->|?]%elem_of_cons; auto.
Qed.

(** The loop of one thread. *)
Lemma pushing_rg fuel a w l :
  pushed w l → a ∈ A → a ∉ l → (length A + length l0 ≤ fuel + length l)%nat →
  rg (rely a) (guar a) (Heap.push_loop fuel a) (λ _ s, a ∈ s.2) (w, l).
Proof.
  revert w l. induction fuel as [|fuel IH]; intros w l Hp HaA Hal Hfuel.
  { pose proof (pushed_length _ _ _ Hp HaA Hal). lia. }
  cbn [Heap.push_loop]. intros [w1 l1] Hr1.
  destruct (rely_pushed _ _ _ _ Hr1 Hp) as (ex1 & Hl1 & Hp1 & Hex1 & _). cbn in Hl1, Hp1.
  exists l1. replace (set_heap w1 (heap w1)) with w1 by by destruct w1.
  split; [apply guar_load|]. intros [w2 l2] Hr2.
  destruct (rely_pushed _ _ _ _ Hr2 Hp1) as (ex2 & Hl2 & Hp2 & Hex2 & _). cbn in Hl2, Hp2.
  assert (a ∉ l2) as Hal2 by (subst; rewrite !not_elem_of_app; done).
  destruct (pu_alloc _ _ Hp2 _ HaA) as [b Hb]. unfold header_set, header_update. cbn.
  rewrite Hb. cbn.
  assert (set_mem w2 (<[a:=mkBox (set_next (header b) (head (heap w1))) (data b)]> (mem w2)) =
    relinked w2 a (head (heap w1))) as -> by (unfold relinked; by rewrite alter_alt, Hb).
  exists l2. split; [by apply guar_link|]. set (w3 := relinked w2 a (head (heap w1))).
  pose proof (relinked_pushed _ _ _ (head (heap w1)) Hp2 Hal2) as Hp3. fold w3 in Hp3.
  assert (next_at (mem w3) a = Some (head (heap w1))) as Hn3.
  { unfold next_at, w3. cbn. by rewrite lookup_alter_eq, Hb. }
  intros [w4 l4] Hr4.
  destruct (rely_pushed _ _ _ _ Hr4 Hp3) as (ex4 & Hl4 & Hp4 & Hex4 & Hn4). cbn in Hl4, Hp4.
  assert (a ∉ l4) as Hal4 by (subst l4; rewrite not_elem_of_app; done).
  specialize (Hn4 Hal2). rewrite Hn3 in Hn4. cbn in Hn4. unfold heap_update. cbn. case_bool_decide as Hcas; cbn in Hcas |- *.
  - exists (a :: l4). split; [apply guar_push; [done|done|congruence]|].
    intros [w5 l5] Hr5.
    destruct (rely_pushed _ _ _ _ Hr5) as (ex5 & Hl5 & _); [by apply head_pushed; [..|congruence]|].
    cbn in *. subst l5. rewrite elem_of_app. right. by left.
  - replace (set_heap w4 (heap w4)) with w4 by by destruct w4.
    exists l4. split; [apply guar_load|]. apply (IH w4 l4); [done..|].
    assert (ex4 ++ ex2 ≠ []) as Hgrown.
    { intros [-> ->]%app_nil. cbn in *. subst l4 l2. apply Hcas.
      by apply (pushed_same_head _ _ l1). }
    assert (length (ex4 ++ ex2) ≠ 0)%nat by by intros ?%length_zero_iff_nil.
    subst l4 l2 l1. rewrite !length_app in *. lia.
Qed.

(** All threads: the thread of index [i] links [A !! i]. *)
Definition R_of (i : nat) : world * list loc → world * list loc → Prop :=
  match A !! i with Some a => rely a | None => λ _ _, True end.
Definition G_of (i : nat) : world * list loc → world * list loc → Prop :=
  match A !! i with Some a => guar a | None => λ _ _, False end.
Definition Q_of (i : nat) (_ : unit) (s : world * list loc) : Prop :=
  match A !! i with Some a => a ∈ s.2 | None => True end.

Lemma guar_rely i j : i ≠ j → ∀ u v, G_of j u v → R_of i u v.
Proof.
  intros Hij u v. unfold G_of, R_of. destruct (A !! j) as [b|] eqn:Hj; [|done].
  destruct (A !! i) as [a|] eqn:Hi; [|done]. intros Hg. exists b. split; [|done].
  intros ->. apply Hij. by eapply NoDup_lookup.
Qed.

Lemma pool_pushed fuel tp w :
  pushed w0 l0 → (∀ a, a ∈ A → a ∉ l0) → (length A ≤ fuel)%nat →
  rtc pool_step (map (Heap.push_loop fuel) A, w0) (tp, w) →
  ∃ l, pool_spec R_of G_of Q_of tp (w, l) ∧ pushed w l.
Proof.
  intros Hp Hfresh Hfuel Hs.
  apply (pool_rg R_of G_of Q_of guar_rely (λ s, pushed s.1 s.2) _ _ l0) in Hs; try done.
  - intros i s s'. unfold G_of. destruct (A !! i); [apply guar_pushed|done].
  - intros i p Hi. apply list_lookup_fmap_Some in Hi as (a & -> & Hi).
    unfold R_of, G_of, Q_of. rewrite Hi. apply list_elem_of_lookup_2 in Hi.
    apply pushing_rg; [done|done|by apply Hfresh|lia].
Qed.

Lemma pool_done tp w l :
  length tp = length A → pool_spec R_of G_of Q_of tp (w, l) → pushed w l →
  (∀ a, a ∈ A → a ∉ l0) → Forall (λ p, p = Ret tt) tp →
  ∃ lp, lp ≡ₚ A ∧ l = lp ++ l0.
Proof.
  intros Hlen Hspec Hp Hfresh Hall.
  assert (∀ a, a ∈ A → a ∈ l) as Hin.
  { intros a [i Hi]%list_elem_of_lookup.
    destruct (lookup_lt_is_Some_2 tp i) as [p Htp].
    { rewrite Hlen. by eapply lookup_lt_Some. }
    rewrite Forall_lookup in Hall. rewrite (Hall _ _ Htp) in Htp.
    pose proof (pool_rg_done _ _ _ _ _ _ Hspec Htp) as HQ. unfold Q_of in HQ.
    by rewrite Hi in HQ. }
  destruct Hp as [_ Hn (lp & -> & Hlp) _ _ _ _]. exists lp. split; [|done].
  apply NoDup_app in Hn as (Hn & _ & _). apply NoDup_Permutation; [done..|].
  intros x. split; [apply Hlp|]. intros Hx.
  destruct (proj1 (elem_of_app _ _ _) (Hin x Hx)) as [?|Hx0]; [done|].
  by apply Hfresh in Hx0.
Qed.

Lemma pushed_abs w l : pushed w l → abs w = abs w0.
Proof.
  intros [_ _ _ _ Hm _ Hc]. unfold abs. f_equal; [|done].
  apply (f_equal (fmap abs_box)) in Hm. rewrite <- !map_fmap_compose in Hm. done.
Qed.

End push.

(** C13: threads that allocate at the same time lose no object: whatever the
    interleaving, no thread faults or retries more often than there are threads,
    and when all are done the allocation list holds every new object once, in
    front of the old ones, with nothing else of the object graph changed. *)
Theorem concurrent_push_correct w0 l0 A fuel tp w :
  lseg (mem w0) (head (heap w0)) l0 None → NoDup l0 → NoDup A →
  (∀ a, a ∈ A → is_Some (mem w0 !! a) ∧ a ∉ l0) → (length A ≤ fuel)%nat →
  rtc pool_step (map (Heap.push_loop fuel) A, w0) (tp, w) →
  ¬ pool_stuck (tp, w) ∧
  (Forall (λ p, p = Ret tt) tp →
   ∃ lp, lp ≡ₚ A ∧ lseg (mem w) (head (heap w)) (lp ++ l0) None ∧ NoDup (lp ++ l0) ∧
     abs w = abs w0).
Proof.
  intros Hl0 Hn0 HA Hfresh Hfuel Hs.
  assert (pushed w0 l0 A w0 l0) as Hp.
  { split; try done; [|intros; by apply Hfresh|by destruct (heap w0)].
    exists []. split; [done|]. by intros ? ?%elem_of_nil. }
  assert (∀ a, a ∈ A → a ∉ l0) as Hf by (intros; by apply Hfresh).
  destruct (pool_pushed w0 l0 A HA fuel tp w Hp Hf Hfuel Hs) as (l & Hspec & Hpw).
  split; [by eapply pool_rg_not_stuck|]. intros Hall.
  pose proof (pool_steps_length _ _ Hs) as Hlen. cbn in Hlen. rewrite length_map in Hlen.
  destruct (pool_done w0 l0 A HA tp w l Hlen Hspec Hpw Hf Hall) as (lp & Hlp & ->).
  exists lp. split; [done|]. split; [apply Hpw|]. split; [apply Hpw|].
  by eapply pushed_abs.
Qed.
