(* ===== verification/MarkProtocol.v ===== *)
(** * A protocol for threads that mark

    The background thread and the mutators that assist it mark at the same time,
    each with its own tracer, interleaved action by action, while other threads may
    change the object graph.  What marking relies on is a [protocol]: an invariant
    of the state, and a relation that says how the state may evolve during a mark
    phase.  Against this interface every marking operation is specified in the
    rely-guarantee calculus; [ConcurrentMark] and [Mutators] implement it.

    The ghost state is the list, per thread, of the objects that the thread has in
    its tracer or is scanning, next to the ghost state of the protocol.  With it the
    tri-colour invariant holds in every state of every interleaving. *)

From stdpp Require Import relations.
From S2P Require Import Prelude Prog Color TraceImpls GcBox Options BgThread World.
From S2P Require Import Graph Tracing State HeapOps Marking.
Open Scope Z_scope.

(** The objects that each thread holds. *)
Abbreviation held := (list (list loc)).

Lemma elem_of_held (L : held) x : x ∈ concat L ↔ ∃ j l, L !! j = Some l ∧ x ∈ l.
Proof.
  rewrite list_elem_of_In, in_concat. split.
  - intros (l & Hl & Hx). apply list_elem_of_In in Hl, Hx.
    apply list_elem_of_lookup in Hl as [j ?]. by exists j, l.
  - intros (j & l & Hj & Hx). exists l. rewrite <- !list_elem_of_In.
    split; [by eapply list_elem_of_lookup_2|done].
Qed.

Definition holding_none (n : nat) : held := replicate n [].

Lemma held_none n : concat (holding_none n) = [].
Proof. by induction n. Qed.

(** After thread [i] exchanged its objects [l] for [l']. *)
Lemma elem_of_held_insert (L : held) i l l' x :
  L !! i = Some l →
  x ∈ concat (<[i := l']> L) ↔ x ∈ l' ∨ ∃ j lj, j ≠ i ∧ L !! j = Some lj ∧ x ∈ lj.
Proof.
  intros Hi. assert (i < length L)%nat by by eapply lookup_lt_Some.
  rewrite elem_of_held. split.
  - intros (j & lj & Hj & Hx). destruct (decide (i = j)) as [<-|Hne].
    + rewrite list_lookup_insert_eq in Hj by done. simplify_eq. by left.
    + rewrite list_lookup_insert_ne in Hj by done. right. by exists j, lj.
  - intros [Hx|(j & lj & Hne & Hj & Hx)].
    + exists i, l'. by rewrite list_lookup_insert_eq.
    + exists j, lj. by rewrite list_lookup_insert_ne.
Qed.

Lemma elem_of_held_split (L : held) i l x :
  L !! i = Some l →
  x ∈ concat L ↔ x ∈ l ∨ ∃ j lj, j ≠ i ∧ L !! j = Some lj ∧ x ∈ lj.
Proof.
  intros Hi. rewrite <- (elem_of_held_insert L i l l x Hi). by rewrite list_insert_id.
Qed.

(** ** Settled and valid requests *)

(** There is an object of type [t] at [a]. *)
Definition valid (w : world) (t : ty) (a : loc) : Prop :=
  ∃ b, mem w !! a = Some b ∧ box_ty b = t.

(** Nothing is left to mark for the request [r]. *)
Definition settled (w : world) (r : treq) : Prop :=
  match r with
  | RMark _ a => nonwhite w a
  | RCell c => ∃ v, cells w !! c = Some v ∧ ∀ t a, RMark t a ∈ owned v → nonwhite w a
  end.

(** ** The interface *)

(** - [pr_sound]: the objects that may be marked;
    - [pr_inv]: the invariant, with the ghost state of the protocol;
    - [pr_later w w']: the state may go from [w] to [w'];
    - [pr_step i x x']: what thread [i] may do to the ghost state;
    - [pr_own i x]: the part of the ghost state that only thread [i] changes. *)
Record protocol (X O : Type) := mkProtocol {
  pr_sound : loc → Prop;
  pr_inv : world → X → Prop;
  pr_later : world → world → Prop;
  pr_step : nat → X → X → Prop;
  pr_own : nat → X → O;
}.
Arguments pr_sound {X O} _ _.
Arguments pr_inv {X O} _ _ _.
Arguments pr_later {X O} _ _ _.
Arguments pr_step {X O} _ _ _ _.
Arguments pr_own {X O} _ _ _.

Class ProtocolLaws `{Env} {X O} (pr : protocol X O) : Prop := {
  pl_later :: PreOrder (pr_later pr);
  pl_later_nonwhite w w' a : pr_later pr w w' → nonwhite w a → nonwhite w' a;
  pl_later_box w w' a b :
    pr_later pr w w' → mem w !! a = Some b → ∃ b', mem w' !! a = Some b' ∧
      vtable (header b') = vtable (header b) ∧ data b' = data b;
  pl_later_cell w w' c v :
    pr_later pr w w' → cells w !! c = Some v → ∃ v', cells w' !! c = Some v' ∧
      (v' = v ∨ ∀ t a, RMark t a ∈ owned v' → nonwhite w' a ∧ valid w' t a);
  pl_later_mark w w' :
    recolored w w' → (∀ a, nonwhite w a → nonwhite w' a) → pr_later pr w w';
  pl_inv_mark w w' x :
    pr_inv pr w x → recolored w w' → (∀ a, nonwhite w a → nonwhite w' a) →
    pr_inv pr w' x;
  pl_inv_graph w x : pr_inv pr w x → wf_graph (abs w);
  pl_inv_sound w x a b :
    pr_inv pr w x → pr_sound pr a → edge (abs w) a b → pr_sound pr b;
  pl_step_refl i x : pr_step pr i x x;
  pl_step_own i j x x' : pr_step pr j x x' → i ≠ j → pr_own pr i x' = pr_own pr i x;
}.

Section marking.
Context `{Env} `{!TraceContract} {X O : Type} (pr : protocol X O) `{!ProtocolLaws pr}.

Implicit Types s : world * (held * X).

(** ** Invariant, rely and guarantee *)

Definition cinv s : Prop :=
  pr_inv pr s.1 s.2.2 ∧ tri (abs s.1) (pr_sound pr) (concat s.2.1) [] s.1.

Record guar (i : nat) s s' : Prop := {
  gu_later : pr_later pr s.1 s'.1;
  gu_inv : cinv s → cinv s';
  gu_held j : j ≠ i → s'.2.1 !! j = s.2.1 !! j;
  gu_length : length s'.2.1 = length s.2.1;
  gu_step : pr_step pr i s.2.2 s'.2.2;
}.

Definition rely (i : nat) s s' : Prop := ∃ j, j ≠ i ∧ guar j s s'.

Lemma guar_in_rely i j : i ≠ j → ∀ u v, guar j u v → rely i u v.
Proof. intros Hij u v Hg. by exists j. Qed.

(** What thread [i] may assume of a later state: its own ghost state is as it left
    it. *)
Definition since (i : nat) s s' : Prop :=
  pr_later pr s.1 s'.1 ∧ pr_own pr i s'.2.2 = pr_own pr i s.2.2.

#[global] Instance since_preorder i : PreOrder (since i).
Proof.
  split; [by split|]. intros ? ? ? [? E1] [? E2]. split; [by etransitivity|by rewrite E2].
Qed.

(** Thread [i] holds exactly the objects [l]. *)
Definition holds (i : nat) (l : list loc) s : Prop := cinv s ∧ s.2.1 !! i = Some l.

Lemma holds_stable i l s s' : rtc (rely i) s s' → holds i l s → holds i l s' ∧ since i s s'.
Proof.
  induction 1 as [s|s s1 s2 (j & Hj & [Hl Hi Hh _ Hx]) _ IH]; [by intros|]. intros [Hc Hs].
  destruct IH as [? ?].
  - split; [by apply Hi|]. by rewrite Hh.
  - split; [done|]. etransitivity; [|eassumption]. split; [done|]. by eapply pl_step_own.
Qed.

Lemma cinv_obj s a b : cinv s → mem s.1 !! a = Some b → objs (abs s.1) !! a = Some (abs_box b).
Proof. intros [_ Ht] Hb. by eapply tri_obj. Qed.

Lemma holds_alloc i l s a :
  holds i l s → a ∈ l → is_Some (mem s.1 !! a) ∧ pr_sound pr a.
Proof.
  intros [[_ Hc] Hs] Ha. assert (a ∈ concat s.2.1 ++ [] ++ gray_queue (heap s.1)) as Hin.
  { rewrite elem_of_app. left. apply elem_of_held. by exists i, l. }
  split; [by eapply tri_alloc|by eapply tri_sound_queue].
Qed.

Lemma later_is_Some w w' a : pr_later pr w w' → is_Some (mem w !! a) → is_Some (mem w' !! a).
Proof. intros Hl [b Hb]. destruct (pl_later_box _ _ _ _ Hl Hb) as (b' & -> & _). eauto. Qed.

Lemma valid_later w w' t a : pr_later pr w w' → valid w t a → valid w' t a.
Proof.
  intros Hl (b & Hb & <-). destruct (pl_later_box _ _ _ _ Hl Hb) as (b' & Hb' & Hv & _).
  exists b'. split; [done|]. unfold box_ty. by rewrite Hv.
Qed.

(** The request [r] can be served. *)
Definition servable (w : world) (r : treq) : Prop :=
  match r with
  | RMark t a => pr_sound pr a ∧ valid w t a
  | RCell c => ∃ v, cells w !! c = Some v ∧
      ∀ t a, RMark t a ∈ owned v → pr_sound pr a ∧ valid w t a
  end.

Lemma servable_later s s' r :
  pr_later pr s.1 s'.1 → cinv s' → servable s.1 r → servable s'.1 r.
Proof.
  intros Hl [_ Ht] Hr. destruct r as [t a|c]; cbn in *.
  - destruct Hr as [? ?]. split; [done|by eapply valid_later].
  - destruct Hr as (v & Hv & Hown). destruct (pl_later_cell _ _ _ _ Hl Hv) as (v' & Hv' & Hor).
    exists v'. split; [done|]. intros t a Hin. destruct Hor as [->|Hnw].
    + destruct (Hown _ _ Hin) as [? ?]. split; [done|by eapply valid_later].
    + destruct (Hnw _ _ Hin) as [? ?]. split; [by eapply tri_sound|done].
Qed.

Lemma all_servable_later s s' rs :
  pr_later pr s.1 s'.1 → cinv s' → Forall (servable s.1) rs → Forall (servable s'.1) rs.
Proof.
  intros Hl Hc Hall. eapply Forall_impl; [exact Hall|]. intros r. by apply servable_later.
Qed.

(** The parts of an object that may be marked can be served. *)
Lemma graph_servable w a b :
  wf_graph (abs w) → (∀ c, edge (abs w) a c → pr_sound pr c) → mem w !! a = Some b →
  Forall (servable w) (owned (data b)).
Proof.
  intros HG Hs Hb. assert (objs (abs w) !! a = Some (abs_box b)) as Ho
    by (cbn; by rewrite lookup_fmap, Hb).
  destruct (wf_obj_val _ HG _ _ Ho) as [Hpts Hcl].
  assert (∀ t c, points (cells w) (data b) t c → pr_sound pr c ∧ valid w t c) as Hp.
  { intros t c Hp. split; [apply Hs; by exists (abs_box b), t|].
    destruct (Hpts _ _ Hp) as (o & Hoc & Hty). cbn in Hoc. rewrite lookup_fmap in Hoc.
    apply fmap_Some in Hoc as (bc & Hbc & ->). by exists bc. }
  apply Forall_forall. intros [t c|c] Hin; cbn.
  - apply Hp. by apply points_here.
  - destruct (Hcl c Hin) as [v Hv]. exists v. split; [done|]. intros t d Hd.
    apply Hp. by eapply points_cell.
Qed.

Lemma owned_servable s a b :
  cinv s → pr_sound pr a → mem s.1 !! a = Some b → Forall (servable s.1) (owned (data b)).
Proof.
  intros [Hi _] Ha Hb. apply (graph_servable _ a); [by eapply pl_inv_graph| |done].
  intros c. by eapply pl_inv_sound.
Qed.

Lemma settled_later w w' r : pr_later pr w w' → settled w r → settled w' r.
Proof.
  intros Hl. destruct r as [t a|c]; cbn; [by apply pl_later_nonwhite|].
  intros (v & Hv & Hnw). destruct (pl_later_cell _ _ _ _ Hl Hv) as (v' & Hv' & [->|Hnw']).
  - exists v. split; [done|]. intros t a Hin. eapply pl_later_nonwhite; eauto.
  - exists v'. split; [done|]. intros t a Hin. by eapply Hnw'.
Qed.

Lemma all_settled_later w w' rs :
  pr_later pr w w' → Forall (settled w) rs → Forall (settled w') rs.
Proof. intros Hl Hall. eapply Forall_impl; [exact Hall|]. intros r. by apply settled_later. Qed.

(** An object whose parts are settled has no white target. *)
Lemma settled_edge s a b c :
  cinv s → mem s.1 !! a = Some b → Forall (settled s.1) (owned (data b)) →
  edge (abs s.1) a c → nonwhite s.1 c.
Proof.
  intros Hc Hb Hall (o & t & Ho & Hp). rewrite (cinv_obj _ _ _ Hc Hb) in Ho. simplify_eq.
  rewrite Forall_forall in Hall. destruct Hp as [Hin|c' v Hin Hv Hin'].
  - apply (Hall (RMark t c) Hin).
  - destruct (Hall (RCell c') Hin) as (v' & Hv' & Hnw). cbn in Hv. rewrite Hv in Hv'.
    simplify_eq. by eapply Hnw.
Qed.

(** ** Specifications

    [spec i p s L T]: started by thread [i] in [s], [p] does not get stuck; when it
    returns [r] the thread holds [L r] and the requests [T r] are settled. *)
Definition mpost {A} (i : nat) s (L : A → list loc) (T : A → list treq) (r : A) s' : Prop :=
  holds i (L r) s' ∧ since i s s' ∧ Forall (settled s'.1) (T r).

Abbreviation spec i p s L T := (rg (rely i) (guar i) p (mpost i s L T) s).

Lemma ret_rg {A} i s (r : A) L T :
  holds i (L r) s → Forall (settled s.1) (T r) → spec i (Ret r) s L T.
Proof.
  intros Hh HT s' Hr. destruct (holds_stable _ _ _ _ Hr Hh) as [? Hl].
  split; [done|]. split; [done|]. eapply all_settled_later; [apply Hl|done].
Qed.

(** One atomic action of marking. *)
Lemma action_rg {Y} i l s (f : world → outcome world Y) L T :
  holds i l s →
  (∀ s1, since i s s1 → holds i l s1 → ∃ y w', f s1.1 = Done y w' ∧
     recolored s1.1 w' ∧ (∀ a, nonwhite s1.1 a → nonwhite w' a) ∧
     tri (abs w') (pr_sound pr) (concat (<[i := L y]> s1.2.1)) [] w' ∧
     Forall (settled w') (T y)) →
  spec i (action f) s L T.
Proof.
  intros Hh Hf s1 Hr. destruct (holds_stable _ _ _ _ Hr Hh) as [Hh1 Hl].
  destruct (Hf s1 Hl Hh1) as (y & w' & -> & Hrc & Hnw & Ht & HT).
  exists (<[i := L y]> s1.2.1, s1.2.2).
  assert (pr_later pr s1.1 w') as Hlw by by apply pl_later_mark.
  assert (cinv (w', (<[i := L y]> s1.2.1, s1.2.2))) as Hc.
  { split; [|done]. eapply pl_inv_mark; [apply Hh1|done|done]. }
  split.
  - split; [done|done| |apply length_insert|apply pl_step_refl].
    intros j Hj. cbn. by rewrite list_lookup_insert_ne.
  - intros s2 Hr2. destruct (holds_stable i (L y) _ _ Hr2) as [Hh2 Hl2].
    { split; [done|]. cbn. apply list_lookup_insert_eq. destruct Hh1 as [_ Hi].
      by eapply lookup_lt_Some. }
    split; [done|]. split.
    + etransitivity; [exact Hl|]. etransitivity; [|exact Hl2]. by split.
    + eapply all_settled_later; [apply Hl2|done].
Qed.

Lemma spec_since {A} i s s1 (p : gc A) L T :
  since i s s1 → spec i p s1 L T → rg (rely i) (guar i) p (mpost i s L T) s1.
Proof.
  intros Hl Hp. eapply rg_mono; [exact Hp|]. intros r s2 (Hh2 & Hl2 & HT2).
  split; [done|]. split; [by etransitivity|done].
Qed.

Lemma bind_rg {A B} i s (p : gc A) (k : A → gc B) L1 T1 L2 T2 :
  spec i p s L1 T1 →
  (∀ r s1, holds i (L1 r) s1 → since i s s1 → Forall (settled s1.1) (T1 r) →
     spec i (k r) s1 L2 T2) →
  spec i (bind p k) s L2 T2.
Proof.
  intros Hp Hk. eapply rg_bind; [exact Hp|]. intros r s1 (Hh & Hl & HT).
  apply spec_since; [done|]. by apply Hk.
Qed.

(** Objects that move between the thread and the shared queue, or change their
    order. *)
Lemma tri_queue s i l l' q' :
  cinv s → s.2.1 !! i = Some l →
  (∀ x, x ∈ l' ++ q' ↔ x ∈ l ++ gray_queue (heap s.1)) →
  tri (abs (with_queue s.1 q')) (pr_sound pr) (concat (<[i := l']> s.2.1)) []
    (with_queue s.1 q').
Proof.
  intros [_ Ht] Hi Hx. change (abs (with_queue s.1 q')) with (abs s.1).
  eapply (tri_elems _ _ (concat s.2.1) _ []); [|exact Ht].
  intros x. specialize (Hx x). rewrite !elem_of_app in *.
  rewrite (elem_of_held_insert _ _ l), (elem_of_held_split _ _ l) by done. set_solver.
Qed.

(** A read of something; the thread may reorder its objects. *)
Lemma read_bind_rg {Y A} i l l' s (f : world → outcome world Y) (k : Y → gc A) L T :
  holds i l s → (∀ y, y ∈ l' ↔ y ∈ l) →
  (∀ s1, holds i l' s1 → since i s s1 → ∃ x, f s1.1 = Done x s1.1 ∧ spec i (k x) s1 L T) →
  spec i (bind (action f) k) s L T.
Proof.
  intros Hh Hll Hk s1 Hr. destruct (holds_stable _ _ _ _ Hr Hh) as [[Hc Hi] Hl].
  set (s2 := (s1.1, (<[i := l']> s1.2.1, s1.2.2)) : world * (held * X)).
  assert (cinv s2) as Hc2.
  { split; [apply Hc|]. cbn. rewrite <- (with_queue_id s1.1).
    apply (tri_queue s1 i l); [done|done|]. intros y. by rewrite !elem_of_app, Hll. }
  assert (since i s s2) as Hs2 by (etransitivity; [exact Hl|]; split; [cbn; reflexivity|done]).
  destruct (Hk s2) as (x & Hf & Hx); [|done|].
  { split; [done|]. cbn. apply list_lookup_insert_eq. by eapply lookup_lt_Some. }
  cbn in Hf. cbn. rewrite Hf. exists (<[i := l']> s1.2.1, s1.2.2). split.
  - split; [cbn; reflexivity|done| |apply length_insert|apply pl_step_refl].
    intros j Hj. cbn. by rewrite list_lookup_insert_ne.
  - by apply (spec_since i s s2).
Qed.

Lemma box_get_bind_rg {Y A} i l l' s a (g : GcBox → Y) (k : Y → gc A) b L T :
  holds i l s → (∀ y, y ∈ l' ↔ y ∈ l) → mem s.1 !! a = Some b →
  (∀ b b', vtable (header b') = vtable (header b) → data b' = data b → g b' = g b) →
  (∀ s1, holds i l' s1 → since i s s1 → spec i (k (g b)) s1 L T) →
  spec i (bind (box_get a g) k) s L T.
Proof.
  intros Hh Hll Hb Hg Hk. apply (read_bind_rg i l l'); [done|done|]. intros s1 Hh1 Hl.
  destruct (pl_later_box _ _ _ _ (proj1 Hl) Hb) as (b1 & Hb1 & Hv & Hd).
  exists (g b). rewrite Hb1. split; [|by apply Hk]. by rewrite (Hg b b1).
Qed.

(** ** Marking one object *)

Lemma mark_black_rg i l l' t a b s :
  holds i l s → pr_sound pr a → mem s.1 !! a = Some b → Forall (settled s.1) (owned (data b)) →
  (∀ x, x ∈ l' → x ∈ l) → (∀ x, x ∈ l → x = a ∨ x ∈ l') →
  spec i (mark_black a) s (λ _, l') (λ _, [RMark t a]).
Proof.
  intros Hh Ha Hb Hch H1 H2. apply (action_rg i l); [done|]. intros s1 [Hl _] [Hc Hi].
  destruct (pl_later_box _ _ _ _ Hl Hb) as (b1 & Hb1 & _ & Hd1).
  exists tt, (paint s1.1 a Black).
  assert (abs (paint s1.1 a Black) = abs s1.1) as Habs
    by (symmetry; apply recolored_abs, paint_recolored).
  destruct (tri_paint_black (abs s1.1) (pr_sound pr) (concat s1.2.1) (concat (<[i:=l']> s1.2.1))
    [] s1.1 a) as (Ht & Hadv & Hnw); try done.
  - apply Hc.
  - intros c He. eapply settled_edge; [exact Hc|exact Hb1| |done]. rewrite Hd1.
    by eapply all_settled_later.
  - intros x. rewrite (elem_of_held_insert _ _ l), (elem_of_held_split _ _ l) by done.
    intros [?|?]; auto.
  - intros x. rewrite (elem_of_held_insert _ _ l), (elem_of_held_split _ _ l) by done.
    intros [[->|?]%H2|?]; auto.
  - split; [by rewrite Hb1, (paint_lookup _ _ _ _ Hb1)|].
    split; [apply Hadv|]. split; [apply Hadv|]. split; [by rewrite Habs|].
    by repeat constructor.
Qed.

(** [mark_white_to_gray], and the push that follows a success. *)
Lemma mark_header_rg i P tr t a s :
  holds i (P ++ tr) s → pr_sound pr a → is_Some (mem s.1 !! a) →
  spec i (Tracer.mark_header tr a) s (λ tr', P ++ tr') (λ _, [RMark t a]).
Proof.
  intros Hh Ha [b0 Hb0]. unfold Tracer.mark_header.
  apply (bind_rg i s _ _ (λ ok : bool, if ok then P ++ vec_push tr a else P ++ tr)
    (λ _, [RMark t a])); [|intros [] s1 Hh1 Hl1 HT1; by apply ret_rg].
  apply (action_rg i (P ++ tr)); [done|]. intros s1 [Hl _] [Hc Hi].
  destruct (pl_later_box _ _ _ _ Hl Hb0) as (b & Hb & _). rewrite Hb.
  pose proof Hc as [Hx Ht]. destruct (wf_color _ (tri_mem _ _ _ _ _ Ht) _ _ Hb) as [c Hcol].
  unfold AtomicColor.mark_white_to_gray, AtomicColor.compare_exchange.
  assert (box_color b = c) as Hbc.
  { unfold box_color, AtomicColor.load. rewrite Hcol. apply Color_from_as_u8. }
  destruct (decide (c = White)) as [->|Hne].
  - rewrite Hcol. cbn. exists true, (paint s1.1 a Gray).
    rewrite (paint_lookup _ _ _ _ Hb). split; [done|]. rewrite <- (paint_lookup _ _ _ _ Hb).
    destruct (tri_paint_gray (abs s1.1) (pr_sound pr) (pl_inv_graph _ _ Hx)
      (λ a b, pl_inv_sound _ _ a b Hx) (concat s1.2.1) [] s1.1 a b Ht Ha Hb Hbc)
      as (Ht' & Hadv & Hnw).
    split; [apply Hadv|]. split; [apply Hadv|]. split; [|by repeat constructor].
    rewrite <- (recolored_abs s1.1) by apply Hadv.
    rewrite <- (with_queue_id (paint s1.1 a Gray)).
    eapply (tri_elems _ _ (concat s1.2.1) _ (vec_push [] a)); [|exact Ht'].
    intros x. unfold vec_push. rewrite !elem_of_app.
    rewrite (elem_of_held_insert _ _ (P ++ tr)), (elem_of_held_split _ _ (P ++ tr)) by done.
    rewrite !elem_of_app. set_solver.
  - exists false, s1.1. rewrite Hcol.
    rewrite (proj2 (Z.eqb_neq _ _)) by (intros Heq; apply Hne; by apply Color_as_u8_inj).
    cbn. rewrite list_insert_id by done.
    split; [f_equal; destruct s1 as [[] ?], b as [[]]; cbn in *; by rewrite insert_id|].
    split; [done|]. split; [done|]. split; [done|]. repeat constructor.
    exists c. split; [|done]. apply color_of_Some. by exists b.
Qed.

Lemma mark_rg i P tr t a s :
  holds i (P ++ tr) s → pr_sound pr a → valid s.1 t a →
  spec i (Tracer.mark tr t a) s (λ tr', P ++ tr') (λ _, [RMark t a]).
Proof.
  intros Hh Ha (b & Hb & Hty). unfold Tracer.mark.
  destruct (NO_TRACE t) eqn:Hn; [|by apply mark_header_rg; [..|by eexists]].
  eapply (bind_rg i s _ _ (λ _, P ++ tr) (λ _, [RMark t a])).
  - apply (mark_black_rg i (P ++ tr) (P ++ tr) t a b); [done|done|done| |by auto|by auto].
    destruct Hh as [Hc _]. pose proof (cinv_obj _ _ _ Hc Hb) as Ho.
    apply (wf_obj_type _ (pl_inv_graph _ _ (proj1 Hc))) in Ho. cbn in Ho.
    by rewrite (NO_TRACE_owned _ _ Ho) by (by rewrite Hty).
  - intros [] s1 Hh1 _ HT1. by apply ret_rg.
Qed.

(** ** Tracing *)

Lemma mark_all_rg i rs P tr s :
  holds i (P ++ tr) s → Forall is_mark rs → Forall (servable s.1) rs →
  spec i (Tracer.mark_all tr rs) s (λ tr', P ++ tr') (λ _, rs).
Proof.
  intros Hh Hm. revert tr s Hh. induction Hm as [|[t a|c] rs Hr Hm IH]; intros tr s Hh Hwf;
    cbn [Tracer.mark_all]; [by apply ret_rg| |done].
  apply Forall_cons in Hwf as [[Ha Hv] Hwf].
  eapply bind_rg; [by apply mark_rg|]. intros tr1 s1 Hh1 [Hl1 _] HT1.
  eapply rg_mono; [apply IH; [done|]; by eapply all_servable_later; [..|apply Hh1|]|].
  intros tr2 s2 (Hh2 & Hl2 & HT2). split; [done|]. split; [done|].
  apply Forall_cons. split; [|done]. eapply settled_later; [apply Hl2|].
  by inversion HT1.
Qed.

Lemma trace_all_rg i rs P tr s :
  holds i (P ++ tr) s → Forall (servable s.1) rs →
  spec i (Tracer.trace_all tr rs) s (λ tr', P ++ tr') (λ _, rs).
Proof.
  revert tr s. induction rs as [|[t a|c] rs IH]; intros tr s Hh Hwf; cbn [Tracer.trace_all];
    [by apply ret_rg|..]; apply Forall_cons in Hwf as [Hr Hwf].
  - eapply bind_rg; [by apply mark_rg; [|apply Hr..]|]. intros tr1 s1 Hh1 [Hl1 _] HT1.
    eapply rg_mono; [apply IH; [done|]; by eapply all_servable_later; [..|apply Hh1|]|].
    intros tr2 s2 (Hh2 & Hl2 & HT2). split; [done|]. split; [done|].
    apply Forall_cons. split; [|done]. eapply settled_later; [apply Hl2|].
    by inversion HT1.
  - apply (read_bind_rg i (P ++ tr) (P ++ tr)); [done|done|]. intros s1 Hh1 [Hl1 _].
    destruct (servable_later _ _ _ Hl1 (proj1 Hh1) Hr) as (v & Hv & Hown).
    exists v. rewrite Hv. split; [done|].
    destruct (wf_cell_type _ (pl_inv_graph _ _ (proj1 (proj1 Hh1))) _ _ Hv) as (tv & Hcopy & Htv).
    assert (∀ r, r ∈ trace v ↔ r ∈ owned v) as Htr by (intros; by eapply trace_owned).
    pose proof (copy_owned _ _ Htv Hcopy) as Hmarks.
    eapply bind_rg; [apply mark_all_rg; [done| |]|].
    + apply Forall_forall. intros r ?%Htr. rewrite Forall_forall in Hmarks. by apply Hmarks.
    + apply Forall_forall. intros r Hin%Htr. rewrite Forall_forall in Hmarks.
      pose proof (Hmarks _ Hin). destruct r as [t a|c']; [by apply Hown|done].
    + intros tr1 s2 Hh2 [Hl2 _] HT2.
      eapply rg_mono; [apply IH; [done|];
        eapply all_servable_later; [etransitivity; [exact Hl1|exact Hl2]|apply Hh2|done]|].
      intros tr2 s3 (Hh3 & Hl3 & HT3). split; [done|]. split; [done|].
      apply Forall_cons. split; [|done]. eapply settled_later; [apply Hl3|].
      rewrite Forall_forall in HT2.
      destruct (pl_later_cell _ _ _ _ Hl2 Hv) as (v2 & Hv2 & Hor). exists v2. split; [done|].
      intros t a Hin. destruct Hor as [->|Hnw]; [|by eapply Hnw].
      apply (HT2 (RMark t a)), Htr, Hin.
Qed.

Lemma call_trace_rg i P tr s a b :
  holds i (P ++ tr) s → pr_sound pr a → mem s.1 !! a = Some b →
  spec i (Tracer.call_trace (vt_trace (vtable (header b))) a tr) s
    (λ tr', P ++ tr') (λ _, owned (data b)).
Proof.
  intros Hh Ha Hb. pose proof (proj1 Hh) as Hc. pose proof (cinv_obj _ _ _ Hc Hb) as Ho.
  pose proof (wf_obj_type _ (pl_inv_graph _ _ (proj1 Hc)) _ _ Ho) as Hty. cbn in Hty.
  rewrite (wf_vtable _ (tri_mem _ _ _ _ _ (proj2 Hc)) _ _ Hb). unfold GcVTable_new. cbn [vt_trace].
  destruct (NO_TRACE (box_ty b)) eqn:Hn; cbn [Tracer.call_trace].
  - apply ret_rg; [done|]. by rewrite (NO_TRACE_owned _ _ Hty Hn).
  - apply (box_get_bind_rg i (P ++ tr) (P ++ tr) _ _ _ _ b); [done..|].
    intros s1 Hh1 [Hl1 _].
    assert (∀ r, r ∈ trace (data b) ↔ r ∈ owned (data b)) as Htr by (intros; by eapply trace_owned).
    eapply rg_mono; [apply trace_all_rg; [done|]|].
    + apply Forall_forall. intros r Hin%Htr.
      pose proof (owned_servable _ _ _ Hc Ha Hb) as Hall.
      rewrite Forall_forall in Hall. eapply servable_later; [exact Hl1|apply Hh1|]. by apply Hall.
    + intros tr' s2 (? & ? & HT). split; [done|]. split; [done|].
      rewrite Forall_forall in HT |- *. intros r ?%Htr. by apply HT.
Qed.

(** ** The shared queue *)

Lemma steal_work_rg i s n :
  holds i [] s → 0 < n →
  rg (rely i) (guar i) (Heap.steal_work [] n)
    (λ r s', mpost i s snd (λ _, []) r s' ∧ (r.1 = true → r.2 ≠ [])) s.
Proof.
  intros Hh Hn s1 Hr. destruct (holds_stable _ _ _ _ Hr Hh) as [[Hc Hi] Hl]. cbn.
  destruct (Tracer.steal_from [] n (gray_queue (heap s1.1))) as [[r tr'] q'] eqn:E.
  apply steal_from_spec in E as (Hp & Hf & Ht); [|done].
  pose proof (tri_queue s1 i [] tr' q' Hc Hi) as Ht'.
  assert (pr_later pr s1.1 (with_queue s1.1 q')) as Hlw by (apply pl_later_mark;
    [apply queue_recolored|done]).
  set (s2 := (with_queue s1.1 q', (<[i := tr']> s1.2.1, s1.2.2)) : world * (held * X)).
  assert (cinv s2) as Hc2.
  { split; [|apply Ht'; intros x; by rewrite Hp].
    eapply pl_inv_mark; [apply Hc|apply queue_recolored|done]. }
  exists (<[i := tr']> s1.2.1, s1.2.2).
  split; [split; [done|done| |apply length_insert|apply pl_step_refl]|].
  - intros j Hj. cbn. by rewrite list_lookup_insert_ne.
  - intros s3 Hr3. destruct (holds_stable i tr' _ _ Hr3) as [Hh3 Hl3].
    { split; [exact Hc2|]. cbn. apply list_lookup_insert_eq. by eapply lookup_lt_Some. }
    split; [|done]. split; [done|]. split; [|done].
    etransitivity; [exact Hl|]. etransitivity; [|exact Hl3]. by split.
Qed.

Lemma merge_work_rg i tr s :
  holds i tr s → spec i (Heap.merge_work tr) s (λ _, []) (λ _, []).
Proof.
  intros Hh. apply (action_rg i tr); [done|]. intros s1 _ [Hc Hi].
  exists [], (with_queue s1.1 (gray_queue (heap s1.1) ++ tr)). split; [done|].
  split; [apply queue_recolored|]. split; [done|]. split; [|done].
  apply (tri_queue s1 i tr); [done|done|]. intros x. cbn. rewrite !elem_of_app. tauto.
Qed.

(** ** The marking loops *)

Lemma process_rg {A} i a tr s (k : Tracer → gc A) L T :
  holds i (vec_push tr a) s →
  (∀ tr' s', holds i tr' s' → since i s s' → spec i (k tr') s' L T) →
  spec i (f ← box_get a (λ b, vt_trace (vtable (header b)));
          tr' ← Tracer.call_trace f a tr; mark_black a;; k tr')%gc s L T.
Proof.
  intros Hh Hk. assert (a ∈ vec_push tr a) as Hin by (unfold vec_push; set_solver).
  destruct (holds_alloc _ _ _ _ Hh Hin) as [[b Hb] Ha].
  apply (box_get_bind_rg i (vec_push tr a) ([a] ++ tr) _ _ _ _ b); [done| |done| |].
  { intros y. unfold vec_push. set_solver. }
  { by intros b0 b' ->. }
  intros s1 Hh1 Hl1. destruct (pl_later_box _ _ _ _ (proj1 Hl1) Hb) as (b1 & Hb1 & <- & Hd).
  eapply rg_bind; [by apply call_trace_rg|]. intros tr2 s2 (Hh2 & Hl2 & HT2).
  destruct (pl_later_box _ _ _ _ (proj1 Hl2) Hb1) as (b2 & Hb2 & _ & Hd2). eapply rg_bind.
  { apply (mark_black_rg i ([a] ++ tr2) tr2 (box_ty b) a b2); [done..| |set_solver|set_solver].
    by rewrite Hd2. }
  intros [] s3 (Hh3 & Hl3 & _).
  assert (since i s1 s3) as Hs3 by (etransitivity; [exact Hl2|exact Hl3]).
  apply spec_since; [done|]. apply Hk; [done|]. by etransitivity.
Qed.

Lemma mark_loop_rg i fuel tr budget work_done s :
  holds i tr s →
  (2 * Z.to_nat (budget - work_done) + (if bool_decide (tr = []) then 1 else 0) < fuel)%nat →
  spec i (Heap.mark_loop fuel tr budget work_done) s snd (λ _, []).
Proof.
  revert tr work_done s. induction fuel as [|fuel IH]; intros tr work_done s Hh Hfuel; [lia|].
  cbn [Heap.mark_loop]. destruct (work_done <? budget) eqn:Hb; [|by apply ret_rg].
  apply Z.ltb_lt in Hb. unfold Tracer.pop_work. destruct (vec_pop tr) as [[a tr0]|] eqn:Hp.
  - apply vec_pop_Some in Hp as ->. apply process_rg; [done|]. intros tr1 s1 Hh1 _.
    apply IH; [done|]. case_bool_decide; case_bool_decide; lia.
  - apply vec_pop_None in Hp as ->. eapply rg_bind; [by apply steal_work_rg|].
    intros [stolen tr1] s1 [(Hh1 & Hl1 & _) Hne]. cbn in Hh1, Hne.
    apply spec_since; [done|]. destruct stolen; [|by apply ret_rg].
    apply IH; [done|]. rewrite (bool_decide_eq_false_2 (tr1 = [])) by by apply Hne.
    rewrite bool_decide_eq_true_2 in Hfuel by done. lia.
Qed.

Lemma do_mark_with_tracer_rg i fuel tr budget s :
  holds i tr s → (2 * Z.to_nat budget + 1 < fuel)%nat →
  spec i (Heap.do_mark_with_tracer fuel tr budget) s (λ _, []) (λ _, []).
Proof.
  intros Hh Hfuel. unfold Heap.do_mark_with_tracer.
  eapply (bind_rg i s _ _ snd (λ _, [])).
  { apply mark_loop_rg; [done|]. rewrite Z.sub_0_r. case_bool_decide; lia. }
  intros [d tr1] s1 Hh1 _ _. cbn in Hh1. eapply (bind_rg i s1 _ _ (λ _, []) (λ _, [])).
  - unfold Tracer.has_work. case_bool_decide as Htr; cbn [negb]; [|by apply merge_work_rg].
    subst. by apply ret_rg.
  - intros tr2 s2 Hh2 _ _. by apply ret_rg.
Qed.

Lemma do_mark_incremental_rg i fuel budget s :
  holds i [] s → (2 * Z.to_nat budget + 1 < fuel)%nat →
  spec i (Heap.do_mark_incremental fuel budget) s (λ _, []) (λ _, []).
Proof.
  intros Hh Hfuel. unfold Heap.do_mark_incremental.
  eapply bind_rg; [by apply do_mark_with_tracer_rg|].
  intros [d tr1] s1 Hh1 _ _. by apply ret_rg.
Qed.

(** ** All threads *)

(** When no thread holds anything, every gray object is in the queue. *)
Lemma tri_held_none w L x :
  cinv (w, (L, x)) → (∀ j l, L !! j = Some l → l = []) → tri (abs w) (pr_sound pr) [] [] w.
Proof.
  intros [_ Ht] HL. cbn in Ht. rewrite <- (with_queue_id w).
  change (abs (with_queue w (gray_queue (heap w)))) with (abs w).
  eapply (tri_elems _ _ (concat L) _ []); [|exact Ht]. intros y. cbn. rewrite elem_of_app, elem_of_held.
  split; [by right|]. intros [(j & l & Hj & Hy)|?]; [|done].
  rewrite (HL _ _ Hj) in Hy. by apply elem_of_nil in Hy.
Qed.

End marking.
