(* ===== verification/ConcurrentMark.v ===== *)
(** * Marking by several threads

    The background thread and the mutators that assist it mark at the same time,
    each with its own tracer, interleaved action by action.  Nobody changes the
    object graph here: the protocol of [MarkProtocol] with a constant graph. *)

From stdpp Require Import relations.
From S2P Require Import Prelude Prog Color TraceImpls GcBox Options BgThread World.
From S2P Require Import Graph Tracing State HeapOps Marking MarkProtocol.
Open Scope Z_scope.

Section cmark.
Context `{Env} `{!TraceContract}.
Variables (G : graph) (S : loc → Prop).
Hypothesis HG : wf_graph G.
Hypothesis HS : ∀ a b, S a → edge G a b → S b.

(** Marking went on. *)
Record marked_later (w w' : world) : Prop := {
  ml_recolored : recolored w w';
  ml_nonwhite a : nonwhite w a → nonwhite w' a;
}.

Definition markers : protocol unit unit := {|
  pr_sound := S;
  pr_inv w _ := abs w = G;
  pr_later := marked_later;
  pr_step _ _ _ := True;
  pr_own _ _ := tt;
|}.

#[local] Instance markers_laws : ProtocolLaws markers.
Proof using HG HS.
  split; cbn; try done.
  - split; [by split|]. intros ? ? ? [] []. split; [by etransitivity|auto].
  - intros w w' a [_ Hn]. apply Hn.
  - intros w w' a b [Hr _] Hb. destruct (recolored_lookup _ _ _ _ Hr Hb) as (b' & Hb' & Hu).
    exists b'. split; [done|]. by apply uncolored_eq in Hu as (? & ? & ? & ?).
  - intros w w' c v [Hr _] Hv. exists v. rewrite <- (rc_cells _ _ Hr). by split; [|left].
  - intros w w' _ <- Hr _. symmetry. by apply recolored_abs.
  - by intros w _ ->.
  - intros w _ a b -> Ha He. by eapply HS.
Qed.

(** ** All threads *)

(** One marking step of a thread. *)
Definition marker (fuel : nat) (budget : Z) : gc unit :=
  (Heap.do_mark_incremental fuel budget;; Ret tt)%gc.

Abbreviation markers_spec := (pool_spec (rely markers) (guar markers)
  (λ i _ s, holds markers i [] s)).

Lemma markers_start fuel budgets w0 :
  tri G S [] [] w0 → Forall (λ b, 2 * Z.to_nat b + 1 < fuel)%nat budgets →
  markers_spec (map (marker fuel) budgets) (w0, (holding_none (length budgets), tt)).
Proof.
  intros Ht Hfuel i p Hi. apply list_lookup_fmap_Some in Hi as (b & -> & Hi).
  rewrite Forall_lookup in Hfuel. specialize (Hfuel _ _ Hi). unfold marker.
  assert (i < length budgets)%nat by by eapply lookup_lt_Some.
  eapply rg_mono.
  - eapply (bind_rg markers i _ _ _ (λ _, []) (λ _, []) (λ _, []) (λ _, [])).
    + apply (do_mark_incremental_rg markers); [|done]. split; [|by apply lookup_replicate_2].
      split; cbn; [apply Ht|]. by rewrite held_none, (tri_abs _ _ _ _ _ Ht).
    + intros r s1 Hh1 _ _. by apply (ret_rg markers).
  - intros r s1 (Hh1 & _). exact Hh1.
Qed.

(** The invariant of the whole run. *)
Lemma markers_inv fuel budgets w0 c :
  tri G S [] [] w0 → Forall (λ b, 2 * Z.to_nat b + 1 < fuel)%nat budgets →
  rtc pool_step (map (marker fuel) budgets, w0) c →
  ∃ L, markers_spec c.1 (c.2, (L, tt)) ∧ marked_later w0 c.2 ∧
    cinv markers (c.2, (L, tt)) ∧ length L = length budgets.
Proof.
  intros Ht Hfuel Hs. set (L0 := holding_none (length budgets)).
  apply (pool_rg (rely markers) (guar markers) (λ i _ s, holds markers i [] s)
    (guar_in_rely markers) (λ s, marked_later w0 s.1 ∧ cinv markers s ∧
      length s.2.1 = length budgets) _ c (L0, tt)) in Hs as ([L []] & ? & ? & ? & ?).
  - by exists L.
  - intros i s s' [Hl Hi _ Hlen _] (H1 & H2 & H3).
    split; [|split; [auto|congruence]]. change (pr_later markers w0 s'.1).
    etransitivity; [exact H1|exact Hl].
  - by apply markers_start.
  - split; [by split|]. split; [|apply length_replicate]. split; [apply Ht|]. cbn.
    unfold L0. by rewrite held_none, (tri_abs _ _ _ _ _ Ht).
Qed.

(** Threads that have all returned hold nothing. *)
Lemma markers_done tp w L :
  markers_spec tp (w, (L, tt)) → cinv markers (w, (L, tt)) → length L = length tp →
  Forall (λ p, p = Ret tt) tp → tri (abs w) S [] [] w.
Proof.
  intros Hspec Hc Hlen Hall. apply (tri_held_none markers w L tt Hc). intros j l Hj.
  destruct (lookup_lt_is_Some_2 tp j) as [p Hp].
  { rewrite <- Hlen. by eapply lookup_lt_Some. }
  pose proof Hp as Hret. rewrite Forall_lookup in Hall. rewrite (Hall _ _ Hp) in Hret.
  destruct (pool_rg_done _ _ _ _ _ _ Hspec Hret) as [_ Hj']. cbn in Hj'. by simplify_eq.
Qed.

End cmark.

(** C14: any number of threads that mark at the same time, each with its own work
    budget: in every state of every interleaving no thread has faulted or run out of
    fuel, the object graph is unchanged, marked objects stay marked and are
    reachable, and no black object points to a white one; when all threads have
    returned every gray object is in the shared queue, and when the queue is also
    empty the black objects are exactly the reachable ones. *)
Theorem concurrent_marking_correct `{Env} `{!TraceContract} w w1 fuel0 fuel budgets tp w2 :
  idle w → (enough_fuel w ≤ fuel0)%nat →
  run (Heap.try_start_marking;; Heap.do_mark_roots fuel0 Tracer.new)%gc w = Done [] w1 →
  Forall (λ b, 2 * Z.to_nat b + 1 < fuel)%nat budgets →
  rtc pool_step (map (marker fuel) budgets, w1) (tp, w2) →
  ¬ pool_stuck (tp, w2) ∧ abs w2 = abs w ∧
  (∀ a, nonwhite w1 a → nonwhite w2 a) ∧ (∀ a, nonwhite w2 a → reachable (abs w) a) ∧
  (∀ a b, color_of w2 a = Some Black → edge (abs w2) a b → nonwhite w2 b) ∧
  (Forall (λ p, p = Ret tt) tp →
   (∀ a, color_of w2 a = Some Gray → a ∈ gray_queue (heap w2)) ∧
   (gray_queue (heap w2) = [] →
    ∀ a, color_of w2 a = Some Black ↔ reachable (abs w) a)).
Proof.
  intros Hidle Hf0 Hrun Hfuel Hs.
  rewrite run_bind, try_start_marking_run in Hrun by apply Hidle.
  destruct (wp_Done _ _ _ _ _ (scan_roots_wp w fuel0 Hidle Hf0) Hrun) as [_ Hs1].
  pose proof (ww_graph _ (idle_wf _ Hidle)) as HG.
  assert (∀ a b, reachable (abs w) a → edge (abs w) a b → reachable (abs w) b) as HS
    by (by eauto with gc).
  destruct (markers_inv _ _ HG HS _ _ _ _ (sc_tri _ _ _ Hs1) Hfuel Hs)
    as (L & Hspec & [Hr Hnw] & Hc & Hlen). cbn in *.
  destruct Hc as [Habs Htri]. cbn in Habs, Htri. rewrite Habs in Htri.
  split; [by eapply pool_rg_not_stuck|]. split; [done|]. split; [done|].
  split; [by apply (tri_sound _ _ _ _ _ Htri)|].
  split; [intros a b Ha Hab; rewrite Habs in Hab; by eapply (tri_black _ _ _ _ _ Htri)|].
  intros Hall.
  assert (length L = length tp) as Hlen2.
  { pose proof (pool_steps_length _ _ Hs) as Hl. cbn in Hl. rewrite length_map in Hl. lia. }
  assert (tri (abs w2) (reachable (abs w)) [] [] w2) as Ht2.
  { eapply markers_done; [exact Hspec| |done..]. split; cbn; [done|]. by rewrite Habs. }
  rewrite Habs in Ht2.
  split; [apply (tri_gray _ _ _ _ _ Ht2)|]. intros Hq a. split.
  - intros Ha. apply (tri_sound _ _ _ _ _ Ht2). by exists Black.
  - intros Ha. eapply tri_reachable_black; [done|done|done| |done].
    intros r Hroot. apply Hnw. by apply (sc_roots _ _ _ Hs1).
Qed.
