(* ===== verification/MutatorSteps.v ===== *)
(** * The atomic actions of mutators during a mark phase

    The state of a mark phase in which client threads allocate, root, and store,
    in the middle of their operations: the ghost state records what each thread is
    doing.  [minv] is the invariant, [mlater] how the state may evolve, and the
    lemmas say that each atomic action of a client keeps both. *)

From stdpp Require Import relations.
From S2P Require Import Prelude Prog Color TraceImpls GcBox Options BgThread World.
From S2P Require Import Graph Tracing State HeapOps Mutator Marking Sweeping Collection.
From S2P Require Import Client Interface Session Incremental Concurrent MarkProtocol.
Open Scope Z_scope.

(** ** Sums over threads *)

Section sums.
Context {A : Type}.
Implicit Types (f g : A → Z) (x : list A).

Fixpoint msum f x : Z := match x with [] => 0 | m :: x => f m + msum f x end.

Lemma msum_insert f x i m m' : x !! i = Some m → msum f (<[i := m']> x) = msum f x - f m + f m'.
Proof.
  revert i. induction x as [|m0 x IH]; intros [|i] Hi; cbn in *; simplify_eq; [lia|].
  rewrite IH by done. lia.
Qed.

Lemma msum_nonneg f x : (∀ m, m ∈ x → 0 ≤ f m) → 0 ≤ msum f x.
Proof.
  induction x as [|m x IH]; intros Hf; cbn; [lia|].
  pose proof (Hf m ltac:(by left)). assert (0 ≤ msum f x) by (apply IH; intros; apply Hf; by right).
  lia.
Qed.

Lemma msum_elem f x m : (∀ m, m ∈ x → 0 ≤ f m) → m ∈ x → f m ≤ msum f x.
Proof.
  intros Hf Hm. induction Hm as [m x|m m0 x Hm IH]; cbn.
  - assert (0 ≤ msum f x) by (apply msum_nonneg; intros; apply Hf; by right). lia.
  - pose proof (Hf m0 ltac:(by left)). assert (f m ≤ msum f x) by (apply IH; intros; apply Hf; by right).
    lia.
Qed.

Lemma msum_ext f g x : (∀ m, m ∈ x → f m = g m) → msum f x = msum g x.
Proof.
  induction x as [|m x IH]; intros Hfg; cbn; [done|].
  rewrite IH by (intros; apply Hfg; by right). by rewrite (Hfg m) by by left.
Qed.

Lemma msum_le f g x : (∀ m, m ∈ x → f m ≤ g m) → msum f x ≤ msum g x.
Proof.
  induction x as [|m x IH]; intros Hfg; cbn; [done|].
  pose proof (Hfg m ltac:(by left)). assert (msum f x ≤ msum g x) by (apply IH; intros; apply Hfg; by right).
  lia.
Qed.

Lemma msum_plus f g x : msum (λ m, f m + g m) x = msum f x + msum g x.
Proof. induction x as [|m x IH]; cbn; lia. Qed.

Lemma msum_zero x : msum (λ _, 0) x = 0.
Proof. by induction x. Qed.

Lemma msum_const f x k : (∀ m, m ∈ x → f m = k) → msum f x = Z.of_nat (length x) * k.
Proof.
  intros Hf. rewrite (msum_ext f (λ _, k)) by done. clear Hf.
  induction x as [|m x IH]; [done|]. cbn [msum length]. rewrite IH. lia.
Qed.

Lemma msum_app f x1 x2 : msum f (x1 ++ x2) = msum f x1 + msum f x2.
Proof. induction x1 as [|m x1 IH]; cbn; [done|]. rewrite IH. lia. Qed.

(** What a thread contributes to a concatenation. *)
Lemma concat_insert_perm {B} (f : A → list B) x i m :
  x !! i = Some m → ∃ rest, concat (f <$> x) ≡ₚ f m ++ rest ∧
    ∀ m', concat (f <$> <[i := m']> x) ≡ₚ f m' ++ rest.
Proof.
  revert i. induction x as [|m0 x IH]; intros [|i] Hi; cbn in *; simplify_eq.
  - by exists (concat (f <$> x)).
  - destruct (IH i Hi) as (rest & H1 & H2). exists (f m0 ++ rest). split.
    + rewrite H1, !app_assoc. by rewrite (Permutation_app_comm (f m0)).
    + intros m'. rewrite (H2 m'), !app_assoc. by rewrite (Permutation_app_comm (f m0)).
Qed.

End sums.

(** ** What a thread is doing *)

(** - [mt_roots]: its [GcRoot]s;
    - [mt_busy]: 1 while it is counted in [n_busy_marking];
    - [mt_new]: its object that is not linked yet, with the link it has set;
    - [mt_unc]: the size of its object that is not counted yet;
    - [mt_bytes], [mt_incs]: what it may still allocate, and how many roots it may
      still create. *)
Record mthread := mkMthread {
  mt_roots : list loc;
  mt_busy : nat;
  mt_new : list (loc * option loc);
  mt_unc : Z;
  mt_bytes : Z;
  mt_incs : nat;
}.

Definition mt_enter (m : mthread) : mthread :=
  mkMthread (mt_roots m) 1 (mt_new m) (mt_unc m) (mt_bytes m) (mt_incs m).
Definition mt_leave (m : mthread) : mthread :=
  mkMthread (mt_roots m) 0 (mt_new m) (mt_unc m) (mt_bytes m) (mt_incs m).
Definition mt_link (m : mthread) (new : list (loc * option loc)) : mthread :=
  mkMthread (mt_roots m) (mt_busy m) new (mt_unc m) (mt_bytes m) (mt_incs m).
Definition mt_count (m : mthread) : mthread :=
  mkMthread (mt_roots m) (mt_busy m) (mt_new m) 0 (mt_bytes m) (mt_incs m).
Definition mt_reroot (m : mthread) (hs : list loc) (n : nat) : mthread :=
  mkMthread hs (mt_busy m) (mt_new m) (mt_unc m) (mt_bytes m) n.
Definition mt_alloc (m : mthread) (a : loc) (sz : Z) (n : nat) : mthread :=
  mkMthread (a :: mt_roots m) (mt_busy m) [(a, None)] sz (mt_bytes m - sz) n.

(** Between two operations. *)
Record resting (m : mthread) : Prop := {
  rt_busy : mt_busy m = 0%nat;
  rt_new : mt_new m = [];
  rt_unc : mt_unc m = 0;
}.

Implicit Types x : list mthread.

Definition roots_of (a : loc) (x : list mthread) : Z := msum (λ m, handle_count (mt_roots m) a) x.
Definition new_objs (x : list mthread) : list loc := concat ((λ m, (mt_new m).*1) <$> x).
Definition pending (m : mthread) : Z := Z.of_nat (mt_incs m) + Z.of_nat (length (mt_new m)).

(** Every root of every thread, and no other. *)
Definition counted (G : graph) (x : list mthread) : Prop :=
  ∀ a, match objs G !! a with
       | Some o => ob_roots o = roots_of a x
       | None => roots_of a x = 0
       end.

(** ** Evolution of the state *)

(** What nobody changes during the mark phase. *)
Record same_frame (w w' : world) : Prop := {
  sf_tls : tls w' = tls w;
  sf_ctxs : ctxs w' = ctxs w;
  sf_options : options (heap w') = options (heap w);
  sf_threshold : current_threshold (heap w') = current_threshold (heap w);
  sf_phase : phase (heap w') = phase (heap w);
}.

#[export] Instance same_frame_preorder : PreOrder same_frame.
Proof. split; [by split|]. intros ? ? ? [] []. split; congruence. Qed.

Lemma recolored_frame w w' : recolored w w' → same_frame w w'.
Proof.
  intros Hr. split.
  - by rewrite (rc_tls _ _ Hr).
  - by rewrite (rc_ctxs _ _ Hr).
  - by apply recolored_options.
  - by rewrite (recolored_heap _ _ Hr).
  - by apply recolored_phase.
Qed.

Record mlater (w w' : world) : Prop := {
  ml_frame : same_frame w w';
  ml_box a b : mem w !! a = Some b → ∃ b', mem w' !! a = Some b' ∧
    vtable (header b') = vtable (header b) ∧ data b' = data b;
  ml_cell c v : cells w !! c = Some v → ∃ v', cells w' !! c = Some v' ∧
    (v' = v ∨ ∀ t a, RMark t a ∈ owned v' → nonwhite w' a ∧ valid w' t a);
  ml_nonwhite a : nonwhite w a → nonwhite w' a;
  ml_list l : lseg (mem w) (head (heap w)) l None →
    ∃ ex, lseg (mem w') (head (heap w')) (ex ++ l) None;
}.

Lemma mlater_valid w w' t a : mlater w w' → valid w t a → valid w' t a.
Proof.
  intros Hl (b & Hb & <-). destruct (ml_box _ _ Hl _ _ Hb) as (b' & Hb' & Hv & _).
  exists b'. split; [done|]. unfold box_ty. by rewrite Hv.
Qed.

#[export] Instance mlater_preorder : PreOrder mlater.
Proof.
  split.
  - intros w. split; [done|by eauto|by eauto|done|]. by exists [].
  - intros w1 w2 w3 H12 H23. split.
    + by rewrite (ml_frame _ _ H12), (ml_frame _ _ H23).
    + intros a b Hb. destruct (ml_box _ _ H12 _ _ Hb) as (b2 & Hb2 & Hv2 & Hd2).
      destruct (ml_box _ _ H23 _ _ Hb2) as (b3 & Hb3 & Hv3 & Hd3).
      exists b3. split; [done|]. split; congruence.
    + intros c v Hv. destruct (ml_cell _ _ H12 _ _ Hv) as (v2 & Hv2 & Hor2).
      destruct (ml_cell _ _ H23 _ _ Hv2) as (v3 & Hv3 & Hor3). exists v3. split; [done|].
      destruct Hor3 as [->|?]; [|by right]. destruct Hor2 as [->|Hnw]; [by left|right].
      intros t a Hin. destruct (Hnw _ _ Hin).
      split; [by apply (ml_nonwhite _ _ H23)|by eapply mlater_valid].
    + intros a Ha. by apply (ml_nonwhite _ _ H23), (ml_nonwhite _ _ H12).
    + intros l Hl. destruct (ml_list _ _ H12 _ Hl) as [ex1 H1].
      destruct (ml_list _ _ H23 _ H1) as [ex2 H2]. exists (ex2 ++ ex1). by rewrite <- app_assoc.
Qed.

(** ** The invariant *)

Section steps.
Context `{Env} `{!TraceContract}.
Variables (w0 : world) (M : Z).

(** [M] bounds the number of objects there may ever be. *)
Record minv (w : world) (x : list mthread) : Prop := {
  mv_frame : same_frame w0 w;
  mv_graph : wf_graph (abs w);
  mv_shaded : shaded w;
  mv_busy : n_busy_marking (heap w) = usize_wrap (msum (λ m, Z.of_nat (mt_busy m)) x);
  mv_list : ∃ l, lseg (mem w) (head (heap w)) l None ∧ NoDup (l ++ new_objs x) ∧
    (∀ a, is_Some (mem w !! a) → a ∈ l ++ new_objs x) ∧
    Z.of_nat (length l) + msum pending x ≤ M;
  mv_next m a n : m ∈ x → (a, n) ∈ mt_new m → next_at (mem w) a = Some n;
  mv_bytes : bytes_allocated (heap w) + msum mt_unc x = total_size (mem w);
  mv_bytes_nonneg : 0 ≤ bytes_allocated (heap w);
  mv_total : total_size (mem w) + msum mt_bytes x ≤ usize_max;
  mv_counts : counted (abs w) x;
  mv_roots : msum (λ m, Z.of_nat (length (mt_roots m)) + Z.of_nat (mt_incs m)) x ≤ usize_max;
  mv_nonneg m : m ∈ x → 0 ≤ mt_unc m ∧ 0 ≤ mt_bytes m;
}.

(** A step of the system, with the gray objects [P] in the tracers. *)
Record change (P : list loc) (w : world) (x : list mthread) (w' : world) (x' : list mthread)
    : Prop := {
  ch_later : mlater w w';
  ch_inv : minv w' x';
  ch_tri : tri (abs w') anywhere P [] w';
}.

(** *** One thread changes *)

Section thread.
Context {x : list mthread} {i : nat} {m m' : mthread} (Hi : x !! i = Some m).

Lemma same_sum (f : mthread → Z) : f m' = f m → msum f (<[i := m']> x) = msum f x.
Proof. intros Hf. rewrite (msum_insert _ _ _ _ _ Hi). lia. Qed.

Lemma same_new : (mt_new m').*1 = (mt_new m).*1 → new_objs (<[i := m']> x) = new_objs x.
Proof.
  intros Hf. unfold new_objs. rewrite list_fmap_insert, Hf. f_equal.
  apply list_insert_id. by rewrite list_lookup_fmap, Hi.
Qed.

Lemma same_counted G : mt_roots m' = mt_roots m → counted G x → counted G (<[i := m']> x).
Proof.
  intros Hf Hc a. unfold roots_of. rewrite same_sum by by rewrite Hf. apply Hc.
Qed.

Lemma thread_elem m0 : m0 ∈ <[i := m']> x → m0 = m' ∨ m0 ∈ x.
Proof.
  intros [j Hj]%list_elem_of_lookup. destruct (decide (i = j)) as [<-|Hne].
  - rewrite list_lookup_insert_eq in Hj by (by eapply lookup_lt_Some). simplify_eq. by left.
  - rewrite list_lookup_insert_ne in Hj by done. right. by eapply list_elem_of_lookup_2.
Qed.

Lemma thread_in : m ∈ x.
Proof. by eapply list_elem_of_lookup_2. Qed.

Lemma roots_of_insert a : roots_of a (<[i := m']> x) =
  roots_of a x - handle_count (mt_roots m) a + handle_count (mt_roots m') a.
Proof. unfold roots_of. by rewrite (msum_insert _ _ _ _ _ Hi). Qed.

Lemma thread_root a : a ∈ mt_roots m → 0 < roots_of a x.
Proof.
  intros Ha. assert (handle_count (mt_roots m) a ≤ roots_of a x).
  { apply (msum_elem (λ m, handle_count (mt_roots m) a)); [|apply thread_in].
    intros m0 _. apply handle_count_le. }
  apply handle_count_pos in Ha. lia.
Qed.

End thread.

Lemma roots_of_nonneg a x : 0 ≤ roots_of a x.
Proof. apply msum_nonneg. intros m _. apply handle_count_le. Qed.

Lemma roots_of_le a x : roots_of a x ≤ msum (λ m, Z.of_nat (length (mt_roots m))) x.
Proof. apply msum_le. intros m _. apply handle_count_le. Qed.

(** A root leads to an object. *)
Lemma counted_object G x a : counted G x → 0 < roots_of a x → ∃ o, objs G !! a = Some o ∧
  ob_roots o = roots_of a x.
Proof.
  intros Hc Ha. specialize (Hc a). destruct (objs G !! a) as [o|]; [by exists o|lia].
Qed.

(** *** Actions that leave the blocks and the cells alone *)

Lemma heap_later w w' :
  same_frame w w' → mem w' = mem w → cells w' = cells w → head (heap w') = head (heap w) →
  mlater w w'.
Proof.
  intros Hf Hm Hc Hh. split; [done|rewrite Hm; by eauto|rewrite Hc; by eauto| |].
  - intros a (c & Hcol & Hn). exists c. unfold color_of in *. by rewrite Hm.
  - intros l Hl. exists []. by rewrite Hm, Hh.
Qed.

(** The counters change, with what thread [i] accounts for. *)
Lemma heap_change P w x i m m' w' :
  minv w x → tri (abs w) anywhere P [] w → x !! i = Some m →
  mt_roots m' = mt_roots m → mt_new m' = mt_new m → mt_bytes m' = mt_bytes m →
  mt_incs m' = mt_incs m → 0 ≤ mt_unc m' →
  same_frame w w' → mem w' = mem w → cells w' = cells w → head (heap w') = head (heap w) →
  gray_queue (heap w') = gray_queue (heap w) →
  n_busy_marking (heap w') =
    usize_wrap (msum (λ m, Z.of_nat (mt_busy m)) x - Z.of_nat (mt_busy m) + Z.of_nat (mt_busy m')) →
  0 ≤ bytes_allocated (heap w') →
  bytes_allocated (heap w') + mt_unc m' = bytes_allocated (heap w) + mt_unc m →
  change P w x w' (<[i := m']> x).
Proof.
  intros Hi Ht Hx E1 E2 E4 E5 Hu Hfr Em Ec Eh Eq Eb Hb0 Hbu.
  destruct Hi as [Hf HG Hs Hb Hl Hn Hby Hby0 Hto Hc Hr Hnn].
  assert (abs w' = abs w) as Habs by (unfold abs; by rewrite Em, Ec).
  assert (∀ a, color_of w' a = color_of w a) as Hcol by (intros; unfold color_of; by rewrite Em).
  split; [by apply heap_later| |rewrite Habs; by eapply tri_frame].
  split; rewrite ?Habs, ?Em; try done.
  - by etransitivity.
  - intros a b. unfold nonwhite. rewrite Habs, !Hcol. apply Hs.
  - by rewrite (msum_insert _ _ _ _ _ Hx).
  - rewrite (same_new Hx) by by rewrite E2.
    rewrite (same_sum Hx pending) by (unfold pending; by rewrite E2, E5). by rewrite Eh.
  - intros m0 a n [->|?]%(thread_elem Hx); [rewrite E2; apply Hn, (thread_in Hx)|by eapply Hn].
  - rewrite (msum_insert _ _ _ _ _ Hx). lia.
  - by rewrite (same_sum Hx).
  - by apply (same_counted Hx).
  - by rewrite (same_sum Hx) by by rewrite E1, E5.
  - intros m0 [->|?]%(thread_elem Hx); [|by apply Hnn]. split; [done|]. rewrite E4.
    apply Hnn, (thread_in Hx).
Qed.

Lemma usize_wrap_add z d : usize_fetch_add (usize_wrap z) d = usize_wrap (z + d).
Proof. unfold usize_fetch_add, usize_wrap. by rewrite Zplus_mod_idemp_l. Qed.

Lemma usize_wrap_sub z d : usize_fetch_sub (usize_wrap z) d = usize_wrap (z - d).
Proof. unfold usize_fetch_sub, usize_wrap. by rewrite Zminus_mod_idemp_l. Qed.

Lemma enter_change P w x i m :
  minv w x → tri (abs w) anywhere P [] w → x !! i = Some m → mt_busy m = 0%nat →
  change P w x (with_busy w (usize_fetch_add (n_busy_marking (heap w)) 1)) (<[i := mt_enter m]> x).
Proof.
  intros Hi Ht Hx Hb. eapply heap_change; try done; try by apply Hi.
  - apply (mv_nonneg _ _ Hi m (thread_in Hx)).
  - cbn. rewrite (mv_busy _ _ Hi), usize_wrap_add, Hb. f_equal. lia.
Qed.

Lemma leave_change P w x i m :
  minv w x → tri (abs w) anywhere P [] w → x !! i = Some m → mt_busy m = 1%nat →
  change P w x (with_busy w (usize_fetch_sub (n_busy_marking (heap w)) 1)) (<[i := mt_leave m]> x).
Proof.
  intros Hi Ht Hx Hb. eapply heap_change; try done; try by apply Hi.
  - apply (mv_nonneg _ _ Hi m (thread_in Hx)).
  - cbn. rewrite (mv_busy _ _ Hi), usize_wrap_sub, Hb. f_equal. lia.
Qed.

(** The byte counter catches up. *)
Definition with_bytes (w : world) (n : Z) : world :=
  set_heap w (set_bytes_allocated (heap w) n).

Lemma bytes_change P w x i m :
  minv w x → tri (abs w) anywhere P [] w → x !! i = Some m →
  change P w x (with_bytes w (usize_fetch_add (bytes_allocated (heap w)) (mt_unc m)))
    (<[i := mt_count m]> x).
Proof.
  intros Hi Ht Hx. pose proof (mv_nonneg _ _ Hi _ (thread_in Hx)) as [Hu _].
  assert (mt_unc m ≤ msum mt_unc x) by
    (apply msum_elem; [|apply (thread_in Hx)]; intros; by apply (mv_nonneg _ _ Hi)).
  assert (0 ≤ msum mt_bytes x) by (apply msum_nonneg; intros; by apply (mv_nonneg _ _ Hi)).
  pose proof (mv_bytes _ _ Hi). pose proof (mv_bytes_nonneg _ _ Hi). pose proof (mv_total _ _ Hi).
  assert (usize_fetch_add (bytes_allocated (heap w)) (mt_unc m) =
    bytes_allocated (heap w) + mt_unc m) as E by
    (apply usize_fetch_add_small; unfold is_usize; lia).
  eapply heap_change; try done; cbn; rewrite ?E; try lia.
  rewrite (mv_busy _ _ Hi). f_equal. lia.
Qed.

(** *** Allocation *)

Lemma new_objs_insert x i m m' : x !! i = Some m → ∃ rest,
  new_objs x ≡ₚ (mt_new m).*1 ++ rest ∧ new_objs (<[i := m']> x) ≡ₚ (mt_new m').*1 ++ rest.
Proof.
  intros Hx. destruct (concat_insert_perm (λ m, (mt_new m).*1) x i m Hx) as (rest & H1 & H2).
  exists rest. split; [exact H1|apply H2].
Qed.

Lemma appeared_later w w' a t d :
  appeared w w' a t d → same_frame w w' → head (heap w') = head (heap w) → mlater w w'.
Proof.
  intros Hap Hf Hh. pose proof Hap as [Ha [n Hm] Hc _]. split; [done| | | |].
  - intros x b Hb. exists b. rewrite Hm, lookup_insert_ne; [done|]. congruence.
  - rewrite Hc. by eauto.
  - intros x. by rewrite (appeared_nonwhite _ _ _ _ _ _ Hap).
  - intros l Hl. exists []. rewrite Hm, Hh. by apply lseg_insert.
Qed.

Lemma counted_alloc G x i m m' a t d :
  counted G x → x !! i = Some m → objs G !! a = None → mt_roots m' = a :: mt_roots m →
  counted (g_alloc G a (mkObj t 1 d)) (<[i := m']> x).
Proof.
  intros Hc Hx Ha Hr b. pose proof (Hc a) as Hca. rewrite Ha in Hca. specialize (Hc b).
  rewrite (roots_of_insert Hx), Hr, handle_count_cons. cbn. destruct (decide (a = b)) as [<-|Hne].
  - rewrite lookup_insert_eq. cbn. lia.
  - rewrite lookup_insert_ne by done. destruct (objs G !! b); lia.
Qed.

(** [Box::new]: the thread owns a new object with one root, which is not linked
    and not counted yet. *)
Lemma box_change P w x i m t d n :
  minv w x → tri (abs w) anywhere P [] w → x !! i = Some m →
  mt_new m = [] → mt_unc m = 0 → mt_incs m = S n → layout_size t ≤ mt_bytes m →
  has_type d t = true → wf_val (abs w) d →
  (∀ t' b, points (gcells (abs w)) d t' b → nonwhite w b) →
  let a := malloc (dom (mem w)) in
  let w' := set_mem w (<[a := GcBox_init t d]> (mem w)) in
  change P w x w' (<[i := mt_alloc m a (layout_size t) n]> x).
Proof.
  intros Hi Ht Hx E1 E2 E3 Hsz Hty Hd Hnw a w'.
  assert (mem w !! a = None) as Ha by (apply not_elem_of_dom, malloc_fresh).
  assert (appeared w w' a t d) as Hap by (split; [done|by exists None|done..]).
  pose proof (appeared_abs _ _ _ _ _ Hap) as Habs. pose proof (layout_size_usize t) as Hlay.
  assert (same_frame w w') as Hfr by done.
  destruct Hi as [Hf HG Hs Hb Hl Hn Hby Hby0 Hto Hc Hr Hnn].
  assert (total_size (mem w') = layout_size t + total_size (mem w)) as Htot
    by (unfold w'; cbn; by rewrite total_size_insert).
  assert (objs (abs w) !! a = None) as Hoa by (cbn; by rewrite lookup_fmap, Ha).
  unfold is_usize in Hlay.
  split; [by eapply appeared_later| |by eapply appeared_tri].
  set (m' := mt_alloc m a (layout_size t) n).
  split; try done.
  - by etransitivity.
  - rewrite Habs. by apply wf_g_alloc.
  - by eapply appeared_shaded.
  - cbn. by rewrite (same_sum Hx).
  - destruct Hl as (l & Hl & Hnd & Hall & Hlen). exists l.
    destruct (new_objs_insert x i m m' Hx) as (rest & Hp & Hp').
    rewrite E1 in Hp. change ((mt_new m').*1) with [a] in Hp'. cbn in Hp, Hp'.
    split; [by apply lseg_insert|].
    assert (a ∉ l ++ rest) as Hnin.
    { rewrite <- Hp. intros [Hin|Hin]%elem_of_app.
      - destruct (lseg_is_Some _ _ _ _ a Hl Hin). congruence.
      - unfold new_objs in Hin. apply list_elem_of_In, in_concat in Hin as (l1 & Hl1 & Hin).
        apply list_elem_of_In, list_elem_of_fmap in Hl1 as (m1 & -> & Hm1).
        apply list_elem_of_In, list_elem_of_fmap in Hin as ([a1 n1] & Heq & Hin). cbn in Heq. subst a1.
        apply (Hn _ _ _ Hm1) in Hin. unfold next_at in Hin. by rewrite Ha in Hin. }
    assert (l ++ new_objs (<[i:=m']> x) ≡ₚ a :: l ++ rest) as Hperm
      by by rewrite Hp', Permutation_middle.
    rewrite Hperm. split; [|split].
    + apply NoDup_cons. split; [done|]. by rewrite <- Hp.
    + intros y. rewrite Hperm. cbn. rewrite lookup_insert_is_Some.
      intros [<-|[_ Hy]]; [by left|]. right. rewrite <- Hp. by apply Hall.
    + rewrite (msum_insert _ _ _ _ _ Hx). unfold pending at 2 3. rewrite E1, E3. cbn. lia.
  - intros m0 y k [->|Hm0]%(thread_elem Hx).
    + cbn. intros [= -> ->]%list_elem_of_singleton. unfold next_at. by rewrite lookup_insert_eq.
    + intros Hin. pose proof (Hn _ _ _ Hm0 Hin) as Hy. unfold next_at in *. cbn.
      rewrite lookup_insert_ne; [done|]. intros <-. by rewrite Ha in Hy.
  - rewrite Htot, (msum_insert _ _ _ _ _ Hx), E2. cbn. lia.
  - rewrite Htot, (msum_insert _ _ _ _ _ Hx). cbn. lia.
  - rewrite Habs. by apply (counted_alloc _ _ _ m).
  - rewrite (msum_insert _ _ _ _ _ Hx). cbn. rewrite E3. lia.
  - intros m0 [->|?]%(thread_elem Hx); [|by apply Hnn]. cbn.
    pose proof (Hnn _ (thread_in Hx)). lia.
Qed.

(** Changes of links only. *)
Record links_only (w w' : world) : Prop := {
  lo_mem : unlinked <$> mem w' = unlinked <$> mem w;
  lo_cells : cells w' = cells w;
  lo_frame : same_frame w w';
  lo_queue : gray_queue (heap w') = gray_queue (heap w);
  lo_busy : n_busy_marking (heap w') = n_busy_marking (heap w);
  lo_bytes : bytes_allocated (heap w') = bytes_allocated (heap w);
}.

Lemma links_lookup w w' a b :
  unlinked <$> mem w' = unlinked <$> mem w → mem w !! a = Some b →
  ∃ b', mem w' !! a = Some b' ∧ unlinked b' = unlinked b.
Proof.
  intros Hm Hb. apply (f_equal (.!! a)) in Hm. rewrite !lookup_fmap, Hb in Hm. cbn in Hm.
  destruct (mem w' !! a) as [b'|]; [|done]. apply (inj Some) in Hm. by exists b'.
Qed.

Lemma unlinked_parts b b' : unlinked b' = unlinked b →
  color (header b') = color (header b) ∧ root_count (header b') = root_count (header b) ∧
  vtable (header b') = vtable (header b) ∧ data b' = data b.
Proof. unfold unlinked, set_next. by intros [=]. Qed.

Lemma links_abs w w' : links_only w w' → abs w' = abs w.
Proof.
  intros [Hm Hc _ _ _ _]. unfold abs. f_equal; [|done].
  apply (f_equal (fmap abs_box)) in Hm. rewrite <- !map_fmap_compose in Hm. done.
Qed.

Lemma links_color w w' a : links_only w w' → color_of w' a = color_of w a.
Proof.
  intros [Hm _ _ _ _ _]. apply (f_equal (fmap box_color)) in Hm.
  rewrite <- !map_fmap_compose in Hm. apply (f_equal (.!! a)) in Hm.
  rewrite !lookup_fmap in Hm. exact Hm.
Qed.

Lemma links_nonwhite w w' a : links_only w w' → nonwhite w' a ↔ nonwhite w a.
Proof. intros Hl. unfold nonwhite. by rewrite (links_color _ _ _ Hl). Qed.

Lemma links_is_Some w w' a : links_only w w' → is_Some (mem w' !! a) ↔ is_Some (mem w !! a).
Proof. intros Hl. by rewrite <- !abs_is_Some, (links_abs _ _ Hl). Qed.

Lemma links_total w w' : links_only w w' → total_size (mem w') = total_size (mem w).
Proof.
  intros [Hm _ _ _ _ _]. rewrite <- (total_size_fmap unlinked (mem w')), Hm by done.
  by rewrite total_size_fmap.
Qed.

Lemma links_tri w w' P :
  links_only w w' → tri (abs w) anywhere P [] w → tri (abs w') anywhere P [] w'.
Proof.
  intros Hl [_ [Hv Hcol] Halloc Hgray Hblack _ _]. pose proof Hl as [Hm Hc _ Hq _ _].
  rewrite (links_abs _ _ Hl). split; try done; rewrite ?Hq.
  - by apply links_abs.
  - split; intros a b' Hb'; destruct (links_lookup w' w a b' (eq_sym Hm) Hb') as (b & Hb & Hu);
      apply unlinked_parts in Hu as (E1 & _ & E2 & _).
    + unfold box_ty. rewrite <- E2. by apply (Hv a).
    + rewrite <- E1. by apply (Hcol a).
  - intros a. rewrite (links_is_Some _ _ _ Hl). apply Halloc.
  - intros a. rewrite (links_color _ _ _ Hl). apply Hgray.
  - intros a b. rewrite (links_color _ _ _ Hl), (links_nonwhite _ _ _ Hl). apply Hblack.
Qed.

Lemma links_change P w x i m new w' :
  minv w x → tri (abs w) anywhere P [] w → x !! i = Some m → links_only w w' →
  (∀ l, lseg (mem w) (head (heap w)) l None → NoDup (l ++ new_objs x) →
     ∃ ex, lseg (mem w') (head (heap w')) (ex ++ l) None ∧
       (ex ++ l) ++ new_objs (<[i := mt_link m new]> x) ≡ₚ l ++ new_objs x ∧
       (length ex + length new = length (mt_new m))%nat) →
  (∀ a n, (a, n) ∈ new → next_at (mem w') a = Some n) →
  (∀ j m0 a, j ≠ i → x !! j = Some m0 → a ∈ (mt_new m0).*1 →
     next_at (mem w') a = next_at (mem w) a) →
  change P w x w' (<[i := mt_link m new]> x).
Proof.
  intros Hi Ht Hx Hlo Hlist Hnew Hother.
  destruct Hi as [Hf HG Hs Hb Hl Hn Hby Hby0 Hto Hc Hr Hnn]. destruct Hl as (l & Hl & Hnd & Hall & Hlen).
  destruct (Hlist l Hl Hnd) as (ex & Hl' & Hperm & Hex).
  pose proof (links_abs _ _ Hlo) as Habs.
  split; [| |by eapply links_tri].
  - split; [apply Hlo| | | |].
    + intros a b Hb0. destruct (links_lookup _ _ _ _ (lo_mem _ _ Hlo) Hb0) as (b' & Hb' & Hu).
      exists b'. split; [done|]. by apply unlinked_parts in Hu as (? & ? & ? & ?).
    + intros c v Hv. rewrite (lo_cells _ _ Hlo). by eauto.
    + intros a. by rewrite (links_nonwhite _ _ _ Hlo).
    + intros l1 Hl1. rewrite (lseg_functional _ _ _ _ Hl1 Hl). by exists ex.
  - split; rewrite ?Habs, ?(links_total _ _ Hlo), ?(lo_bytes _ _ Hlo), ?(lo_busy _ _ Hlo);
      rewrite ?(same_sum Hx) by done; try done.
    + etransitivity; [done|apply Hlo].
    + intros a b. rewrite Habs, (links_color _ _ _ Hlo), (links_nonwhite _ _ _ Hlo). apply Hs.
    + exists (ex ++ l). split; [done|]. rewrite Hperm. split; [done|]. split.
      * intros a. rewrite (links_is_Some _ _ _ Hlo), Hperm. apply Hall.
      * rewrite (msum_insert _ _ _ _ _ Hx), length_app. unfold pending at 2 3. cbn. lia.
    + intros m0 a n Hm0 Hin. apply list_elem_of_lookup in Hm0 as [j Hj].
      destruct (decide (i = j)) as [<-|Hne].
      * rewrite list_lookup_insert_eq in Hj by (by eapply lookup_lt_Some). simplify_eq. by apply Hnew.
      * rewrite list_lookup_insert_ne in Hj by done.
        assert (m0 ∈ x) as Hm0 by by eapply list_elem_of_lookup_2.
        assert (a ∈ (mt_new m0).*1) as Ha by (apply list_elem_of_fmap; by exists (a, n)).
        rewrite (Hother j m0 a) by (done || congruence). by eapply Hn.
    + by apply (same_counted Hx).
    + intros m0 [->|?]%(thread_elem Hx); [|by apply Hnn]. cbn. apply Hnn, (thread_in Hx).
Qed.

(** Two threads have different new objects. *)
Lemma new_objs_other x i m j m0 a :
  NoDup (new_objs x) → x !! i = Some m → a ∈ (mt_new m).*1 →
  j ≠ i → x !! j = Some m0 → a ∉ (mt_new m0).*1.
Proof.
  intros Hnd Hx Ha Hne Hj Ha0. destruct (new_objs_insert x i m (mt_link m []) Hx)
    as (rest & Hp & Hp').
  rewrite Hp in Hnd. apply NoDup_app in Hnd as (_ & Hdis & _). apply (Hdis a Ha).
  cbn in Hp'. rewrite <- Hp'. apply list_elem_of_In, in_concat. exists ((mt_new m0).*1).
  split; apply list_elem_of_In; [|done]. apply list_elem_of_fmap. exists m0. split; [done|].
  apply (list_elem_of_lookup_2 _ j). by rewrite list_lookup_insert_ne.
Qed.

Lemma new_objs_elem x i m a : x !! i = Some m → a ∈ (mt_new m).*1 → a ∈ new_objs x.
Proof.
  intros Hx Ha. destruct (new_objs_insert x i m m Hx) as (rest & -> & _).
  rewrite elem_of_app. by left.
Qed.

(** The store to the link of the thread's new object. *)
Lemma relink_change P w x i m a n p :
  minv w x → tri (abs w) anywhere P [] w → x !! i = Some m → mt_new m = [(a, n)] →
  change P w x (relinked w a p) (<[i := mt_link m [(a, p)]]> x).
Proof.
  intros Hi Ht Hx Hnew. destruct (mv_list _ _ Hi) as (l0 & Hl0 & Hnd0 & _).
  assert (a ∈ (mt_new m).*1) as Ha by (rewrite Hnew; by left).
  apply links_change; [done..| | | |].
  - split; try done. cbn. apply map_eq. intros y. rewrite !lookup_fmap, lookup_alter.
    case_decide; subst; [|done]. by destruct (mem w !! y).
  - intros l Hl Hnd. exists []. split; [|split].
    + eapply lseg_frame; [|exact Hl]. intros y Hy. apply relinked_next. intros ->.
      apply NoDup_app in Hnd as (_ & Hdis & _). by eapply Hdis, new_objs_elem.
    + cbn. by rewrite (same_new Hx) by by rewrite Hnew.
    + by rewrite Hnew.
  - intros a0 n0 [= -> ->]%list_elem_of_singleton.
    pose proof (mv_next _ _ Hi m a n (thread_in Hx)) as Hna. rewrite Hnew in Hna.
    specialize (Hna ltac:(by left)). unfold next_at in *. cbn. rewrite lookup_alter_eq.
    by destruct (mem w !! a).
  - intros j m0 y Hne Hj Hy. apply relinked_next. intros ->.
    apply NoDup_app in Hnd0 as (_ & _ & Hnd0). by eapply (new_objs_other x i m j m0).
Qed.

(** The successful compare-exchange of the head. *)
Lemma push_change P w x i m a :
  minv w x → tri (abs w) anywhere P [] w → x !! i = Some m →
  mt_new m = [(a, head (heap w))] →
  change P w x (with_head w (Some a)) (<[i := mt_link m []]> x).
Proof.
  intros Hi Ht Hx Hnew. apply links_change; [done..| | |done].
  - intros l Hl Hnd. exists [a]. split; [|split].
    + pose proof (mv_next _ _ Hi m a (head (heap w)) (thread_in Hx)) as Hna. rewrite Hnew in Hna.
      specialize (Hna ltac:(by left)). unfold next_at in Hna. cbn. split; [done|].
      destruct (mem w !! a) as [b|]; [|done]. cbn in Hna. simplify_eq. exists b.
      split; [done|]. congruence.
    + destruct (new_objs_insert x i m (mt_link m []) Hx) as (rest & Hp & Hp').
      rewrite Hnew in Hp. cbn in Hp, Hp'. rewrite Hp, Hp'. cbn. by rewrite Permutation_middle.
    + by rewrite Hnew.
  - by intros a0 n0 ?%elem_of_nil.
Qed.

(** *** Root counts *)

Lemma rerooted_later w a f : mlater w (rerooted w a f).
Proof.
  split; [done| |by eauto| |].
  - intros y b Hb. cbn. destruct (decide (a = y)) as [<-|Hne].
    + rewrite lookup_alter_eq, Hb. cbn. by eexists.
    + rewrite lookup_alter_ne by done. by eauto.
  - intros y. by rewrite rerooted_nonwhite.
  - intros l Hl. exists []. eapply lseg_frame; [|exact Hl]. intros; apply rerooted_next.
Qed.

Lemma counted_reroot G x i m m' a o d f :
  counted G x → x !! i = Some m → objs G !! a = Some o →
  f (ob_roots o) = ob_roots o + d →
  (∀ y, handle_count (mt_roots m') y =
    if decide (a = y) then handle_count (mt_roots m) y + d else handle_count (mt_roots m) y) →
  counted (g_roots G a f) (<[i := m']> x).
Proof.
  intros Hc Hx Ho Hf Hh y. specialize (Hc y). rewrite (roots_of_insert Hx), Hh. cbn.
  destruct (decide (a = y)) as [<-|Hne].
  - rewrite lookup_alter_eq, Ho in *. cbn. lia.
  - rewrite lookup_alter_ne by done. destruct (objs G !! y); lia.
Qed.

Lemma reroot_change P w x i m a o d f hs n :
  minv w x → tri (abs w) anywhere P [] w → x !! i = Some m →
  objs (abs w) !! a = Some o → f (ob_roots o) = ob_roots o + d → is_usize (ob_roots o + d) →
  nonwhite w a ∨ rooted (abs w) a →
  (∀ y, handle_count hs y =
    if decide (a = y) then handle_count (mt_roots m) y + d else handle_count (mt_roots m) y) →
  (length hs + n ≤ length (mt_roots m) + mt_incs m)%nat → (n ≤ mt_incs m)%nat →
  change P w x (rerooted w a f) (<[i := mt_reroot m hs n]> x).
Proof.
  intros Hi Ht Hx Ho Hf Hu Hnw Hh Hlen Hn1.
  destruct Hi as [Hfr HG Hs Hb Hl Hn Hby Hby0 Hto Hc Hr Hnn].
  split; [apply rerooted_later| |by apply rerooted_tri].
  split; rewrite ?rerooted_total, ?rerooted_abs; try rewrite ?(same_sum Hx) by done; try done.
  - by etransitivity.
  - apply wf_g_roots; [done|]. intros o' Ho'. simplify_eq. by rewrite Hf.
  - by apply rerooted_shaded.
  - destruct Hl as (l & Hl & Hnd & Hall & Hll). exists l. rewrite (same_new Hx) by done.
    split; [|split; [done|split]].
    + eapply lseg_frame; [|exact Hl]. intros; apply rerooted_next.
    + intros y. cbn. rewrite lookup_alter_is_Some. apply Hall.
    + rewrite (msum_insert _ _ _ _ _ Hx). unfold pending at 2 3. cbn. lia.
  - intros m0 y k [->|Hm0]%(thread_elem Hx) Hin; rewrite rerooted_next; [|by eapply Hn].
    by eapply Hn; [apply (thread_in Hx)|].
  - by apply (counted_reroot _ _ _ m _ _ o d).
  - rewrite (msum_insert _ _ _ _ _ Hx). cbn. lia.
  - intros m0 [->|?]%(thread_elem Hx); [|by apply Hnn]. cbn. apply Hnn, (thread_in Hx).
Qed.

(** [GcPtr::root] and [GcRoot::clone]. *)
Lemma inc_change P w x i m a n :
  minv w x → tri (abs w) anywhere P [] w → x !! i = Some m → is_Some (mem w !! a) →
  nonwhite w a ∨ a ∈ mt_roots m → mt_incs m = S n →
  change P w x (rerooted w a (λ k, usize_fetch_add k 1)) (<[i := mt_reroot m (a :: mt_roots m) n]> x).
Proof.
  intros Hi Ht Hx Ha Hnw Hn. apply abs_is_Some in Ha as [o Ho].
  assert (ob_roots o = roots_of a x) as Hr.
  { pose proof (mv_counts _ _ Hi a) as Hc. by rewrite Ho in Hc. }
  assert (is_usize (ob_roots o + 1)) as Hu.
  { rewrite Hr. pose proof (roots_of_nonneg a x). pose proof (roots_of_le a x).
    pose proof (mv_roots _ _ Hi) as Hb. rewrite msum_plus in Hb.
    assert (Z.of_nat (mt_incs m) ≤ msum (λ m, Z.of_nat (mt_incs m)) x)
      by (apply (msum_elem (λ m, Z.of_nat (mt_incs m))); [intros; cbn; lia|apply (thread_in Hx)]).
    unfold is_usize. lia. }
  apply (reroot_change P w x i m a o 1); try done; cbn; try lia.
  - by apply usize_fetch_add_small.
  - destruct Hnw as [?|Hin]; [by left|right]. exists o. split; [done|].
    rewrite Hr. by apply (thread_root Hx).
  - intros y. rewrite handle_count_cons. done.
Qed.

(** [Drop for GcRoot]. *)
Lemma dec_change P w x i m a hs :
  minv w x → tri (abs w) anywhere P [] w → x !! i = Some m → mt_roots m ≡ₚ a :: hs →
  change P w x (rerooted w a (λ k, usize_fetch_sub k 1)) (<[i := mt_reroot m hs (mt_incs m)]> x).
Proof.
  intros Hi Ht Hx Hp.
  assert (0 < roots_of a x) as Hpos by (apply (thread_root Hx); rewrite Hp; by left).
  destruct (counted_object _ _ _ (mv_counts _ _ Hi) Hpos) as (o & Ho & Hr).
  pose proof (wf_obj_roots _ (mv_graph _ _ Hi) _ _ Ho) as Hu.
  assert (is_usize (ob_roots o + -1)) as Hu' by (unfold is_usize in *; lia).
  apply (reroot_change P w x i m a o (-1)); try done; cbn.
  - by apply usize_fetch_sub_small.
  - right. exists o. split; [done|lia].
  - intros y. rewrite (handle_count_perm _ _ _ Hp), handle_count_cons. case_decide; lia.
  - apply Permutation_length in Hp. cbn in Hp. lia.
Qed.

(** *** Cells *)

(** A new content of an existing cell, whose targets are shaded. *)
Lemma store_change P w x i m c v t :
  minv w x → tri (abs w) anywhere P [] w → x !! i = Some m → is_Some (cells w !! c) →
  is_copy t = true → has_type v t = true →
  (∀ t a, RMark t a ∈ owned v → nonwhite w a ∧ valid w t a) →
  change P w x (celled w c v) (<[i := m]> x).
Proof.
  intros Hi Ht Hx [v0 Hc0] Hct Hty Hnw. rewrite list_insert_id by done.
  destruct Hi as [Hfr HG Hs Hb Hl Hn Hby Hby0 Hto Hc Hr Hnn].
  pose proof (copy_owned _ _ Hty Hct) as Hmarks. rewrite Forall_forall in Hmarks.
  assert (∀ t a, RMark t a ∈ owned v → nonwhite w a) as Hnw1 by (intros; by eapply Hnw).
  split; [split; [done|by eauto| |done|by exists []]| |by apply celled_tri].
  - intros c' v' Hc'. cbn. destruct (decide (c = c')) as [<-|Hne].
    + exists v. rewrite lookup_insert_eq. split; [done|by right].
    + exists v'. rewrite lookup_insert_ne by done. split; [done|by left].
  - split; try done.
    + by etransitivity.
    + apply (wf_g_set (abs w) _ _ t); [done..|]. intros a o _ _. split.
      * intros t' b [Hin|c' v' Hin _ _]; [|by apply Hmarks in Hin].
        destruct (Hnw _ _ Hin) as [_ (bb & Hbb & <-)]. exists (abs_box bb).
        split; [|done]. cbn. by rewrite lookup_fmap, Hbb.
      * intros c' Hin. by apply Hmarks in Hin.
    + by apply celled_shaded.
Qed.

(** A cell that is not shared yet. *)
Lemma cell_change P w x i m v t :
  minv w x → tri (abs w) anywhere P [] w → x !! i = Some m →
  is_copy t = true → has_type v t = true →
  change P w x (celled w (malloc (dom (cells w))) v) (<[i := m]> x).
Proof.
  intros Hi Ht Hx Hct Hty. rewrite list_insert_id by done. set (c := malloc _).
  assert (cells w !! c = None) as Hfresh by (apply not_elem_of_dom, malloc_fresh).
  destruct Hi as [Hfr HG Hs Hb Hl Hn Hby Hby0 Hto Hc Hr Hnn].
  split; [split; [done|by eauto| |done|by exists []]| |by apply celled_new_tri].
  - intros c' v' Hc'. exists v'. cbn. rewrite lookup_insert_ne by congruence. by split; [|left].
  - split; try done.
    + by etransitivity.
    + by eapply celled_new_wf.
    + by apply celled_new_shaded.
Qed.

(** *** Marking *)

Lemma recolored_later w w' :
  recolored w w' → (∀ a, nonwhite w a → nonwhite w' a) → mlater w w'.
Proof.
  intros Hr Hnw. split; [by apply recolored_frame| | |done|].
  - intros a b Hb. destruct (recolored_lookup _ _ _ _ Hr Hb) as (b' & Hb' & Hu).
    exists b'. split; [done|]. by apply uncolored_eq in Hu as (? & ? & ? & ?).
  - intros c v Hv. exists v. rewrite <- (rc_cells _ _ Hr). by split; [|left].
  - intros l Hl. exists []. rewrite (recolored_head _ _ Hr).
    eapply lseg_recolored; [apply Hr|done].
Qed.

Lemma recolored_inv w w' x :
  minv w x → recolored w w' → (∀ a, nonwhite w a → nonwhite w' a) → minv w' x.
Proof.
  intros [Hfr HG Hs Hb Hl Hn Hby Hby0 Hto Hc Hr Hnn] Hrc Hnw.
  pose proof (recolored_abs _ _ Hrc) as Habs. pose proof (recolored_total _ _ Hrc) as Htot.
  assert (bytes_allocated (heap w') = bytes_allocated (heap w)) as Hbytes
    by by rewrite (recolored_heap _ _ Hrc).
  split; rewrite <- ?Habs, ?Htot, ?Hbytes; try done.
  - etransitivity; [done|by apply recolored_frame].
  - by eapply recolored_shaded.
  - by rewrite (recolored_busy _ _ Hrc).
  - destruct Hl as (l & Hl & Hnd & Hall & Hll). exists l. split; [|split; [done|split; [|done]]].
    + rewrite (recolored_head _ _ Hrc). eapply lseg_recolored; [apply Hrc|done].
    + intros a Ha. apply Hall. by apply (recolored_is_Some w'); [symmetry|].
  - intros m a n Hm Hin. pose proof (Hn _ _ _ Hm Hin) as Ha. unfold next_at in *.
    destruct (mem w !! a) as [b|] eqn:Hb0; [|done].
    destruct (recolored_lookup _ _ _ _ Hrc Hb0) as (b' & -> & Hu).
    apply uncolored_eq in Hu as (_ & Hnx & _). cbn in *. by rewrite Hnx.
Qed.

(** *** The end of the phase *)

(** When no thread is in the middle of an operation, the state is one of
    [Incremental]. *)
Lemma resting_safe o w x :
  safe_mark o w0 → minv w x → tri (abs w) anywhere [] [] w → (∀ m, m ∈ x → resting m) →
  safe_mark o w.
Proof.
  intros [[Hwf Hp Ht0 Hb0] Hs0 Hbz Ho] [Hf HG Hs Hb Hl Hn Hby Hby0 Hto Hc Hr Hnn] Ht Hrest.
  assert (new_objs x = []) as Hnew.
  { clear -Hrest. induction x as [|m x IH]; [done|]. unfold new_objs in *. cbn.
    rewrite (rt_new m) by (apply Hrest; by left). apply IH. intros m' ?. apply Hrest. by right. }
  assert (n_busy_marking (heap w) = 0) as Hbusy.
  { rewrite Hb, (msum_ext _ (λ _, 0)); [by rewrite msum_zero|].
    intros m Hm. by rewrite (rt_busy m (Hrest _ Hm)). }
  assert (bytes_allocated (heap w) = total_size (mem w)) as Hbytes.
  { rewrite (msum_ext _ (λ _, 0)), msum_zero in Hby; [lia|].
    intros m Hm. apply (rt_unc m (Hrest _ Hm)). }
  destruct Hl as (l & Hl & Hnd & Hall & _). rewrite Hnew, app_nil_r in *.
  assert (0 ≤ msum mt_bytes x) by (apply msum_nonneg; intros m Hm; apply (Hnn m Hm)).
  split; [split|done|done|by rewrite (sf_options _ _ Hf)].
  - split; rewrite ?(sf_tls _ _ Hf), ?(sf_ctxs _ _ Hf), ?(sf_options _ _ Hf), ?(sf_threshold _ _ Hf);
      try apply Hwf; try done.
    + apply Ht.
    + exists l. by split.
    + unfold is_usize. lia.
  - by rewrite (sf_phase _ _ Hf).
  - done.
  - rewrite Hbusy. apply is_usize_0.
Qed.

End steps.
