(* ===== verification/Mutators.v ===== *)
(** * Client operations, interleaved action by action

    Clients allocate, root, read and store while a mark phase is under way, on any
    number of threads that also mark.  Each operation of [Mutator] and [HeapOps] is
    specified against the protocol of [MutatorSteps] in the rely-guarantee
    calculus: what a thread owns (its roots, its tracer) and what it knows (valid
    pointers, shaded objects) survives whatever the others do. *)

From stdpp Require Import relations.
From S2P Require Import Prelude Prog Color TraceImpls GcBox Options BgThread World.
From S2P Require Import Graph Tracing State HeapOps Mutator Marking Sweeping Collection.
From S2P Require Import Client Interface Session Incremental Concurrent MarkProtocol.
From S2P Require Import MutatorSteps.
Open Scope Z_scope.

(** A thread between two operations. *)
Definition at_rest (hs : list loc) (bytes : Z) (incs : nat) : mthread :=
  mkMthread hs 0 [] 0 bytes incs.

(** Facts about the state that the mark phase keeps. *)
Definition stable (F : world → Prop) : Prop := ∀ w w', mlater w w' → F w → F w'.

Section mutators.
Context `{Env} `{!TraceContract}.
Variables (w0 : world) (M : Z).
Hypothesis Hphase : phase (heap w0) = GcPhase_as_u8 Marking.
Hypothesis Hctxs : ∀ c tracer, ctxs w0 !! c = Some tracer → tracer = [].

(** ** The protocol *)

Definition mutators : protocol (list mthread) (option mthread) := {|
  pr_sound := anywhere;
  pr_inv := minv w0 M;
  pr_later := mlater;
  pr_step i x x' := length x' = length x ∧ ∀ j, j ≠ i → x' !! j = x !! j;
  pr_own i x := x !! i;
|}.

#[local] Instance mutators_laws : ProtocolLaws mutators.
Proof using.
  split; cbn; try done.
  - apply _.
  - intros w w' a Hl. apply Hl.
  - intros w w' a b Hl. apply Hl.
  - intros w w' c v Hl. apply Hl.
  - by apply recolored_later.
  - intros w w' x Hi Hr Hn. by eapply recolored_inv.
  - intros w x Hi. apply Hi.
  - intros i j x x' [_ Hs] Hne. by apply Hs.
Qed.

Abbreviation R := (rely mutators).
Abbreviation G := (guar mutators).
Implicit Types s : world * (held * list mthread).

(** ** What a thread owns and knows *)

(** Thread [i] holds the gray objects [l], is doing [m] and knows [F]. *)
Definition owns (i : nat) (l : list loc) (m : mthread) (F : world → Prop) s : Prop :=
  holds mutators i l s ∧ s.2.2 !! i = Some m ∧ F s.1.

Lemma owns_since i l l' m F s s' :
  stable F → owns i l m F s → holds mutators i l' s' → since mutators i s s' → owns i l' m F s'.
Proof.
  intros HF (_ & Hm & Hf) Hh [Hl Ho]. cbn in Hl, Ho. split; [done|]. split; [by rewrite Ho|].
  by eapply HF.
Qed.

Lemma owns_stable i l m F s s' :
  stable F → rtc (R i) s s' → owns i l m F s → owns i l m F s'.
Proof.
  intros HF Hr Ho. destruct (holds_stable mutators i l _ _ Hr (proj1 Ho)) as [Hh Hs].
  by eapply owns_since.
Qed.

Lemma owns_ret {A} i l m F s (a : A) (Q : A → world * (held * list mthread) → Prop) :
  stable F → owns i l m F s → (∀ s', owns i l m F s' → Q a s') → rg (R i) (G i) (Ret a) Q s.
Proof. intros HF Ho HQ s' Hr. apply HQ. by eapply owns_stable. Qed.

(** One atomic action of a client. *)
Lemma act_rg {Y} i l m (m' : Y → mthread) F F' s (f : world → outcome world Y) (φ : Y → Prop) :
  stable F → (∀ y, stable (F' y)) → owns i l m F s →
  (∀ w x P, minv w0 M w x → tri (abs w) anywhere P [] w → x !! i = Some m → F w →
     ∃ y w', f w = Done y w' ∧ φ y ∧ F' y w' ∧ change w0 M P w x w' (<[i := m' y]> x)) →
  rg (R i) (G i) (action f) (λ y s', φ y ∧ owns i l (m' y) (F' y) s') s.
Proof.
  intros HF HF' Ho Hf s1 Hr. destruct (owns_stable _ _ _ _ _ _ HF Hr Ho) as ([[Hi Ht] Hl] & Hm & HF1).
  destruct (Hf s1.1 s1.2.2 (concat s1.2.1)) as (y & w' & -> & Hφ & HFy & [Hlt Hinv Htri]); [done..|].
  exists (s1.2.1, <[i := m' y]> s1.2.2). split.
  - split; cbn; [done|by split|done|done|]. split; [apply length_insert|].
    intros j Hj. by rewrite list_lookup_insert_ne.
  - apply (owns_ret i l (m' y) (F' y)); [done| |done]. split; [split; [by split|done]|].
    split; [|done]. cbn. apply list_lookup_insert_eq. by eapply lookup_lt_Some.
Qed.

(** An action that adds no knowledge. *)
Lemma step_rg {Y} i l m (m' : Y → mthread) F s (f : world → outcome world Y) (φ : Y → Prop) :
  stable F → owns i l m F s →
  (∀ w x P, minv w0 M w x → tri (abs w) anywhere P [] w → x !! i = Some m → F w →
     ∃ y w', f w = Done y w' ∧ φ y ∧ change w0 M P w x w' (<[i := m' y]> x)) →
  rg (R i) (G i) (action f) (λ y s', φ y ∧ owns i l (m' y) F s') s.
Proof.
  intros HF Ho Hf. apply (act_rg i l m m' F (λ _, F)); [done..|]. intros w x P Hi Ht Hx Hw.
  destruct (Hf w x P Hi Ht Hx Hw) as (y & w' & Hy & Hφ & Hch). exists y, w'.
  split; [done|]. split; [done|]. split; [|done]. eapply HF; [apply Hch|done].
Qed.

Lemma change_refl P w x i m :
  minv w0 M w x → tri (abs w) anywhere P [] w → x !! i = Some m →
  change w0 M P w x w (<[i := m]> x).
Proof. intros. by rewrite list_insert_id; [split|]. Qed.

(** An action that only reads. *)
Lemma read_rg {Y} i l m F F' s (f : world → outcome world Y) (φ : Y → Prop) :
  stable F → (∀ y, stable (F' y)) → owns i l m F s →
  (∀ w x, minv w0 M w x → x !! i = Some m → F w → ∃ y, f w = Done y w ∧ φ y ∧ F' y w) →
  rg (R i) (G i) (action f) (λ y s', φ y ∧ owns i l m (F' y) s') s.
Proof.
  intros HF HF' Ho Hf. apply (act_rg i l m (λ _, m) F F'); [done..|].
  intros w x P Hi Ht Hx HFw. destruct (Hf w x Hi Hx HFw) as (y & Hy & Hφ & HFy).
  exists y, w. split; [done|]. split; [done|]. split; [done|]. by apply change_refl.
Qed.

(** A marking operation. *)
Lemma marking_rg {A} i l m F s (p : gc A) (L : A → list loc) (T : A → list treq) :
  stable F → owns i l m F s →
  rg (R i) (G i) p (mpost mutators i s L T) s →
  rg (R i) (G i) p (λ r s', owns i (L r) m (λ w, F w ∧ Forall (settled w) (T r)) s') s.
Proof.
  intros HF Ho Hp. eapply rg_mono; [exact Hp|]. intros r s' (Hh & Hs & HT).
  destruct (owns_since _ _ _ _ _ _ _ HF Ho Hh Hs) as (? & ? & ?). by split.
Qed.

Lemma owns_mono i l m F F' s : owns i l m F s → (∀ w, F w → F' w) → owns i l m F' s.
Proof. intros (? & ? & ?) HF. split; [done|]. split; [done|auto]. Qed.

(** ** Frames of the state *)

Lemma inv_phase w x : minv w0 M w x → phase (heap w) = GcPhase_as_u8 Marking.
Proof. intros Hi. by rewrite (sf_phase _ _ (mv_frame _ _ _ _ Hi)). Qed.

Lemma inv_options w x : minv w0 M w x → options (heap w) = options (heap w0).
Proof. intros Hi. apply (sf_options _ _ (mv_frame _ _ _ _ Hi)). Qed.

Lemma inv_ctxs w x : minv w0 M w x → ctxs w = ctxs w0.
Proof. intros Hi. apply (sf_ctxs _ _ (mv_frame _ _ _ _ Hi)). Qed.

Lemma inv_tls w x : minv w0 M w x → tls w = tls w0.
Proof. intros Hi. apply (sf_tls _ _ (mv_frame _ _ _ _ Hi)). Qed.

(** ** The busy counter *)

Lemma check_rg i l m F s :
  stable F → owns i l m F s → mt_busy m = 0%nat →
  rg (R i) (G i) Heap.check_is_marking_and_increment_busy
    (λ r s', r = true ∧ owns i l (mt_enter m) F s') s.
Proof.
  intros HF Ho Hb. unfold Heap.check_is_marking_and_increment_busy.
  eapply rg_bind.
  { apply (step_rg i l m (λ _, mt_enter m) F s _ (λ _, True)); [done..|].
    intros w x P Hi Ht Hx Hw. eexists _, _. split; [done|]. split; [done|].
    by apply enter_change. }
  intros [] s1 [_ Ho1]. eapply rg_bind.
  { apply (read_rg i l (mt_enter m) F (λ _, F) s1 _ (λ r, r = true)); [done..|].
    intros w x Hi _ Hw. eexists. split; [reflexivity|]. split; [|done].
    by rewrite (inv_phase _ _ Hi). }
  intros r s2 [-> Ho2]. by eapply owns_ret.
Qed.

Lemma leave_rg i l m F s :
  stable F → owns i l m F s → mt_busy m = 1%nat →
  rg (R i) (G i) Heap.decrement_busy_marking (λ _ s', owns i l (mt_leave m) F s') s.
Proof.
  intros HF Ho Hb. eapply rg_mono.
  - apply (step_rg i l m (λ _, mt_leave m) F s _ (λ _, True)); [done..|].
    intros w x P Hi Ht Hx Hw. eexists _, _. split; [done|]. split; [done|].
    by apply leave_change.
  - by intros ? s1 [_ ?].
Qed.

(** ** Marking steps and assists *)

Lemma mark_step_rg i m F s fuel budget :
  stable F → owns i [] m F s → (2 * Z.to_nat budget + 1 < fuel)%nat →
  rg (R i) (G i) (Heap.do_mark_incremental fuel budget) (λ _ s', owns i [] m F s') s.
Proof.
  intros HF Ho Hf. eapply rg_mono; [apply (marking_rg i [] m F s _ (λ _, []) (λ _, [])); [done..|]|].
  - apply (do_mark_incremental_rg mutators); [apply Ho|done].
  - intros r s1 Ho1. eapply owns_mono; [exact Ho1|]. by intros w [? _].
Qed.

Lemma assist_rg i hs b n F s fuel :
  stable F → owns i [] (at_rest hs b n) F s →
  (2 * Z.to_nat (assist_work_budget (options (heap w0))) + 1 < fuel)%nat →
  rg (R i) (G i) (Heap.assist fuel) (λ _ s', owns i [] (at_rest hs b n) F s') s.
Proof.
  intros HF Ho Hf. unfold Heap.assist. set (m := at_rest hs b n) in *. eapply rg_bind.
  { apply (read_rg i [] m F (λ _, F) s _ (λ o, o = options (heap w0))); [done..|].
    intros w x Hi _ Hw. eexists. split; [by destruct w|]. split; [by apply (inv_options _ _ Hi)|done]. }
  intros o s1 [-> Ho1]. destruct (0 <? _); [|by eapply owns_ret].
  eapply rg_bind; [by apply (check_rg i [] m F)|]. intros r s2 [-> Ho2].
  eapply rg_bind; [by apply (mark_step_rg i (mt_enter m) F)|]. intros r s3 Ho3.
  by apply (leave_rg i [] (mt_enter m) F).
Qed.

(** ** Allocation *)

(** At least [k] objects are linked; and the head is still [h], or one more is. *)
Definition linked (k : Z) (w : world) : Prop :=
  ∃ l, lseg (mem w) (head (heap w)) l None ∧ k ≤ Z.of_nat (length l).

Definition head_was (h : option loc) (k : Z) (w : world) : Prop :=
  ∃ l, lseg (mem w) (head (heap w)) l None ∧ k ≤ Z.of_nat (length l) ∧
    (head (heap w) = h ∨ k + 1 ≤ Z.of_nat (length l)).

Lemma lseg_head m m' p p' l : lseg m p l None → lseg m' p' l None → p = p'.
Proof. destruct l; cbn; [congruence|]. by intros [-> _] [-> _]. Qed.

Lemma linked_stable k : stable (linked k).
Proof.
  intros w w' Hl (l & Hs & Hk). destruct (ml_list _ _ Hl _ Hs) as [ex Hex].
  exists (ex ++ l). split; [done|]. rewrite length_app. lia.
Qed.

Lemma head_was_stable h k : stable (head_was h k).
Proof.
  intros w w' Hl (l & Hs & Hk & Hor). destruct (ml_list _ _ Hl _ Hs) as [ex Hex].
  exists (ex ++ l). split; [done|]. rewrite length_app. split; [lia|].
  destruct ex as [|y ex]; cbn in *; [|right; lia].
  rewrite (lseg_head _ _ _ _ _ Hex Hs). destruct Hor; [by left|right; lia].
Qed.

Lemma stable_and F F' : stable F → stable F' → stable (λ w, F w ∧ F' w).
Proof. intros H1 H2 w w' Hl [? ?]. split; [by eapply H1|by eapply H2]. Qed.

(** An unlinked object is one that there may still be. *)
Lemma linked_room w x i m k :
  minv w0 M w x → x !! i = Some m → mt_new m ≠ [] → linked k w → k < M.
Proof.
  intros Hi Hx Hn (l & Hl & Hk). destruct (mv_list _ _ _ _ Hi) as (l' & Hl' & _ & _ & Hlen).
  rewrite (lseg_functional _ _ _ _ Hl' Hl) in Hlen.
  assert (pending m ≤ msum pending x) by
    (apply msum_elem; [intros; unfold pending; lia|by eapply thread_in]).
  assert (length (mt_new m) ≠ 0)%nat by by intros ?%length_zero_iff_nil.
  unfold pending in *. lia.
Qed.

(** The loop ends: an attempt fails only if another object has been linked since
    the head was read. *)
Lemma push_loop_rg i m F s fuel a n k :
  stable F → owns i [] m (λ w, F w ∧ linked k w) s → mt_new m = [(a, n)] →
  M ≤ Z.of_nat fuel + k →
  rg (R i) (G i) (Heap.push_loop fuel a) (λ _ s', owns i [] (mt_link m []) F s') s.
Proof.
  intros HF. revert m n k s. induction fuel as [|fuel IH]; intros m n k s Ho Hn Hfuel.
  { destruct Ho as ([[Hi _] _] & Hx & _ & Hl). assert (k < M); [|lia].
    eapply linked_room; [exact Hi|exact Hx|by rewrite Hn|done]. }
  cbn [Heap.push_loop]. eapply rg_bind.
  { apply (read_rg i [] m (λ w, F w ∧ linked k w) (λ h w, F w ∧ head_was h k w) s _ (λ _, True));
      [apply stable_and; [done|apply linked_stable]
      |intros h; apply stable_and; [done|apply head_was_stable]|done|].
    intros w x Hi Hx [HFw (l & Hl & Hk)]. eexists. split; [by destruct w|]. split; [done|].
    split; [done|]. exists l. split; [done|]. split; [done|by left]. }
  intros h s1 [_ Ho1]. set (m1 := mt_link m [(a, h)]). eapply rg_bind.
  { apply (step_rg i [] m (λ _, m1) (λ w, F w ∧ head_was h k w) s1 _ (λ _, True));
      [apply stable_and; [done|apply head_was_stable]|done|].
    intros w x P Hi Ht Hx _. pose proof (mv_next _ _ _ _ Hi m a n (thread_in Hx)) as Hna.
    rewrite Hn in Hna. specialize (Hna ltac:(by left)). unfold next_at in Hna.
    destruct (mem w !! a) as [b|] eqn:Hb; [|done]. exists tt, (relinked w a h).
    split; [|split; [done|by eapply relink_change]].
    unfold relinked. by rewrite alter_alt, Hb. }
  intros [] s2 [_ Ho2]. eapply rg_bind.
  { apply (act_rg i [] m1 (λ ok : bool, if ok then mt_link m [] else m1)
      (λ w, F w ∧ head_was h k w) (λ ok w, F w ∧ (ok = false → linked (k + 1) w)) s2 _ (λ _, True));
      [apply stable_and; [done|apply head_was_stable]| |done|].
    - intros ok w w' Hl [HFw Hk]. split; [by eapply HF|]. intros Hok.
      eapply linked_stable; [exact Hl|by apply Hk].
    - intros w x P Hi Ht Hx [HFw Hwas]. destruct (decide (head (heap w) = h)) as [Hh|Hh].
      + exists true, (with_head w (Some a)). rewrite bool_decide_eq_true_2 by done.
        split; [done|]. split; [done|]. assert (change w0 M P w x (with_head w (Some a))
          (<[i:=mt_link m1 []]> x)) as Hch.
        { apply (push_change w0 M P w x i m1 a); [done..|]. cbn. by rewrite Hh. }
        split; [|exact Hch]. split; [|done]. eapply HF; [apply Hch|done].
      + exists false, w. rewrite bool_decide_eq_false_2 by done.
        split; [by destruct w|]. split; [done|]. split; [|by apply change_refl].
        split; [done|]. intros _. destruct Hwas as (l & Hl & _ & [?|Hk]); [done|]. by exists l. }
  intros [] s3 [_ Ho3].
  - eapply owns_ret; [|exact Ho3|].
    + intros w w' Hl [HFw Hk]. split; [by eapply HF|done].
    + intros s4 Ho4. eapply owns_mono; [exact Ho4|]. by intros w [? _].
  - change (mt_link m []) with (mt_link m1 []). apply (IH m1 h (k + 1)); [|done|lia].
    eapply owns_mono; [exact Ho3|]. intros w [? Hk]. split; [done|by apply Hk].
Qed.

(** ** Reads of the heap *)

Lemma peek_rg {Y} i l m F s (f : world → Y) :
  stable F → owns i l m F s → rg (R i) (G i) (get f) (λ _ s', owns i l m F s') s.
Proof.
  intros HF Ho. eapply rg_mono.
  - apply (read_rg i l m F (λ _, F) s _ (λ _, True)); [done..|].
    intros w x _ _ Hw. by eexists.
  - by intros ? s1 [_ ?].
Qed.

(** A collection is under way: the phase is not [Idle]. *)
Lemma start_rg i m F s :
  stable F → owns i [] m F s →
  rg (R i) (G i) Heap.try_start_marking (λ r s', r = false ∧ owns i [] m F s') s.
Proof.
  intros HF Ho. apply (read_rg i [] m F (λ _, F) s _ (λ r, r = false)); [done..|].
  intros w x Hi _ Hw. exists false. rewrite (inv_phase _ _ Hi).
  cbn. split; [by destruct w as [[]]|done].
Qed.

(** At most [n] objects follow in the list. *)
Definition walk (current : option loc) (n : Z) (w : world) : Prop :=
  ∃ pre l, lseg (mem w) (head (heap w)) (pre ++ l) None ∧ lseg (mem w) current l None ∧
    Z.of_nat (length l) ≤ n.

Lemma walk_stable current n : stable (walk current n).
Proof.
  intros w w' Hlt (pre & l & Hl & Hc & Hn). destruct (ml_list _ _ Hlt _ Hl) as [ex Hex].
  exists (ex ++ pre), l. rewrite <- app_assoc. split; [done|]. split; [|done].
  rewrite app_assoc in Hex. apply lseg_app in Hex as (r & _ & Hr).
  by rewrite (lseg_head _ _ _ _ _ Hc Hr).
Qed.

Lemma count_loop_rg i m F s fuel current count n :
  stable F → owns i [] m (λ w, F w ∧ walk current n w) s → n ≤ Z.of_nat fuel →
  rg (R i) (G i) (Heap.allocation_count_loop fuel current count) (λ _ s', owns i [] m F s') s.
Proof.
  intros HF. revert current count n s. induction fuel as [|fuel IH]; intros current count n s Ho Hn.
  all: cbn [Heap.allocation_count_loop]; destruct current as [a|];
    [|eapply owns_ret; [|exact Ho|];
      [apply stable_and; [done|apply walk_stable]
      |intros s' Ho'; eapply owns_mono; [exact Ho'|]; by intros w [? _]]].
  - destruct Ho as (_ & _ & _ & pre & l & _ & Hl & Hlen).
    destruct l; [done|]. cbn in Hlen. lia.
  - eapply rg_bind.
    + apply (read_rg i [] m (λ w, F w ∧ walk (Some a) n w)
        (λ nx w, F w ∧ walk nx (n - 1) w) s _ (λ _, True));
        [apply stable_and; [done|apply walk_stable]
        |intros nx; apply stable_and; [done|apply walk_stable]|done|].
      intros w x Hi _ [Hw (pre & l & Hl & Hc & Hlen)].
      destruct l as [|y l]; [done|]. destruct Hc as ([= <-] & b & Hb & Hl2).
      exists (next (header b)). rewrite Hb. split; [done|]. split; [done|]. split; [done|].
      exists (pre ++ [a]), l. rewrite <- app_assoc. split; [done|]. split; [done|]. cbn in Hlen. lia.
    + intros nx s1 [_ Ho1]. apply (IH nx (count + 1) (n - 1)); [done|lia].
Qed.

Lemma count_rg i m F s fuel :
  stable F → owns i [] m F s → M ≤ Z.of_nat fuel →
  rg (R i) (G i) (Heap.allocation_count fuel) (λ _ s', owns i [] m F s') s.
Proof.
  intros HF Ho HM. unfold Heap.allocation_count. eapply rg_bind.
  - apply (read_rg i [] m F (λ h w, F w ∧ walk h M w) s _ (λ _, True));
      [done|intros h; apply stable_and; [done|apply walk_stable]|done|].
    intros w x Hi _ Hw. eexists. split; [done|]. split; [done|]. split; [done|].
    destruct (mv_list _ _ _ _ Hi) as (l & Hl & _ & _ & Hlen). exists [], l.
    split; [done|]. split; [done|].
    assert (0 ≤ msum pending x) by (apply msum_nonneg; intros; unfold pending; lia). lia.
  - intros h s1 [_ Ho1]. by apply (count_loop_rg i m F s1 fuel h 0 M).
Qed.

(** ** What a client knows *)

(** The requests [K] can be served, and nothing is left to mark for [N]. *)
Definition facts (K N : list treq) (w : world) : Prop :=
  Forall (servable mutators w) K ∧ Forall (settled w) N.

Lemma servable_stable r : stable (λ w, servable mutators w r).
Proof.
  intros w w' Hl. destruct r as [t a|c]; cbn.
  - intros [_ Hv]. split; [done|by eapply mlater_valid].
  - intros (v & Hv & Hown). destruct (ml_cell _ _ Hl _ _ Hv) as (v' & Hv' & Hor).
    exists v'. split; [done|]. intros t a Hin. split; [done|]. destruct Hor as [->|Hnw].
    + eapply mlater_valid; [exact Hl|]. by eapply Hown.
    + by eapply Hnw.
Qed.

Lemma facts_stable K N : stable (facts K N).
Proof.
  intros w w' Hl [HK HN]. split.
  - eapply Forall_impl; [exact HK|]. intros r. by apply servable_stable.
  - by eapply (all_settled_later mutators).
Qed.

#[local] Hint Resolve facts_stable stable_and linked_stable head_was_stable : core.

Lemma facts_weaken K N K' N' w :
  (∀ r, r ∈ K' → r ∈ K) → (∀ r, r ∈ N' → r ∈ N) → facts K N w → facts K' N' w.
Proof. unfold facts. rewrite !Forall_forall. intros HK HN [H1 H2]. split; auto. Qed.

Lemma facts_wf_val K N w d :
  (∀ r, r ∈ owned d → r ∈ K) → facts K N w → wf_val (abs w) d.
Proof.
  intros HK [Hs _]. rewrite Forall_forall in Hs.
  assert (∀ t a, valid w t a → ∃ o, objs (abs w) !! a = Some o ∧ ob_ty o = t) as Hv.
  { intros t a (b & Hb & <-). exists (abs_box b). split; [|done]. cbn. by rewrite lookup_fmap, Hb. }
  split.
  - intros t a [Hin|c v Hin Hc Hin'].
    + apply Hv. by apply (Hs _ (HK _ Hin)).
    + destruct (Hs _ (HK _ Hin)) as (v' & Hv' & Hown). cbn in Hc. simplify_eq.
      apply Hv. by eapply Hown.
  - intros c Hin. destruct (Hs _ (HK _ Hin)) as (v & Hc & _). by exists v.
Qed.

Lemma facts_shaded K N w d t b :
  (∀ r, r ∈ owned d → r ∈ N) → facts K N w → points (gcells (abs w)) d t b → nonwhite w b.
Proof.
  intros HN [_ Hs]. rewrite Forall_forall in Hs. intros [Hin|c v Hin Hc Hin'].
  - apply (Hs _ (HN _ Hin)).
  - destruct (Hs _ (HN _ Hin)) as (v' & Hv' & Hnw). cbn in Hc. simplify_eq. by eapply Hnw.
Qed.

(** ** The operations of a client *)

Section operations.
Variables (i : nat) (hs : list loc) (b : Z) (n : nat) (K N : list treq).

(** The thread between two operations, with what it knows. *)
Abbreviation client_at hs b n K N := (owns i [] (at_rest hs b n) (facts K N)).

Lemma allocate_rg s fuel t d :
  client_at hs b (S n) K N s → has_type d t = true →
  (∀ r, r ∈ owned d → r ∈ K) → (∀ r, r ∈ owned d → r ∈ N) → layout_size t ≤ b →
  M ≤ Z.of_nat fuel → (2 * Z.to_nat (assist_work_budget (options (heap w0))) + 1 < fuel)%nat →
  rg (R i) (G i) (Heap.allocate fuel t d)
    (λ a s', client_at (a :: hs) (b - layout_size t) n (RMark t a :: K) N s') s.
Proof.
  intros Ho Hty HK HN Hsz HM Hfuel. unfold Heap.allocate. set (m := at_rest hs b (S n)) in *.
  eapply rg_bind; [by apply (assist_rg i hs b (S n) (facts K N))|]. fold m. intros r s1 Ho1.
  set (m1 := λ a, mt_alloc m a (layout_size t) n). eapply rg_bind.
  { apply (act_rg i [] m m1 (facts K N) (λ a w, facts (RMark t a :: K) N w ∧ linked 0 w)
      s1 _ (λ _, True)); [done|by auto|done|].
    intros w x P Hi Ht Hx Hw. set (a := malloc (dom (mem w))).
    exists a, (set_mem w (<[a := GcBox_init t d]> (mem w))). split; [done|]. split; [done|].
    assert (change w0 M P w x (set_mem w (<[a := GcBox_init t d]> (mem w))) (<[i := m1 a]> x)) as Hch.
    { apply box_change; try done; [by apply (facts_wf_val K N)|].
      intros t2 b2. by apply (facts_shaded K N). }
    split; [|exact Hch]. split.
    - destruct (facts_stable K N _ _ (ch_later _ _ _ _ _ _ _ Hch) Hw) as [HK' HN'].
      split; [|done]. apply Forall_cons. split; [|done]. split; [done|].
      exists (GcBox_init t d). split; [cbn; by rewrite lookup_insert_eq|done].
    - destruct (mv_list _ _ _ _ (ch_inv _ _ _ _ _ _ _ Hch)) as (l & Hl & _). exists l. split; [done|lia]. }
  intros a s2 [_ Ho2]. eapply rg_bind.
  { apply (step_rg i [] (m1 a) (λ _, m1 a) (λ w, facts (RMark t a :: K) N w ∧ linked 0 w) s2 _
      (λ sz, sz = layout_size t)); [by auto|done|].
    intros w x P Hi Ht Hx [[HKw _] _]. apply Forall_cons in HKw as [[_ Hv] _].
    destruct Hv as (bx & Hb & <-).
    exists (layout_size (box_ty bx)), w. rewrite Hb. split; [|split; [done|by apply change_refl]].
    by rewrite (wf_vtable _ (tri_mem _ _ _ _ _ Ht) _ _ Hb). }
  intros sz s3 [-> Ho3]. eapply rg_bind.
  { apply (push_loop_rg i (m1 a) (facts (RMark t a :: K) N) s3 fuel a None 0); [done..|lia]. }
  intros [] s4 Ho4. eapply rg_bind.
  { apply (step_rg i [] (mt_link (m1 a) []) (λ _, mt_count (mt_link (m1 a) []))
      (facts (RMark t a :: K) N) s4 _ (λ _, True)); [done..|].
    intros w x P Hi Ht Hx Hw. eexists _, _. split; [done|]. split; [done|].
    by apply (bytes_change _ _ P w x i (mt_link (m1 a) [])). }
  intros [] s5 [_ Ho5]. eapply owns_ret; [|exact Ho5|done]. apply facts_stable.
Qed.

(** *** Smart pointers *)

Lemma inc_root_rg s t a :
  client_at hs b (S n) K N s → RMark t a ∈ K → RMark t a ∈ N ∨ a ∈ hs →
  rg (R i) (G i) (inc_root a) (λ _ s', client_at (a :: hs) b n K N s') s.
Proof.
  intros Ho HK Hor. eapply rg_mono.
  - apply (step_rg i [] (at_rest hs b (S n)) (λ _, at_rest (a :: hs) b n) (facts K N) s _
      (λ _, True)); [by auto|done|].
    intros w x P Hi Ht Hx [HKw HNw]. rewrite Forall_forall in HKw, HNw.
    destruct (HKw _ HK) as [_ (bx & Hb & _)].
    exists tt, (rerooted w a (λ k, usize_fetch_add k 1)).
    split; [rewrite Hb; unfold rerooted; by rewrite alter_alt, Hb|]. split; [done|].
    apply (inc_change _ _ P w x i (at_rest hs b (S n)) a n); [done..|by eexists| |done].
    destruct Hor as [Hin|]; [left; apply (HNw _ Hin)|by right].
  - by intros ? s1 [_ ?].
Qed.

Lemma root_rg s t a :
  client_at hs b (S n) K N s → RMark t a ∈ K → RMark t a ∈ N ∨ a ∈ hs →
  rg (R i) (G i) (GcPtr.root a) (λ r s', r = a ∧ client_at (a :: hs) b n K N s') s ∧
  rg (R i) (G i) (GcRoot.clone a) (λ r s', r = a ∧ client_at (a :: hs) b n K N s') s.
Proof.
  intros Ho HK Hor. assert (rg (R i) (G i) (GcPtr.root a)
    (λ r s', r = a ∧ client_at (a :: hs) b n K N s') s) as Hr; [|by split].
  unfold GcPtr.root. eapply rg_bind; [by eapply inc_root_rg|]. intros ? s1 Ho1.
  eapply owns_ret; [|exact Ho1|done]. apply facts_stable.
Qed.

Lemma drop_rg s a hs' :
  client_at hs b n K N s → hs ≡ₚ a :: hs' →
  rg (R i) (G i) (GcRoot.drop a) (λ _ s', client_at hs' b n K N s') s.
Proof.
  intros Ho Hp. eapply rg_mono.
  - apply (step_rg i [] (at_rest hs b n) (λ _, at_rest hs' b n) (facts K N) s _
      (λ _, True)); [by auto|done|].
    intros w x P Hi Ht Hx _.
    assert (0 < roots_of a x) as Hpos by (apply (thread_root Hx); cbn; rewrite Hp; by left).
    destruct (counted_object _ _ _ (mv_counts _ _ _ _ Hi) Hpos) as (o & Hob & _).
    cbn in Hob. rewrite lookup_fmap in Hob. apply fmap_Some in Hob as (bx & Hb & _).
    exists tt, (rerooted w a (λ k, usize_fetch_sub k 1)).
    split; [rewrite Hb; unfold rerooted; by rewrite alter_alt, Hb|]. split; [done|].
    by apply (dec_change _ _ P w x i (at_rest hs b n) a hs').
  - by intros ? s1 [_ ?].
Qed.

Lemma deref_rg s t a :
  client_at hs b n K N s → RMark t a ∈ K →
  rg (R i) (G i) (GcRoot.deref a)
    (λ v s', has_type v t = true ∧ client_at hs b n (owned v ++ K) N s') s.
Proof.
  intros Ho HK. apply (read_rg i [] (at_rest hs b n) (facts K N) (λ v, facts (owned v ++ K) N));
    [by auto..|done|].
  intros w x Hi Hx [HKw HNw]. pose proof HKw as Ha. rewrite Forall_forall in Ha.
  destruct (Ha _ HK) as [_ (bx & Hb & <-)]. exists (data bx). rewrite Hb. split; [done|].
  assert (objs (abs w) !! a = Some (abs_box bx)) as Hob by (cbn; by rewrite lookup_fmap, Hb).
  pose proof (mv_graph _ _ _ _ Hi) as HG. split; [by apply (wf_obj_type _ HG _ _ Hob)|].
  split; [|done]. apply Forall_app. split; [|done]. by eapply (graph_servable mutators).
Qed.

(** *** Cells *)

(** What is settled once the cell [c] has the content [v]. *)
Definition cell_settled (N : list treq) (c : loc) (v : val) : list treq :=
  if forallb (λ r, bool_decide (r ∈ N)) (owned v) then RCell c :: N else N.

Lemma cell_new_rg s t v :
  client_at hs b n K N s → is_copy t = true → has_type v t = true →
  (∀ r, r ∈ owned v → r ∈ K) →
  rg (R i) (G i) (GcCell.new v)
    (λ c s', client_at hs b n (RCell c :: K) (cell_settled N c v) s') s.
Proof.
  intros Ho Hc Hty HK. eapply rg_mono.
  - apply (act_rg i [] (at_rest hs b n) (λ _, at_rest hs b n) (facts K N)
      (λ c, facts (RCell c :: K) (cell_settled N c v)) s _ (λ _, True)); [by auto..|done|].
    intros w x P Hi Ht Hx Hw. set (c := malloc (dom (cells w))). exists c, (celled w c v).
    pose proof (cell_change w0 M P w x i _ v t Hi Ht Hx Hc Hty) as Hch. fold c in Hch.
    split; [done|]. split; [done|]. split; [|exact Hch].
    destruct (facts_stable K N _ _ (ch_later _ _ _ _ _ _ _ Hch) Hw) as [HK' HN'].
    pose proof (copy_owned _ _ Hty Hc) as Hmarks. rewrite Forall_forall in Hmarks.
    split.
    + apply Forall_cons. split; [|done]. exists v. split; [cbn; by rewrite lookup_insert_eq|].
      intros t' a Hin. rewrite Forall_forall in HK'. apply (HK' _ (HK _ Hin)).
    + unfold cell_settled. destruct (forallb _ _) eqn:E; [|done]. apply Forall_cons. split; [|done].
      exists v. split; [cbn; by rewrite lookup_insert_eq|]. intros t' a Hin.
      rewrite forallb_forall in E. rewrite Forall_forall in HN'.
      apply (HN' (RMark t' a)). by apply (bool_decide_unpack _), Is_true_true, E, list_elem_of_In.
  - by intros ? s1 [_ ?].
Qed.

Lemma cell_get_rg s c :
  client_at hs b n K N s → RCell c ∈ K →
  rg (R i) (G i) (GcCell.get c)
    (λ v s', (∃ t, is_copy t = true ∧ has_type v t = true) ∧
       client_at hs b n (owned v ++ K)
         (if bool_decide (RCell c ∈ N) then owned v ++ N else N) s') s.
Proof.
  intros Ho HK. apply (read_rg i [] (at_rest hs b n) (facts K N)
    (λ v, facts (owned v ++ K) (if bool_decide (RCell c ∈ N) then owned v ++ N else N)));
    [by auto..|done|].
  intros w x Hi Hx [HKw HNw]. rewrite Forall_forall in HKw, HNw.
  destruct (HKw _ HK) as (v & Hv & Hown). exists v. rewrite Hv. split; [done|].
  destruct (wf_cell_type _ (mv_graph _ _ _ _ Hi) _ _ Hv) as (t & Hct & Hty).
  pose proof (copy_owned _ _ Hty Hct) as Hmarks. rewrite Forall_forall in Hmarks.
  split; [by exists t|]. split.
  - apply Forall_app. split; [|by apply Forall_forall]. apply Forall_forall. intros r Hin.
    pose proof (Hmarks _ Hin). destruct r as [t' a|c']; [by apply Hown|done].
  - case_bool_decide as HcN; [|by apply Forall_forall]. apply Forall_app.
    split; [|by apply Forall_forall]. apply Forall_forall. intros r Hin.
    pose proof (Hmarks _ Hin). destruct r as [t' a|c']; [|done].
    destruct (HNw _ HcN) as (v' & Hv' & Hnw). simplify_eq. by eapply Hnw.
Qed.

(** A fact about every result of an action. *)
Lemma result_rg {Y} s (f : world → outcome world Y) (φ : Y → Prop) Q :
  (∀ w y w', f w = Done y w' → φ y) → rg (R i) (G i) (action f) Q s →
  rg (R i) (G i) (action f) (λ y s', φ y ∧ Q y s') s.
Proof.
  intros Hφ Hp s1 Hr. specialize (Hp s1 Hr). cbn in Hp |- *.
  destruct (f s1.1) as [y w'| | |] eqn:Hf; [|done..]. destruct Hp as (g & HG & HQ).
  exists g. split; [done|]. intros s2 Hr2. split; [by eapply Hφ|by apply HQ].
Qed.

(** The closure of the write barrier. *)
Lemma barrier_rg s ctx t v :
  client_at hs b n K N s → is_Some (ctxs w0 !! ctx) → is_copy t = true → has_type v t = true →
  (∀ r, r ∈ owned v → r ∈ K) →
  rg (R i) (G i) (GcCell.barrier v ctx) (λ _ s', client_at hs b n K (owned v ++ N) s') s.
Proof.
  intros Ho [tr0 Hctx] Hc Hty HK. pose proof (Hctxs _ _ Hctx) as ->.
  unfold GcCell.barrier. set (m := at_rest hs b n) in *.
  eapply rg_bind; [by apply (check_rg i [] m (facts K N))|]. intros r s1 [-> Ho1].
  eapply rg_bind.
  { apply (read_rg i [] (mt_enter m) (facts K N) (λ _, facts K N) s1 _ (λ tr, tr = []));
      [by auto..|done|].
    intros w x Hi Hx Hw. exists []. rewrite (inv_ctxs _ _ Hi), Hctx. done. }
  intros tr s2 [-> Ho2].
  assert (∀ r, r ∈ trace v ↔ r ∈ owned v) as Htr by (intros; by eapply trace_owned).
  eapply rg_bind.
  { apply (marking_rg i [] (mt_enter m) (facts K N) s2 _ (λ tr, [] ++ tr) (λ _, trace v));
      [by auto|done|].
    apply (trace_all_rg mutators); [apply Ho2|]. destruct Ho2 as (_ & _ & HKw & _).
    rewrite Forall_forall in HKw |- *. intros r Hin%Htr. by apply HKw, HK. }
  intros tr1 s3 Ho3. cbn [app] in Ho3.
  assert (owns i tr1 (mt_enter m) (facts K (owned v ++ N)) s3) as Ho3'.
  { eapply owns_mono; [exact Ho3|]. intros w [[HKw HNw] HT]. split; [done|].
    apply Forall_app. split; [|done]. rewrite Forall_forall in HT |- *.
    intros r Hin. by apply HT, Htr. }
  clear Ho3. eapply rg_bind.
  { apply (result_rg s3 _ (λ tr, tr = [])); [by intros w y w' [= <- _]|].
    apply (marking_rg i tr1 (mt_enter m) (facts K (owned v ++ N)) s3 _ (λ _, []) (λ _, []));
      [by auto|done|]. apply (merge_work_rg mutators), Ho3'. }
  intros tr2 s4 [-> Ho4'].
  assert (owns i [] (mt_enter m) (facts K (owned v ++ N)) s4) as Ho4
    by (eapply owns_mono; [exact Ho4'|]; by intros w [? _]).
  eapply rg_bind.
  { apply (step_rg i [] (mt_enter m) (λ _, mt_enter m) (facts K (owned v ++ N)) s4 _ (λ _, True));
      [by auto|done|].
    intros w x P Hi Ht Hx Hw. exists tt, w. split; [|split; [done|by apply change_refl]].
    rewrite (inv_ctxs _ _ Hi), insert_id by done. rewrite <- (inv_ctxs _ _ Hi). by destruct w. }
  intros [] s5 [_ Ho5].
  by apply (leave_rg i [] (mt_enter m) (facts K (owned v ++ N))).
Qed.

Lemma cell_set_rg s th ctx c t v :
  client_at hs b n K N s → tls w0 !! th = Some ctx → is_Some (ctxs w0 !! ctx) →
  RCell c ∈ K → is_copy t = true → has_type v t = true → (∀ r, r ∈ owned v → r ∈ K) →
  rg (R i) (G i) (GcCell.set th c v)
    (λ _ s', client_at hs b n K (RCell c :: owned v ++ N) s') s.
Proof.
  intros Ho Hth Hctx HcK Hc Hty HK. unfold GcCell.set, GcContext.with_current_context.
  set (m := at_rest hs b n) in *. eapply rg_bind.
  { eapply rg_bind.
    { apply (read_rg i [] m (facts K N) (λ _, facts K N) s _ (λ o, o = Some ctx));
        [by auto..|done|].
      intros w x Hi Hx Hw. exists (Some ctx). by rewrite (inv_tls _ _ Hi), Hth. }
    intros o s1 [-> Ho1]. eapply rg_bind; [by eapply barrier_rg|]. intros ? s2 Ho2.
    eapply (owns_ret _ _ _ _ _ _ (λ _ s', owns i [] m (facts K (owned v ++ N)) s'));
      [|exact Ho2|done]. apply facts_stable. }
  intros r2 s2 Ho2. cbn beta in Ho2. eapply rg_mono.
  - apply (act_rg i [] m (λ _, m) (facts K (owned v ++ N))
      (λ _, facts K (RCell c :: owned v ++ N)) s2 _ (λ _, True)); [by auto..|done|].
    intros w x P Hi Ht Hx Hw. pose proof Hw as [HKw HNw]. rewrite Forall_forall in HKw, HNw.
    assert (∀ t a, RMark t a ∈ owned v → nonwhite w a ∧ valid w t a) as Hnw.
    { intros t' a Hin. split; [|apply (HKw _ (HK _ Hin))].
      apply (HNw (RMark t' a)), elem_of_app. by left. }
    destruct (HKw _ HcK) as (v0 & Hv0 & _).
    pose proof (store_change w0 M P w x i m c v t Hi Ht Hx ltac:(by eexists) Hc Hty Hnw) as Hch.
    exists tt, (celled w c v). rewrite Hv0. split; [done|]. split; [done|].
    split; [|exact Hch].
    destruct (facts_stable _ _ _ _ (ch_later _ _ _ _ _ _ _ Hch) Hw) as [HK' HN'].
    split; [done|]. apply Forall_cons. split; [|done].
    exists v. split; [cbn; by rewrite lookup_insert_eq|].
    intros t' a Hin. rewrite Forall_forall in HN'. apply (HN' (RMark t' a)), elem_of_app. by left.
  - by intros ? s3 [_ ?].
Qed.

End operations.

End mutators.
