(* ===== verification/Discipline.v ===== *)
(** * The discipline of a concurrent client

    What a client thread may do during a mark phase, as a program logic: [client]
    derives what the thread holds and knows after an operation from what it held and
    knew before.  What it passes to an operation it got from an earlier one.  Every
    client so derived runs safely against the protocol of [Mutators]. *)

From stdpp Require Import relations.
From S2P Require Import Prelude Prog Color TraceImpls GcBox Options BgThread World.
From S2P Require Import Graph Tracing State HeapOps Mutator Marking Sweeping Collection.
From S2P Require Import Client Interface Session Incremental Concurrent MarkProtocol.
From S2P Require Import MutatorSteps Mutators.
Open Scope Z_scope.

(** What a thread holds and knows:
    - [kn_roots]: its roots;
    - [kn_bytes], [kn_incs]: how many bytes it may still allocate, and how many
      roots it may still create;
    - [kn_known]: valid pointers and cells;
    - [kn_shaded]: those of which nothing is left to mark. *)
Record know := mkKnow {
  kn_roots : list loc;
  kn_bytes : Z;
  kn_incs : nat;
  kn_known : list treq;
  kn_shaded : list treq;
}.

Section discipline.
Context `{Env}.

(** [client fuel th s p Q]: a thread may run [p] when it knows [s], and [Q] holds of
    the result and what it knows then.  A new object may only point to what is
    shaded, and a pointer may only be rooted if it is shaded or the thread has a root
    of it already.  Only a thread that has a context may store into a cell: [th] is
    such a thread.  A collection is under way, so that a new one cannot be started. *)
Inductive client (fuel : nat) (th : option nat) : ∀ A, know → gc A → (A → know → Prop) → Prop :=
  | client_ret A s (r : A) (Q : A → know → Prop) : Q r s → client fuel th A s (Ret r) Q
  | client_bind A B s (p : gc A) (k : A → gc B) P Q :
      client fuel th A s p P →
      (∀ r s', P r s' → client fuel th B s' (k r) Q) →
      client fuel th B s (bind p k) Q
  | client_mono A s (p : gc A) (P Q : A → know → Prop) :
      client fuel th A s p P → (∀ r s', P r s' → Q r s') → client fuel th A s p Q
  | client_allocate hs b n K N t d :
      has_type d t = true → (∀ r, r ∈ owned d → r ∈ K) → (∀ r, r ∈ owned d → r ∈ N) →
      layout_size t ≤ b →
      client fuel th loc (mkKnow hs b (S n) K N) (Heap.allocate fuel t d)
        (λ a s', s' = mkKnow (a :: hs) (b - layout_size t) n (RMark t a :: K) N)
  | client_root hs b n K N t a :
      RMark t a ∈ K → RMark t a ∈ N ∨ a ∈ hs →
      client fuel th loc (mkKnow hs b (S n) K N) (GcPtr.root a)
        (λ r s', r = a ∧ s' = mkKnow (a :: hs) b n K N)
  | client_clone hs b n K N t a :
      RMark t a ∈ K → a ∈ hs →
      client fuel th loc (mkKnow hs b (S n) K N) (GcRoot.clone a)
        (λ r s', r = a ∧ s' = mkKnow (a :: hs) b n K N)
  | client_drop hs hs' b n K N a :
      hs ≡ₚ a :: hs' →
      client fuel th unit (mkKnow hs b n K N) (GcRoot.drop a)
        (λ _ s', s' = mkKnow hs' b n K N)
  | client_deref hs b n K N t a :
      RMark t a ∈ K → a ∈ hs →
      client fuel th val (mkKnow hs b n K N) (GcRoot.deref a)
        (λ v s', has_type v t = true ∧ s' = mkKnow hs b n (owned v ++ K) N)
  | client_cell_new hs b n K N t v :
      is_copy t = true → has_type v t = true → (∀ r, r ∈ owned v → r ∈ K) →
      client fuel th loc (mkKnow hs b n K N) (GcCell.new v)
        (λ c s', s' = mkKnow hs b n (RCell c :: K) (cell_settled N c v))
  | client_cell_get hs b n K N c :
      RCell c ∈ K →
      client fuel th val (mkKnow hs b n K N) (GcCell.get c)
        (λ v s', (∃ t, is_copy t = true ∧ has_type v t = true) ∧
           s' = mkKnow hs b n (owned v ++ K)
                  (if bool_decide (RCell c ∈ N) then owned v ++ N else N))
  | client_cell_set hs b n K N th' c t v :
      th = Some th' →
      RCell c ∈ K → is_copy t = true → has_type v t = true → (∀ r, r ∈ owned v → r ∈ K) →
      client fuel th unit (mkKnow hs b n K N) (GcCell.set th' c v)
        (λ _ s', s' = mkKnow hs b n K (RCell c :: owned v ++ N))
  | client_mark s budget :
      (2 * Z.to_nat budget + 1 < fuel)%nat →
      client fuel th bool s (Heap.do_mark_incremental fuel budget) (λ _ s', s' = s)
  | client_read X s (f : world → X) : client fuel th X s (get f) (λ _ s', s' = s)
  | client_count s : client fuel th Z s (Heap.allocation_count fuel) (λ _ s', s' = s)
  | client_start s : client fuel th bool s Heap.try_start_marking (λ r s', r = false ∧ s' = s).

End discipline.
Arguments client {_} fuel th {A} s p Q.

(** ** Soundness *)

Section thread.
Context `{Env} `{!TraceContract}.
Variables (w0 : world) (M : Z).
Hypothesis Hphase : phase (heap w0) = GcPhase_as_u8 Marking.
Hypothesis Hctxs : ∀ c tracer, ctxs w0 !! c = Some tracer → tracer = [].

Abbreviation R := (rely (mutators w0 M)).
Abbreviation G := (guar (mutators w0 M)).

(** Thread [i] is between two operations and [k] is what it knows. *)
Abbreviation at_know k := (at_rest (kn_roots k) (kn_bytes k) (kn_incs k)).
Abbreviation known k := (facts w0 M (kn_known k) (kn_shaded k)).

Definition knows (i : nat) (k : know) (s : world * (held * list mthread)) : Prop :=
  owns w0 M i [] (at_know k) (known k) s.

(** The thread has a context. *)
Definition has_context (w : world) (th : nat) : Prop :=
  ∃ ctx, tls w !! th = Some ctx ∧ is_Some (ctxs w !! ctx).

Lemma client_rg {A} fuel th i k (p : gc A) Q s :
  M ≤ Z.of_nat fuel →
  (2 * Z.to_nat (assist_work_budget (options (heap w0))) + 1 < fuel)%nat →
  (∀ th', th = Some th' → has_context w0 th') →
  client fuel th k p Q → knows i k s →
  rg (R i) (G i) p (λ r s', ∃ k', Q r k' ∧ knows i k' s') s.
Proof.
  intros HM Hf Hth Hp. revert s.
  induction Hp as [A k r Q HQ|A B k p f P Q _ IHp _ IHk
    |A k p P Q _ IHp HPQ|hs b n K N t d Hty HK HN Hsz|hs b n K N t a HK Hor|hs b n K N t a HK Ha
    |hs hs' b n K N a Hperm|hs b n K N t a HK Ha|hs b n K N t v Hc Hty HK|hs b n K N c HK
    |hs b n K N th' c t v Hth' HcK Hc Hty HK|k budget Hbud|X k f|k|k]; intros s Ho.
  - eapply owns_ret; [apply facts_stable|exact Ho|]. intros s' Ho'. by exists k.
  - eapply rg_bind; [by apply IHp|]. intros r s1 (k1 & HP & Ho1). by apply (IHk r k1).
  - eapply rg_mono; [by apply IHp|]. intros r s1 (k1 & HP & Ho1). exists k1. by split; [apply HPQ|].
  - eapply rg_mono; [by eapply (allocate_rg w0 M Hphase)|]. intros a s1 Ho1. by eexists.
  - eapply rg_mono; [by eapply (root_rg w0 M)|]. intros r s1 [-> Ho1]. by eexists.
  - eapply rg_mono; [eapply (root_rg w0 M); [done..|by right]|]. intros r s1 [-> Ho1]. by eexists.
  - eapply rg_mono; [by eapply (drop_rg w0 M)|]. intros [] s1 Ho1. by eexists.
  - eapply rg_mono; [by eapply (deref_rg w0 M)|]. intros v s1 [Hv Ho1]. by eexists.
  - eapply rg_mono; [by eapply (cell_new_rg w0 M)|]. intros c s1 Ho1. by eexists.
  - eapply rg_mono; [by eapply (cell_get_rg w0 M)|]. intros v s1 [Hv Ho1]. by eexists.
  - destruct (Hth _ Hth') as (ctx & ? & ?).
    eapply rg_mono; [by eapply (cell_set_rg w0 M Hphase Hctxs)|]. intros [] s1 Ho1. by eexists.
  - eapply rg_mono; [by apply (mark_step_rg w0 M i (at_know k) (known k)); [apply facts_stable|..]|].
    intros r s1 Ho1. by exists k.
  - eapply rg_mono; [by apply (peek_rg w0 M i [] (at_know k) (known k) s f); [apply facts_stable|]|].
    intros r s1 Ho1. by exists k.
  - eapply rg_mono; [by apply (count_rg w0 M i (at_know k) (known k)); [apply facts_stable|..]|].
    intros r s1 Ho1. by exists k.
  - eapply rg_mono; [by apply (start_rg w0 M Hphase i (at_know k) (known k)); [apply facts_stable|]|].
    intros r s1 [-> Ho1]. by exists k.
Qed.

End thread.

(** ** Collections that are not started *)

Section collections.
Context `{Env}.
Variables (fuel : nat) (th : option nat) (k : know).

Lemma client_should_collect : client fuel th k Heap.should_collect (λ _ k', k' = k).
Proof.
  unfold Heap.should_collect. eapply client_bind; [apply client_read|]. intros o ? ->.
  destruct (GcOptions.is_completely_off o); [by apply client_ret|].
  eapply client_bind; [apply client_read|]. intros al ? ->.
  eapply client_bind; [apply client_read|]. intros t ? ->.
  destruct (_ && _); by apply client_ret.
Qed.

Lemma client_try_mark_full :
  client fuel th k (Heap.try_mark_full fuel) (λ r k', r = false ∧ k' = k).
Proof.
  eapply client_bind; [apply client_start|]. intros r ? [-> ->]. by apply client_ret.
Qed.

Lemma client_force_collect : client fuel th k (Heap.force_collect fuel) (λ _ k', k' = k).
Proof.
  eapply client_bind; [apply client_try_mark_full|]. intros r ? [-> ->]. apply client_read.
Qed.

Lemma client_collect : client fuel th k (Heap.collect fuel) (λ _ k', k' = k).
Proof.
  eapply client_bind; [apply client_should_collect|]. intros [] ? ->; [|by apply client_ret].
  eapply client_bind; [apply client_force_collect|]. intros r ? ->. by apply client_ret.
Qed.

End collections.
