(* ===== verification/ConcurrentCycle.v ===== *)
(** * A collection cycle with concurrent clients

    Any number of client threads run during the mark phase of a collection,
    interleaved action by action with each other and with the threads that mark.
    No interleaving of clients of [Discipline] gets stuck, the tri-colour invariant
    holds throughout, and the sweep that ends the cycle frees nothing reachable. *)

From stdpp Require Import relations.
From S2P Require Import Prelude Prog Color TraceImpls GcBox Options BgThread World.
From S2P Require Import Graph Tracing State HeapOps Mutator Marking Sweeping Collection.
From S2P Require Import Client Interface Session Incremental Concurrent MarkProtocol.
From S2P Require Import MutatorSteps Mutators Discipline.
Open Scope Z_scope.

Section start.
Context `{Env}.

(** A client at the start of the mark phase. *)
Record start := mkStart {
  st_thread : option nat;
  st_roots : list loc;
  st_bytes : Z;
  st_incs : nat;
  st_prog : gc unit;
}.

Definition st_state (c : start) : mthread := at_rest (st_roots c) (st_bytes c) (st_incs c).

(** What it knows then: its roots, which the root scan has shaded. *)
Definition root_reqs (w : world) (hs : list loc) : list treq :=
  omap (λ a, (λ b, RMark (box_ty b) a) <$> mem w !! a) hs.

Definition start_know (w : world) (c : start) : know :=
  let K := root_reqs w (st_roots c) in mkKnow (st_roots c) (st_bytes c) (st_incs c) K K.

(** The number of objects there may ever be. *)
Definition capacity (w : world) (cs : list start) : Z :=
  Z.of_nat (size (mem w)) + msum (λ c, Z.of_nat (st_incs c)) cs.

(** The clients fit together and into the heap: every root is held by one of them,
    and neither root counts nor the byte counter can overflow. *)
Record fit (w : world) (fuel : nat) (cs : list start) : Prop := {
  ft_counted : counted (abs w) (st_state <$> cs);
  ft_roots : msum (λ c, Z.of_nat (length (st_roots c)) + Z.of_nat (st_incs c)) cs ≤ usize_max;
  ft_bytes : total_size (mem w) + msum st_bytes cs ≤ usize_max;
  ft_nonneg c : c ∈ cs → 0 ≤ st_bytes c;
  ft_fuel : capacity w cs ≤ Z.of_nat fuel;
  ft_assist : (2 * Z.to_nat (assist_work_budget (options (heap w))) + 1 < fuel)%nat;
  ft_client c : c ∈ cs →
    (∀ th, st_thread c = Some th → has_context w th) ∧
    client fuel (st_thread c) (start_know w c) (st_prog c) (λ _ _, True);
}.

End start.

(** ** All threads *)

Lemma msum_start f g (cs : list start) : (∀ c, f (st_state c) = g c) → msum f (st_state <$> cs) = msum g cs.
Proof. intros Hfg. induction cs as [|c cs IH]; cbn; [done|]. by rewrite IH, Hfg. Qed.

Lemma start_elem m (cs : list start) : m ∈ st_state <$> cs → ∃ c, m = st_state c ∧ c ∈ cs.
Proof. intros (c & -> & Hc)%list_elem_of_fmap. by exists c. Qed.

Lemma start_new (cs : list start) : new_objs (st_state <$> cs) = [].
Proof. induction cs as [|c cs IH]; [done|]. exact IH. Qed.

Section pool.
Context `{Env} `{!TraceContract}.
Variables (w0 : world) (fuel : nat) (cs : list start) (o : GcOptions).
Hypothesis Hsafe : safe_mark o w0.
Hypothesis Hroots : ∀ a, rooted (abs w0) a → nonwhite w0 a.
Hypothesis Hfit : fit w0 fuel cs.

Abbreviation prot := (mutators w0 (capacity w0 cs)).

Lemma start_minv : minv w0 (capacity w0 cs) w0 (st_state <$> cs).
Proof.
  pose proof (mm_wf _ (sm_mid _ _ Hsafe)) as Hwf. destruct (ww_list _ Hwf) as [l Hl].
  pose proof Hl as [Hl1 Hl2 Hl3]. split.
  - done.
  - apply Hwf.
  - apply Hsafe.
  - rewrite (sm_busy _ _ Hsafe), (msum_start _ (λ _, 0)) by done. by rewrite msum_zero.
  - exists l. rewrite start_new, app_nil_r. split; [done|]. split; [done|].
    split; [by intros a Ha; apply (alloc_list_elem _ _ _ Hl)|].
    rewrite (alloc_list_length _ _ Hl), (msum_start _ (λ c, Z.of_nat (st_incs c))); [done|].
    intros c. unfold pending. cbn. lia.
  - intros m a n (c & -> & _)%start_elem. by intros ?%elem_of_nil.
  - rewrite (msum_start _ (λ _, 0)), msum_zero by done. rewrite (ww_bytes _ Hwf). lia.
  - rewrite (ww_bytes _ Hwf). apply Hwf.
  - rewrite (msum_start _ st_bytes) by done. apply Hfit.
  - apply Hfit.
  - rewrite (msum_start _ (λ c, Z.of_nat (length (st_roots c)) + Z.of_nat (st_incs c))) by done.
    apply Hfit.
  - intros m (c & -> & Hc)%start_elem. cbn. split; [done|]. by apply (ft_nonneg _ _ _ Hfit).
Qed.

(** The roots of a thread, which the root scan has shaded. *)
Lemma start_facts c :
  c ∈ cs → let K := root_reqs w0 (st_roots c) in facts w0 (capacity w0 cs) K K w0.
Proof.
  intros Hc K. subst K. unfold root_reqs. split; apply Forall_forall;
    intros r (a & Ha & (b & Hb & ->)%fmap_Some)%list_elem_of_omap.
  - split; [done|]. by exists b.
  - apply Hroots. assert (objs (abs w0) !! a = Some (abs_box b)) as Hob by (cbn; by rewrite lookup_fmap, Hb).
    exists (abs_box b). split; [done|]. pose proof (ft_counted _ _ _ Hfit a) as Hn.
    rewrite Hob in Hn. rewrite Hn. apply list_elem_of_lookup in Hc as [i Hi].
    apply (thread_root (i := i) (m := st_state c)); [|done]. by rewrite list_lookup_fmap, Hi.
Qed.

Definition returned (i : nat) (_ : unit) (s : world * (held * list mthread)) : Prop :=
  ∃ k, knows w0 (capacity w0 cs) i k s.

Abbreviation clients_spec := (pool_spec (rely prot) (guar prot) returned).

(** The invariant of every interleaving. *)
Record running (s : world * (held * list mthread)) : Prop := {
  rn_inv : cinv prot s;
  rn_later : mlater w0 s.1;
  rn_held : length s.2.1 = length cs;
  rn_threads : length s.2.2 = length cs;
}.

Definition ghost0 : held * list mthread := (holding_none (length cs), st_state <$> cs).

Lemma running_start : running (w0, ghost0).
Proof.
  split; [|done|apply length_replicate|apply length_fmap]. split; [apply start_minv|].
  cbn. rewrite held_none. apply Hsafe.
Qed.

Lemma running_step i s s' : guar prot i s s' → running s → running s'.
Proof.
  intros [Hl Hi _ Hlen [Hlx _]] [H1 H2 H3 H4]. split; [auto| |congruence..].
  change (pr_later prot w0 s'.1). etransitivity; [exact H2|exact Hl].
Qed.

Lemma clients_start : clients_spec (st_prog <$> cs) (w0, ghost0).
Proof.
  intros i p Hi. apply list_lookup_fmap_Some in Hi as (c & -> & Hi).
  assert (c ∈ cs) as Hc by by eapply list_elem_of_lookup_2.
  destruct (ft_client _ _ _ Hfit c Hc) as [Hth Hcl].
  pose proof (sm_mid _ _ Hsafe) as Hm.
  eapply rg_mono; [eapply client_rg;
    [apply Hm| |apply Hfit|apply Hfit|exact Hth|exact Hcl|]|].
  - intros c' tracer. apply (ww_local_gray _ (mm_wf _ Hm)).
  - split; [split; [apply running_start|]|split; [|by apply start_facts]]; cbn.
    + apply lookup_replicate_2. by eapply lookup_lt_Some.
    + by rewrite list_lookup_fmap, Hi.
  - intros [] s1 (k & _ & Hk). by exists k.
Qed.

Lemma clients_running c :
  rtc pool_step (st_prog <$> cs, w0) c →
  ∃ g, clients_spec c.1 (c.2, g) ∧ running (c.2, g) ∧ length c.1 = length cs.
Proof.
  intros Hs. pose proof (pool_steps_length _ _ Hs) as Hlen. cbn in Hlen.
  apply (pool_rg (rely prot) (guar prot) returned (guar_in_rely prot) running _ c ghost0)
    in Hs as (g & ? & ?).
  - exists g. split; [done|]. split; [done|]. by rewrite Hlen, length_fmap.
  - apply running_step.
  - apply clients_start.
  - apply running_start.
Qed.

(** When all threads have returned, the mark phase can be ended. *)
Lemma clients_returned tp w g :
  clients_spec tp (w, g) → running (w, g) → length tp = length cs →
  Forall (λ p, p = Ret tt) tp → safe_mark o w.
Proof.
  destruct g as [L x]. intros Hspec [Hc Hl HL Hx] Htp Hall. cbn in HL, Hx.
  assert (∀ i, i < length cs → returned i tt (w, (L, x)))%nat as Hret.
  { intros i Hi. rewrite <- Htp in Hi. apply lookup_lt_is_Some_2 in Hi as [p Hp].
    pose proof Hp as Hp'. rewrite Forall_lookup in Hall. rewrite (Hall _ _ Hp) in Hp'.
    apply (pool_rg_done _ _ _ _ _ _ Hspec Hp'). }
  assert (∀ j l, L !! j = Some l → l = []) as Hnone.
  { intros j l Hj. destruct (Hret j) as (k & [_ Hj'] & _).
    - rewrite <- HL. by eapply lookup_lt_Some.
    - cbn in Hj'. congruence. }
  assert (∀ m, m ∈ x → resting m) as Hrest.
  { intros m [j Hj]%list_elem_of_lookup. destruct (Hret j) as (k & _ & Hj' & _).
    - rewrite <- Hx. by eapply lookup_lt_Some.
    - cbn in Hj'. rewrite Hj in Hj'. simplify_eq. done. }
  pose proof (tri_held_none _ _ _ _ Hc Hnone) as Ht. destruct Hc as [Hi _]. cbn in Hi, Ht.
  by eapply resting_safe.
Qed.

End pool.

(** The state after the root scan. *)
Lemma scan_safe `{Env} `{!TraceContract} w w1 fuel0 :
  idle w → (enough_fuel w ≤ fuel0)%nat →
  run (Heap.try_start_marking;; Heap.do_mark_roots fuel0 Tracer.new)%gc w = Done [] w1 →
  safe_mark (options (heap w)) w1 ∧ ∀ a, rooted (abs w1) a → nonwhite w1 a.
Proof.
  intros Hidle Hf0 Hrun. rewrite run_bind, try_start_marking_run in Hrun by apply Hidle.
  destruct (wp_Done _ _ _ _ _ (scan_roots_wp w fuel0 Hidle Hf0) Hrun) as [_ Hs1].
  split; [by apply scanned_safe|]. intros a Ha. apply (sc_roots _ _ _ Hs1).
  by rewrite <- (recolored_abs _ _ (sc_recolored _ _ _ Hs1)) in Ha.
Qed.

(** What holds in every state of every interleaving: no thread is stuck, the object
    graph is well formed, no object of the start is lost, marked objects stay marked
    and no black object points to a white one; and when the threads have returned,
    the sweep frees no reachable object and leaves an idle heap. *)
Definition cycle_safe `{Env} (w1 : world) (fuel : nat) (tp : list (gc unit)) (w2 : world) : Prop :=
  ¬ pool_stuck (tp, w2) ∧ wf_graph (abs w2) ∧
  (∀ a b, mem w1 !! a = Some b → ∃ b', mem w2 !! a = Some b' ∧ data b' = data b) ∧
  (∀ a, nonwhite w1 a → nonwhite w2 a) ∧
  (∀ a b, color_of w2 a = Some Black → edge (abs w2) a b → nonwhite w2 b) ∧
  (Forall (λ p, p = Ret tt) tp →
   0 < incremental_work_budget (options (heap w1)) → pacing_ok w2 → (mark_fuel w2 ≤ fuel)%nat →
   ∃ w3, run (Heap.do_mark_work_full fuel Tracer.new;; Heap.sweep_and_finish fuel)%gc w2 =
       Done (total_size (mem w3)) w3 ∧ idle w3 ∧
     ∀ a, reachable (abs w2) a → objs (abs w3) !! a = objs (abs w2) !! a).

Lemma clients_safe `{Env} `{!TraceContract} w w1 fuel0 fuel cs tp w2 :
  idle w → (enough_fuel w ≤ fuel0)%nat →
  run (Heap.try_start_marking;; Heap.do_mark_roots fuel0 Tracer.new)%gc w = Done [] w1 →
  fit w1 fuel cs → rtc pool_step (st_prog <$> cs, w1) (tp, w2) → cycle_safe w1 fuel tp w2.
Proof.
  intros Hidle Hf0 Hrun Hfit Hs. destruct (scan_safe _ _ _ Hidle Hf0 Hrun) as [Hsafe Hroots].
  destruct (clients_running w1 fuel cs _ Hsafe Hroots Hfit _ Hs) as ([L x] & Hspec & Hr & Hlen).
  pose proof Hr as [[Hi Ht] Hl _ _]. cbn in *.
  split; [by eapply pool_rg_not_stuck|]. split; [apply Hi|]. split.
  { intros a b Hb. destruct (ml_box _ _ Hl _ _ Hb) as (b' & ? & _ & ?). by exists b'. }
  split; [apply Hl|]. split; [apply (tri_black _ _ _ _ _ Ht)|]. intros Hall Hb Hp Hf.
  rewrite (sm_options _ _ Hsafe) in Hb.
  pose proof (clients_returned w1 cs _ Hsafe _ _ _ Hspec Hr Hlen Hall) as Hs2.
  destruct (finish_cycle_run _ _ fuel Hs2 Hb Hp Hf) as (w3 & Hrun3 & Hi3 & Hret).
  exists w3. split; [exact Hrun3|]. split; [done|]. apply Hret.
Qed.

(** C6: a collection cycle whose mark phase runs concurrently with threads that mark and
    with client threads that allocate, root, read and store and keep to the discipline
    [client]: a new object points to marked objects only, a new root is taken only of a
    marked object or of one that the thread has a root of, and a thread that stores
    has a context.  If they also fit into the heap ([fit]), then in every state of every
    interleaving no thread is stuck, the object graph is well formed, no object of the
    start is lost, marked objects stay marked and no black object points to a white
    one; and if one thread ends the marking and sweeps after all of them have returned,
    no reachable object is freed and the heap is idle.  Both conditions are needed:
    [Limits.unscanned_new_root] breaks the discipline, and in
    [Limits.assist_ends_marking_early] the collector ends the marking while another
    thread still assists; each loses a reachable object. *)
Theorem concurrent_cycle_safe `{Env} `{!TraceContract} w w1 fuel0 fuel cs tp w2 :
  idle w → (enough_fuel w ≤ fuel0)%nat →
  run (Heap.try_start_marking;; Heap.do_mark_roots fuel0 Tracer.new)%gc w = Done [] w1 →
  fit w1 fuel cs → rtc pool_step (st_prog <$> cs, w1) (tp, w2) →
  cycle_safe w1 fuel tp w2.
Proof. apply clients_safe. Qed.

(** The threads of such a mark phase all return: every interleaving is finite,
    and it goes on until no thread has an action left. *)
Theorem concurrent_cycle_terminates `{Env} `{!TraceContract} w w1 fuel0 fuel cs c :
  idle w → (enough_fuel w ≤ fuel0)%nat →
  run (Heap.try_start_marking;; Heap.do_mark_roots fuel0 Tracer.new)%gc w = Done [] w1 →
  fit w1 fuel cs → rtc pool_step (st_prog <$> cs, w1) c →
  Acc (flip pool_step) c ∧ (Forall (λ p, p = Ret tt) c.1 ∨ ∃ c', pool_step c c').
Proof.
  intros Hidle Hf0 Hrun Hfit Hs. destruct (scan_safe _ _ _ Hidle Hf0 Hrun) as [Hsafe Hroots].
  destruct (clients_running w1 fuel cs _ Hsafe Hroots Hfit _ Hs) as (g & Hspec & _ & _).
  split; [apply pool_step_acc|]. destruct c as [tp w2]. apply pool_progress.
  by eapply pool_rg_not_stuck.
Qed.
