(* ===== verification/MultiThreaded.v ===== *)
(** * The multi-threaded example ([src/examples/multi_threaded.rs])

    Worker threads allocate nodes and link some of them behind a shared root node,
    while a monitor thread reads the statistics of the heap and asks for
    collections.  Here they run during the mark phase of a collection.  The barriers
    of the example only exclude interleavings, and the pauses do nothing, so both
    are left out; each thread has a log of its own. *)

From stdpp Require Import relations.
From S2P Require Import Console.
From S2P Require Import Prelude Prog Color TraceImpls GcBox Options BgThread World.
From S2P Require Import Graph Tracing State HeapOps Mutator Marking Collection Client.
From S2P Require Import Clients Demo Interface Session HeapClient Incremental MutatorSteps Mutators Discipline.
From S2P Require Import ConcurrentCycle.
Open Scope Z_scope.

Section multi_threaded.
Variables (layout : ty → Z) (mall : gset loc → loc) (checks : bool).
#[local] Instance nodes_env : Env := clients layout mall checks.

Abbreviation Node := (TUser cell_node).

(** ** The threads *)

(** The fields of a node. *)
Definition node_id (v : val) : val :=
  match v with VUser _ [id; _; _] => id | _ => VNone end.
Definition node_value (v : val) : val :=
  match v with VUser _ [_; value; _] => value | _ => VNone end.
Definition node_next (v : val) : gc loc :=
  match v with VUser _ [_; _; VGcCell next] => Ret next | _ => throw IllTyped end.

(** [node.next.get()] and [node.next.set(v)] through a root of the node. *)
Definition next_get (node : loc) : gc val :=
  (n ← GcRoot.deref node; next ← node_next n; GcCell.get next)%gc.
Definition next_set (th : nat) (node : loc) (v : val) : gc unit :=
  (n ← GcRoot.deref node; next ← node_next n; GcCell.set th next v)%gc.

Open Scope io_scope.

(** The body of the [if i % 10 == 0]. *)
Definition link_to_root (th : nat) (thread_id : Z) (root node : loc) : io unit :=
  current_next ← next_get root;
  next_set th root (VSome (VGcPtr Node (GcRoot.as_ptr node)));;
  next_set th node current_next;;
  n1 ← GcRoot.deref node;
  n2 ← GcRoot.deref node;
  println "Thread {} linked node {} (value={}) to root"
    [Num thread_id; Shown (node_id n1); Shown (node_value n2)].

(** The loop over the iterations [range]; [nodes] grows at its end. *)
Fixpoint link_loop (fuel th : nat) (thread_id : Z) (root : loc) (range : list Z)
    (nodes : list loc) : io (list loc) :=
  match range with
  | [] => done nodes
  | i :: range =>
      next ← GcCell.new VNone;
      node ← GcContext.allocate fuel Node
               (CellNode (thread_id * 1000 + i) (thread_id * 100 + i) next);
      ! (if i mod 10 =? 0 then link_to_root th thread_id root node else done tt);
      link_loop fuel th thread_id root range (nodes ++ [node])%list
  end.

(** A worker, once it has its context, up to the second barrier. *)
Definition worker_links (fuel th : nat) (iterations thread_id : Z) (root : loc) : io (list loc) :=
  ! println "Thread {} ready" [Num thread_id];
  nodes ⇐ link_loop fuel th thread_id root (seqZ 0 iterations) [];
  ! println "Thread {} finished allocating {} nodes" [Num thread_id; Num iterations];
  ! println "Thread {} ready for phase 2" [Num thread_id];
  done nodes.

Definition worker (fuel th : nat) (iterations thread_id : Z) (root : loc) : io unit :=
  nodes ⇐ worker_links fuel th iterations thread_id root;
  drop_roots nodes;;
  next_set th root VNone;;
  done tt.

(** The closure [collect] of the monitor. *)
Fixpoint monitor_rounds (fuel : nat) (rounds : list Z) : io unit :=
  match rounds with
  | [] => done tt
  | round :: rounds =>
      bytes ← Heap.get_bytes_allocated;
      count ← Heap.allocation_count fuel;
      ! println "[Monitor] Round {}: {} allocations, {} bytes" [Num round; Num count; Num bytes];
      ! (if 1024 * 10 <? bytes then
           ! println "[Monitor] Triggering GC..." [];
           Heap.collect fuel;;
           bytes_after ← Heap.get_bytes_allocated;
           count_after ← Heap.allocation_count fuel;
           println "[Monitor] After GC: {} allocations, {} bytes"
             [Num count_after; Num bytes_after]
         else done tt);
      monitor_rounds fuel rounds
  end.

Definition monitor (fuel : nat) : io unit :=
  ! println "Monitor Thread ready" [];
  ! monitor_rounds fuel (seqZ 0 20);
  ! println "Monitor Thread ready for phase 2" [];
  monitor_rounds fuel (seqZ 0 20).

(** A thread of the pool. *)
Definition thread (p : io unit) : gc unit := (main p;; Ret tt)%gc.

(** ** Their discipline *)

Hypothesis layout_usize : ∀ t, is_usize (layout t).
Hypothesis mall_fresh : ∀ used, mall used ∉ used.

(** The worker between two steps: its roots are the shared root and [nodes], and it
    may still allocate [n] nodes. *)
Definition working (root : loc) (nodes : list loc) (n : nat) (s : know) : Prop :=
  kn_roots s ≡ₚ root :: nodes ∧ kn_incs s = n ∧ kn_bytes s = Z.of_nat n * layout Node ∧
  RMark Node root ∈ kn_known s.

Lemma client_println {B} fuel th s fmt args (k : unit → io B) log Q :
  client fuel th s (k tt (log ++ [(fmt, args)])%list) Q →
  client fuel th s (then_io (println fmt args) k log) Q.
Proof. done. Qed.

Lemma client_step {A B} fuel th s (p : gc A) (k : A → io B) log P Q :
  client fuel th s p P → (∀ a s', P a s' → client fuel th s' (k a log) Q) →
  client fuel th s (then_io (lift p) k log) Q.
Proof.
  intros Hp Hk. apply (client_bind _ _ _ _ _ _ _ (λ r s', r.1 = log ∧ P r.2 s')).
  - eapply client_bind; [exact Hp|]. intros a s' Ha. by apply client_ret.
  - intros [l a] s' [E Ha]. cbn in *. subst. by apply Hk.
Qed.

(** More is known, and nothing else has changed. *)
Record learned (s s' : know) : Prop := {
  ln_roots : kn_roots s' = kn_roots s;
  ln_bytes : kn_bytes s' = kn_bytes s;
  ln_incs : kn_incs s' = kn_incs s;
  ln_known : kn_known s ⊆ kn_known s';
}.

#[local] Instance learned_preorder : PreOrder learned.
Proof.
  split; [by split|]. intros ? ? ? [] []. split; [congruence..|by etransitivity].
Qed.

Lemma learned_working root nodes n s s' :
  learned s s' → working root nodes n s → working root nodes n s'.
Proof.
  intros [E1 E2 E3 HK] (? & ? & ? & ?). unfold working. rewrite E1, E2, E3.
  split; [done|]. split; [done|]. split; [done|]. by apply HK.
Qed.

Lemma node_fields v :
  has_type v Node = true → ∃ id value c, v = VUser cell_node [VPrim Usize id; VPrim I32 value; VGcCell c].
Proof.
  intros Hv. destruct v; try discriminate. apply has_type_user in Hv as [-> Hf].
  destruct fields as [|v1 [|v2 [|v3 [|v4 fields]]]]; cbn in Hf; rewrite ?andb_false_r in Hf; try done.
  apply andb_true_iff in Hf as [H1 [H2 [H3 _]%andb_true_iff]%andb_true_iff].
  destruct v1; try discriminate. destruct v2; try discriminate. destruct v3; try discriminate.
  apply bool_decide_eq_true in H1 as [-> _], H2 as [-> _]. eauto.
Qed.

Lemma client_next_get fuel th s a :
  RMark Node a ∈ kn_known s → a ∈ kn_roots s →
  client fuel th s (next_get a)
    (λ v s', learned s s' ∧ (∃ t, is_copy t = true ∧ has_type v t = true) ∧
       ∀ r, r ∈ owned v → r ∈ kn_known s').
Proof.
  destruct s as [hs b n K N]. intros HK Ha. eapply client_bind; [by apply client_deref|].
  intros v s' [(id & value & c & ->)%node_fields ->].
  cbn [node_next]. rewrite bind_Ret_l. eapply client_mono; [apply client_cell_get; by left|].
  intros v s' [Hv ->]. split; [split; try done; cbn; set_solver|]. split; [done|]. set_solver.
Qed.

Lemma client_next_set fuel th s a v t :
  RMark Node a ∈ kn_known s → a ∈ kn_roots s → is_copy t = true → has_type v t = true →
  (∀ r, r ∈ owned v → r ∈ kn_known s) →
  client fuel (Some th) s (next_set th a v) (λ _ s', learned s s').
Proof.
  destruct s as [hs b n K N]. intros HK Ha Hc Hv Hown. eapply client_bind; [by apply client_deref|].
  intros v0 s' [(id & value & c & ->)%node_fields ->]. cbn [node_next]. rewrite bind_Ret_l.
  eapply client_mono; [apply (client_cell_set _ _ _ _ _ _ _ th c t); [done|by left|done..|set_solver]|].
  intros _ s' ->. split; try done. cbn. set_solver.
Qed.

Lemma client_link fuel th s thread_id root node log :
  RMark Node root ∈ kn_known s → root ∈ kn_roots s →
  RMark Node node ∈ kn_known s → node ∈ kn_roots s →
  client fuel (Some th) s (link_to_root th thread_id root node log) (λ _ s', learned s s').
Proof.
  intros HK1 Hr1 HK2 Hr2. eapply client_step; [by apply client_next_get|].
  intros v s1 ([E1 E2 E3 HK] & (t & Hc & Hv) & Hown).
  eapply client_step; [apply (client_next_set _ _ _ _ _ (next_ty cell_node));
    [by apply HK|by rewrite E1|done|done|]|].
  { cbn. intros r ->%list_elem_of_singleton. by apply HK. }
  intros ? s2 [F1 F2 F3 HK'].
  eapply client_step; [apply (client_next_set _ _ _ _ _ t);
    [by apply HK', HK|by rewrite F1, E1|done|done|]|].
  { intros r ?. by apply HK', Hown. }
  intros ? s3 H3. destruct s3 as [hs b n K N] eqn:Es. destruct H3 as [G1 G2 G3 HK'']. cbn in *.
  eapply client_step; [apply (client_deref _ _ _ _ _ _ _ Node); [by apply HK'', HK', HK|congruence]|].
  intros v1 ? [Hv1 ->].
  eapply client_step; [apply (client_deref _ _ _ _ _ _ _ Node);
    [apply elem_of_app; right; by apply HK'', HK', HK|congruence]|].
  intros v2 ? [Hv2 ->]. apply client_ret. split; cbn; [congruence..|set_solver].
Qed.

Lemma client_link_loop fuel th thread_id root range nodes log s :
  working root nodes (length range) s →
  client fuel (Some th) s (link_loop fuel th thread_id root range nodes log)
    (λ r s', working root r.2 0 s').
Proof.
  revert nodes log s. induction range as [|i range IH]; intros nodes log s Hs.
  { by apply client_ret. }
  destruct s as [hs b n K N], Hs as (Hhs & Hn & Hb & HK). cbn in Hhs, Hn, Hb, HK. subst n b.
  eapply client_step; [apply (client_cell_new _ _ _ _ _ _ _ (next_ty cell_node));
    [done..|by intros r ?%elem_of_nil]|].
  intros c ? ->. pose proof (layout_usize Node) as Hl. unfold is_usize in Hl.
  eapply client_step; [apply client_allocate; [done|cbn; set_solver| |cbn; lia]|].
  { cbn. set_solver. }
  intros a ? ->. cbn [length]. set (s1 := mkKnow _ _ _ _ _).
  assert (working root (nodes ++ [a]) (length range) s1) as Hs1.
  { split; [|split; [done|split; [cbn; lia|set_solver]]]. cbn. rewrite Hhs.
    rewrite Permutation_app_comm. apply Permutation_swap. }
  apply (client_bind _ _ _ _ _ _ _ (λ _ s', working root (nodes ++ [a]) (length range) s')).
  - destruct (_ =? 0); [|by apply client_ret].
    eapply client_mono; [apply client_link; unfold s1; cbn; rewrite ?Hhs; set_solver|].
    intros r s' Hln. exact (learned_working _ _ _ _ _ Hln Hs1).
  - intros [log' []] s' Hs'. by apply IH.
Qed.

Lemma client_drop_roots fuel th root nodes s :
  working root nodes 0 s → client fuel th s (drop_roots nodes) (λ _ s', working root [] 0 s').
Proof.
  revert s. induction nodes as [|a nodes IH]; intros s Hs; [by apply client_ret|].
  destruct s as [hs b n K N], Hs as (Hhs & Hn & Hb & HK). cbn in Hhs, Hn, Hb, HK.
  eapply client_bind; [apply (client_drop _ _ _ (root :: nodes))|].
  { rewrite Hhs. apply Permutation_swap. }
  intros [] ? ->. apply IH. by split.
Qed.

Lemma client_worker fuel th iterations thread_id root s :
  working root [] (Z.to_nat iterations) s →
  client fuel (Some th) s (thread (worker fuel th iterations thread_id root)) (λ _ _, True).
Proof.
  intros Hs. apply (client_bind _ _ _ _ _ _ _ (λ _ _, True)); [|by intros; apply client_ret].
  eapply (client_bind _ _ _ _ _ _ _ (λ r s', working root r.2 0 s')).
  { apply client_println. eapply client_bind; [apply client_link_loop; by rewrite length_seqZ|].
    intros [log nodes] s1 Hs1. by apply client_println, client_println, client_ret. }
  intros [log nodes] s1 Hs1.
  eapply client_step; [apply client_drop_roots, Hs1|]. intros [] s2 (Hr & _ & _ & HK).
  eapply client_step; [apply (client_next_set _ _ _ _ _ (next_ty cell_node));
    [exact HK|rewrite Hr; by left|done|done|by intros r ?%elem_of_nil]|].
  intros [] s3 _. by apply client_ret.
Qed.

Lemma client_monitor_rounds fuel th s rounds log :
  client fuel th s (monitor_rounds fuel rounds log) (λ _ s', s' = s).
Proof.
  revert log. induction rounds as [|round rounds IH]; intros log; [by apply client_ret|].
  eapply client_step; [apply client_read|]. intros bytes ? ->.
  eapply client_step; [apply client_count|]. intros count ? ->. apply client_println.
  apply (client_bind _ _ _ _ _ _ _ (λ _ s', s' = s)); [|intros [log' []] ? ->; apply IH].
  destruct (_ <? _); [|by apply client_ret]. apply client_println.
  eapply client_step; [apply client_collect|]. intros ? ? ->.
  eapply client_step; [apply client_read|]. intros bytes' ? ->.
  eapply client_step; [apply client_count|]. intros count' ? ->. by apply client_ret.
Qed.

Lemma client_monitor fuel th s :
  client fuel th s (thread (monitor fuel)) (λ _ _, True).
Proof.
  apply (client_bind _ _ _ _ _ _ _ (λ _ s', s' = s)); [|by intros; apply client_ret].
  apply client_println. eapply client_bind; [apply client_monitor_rounds|].
  intros [log []] ? ->. apply client_println, client_monitor_rounds.
Qed.

(** ** The whole program *)

Section pool.
Variables (fuel n iterations : nat) (root : loc) (budgets : list Z).

Definition worker_start (id : nat) : start :=
  mkStart (Some (S id)) [root] (Z.of_nat iterations * layout Node) iterations
    (thread (worker fuel (S id) (Z.of_nat iterations) (Z.of_nat id) root)).

(** A step of the background thread, or of another thread that marks. *)
Definition marker_start (budget : Z) : start :=
  mkStart None [] 0 0 (Heap.do_mark_incremental fuel budget;; Ret tt)%gc.

(** The main thread, which waits for the others, the workers, the monitor, and
    threads that mark. *)
Definition example_threads : list start :=
  mkStart (Some 0%nat) [root] 0 0 (Ret tt) :: mkStart None [] 0 0 (thread (monitor fuel)) ::
  (worker_start <$> seq 0 n) ++ (marker_start <$> budgets).

Lemma example_elem c :
  c ∈ example_threads →
  c = mkStart (Some 0%nat) [root] 0 0 (Ret tt) ∨ c = mkStart None [] 0 0 (thread (monitor fuel)) ∨
  (∃ id, c = worker_start id ∧ (id < n)%nat) ∨ (∃ b, c = marker_start b ∧ b ∈ budgets).
Proof.
  unfold example_threads. rewrite !elem_of_cons, elem_of_app, !list_elem_of_fmap.
  setoid_rewrite elem_of_seq. intros [?|[?|[(id & -> & ?)|(b & -> & ?)]]]; eauto 10 with lia.
Qed.

(** What the threads have in total. *)
Lemma example_sum (f : start → Z) w k :
  (∀ id, f (worker_start id) = w) → (∀ b, f (marker_start b) = 0) →
  f (mkStart (Some 0%nat) [root] 0 0 (Ret tt)) = k →
  f (mkStart None [] 0 0 (thread (monitor fuel))) = 0 →
  msum f example_threads = k + Z.of_nat n * w.
Proof.
  intros Hw Hm Hk H0. unfold example_threads. cbn [msum]. rewrite msum_app, Hk, H0.
  rewrite (msum_const f (worker_start <$> _) w), (msum_const f (marker_start <$> _) 0).
  - rewrite length_fmap, length_seq. lia.
  - by intros ? (b & -> & _)%list_elem_of_fmap.
  - by intros ? (b & -> & _)%list_elem_of_fmap.
Qed.

(** The heap when the workers start: only the shared node is rooted, once for the
    main thread and once for each worker. *)
Record shared (w : world) : Prop := {
  sh_root : ∃ d, objs (abs w) !! root = Some (mkObj Node (Z.of_nat n + 1) d);
  sh_other a o : objs (abs w) !! a = Some o → a ≠ root → ob_roots o = 0;
  sh_context id : (id < n)%nat → has_context w (S id);
  sh_roots : Z.of_nat n + 1 + Z.of_nat n * Z.of_nat iterations ≤ usize_max;
  sh_bytes : total_size (mem w) + Z.of_nat n * (Z.of_nat iterations * layout Node) ≤ usize_max;
  sh_fuel : (size (mem w) + n * iterations ≤ fuel)%nat;
  sh_assist : (2 * Z.to_nat (assist_work_budget (options (heap w))) + 1 < fuel)%nat;
  sh_budgets b : b ∈ budgets → (2 * Z.to_nat b + 1 < fuel)%nat;
}.

Lemma example_fit w : has_context w 0 → shared w → fit w fuel example_threads.
Proof.
  intros Hmain [(d & Hroot) Hother Hctx Hr Hb Hf Ha Hbud]. split.
  - intros a. unfold roots_of. rewrite (msum_start _ (λ c, handle_count (st_roots c) a)) by done.
    rewrite (example_sum _ (handle_count [root] a) (handle_count [root] a)) by done.
    rewrite handle_count_cons. change (handle_count [] a) with 0. case_decide as Hra.
    + subst. rewrite Hroot. cbn. lia.
    + destruct (objs (abs w) !! a) as [o|] eqn:Ho; [|lia]. rewrite (Hother a o); [lia|done|congruence].
  - rewrite (example_sum _ (1 + Z.of_nat iterations) 1) by done. lia.
  - rewrite (example_sum _ (Z.of_nat iterations * layout Node) 0) by done. lia.
  - pose proof (layout_usize Node) as Hl. unfold is_usize in Hl.
    intros c [->|[->|[(id & -> & _)|(bu & -> & _)]]]%example_elem; cbn; lia.
  - unfold capacity. rewrite (example_sum _ (Z.of_nat iterations) 0) by done. lia.
  - done.
  - intros c [->|[->|[(id & -> & Hid)|(bu & -> & Hbu)]]]%example_elem; cbn [st_thread st_prog].
    + split; [|by apply client_ret]. by intros th [= <-].
    + split; [done|]. apply client_monitor.
    + split; [intros th [= <-]; by apply Hctx|]. apply client_worker.
      rewrite Nat2Z.id. split; [done|]. split; [done|]. split; [done|]. cbn.
      assert (∃ b, mem w !! root = Some b ∧ box_ty b = Node) as (b & Hb' & Hty).
      { cbn in Hroot. rewrite lookup_fmap in Hroot. apply fmap_Some in Hroot as (b & ? & [= -> _ _]).
        by exists b. }
      unfold root_reqs. cbn. rewrite Hb'. cbn. rewrite Hty. by left.
    + split; [done|]. eapply client_bind; [apply client_mark; by apply Hbud|].
      intros r s' _. by apply client_ret.
Qed.

End pool.

(** C15: the multi-threaded example while a collection marks: whatever the
    interleaving of the workers, the monitor and the marking threads, no thread gets
    stuck, no object is lost, no black object points to a white one, and when all
    threads have returned, ending the marking and sweeping frees no reachable object. *)
Theorem multi_threaded_safe w w1 fuel0 fuel n iterations root budgets tp w2 :
  idle w → (enough_fuel w ≤ fuel0)%nat →
  run (Heap.try_start_marking;; Heap.do_mark_roots fuel0 Tracer.new)%gc w = Done [] w1 →
  has_context w1 0 → shared fuel n iterations root budgets w1 →
  rtc pool_step (st_prog <$> example_threads fuel n iterations root budgets, w1) (tp, w2) →
  cycle_safe w1 fuel tp w2.
Proof.
  intros Hidle Hf0 Hrun Hmain Hsh Hs.
  assert (TraceContract) as Hc by by apply clients_contract.
  eapply clients_safe; [exact Hidle|exact Hf0|exact Hrun| |exact Hs]. by apply example_fit.
Qed.

End multi_threaded.
