(* ===== verification/SweepSteps.v ===== *)
(** * The atomic actions of a sweep with concurrent clients

    The state of a heap that one thread sweeps while client threads allocate, root,
    read and store, in the middle of their operations.  The ghost state records where
    the sweep is and what each client is doing; [sinv] is the invariant, [sstep] how
    one action may change the state, and the lemmas say that each action keeps both.

    An object is [secure] when the sweep cannot free it: it is not white, or the sweep
    has passed it, or a client keeps a root of it until the sweep is over.  Pointers
    to secure objects may be stored; an object that only has roots is alive as long as
    it has them.

    When no thread sweeps at all the state is [calm]: every object is secure, and the
    invariant says in addition that the heap is idle but for the operations that the
    clients are in the middle of. *)

From stdpp Require Import relations.
From S2P Require Import Prelude Prog Color TraceImpls GcBox Options BgThread World.
From S2P Require Import Graph Tracing State HeapOps Mutator Marking Sweeping Collection.
From S2P Require Import Client Interface Session Incremental Concurrent MarkProtocol.
From S2P Require Import MutatorSteps.
Open Scope Z_scope.

(** ** The ghost state *)

(** What the sweep knows of the first object of its list: nothing; that it is white;
    that it is dead; that it survives. *)
Inductive verdict := Unknown | SeenWhite | Condemned | Spared.

(** - [sw_started]: it has read the head of the allocation list;
    - [sw_prev]: the link it writes to;
    - [sw_todo]: the objects it has not passed;
    - [sw_left]: how often it may still write to the head;
    - [sw_freed]: the bytes it has freed;
    - [sw_threshold]: the threshold it will replace;
    - [sw_calm]: there is no sweep, and there will be none. *)
Record sweeper := mkSweeper {
  sw_started : bool;
  sw_prev : Heap.next_ref;
  sw_todo : list loc;
  sw_left : nat;
  sw_freed : Z;
  sw_verdict : verdict;
  sw_threshold : Z;
  sw_calm : bool;
}.

(** - [g_x]: what the threads are doing; the sweeping thread is the first one;
    - [g_pins]: the roots that a thread keeps until the sweep is over;
    - [g_fly]: the object of a thread that is not counted in [bytes_allocated] yet. *)
Record ghost := mkGhost {
  g_sw : sweeper;
  g_x : list mthread;
  g_pins : held;
  g_fly : held;
}.

Definition with_sw (g : ghost) (sw : sweeper) : ghost :=
  mkGhost sw (g_x g) (g_pins g) (g_fly g).
Definition with_threads (g : ghost) (x : list mthread) : ghost :=
  mkGhost (g_sw g) x (g_pins g) (g_fly g).
Definition with_pins (g : ghost) (P : held) : ghost :=
  mkGhost (g_sw g) (g_x g) P (g_fly g).
Definition with_fly (g : ghost) (L : held) : ghost :=
  mkGhost (g_sw g) (g_x g) (g_pins g) L.

Definition with_verdict (sw : sweeper) (v : verdict) : sweeper :=
  mkSweeper (sw_started sw) (sw_prev sw) (sw_todo sw) (sw_left sw) (sw_freed sw) v
    (sw_threshold sw) (sw_calm sw).

Implicit Types (w : world) (g : ghost) (x : list mthread).

(** ** What the sweep cannot free *)

Definition passed (sw : sweeper) (a : loc) : Prop :=
  sw_calm sw = true ∨ (sw_started sw = true ∧ a ∉ sw_todo sw).

Definition secure w g (a : loc) : Prop :=
  is_Some (mem w !! a) ∧ (nonwhite w a ∨ passed (g_sw g) a ∨ a ∈ concat (g_pins g)).

(** The request leads to secure objects. *)
Definition good w g (r : treq) : Prop :=
  match r with
  | RMark t a => secure w g a ∧ valid w t a
  | RCell c => ∃ v, cells w !! c = Some v ∧
      ∀ t a, RMark t a ∈ owned v → secure w g a ∧ valid w t a
  end.

(** The block [b] at [a] may be used, or the sweep has decided to keep it. *)
Definition alive w g (a : loc) (b : GcBox) : Prop :=
  secure w g a ∨ 0 < root_count (header b) ∨
  (sw_verdict (g_sw g) = Spared ∧ sw_todo (g_sw g) !! 0%nat = Some a).

(** Each thread has a root of each of its objects of [L]. *)
Definition covered (L : held) x : Prop :=
  ∀ i l a, L !! i = Some l → a ∈ l → ∃ m, x !! i = Some m ∧ a ∈ mt_roots m.

(** How often the head may still change. *)
Definition turns g : Z := 2 * msum pending (g_x g) + Z.of_nat (sw_left (g_sw g)).

(** The size of the objects of [l] that are counted in [bytes_allocated]. *)
Definition counted_sizes (m : gmap loc GcBox) (U l : list loc) : Z :=
  sum_sizes m (List.filter (λ a, negb (bool_decide (a ∈ U))) l).

#[local] Arguments new_objs x : simpl never.
#[local] Arguments roots_of a x : simpl never.
#[local] Arguments counted_sizes m U l : simpl never.
#[local] Arguments turns g : simpl never.

(** The types of the values in cells that a program uses; all of them if it is of no
    interest. *)
Class CellTypes := cell_type : ty → Prop.
#[export] Instance any_cells : CellTypes | 100 := λ _, True.

Section steps.
Context `{Env} `{!TraceContract} {CT : CellTypes}.
Variables (o : GcOptions) (T B : Z).

(** ** The invariant *)

Record objects_ok w g : Prop := {
  ok_mem : wf_mem (mem w);
  ok_alive a b : mem w !! a = Some b → alive w g a b →
    has_type (data b) (box_ty b) = true ∧ Forall (good w g) (owned (data b));
  ok_cells c v : cells w !! c = Some v → ∃ t, cell_type t ∧ is_copy t = true ∧ has_type v t = true;
}.

Record roots_ok w g : Prop := {
  ok_counts : counted (abs w) (g_x g);
  ok_bound : msum (λ m, Z.of_nat (length (mt_roots m)) + Z.of_nat (mt_incs m)) (g_x g) ≤ usize_max;
  ok_pins : covered (g_pins g) (g_x g);
  ok_fly : covered (g_fly g) (g_x g);
  ok_new_root m a n : m ∈ g_x g → (a, n) ∈ mt_new m → a ∈ mt_roots m;
}.

Record list_ok w g : Prop := {
  ok_todo : lseg (mem w) (sw_todo (g_sw g) !! 0%nat) (sw_todo (g_sw g)) None;
  ok_nodup : NoDup (sw_todo (g_sw g) ++ new_objs (g_x g));
  ok_before : sw_started (g_sw g) = false →
    head (heap w) = sw_todo (g_sw g) !! 0%nat ∧ sw_prev (g_sw g) = Heap.AtHead ∧
    sw_verdict (g_sw g) = Unknown ∧ sw_left (g_sw g) = length (sw_todo (g_sw g)) ∧
    sw_freed (g_sw g) = 0 ∧
    ∀ a, is_Some (mem w !! a) → a ∈ sw_todo (g_sw g) ++ new_objs (g_x g);
  ok_prev c : sw_prev (g_sw g) = Heap.AtNext c →
    is_Some (mem w !! c) ∧ c ∉ sw_todo (g_sw g) ++ new_objs (g_x g);
  ok_verdict a : sw_todo (g_sw g) !! 0%nat = Some a →
    (sw_verdict (g_sw g) = SeenWhite → color_of w a = Some White) ∧
    (sw_verdict (g_sw g) = Condemned → color_of w a = Some White ∧ roots_of a (g_x g) = 0);
  ok_next m a n : m ∈ g_x g → (a, n) ∈ mt_new m → next_at (mem w) a = Some n;
  ok_running : sw_started (g_sw g) = true → sw_calm (g_sw g) = false;
}.

Record bytes_ok w g : Prop := {
  ok_freed : 0 ≤ sw_freed (g_sw g);
  ok_counted : sw_freed (g_sw g) + counted_sizes (mem w) (concat (g_fly g)) (sw_todo (g_sw g))
    ≤ bytes_allocated (heap w);
  ok_total : bytes_allocated (heap w) + msum (λ m, mt_unc m + mt_bytes m) (g_x g) ≤ B;
  ok_nonneg m : m ∈ g_x g → 0 ≤ mt_unc m ∧ 0 ≤ mt_bytes m;
  ok_unc i m l a : g_x g !! i = Some m → g_fly g !! i = Some l → a ∈ l →
    l = [a] ∧ size_at (mem w) a = mt_unc m;
}.

(** Without a sweep nothing is marked and nothing is freed, and the byte counter is
    exact. *)
Record calm_ok w g : Prop := {
  ok_exact : bytes_allocated (heap w) + msum mt_unc (g_x g) = total_size (mem w);
  ok_budget : total_size (mem w) + msum mt_bytes (g_x g) = B;
  ok_white a b : mem w !! a = Some b → box_color b = White;
}.

Record sinv w g : Prop := {
  sv_phase : GcPhase_from (phase (heap w)) ≠ Marking;
  sv_options : options (heap w) = o;
  sv_threshold : current_threshold (heap w) = sw_threshold (g_sw g);
  sv_turns : turns g ≤ T;
  sv_objects : objects_ok w g;
  sv_roots : roots_ok w g;
  sv_list : list_ok w g;
  sv_bytes : bytes_ok w g;
  sv_queue : gray_queue (heap w) = [];
  sv_busy : n_busy_marking (heap w) = usize_wrap (msum (λ m, Z.of_nat (mt_busy m)) (g_x g));
  sv_calm : sw_calm (g_sw g) = true → calm_ok w g;
}.

(** ** One action *)

(** What no action changes, and what only the sweep changes. *)
Definition same_env w w' : Prop :=
  tls w' = tls w ∧ ctxs w' = ctxs w ∧ running w' = running w ∧ strong w' = strong w ∧
  bg_thread (heap w') = bg_thread (heap w).

Definition calm_step w g w' g' : Prop :=
  sw_calm (g_sw g) = true →
  sw_calm (g_sw g') = true ∧ sw_threshold (g_sw g') = sw_threshold (g_sw g) ∧
  dropped w' = dropped w ∧ ∃ ex, sw_todo (g_sw g') = ex ++ sw_todo (g_sw g).

Record sstep w g w' g' : Prop := {
  st_secure a : secure w g a → secure w' g' a;
  st_box a b : mem w !! a = Some b →
    (∃ b', mem w' !! a = Some b' ∧ vtable (header b') = vtable (header b) ∧ data b' = data b) ∨
    (¬ secure w g a ∧ roots_of a (g_x g) = 0 ∧ a ∉ sw_todo (g_sw g'));
  st_cell c v : cells w !! c = Some v → ∃ v', cells w' !! c = Some v' ∧
    (v' = v ∨ ∀ t a, RMark t a ∈ owned v' → secure w' g' a ∧ valid w' t a);
  st_turns : turns g' ≤ turns g;
  st_head : head (heap w') = head (heap w) ∨ turns g' < turns g;
  st_env : same_env w w';
  st_calm : calm_step w g w' g';
}.

Lemma calm_same w g w' g' : g_sw g' = g_sw g → dropped w' = dropped w → calm_step w g w' g'.
Proof. intros E Hd Hc. rewrite E. do 3 (split; [done|]). by exists []. Qed.

Lemma calm_running w g w' g' : list_ok w g → sw_started (g_sw g) = true → calm_step w g w' g'.
Proof. intros Hl Hs Hc. by rewrite (ok_running _ _ Hl Hs) in Hc. Qed.

Lemma secure_valid w g w' g' t a : sstep w g w' g' → secure w g a → valid w t a → valid w' t a.
Proof.
  intros Hs Ha (b & Hb & <-). destruct (st_box _ _ _ _ Hs _ _ Hb) as [(b' & Hb' & Hv & _)|(Hn & _)];
    [|done]. exists b'. split; [done|]. unfold box_ty. by rewrite Hv.
Qed.

Lemma good_step w g w' g' r : sstep w g w' g' → good w g r → good w' g' r.
Proof.
  intros Hs. destruct r as [t a|c]; cbn.
  - intros [Ha Hv]. split; [by eapply st_secure|by eapply secure_valid].
  - intros (v & Hv & Hown). destruct (st_cell _ _ _ _ Hs _ _ Hv) as (v' & Hv' & [->|Hnew]).
    + exists v. split; [done|]. intros t a Hin. destruct (Hown _ _ Hin).
      split; [by eapply st_secure|by eapply secure_valid].
    + by exists v'.
Qed.

Lemma all_good_step w g w' g' rs :
  sstep w g w' g' → Forall (good w g) rs → Forall (good w' g') rs.
Proof. intros Hs Hall. eapply Forall_impl; [exact Hall|]. intros r. by apply good_step. Qed.

#[export] Instance sstep_refl_on w g : Reflexive (λ s s', sstep s.1 s.2 s'.1 s'.2).
Proof.
  intros [w1 g1]. split; [done| |by eauto|done|by left|done|by apply calm_same].
  intros a b Hb. left. by exists b.
Qed.

(** The alive blocks of the new state were alive in the old one, or are new. *)
Definition alive_back w g w' g' : Prop :=
  ∀ a b', mem w' !! a = Some b' → alive w' g' a b' →
    mem w !! a = None ∨
    ∃ b, mem w !! a = Some b ∧ vtable (header b') = vtable (header b) ∧ data b' = data b ∧
      alive w g a b.

Lemma alive_step w g w' g' :
  objects_ok w g → sstep w g w' g' → wf_mem (mem w') → alive_back w g w' g' →
  (∀ a b', mem w !! a = None → mem w' !! a = Some b' →
     has_type (data b') (box_ty b') = true ∧ Forall (good w' g') (owned (data b'))) →
  (∀ c v, cells w' !! c = Some v → ∃ t, cell_type t ∧ is_copy t = true ∧ has_type v t = true) →
  objects_ok w' g'.
Proof.
  intros [Hm Hal Hc] Hs Hm' Hold Hnew Hc'. split; [done| |done].
  intros a b' Hb' Ha. destruct (Hold _ _ Hb' Ha) as [Hn|(b & Hb & Hv & Hd & Hab)]; [by eapply Hnew|].
  destruct (Hal _ _ Hb Hab) as [Hty Hg]. unfold box_ty. rewrite Hv, Hd.
  split; [exact Hty|by eapply all_good_step].
Qed.

(** No block is new. *)
Lemma alive_step_old w g w' g' :
  objects_ok w g → sstep w g w' g' → wf_mem (mem w') → alive_back w g w' g' →
  (∀ a, mem w !! a = None → mem w' !! a = None) →
  (∀ c v, cells w' !! c = Some v → ∃ t, cell_type t ∧ is_copy t = true ∧ has_type v t = true) →
  objects_ok w' g'.
Proof.
  intros Hob Hs Hm Hback Hold Hc. apply (alive_step w g); [done..| |done].
  intros a b' Hn Hb'. rewrite (Hold _ Hn) in Hb'. done.
Qed.

(** ** Sums and coverings *)

Lemma counted_sizes_cons m U a l :
  counted_sizes m U (a :: l) = (if bool_decide (a ∈ U) then 0 else size_at m a) + counted_sizes m U l.
Proof. unfold counted_sizes. cbn. by case_bool_decide. Qed.

Lemma counted_sizes_ext m m' U U' l :
  (∀ a, a ∈ l → size_at m' a = size_at m a) → (∀ a, a ∈ l → a ∈ U' ↔ a ∈ U) →
  counted_sizes m' U' l = counted_sizes m U l.
Proof.
  induction l as [|a l IH]; intros Hs HU; [done|]. rewrite !counted_sizes_cons.
  rewrite (Hs a) by by left. rewrite IH by (intros; (apply Hs || apply HU); by right).
  assert (bool_decide (a ∈ U') = bool_decide (a ∈ U)) as ->; [|done].
  apply bool_decide_ext, HU. by left.
Qed.

(** One more object is counted. *)
Lemma counted_sizes_count m U U' l a :
  0 ≤ size_at m a → NoDup l → (∀ y, y ∈ U → y = a ∨ y ∈ U') → (∀ y, y ∈ U' → y ∈ U) →
  counted_sizes m U' l ≤ counted_sizes m U l + size_at m a.
Proof.
  intros Ha Hnd HU HU'. induction Hnd as [|y l Hy Hnd IH]; [unfold counted_sizes; cbn; lia|].
  rewrite !counted_sizes_cons. destruct (decide (y = a)) as [->|Hne].
  - rewrite (counted_sizes_ext m m U U' l); [|done|].
    + repeat case_bool_decide; lia.
    + intros z Hz. split; [apply HU'|]. intros Hin. destruct (HU z Hin) as [->|?]; done.
  - assert (bool_decide (y ∈ U') = bool_decide (y ∈ U)) as ->; [|lia].
    apply bool_decide_ext. split; [apply HU'|]. intros Hin. by destruct (HU y Hin).
Qed.

Lemma counted_sizes_nonneg m U l : (∀ a, 0 ≤ size_at m a) → 0 ≤ counted_sizes m U l.
Proof.
  intros Hm. induction l as [|a l IH]; [done|]. rewrite counted_sizes_cons.
  pose proof (Hm a). case_bool_decide; lia.
Qed.

Lemma wf_size_at m a : wf_mem m → 0 ≤ size_at m a.
Proof.
  intros Hm. unfold size_at. destruct (m !! a) as [b|] eqn:Hb; [|done].
  unfold box_size. rewrite (wf_vtable _ Hm _ _ Hb). apply layout_size_usize.
Qed.

Lemma covered_root L x a : covered L x → a ∈ concat L → 0 < roots_of a x.
Proof.
  intros HL (i & l & Hi & Ha)%elem_of_held. destruct (HL _ _ _ Hi Ha) as (m & Hm & Hr).
  by apply (thread_root Hm).
Qed.

Lemma covered_thread L x i m m' :
  covered L x → x !! i = Some m → (∀ l a, L !! i = Some l → a ∈ l → a ∈ mt_roots m') →
  covered L (<[i := m']> x).
Proof.
  intros HL Hx Hm' j l a Hj Ha. destruct (decide (i = j)) as [<-|Hne].
  - exists m'. rewrite list_lookup_insert_eq by (by eapply lookup_lt_Some). split; [done|by eapply Hm'].
  - rewrite list_lookup_insert_ne by done. by eapply HL.
Qed.

(** Thread [i] covers what it covered, as long as it keeps its roots. *)
Lemma covered_keep L x i m m' :
  covered L x → x !! i = Some m → (∀ a, a ∈ mt_roots m → a ∈ mt_roots m') →
  covered L (<[i := m']> x).
Proof.
  intros HL Hx Hm'. apply (covered_thread L x i m m'); [done..|]. intros l a Hl Ha.
  destruct (HL _ _ _ Hl Ha) as (m0 & Hm0 & Hin). simplify_eq. by apply Hm'.
Qed.

Lemma covered_insert L x i m l' :
  covered L x → x !! i = Some m → (∀ a, a ∈ l' → a ∈ mt_roots m) → covered (<[i := l']> L) x.
Proof.
  intros HL Hx Hl j l a Hj Ha. destruct (decide (i = j)) as [<-|Hne].
  - destruct (decide (i < length L)%nat) as [?|?].
    + rewrite list_lookup_insert_eq in Hj by done. simplify_eq. exists m. auto.
    + rewrite list_insert_ge in Hj by lia. by eapply HL.
  - rewrite list_lookup_insert_ne in Hj by done. by eapply HL.
Qed.

Lemma alloc_secure w g a : secure w g a → is_Some (mem w !! a).
Proof. by intros [? _]. Qed.

(** A root leads to a block. *)
Lemma root_block w g a :
  roots_ok w g → 0 < roots_of a (g_x g) →
  ∃ b, mem w !! a = Some b ∧ root_count (header b) = roots_of a (g_x g).
Proof.
  intros Hr Ha. destruct (counted_object _ _ _ (ok_counts _ _ Hr) Ha) as (ob & Hob & Hn).
  cbn in Hob. rewrite lookup_fmap in Hob. apply fmap_Some in Hob as (b & Hb & ->). by exists b.
Qed.

Lemma block_roots w g a b :
  roots_ok w g → mem w !! a = Some b → root_count (header b) = roots_of a (g_x g).
Proof.
  intros Hr Hb. pose proof (ok_counts _ _ Hr a) as Hc. cbn in Hc.
  by rewrite lookup_fmap, Hb in Hc.
Qed.

(** The first object that the sweep has not passed. *)
Lemma todo_head w g a l :
  list_ok w g → sw_todo (g_sw g) = a :: l →
  ∃ b, mem w !! a = Some b ∧ lseg (mem w) (next (header b)) l None ∧
    next (header b) = l !! 0%nat.
Proof.
  intros Hl Ht. pose proof (ok_todo _ _ Hl) as Hs. rewrite Ht in Hs. cbn in Hs.
  destruct Hs as (_ & b & Hb & Hs). exists b. split; [done|]. split; [done|].
  destruct l; [done|]. by destruct Hs.
Qed.

Lemma todo_block w g a : list_ok w g → a ∈ sw_todo (g_sw g) → is_Some (mem w !! a).
Proof. intros Hl Ha. by eapply lseg_is_Some; [apply Hl|]. Qed.

Lemma new_block w g m a n :
  list_ok w g → m ∈ g_x g → (a, n) ∈ mt_new m → is_Some (mem w !! a).
Proof.
  intros Hl Hm Ha. pose proof (ok_next _ _ Hl _ _ _ Hm Ha) as Hn. unfold next_at in Hn.
  by destruct (mem w !! a).
Qed.

Lemma new_objs_thread x a : a ∈ new_objs x → ∃ m n, m ∈ x ∧ (a, n) ∈ mt_new m.
Proof.
  unfold new_objs. rewrite list_elem_of_In, in_concat. intros (l & Hl & Ha).
  apply list_elem_of_In, list_elem_of_fmap in Hl as (m & -> & Hm).
  apply list_elem_of_In, list_elem_of_fmap in Ha as ([a' n] & -> & Ha). by exists m, n.
Qed.

Lemma new_objs_block w g a : list_ok w g → a ∈ new_objs (g_x g) → is_Some (mem w !! a).
Proof. intros Hl (m & n & Hm & Ha)%new_objs_thread. by eapply new_block. Qed.

(** ** Client actions *)

(** What the sweep will free: a block that it has not passed and nobody may use. *)
Definition doomed w g (a : loc) : Prop :=
  a ∈ sw_todo (g_sw g) ∧ ∃ b, mem w !! a = Some b ∧ ¬ alive w g a b.

Record schange w g w' g' : Prop := {
  sc_step : sstep w g w' g';
  sc_inv : sinv w' g';
  sc_back : alive_back w g w' g';
  sc_todo a : doomed w g a → a ∈ sw_todo (g_sw g') ∨ a ∈ dropped w';
  sc_dropped a : a ∈ dropped w → a ∈ dropped w';
}.

(** The blocks are the same, and so is what the sweep knows of them. *)
Lemma back_same w g w' g' :
  mem w' = mem w → (∀ a b, alive w' g' a b → alive w g a b) → alive_back w g w' g'.
Proof. intros Hm Ha a b Hb Hal. right. exists b. rewrite Hm in Hb. auto. Qed.

Lemma doomed_schange w g w' g' a :
  schange w g w' g' → doomed w g a → doomed w' g' a ∨ a ∈ dropped w'.
Proof.
  intros Hch Hd. destruct (sc_todo _ _ _ _ Hch _ Hd) as [Ht|?]; [left|by right].
  destruct Hd as (_ & b & Hb & Hn). split; [done|].
  destruct (st_box _ _ _ _ (sc_step _ _ _ _ Hch) _ _ Hb) as [(b' & Hb' & _)|(_ & _ & ?)]; [|done].
  exists b'. split; [done|]. intros Ha.
  destruct (sc_back _ _ _ _ Hch _ _ Hb' Ha) as [?|(b0 & Hb0 & _ & _ & Ha0)]; [congruence|].
  assert (b0 = b) as -> by congruence. done.
Qed.

(** An action that frees nothing and passes nothing. *)
Lemma schange_intro w g w' g' :
  sstep w g w' g' → sinv w' g' → alive_back w g w' g' →
  (∀ a, a ∈ sw_todo (g_sw g) → a ∈ sw_todo (g_sw g')) → dropped w' = dropped w →
  schange w g w' g'.
Proof. intros Hs Hi Hb Ht Hd. split; [done..| |by rewrite Hd]. intros a [? _]. left. auto. Qed.

Lemma same_roots x i m m' a :
  x !! i = Some m → mt_roots m' = mt_roots m → roots_of a (<[i := m']> x) = roots_of a x.
Proof. intros Hx Hr. unfold roots_of. apply (same_sum Hx). by rewrite Hr. Qed.

(** *** Actions on the heap structure *)

(** A thread whose roots stay the same. *)
Lemma thread_roots_ok w g i m m' L :
  roots_ok w g → g_x g !! i = Some m → mt_roots m' = mt_roots m → mt_incs m' = mt_incs m →
  (∀ a n, (a, n) ∈ mt_new m' → a ∈ mt_roots m) → covered L (g_x g) →
  roots_ok w (with_fly (with_threads g (<[i := m']> (g_x g))) L).
Proof.
  intros [Hc Hbd Hp Hf Hn] Hx Er Ei Hnew HL.
  assert (∀ a, a ∈ mt_roots m → a ∈ mt_roots m') as Hkeep by by rewrite Er.
  split; cbn.
  - by apply (same_counted Hx).
  - by rewrite (same_sum Hx) by by rewrite Er, Ei.
  - by eapply covered_keep.
  - by eapply covered_keep.
  - intros m0 a n [->|Hm0]%(thread_elem Hx) Ha; [rewrite Er; by eapply Hnew|by eapply Hn].
Qed.

(** A thread enters or leaves the busy counter. *)
Lemma busy_schange w g i m m' nb :
  sinv w g → g_x g !! i = Some m → mt_roots m' = mt_roots m → mt_new m' = mt_new m →
  mt_unc m' = mt_unc m → mt_bytes m' = mt_bytes m → mt_incs m' = mt_incs m →
  nb = usize_wrap (msum (λ m, Z.of_nat (mt_busy m)) (g_x g) - Z.of_nat (mt_busy m) + Z.of_nat (mt_busy m')) →
  schange w g (set_heap w (set_n_busy_marking (heap w) nb)) (with_threads g (<[i := m']> (g_x g))).
Proof.
  intros [Hp Ho Ht HT Hob Hr Hl Hb Hq Hbz Hcm] Hx Er En Eu Eb Ei ->. pose proof (thread_in Hx) as Hin.
  assert (turns (with_threads g (<[i := m']> (g_x g))) = turns g) as Etu.
  { unfold turns. cbn. rewrite (same_sum Hx); [done|]. unfold pending. by rewrite En, Ei. }
  apply schange_intro;
    [split; [done| |by eauto|lia|by left|done|by apply calm_same]; intros a b Hb1; left; by exists b
    | |by apply back_same|done..].
  split; cbn; try done.
  - by rewrite Etu.
  - destruct Hob. by split.
  - apply (thread_roots_ok _ _ i m _ (g_fly g)); [by destruct Hr; split|done..| |apply Hr].
    intros a n Ha. rewrite En in Ha. by eapply (ok_new_root _ _ Hr).
  - destruct Hl as [H1 H2 H3 H4 H5 H6 H7]. split; cbn; rewrite ?(same_new Hx) by (by rewrite En); try done.
    + intros a Ha. rewrite (same_roots _ _ _ _ _ Hx) by done. by apply H5.
    + intros m0 a n [->|?]%(thread_elem Hx) Ha; [rewrite En in Ha; by eapply H6|by eapply H6].
  - destruct Hb as [H1 H2 H3 H4 H5]. split; cbn; try done.
    + by rewrite (same_sum Hx) by by rewrite Eu, Eb.
    + intros m0 [->|?]%(thread_elem Hx); [rewrite Eu, Eb|]; by apply H4.
    + intros j m0 l a Hj Hlj Ha. destruct (decide (i = j)) as [<-|Hne].
      * rewrite list_lookup_insert_eq in Hj by (by eapply lookup_lt_Some). simplify_eq.
        rewrite Eu. by eapply H5.
      * rewrite list_lookup_insert_ne in Hj by done. by eapply H5.
  - by rewrite (msum_insert _ _ _ _ _ Hx).
  - intros Hc. destruct (Hcm Hc) as [C1 C3 C2]. split; cbn; [by rewrite (same_sum Hx)..|done].
Qed.

(** The thread's object is counted. *)
Lemma count_schange w g i m :
  sinv w g → B ≤ usize_max → g_x g !! i = Some m →
  schange w g
    (set_heap w (set_bytes_allocated (heap w) (usize_fetch_add (bytes_allocated (heap w)) (mt_unc m))))
    (with_fly (with_threads g (<[i := mt_count m]> (g_x g))) (<[i := []]> (g_fly g))).
Proof.
  intros [Hp Ho Ht HT Hob Hr Hl Hb Hq Hbz Hcm] HB Hx. pose proof (thread_in Hx) as Hin.
  destruct Hb as [Hf0 Hco Hto Hnn Hu]. destruct (Hnn _ Hin) as [Hu0 Hb0].
  assert (mt_unc m + mt_bytes m ≤ msum (λ m, mt_unc m + mt_bytes m) (g_x g)) as Hle.
  { apply (msum_elem (λ m, mt_unc m + mt_bytes m)); [|done]. intros m0 Hm0. destruct (Hnn _ Hm0). lia. }
  assert (0 ≤ counted_sizes (mem w) (concat (g_fly g)) (sw_todo (g_sw g))) as Hc0
    by (apply counted_sizes_nonneg; intros; by apply wf_size_at, (ok_mem _ _ Hob)).
  rewrite usize_fetch_add_small by (unfold is_usize; lia).
  assert (counted_sizes (mem w) (concat (<[i := []]> (g_fly g))) (sw_todo (g_sw g)) ≤
    counted_sizes (mem w) (concat (g_fly g)) (sw_todo (g_sw g)) + mt_unc m) as Hcs.
  { destruct (g_fly g !! i) as [l|] eqn:Hi.
    2:{ rewrite list_insert_ge by by apply lookup_ge_None. lia. }
    destruct l as [|a l].
    { rewrite list_insert_id by done. lia. }
    destruct (Hu _ _ _ a Hx Hi ltac:(by left)) as [[= ->] <-].
    apply counted_sizes_count; [by apply wf_size_at, (ok_mem _ _ Hob)|..].
    - by apply (NoDup_app (sw_todo (g_sw g)) (new_objs (g_x g))), Hl.
    - intros y. rewrite (elem_of_held_insert _ _ _ [] _ Hi), (elem_of_held_split _ _ _ _ Hi).
      rewrite list_elem_of_singleton. naive_solver.
    - intros y. rewrite (elem_of_held_insert _ _ _ [] _ Hi), (elem_of_held_split _ _ _ _ Hi).
      intros [?%elem_of_nil|?]; [done|by right]. }
  assert (turns (with_fly (with_threads g (<[i := mt_count m]> (g_x g))) (<[i := []]> (g_fly g))) =
    turns g) as Etu by (unfold turns; cbn; by rewrite (same_sum Hx)).
  apply schange_intro;
    [split; [done| |by eauto|lia|by left|done|by apply calm_same]; intros a b Hb1; left; by exists b
    | |by apply back_same|done..].
  split; cbn; try done.
  - by rewrite Etu.
  - destruct Hob. by split.
  - apply (thread_roots_ok _ _ i m); [by destruct Hr; split|done..| |].
    + intros a n Ha. by eapply (ok_new_root _ _ Hr).
    + eapply covered_insert; [apply Hr|done|]. by intros a ?%elem_of_nil.
  - destruct Hl as [H1 H2 H3 H4 H5 H6 H7]. split; cbn; rewrite ?(same_new Hx) by done; try done.
    + intros a Ha. rewrite (same_roots _ _ _ _ _ Hx) by done. by apply H5.
    + intros m0 a n [->|?]%(thread_elem Hx) Ha; [by eapply H6|by eapply H6].
  - split; cbn; try done.
    + lia.
    + rewrite (msum_insert _ _ _ _ _ Hx). cbn. lia.
    + intros m0 [->|?]%(thread_elem Hx); [done|by apply Hnn].
    + intros j m0 l a Hj Hlj Ha. destruct (decide (i = j)) as [<-|Hne].
      * destruct (decide (i < length (g_fly g))%nat).
        -- rewrite list_lookup_insert_eq in Hlj by done. simplify_eq. by apply elem_of_nil in Ha.
        -- rewrite list_insert_ge in Hlj by lia. by apply lookup_lt_Some in Hlj.
      * rewrite list_lookup_insert_ne in Hj by done. rewrite list_lookup_insert_ne in Hlj by done. by eapply Hu.
  - by rewrite (same_sum Hx).
  - intros Hc. destruct (Hcm Hc) as [C1 C3 C2]. split; cbn; [|by rewrite (same_sum Hx)|done].
    rewrite (msum_insert _ _ _ _ _ Hx). cbn. lia.
Qed.

(** *** Changes of links *)

Lemma links_block w w' a b' :
  links_only w w' → mem w' !! a = Some b' → ∃ b, mem w !! a = Some b ∧ unlinked b' = unlinked b.
Proof.
  intros Hl Hb'. destruct (links_lookup _ _ _ _ (eq_sym (lo_mem _ _ Hl)) Hb') as (b & ? & ?).
  by exists b.
Qed.

Lemma links_wf_mem w w' : links_only w w' → wf_mem (mem w) → wf_mem (mem w').
Proof.
  intros Hl [Hv Hc]. split; intros a b' Hb'; destruct (links_block _ _ _ _ Hl Hb') as (b & Hb & Hu);
    apply unlinked_parts in Hu as (Ec & _ & Ev & _).
  - unfold box_ty. rewrite Ev. by apply (Hv a).
  - rewrite Ec. by apply (Hc a).
Qed.

Lemma links_size w w' a : links_only w w' → size_at (mem w') a = size_at (mem w) a.
Proof.
  intros Hl. unfold size_at. destruct (mem w !! a) as [b|] eqn:Hb.
  - destruct (links_lookup _ _ _ _ (lo_mem _ _ Hl) Hb) as (b' & -> & Hu).
    apply unlinked_parts in Hu as (_ & _ & Ev & _). unfold box_size. by rewrite Ev.
  - destruct (mem w' !! a) as [b'|] eqn:Hb'; [|done].
    destruct (links_block _ _ _ _ Hl Hb') as (b & ? & _). congruence.
Qed.

(** The sweep's ghost state knows the same objects as before. *)
Record same_secure g g' : Prop := {
  ss_pins : g_pins g' = g_pins g;
  ss_passed a : passed (g_sw g) a → passed (g_sw g') a;
}.

Lemma links_secure w w' g g' a :
  links_only w w' → same_secure g g' → secure w g a → secure w' g' a.
Proof.
  intros Hl [Ep Ht] [Ha Hor]. split; [by apply (links_is_Some w w')|].
  rewrite (links_nonwhite _ _ _ Hl), Ep. destruct Hor as [?|[?|?]]; auto.
Qed.

Lemma links_step w w' g g' :
  links_only w w' → same_secure g g' → turns g' ≤ turns g →
  head (heap w') = head (heap w) ∨ turns g' < turns g →
  same_env w w' → calm_step w g w' g' → sstep w g w' g'.
Proof.
  intros Hl Hs Ht Hh He Hc. split; [intros a; by apply links_secure| | |done..].
  - intros a b Hb. left. destruct (links_lookup _ _ _ _ (lo_mem _ _ Hl) Hb) as (b' & Hb' & Hu).
    apply unlinked_parts in Hu as (_ & _ & ? & ?). by exists b'.
  - intros c v Hv. exists v. rewrite (lo_cells _ _ Hl). by split; [|left].
Qed.

Lemma links_back w w' g g' :
  links_only w w' → (∀ a, secure w' g' a → secure w g a) →
  (sw_verdict (g_sw g') = Spared → ∀ a, sw_todo (g_sw g') !! 0%nat = Some a →
     sw_verdict (g_sw g) = Spared ∧ sw_todo (g_sw g) !! 0%nat = Some a) →
  alive_back w g w' g'.
Proof.
  intros Hl Hsec Hsp a b' Hb' Ha. destruct (links_block _ _ _ _ Hl Hb') as (b & Hb & Hu).
  apply unlinked_parts in Hu as (_ & Er & Ev & Ed). right. exists b. split; [done|].
  split; [done|]. split; [done|]. destruct Ha as [?|[?|[? ?]]].
  - left. by apply Hsec.
  - right. left. by rewrite <- Er.
  - right. right. by apply Hsp.
Qed.

Lemma links_objects w w' g g' :
  links_only w w' → sstep w g w' g' → objects_ok w g → alive_back w g w' g' → objects_ok w' g'.
Proof.
  intros Hl Hs Hob Hback. apply (alive_step_old w g); [done..| |done| |].
  - eapply links_wf_mem; [done|apply Hob].
  - intros a Ha. rewrite eq_None_not_Some, (links_is_Some _ _ _ Hl), Ha. by apply is_Some_None.
  - intros c v. rewrite (lo_cells _ _ Hl). apply Hob.
Qed.

Lemma links_calm w w' g g' :
  links_only w w' → bytes_allocated (heap w') = bytes_allocated (heap w) →
  msum mt_unc (g_x g') = msum mt_unc (g_x g) → msum mt_bytes (g_x g') = msum mt_bytes (g_x g) →
  calm_ok w g → calm_ok w' g'.
Proof.
  intros Hl Eb Eu Ey [C1 C3 C2].
  split; [by rewrite Eb, Eu, (links_total _ _ Hl)|by rewrite Ey, (links_total _ _ Hl)|].
  intros a b' Hb'. destruct (links_block _ _ _ _ Hl Hb') as (b & Hb & Hu).
  apply unlinked_parts in Hu as (Ec & _). unfold box_color. rewrite Ec. by apply (C2 a).
Qed.

(** The store to the link of a thread's new object. *)
Lemma relink_schange w g i m a n p :
  sinv w g → g_x g !! i = Some m → mt_new m = [(a, n)] →
  schange w g (relinked w a p) (with_threads g (<[i := mt_link m [(a, p)]]> (g_x g))).
Proof.
  intros [Hp Ho Ht HT Hob Hr Hl Hb Hq Hbz Hcm] Hx Hnew. pose proof (thread_in Hx) as Hin.
  assert ((mt_new (mt_link m [(a, p)])).*1 = (mt_new m).*1) as E1 by by rewrite Hnew.
  assert (links_only w (relinked w a p)) as Hlo.
  { split; try done. cbn. apply map_eq. intros y. rewrite !lookup_fmap, lookup_alter.
    case_decide; subst; [|done]. by destruct (mem w !! y). }
  assert (turns (with_threads g (<[i := mt_link m [(a, p)]]> (g_x g))) = turns g) as Etu.
  { unfold turns. cbn. rewrite (same_sum Hx); [done|]. unfold pending. cbn. by rewrite Hnew. }
  assert (a ∈ new_objs (g_x g)) as Hain by (apply (new_objs_elem _ i m); [done|rewrite Hnew; by left]).
  assert (a ∉ sw_todo (g_sw g)) as Hatodo.
  { pose proof (ok_nodup _ _ Hl) as (_ & Hd & _)%NoDup_app. intros ?. by eapply Hd. }
  assert (sstep w g (relinked w a p) (with_threads g (<[i := mt_link m [(a, p)]]> (g_x g)))) as Hst.
  { apply links_step; [done|by split|by rewrite Etu|by left|done|by apply calm_same]. }
  assert (alive_back w g (relinked w a p) (with_threads g (<[i := mt_link m [(a, p)]]> (g_x g)))) as Hback.
  { apply links_back; [done| |done]. intros y [Hy Hor].
    split; [by apply (links_is_Some w (relinked w a p))|].
    by rewrite (links_nonwhite _ _ _ Hlo) in Hor. }
  apply schange_intro; [done| |done..]. split; cbn; try done.
  - by rewrite Etu.
  - by apply (links_objects w _ g).
  - assert (roots_ok (relinked w a p) g) as Hr'.
    { destruct Hr. split; try done. by rewrite (links_abs _ _ Hlo). }
    apply (thread_roots_ok _ _ i m _ (g_fly g)); [done..| |apply Hr].
    intros a0 n0 [= -> ->]%list_elem_of_singleton. apply (ok_new_root _ _ Hr m a n); [done|].
    rewrite Hnew. by left.
  - destruct Hl as [H1 H2 H3 H4 H5 H6 H7]. split; cbn; rewrite ?(same_new Hx) by done; try done.
    + eapply lseg_frame; [|exact H1]. intros y Hy. apply relinked_next. by intros ->.
    + intros Hs. destruct (H3 Hs) as (? & ? & ? & ? & ? & Hall). do 5 (split; [done|]).
      intros y Hy. apply Hall. by apply (links_is_Some w (relinked w a p)).
    + intros c Hc. destruct (H4 _ Hc). split; [by apply (links_is_Some _ _ c Hlo)|done].
    + intros y Hy. rewrite (links_color _ _ _ Hlo), (same_roots _ _ _ _ _ Hx) by done. by apply H5.
    + intros m0 y k Hm0 Hy. apply list_elem_of_lookup in Hm0 as [j Hj].
      destruct (decide (i = j)) as [<-|Hne].
      * rewrite list_lookup_insert_eq in Hj by (by eapply lookup_lt_Some). simplify_eq.
        apply list_elem_of_singleton in Hy. simplify_eq.
        assert (next_at (mem w) a = Some n) as Hna by (apply (H6 m); [done|rewrite Hnew; by left]).
        unfold next_at in *. cbn. rewrite lookup_alter_eq. by destruct (mem w !! a).
      * rewrite list_lookup_insert_ne in Hj by done.
        assert (m0 ∈ g_x g) as Hm0 by by eapply list_elem_of_lookup_2.
        assert (y ≠ a) as Hya; [|rewrite <- (H6 _ _ _ Hm0 Hy); by apply relinked_next]. intros ->.
        apply NoDup_app in H2 as (_ & _ & H2).
        apply (new_objs_other (g_x g) i m j m0 a); try done; [rewrite Hnew; by left|].
        apply list_elem_of_fmap. by exists (a, k).
  - destruct Hb as [H1 H2 H3 H4 H5]. split; cbn; try done.
    + rewrite (counted_sizes_ext (mem w) _ (concat (g_fly g))); [done| |done].
      intros; by apply (links_size w (relinked w a p)).
    + by rewrite (same_sum Hx).
    + intros m0 [->|?]%(thread_elem Hx); [by apply (H4 m)|by apply H4].
    + intros j m0 l y Hj Hlj Hy.
      pose proof (links_size _ _ y Hlo) as Hsz. cbn in Hsz. rewrite Hsz.
      destruct (decide (i = j)) as [<-|Hne].
      * rewrite list_lookup_insert_eq in Hj by (by eapply lookup_lt_Some). simplify_eq. by eapply (H5 i m).
      * rewrite list_lookup_insert_ne in Hj by done. by eapply H5.
  - by rewrite (same_sum Hx).
  - intros Hc. apply (links_calm w _ g); [done|done|by cbn; rewrite (same_sum Hx)..|by apply Hcm].
Qed.

(** Until the sweep has read the head, a new object is one it will come to. *)
Definition sw_push (sw : sweeper) (a : loc) : sweeper :=
  if sw_started sw then sw
  else mkSweeper false (sw_prev sw) (a :: sw_todo sw) (S (sw_left sw)) (sw_freed sw)
         (sw_verdict sw) (sw_threshold sw) (sw_calm sw).

Lemma sw_push_same sw a :
  sw_started (sw_push sw a) = sw_started sw ∧ sw_prev (sw_push sw a) = sw_prev sw ∧
  sw_freed (sw_push sw a) = sw_freed sw ∧ sw_verdict (sw_push sw a) = sw_verdict sw ∧
  sw_threshold (sw_push sw a) = sw_threshold sw ∧ sw_calm (sw_push sw a) = sw_calm sw.
Proof. unfold sw_push. destruct sw as [[] ? ? ? ? ? ? ?]; done. Qed.

Lemma sw_push_passed sw a y : passed (sw_push sw a) y ↔ passed sw y.
Proof.
  unfold passed, sw_push. destruct (sw_started sw) eqn:E; cbn; rewrite ?E; naive_solver.
Qed.

(** The successful compare-exchange of the head. *)
Lemma push_schange w g i m a :
  sinv w g → g_x g !! i = Some m → mt_new m = [(a, head (heap w))] →
  g_fly g !! i = Some [a] →
  schange w g (with_head w (Some a))
    (with_sw (with_threads g (<[i := mt_link m []]> (g_x g))) (sw_push (g_sw g) a)).
Proof.
  intros [Hp Ho Ht HT Hob Hr Hl Hb Hq Hbz Hcm] Hx Hnew Hfly. pose proof (thread_in Hx) as Hin.
  set (w' := with_head w (Some a)). set (x' := <[i := mt_link m []]> (g_x g)).
  set (g' := with_sw (with_threads g x') (sw_push (g_sw g) a)).
  destruct (sw_push_same (g_sw g) a) as (Es & Ev0 & Ef & Ev & Eth & Ec).
  change (sw_push (g_sw g) a) with (g_sw g') in Es, Ev0, Ef, Ev, Eth, Ec.
  assert (links_only w w') as Hlo by by split.
  assert (msum pending x' = msum pending (g_x g) - 1) as Ep.
  { unfold x'. rewrite (msum_insert _ _ _ _ _ Hx). unfold pending at 2 3. rewrite Hnew. cbn. lia. }
  assert (turns g' < turns g) as Etu.
  { unfold turns, g', sw_push. cbn. destruct (sw_started (g_sw g)); cbn; lia. }
  destruct (new_objs_insert _ i m (mt_link m []) Hx) as (rest & Hpm & Hpm').
  rewrite Hnew in Hpm. cbn [mt_link mt_new fmap list_fmap fst app] in Hpm, Hpm'. fold x' in Hpm'.
  assert (same_secure g g') as Hss.
  { split; [done|]. intros y. apply sw_push_passed. }
  assert (calm_step w g w' g') as Hcs.
  { intros Hc. rewrite Ec, Eth. do 3 (split; [done|]). unfold g', sw_push. cbn.
    destruct (sw_started (g_sw g)); [by exists []|by exists [a]]. }
  assert (sstep w g w' g') as Hst by (apply links_step; [done|done|lia|by right|done|done]).
  assert (∀ y, secure w' g' y → secure w g y) as Hback.
  { intros y [Hy Hor]. split; [done|]. destruct Hor as [?|[?%sw_push_passed|?]]; auto. }
  assert (alive_back w g w' g') as Hbk.
  { apply links_back; [done..|]. rewrite Ev. intros Hsp y.
    unfold g', sw_push. cbn. destruct (sw_started (g_sw g)) eqn:E; [done|].
    destruct (ok_before _ _ Hl E) as (_ & _ & Hv & _). by rewrite Hv in Hsp. }
  apply schange_intro; [done| |done| |done].
  2:{ intros y Hy. unfold g', sw_push. cbn. destruct (sw_started (g_sw g)); [done|by right]. }
  split; try done.
  - by rewrite Eth.
  - lia.
  - by apply (links_objects w _ g).
  - assert (roots_ok w g) as Hr' by done. unfold g'.
    destruct (thread_roots_ok w g i m (mt_link m []) (g_fly g)) as [R1 R2 R3 R4 R5];
      [done..|by intros ? ? ?%elem_of_nil|apply Hr|]. by split.
  - destruct Hl as [H1 H2 H3 H4 H5 H6 H7].
    assert (next_at (mem w) a = Some (head (heap w))) as Hna
      by (apply (H6 m); [done|rewrite Hnew; by left]).
    assert (sw_todo (g_sw g') ++ new_objs x' ≡ₚ
      if sw_started (g_sw g) then sw_todo (g_sw g) ++ rest else sw_todo (g_sw g) ++ new_objs (g_x g)) as Hperm.
    { unfold g', sw_push. cbn. destruct (sw_started (g_sw g)); cbn; rewrite Hpm'; [done|].
      rewrite Hpm. by rewrite Permutation_middle. }
    assert (∀ y, y ∈ sw_todo (g_sw g') ++ new_objs x' → y ∈ sw_todo (g_sw g) ++ new_objs (g_x g)) as Hsub.
    { intros y. rewrite Hperm. destruct (sw_started _); [|done]. rewrite Hpm, !elem_of_app, elem_of_cons.
      naive_solver. }
    split.
    + unfold g', sw_push. cbn. destruct (sw_started (g_sw g)) eqn:E; [done|]. cbn. split; [done|].
      unfold next_at in Hna. destruct (mem w !! a) as [b|]; [|done]. cbn in Hna. simplify_eq.
      exists b. split; [done|]. destruct (H3 eq_refl) as (Hh & _). rewrite Hna, Hh. exact H1.
    + change (NoDup (sw_todo (g_sw g') ++ new_objs x')). rewrite Hperm. rewrite Hpm in H2.
      destruct (sw_started _); [|by rewrite Hpm].
      rewrite <- Permutation_middle in H2. by apply NoDup_cons in H2 as [_ ?].
    + rewrite Es, Ev0, Ev. intros E. destruct (H3 E) as (Hh & Hpv & Hv & Hlen & Hfr0 & Hall).
      unfold g', sw_push. cbn. rewrite E. cbn. split; [done|]. split; [done|]. split; [done|].
      split; [by rewrite Hlen|]. split; [done|]. intros y Hy. specialize (Hall y Hy). fold x'.
      change (y ∈ (a :: sw_todo (g_sw g)) ++ new_objs x'). rewrite Hpm'.
      rewrite Hpm, !elem_of_app, !elem_of_cons in *. naive_solver.
    + intros c Hc. rewrite Ev0 in Hc. destruct (H4 _ Hc) as [? Hnin]. split; [done|]. intros Hc2. by apply Hnin, Hsub.
    + intros y Hy. rewrite Ev. unfold g', sw_push in Hy. cbn in Hy.
      destruct (sw_started (g_sw g)) eqn:E.
      * change (roots_of y (g_x g')) with (roots_of y x'). unfold x'.
        rewrite (same_roots _ _ _ _ _ Hx) by done. by apply H5.
      * destruct (H3 eq_refl) as (_ & _ & -> & _). done.
    + intros m0 y n [->|?]%(thread_elem Hx); [by intros ?%elem_of_nil|by eapply H6].
    + by rewrite Es, Ec.
  - destruct Hb as [H1 H2 H3 H4 H5].
    split; try rewrite Ef; try done.
    + unfold g', sw_push. cbn. destruct (sw_started (g_sw g)); [done|]. cbn.
      rewrite counted_sizes_cons, bool_decide_eq_true_2; [lia|].
      apply elem_of_held. exists i, [a]. split; [done|by left].
    + cbn. unfold x'. by rewrite (same_sum Hx).
    + intros m0 [->|?]%(thread_elem Hx); [by apply (H4 m)|by apply H4].
    + intros j m0 l y Hj Hlj Hy. cbn in Hj. unfold x' in Hj. destruct (decide (i = j)) as [<-|Hne].
      * rewrite list_lookup_insert_eq in Hj by (by eapply lookup_lt_Some). simplify_eq. by eapply (H5 i m).
      * rewrite list_lookup_insert_ne in Hj by done. by eapply H5.
  - cbn. unfold x'. by rewrite (same_sum Hx).
  - rewrite Ec. intros Hc. apply (links_calm w w' g); [done|done|..|by apply Hcm];
      cbn; unfold x'; by rewrite (same_sum Hx).
Qed.

(** *** Allocation *)

Definition pin_new (pin : bool) (a : loc) (ps : list loc) : list loc := if pin then a :: ps else ps.

Section alloc.
Variables (w : world) (g : ghost) (i : nat) (m : mthread) (t : ty) (d : val) (n : nat).
Variables (pin : bool) (ps : list loc).
Hypothesis Hinv : sinv w g.
Hypothesis Hx : g_x g !! i = Some m.
Hypothesis Hps : g_pins g !! i = Some ps.
Hypothesis Hfl : g_fly g !! i = Some [].
Hypothesis Hrest : mt_new m = [] ∧ mt_unc m = 0 ∧ mt_incs m = S n.
Hypothesis Hsz : layout_size t ≤ mt_bytes m.
Hypothesis Hty : has_type d t = true.
Hypothesis Hgood : Forall (good w g) (owned d).

Let a : loc := malloc (dom (mem w)).
Let w' : world := set_mem w (<[a := GcBox_init t d]> (mem w)).
Let m' : mthread := mt_alloc m a (layout_size t) n.
Let g' : ghost :=
  mkGhost (g_sw g) (<[i := m']> (g_x g)) (<[i := pin_new pin a ps]> (g_pins g)) (<[i := [a]]> (g_fly g)).

Lemma box_appeared : appeared w w' a t d.
Proof.
  split; [apply not_elem_of_dom, malloc_fresh|by exists None|done..].
Qed.

Lemma box_other y : y ≠ a → mem w' !! y = mem w !! y.
Proof. intros Hy. cbn. by rewrite lookup_insert_ne. Qed.

Lemma box_known y : is_Some (mem w !! y) → y ≠ a.
Proof. intros [b Hb] ->. pose proof (ap_fresh _ _ _ _ _ box_appeared). congruence. Qed.

Lemma box_pins y : y ∈ concat (g_pins g') → y = a ∨ y ∈ concat (g_pins g).
Proof.
  unfold g'. cbn. rewrite (elem_of_held_insert _ _ _ _ _ Hps), (elem_of_held_split _ _ _ _ Hps).
  unfold pin_new. destruct pin; rewrite ?elem_of_cons; naive_solver.
Qed.

Lemma box_secure y : secure w g y → secure w' g' y.
Proof.
  intros [Hy Hor]. pose proof (box_known _ Hy) as Hne. split; [by rewrite box_other|].
  rewrite (appeared_nonwhite _ _ _ _ _ _ box_appeared). destruct Hor as [?|[?|Hin]]; auto.
  right. right. cbn. rewrite (elem_of_held_insert _ _ _ _ _ Hps).
  apply (elem_of_held_split _ _ _ _ Hps) in Hin as [?|?]; [left|by right].
  unfold pin_new. destruct pin; [by right|done].
Qed.

Lemma box_unsecure y : y ≠ a → secure w' g' y → secure w g y.
Proof.
  intros Hne [Hy Hor]. rewrite box_other in Hy by done. split; [done|].
  rewrite (appeared_nonwhite _ _ _ _ _ _ box_appeared) in Hor.
  destruct Hor as [?|[?|Hin]]; [by left|by right; left|]. right. right.
  by apply box_pins in Hin as [?|?].
Qed.

Lemma box_turns : turns g' = turns g.
Proof.
  destruct Hrest as (E1 & _ & E3). unfold turns. cbn. rewrite (msum_insert _ _ _ _ _ Hx).
  unfold pending at 2 3. rewrite E1, E3. cbn. lia.
Qed.

Lemma box_step : sstep w g w' g'.
Proof.
  split; [apply box_secure| |by eauto|by rewrite box_turns|by left|done|by apply calm_same].
  intros y b Hb. left. exists b. rewrite box_other by (apply box_known; eauto). done.
Qed.

Lemma box_back : alive_back w g w' g'.
Proof.
  intros y b' Hb' Ha. destruct (decide (y = a)) as [->|Hne].
  - left. apply (ap_fresh _ _ _ _ _ box_appeared).
  - right. rewrite box_other in Hb' by done. exists b'. do 3 (split; [done|]).
    destruct Ha as [Hs|?]; [left; by apply box_unsecure|by right].
Qed.

Lemma box_objects : objects_ok w' g'.
Proof.
  pose proof (sv_objects _ _ Hinv) as Hob.
  apply (alive_step w g); [done|apply box_step| |apply box_back| |apply Hob].
  - eapply appeared_wf_mem; [apply box_appeared|apply Hob].
  - intros y b' Hn Hb'. destruct (decide (y = a)) as [->|Hne]; [|rewrite box_other in Hb' by done; congruence].
    cbn in Hb'. rewrite lookup_insert_eq in Hb'. simplify_eq. split; [done|].
    eapply all_good_step; [apply box_step|done].
Qed.

Lemma box_roots : roots_ok w' g'.
Proof.
  destruct (sv_roots _ _ Hinv) as [H1 H2 H3 H4 H5]. destruct Hrest as (E1 & E2 & E3).
  assert (∀ y, y ∈ mt_roots m → y ∈ mt_roots m') as Hkeep by (intros y; by right).
  assert (m' ∈ <[i := m']> (g_x g)) as Hin' by
    (apply (list_elem_of_lookup_2 _ i), list_lookup_insert_eq; by eapply lookup_lt_Some).
  assert (<[i := m']> (g_x g) !! i = Some m') as Hx'
    by (apply list_lookup_insert_eq; by eapply lookup_lt_Some).
  split; cbn.
  - rewrite (appeared_abs _ _ _ _ _ box_appeared). apply (counted_alloc _ _ _ m); try done.
    cbn. by rewrite lookup_fmap, (ap_fresh _ _ _ _ _ box_appeared).
  - rewrite (msum_insert _ _ _ _ _ Hx). cbn. rewrite E3. lia.
  - apply (covered_insert _ _ i m'); [by eapply covered_keep|done|].
    intros y. unfold pin_new. destruct pin.
    + intros [->|Hy]%elem_of_cons; [by left|]. right.
      destruct (H3 _ _ _ Hps Hy) as (m0 & Hm0 & ?). by simplify_eq.
    + intros Hy. right. destruct (H3 _ _ _ Hps Hy) as (m0 & Hm0 & ?). by simplify_eq.
  - apply (covered_insert _ _ i m'); [by eapply covered_keep|done|].
    intros y ->%list_elem_of_singleton. by left.
  - intros m0 y k [->|Hm0]%(thread_elem Hx); [|by eapply H5].
    cbn. intros [= -> ->]%list_elem_of_singleton. by left.
Qed.

Lemma box_list : list_ok w' g'.
Proof.
  pose proof (sv_list _ _ Hinv) as Hl. destruct Hrest as (E1 & E2 & E3).
  pose proof (ap_fresh _ _ _ _ _ box_appeared) as Ha.
  destruct (new_objs_insert _ i m m' Hx) as (rest & Hpm & Hpm').
  rewrite E1 in Hpm. change ((mt_new m').*1) with [a] in Hpm'. cbn [fmap list_fmap app] in Hpm, Hpm'.
  assert (a ∉ sw_todo (g_sw g) ++ new_objs (g_x g)) as Hnin.
  { intros [Hin|Hin]%elem_of_app;
      [destruct (todo_block _ _ _ Hl Hin)|destruct (new_objs_block _ _ _ Hl Hin)]; congruence. }
  assert (sw_todo (g_sw g) ++ new_objs (<[i := m']> (g_x g)) ≡ₚ
    a :: sw_todo (g_sw g) ++ new_objs (g_x g)) as Hperm
    by by rewrite Hpm', Hpm, Permutation_middle.
  destruct Hl as [H1 H2 H3 H4 H5 H6 H7]. split; cbn.
  - by apply lseg_insert.
  - rewrite Hperm. by apply NoDup_cons.
  - intros Hs. destruct (H3 Hs) as (? & ? & ? & ? & ? & Hall). do 5 (split; [done|]).
    intros y. rewrite Hperm, lookup_insert_is_Some. intros [<-|[_ Hy]]; [by left|right; auto].
  - intros c Hc. destruct (H4 _ Hc) as [Hc1 Hc2]. pose proof (box_known _ Hc1) as Hne.
    split; [by apply lookup_insert_is_Some; right|]. rewrite Hperm. by apply not_elem_of_cons.
  - intros y Hy. assert (y ≠ a) as Hne.
    { intros ->. apply Hnin, elem_of_app. left. by eapply list_elem_of_lookup_2. }
    rewrite (appeared_color _ _ _ _ _ _ box_appeared), decide_False by done.
    rewrite (roots_of_insert Hx). unfold m' at 1. cbn [mt_alloc mt_roots].
    rewrite handle_count_cons, decide_False by done. destruct (H5 _ Hy) as [? Hco].
    split; [done|]. intros Hv. destruct (Hco Hv). split; [done|lia].
  - intros m0 y k [->|Hm0]%(thread_elem Hx).
    + cbn. intros [= -> ->]%list_elem_of_singleton. unfold next_at. by rewrite lookup_insert_eq.
    + intros Hin. pose proof (H6 _ _ _ Hm0 Hin) as Hy. unfold next_at in *.
      rewrite lookup_insert_ne; [done|]. intros <-. by rewrite Ha in Hy.
  - done.
Qed.

Lemma box_calm : sw_calm (g_sw g) = true → calm_ok w' g'.
Proof.
  intros Hc. destruct (sv_calm _ _ Hinv Hc) as [C1 C3 C2]. destruct Hrest as (E1 & E2 & E3).
  pose proof (ap_fresh _ _ _ _ _ box_appeared) as Ha. split.
  - change (bytes_allocated (heap w) + msum mt_unc (<[i := m']> (g_x g)) = total_size (mem w')).
    rewrite (msum_insert _ _ _ _ _ Hx), E2. unfold w'. cbn [mem set_mem].
    rewrite total_size_insert by done. cbn. lia.
  - change (total_size (mem w') + msum mt_bytes (<[i := m']> (g_x g)) = B).
    rewrite (msum_insert _ _ _ _ _ Hx). unfold w'. cbn [mem set_mem].
    rewrite total_size_insert by done. cbn. lia.
  - intros y b. unfold w'. cbn [mem set_mem]. intros [[<- <-]|[_ Hb]]%lookup_insert_Some; [done|by apply (C2 y)].
Qed.

Lemma box_bytes : bytes_ok w' g'.
Proof.
  destruct (sv_bytes _ _ Hinv) as [H1 H2 H3 H4 H5]. destruct Hrest as (E1 & E2 & E3).
  pose proof (layout_size_usize t) as Hlay. unfold is_usize in Hlay.
  assert (∀ y, y ∈ sw_todo (g_sw g) → y ≠ a) as Hne
    by (intros y Hy; apply box_known; by apply (todo_block _ _ _ (sv_list _ _ Hinv))).
  split; cbn; try done.
  - rewrite (counted_sizes_ext (mem w) _ (concat (g_fly g))); [done| |].
    + intros y Hy. unfold size_at. by rewrite lookup_insert_ne by (symmetry; auto).
    + intros y Hy. rewrite (elem_of_held_insert _ _ _ _ _ Hfl), (elem_of_held_split _ _ _ _ Hfl).
      rewrite list_elem_of_singleton, elem_of_nil. pose proof (Hne _ Hy). naive_solver.
  - rewrite (msum_insert _ _ _ _ _ Hx), E2. cbn. lia.
  - intros m0 [->|?]%(thread_elem Hx); [|by apply H4]. cbn.
    pose proof (H4 _ (thread_in Hx)). lia.
  - intros j m0 l y Hj Hlj Hy. destruct (decide (i = j)) as [<-|Hnj].
    + rewrite list_lookup_insert_eq in Hj by (by eapply lookup_lt_Some).
      rewrite list_lookup_insert_eq in Hlj by (by eapply lookup_lt_Some). simplify_eq.
      apply list_elem_of_singleton in Hy as ->. split; [done|].
      unfold size_at. by rewrite lookup_insert_eq.
    + rewrite list_lookup_insert_ne in Hj by done. rewrite list_lookup_insert_ne in Hlj by done.
      destruct (H5 _ _ _ _ Hj Hlj Hy) as [? <-]. split; [done|]. unfold size_at.
      rewrite lookup_insert_ne; [done|]. intros <-.
      destruct (ok_fly _ _ (sv_roots _ _ Hinv) _ _ _ Hlj Hy) as (m1 & Hm1 & Hroot).
      assert (m1 = m0) as -> by congruence.
      destruct (root_block _ _ a (sv_roots _ _ Hinv)) as (b & Hb & _); [by apply (thread_root Hj)|].
      by apply (box_known a).
Qed.

(** [Box::new]: the thread owns a new object with one root, which is not linked and
    not counted yet. *)
Lemma box_schange : schange w g w' g'.
Proof.
  apply schange_intro; [apply box_step| |apply box_back|done..].
  destruct Hinv as [Hp Ho Ht HT Hob Hr Hl Hb Hq Hbz Hcm]. split; try done.
  - by rewrite box_turns.
  - apply box_objects.
  - apply box_roots.
  - apply box_list.
  - apply box_bytes.
  - cbn. rewrite Hbz. f_equal. symmetry. rewrite (msum_insert _ _ _ _ _ Hx). cbn. lia.
  - apply box_calm.
Qed.

End alloc.

(** *** Root counts *)

(** What the sweep has condemned is not secure. *)
Lemma condemned_unsecure w g a :
  sinv w g → sw_todo (g_sw g) !! 0%nat = Some a → sw_verdict (g_sw g) = Condemned → ¬ secure w g a.
Proof.
  intros Hi Ha Hv [_ Hor]. destruct (ok_verdict _ _ (sv_list _ _ Hi) _ Ha) as [_ Hc].
  destruct (Hc Hv) as [Hw Hr]. destruct Hor as [(c & Hcol & Hn)|[[Hcalm|[_ Hnin]]|Hin]].
  - congruence.
  - destruct (sw_started (g_sw g)) eqn:Es.
    + by rewrite (ok_running _ _ (sv_list _ _ Hi) Es) in Hcalm.
    + destruct (ok_before _ _ (sv_list _ _ Hi) Es) as (_ & _ & Hv' & _). congruence.
  - apply Hnin. by eapply list_elem_of_lookup_2.
  - pose proof (covered_root _ _ _ (ok_pins _ _ (sv_roots _ _ Hi)) Hin). lia.
Qed.

Lemma rerooted_secure w g x' a f y :
  secure (rerooted w a f) (with_threads g x') y ↔ secure w g y.
Proof.
  unfold secure. rewrite rerooted_nonwhite. cbn. by rewrite lookup_alter_is_Some.
Qed.

Lemma rerooted_size w a f y : size_at (mem (rerooted w a f)) y = size_at (mem w) y.
Proof.
  unfold size_at. cbn. destruct (decide (a = y)) as [<-|Hne].
  - rewrite lookup_alter_eq. by destruct (mem w !! a).
  - by rewrite lookup_alter_ne.
Qed.

Section reroot.
Variables (w : world) (g : ghost) (i : nat) (m : mthread) (a : loc) (ob : obj) (k : Z).
Variables (f : Z → Z) (hs : list loc) (n : nat).
Hypothesis Hinv : sinv w g.
Hypothesis Hx : g_x g !! i = Some m.
Hypothesis Hob : objs (abs w) !! a = Some ob.
Hypothesis Hf : f (ob_roots ob) = ob_roots ob + k.
Hypothesis Hor : secure w g a ∨ 0 < ob_roots ob.
Hypothesis Hcount : ∀ y, handle_count hs y =
  if decide (a = y) then handle_count (mt_roots m) y + k else handle_count (mt_roots m) y.
Hypothesis Hlen : (length hs + n ≤ length (mt_roots m) + mt_incs m)%nat.
Hypothesis Hn : (n ≤ mt_incs m)%nat.
Hypothesis Hpins : ∀ l y, g_pins g !! i = Some l → y ∈ l → y ∈ hs.
Hypothesis Hfly : g_fly g !! i = Some [].
Hypothesis Hnew : mt_new m = [].

Let w' : world := rerooted w a f.
Let g' : ghost := with_threads g (<[i := mt_reroot m hs n]> (g_x g)).

Lemma reroot_step : sstep w g w' g'.
Proof.
  assert (turns g' ≤ turns g) as Htu.
  { unfold turns. cbn. rewrite (msum_insert _ _ _ _ _ Hx). unfold pending at 2 3. cbn. lia. }
  split; [intros y; apply rerooted_secure| |by eauto|done|by left|done|by apply calm_same].
  intros y b Hb. left. unfold w'. cbn. destruct (decide (a = y)) as [<-|Hne].
  - rewrite lookup_alter_eq, Hb. by eexists.
  - rewrite lookup_alter_ne by done. by exists b.
Qed.

Lemma reroot_back : alive_back w g w' g'.
Proof.
  intros y b' Hb' Ha. destruct (rerooted_lookup _ _ _ _ _ Hb') as (b & Hb & _ & _ & Hv & Hd).
  right. exists b. do 3 (split; [done|]). destruct Ha as [Hs|[Hr|?]]; [| |by right; right].
  - left. by apply rerooted_secure in Hs.
  - unfold w' in Hb'. cbn in Hb'. destruct (decide (a = y)) as [<-|Hne].
    + cbn in Hob. rewrite lookup_fmap, Hb in Hob. cbn in Hob. simplify_eq.
      destruct Hor; [by left|by right; left].
    + rewrite lookup_alter_ne in Hb' by done. simplify_eq. by right; left.
Qed.

Lemma reroot_objects : objects_ok w' g'.
Proof.
  pose proof (sv_objects _ _ Hinv) as Hobj.
  apply (alive_step_old w g); [done|apply reroot_step|by apply rerooted_wf_mem, Hobj
    |apply reroot_back| |apply Hobj].
  intros y Hy. unfold w'. cbn. by apply lookup_alter_None.
Qed.

Lemma reroot_roots : roots_ok w' g'.
Proof.
  destruct (sv_roots _ _ Hinv) as [H1 H2 H3 H4 H5]. split; cbn.
  - unfold w'. rewrite rerooted_abs. by apply (counted_reroot _ _ _ m _ _ ob k).
  - rewrite (msum_insert _ _ _ _ _ Hx). cbn. lia.
  - apply (covered_thread _ _ i m); [done..|]. exact Hpins.
  - apply (covered_thread _ _ i m); [done..|]. intros l y Hl. simplify_eq. by intros ?%elem_of_nil.
  - intros m0 y p [->|Hm0]%(thread_elem Hx); [|by eapply H5]. cbn. rewrite Hnew.
    by intros ?%elem_of_nil.
Qed.

Lemma reroot_list : list_ok w' g'.
Proof.
  pose proof (sv_list _ _ Hinv) as Hl. destruct Hl as [H1 H2 H3 H4 H5 H6 H7].
  assert (∀ y, is_Some (mem w' !! y) ↔ is_Some (mem w !! y)) as Hsome
    by (intros y; unfold w'; cbn; by rewrite lookup_alter_is_Some).
  split; cbn; rewrite ?(same_new Hx) by done; try done.
  - eapply lseg_frame; [|exact H1]. intros; apply rerooted_next.
  - intros Hs. destruct (H3 Hs) as (? & ? & ? & ? & ? & Hall). do 5 (split; [done|]).
    intros y Hy. by apply Hall, Hsome.
  - intros c Hc. destruct (H4 _ Hc). split; [by apply Hsome|done].
  - intros y Hy. destruct (H5 _ Hy) as [Hv1 Hv2]. unfold w'. rewrite rerooted_color. split; [done|].
    intros Hv. destruct (Hv2 Hv) as [? Hr0]. split; [done|].
    rewrite (roots_of_insert Hx). cbn. rewrite Hcount. case_decide as Hay; [|lia]. subst y. exfalso.
    destruct Hor as [Hs|Hr]; [by eapply (condemned_unsecure w g a)|].
    pose proof (ok_counts _ _ (sv_roots _ _ Hinv) a) as Hc. rewrite Hob in Hc. lia.
  - intros m0 y p Hm0 Hin. transitivity (next_at (mem w) y); [apply rerooted_next|].
    apply (thread_elem Hx) in Hm0 as [->|Hm0]; [|by eapply H6]. cbn in Hin. rewrite Hnew in Hin.
    by apply elem_of_nil in Hin.
Qed.

Lemma reroot_bytes : bytes_ok w' g'.
Proof.
  destruct (sv_bytes _ _ Hinv) as [H1 H2 H3 H4 H5]. split; cbn; try done.
  - rewrite (counted_sizes_ext (mem w) _ (concat (g_fly g))); [done| |done].
    intros; apply (rerooted_size w a f).
  - by rewrite (same_sum Hx).
  - intros m0 [->|?]%(thread_elem Hx); [by apply (H4 m), (thread_in Hx)|by apply H4].
  - intros j m0 l y Hj Hlj Hy. pose proof (rerooted_size w a f y) as Hsz. cbn in Hsz.
    rewrite Hsz. destruct (decide (i = j)) as [<-|Hne].
    + simplify_eq. by apply elem_of_nil in Hy.
    + rewrite list_lookup_insert_ne in Hj by done. by eapply H5.
Qed.

Lemma reroot_calm : sw_calm (g_sw g) = true → calm_ok w' g'.
Proof.
  intros Hc. destruct (sv_calm _ _ Hinv Hc) as [C1 C3 C2]. split.
  - cbn [g' g_x with_threads]. rewrite (same_sum Hx) by done. unfold w'. by rewrite rerooted_total.
  - cbn [g' g_x with_threads]. rewrite (same_sum Hx) by done. unfold w'. by rewrite rerooted_total.
  - intros y b' Hb'. destruct (rerooted_lookup _ _ _ _ _ Hb') as (b & Hb & Ec & _).
    unfold box_color. rewrite Ec. by apply (C2 y).
Qed.

Lemma reroot_schange : schange w g w' g'.
Proof.
  apply schange_intro; [apply reroot_step| |apply reroot_back|done..]. destruct Hinv as [Hp Ho Ht HT _ _ Hl _ Hq Hbz Hcm]. split; try done.
  - pose proof (st_turns _ _ _ _ reroot_step). lia.
  - apply reroot_objects.
  - apply reroot_roots.
  - apply reroot_list.
  - apply reroot_bytes.
  - cbn. by rewrite (same_sum Hx).
  - apply reroot_calm.
Qed.

End reroot.

(** [GcPtr::root] and [GcRoot::clone]. *)
Lemma inc_schange w g i m a n :
  sinv w g → g_x g !! i = Some m → secure w g a ∨ a ∈ mt_roots m → mt_incs m = S n →
  g_fly g !! i = Some [] → mt_new m = [] →
  schange w g (rerooted w a (λ k, usize_fetch_add k 1))
    (with_threads g (<[i := mt_reroot m (a :: mt_roots m) n]> (g_x g))).
Proof.
  intros Hi Hx Ha Hn Hfl Hnew. pose proof (sv_roots _ _ Hi) as Hr.
  assert (is_Some (mem w !! a)) as [b Hb].
  { destruct Ha as [[? _]|Hin]; [done|]. destruct (root_block w g a Hr) as (b & ? & _);
      [by apply (thread_root Hx)|by eexists]. }
  pose proof (block_roots _ _ _ _ Hr Hb) as Hrc.
  assert (objs (abs w) !! a = Some (abs_box b)) as Hob by (cbn; by rewrite lookup_fmap, Hb).
  apply (reroot_schange w g i m a (abs_box b) 1); try done; cbn; try lia.
  - apply usize_fetch_add_small. rewrite Hrc.
    pose proof (roots_of_nonneg a (g_x g)). pose proof (roots_of_le a (g_x g)).
    pose proof (ok_bound _ _ Hr) as Hbd. rewrite msum_plus in Hbd.
    assert (Z.of_nat (mt_incs m) ≤ msum (λ m, Z.of_nat (mt_incs m)) (g_x g))
      by (apply (msum_elem (λ m, Z.of_nat (mt_incs m))); [intros; cbn; lia|apply (thread_in Hx)]).
    unfold is_usize. lia.
  - destruct Ha as [?|?]; [by left|right]. rewrite Hrc. by apply (thread_root Hx).
  - intros y. by rewrite handle_count_cons.
  - intros l y Hl Hy. right. destruct (ok_pins _ _ Hr _ _ _ Hl Hy) as (m0 & Hm0 & ?). by simplify_eq.
Qed.

(** [Drop for GcRoot], of a root that is not pinned or not the last one. *)
Lemma dec_schange w g i m a hs ps :
  sinv w g → g_x g !! i = Some m → mt_roots m ≡ₚ a :: hs → g_pins g !! i = Some ps →
  (a ∈ ps → a ∈ hs) → g_fly g !! i = Some [] → mt_new m = [] →
  schange w g (rerooted w a (λ k, usize_fetch_sub k 1))
    (with_threads g (<[i := mt_reroot m hs (mt_incs m)]> (g_x g))).
Proof.
  intros Hi Hx Hp Hps Hpin Hfl Hnew. pose proof (sv_roots _ _ Hi) as Hr.
  assert (0 < roots_of a (g_x g)) as Hpos by (apply (thread_root Hx); rewrite Hp; by left).
  destruct (root_block w g a Hr Hpos) as (b & Hb & Hrc).
  assert (objs (abs w) !! a = Some (abs_box b)) as Hob by (cbn; by rewrite lookup_fmap, Hb).
  pose proof (roots_of_le a (g_x g)) as Hle. pose proof (ok_bound _ _ Hr) as Hbd.
  rewrite msum_plus in Hbd.
  assert (0 ≤ msum (λ m, Z.of_nat (mt_incs m)) (g_x g)) by (apply msum_nonneg; intros; lia).
  apply (reroot_schange w g i m a (abs_box b) (-1)); try done; cbn.
  - rewrite Hrc. apply usize_fetch_sub_small. unfold is_usize. lia.
  - right. lia.
  - intros y. rewrite (handle_count_perm _ _ _ Hp), handle_count_cons. case_decide; lia.
  - apply Permutation_length in Hp. cbn in Hp. lia.
  - intros l y Hl Hy. simplify_eq. destruct (ok_pins _ _ Hr _ _ _ Hps Hy) as (m0 & Hm0 & Hin).
    simplify_eq. rewrite Hp in Hin. apply elem_of_cons in Hin as [->|?]; auto.
Qed.

(** *** Cells *)

(** A store into a cell, or a new cell. *)
Lemma cell_schange w g c v t :
  sinv w g → cell_type t → is_copy t = true → has_type v t = true →
  (is_Some (cells w !! c) → Forall (good w g) (owned v)) →
  schange w g (celled w c v) g.
Proof.
  intros Hi Hcty Hct Hty Hg. pose proof (copy_owned _ _ Hty Hct) as Hmarks. rewrite Forall_forall in Hmarks.
  pose proof Hi as [Hp Ho Ht HT Hob Hr Hl Hb Hq Hbz Hcm].
  assert (sstep w g (celled w c v) g) as Hst.
  { split; [done| | |done|by left|done|by apply calm_same].
    - intros a b Hb0. left. by exists b.
    - intros c' v' Hc'. cbn. destruct (decide (c = c')) as [<-|Hne].
      + exists v. rewrite lookup_insert_eq. split; [done|]. right. intros t' a Hin.
        specialize (Hg ltac:(by eexists)). rewrite Forall_forall in Hg. by apply (Hg (RMark t' a)).
      + exists v'. rewrite lookup_insert_ne by done. by split; [|left]. }
  apply schange_intro; [done| |by apply back_same|done..]. split; try done.
  - apply (alive_step_old w g); [done..|apply Hob|by apply back_same|done|].
    + intros c' v'. cbn. intros [[<- <-]|[_ Hc']]%lookup_insert_Some; [by exists t|].
      by eapply ok_cells.
  - destruct Hr. by split.
  - destruct Hl. by split.
  - destruct Hb. by split.
  - intros Hc. by destruct (Hcm Hc).
Qed.

(** ** Actions of the sweep *)

Definition sw_begin (sw : sweeper) : sweeper :=
  mkSweeper true (sw_prev sw) (sw_todo sw) (sw_left sw) (sw_freed sw) (sw_verdict sw)
    (sw_threshold sw) (sw_calm sw).

(** The load of the head. *)
Lemma begin_schange w g :
  sinv w g → sw_started (g_sw g) = false → sw_calm (g_sw g) = false →
  schange w g w (with_sw g (sw_begin (g_sw g))).
Proof.
  intros [Hp Ho Ht HT Hob Hr Hl Hb Hq Hbz Hcm] Hs Hnc. destruct (ok_before _ _ Hl Hs) as (Hh & Hpv & Hv & Hlen & Hfr0 & Hall).
  assert (sstep w g w (with_sw g (sw_begin (g_sw g)))) as Hst.
  { split; [|by eauto|by eauto|done|by left|done|intros Hc; congruence]. intros a [Ha Hor]. split; [done|].
    destruct Hor as [?|[[?|[? _]]|?]]; [by left|congruence..|by right; right]. }
  assert (alive_back w g w (with_sw g (sw_begin (g_sw g)))) as Hback.
  { intros a b Hb0 Ha. right. exists b.
    do 3 (split; [done|]). destruct Ha as [[Ha Hor]|[?|[Hv' _]]]; [|by right; left|cbn in Hv'; congruence].
    destruct Hor as [?|[[Hc|[_ Hnin]]|?]];
      [by left; split; [|left]|cbn in Hc; congruence| |by left; split; [|right; right]].
    right. left. cbn in Hnin. specialize (Hall a Ha). apply elem_of_app in Hall as [?|Hnew]; [done|].
    apply new_objs_thread in Hnew as (m & n & Hm & Hn). rewrite (block_roots _ _ _ _ Hr Hb0).
    pose proof (ok_new_root _ _ Hr _ _ _ Hm Hn) as Hroot.
    apply list_elem_of_lookup in Hm as [j Hj]. by apply (thread_root Hj). }
  apply schange_intro; [done| |done..]. split; try done.
  - by apply (alive_step_old w g); [..|apply Hob| | |apply Hob].
  - destruct Hr. by split.
  - destruct Hl. by split.
  - destruct Hb. by split.
  - intros Hc. cbn in Hc. congruence.
Qed.

(** A verdict on the first object. *)
Lemma verdict_schange w g v :
  sinv w g → sw_started (g_sw g) = true →
  (∀ a, sw_todo (g_sw g) !! 0%nat = Some a →
     (v = SeenWhite → color_of w a = Some White) ∧
     (v = Condemned → color_of w a = Some White ∧ roots_of a (g_x g) = 0) ∧
     (v = Spared → ∀ b, mem w !! a = Some b → alive w g a b)) →
  schange w g w (with_sw g (with_verdict (g_sw g) v)).
Proof.
  intros [Hp Ho Ht HT Hob Hr Hl Hb Hq Hbz Hcm] Hs Hv.
  assert (sw_calm (g_sw g) = false) as Hnc by (by apply (ok_running _ _ Hl)).
  assert (sstep w g w (with_sw g (with_verdict (g_sw g) v))) as Hst.
  { split; [done|by eauto|by eauto|done|by left|done|by apply calm_running]. }
  assert (alive_back w g w (with_sw g (with_verdict (g_sw g) v))) as Hback.
  { intros a b Hb0 Ha. right. exists b.
    do 3 (split; [done|]). destruct Ha as [?|[?|[Hsp Ha]]]; [by left|by right; left|].
    cbn in Hsp, Ha. destruct (Hv _ Ha) as (_ & _ & Hal). by apply Hal. }
  apply schange_intro; [done| |done..]. split; try done.
  - by apply (alive_step_old w g); [..|apply Hob| | |apply Hob].
  - destruct Hr. by split.
  - destruct Hl as [H1 H2 H3 H4 H5 H6 H7]. split; try done; cbn.
    + by rewrite Hs.
    + intros a Ha. by destruct (Hv _ Ha) as (? & ? & _).
  - destruct Hb. by split.
  - intros Hc. cbn in Hc. congruence.
Qed.

Definition sw_store (sw : sweeper) : sweeper :=
  mkSweeper (sw_started sw) (sw_prev sw) (sw_todo sw) (pred (sw_left sw)) (sw_freed sw)
    (sw_verdict sw) (sw_threshold sw) (sw_calm sw).

(** The store to [prev_next]. *)
Lemma store_schange w g p :
  sinv w g → sw_started (g_sw g) = true → (0 < sw_left (g_sw g))%nat →
  schange w g (relink w (sw_prev (g_sw g)) p) (with_sw g (sw_store (g_sw g))).
Proof.
  intros [Hp Ho Ht HT Hob Hr Hl Hb Hq Hbz Hcm] Hs Hleft. set (w' := relink w (sw_prev (g_sw g)) p).
  assert (sw_calm (g_sw g) = false) as Hnc by (by apply (ok_running _ _ Hl)).
  set (g' := with_sw g (sw_store (g_sw g))).
  assert (links_only w w') as Hlo.
  { unfold w'. destruct (sw_prev (g_sw g)) as [|c]; cbn; [by split|].
    split; try done. cbn. apply map_eq. intros y. rewrite !lookup_fmap, lookup_alter.
    case_decide; subst; [|done]. by destruct (mem w !! y). }
  assert (turns g' < turns g) as Htu by (unfold turns, g'; cbn; lia).
  assert (sstep w g w' g') as Hst.
  { apply links_step; [done|by split|lia|by right| |by apply calm_running].
    unfold w'. by destruct (sw_prev (g_sw g)). }
  assert (∀ y, y ∈ sw_todo (g_sw g) ++ new_objs (g_x g) → next_at (mem w') y = next_at (mem w) y) as Hn.
  { intros y Hy. unfold w'. destruct (sw_prev (g_sw g)) as [|c] eqn:E; [done|].
    destruct (ok_prev _ _ Hl _ E) as [_ Hnin]. unfold next_at. cbn.
    rewrite lookup_alter_ne; [done|]. by intros ->. }
  assert (alive_back w g w' g') as Hback.
  { apply links_back; [done| |done]. intros y [Hy Hor].
    split; [by apply (links_is_Some w w')|]. by rewrite (links_nonwhite _ _ _ Hlo) in Hor. }
  apply schange_intro; [done| |done|done|unfold w'; by destruct (sw_prev (g_sw g))]. split; try done.
  - unfold w'. by destruct (sw_prev (g_sw g)).
  - unfold w'. by destruct (sw_prev (g_sw g)).
  - unfold w'. by destruct (sw_prev (g_sw g)).
  - lia.
  - by apply (links_objects w _ g).
  - destruct Hr. split; try done. by rewrite (links_abs _ _ Hlo).
  - destruct Hl as [H1 H2 H3 H4 H5 H6 H7]. split; try done; cbn.
    + eapply lseg_frame; [|exact H1]. intros y Hy. apply Hn, elem_of_app. by left.
    + by rewrite Hs.
    + intros c Hc. destruct (H4 _ Hc). split; [by apply (links_is_Some w w')|done].
    + intros y. rewrite (links_color _ _ _ Hlo). apply H5.
    + intros m a n Hm Ha. rewrite Hn; [by eapply H6|]. apply elem_of_app. right.
      apply list_elem_of_lookup in Hm as [j Hj]. apply (new_objs_elem _ j m); [done|].
      apply list_elem_of_fmap. by exists (a, n).
  - assert (bytes_allocated (heap w') = bytes_allocated (heap w)) as Eb
      by (unfold w'; by destruct (sw_prev (g_sw g))).
    destruct Hb as [H1 H2 H3 H4 H5]. split; try done; cbn; rewrite ?Eb; try done.
    + rewrite (counted_sizes_ext (mem w) _ (concat (g_fly g))); [done| |done].
      intros; by apply links_size.
    + intros j m l y Hj Hlj Hy. rewrite (links_size _ _ _ Hlo). by eapply H5.
  - unfold w'. by destruct (sw_prev (g_sw g)).
  - unfold w'. by destruct (sw_prev (g_sw g)).
  - intros Hc. cbn in Hc. congruence.
Qed.

(** The sweep has passed the first object: it is kept, or freed. *)
Definition sw_keep (sw : sweeper) (a : loc) (l : list loc) : sweeper :=
  mkSweeper (sw_started sw) (Heap.AtNext a) l (pred (sw_left sw)) (sw_freed sw) Unknown
    (sw_threshold sw) (sw_calm sw).
Definition sw_free (sw : sweeper) (l : list loc) (size : Z) : sweeper :=
  mkSweeper (sw_started sw) (sw_prev sw) l (sw_left sw) (sw_freed sw + size) Unknown
    (sw_threshold sw) (sw_calm sw).

(** The reset of the colour of an object that is kept. *)
Lemma keep_schange w g a l :
  sinv w g → sw_started (g_sw g) = true → sw_todo (g_sw g) = a :: l →
  sw_verdict (g_sw g) = Spared →
  schange w g (paint w a White) (with_sw g (sw_keep (g_sw g) a l)).
Proof.
  intros [Hp Ho Ht HT Hob Hr Hl Hb Hq Hbz Hcm] Hs Htodo Hv. set (w' := paint w a White).
  assert (sw_calm (g_sw g) = false) as Hnc by (by apply (ok_running _ _ Hl)).
  set (g' := with_sw g (sw_keep (g_sw g) a l)).
  assert (recolored w w') as Hrc by apply paint_recolored.
  pose proof (ok_nodup _ _ Hl) as Hnd. rewrite Htodo in Hnd. cbn in Hnd.
  apply NoDup_cons in Hnd as [Hnin Hnd].
  destruct (todo_head _ _ _ _ Hl Htodo) as (b & Hba & Hseg & Hnext).
  assert (∀ y, is_Some (mem w' !! y) ↔ is_Some (mem w !! y)) as Hsome
    by (intros y; cbn; by rewrite lookup_alter_is_Some).
  assert (∀ y, y ≠ a → nonwhite w' y ↔ nonwhite w y) as Hnw
    by (intros y Hy; unfold nonwhite, w'; by rewrite color_of_paint_ne).
  assert (∀ y, y ≠ a → y ∉ l ↔ y ∉ sw_todo (g_sw g)) as Hpass
    by (intros y Hy; rewrite Htodo, not_elem_of_cons; naive_solver).
  assert (∀ y, y ≠ a → secure w' g' y ↔ secure w g y) as Hsec.
  { intros y Hy. unfold secure, passed. rewrite Hsome, (Hnw _ Hy). cbn. by rewrite (Hpass _ Hy). }
  assert (secure w' g' a) as Hseca.
  { split; [apply Hsome; by exists b|]. right. left. right. split; [done|]. cbn. intros Hin.
    apply Hnin, elem_of_app. by left. }
  assert (turns g' ≤ turns g) as Htu by (unfold turns, g'; cbn; lia).
  assert (sstep w g w' g') as Hst.
  { split; [|by intros y by' Hy; left; destruct (recolored_lookup _ _ _ _ Hrc Hy) as (b' & ? & Hu);
      apply uncolored_eq in Hu as (_ & _ & ? & ?); exists b'|by eauto|done|by left|done|by apply calm_running].
    intros y Hy. destruct (decide (y = a)) as [->|Hne]; [done|by apply Hsec]. }
  assert (alive_back w g w' g') as Hback.
  { intros y by' Hy Ha. right. pose proof Hrc as Hrc'. symmetry in Hrc'.
    destruct (recolored_lookup _ _ _ _ Hrc' Hy) as (b0 & Hb0 & Hu).
    apply uncolored_eq in Hu as (Er & _ & Ev & Ed). exists b0.
    split; [done|]. split; [done|]. split; [done|].
    destruct (decide (y = a)) as [->|Hne].
    - right. right. split; [done|]. by rewrite Htodo.
    - destruct Ha as [?|[?|[? _]]]; [left; by apply Hsec|right; left; by rewrite Er|done]. }
  split; [done| |done| |done].
  2:{ intros y [Hy (by' & Hby & Hny)]. left. cbn. rewrite Htodo in Hy.
      apply elem_of_cons in Hy as [->|?]; [|done]. destruct Hny. right. right.
      split; [done|]. by rewrite Htodo. }
  split; try done.
  - lia.
  - apply (alive_step_old w g); [done..|by apply wf_mem_paint, Hob|done| |apply Hob].
    intros y Hy. by apply lookup_alter_None.
  - destruct Hr. split; try done. by rewrite <- (recolored_abs _ _ Hrc).
  - destruct Hl as [H1 H2 H3 H4 H5 H6 H7]. split; cbn; try done.
    + eapply lseg_recolored; [apply Hrc|]. by rewrite <- Hnext.
    + by rewrite Hs.
    + intros c [= <-]. split; [apply Hsome; by exists b|done].
    + intros m y n Hm Hy. pose proof (H6 _ _ _ Hm Hy) as Hn. unfold next_at in *.
      destruct (mem w !! y) as [by'|] eqn:Hby; [|done].
      destruct (recolored_lookup _ _ _ _ Hrc Hby) as (b' & Hb' & Hu).
      apply uncolored_eq in Hu as (_ & Hnx & _). change (mem w' !! y = Some b') in Hb'. cbn in Hb'.
      rewrite Hb'. cbn in *. by rewrite Hnx.
  - assert (∀ y, size_at (mem w') y = size_at (mem w) y) as Hsz.
    { intros y. unfold size_at. destruct (mem w !! y) as [by'|] eqn:Hby.
      - destruct (recolored_lookup _ _ _ _ Hrc Hby) as (b' & -> & Hu).
        apply uncolored_eq in Hu as (_ & _ & Hv' & _). unfold box_size. by rewrite Hv'.
      - assert (mem w' !! y = None) as ->; [|done]. apply eq_None_not_Some.
        rewrite Hsome, Hby. by apply is_Some_None. }
    destruct Hb as [H1 H2 H3 H4 H5]. split; cbn; try done.
    + rewrite Htodo, counted_sizes_cons in H2.
      rewrite (counted_sizes_ext (mem w) _ (concat (g_fly g))); [|intros; apply Hsz|done].
      pose proof (wf_size_at (mem w) a (ok_mem _ _ Hob)). case_bool_decide; lia.
    + intros j m k y Hj Hlj Hy. pose proof (Hsz y) as Hszy. cbn in Hszy. rewrite Hszy. by eapply H5.
  - intros Hc. cbn in Hc. congruence.
Qed.

Definition freed (w : world) (a : loc) : world :=
  set_dropped (set_mem w (delete a (mem w))) (dropped w ++ [a]).

(** The drop of an object that is condemned. *)
Lemma free_schange w g a l :
  sinv w g → sw_started (g_sw g) = true → sw_todo (g_sw g) = a :: l →
  sw_verdict (g_sw g) = Condemned →
  schange w g (freed w a) (with_sw g (sw_free (g_sw g) l (size_at (mem w) a))).
Proof.
  intros Hi Hs Htodo Hv. assert (¬ secure w g a) as Hna
    by (apply condemned_unsecure; [done|by rewrite Htodo|done]).
  destruct Hi as [Hp Ho Ht HT Hob Hr Hl Hb Hq Hbz Hcm]. set (w' := freed w a).
  assert (sw_calm (g_sw g) = false) as Hnc by (by apply (ok_running _ _ Hl)).
  set (g' := with_sw g (sw_free (g_sw g) l (size_at (mem w) a))).
  pose proof (ok_nodup _ _ Hl) as Hnd. rewrite Htodo in Hnd. cbn in Hnd.
  apply NoDup_cons in Hnd as [Hnin Hnd]. rewrite not_elem_of_app in Hnin. destruct Hnin as [Hnl Hnn].
  destruct (todo_head _ _ _ _ Hl Htodo) as (b & Hba & Hseg & Hnext).
  destruct (ok_verdict _ _ Hl a) as [_ Hc]; [by rewrite Htodo|]. destruct (Hc Hv) as [Hw Hr0]. clear Hc.
  assert (∀ y, y ≠ a → mem w' !! y = mem w !! y) as Hoth
    by (intros y Hy; cbn; by rewrite lookup_delete_ne).
  assert (∀ y, 0 < roots_of y (g_x g) → y ≠ a) as Hrooted by (intros y Hy ->; lia).
  assert (∀ y, y ≠ a → secure w' g' y ↔ secure w g y) as Hsec.
  { intros y Hy. unfold secure, passed, nonwhite, color_of. rewrite (Hoth _ Hy). cbn.
    rewrite Htodo, not_elem_of_cons. naive_solver. }
  assert (sstep w g w' g') as Hst.
  { split; [|intros y by' Hy|by eauto|done|by left|done|by apply calm_running].
    - intros y Hy. apply Hsec; [|done]. by intros ->.
    - destruct (decide (y = a)) as [->|Hne]; [by right|left]. exists by'. by rewrite Hoth. }
  assert (∀ y, y ≠ a → size_at (mem w') y = size_at (mem w) y) as Hsz
    by (intros y Hy; unfold size_at; by rewrite Hoth).
  assert (alive_back w g w' g') as Hback.
  { intros y by' Hy Ha. cbn in Hy. apply lookup_delete_Some in Hy as [Hne Hy]. right. exists by'.
    do 3 (split; [done|]).
    destruct Ha as [?|[?|[? _]]]; [left; by apply Hsec|by right; left|done]. }
  split; [done| |done| |].
  2:{ intros y [Hy _]. cbn. rewrite Htodo in Hy. apply elem_of_cons in Hy as [->|?]; [|by left].
      right. apply elem_of_app. right. by left. }
  2:{ intros y Hy. cbn. apply elem_of_app. by left. }
  split; try done.
  - apply (alive_step_old w g); [done..| |done| |apply Hob].
    + destruct (ok_mem _ _ Hob) as [Hvt Hcol].
      split; cbn; intros y by' [_ Hy]%lookup_delete_Some; [by apply (Hvt y)|by apply (Hcol y)].
    + intros y Hy. cbn. by apply lookup_delete_None; right.
  - destruct Hr as [H1 H2 H3 H4 H5]. split; try done. intros y. cbn.
    specialize (H1 y). cbn in H1. rewrite lookup_fmap in *. destruct (decide (y = a)) as [->|Hne].
    + by rewrite lookup_delete_eq.
    + by rewrite lookup_delete_ne.
  - destruct Hl as [H1 H2 H3 H4 H5 H6 H7]. split; cbn; try done.
    + rewrite Hnext in Hseg. eapply lseg_frame; [|exact Hseg]. intros y Hy. unfold next_at.
      rewrite lookup_delete_ne; [done|]. by intros <-.
    + by rewrite Hs.
    + intros c Hc. destruct (H4 _ Hc) as [Hc1 Hc2]. rewrite Htodo in Hc2. cbn in Hc2.
      apply not_elem_of_cons in Hc2 as [Hca Hc2]. by rewrite lookup_delete_ne.
    + intros m y n Hm Hy. unfold next_at. rewrite lookup_delete_ne; [by apply (H6 m)|].
      intros <-. apply Hnn. apply list_elem_of_lookup in Hm as [j Hj].
      apply (new_objs_elem _ j m); [done|]. apply list_elem_of_fmap. by exists (a, n).
  - destruct Hb as [H1 H2 H3 H4 H5]. pose proof (wf_size_at (mem w) a (ok_mem _ _ Hob)).
    split; cbn; try done.
    + lia.
    + rewrite Htodo, counted_sizes_cons, bool_decide_eq_false_2 in H2.
      * rewrite (counted_sizes_ext (mem w) _ (concat (g_fly g))); [lia| |done].
        intros y Hy. apply Hsz. by intros ->.
      * intros Hin%(covered_root _ _ _ (ok_fly _ _ Hr)). lia.
    + intros j m k y Hj Hlj Hy. destruct (H5 _ _ _ _ Hj Hlj Hy) as [? <-]. split; [done|].
      apply Hsz, Hrooted, (covered_root _ _ _ (ok_fly _ _ Hr)), elem_of_held. by exists j, k.
  - intros Hc. cbn in Hc. congruence.
Qed.

(** The accounting at the end. *)
Definition sw_account (sw : sweeper) : sweeper :=
  mkSweeper (sw_started sw) (sw_prev sw) (sw_todo sw) (sw_left sw) 0 (sw_verdict sw)
    (sw_threshold sw) (sw_calm sw).
Definition sw_retune (sw : sweeper) (n : Z) : sweeper :=
  mkSweeper (sw_started sw) (sw_prev sw) (sw_todo sw) (sw_left sw) (sw_freed sw) (sw_verdict sw) n
    (sw_calm sw).

Lemma account_schange w g :
  sinv w g → B ≤ usize_max → sw_started (g_sw g) = true → sw_todo (g_sw g) = [] →
  0 ≤ bytes_allocated (heap w) - sw_freed (g_sw g) ≤ B ∧
  schange w g
    (set_heap w (set_bytes_allocated (heap w)
       (usize_fetch_sub (bytes_allocated (heap w)) (sw_freed (g_sw g)))))
    (with_sw g (sw_account (g_sw g))).
Proof.
  intros [Hp Ho Ht HT Hob Hr Hl Hb Hq Hbz Hcm] HB Hs Htodo. destruct Hb as [H1 H2 H3 H4 H5].
  assert (sw_calm (g_sw g) = false) as Hnc by (by apply (ok_running _ _ Hl)).
  assert (0 ≤ msum (λ m, mt_unc m + mt_bytes m) (g_x g)) as Hnn
    by (apply msum_nonneg; intros m Hm; destruct (H4 _ Hm); lia).
  rewrite Htodo in H2. unfold counted_sizes in H2. cbn in H2. unfold is_usize in *.
  rewrite usize_fetch_sub_small by (unfold is_usize; lia). split; [lia|].
  apply schange_intro;
    [split; [done|by eauto|by eauto|done|by left|done|by apply calm_running]| |by apply back_same|done..]. split; try done.
  - destruct Hob. by split.
  - destruct Hr. by split.
  - destruct Hl. split; try done. cbn. by rewrite Hs.
  - split; try done; cbn; [|lia]. rewrite Htodo. unfold counted_sizes. cbn. lia.
  - intros Hc. cbn in Hc. congruence.
Qed.

Lemma finish_schange w g :
  sinv w g → schange w g (set_heap w (set_phase (heap w) (GcPhase_as_u8 Idle))) g.
Proof.
  intros [Hp Ho Ht HT Hob Hr Hl Hb Hq Hbz Hcm].
  apply schange_intro;
    [split; [done|by eauto|by eauto|done|by left|done|by apply calm_same]| |by apply back_same|done..]. split; try done.
  - destruct Hob. by split.
  - destruct Hr. by split.
  - destruct Hl. by split.
  - destruct Hb. by split.
  - intros Hc. by destruct (Hcm Hc).
Qed.

Lemma retune_schange w g n :
  sinv w g → sw_started (g_sw g) = true →
  schange w g (set_heap w (set_current_threshold (heap w) n)) (with_sw g (sw_retune (g_sw g) n)).
Proof.
  intros [Hp Ho Ht HT Hob Hr Hl Hb Hq Hbz Hcm] Hs.
  assert (sw_calm (g_sw g) = false) as Hnc by (by apply (ok_running _ _ Hl)).
  apply schange_intro;
    [split; [done|by eauto|by eauto|done|by left|done|by apply calm_running]| |by apply back_same|done..]. split; try done.
  - destruct Hob. by split.
  - destruct Hr. by split.
  - destruct Hl. by split.
  - destruct Hb. by split.
  - intros Hc. cbn in Hc. congruence.
Qed.

(** ** What holds in every state *)

Section state.
Variables (w' : world) (g : ghost).
Hypothesis Hi : sinv w' g.

(** An object that may be used points to objects that may be used. *)
Lemma usable_object a b :
  mem w' !! a = Some b → alive w' g a b →
  has_type (data b) (box_ty b) = true ∧ wf_val (abs w') (data b) ∧
  ∀ t y, points (cells w') (data b) t y → ∃ by', mem w' !! y = Some by' ∧ alive w' g y by'.
Proof.
  intros Hb Ha. destruct (ok_alive _ _ (sv_objects _ _ Hi) _ _ Hb Ha) as [Hty Hgood].
  rewrite Forall_forall in Hgood. split; [done|].
  assert (∀ t y, points (cells w') (data b) t y → secure w' g y ∧ valid w' t y) as Hp.
  { intros t y [Hin|c v Hin Hv Hin']; [apply (Hgood _ Hin)|].
    destruct (Hgood _ Hin) as (v' & Hv' & Hy). simplify_eq. by apply Hy. }
  split; [split|].
  - intros t y (_ & by' & Hby & Hyt)%Hp. exists (abs_box by'). cbn. by rewrite lookup_fmap, Hby.
  - intros c Hin. destruct (Hgood _ Hin) as (v & Hv & _). by exists v.
  - intros t y (Hs & by' & Hby & _)%Hp. exists by'. split; [done|]. by left.
Qed.

Lemma reachable_usable a :
  reachable (abs w') a → ∃ b, mem w' !! a = Some b ∧ alive w' g a b.
Proof.
  intros (r & (ob & Hob & Hr) & Hpath).
  cbn in Hob. rewrite lookup_fmap in Hob. apply fmap_Some in Hob as (b & Hb & ->).
  assert (∃ b, mem w' !! r = Some b ∧ alive w' g r b) as Hroot.
  { exists b. split; [done|]. right. by left. }
  clear b Hb Hr. induction Hpath as [r|r y z (ob & t & Hob & Hp) _ IH]; [done|].
  apply IH. destruct Hroot as (b & Hb & Ha). cbn in Hob. rewrite lookup_fmap, Hb in Hob.
  cbn in Hob. simplify_eq. destruct (usable_object _ _ Hb Ha) as (_ & _ & Hy). by eapply Hy.
Qed.

Lemma roots_usize a b : mem w' !! a = Some b → is_usize (root_count (header b)).
Proof.
  intros Hb. pose proof (sv_roots _ _ Hi) as Hr. rewrite (block_roots _ _ _ _ Hr Hb).
  pose proof (roots_of_nonneg a (g_x g)). pose proof (ok_bound _ _ Hr) as Hbd.
  assert (roots_of a (g_x g) ≤ msum (λ m, Z.of_nat (length (mt_roots m)) + Z.of_nat (mt_incs m)) (g_x g)).
  { apply msum_le. intros m _. pose proof (handle_count_le (mt_roots m) a). lia. }
  unfold is_usize. lia.
Qed.

(** When every object is secure, every object may be used. *)
Lemma over_graph : (∀ a, is_Some (mem w' !! a) → secure w' g a) → wf_graph (abs w').
Proof.
  intros Hsec.
  assert (∀ a ob, objs (abs w') !! a = Some ob → ∃ b, mem w' !! a = Some b ∧ ob = abs_box b ∧ alive w' g a b) as Hall.
  { intros a ob Hob. cbn in Hob. rewrite lookup_fmap in Hob. apply fmap_Some in Hob as (b & Hb & ->).
    exists b. split; [done|]. split; [done|]. left. apply Hsec. by exists b. }
  split.
  - intros a ob (b & Hb & -> & Ha)%Hall. by apply (usable_object _ _ Hb Ha).
  - intros a ob (b & Hb & -> & Ha)%Hall. by eapply roots_usize.
  - intros a ob (b & Hb & -> & Ha)%Hall. by apply (usable_object _ _ Hb Ha).
  - intros c v Hv. destruct (ok_cells _ _ (sv_objects _ _ Hi) c v Hv) as (t & _ & ? & ?). by exists t.
Qed.

End state.

End steps.
