(* ===== verification/SweepClients.v ===== *)
(** * Client operations during a sweep, interleaved action by action

    Each operation of [Mutator] and [HeapOps] that a client may use while another
    thread sweeps, specified against the invariant of [SweepSteps] in the
    rely-guarantee calculus, and the discipline of such a client as a program logic. *)

From stdpp Require Import relations.
From S2P Require Import Prelude Prog Color TraceImpls GcBox Options BgThread World.
From S2P Require Import Graph Tracing State HeapOps Mutator Marking Sweeping Collection.
From S2P Require Import Client Interface Session Incremental Concurrent MarkProtocol.
From S2P Require Import MutatorSteps Mutators SweepSteps.
Open Scope Z_scope.

Section clients.
Context `{Env} `{!TraceContract} {CT : CellTypes}.
Variables (o : GcOptions) (T B : Z).
Hypothesis HB : B ≤ usize_max.

Abbreviation sinv := (sinv o T B).
Abbreviation schange := (schange o T B).
Implicit Types s : world * ghost.

(** ** Rely and guarantee *)

(** What an action of thread [i] leaves alone: the other threads, and the sweep
    unless the first thread acts. *)
Record others (i : nat) w g w' g' : Prop := {
  ot_x j : j ≠ i → g_x g' !! j = g_x g !! j;
  ot_len : length (g_x g') = length (g_x g);
  ot_pins j : j ≠ i → g_pins g' !! j = g_pins g !! j;
  ot_fly j : j ≠ i → g_fly g' !! j = g_fly g !! j;
  ot_started : i ≠ 0%nat → sw_started (g_sw g') = sw_started (g_sw g);
  ot_threshold : i ≠ 0%nat → sw_threshold (g_sw g') = sw_threshold (g_sw g);
  ot_sweep : i ≠ 0%nat → sw_started (g_sw g) = true → g_sw g' = g_sw g;
  ot_phase : i ≠ 0%nat → phase (heap w') = phase (heap w);
  ot_calm : i ≠ 0%nat → sw_calm (g_sw g') = sw_calm (g_sw g);
}.

(** Thread [i] performs an action. *)
Definition guar (i : nat) s s' : Prop :=
  (sinv s.1 s.2 → schange s.1 s.2 s'.1 s'.2) ∧ others i s.1 s.2 s'.1 s'.2.

Definition rely (i : nat) s s' : Prop := ∃ j, j ≠ i ∧ guar j s s'.

Lemma guar_in_rely_sweep i j : i ≠ j → ∀ u v, guar j u v → rely i u v.
Proof. intros Hij u v Hg. by exists j. Qed.

(** ** What a thread owns and knows *)

Definition stable (F : world → ghost → Prop) : Prop :=
  ∀ w g w' g', sstep w g w' g' → F w g → F w' g'.

(** - [se_m]: what the thread is doing;
    - [se_hs]: its roots, with the types of their objects;
    - [se_pins]: those it keeps until the sweep is over;
    - [se_fly]: its object that is not counted yet. *)
Record self := mkSelf {
  se_m : mthread;
  se_hs : list (ty * loc);
  se_pins : list loc;
  se_fly : list loc;
}.

Record owned_by (i : nat) (c : self) w g : Prop := {
  ow_x : g_x g !! i = Some (se_m c);
  ow_pins : g_pins g !! i = Some (se_pins c);
  ow_fly : g_fly g !! i = Some (se_fly c);
  ow_roots : mt_roots (se_m c) = (se_hs c).*2;
  ow_valid t a : (t, a) ∈ se_hs c → valid w t a;
}.

Definition owns (i : nat) (c : self) (F : world → ghost → Prop) s : Prop :=
  sinv s.1 s.2 ∧ owned_by i c s.1 s.2 ∧ F s.1 s.2.

(** A root keeps its object, and the object's type. *)
Lemma handle_valid w g w' g' i c t a :
  sstep w g w' g' → owned_by i c w g → (t, a) ∈ se_hs c → valid w' t a.
Proof.
  intros Hs Ho Ha. destruct (ow_valid _ _ _ _ Ho _ _ Ha) as (b & Hb & <-).
  destruct (st_box _ _ _ _ Hs _ _ Hb) as [(b' & Hb' & Hv & _)|(_ & Hr & _)].
  - exists b'. split; [done|]. unfold box_ty. by rewrite Hv.
  - assert (0 < roots_of a (g_x g)); [|lia]. apply (thread_root (ow_x _ _ _ _ Ho)).
    rewrite (ow_roots _ _ _ _ Ho). apply list_elem_of_fmap. by exists (box_ty b, a).
Qed.

Lemma owns_stable_sweep i c F s s' : stable F → rtc (rely i) s s' → owns i c F s → owns i c F s'.
Proof.
  intros HF Hr. induction Hr as [s|s s1 s2 (j & Hj & Hch & Hot) _ IH]; [done|].
  intros (Hi & Ho & Hf). specialize (Hch Hi). apply IH. pose proof (sc_step _ _ _ _ _ _ _ Hch) as Hst.
  split; [apply Hch|]. split; [|by eapply HF].
  pose proof Ho as [H1 H2 H3 H4 H5]. split.
  - by rewrite (ot_x _ _ _ _ _ Hot).
  - by rewrite (ot_pins _ _ _ _ _ Hot).
  - by rewrite (ot_fly _ _ _ _ _ Hot).
  - done.
  - intros t a Ha. by eapply handle_valid.
Qed.

Abbreviation R := rely.
Abbreviation G := guar.

Lemma owns_ret_sweep {A} i c F s (a : A) (Q : A → world * ghost → Prop) :
  stable F → owns i c F s → (∀ s', owns i c F s' → Q a s') → rg (R i) (G i) (Ret a) Q s.
Proof. intros HF Ho HQ s' Hr. apply HQ. by eapply owns_stable_sweep. Qed.

Lemma owns_mono_sweep i c F F' s : owns i c F s → (∀ w g, F w g → F' w g) → owns i c F' s.
Proof. intros (? & ? & ?) HF. split; [done|]. split; [done|auto]. Qed.

(** One atomic action of a client. *)
Lemma action_sweep {Y} i c (c' : Y → self) F F' s (f : world → outcome world Y) (φ : Y → Prop) :
  stable F → (∀ y, stable (F' y)) → owns i c F s →
  (∀ w g, sinv w g → owned_by i c w g → F w g →
     ∃ y w' g', f w = Done y w' ∧ φ y ∧ F' y w' g' ∧ schange w g w' g' ∧
       others i w g w' g' ∧ owned_by i (c' y) w' g') →
  rg (R i) (G i) (action f) (λ y s', φ y ∧ owns i (c' y) (F' y) s') s.
Proof.
  intros HF HF' Ho Hf s1 Hr. destruct (owns_stable_sweep _ _ _ _ _ HF Hr Ho) as (Hi & Hb & HF1).
  destruct (Hf s1.1 s1.2 Hi Hb HF1) as (y & w' & g' & -> & Hφ & HFy & Hch & Hot & Hb').
  exists g'. split; [by split|].
  apply (owns_ret_sweep i (c' y) (F' y)); [done| |done]. split; [apply Hch|by split].
Qed.

(** An action that changes nothing that the threads own. *)
Lemma quiet_sweep {Y} i c F F' s (f : world → outcome world Y) (φ : Y → Prop) :
  stable F → (∀ y, stable (F' y)) → owns i c F s →
  (∀ w g, sinv w g → owned_by i c w g → F w g →
     ∃ y w', f w = Done y w' ∧ φ y ∧ F' y w' g ∧ schange w g w' g ∧ phase (heap w') = phase (heap w)) →
  rg (R i) (G i) (action f) (λ y s', φ y ∧ owns i c (F' y) s') s.
Proof.
  intros HF HF' Ho Hf. apply (action_sweep i c (λ _, c) F F'); [done..|].
  intros w g Hi Hb HFw. destruct (Hf w g Hi Hb HFw) as (y & w' & Hy & Hφ & HFy & Hch & Hp).
  exists y, w', g. do 4 (split; [done|]). split; [by split|].
  pose proof Hb as [H1 H2 H3 H4 H5]. split; try done. intros t a Ha.
  eapply handle_valid; [apply Hch|exact Hb|exact Ha].
Qed.

Lemma schange_refl w g : sinv w g → schange w g w g.
Proof.
  intros Hi. apply schange_intro; try done; [|by apply back_same].
  split; [done|by eauto|by eauto|done|by left|done|by apply calm_same].
Qed.

(** An action that only reads. *)
Lemma reading_sweep {Y} i c F F' s (f : world → outcome world Y) (φ : Y → Prop) :
  stable F → (∀ y, stable (F' y)) → owns i c F s →
  (∀ w g, sinv w g → owned_by i c w g → F w g → ∃ y, f w = Done y w ∧ φ y ∧ F' y w g) →
  rg (R i) (G i) (action f) (λ y s', φ y ∧ owns i c (F' y) s') s.
Proof.
  intros HF HF' Ho Hf. apply (quiet_sweep i c F F'); [done..|]. intros w g Hi Hb HFw.
  destruct (Hf w g Hi Hb HFw) as (y & Hy & Hφ & HFy). exists y, w.
  do 3 (split; [done|]). split; [by apply schange_refl|done].
Qed.

Lemma stable_and_sweep F F' : stable F → stable F' → stable (λ w g, F w g ∧ F' w g).
Proof. intros H1 H2 w g w' g' Hs [? ?]. split; [by eapply H1|by eapply H2]. Qed.

(** ** The busy counter *)

Lemma others_threads i w g w' m' :
  phase (heap w') = phase (heap w) → others i w g w' (with_threads g (<[i := m']> (g_x g))).
Proof.
  intros Hp. split; try done; cbn; [|by rewrite length_insert]. intros j Hj. by rewrite list_lookup_insert_ne.
Qed.

Lemma owned_threads i c w g w' m' hs :
  owned_by i c w g → mt_roots m' = hs.*2 → (∀ t a, (t, a) ∈ hs → valid w' t a) →
  owned_by i (mkSelf m' hs (se_pins c) (se_fly c)) w' (with_threads g (<[i := m']> (g_x g))).
Proof.
  intros [H1 H2 H3 H4 H5] Hr Hv. split; try done. cbn. apply list_lookup_insert_eq.
  by eapply lookup_lt_Some.
Qed.

(** An action on the busy counter. *)
Lemma busy_sweep i c m' F s (f : Z → Z) :
  stable F → owns i c F s → mt_roots m' = mt_roots (se_m c) → mt_new m' = mt_new (se_m c) →
  mt_unc m' = mt_unc (se_m c) → mt_bytes m' = mt_bytes (se_m c) → mt_incs m' = mt_incs (se_m c) →
  (∀ z, f (usize_wrap z) = usize_wrap (z - Z.of_nat (mt_busy (se_m c)) + Z.of_nat (mt_busy m'))) →
  rg (R i) (G i) (heap_set (λ h, set_n_busy_marking h (f (n_busy_marking h))))
    (λ _ s', owns i (mkSelf m' (se_hs c) (se_pins c) (se_fly c)) F s') s.
Proof.
  intros HF Ho Er En Eu Eb Ei Hf. eapply rg_mono.
  - apply (action_sweep i c (λ _, mkSelf m' (se_hs c) (se_pins c) (se_fly c)) F (λ _, F) s _ (λ _, True));
      [done..|]. intros w g Hi Hb Hw.
    assert (schange w g (set_heap w (set_n_busy_marking (heap w) (f (n_busy_marking (heap w)))))
      (with_threads g (<[i := m']> (g_x g)))) as Hch.
    { apply (busy_schange o T B w g i (se_m c)); [done|apply Hb|done..|].
      by rewrite (sv_busy _ _ _ _ _ Hi), Hf. }
    eexists tt, _, _. split; [done|]. split; [done|].
    split; [|split; [exact Hch|split; [by apply others_threads|]]].
    + eapply HF; [apply Hch|done].
    + apply (owned_threads i c w); [done|by rewrite Er; apply Hb|]. intros t a Ha.
      eapply handle_valid; [apply Hch|exact Hb|exact Ha].
  - by intros ? s1 [_ ?].
Qed.

(** No mark phase is under way. *)
Lemma check_sweep i c F s :
  stable F → owns i c F s → mt_busy (se_m c) = 0%nat →
  rg (R i) (G i) Heap.check_is_marking_and_increment_busy (λ r s', r = false ∧ owns i c F s') s.
Proof.
  intros HF Ho Hz. unfold Heap.check_is_marking_and_increment_busy. eapply rg_bind.
  { apply (busy_sweep i c (mt_enter (se_m c)) F s (λ z, usize_fetch_add z 1)); [done..|].
    intros z. rewrite usize_wrap_add, Hz. f_equal. cbn. lia. }
  intros [] s1 Ho1. eapply rg_bind.
  { apply (reading_sweep i (mkSelf (mt_enter (se_m c)) (se_hs c) (se_pins c) (se_fly c)) F (λ _, F) s1 _
      (λ r, r = false)); [done..|].
    intros w g Hi _ Hw. eexists. split; [done|]. split; [|done].
    apply bool_decide_eq_false. apply Hi. }
  intros r s2 [-> Ho2]. eapply rg_bind.
  { apply (busy_sweep i (mkSelf (mt_enter (se_m c)) (se_hs c) (se_pins c) (se_fly c)) (se_m c) F s2 (λ z, usize_fetch_sub z 1)); [done|exact Ho2|done..|].
    intros z. rewrite usize_wrap_sub, Hz. f_equal. cbn. lia. }
  intros [] s3 Ho3. eapply owns_ret_sweep; [exact HF| |].
  - destruct c. exact Ho3.
  - done.
Qed.

Lemma assist_sweep i c F s fuel :
  stable F → owns i c F s → mt_busy (se_m c) = 0%nat →
  rg (R i) (G i) (Heap.assist fuel) (λ _ s', owns i c F s') s.
Proof.
  intros HF Ho Hz. unfold Heap.assist. eapply rg_bind.
  { apply (reading_sweep i c F (λ _, F) s _ (λ _, True)); [done..|].
    intros w g Hi _ Hw. eexists. split; [by destruct w|done]. }
  intros r s1 [_ Ho1]. destruct (0 <? _); [|by eapply owns_ret_sweep].
  eapply rg_bind; [by apply (check_sweep i c F)|]. intros b s2 [-> Ho2]. by eapply owns_ret_sweep.
Qed.

(** ** Allocation *)

Definition few (k : Z) (w : world) (g : ghost) : Prop := turns g ≤ k.
Definition head_was (h : option loc) (k : Z) (w : world) (g : ghost) : Prop :=
  turns g ≤ k ∧ (head (heap w) = h ∨ turns g ≤ k - 1).

Lemma few_stable k : stable (few k).
Proof. intros w g w' g' Hs Hk. pose proof (st_turns _ _ _ _ Hs). unfold few in *. lia. Qed.

Lemma head_was_stable_sweep h k : stable (head_was h k).
Proof.
  intros w g w' g' Hs [Hk Hor]. pose proof (st_turns _ _ _ _ Hs). unfold head_was.
  split; [lia|]. destruct (st_head _ _ _ _ Hs) as [->|?]; [|right; lia].
  destruct Hor; [by left|right; lia].
Qed.

(** A linked object is waiting for its turn. *)
Lemma new_turns w g i m : sinv w g → g_x g !! i = Some m → mt_new m ≠ [] → 0 < turns g.
Proof.
  intros Hi Hx Hn. assert (pending m ≤ msum pending (g_x g)) by
    (apply msum_elem; [intros; unfold pending; lia|by eapply thread_in]).
  assert (length (mt_new m) ≠ 0)%nat by by intros ?%length_zero_iff_nil.
  unfold turns, pending in *. lia.
Qed.

Section push.
Variables (i : nat) (hs : list (ty * loc)) (ps : list loc) (F : world → ghost → Prop).
Hypothesis Hi0 : i ≠ 0%nat.
Hypothesis HF : stable F.

(** The loop ends: an attempt fails only if the head has changed since it was
    read, which happens at most [turns] times. *)
Lemma push_loop_sweep fuel m a n k s :
  owns i (mkSelf m hs ps [a]) (λ w g, F w g ∧ few k w g) s → mt_new m = [(a, n)] →
  k ≤ Z.of_nat fuel →
  rg (R i) (G i) (Heap.push_loop fuel a)
    (λ _ s', owns i (mkSelf (mt_link m []) hs ps [a]) F s') s.
Proof.
  revert m n k s. induction fuel as [|fuel IH]; intros m n k s Ho Hn Hfuel.
  { destruct Ho as (Hi & Hb & _ & Hk). unfold few in Hk.
    assert (0 < turns s.2); [|lia]. eapply new_turns; [exact Hi|apply Hb|]. cbn. by rewrite Hn. }
  cbn [Heap.push_loop]. eapply rg_bind.
  { apply (reading_sweep i (mkSelf m hs ps [a]) (λ w g, F w g ∧ few k w g)
      (λ h w g, F w g ∧ head_was h k w g) s _ (λ _, True));
      [apply stable_and_sweep; [done|apply few_stable]
      |intros h; apply stable_and_sweep; [done|apply head_was_stable_sweep]|done|].
    intros w g Hi Hb [HFw Hk]. eexists. split; [by destruct w|]. split; [done|].
    split; [done|]. split; [exact Hk|by left]. }
  intros h s1 [_ Ho1]. set (m1 := mt_link m [(a, h)]). eapply rg_bind.
  { apply (action_sweep i (mkSelf m hs ps [a]) (λ _, mkSelf m1 hs ps [a]) (λ w g, F w g ∧ head_was h k w g)
      (λ _ w g, F w g ∧ head_was h k w g) s1 _ (λ _, True));
      [apply stable_and_sweep; [done|apply head_was_stable_sweep]
      |intros _; apply stable_and_sweep; [done|apply head_was_stable_sweep]|done|].
    intros w g Hi Hb Hw. pose proof (relink_schange o T B w g i m a n h Hi (ow_x _ _ _ _ Hb) Hn) as Hch.
    pose proof (new_block w g m a n (sv_list _ _ _ _ _ Hi) (thread_in (ow_x _ _ _ _ Hb))) as Hbl.
    rewrite Hn in Hbl. destruct (Hbl ltac:(by left)) as [b Hb0].
    exists tt, (relinked w a h), (with_threads g (<[i := m1]> (g_x g))).
    split; [unfold relinked; by rewrite Hb0, alter_alt, Hb0|]. split; [done|].
    split; [|split; [exact Hch|split; [by apply others_threads|]]].
    - destruct Hw as [HFw Hh]. split; [by eapply HF; [apply Hch|]|].
      eapply head_was_stable_sweep; [apply Hch|done].
    - apply (owned_threads i (mkSelf m hs ps [a]) w); [exact Hb|apply Hb|]. intros t y Hy.
      eapply handle_valid; [apply Hch|exact Hb|exact Hy]. }
  intros [] s2 [_ Ho2]. eapply rg_bind.
  { apply (action_sweep i (mkSelf m1 hs ps [a])
      (λ ok : bool, mkSelf (if ok then mt_link m [] else m1) hs ps [a])
      (λ w g, F w g ∧ head_was h k w g) (λ ok w g, F w g ∧ (ok = false → few (k - 1) w g)) s2 _ (λ _, True));
      [apply stable_and_sweep; [done|apply head_was_stable_sweep]| |done|].
    - intros ok w g w' g' Hs [HFw Hk]. split; [by eapply HF|]. intros Hok.
      eapply few_stable; [exact Hs|by apply Hk].
    - intros w g Hi Hb [HFw Hwas]. destruct (decide (head (heap w) = h)) as [Hh|Hh].
      + assert (schange w g (with_head w (Some a))
          (with_sw (with_threads g (<[i := mt_link m1 []]> (g_x g))) (sw_push (g_sw g) a))) as Hch.
        { apply push_schange; [done|apply Hb| |apply Hb]. cbn. by rewrite Hh. }
        eexists true, (with_head w (Some a)), _. rewrite bool_decide_eq_true_2 by done.
        split; [done|]. split; [done|]. split; [|split; [exact Hch|split]].
        * split; [by eapply HF; [apply Hch|]|done].
        * destruct (others_threads i w g (with_head w (Some a)) (mt_link m1 []) eq_refl) as [H1 Hlen H2 H3 H4 H5 H6 H7 H8].
          split; try done; intros; cbn; [by apply (sw_push_same (g_sw g) a)..| |by apply (sw_push_same (g_sw g) a)].
          unfold sw_push. by case_match.
        * destruct (owned_threads i _ w g (with_head w (Some a)) (mt_link m1 []) hs Hb) as [H1 H2 H3 H4 H5];
            [apply Hb| |by split]. intros t y Hy. by apply (ow_valid _ _ _ _ Hb).
      + exists false, w, g. rewrite bool_decide_eq_false_2 by done.
        split; [by destruct w|]. split; [done|].
        split; [|split; [by apply schange_refl|split; [by split|done]]].
        split; [done|]. intros _. destruct Hwas as [_ [?|?]]; done. }
  intros [] s3 [_ Ho3].
  - eapply owns_ret_sweep; [|exact Ho3|].
    + intros w g w' g' Hs [HFw Hk]. split; [by eapply HF|done].
    + intros s4 Ho4. eapply owns_mono_sweep; [exact Ho4|]. by intros w g [? _].
  - change (mt_link m []) with (mt_link m1 []). apply (IH m1 h (k - 1)); [|done|lia].
    eapply owns_mono_sweep; [exact Ho3|]. intros w g [? Hk]. split; [done|by apply Hk].
Qed.

End push.

(** ** The operations of a client *)

(** What a client holds and knows between two operations:
    - [sk_roots]: its roots;
    - [sk_pins]: those it keeps until the sweep is over;
    - [sk_bytes], [sk_incs]: how many bytes it may still allocate, and how many roots it
      may still create;
    - [sk_known]: pointers to secure objects, and cells that hold such pointers. *)
Record sknow := mkSknow {
  sk_roots : list (ty * loc);
  sk_pins : list loc;
  sk_bytes : Z;
  sk_incs : nat;
  sk_known : list treq;
}.

Definition between (k : sknow) : self :=
  mkSelf (at_rest (sk_roots k).*2 (sk_bytes k) (sk_incs k)) (sk_roots k) (sk_pins k) [].

Definition known (K : list treq) (w : world) (g : ghost) : Prop := Forall (good w g) K.

Definition knows (i : nat) (k : sknow) s : Prop := owns i (between k) (known (sk_known k)) s.

Lemma known_stable K : stable (known K).
Proof. intros w g w' g' Hs. by apply all_good_step. Qed.

#[local] Hint Resolve known_stable stable_and_sweep few_stable head_was_stable_sweep : core.

Section operations.
Variables (i : nat) (hs : list (ty * loc)) (ps : list loc) (b : Z) (n : nat) (K : list treq).
Hypothesis Hi0 : i ≠ 0%nat.

Abbreviation k0 := (mkSknow hs ps b (S n) K).
Abbreviation k1 := (mkSknow hs ps b n K).

Definition pin_known (pin : bool) (r : treq) : list treq := if pin then r :: K else K.

Lemma allocate_sweep s fuel t d (pin : bool) :
  knows i k0 s → has_type d t = true → (∀ r, r ∈ owned d → r ∈ K) → layout_size t ≤ b →
  T ≤ Z.of_nat fuel →
  rg (R i) (G i) (Heap.allocate fuel t d)
    (λ a s', knows i (mkSknow ((t, a) :: hs) (pin_new pin a ps) (b - layout_size t) n
                        (pin_known pin (RMark t a))) s') s.
Proof.
  intros Ho Hty HK Hsz HT. unfold Heap.allocate. set (m := at_rest hs.*2 b (S n)) in *.
  eapply rg_bind; [by apply (assist_sweep i (between k0) (known K))|]. intros r s1 Ho1.
  set (m1 := λ a, mt_alloc m a (layout_size t) n).
  set (K1 := λ a, pin_known pin (RMark t a)).
  set (c1 := λ a, mkSelf (m1 a) ((t, a) :: hs) (pin_new pin a ps) [a]). eapply rg_bind.
  { apply (action_sweep i (between k0) c1 (known K) (λ a w g, known (K1 a) w g ∧ few T w g) s1 _ (λ _, True));
      [done|by auto|done|].
    intros w g Hi Hb Hw. set (a := malloc (dom (mem w))).
    assert (Forall (good w g) (owned d)) as Hgood.
    { apply Forall_forall. intros r0 Hr0. unfold known in Hw. rewrite Forall_forall in Hw. auto. }
    pose proof (box_schange o T B w g i m t d n pin ps Hi (ow_x _ _ _ _ Hb) (ow_pins _ _ _ _ Hb)
      (ow_fly _ _ _ _ Hb) ltac:(done) Hsz Hty Hgood) as Hch.
    fold a in Hch.
    eexists a, _, _. split; [done|]. split; [done|]. split; [|split; [exact Hch|]].
    - pose proof (known_stable K _ _ _ _ (sc_step _ _ _ _ _ _ _ Hch) Hw) as HK'. split.
      + unfold K1, pin_known. destruct pin; [|done]. apply Forall_cons. split; [|done]. cbn.
        split; [|exists (GcBox_init t d); split; [apply lookup_insert_eq|done]].
        split; [cbn; by rewrite lookup_insert_eq|]. right. right. cbn.
        rewrite (elem_of_held_insert _ _ _ _ _ (ow_pins _ _ _ _ Hb)). left. by left.
      + apply (sv_turns _ _ _ _ _ (sc_inv _ _ _ _ _ _ _ Hch)).
    - split.
      + split; try done; cbn;
          first [by rewrite length_insert|intros j Hj; by rewrite list_lookup_insert_ne].
      + pose proof Hb as [H1 H2 H3 H4 H5]. split; cbn.
        * apply list_lookup_insert_eq. by eapply lookup_lt_Some.
        * apply list_lookup_insert_eq. by eapply lookup_lt_Some.
        * apply list_lookup_insert_eq. by eapply lookup_lt_Some.
        * done.
        * intros t' y [[= -> ->]|Hy]%elem_of_cons.
          -- exists (GcBox_init t d). split; [apply lookup_insert_eq|done].
          -- eapply (handle_valid w g _ _ i (between k0)); [apply Hch|exact Hb|exact Hy]. }
  intros a s2 [_ Ho2]. eapply rg_bind.
  { apply (reading_sweep i (c1 a) (λ w g, known (K1 a) w g ∧ few T w g)
      (λ _ w g, known (K1 a) w g ∧ few T w g) s2 _ (λ sz, sz = layout_size t)); [by auto..|done|].
    intros w g Hi Hb Hw. destruct (ow_valid _ _ _ _ Hb t a ltac:(by left)) as (bx & Hbx & <-).
    exists (layout_size (box_ty bx)). rewrite Hbx. split; [|done].
    by rewrite (wf_vtable _ (ok_mem _ _ (sv_objects _ _ _ _ _ Hi)) _ _ Hbx). }
  intros sz s3 [-> Ho3]. eapply rg_bind.
  { apply (push_loop_sweep i ((t, a) :: hs) (pin_new pin a ps) (known (K1 a)) ltac:(done)
      (known_stable _) fuel (m1 a) a None T); [done..|lia]. }
  intros [] s4 Ho4. eapply rg_bind.
  { apply (action_sweep i (mkSelf (mt_link (m1 a) []) ((t, a) :: hs) (pin_new pin a ps) [a])
      (λ _, between (mkSknow ((t, a) :: hs) (pin_new pin a ps) (b - layout_size t) n (K1 a)))
      (known (K1 a)) (λ _, known (K1 a)) s4 _ (λ _, True)); [by auto|by auto|exact Ho4|].
    intros w g Hi Hb Hw.
    pose proof (count_schange o T B w g i _ Hi HB (ow_x _ _ _ _ Hb)) as Hch.
    eexists _, _, _. split; [done|]. split; [done|]. split; [|split; [exact Hch|]].
    - by eapply known_stable; [apply Hch|].
    - pose proof Hb as [H1 H2 H3 H4 H5]. split.
      + split; try done; cbn;
          first [by rewrite length_insert|intros j Hj; by rewrite list_lookup_insert_ne].
      + split; cbn; try done.
        * apply list_lookup_insert_eq. by eapply lookup_lt_Some.
        * apply list_lookup_insert_eq. by eapply lookup_lt_Some. }
  intros [] s5 [_ Ho5]. eapply owns_ret_sweep; [|exact Ho5|done]. apply known_stable.
Qed.

(** *** Smart pointers *)

Lemma inc_root_sweep s t a :
  knows i k0 s → RMark t a ∈ K ∨ (t, a) ∈ hs →
  rg (R i) (G i) (inc_root a) (λ _ s', knows i (mkSknow ((t, a) :: hs) ps b n K) s') s.
Proof.
  intros Ho Hor. eapply rg_mono.
  - apply (action_sweep i (between k0) (λ _, between (mkSknow ((t, a) :: hs) ps b n K)) (known K)
      (λ _, known K) s _ (λ _, True)); [by auto..|done|].
    intros w g Hi Hb Hw. pose proof Hb as [H1 H2 H3 H4 H5]. cbn in H1, H2, H3, H4.
    assert (valid w t a ∧ (secure w g a ∨ a ∈ hs.*2)) as [Hv Hs].
    { unfold known in Hw. rewrite Forall_forall in Hw. destruct Hor as [Hin|Hin].
      - destruct (Hw _ Hin). by split; [|left].
      - split; [by apply H5|]. right. apply list_elem_of_fmap. by exists (t, a). }
    pose proof (inc_schange o T B w g i _ a n Hi H1 Hs eq_refl H3 eq_refl) as Hch.
    destruct Hv as (bx & Hbx & Hty). eexists tt, (rerooted w a (λ k, usize_fetch_add k 1)), _.
    split; [rewrite Hbx; cbn; unfold rerooted; by rewrite alter_alt, Hbx|]. split; [done|].
    split; [|split; [exact Hch|split; [by apply others_threads|]]].
    + by eapply known_stable; [apply Hch|].
    + apply (owned_threads i (between k0) w); [exact Hb|done|].
      intros t' y [[= -> ->]|Hy]%elem_of_cons; [|by eapply handle_valid; [apply Hch|exact Hb|exact Hy]].
      exists (mkBox (set_root_count (header bx) (usize_fetch_add (root_count (header bx)) 1)) (data bx)).
      split; [cbn; by rewrite lookup_alter_eq, Hbx|done].
  - by intros ? s1 [_ ?].
Qed.

Lemma root_sweep s t a :
  knows i k0 s → RMark t a ∈ K ∨ (t, a) ∈ hs →
  rg (R i) (G i) (GcPtr.root a) (λ r s', r = a ∧ knows i (mkSknow ((t, a) :: hs) ps b n K) s') s ∧
  rg (R i) (G i) (GcRoot.clone a) (λ r s', r = a ∧ knows i (mkSknow ((t, a) :: hs) ps b n K) s') s.
Proof.
  intros Ho Hor. assert (rg (R i) (G i) (GcPtr.root a)
    (λ r s', r = a ∧ knows i (mkSknow ((t, a) :: hs) ps b n K) s') s) as Hr; [|by split].
  unfold GcPtr.root. eapply rg_bind; [by eapply inc_root_sweep|]. intros ? s1 Ho1.
  eapply owns_ret_sweep; [|exact Ho1|done]. apply known_stable.
Qed.

Lemma drop_sweep s t a hs' :
  knows i k1 s → hs ≡ₚ (t, a) :: hs' → (a ∈ ps → a ∈ hs'.*2) →
  rg (R i) (G i) (GcRoot.drop a) (λ _ s', knows i (mkSknow hs' ps b n K) s') s.
Proof.
  intros Ho Hp Hpin. eapply rg_mono.
  - apply (action_sweep i (between k1) (λ _, between (mkSknow hs' ps b n K)) (known K)
      (λ _, known K) s _ (λ _, True)); [by auto..|done|].
    intros w g Hi Hb Hw. pose proof Hb as [H1 H2 H3 H4 H5]. cbn in H1, H2, H3, H4.
    assert (mt_roots (at_rest hs.*2 b n) ≡ₚ a :: hs'.*2) as Hp2 by (cbn; by rewrite Hp).
    pose proof (dec_schange o T B w g i _ a _ ps Hi H1 Hp2 H2 Hpin H3 eq_refl) as Hch.
    destruct (H5 t a) as (bx & Hbx & Hty); [cbn; rewrite Hp; by left|].
    eexists tt, (rerooted w a (λ k, usize_fetch_sub k 1)), _.
    split; [rewrite Hbx; cbn; unfold rerooted; by rewrite alter_alt, Hbx|]. split; [done|].
    split; [|split; [exact Hch|split; [by apply others_threads|]]].
    + by eapply known_stable; [apply Hch|].
    + apply (owned_threads i (between k1) w); [exact Hb|done|]. intros t' y Hy.
      eapply handle_valid; [apply Hch|exact Hb|]. cbn. rewrite Hp. by right.
  - by intros ? s1 [_ ?].
Qed.

(** What an object that may be used holds. *)
Lemma data_sweep s t a :
  knows i k1 s → RMark t a ∈ K ∨ (t, a) ∈ hs →
  rg (R i) (G i) (box_get a data)
    (λ v s', has_type v t = true ∧ knows i (mkSknow hs ps b n (owned v ++ K)) s') s.
Proof.
  intros Ho Hor.
  apply (reading_sweep i (between k1) (known K) (λ v, known (owned v ++ K))); [by auto..|done|].
  intros w g Hi Hb Hw. unfold known in Hw. assert (valid w t a ∧ ∀ bx, mem w !! a = Some bx → alive w g a bx) as [Hv Hal].
  { destruct Hor as [Hin|Hin].
    - rewrite Forall_forall in Hw. destruct (Hw _ Hin). split; [done|]. by left.
    - split; [by apply (ow_valid _ _ _ _ Hb)|]. intros bx Hbx. right. left.
      rewrite (block_roots _ _ _ _ (sv_roots _ _ _ _ _ Hi) Hbx). apply (thread_root (ow_x _ _ _ _ Hb)).
      cbn. apply list_elem_of_fmap. by exists (t, a). }
  destruct Hv as (bx & Hbx & <-). exists (data bx). rewrite Hbx. split; [done|].
  destruct (ok_alive _ _ (sv_objects _ _ _ _ _ Hi) _ _ Hbx (Hal _ Hbx)) as [Hty Hg].
  split; [done|]. apply Forall_app. by split.
Qed.

(** *** Cells *)

Lemma cell_new_sweep s t v :
  knows i k1 s → cell_type t → is_copy t = true → has_type v t = true → (∀ r, r ∈ owned v → r ∈ K) →
  rg (R i) (G i) (GcCell.new v) (λ c s', knows i (mkSknow hs ps b n (RCell c :: K)) s') s.
Proof.
  intros Ho Hct Hc Hty HK. eapply rg_mono.
  - apply (quiet_sweep i (between k1) (known K) (λ c, known (RCell c :: K)) s _ (λ _, True)); [by auto..|done|].
    intros w g Hi Hb Hw. set (c := malloc (dom (cells w))).
    assert (schange w g (celled w c v) g) as Hch.
    { apply (cell_schange o T B w g c v t); [done..|]. intros [v0 Hv0].
      assert (cells w !! c = None) as Hn by (apply not_elem_of_dom, malloc_fresh). congruence. }
    exists c, (celled w c v). split; [done|]. split; [done|]. split; [|by split].
    pose proof (known_stable K _ _ _ _ (sc_step _ _ _ _ _ _ _ Hch) Hw) as HK'.
    apply Forall_cons. split; [|done]. exists v. split; [cbn; by rewrite lookup_insert_eq|].
    intros t' a Hin. unfold known in HK'. rewrite Forall_forall in HK'. apply (HK' _ (HK _ Hin)).
  - by intros ? s1 [_ ?].
Qed.

Lemma cell_get_sweep s c :
  knows i k1 s → RCell c ∈ K →
  rg (R i) (G i) (GcCell.get c)
    (λ v s', (∃ t, cell_type t ∧ is_copy t = true ∧ has_type v t = true) ∧
       knows i (mkSknow hs ps b n (owned v ++ K)) s') s.
Proof.
  intros Ho HK. apply (reading_sweep i (between k1) (known K) (λ v, known (owned v ++ K))); [by auto..|done|].
  intros w g Hi Hb Hw. pose proof Hw as HF. unfold known in HF. rewrite Forall_forall in HF.
  destruct (HF _ HK) as (v & Hv & Hown). exists v. rewrite Hv. split; [done|].
  destruct (ok_cells _ _ (sv_objects _ _ _ _ _ Hi) _ _ Hv) as (t & Hcy & Hct & Hty).
  split; [by exists t|]. apply Forall_app. split; [|done].
  pose proof (copy_owned _ _ Hty Hct) as Hmarks. rewrite Forall_forall in Hmarks |- *.
  intros r Hin. pose proof (Hmarks _ Hin). destruct r as [t' a|c']; [by apply Hown|done].
Qed.

(** The write barrier does nothing: no mark phase is under way. *)
Lemma cell_set_sweep s th c t v :
  knows i k1 s → RCell c ∈ K → cell_type t → is_copy t = true → has_type v t = true →
  (∀ r, r ∈ owned v → r ∈ K) →
  rg (R i) (G i) (GcCell.set th c v) (λ _ s', knows i k1 s') s.
Proof.
  intros Ho HcK Hct Hc Hty HK. unfold GcCell.set, GcContext.with_current_context. eapply rg_bind.
  { eapply rg_bind.
    { apply (reading_sweep i (between k1) (known K) (λ _, known K) s _ (λ _, True)); [by auto..|done|].
      intros w g Hi Hb Hw. by eexists. }
    intros [ctx|] s1 [_ Ho1].
    - eapply rg_bind.
      { eapply rg_bind; [by apply (check_sweep i (between k1) (known K))|].
        intros r s2 [-> Ho2]. eapply (owns_ret_sweep _ _ _ _ _ (λ _ s', knows i k1 s')); [|exact Ho2|done].
        apply known_stable. }
      intros ? s2 Ho2. eapply (owns_ret_sweep _ _ _ _ _ (λ _ s', knows i k1 s')); [|exact Ho2|done].
      apply known_stable.
    - eapply (owns_ret_sweep _ _ _ _ _ (λ _ s', knows i k1 s')); [|exact Ho1|done]. apply known_stable. }
  intros r2 s2 Ho2. cbn beta in Ho2. eapply rg_mono.
  - apply (quiet_sweep i (between k1) (known K) (λ _, known K) s2 _ (λ _, True)); [by auto..|done|].
    intros w g Hi Hb Hw. pose proof Hw as HF. unfold known in HF. rewrite Forall_forall in HF.
    destruct (HF _ HcK) as (v0 & Hv0 & _).
    assert (schange w g (celled w c v) g) as Hch.
    { apply (cell_schange o T B w g c v t); [done..|]. intros _. apply Forall_forall. auto. }
    exists tt, (celled w c v). rewrite Hv0. split; [done|]. split; [done|]. split; [|by split].
    by eapply known_stable; [apply Hch|].
  - by intros ? s3 [_ ?].
Qed.

End operations.

(** Any read of the state. *)
Lemma peek_sweep {X} i k s (f : world → X) :
  knows i k s → rg (R i) (G i) (get f) (λ _ s', knows i k s') s.
Proof.
  intros Ho. eapply rg_mono.
  - apply (reading_sweep i (between k) (known (sk_known k)) (λ _, known (sk_known k)) s _ (λ _, True));
      [by auto..|done|]. intros w g _ _ Hw. by eexists.
  - by intros ? s1 [_ ?].
Qed.

End clients.

(** ** The discipline of a client *)

Section discipline.
Context `{Env} {CT : CellTypes}.

(** [sweep_client fuel k p Q]: while another thread sweeps, a thread may run [p] when it
    knows [k], and [Q] holds of the result and what it knows then.  What is stored, and
    what a new object points to, has to be known secure.  A new object is known so only
    if its root is kept ([pin]); a root that is kept may be dropped if it is not the
    last one that the thread has of the object.  No collection may be started. *)
Inductive sweep_client (fuel : nat) : ∀ A, sknow → gc A → (A → sknow → Prop) → Prop :=
  | sweep_ret A k (r : A) (Q : A → sknow → Prop) : Q r k → sweep_client fuel A k (Ret r) Q
  | sweep_bind A C k (p : gc A) (f : A → gc C) P Q :
      sweep_client fuel A k p P →
      (∀ r k', P r k' → sweep_client fuel C k' (f r) Q) →
      sweep_client fuel C k (bind p f) Q
  | sweep_mono A k (p : gc A) (P Q : A → sknow → Prop) :
      sweep_client fuel A k p P → (∀ r k', P r k' → Q r k') → sweep_client fuel A k p Q
  | sweep_allocate hs ps b n K t d (pin : bool) :
      has_type d t = true → (∀ r, r ∈ owned d → r ∈ K) → layout_size t ≤ b →
      sweep_client fuel loc (mkSknow hs ps b (S n) K) (Heap.allocate fuel t d)
        (λ a k', k' = mkSknow ((t, a) :: hs) (pin_new pin a ps) (b - layout_size t) n
                        (pin_known K pin (RMark t a)))
  | sweep_root hs ps b n K t a :
      RMark t a ∈ K ∨ (t, a) ∈ hs →
      sweep_client fuel loc (mkSknow hs ps b (S n) K) (GcPtr.root a)
        (λ r k', r = a ∧ k' = mkSknow ((t, a) :: hs) ps b n K)
  | sweep_clone hs ps b n K t a :
      (t, a) ∈ hs →
      sweep_client fuel loc (mkSknow hs ps b (S n) K) (GcRoot.clone a)
        (λ r k', r = a ∧ k' = mkSknow ((t, a) :: hs) ps b n K)
  | sweep_drop hs hs' ps b n K t a :
      hs ≡ₚ (t, a) :: hs' → (a ∈ ps → a ∈ hs'.*2) →
      sweep_client fuel unit (mkSknow hs ps b n K) (GcRoot.drop a)
        (λ _ k', k' = mkSknow hs' ps b n K)
  | sweep_deref hs ps b n K t a :
      (t, a) ∈ hs →
      sweep_client fuel val (mkSknow hs ps b n K) (GcRoot.deref a)
        (λ v k', has_type v t = true ∧ k' = mkSknow hs ps b n (owned v ++ K))
  | sweep_as_ptr hs ps b n K t a :
      RMark t a ∈ K ∨ (t, a) ∈ hs →
      sweep_client fuel val (mkSknow hs ps b n K) (GcPtr.as_ptr a)
        (λ v k', has_type v t = true ∧ k' = mkSknow hs ps b n (owned v ++ K))
  | sweep_cell_new hs ps b n K t v :
      cell_type t → is_copy t = true → has_type v t = true → (∀ r, r ∈ owned v → r ∈ K) →
      sweep_client fuel loc (mkSknow hs ps b n K) (GcCell.new v)
        (λ c k', k' = mkSknow hs ps b n (RCell c :: K))
  | sweep_cell_get hs ps b n K c :
      RCell c ∈ K →
      sweep_client fuel val (mkSknow hs ps b n K) (GcCell.get c)
        (λ v k', (∃ t, cell_type t ∧ is_copy t = true ∧ has_type v t = true) ∧
           k' = mkSknow hs ps b n (owned v ++ K))
  | sweep_cell_set hs ps b n K th c t v :
      RCell c ∈ K → cell_type t → is_copy t = true → has_type v t = true →
      (∀ r, r ∈ owned v → r ∈ K) →
      sweep_client fuel unit (mkSknow hs ps b n K) (GcCell.set th c v)
        (λ _ k', k' = mkSknow hs ps b n K)
  | sweep_read X k (f : world → X) : sweep_client fuel X k (get f) (λ _ k', k' = k).

End discipline.
Arguments sweep_client {_ _} fuel {A} k p Q.

(** Every such client runs safely. *)
Lemma sweep_client_rg `{Env} `{!TraceContract} {CT : CellTypes} o T B {A} fuel i k (p : gc A) Q s :
  B ≤ usize_max → i ≠ 0%nat → T ≤ Z.of_nat fuel →
  sweep_client fuel k p Q → knows o T B i k s →
  rg (rely o T B i) (guar o T B i) p (λ r s', ∃ k', Q r k' ∧ knows o T B i k' s') s.
Proof.
  intros HB Hi HT Hp. revert s.
  induction Hp as [A k r Q HQ|A C k p f P Q _ IHp _ IHk|A k p P Q _ IHp HPQ
    |hs ps b n K t d pin Hty HK Hsz|hs ps b n K t a Hor|hs ps b n K t a Ha|hs hs' ps b n K t a Hperm Hpin
    |hs ps b n K t a Ha|hs ps b n K t a Ha|hs ps b n K t v Hct Hc Hty HK|hs ps b n K c HK
    |hs ps b n K th c t v HcK Hct Hc Hty HK|X k f]; intros s Ho.
  - eapply owns_ret_sweep; [apply known_stable|exact Ho|]. intros s' Ho'. by exists k.
  - eapply rg_bind; [by apply IHp|]. intros r s1 (k1 & HP & Ho1). by apply (IHk r k1).
  - eapply rg_mono; [by apply IHp|]. intros r s1 (k1 & HP & Ho1). exists k1. by split; [apply HPQ|].
  - eapply rg_mono; [by apply (allocate_sweep o T B HB i hs ps b n K Hi s fuel t d pin)|].
    intros a s1 Ho1. by eexists.
  - eapply rg_mono; [by apply (root_sweep o T B i hs ps b n K s t a)|]. intros r s1 [-> Ho1]. by eexists.
  - eapply rg_mono; [apply (root_sweep o T B i hs ps b n K s t a); [done|by right]|].
    intros r s1 [-> Ho1]. by eexists.
  - eapply rg_mono; [by eapply (drop_sweep o T B i hs ps b n K)|]. intros [] s1 Ho1. by eexists.
  - eapply rg_mono; [apply (data_sweep o T B i hs ps b n K s t a); [done|by right]|].
    intros v s1 [Hv Ho1]. by eexists.
  - eapply rg_mono; [by apply (data_sweep o T B i hs ps b n K s t a)|].
    intros v s1 [Hv Ho1]. by eexists.
  - eapply rg_mono; [by eapply (cell_new_sweep o T B i hs ps b n K)|]. intros c s1 Ho1. by eexists.
  - eapply rg_mono; [by eapply (cell_get_sweep o T B i hs ps b n K)|]. intros v s1 [Hv Ho1]. by eexists.
  - eapply rg_mono; [by eapply (cell_set_sweep o T B i hs ps b n K)|]. intros [] s1 Ho1. by eexists.
  - eapply rg_mono; [by apply peek_sweep|]. intros r s1 Ho1. by exists k.
Qed.
