(* ===== verification/ConcurrentSweep.v ===== *)
(** * A sweep with concurrent clients

    One thread sweeps and ends the cycle while any number of client threads allocate,
    root, read and store, interleaved action by action.  No interleaving gets stuck, no
    object that is reachable dangles, what the mark phase has marked survives, and what
    was dead when the sweep began is freed. *)

From stdpp Require Import relations.
From S2P Require Import Prelude Prog Color TraceImpls GcBox Options BgThread World.
From S2P Require Import Graph Tracing State HeapOps Mutator Marking Sweeping Collection.
From S2P Require Import Client Interface Session Incremental Concurrent MarkProtocol.
From S2P Require Import MutatorSteps Mutators SweepSteps SweepClients.
Open Scope Z_scope.

Section sweep.
Context `{Env} `{!TraceContract}.
Variables (o : GcOptions) (T B : Z).
Hypothesis HB : B ≤ usize_max.

Abbreviation sinv := (sinv o T B).
Abbreviation schange := (schange o T B).
Abbreviation R := (rely o T B).
Abbreviation G := (guar o T B).
Implicit Types s : world * ghost.

(** ** What the sweeping thread owns *)

(** The sweep is where [sw] says, in the phase [p]. *)
Definition sweeps (sw : sweeper) (p : Z) (F : world → Prop) s : Prop :=
  sw_started sw = true ∧ sinv s.1 s.2 ∧ g_sw s.2 = sw ∧ phase (heap s.1) = p ∧ F s.1.

(** A fact that the other threads keep. *)
Definition steady (sw : sweeper) (F : world → Prop) : Prop :=
  ∀ w g w' g', g_sw g = sw → g_sw g' = sw → sstep w g w' g' → F w → F w'.

Lemma sweeps_stable sw p F s s' :
  steady sw F → rtc (R 0%nat) s s' → sweeps sw p F s → sweeps sw p F s'.
Proof.
  intros HF Hr. induction Hr as [s|s s1 s2 (j & Hj & Hch & Hot) _ IH]; [done|].
  intros (Hs & Hi & Hsw & Hp & Hf). specialize (Hch Hi). apply IH.
  assert (g_sw s1.2 = sw) as Hsw1 by (rewrite (ot_sweep _ _ _ _ _ Hot), Hsw by congruence; done).
  split; [done|]. split; [apply Hch|]. split; [done|].
  split; [by rewrite (ot_phase _ _ _ _ _ Hot)|]. eapply HF; [exact Hsw|exact Hsw1|apply Hch|done].
Qed.

Lemma steady_True sw : steady sw (λ _, True).
Proof. done. Qed.

Lemma sweeps_ret {A} sw p F s (a : A) (Q : A → world * ghost → Prop) :
  steady sw F → sweeps sw p F s → (∀ s', sweeps sw p F s' → Q a s') → rg (R 0%nat) (G 0%nat) (Ret a) Q s.
Proof. intros HF Ho HQ s' Hr. apply HQ. by eapply sweeps_stable. Qed.

(** One atomic action of the sweep. *)
Lemma sweep_act {Y} sw (sw' : Y → sweeper) p (p' : Y → Z) F F' s (f : world → outcome world Y) (φ : Y → Prop) :
  steady sw F → (∀ y, steady (sw' y) (F' y)) → sweeps sw p F s →
  (∀ w g, sinv w g → g_sw g = sw → phase (heap w) = p → F w →
     ∃ y w', f w = Done y w' ∧ φ y ∧ F' y w' ∧ sw_started (sw' y) = true ∧
       schange w g w' (with_sw g (sw' y)) ∧ phase (heap w') = p' y) →
  rg (R 0%nat) (G 0%nat) (action f) (λ y s', φ y ∧ sweeps (sw' y) (p' y) (F' y) s') s.
Proof.
  intros HF HF' Ho Hf s1 Hr. destruct (sweeps_stable _ _ _ _ _ HF Hr Ho) as (Hs & Hi & Hsw & Hp & HF1).
  destruct (Hf s1.1 s1.2 Hi Hsw Hp HF1) as (y & w' & -> & Hφ & HFy & Hs' & Hch & Hp').
  exists (with_sw s1.2 (sw' y)). split; [by split|].
  apply (sweeps_ret (sw' y) (p' y) (F' y)); [done| |done]. split; [done|]. split; [apply Hch|by split].
Qed.

(** An action that only reads. *)
Lemma sweep_look {Y} sw p F F' s (f : world → outcome world Y) (φ : Y → Prop) :
  steady sw F → (∀ y, steady sw (F' y)) → sweeps sw p F s →
  (∀ w g, sinv w g → g_sw g = sw → F w → ∃ y, f w = Done y w ∧ φ y ∧ F' y w) →
  rg (R 0%nat) (G 0%nat) (action f) (λ y s', φ y ∧ sweeps sw p (F' y) s') s.
Proof.
  intros HF HF' Ho Hf. apply (sweep_act sw (λ _, sw) p (λ _, p) F F'); [done..|].
  intros w g Hi Hsw Hp HFw. destruct (Hf w g Hi Hsw HFw) as (y & Hy & Hφ & HFy).
  assert (with_sw g sw = g) as -> by (rewrite <- Hsw; by destruct g).
  exists y, w. do 3 (split; [done|]). split; [apply Ho|]. split; [by apply schange_refl|done].
Qed.

(** ** The test of the first object *)

Section first.
Variables (sw : sweeper) (a : loc) (l : list loc) (p : Z).
Hypothesis Htodo : sw_todo sw = a :: l.

Lemma first_block w g : sinv w g → g_sw g = sw → ∃ b, mem w !! a = Some b ∧ next (header b) = l !! 0%nat.
Proof.
  intros Hi Hsw. destruct (todo_head w g a l (sv_list _ _ _ _ _ Hi)) as (b & ? & _ & ?);
    [by rewrite Hsw|]. by exists b.
Qed.

Lemma next_sweep s :
  sweeps sw p (λ _, True) s →
  rg (R 0%nat) (G 0%nat) (box_get a (λ b, next (header b)))
    (λ n s', n = l !! 0%nat ∧ sweeps sw p (λ _, True) s') s.
Proof.
  intros Ho. apply (sweep_look sw p (λ _, True) (λ _ _, True)); [done..|]. intros w g Hi Hsw _.
  destruct (first_block w g Hi Hsw) as (b & Hb & Hn). exists (next (header b)). by rewrite Hb.
Qed.

Lemma is_white_sweep s :
  sweeps sw p (λ _, True) s →
  rg (R 0%nat) (G 0%nat) (is_white a)
    (λ r s', sweeps (with_verdict sw (if r then Condemned else Spared)) p (λ _, True) s') s.
Proof.
  intros Ho. unfold is_white. eapply rg_bind.
  { apply (sweep_act sw (λ white : bool, with_verdict sw (if white then SeenWhite else Spared)) p (λ _, p)
      (λ _, True) (λ _ _, True) s _ (λ _, True)); [done..|].
    intros w g Hi Hsw Hp _. destruct (first_block w g Hi Hsw) as (b & Hb & _).
    exists (AtomicColor.is_white (color (header b))), w. rewrite Hb. do 3 (split; [done|]).
    split; [apply Ho|]. split; [|done]. rewrite <- Hsw. apply verdict_schange; [done|rewrite Hsw; apply Ho|].
    intros y Hy. rewrite Hsw, Htodo in Hy. cbn in Hy. simplify_eq.
    assert (color_of w y = Some (box_color b)) as Hcol by (unfold color_of; by rewrite Hb).
    unfold AtomicColor.is_white. fold (box_color b). case_bool_decide as Hw; rewrite Hcol.
    - split; [by rewrite Hw|]. by split.
    - split; [done|]. split; [done|]. intros _ b' Hb'. left. split; [by eexists|].
      left. by exists (box_color b). }
  intros [] s1 [_ Ho1].
  - eapply rg_bind.
    { apply (sweep_act (with_verdict sw SeenWhite) (λ root : bool, with_verdict sw (if root then Spared else Condemned)) p (λ _, p)
        (λ _, True) (λ _ _, True) s1 _ (λ _, True)); [done|done|exact Ho1|].
      intros w g Hi Hsw Hp _. assert (sw_todo (g_sw g) = a :: l) as Ht by by rewrite Hsw.
      destruct (todo_head w g a l (sv_list _ _ _ _ _ Hi) Ht) as (b & Hb & _).
      exists (GcHeader_is_root (header b)), w. rewrite Hb. do 3 (split; [done|]).
      split; [apply Ho|]. split; [|done].
      replace (with_verdict sw _) with (with_verdict (g_sw g) (if GcHeader_is_root (header b) then Spared else Condemned))
        by (by rewrite Hsw).
      apply verdict_schange; [done|rewrite Hsw; apply Ho|].
      intros y Hy. rewrite Ht in Hy. cbn in Hy. simplify_eq.
      destruct (ok_verdict _ _ (sv_list _ _ _ _ _ Hi) y) as [Hwh _]; [by rewrite Ht|].
      rewrite Hsw in Hwh. pose proof (block_roots _ _ _ _ (sv_roots _ _ _ _ _ Hi) Hb) as Hrc.
      pose proof (roots_of_nonneg y (g_x g)).
      unfold GcHeader_is_root. destruct (0 <? root_count (header b)) eqn:E.
      - split; [done|]. split; [done|]. intros _ b' Hb'. right. left. simplify_eq. bool_lia.
      - split; [done|]. split; [|done]. intros _. split; [by apply Hwh|]. bool_lia. }
    intros root s2 [_ Ho2]. eapply sweeps_ret; [apply steady_True|exact Ho2|]. by destruct root.
  - eapply sweeps_ret; [apply steady_True|exact Ho1|done].
Qed.

(** The size of the first object, as long as it is there. *)
Definition sized (n : Z) (w : world) : Prop := size_at (mem w) a = n.

Lemma sized_steady sw' n : sw_todo sw' = a :: l → steady sw' (λ w, is_Some (mem w !! a) ∧ sized n w).
Proof.
  intros Ht w g w' g' Hg Hg' Hs [[b Hb] Hn]. unfold sized, size_at in *. rewrite Hb in Hn.
  destruct (st_box _ _ _ _ Hs _ _ Hb) as [(b' & Hb' & Hv & _)|(_ & _ & Hnin)].
  - rewrite Hb'. split; [by eexists|]. unfold box_size in *. by rewrite Hv.
  - destruct Hnin. rewrite Hg', Ht. by left.
Qed.

(** What the sweep frees is counted. *)
Lemma freed_usize w g : sinv w g → is_usize (sw_freed (g_sw g)).
Proof.
  intros Hi. destruct (sv_bytes _ _ _ _ _ Hi) as [H1 H2 H3 H4 _].
  assert (0 ≤ msum (λ m, mt_unc m + mt_bytes m) (g_x g))
    by (apply msum_nonneg; intros m Hm; destruct (H4 _ Hm); lia).
  assert (0 ≤ counted_sizes (mem w) (concat (g_fly g)) (sw_todo (g_sw g)))
    by (apply counted_sizes_nonneg; intros; by apply wf_size_at, (ok_mem _ _ (sv_objects _ _ _ _ _ Hi))).
  unfold is_usize. lia.
Qed.

(** The first object is dead: it is unlinked and dropped. *)
Lemma free_sweep {A} s (k : Z → gc A) (Q : A → world * ghost → Prop) :
  sw_verdict sw = Condemned → (0 < sw_left sw)%nat → sweeps sw p (λ _, True) s →
  (∀ size s', sweeps (sw_free (sw_store sw) l size) p (λ _, True) s' →
     rg (R 0%nat) (G 0%nat) (k (sw_freed sw + size)) Q s') →
  rg (R 0%nat) (G 0%nat)
    (Heap.next_ref_store (sw_prev sw) (l !! 0%nat);;
     size ← box_get a (λ b, vt_layout_size (vtable (header b)));
     f ← box_get a (λ b, vt_drop (vtable (header b)));
     Heap.call_drop f a;;
     freed ← checked (usize_op overflow_checks (sw_freed sw + size));
     k freed)%gc Q s.
Proof.
  intros Hv Hleft Ho Hk. eapply rg_bind.
  { assert (∃ f, Heap.next_ref_store (sw_prev sw) (l !! 0%nat) = action f ∧
      ∀ w g, sinv w g → g_sw g = sw → f w = Done tt (relink w (sw_prev sw) (l !! 0%nat))) as (f & -> & Hf).
    { unfold Heap.next_ref_store, heap_set, header_set, header_update, modify, relink.
      destruct (sw_prev sw) as [|c] eqn:Ec; (eexists; split; [done|]); intros w g Hi Hsw; [done|].
      destruct (ok_prev _ _ (sv_list _ _ _ _ _ Hi) c) as [[bc Hbc] _]; [by rewrite Hsw|].
      cbn. by rewrite Hbc, alter_alt, Hbc. }
    apply (sweep_act sw (λ _, sw_store sw) p (λ _, p) (λ _, True) (λ _ _, True) s _ (λ _, True)); [done..|].
    intros w g Hi Hsw Hp _. exists tt, (relink w (sw_prev sw) (l !! 0%nat)).
    split; [by apply (Hf w g)|]. do 2 (split; [done|]). split; [apply Ho|]. split.
    - rewrite <- Hsw. apply store_schange; [done|rewrite Hsw; apply Ho|by rewrite Hsw].
    - by destruct (sw_prev sw). }
  intros [] s1 [_ Ho1]. eapply rg_bind.
  { apply (sweep_look (sw_store sw) p (λ _, True) (λ n w, is_Some (mem w !! a) ∧ sized n w) s1 _
      (λ _, True)); [done|intros n; by apply sized_steady|done|].
    intros w g Hi Hsw _. assert (sw_todo (g_sw g) = a :: l) as Ht by by rewrite Hsw.
    destruct (todo_head w g a l (sv_list _ _ _ _ _ Hi) Ht) as (b & Hb & _).
    exists (box_size b). rewrite Hb. split; [done|]. split; [done|].
    split; [by eexists|]. unfold sized, size_at. by rewrite Hb. }
  intros size s2 [_ Ho2]. eapply rg_bind.
  { apply (sweep_look (sw_store sw) p (λ w, is_Some (mem w !! a) ∧ sized size w)
      (λ _ w, is_Some (mem w !! a) ∧ sized size w) s2 _ (λ _, True));
      [by apply sized_steady|intros _; by apply sized_steady|done|].
    intros w g Hi Hsw [[b Hb] Hn]. exists (vt_drop (vtable (header b))). rewrite Hb. split; [done|].
    split; [done|]. split; [by eexists|done]. }
  intros f s3 [_ Ho3]. unfold Heap.call_drop. destruct f as [tf]. eapply rg_bind.
  { apply (sweep_act (sw_store sw) (λ _, sw_free (sw_store sw) l size) p (λ _, p)
      (λ w, is_Some (mem w !! a) ∧ sized size w) (λ _ _, True) s3 _ (λ _, True));
      [by apply sized_steady|done|done|].
    intros w g Hi Hsw Hp [[b Hb] Hn]. exists tt, (freed w a). rewrite Hb. split; [done|].
    do 2 (split; [done|]). split; [apply Ho|]. split; [|done]. unfold sized in Hn. rewrite <- Hn, <- Hsw.
    apply free_schange; [done|by rewrite Hsw; apply Ho|by rewrite Hsw|by rewrite Hsw]. }
  intros [] s4 [_ Ho4]. rewrite usize_op_Some.
  - by apply Hk.
  - destruct Ho4 as (_ & Hi & Hsw & _). pose proof (freed_usize _ _ Hi) as Hu. by rewrite Hsw in Hu.
Qed.

(** The first object is alive: its colour is reset. *)
Lemma keep_sweep s :
  sw_verdict sw = Spared → sweeps sw p (λ _, True) s →
  rg (R 0%nat) (G 0%nat) (reset_white a)
    (λ _ s', sweeps (sw_keep sw a l) p (λ _, True) s') s.
Proof.
  intros Hv Ho. eapply rg_mono.
  - apply (sweep_act sw (λ _, sw_keep sw a l) p (λ _, p) (λ _, True) (λ _ _, True) s _ (λ _, True)); [done..|].
    intros w g Hi Hsw Hp _. destruct (first_block w g Hi Hsw) as (b & Hb & _).
    exists tt, (paint w a White). rewrite Hb, (paint_lookup _ _ _ _ Hb). split; [done|].
    do 2 (split; [done|]). split; [apply Ho|]. split; [|done].
    rewrite <- (paint_lookup _ _ _ _ Hb), <- Hsw.
    apply keep_schange; [done|by rewrite Hsw; apply Ho|by rewrite Hsw|by rewrite Hsw].
  - by intros ? s1 [_ ?].
Qed.

End first.

(** ** The loop and the end of the cycle *)

Definition swept_all (th p : Z) (r : Z) s : Prop :=
  ∃ sw, sw_todo sw = [] ∧ sw_freed sw = r ∧ sw_threshold sw = th ∧ sweeps sw p (λ _, True) s.

Lemma sweep_loop_sweep l fuel sw p s :
  sw_todo sw = l → sw_left sw = length l → (length l ≤ fuel)%nat → sweeps sw p (λ _, True) s →
  rg (R 0%nat) (G 0%nat) (Heap.sweep_loop fuel (sw_prev sw) (l !! 0%nat) (sw_freed sw))
    (swept_all (sw_threshold sw) p) s.
Proof.
  revert fuel sw s. induction l as [|a l IH]; intros fuel sw s Ht Hleft Hf Ho.
  { assert (Heap.sweep_loop fuel (sw_prev sw) (([] : list loc) !! 0%nat) (sw_freed sw) = Ret (sw_freed sw))
      as -> by by destruct fuel.
    eapply sweeps_ret; [apply steady_True|exact Ho|]. intros s' Ho'. by exists sw. }
  destruct fuel as [|fuel]; cbn in Hf; [lia|]. cbn in Hleft. cbn [Heap.sweep_loop lookup list_lookup].
  eapply rg_bind; [by apply (next_sweep sw a l p Ht)|]. intros n s1 [-> Ho1].
  eapply rg_bind; [by apply (is_white_sweep sw a l p Ht)|]. intros white s2 Ho2.
  destruct white.
  - apply (free_sweep (with_verdict sw Condemned) a l p Ht s2 (Heap.sweep_loop fuel (sw_prev sw) (l !! 0%nat)));
      [done|cbn; lia|done|].
    intros size s3 Ho3.
    apply (IH fuel (sw_free (sw_store (with_verdict sw Condemned)) l size)); [done|cbn; lia|lia|done].
  - eapply rg_bind; [by apply (keep_sweep (with_verdict sw Spared) a l p Ht)|]. intros [] s3 Ho3.
    apply (IH fuel (sw_keep (with_verdict sw Spared) a l)); [done|cbn; lia|lia|done].
Qed.

(** [do_sweep] after the phase has been set. *)
Definition sweep_body (fuel : nat) : gc Z :=
  (current ← heap_get head;
   freed ← Heap.sweep_loop fuel Heap.AtHead current 0;
   old ← heap_update (λ h, (bytes_allocated h,
           set_bytes_allocated h (usize_fetch_sub (bytes_allocated h) freed)));
   allocated ← checked (usize_op overflow_checks (old - freed));
   Heap.finish_gc;;
   Ret allocated)%gc.

Definition sweep_rest (fuel : nat) : gc Z :=
  (live_bytes ← sweep_body fuel;
   Heap.update_threshold live_bytes;;
   Heap.finish_gc;;
   Ret live_bytes)%gc.

Lemma sweep_and_finish_eq fuel :
  Heap.sweep_and_finish fuel = (Heap.start_sweeping;; sweep_rest fuel)%gc.
Proof. reflexivity. Qed.

(** Before the head is read. *)
Definition waiting (th p : Z) s : Prop :=
  sw_started (g_sw s.2) = false ∧ sw_calm (g_sw s.2) = false ∧ sinv s.1 s.2 ∧
  sw_threshold (g_sw s.2) = th ∧ phase (heap s.1) = p.

Lemma waiting_stable th p s s' : rtc (R 0%nat) s s' → waiting th p s → waiting th p s'.
Proof.
  induction 1 as [s|s s1 s2 (j & Hj & Hch & Hot) _ IH]; [done|]. intros (Hs & Hc & Hi & Hth & Hp).
  apply IH. split; [by rewrite (ot_started _ _ _ _ _ Hot)|].
  split; [by rewrite (ot_calm _ _ _ _ _ Hot)|]. split; [by apply Hch|].
  split; [by rewrite (ot_threshold _ _ _ _ _ Hot)|by rewrite (ot_phase _ _ _ _ _ Hot)].
Qed.

Lemma begin_sweep th p s :
  waiting th p s →
  rg (R 0%nat) (G 0%nat) (heap_get head)
    (λ h s', ∃ sw, h = sw_todo sw !! 0%nat ∧ sw_prev sw = Heap.AtHead ∧ sw_freed sw = 0 ∧
       sw_left sw = length (sw_todo sw) ∧ sw_threshold sw = th ∧ sweeps sw p (λ _, True) s') s.
Proof.
  intros Ho s1 Hr. destruct (waiting_stable _ _ _ _ Hr Ho) as (Hs & Hnc & Hi & Hth & Hp).
  destruct (ok_before _ _ (sv_list _ _ _ _ _ Hi) Hs) as (Hh & Hpv & _ & Hlen & Hfr & _).
  pose proof (begin_schange o T B _ _ Hi Hs Hnc) as Hch.
  exists (with_sw s1.2 (sw_begin (g_sw s1.2))). split; [by split|].
  eapply (sweeps_ret (sw_begin (g_sw s1.2)) p (λ _, True)); [done|split; [done|]; split; [apply Hch|done]|].
  intros s2 Ho2. by exists (sw_begin (g_sw s1.2)).
Qed.

(** An action that does not concern the ghost state of the sweep. *)
Lemma sweep_quiet sw p p' s (f : world → world) :
  sweeps sw p (λ _, True) s →
  (∀ w g, sinv w g → g_sw g = sw → schange w g (f w) g ∧ phase (heap (f w)) = p') →
  rg (R 0%nat) (G 0%nat) (modify f) (λ _ s', sweeps sw p' (λ _, True) s') s.
Proof.
  intros Ho Hf. eapply rg_mono.
  - apply (sweep_act sw (λ _, sw) p (λ _, p') (λ _, True) (λ _ _, True) s _ (λ _, True)); [done..|].
    intros w g Hi Hsw Hp _. destruct (Hf w g Hi Hsw). exists tt, (f w). do 3 (split; [done|]).
    split; [apply Ho|]. by replace (with_sw g sw) with g by (rewrite <- Hsw; by destruct g).
  - by intros ? s1 [_ ?].
Qed.

Lemma finish_sweep sw p s :
  sweeps sw p (λ _, True) s →
  rg (R 0%nat) (G 0%nat) Heap.finish_gc (λ _ s', sweeps sw (GcPhase_as_u8 Idle) (λ _, True) s') s.
Proof.
  intros Ho. apply (sweep_quiet sw p); [done|]. intros w g Hi _. split; [by apply finish_schange|done].
Qed.

Definition ended s : Prop := ∃ sw, sw_todo sw = [] ∧ sweeps sw (GcPhase_as_u8 Idle) (λ _, True) s.

Lemma sweep_body_sweep fuel th p s :
  T ≤ Z.of_nat fuel → waiting th p s →
  rg (R 0%nat) (G 0%nat) (sweep_body fuel)
    (λ r s', 0 ≤ r ≤ B ∧ ∃ sw, sw_todo sw = [] ∧ sw_threshold sw = th ∧
       sweeps sw (GcPhase_as_u8 Idle) (λ _, True) s') s.
Proof.
  intros HT Ho. unfold sweep_body. eapply rg_bind; [by apply (begin_sweep th p)|].
  intros h s1 (sw & -> & Hpv & Hfr & Hlen & Hth & Ho1). eapply rg_bind.
  { rewrite <- Hpv, <- Hfr. apply (sweep_loop_sweep (sw_todo sw) fuel sw p); [done|done| |done].
    destruct Ho1 as (_ & Hi & Hsw & _). pose proof (sv_turns _ _ _ _ _ Hi) as Htu.
    assert (0 ≤ msum pending (g_x s1.2)) by (apply msum_nonneg; intros; unfold pending; lia).
    unfold turns in Htu. rewrite Hsw in Htu. lia. }
  intros r s2 (sw2 & Ht2 & <- & Hth2 & Ho2). eapply rg_bind.
  { apply (sweep_act sw2 (λ _, sw_account sw2) p (λ _, p) (λ _, True) (λ _ _, True) s2 _
      (λ old, 0 ≤ old - sw_freed sw2 ≤ B)); [done..|].
    intros w g Hi Hsw Hp _. destruct (account_schange o T B w g Hi HB) as [Hb Hch];
      [rewrite Hsw; apply Ho2|by rewrite Hsw|]. rewrite Hsw in Hb, Hch.
    eexists _, _. split; [done|]. do 2 (split; [done|]). split; [apply Ho2|]. split; [exact Hch|done]. }
  intros old s3 [Hold Ho3]. rewrite usize_op_Some by (unfold is_usize; lia). cbn [checked].
  rewrite bind_Ret_l. eapply rg_bind; [by apply (finish_sweep (sw_account sw2) p)|].
  intros [] s4 Ho4. eapply sweeps_ret; [apply steady_True|exact Ho4|]. intros s5 Ho5.
  split; [done|]. exists (sw_account sw2). split; [done|]. split; [|done]. cbn. congruence.
Qed.

(** The pacing does not overflow, whatever the clients allocate. *)
Definition paced (th : Z) : Prop :=
  ∀ live, 0 ≤ live ≤ B → is_Some (GcOptions.calculate_threshold o th live).

Lemma sweep_rest_sweep fuel th p s :
  T ≤ Z.of_nat fuel → paced th → waiting th p s →
  rg (R 0%nat) (G 0%nat) (sweep_rest fuel) (λ _ s', ended s') s.
Proof.
  intros HT Hpc Ho. unfold sweep_rest. eapply rg_bind; [by apply (sweep_body_sweep fuel th p)|].
  intros r s1 (Hr & sw & Ht & Hth & Ho1). destruct (Hpc r Hr) as [n Hn].
  unfold Heap.update_threshold.
  apply (rg_bind _ _ _ _ (λ _ s', sweeps (sw_retune sw n) (GcPhase_as_u8 Idle) (λ _, True) s')).
  { eapply rg_bind.
    { apply (sweep_look sw (GcPhase_as_u8 Idle) (λ _, True) (λ _ _, True) s1 _ (λ y, y = th)); [done..|].
      intros w g Hi Hsw _. eexists. split; [done|]. split; [|done].
      by rewrite (sv_threshold _ _ _ _ _ Hi), Hsw. }
    intros y s2 [-> Ho2]. eapply rg_bind.
    { apply (sweep_look sw (GcPhase_as_u8 Idle) (λ _, True) (λ _ _, True) s2 _ (λ y, y = o)); [done..|].
      intros w g Hi Hsw _. eexists. split; [by destruct w|]. split; [|done].
      by rewrite (sv_options _ _ _ _ _ Hi). }
    intros y s3 [-> Ho3]. rewrite Hn. cbn [checked]. rewrite bind_Ret_l.
    eapply rg_mono.
    - apply (sweep_act sw (λ _, sw_retune sw n) (GcPhase_as_u8 Idle) (λ _, GcPhase_as_u8 Idle)
        (λ _, True) (λ _ _, True) s3 _ (λ _, True)); [done..|].
      intros w g Hi Hsw Hp _. eexists tt, _. split; [done|]. do 2 (split; [done|]). split; [apply Ho3|].
      split; [rewrite <- Hsw; apply retune_schange; [done|rewrite Hsw; apply Ho3]|done].
    - intros [] s4 [_ Ho4]. exact Ho4. }
  intros [] s4 Ho4. eapply rg_bind; [eapply finish_sweep; exact Ho4|].
  intros [] s5 Ho5. eapply sweeps_ret; [apply steady_True|exact Ho5|]. intros s6 Ho6.
  by exists (sw_retune sw n).
Qed.

End sweep.
