(* ===== verification/SweepCycle.v ===== *)
(** * A cycle whose sweep runs concurrently with clients

    The state in which a sweep begins, the clients that may run beside it, and the
    safety of every interleaving of the two: the end of the cycle of
    [ConcurrentCycle]. *)

From stdpp Require Import relations.
From S2P Require Import Prelude Prog Color TraceImpls GcBox Options BgThread World.
From S2P Require Import Graph Tracing State HeapOps Mutator Marking Sweeping Collection.
From S2P Require Import Client Interface Session Incremental Concurrent MarkProtocol.
From S2P Require Import MutatorSteps Mutators Discipline ConcurrentCycle.
From S2P Require Import SweepSteps SweepClients ConcurrentSweep.
Open Scope Z_scope.

Section start.
Context `{Env}.

(** A client at the start of the sweep: what it holds and knows, and what it runs. *)
Record sstart := mkSstart {
  ss_know : sknow;
  ss_prog : gc unit;
}.

Definition ss_state (c : sstart) : mthread := se_m (between (ss_know c)).

(** What the clients may allocate, and how often an attempt to link an object may fail. *)
Definition sweep_bytes (w : world) (cs : list sstart) : Z :=
  total_size (mem w) + msum (λ c, sk_bytes (ss_know c)) cs.
Definition sweep_turns (w : world) (cs : list sstart) : Z :=
  Z.of_nat (size (mem w)) + 2 * msum (λ c, Z.of_nat (sk_incs (ss_know c))) cs.

(** The roots have their types; a root may be kept until the sweep is over; what is
    known at the start is marked, or has a root that is kept. *)
Record start_ok (w : world) (k : sknow) : Prop := {
  so_bytes : 0 ≤ sk_bytes k;
  so_pins a : a ∈ sk_pins k → a ∈ (sk_roots k).*2;
  so_valid t a : (t, a) ∈ sk_roots k → valid w t a;
  so_known r : r ∈ sk_known k → ∃ t a, r = RMark t a ∧ (t, a) ∈ sk_roots k ∧
    (nonwhite w a ∨ a ∈ sk_pins k);
}.

(** The clients fit together and into the heap: every root is held by one of them,
    neither root counts nor the byte counter nor the pacing can overflow, and each
    keeps to the discipline. *)
Record sweep_fit (w : world) (fuel : nat) (cs : list sstart) : Prop := {
  fit_counted : counted (abs w) (ss_state <$> cs);
  fit_roots : msum (λ c, Z.of_nat (length (sk_roots (ss_know c))) + Z.of_nat (sk_incs (ss_know c))) cs
    ≤ usize_max;
  fit_bytes : sweep_bytes w cs ≤ usize_max;
  fit_turns : sweep_turns w cs ≤ Z.of_nat fuel;
  fit_pacing : paced (options (heap w)) (sweep_bytes w cs) (current_threshold (heap w));
  fit_start c : c ∈ cs → start_ok w (ss_know c);
  fit_client c : c ∈ cs → sweep_client fuel (ss_know c) (ss_prog c) (λ _ _, True);
}.

(** The thread that sweeps and ends the cycle. *)
Definition sweeping_thread (fuel : nat) : gc unit := (Heap.sweep_and_finish fuel;; Ret tt)%gc.

Definition sweeping (w : world) : world := set_heap w (set_phase (heap w) (GcPhase_as_u8 Sweeping)).

End start.

Lemma msum_sstart f g (cs : list sstart) :
  (∀ c, f (ss_state c) = g c) → msum f (ss_state <$> cs) = msum g cs.
Proof. intros Hfg. induction cs as [|c cs IH]; [done|]. cbn [fmap list_fmap msum]. by rewrite IH, Hfg. Qed.

Lemma sstart_new (cs : list sstart) : new_objs (ss_state <$> cs) = [].
Proof. induction cs as [|c cs IH]; [done|]. exact IH. Qed.

Lemma sum_sizes_counted m l : counted_sizes m [] l = sum_sizes m l.
Proof. induction l as [|a l IH]; [done|]. by rewrite counted_sizes_cons, IH. Qed.

Section pool.
Context `{Env} `{!TraceContract}.
Variables (w : world) (fuel : nat) (cs : list sstart) (l : list loc).
Hypothesis Hsafe : safe_mark (options (heap w)) w.
Hypothesis Hqueue : gray_queue (heap w) = [].
Hypothesis Hlist : alloc_list w l.
Hypothesis Hfit : sweep_fit w fuel cs.

Abbreviation o := (options (heap w)).
Abbreviation T := (sweep_turns w cs).
Abbreviation B := (sweep_bytes w cs).
Abbreviation sinv := (sinv o T B).

(** The ghost state at the start; the first thread sweeps. *)
Definition first_threads : list mthread := at_rest [] 0 0 :: (ss_state <$> cs).

Definition ghost_start : ghost :=
  mkGhost (mkSweeper false Heap.AtHead l (length l) 0 Unknown (current_threshold (heap w)) false)
    first_threads ([] :: ((λ c, sk_pins (ss_know c)) <$> cs)) (holding_none (S (length cs))).

Abbreviation g0 := ghost_start.
Abbreviation w0 := (sweeping w).

Lemma first_new : new_objs first_threads = [].
Proof. apply sstart_new. Qed.

Lemma first_roots a : roots_of a first_threads = roots_of a (ss_state <$> cs).
Proof. done. Qed.

Lemma first_sum f g :
  (∀ c, f (ss_state c) = g c) → msum f first_threads = f (at_rest [] 0 0) + msum g cs.
Proof. intros Hf. cbn. by rewrite (msum_sstart f g). Qed.

Lemma first_elem m : m ∈ first_threads → mt_new m = [] ∧ mt_unc m = 0 ∧ 0 ≤ mt_bytes m.
Proof.
  intros [->|(c & -> & Hc)%list_elem_of_fmap]%elem_of_cons; [done|].
  split; [done|]. split; [done|]. apply (so_bytes w), Hfit, Hc.
Qed.

Lemma first_client i c :
  cs !! i = Some c → g_x g0 !! S i = Some (ss_state c) ∧ g_pins g0 !! S i = Some (sk_pins (ss_know c)) ∧
    g_fly g0 !! S i = Some [].
Proof.
  intros Hi.
  assert (∀ X (f : sstart → X), (f <$> cs) !! i = Some (f c)) as Hf
    by (intros X f; by rewrite list_lookup_fmap, Hi).
  split; [exact (Hf _ _)|]. split; [exact (Hf _ _)|].
  apply (lookup_replicate_2 (length cs)). by eapply lookup_lt_Some.
Qed.

Lemma start_counted : counted (abs w) first_threads.
Proof. intros a. rewrite first_roots. apply (fit_counted _ _ _ Hfit). Qed.

Lemma start_pins : covered (g_pins g0) first_threads.
Proof.
  intros i ps a Hi Ha. destruct i as [|i]; [cbn in Hi; simplify_eq; by apply elem_of_nil in Ha|].
  change (((λ c, sk_pins (ss_know c)) <$> cs) !! i = Some ps) in Hi.
  apply list_lookup_fmap_Some in Hi as (c & -> & Hc). exists (ss_state c). split.
  - apply (first_client _ _ Hc).
  - apply (so_pins w); [|done]. by eapply Hfit, list_elem_of_lookup_2.
Qed.

Lemma start_fly : concat (g_fly g0) = [].
Proof. apply held_none. Qed.

Lemma start_roots : roots_ok w0 g0.
Proof.
  split.
  - exact start_counted.
  - cbn. rewrite (msum_sstart _ (λ c, Z.of_nat (length (sk_roots (ss_know c))) + Z.of_nat (sk_incs (ss_know c)))).
    + apply Hfit.
    + intros c. cbn. by rewrite length_fmap.
  - exact start_pins.
  - intros i fs a Hi Ha. assert (a ∈ concat (g_fly g0)) as Hin by (apply elem_of_held; by exists i, fs).
    rewrite start_fly in Hin. by apply elem_of_nil in Hin.
  - intros m a n Hm Ha. destruct (first_elem m Hm) as [Hn _]. rewrite Hn in Ha. by apply elem_of_nil in Ha.
Qed.

(** What may be used when the sweep begins is not dead. *)
Lemma start_alive a b : mem w !! a = Some b → alive w0 g0 a b → box_dead b = false.
Proof.
  intros Hb Ha. unfold box_dead, AtomicColor.is_white, GcHeader_is_root. fold (box_color b).
  assert (∀ k, 0 < root_count (header b) → k && negb (0 <? root_count (header b)) = false) as Hroot.
  { intros k Hk. apply Z.ltb_lt in Hk. rewrite Hk. apply andb_false_r. }
  destruct Ha as [[_ [(c & Hc & Hn)|[[?|[? _]]|Hp]]]|[Hr|[? _]]]; [|done..| |by apply Hroot|done].
  - change (color_of w a = Some c) in Hc. apply color_of_Some in Hc as (b' & Hb' & <-). simplify_eq.
    by rewrite bool_decide_eq_false_2.
  - apply Hroot. rewrite (block_roots w0 g0 a b start_roots Hb). exact (covered_root _ _ a start_pins Hp).
Qed.

Lemma start_dead a b : mem w !! a = Some b → box_dead b = true → doomed w0 g0 a.
Proof.
  intros Hb Hd. split; [apply (al_all _ _ Hlist); by eexists|]. exists b. split; [done|].
  intros Ha. rewrite (start_alive a b Hb Ha) in Hd. done.
Qed.

Lemma start_target a b t y :
  mem w !! a = Some b → alive w0 g0 a b → points (cells w) (data b) t y →
  secure w0 g0 y ∧ valid w0 t y.
Proof.
  intros Hb Ha Hp. pose proof (ww_graph _ (mm_wf _ (sm_mid _ _ Hsafe))) as HG.
  assert (objs (abs w) !! a = Some (abs_box b)) as Hob by (cbn; by rewrite lookup_fmap, Hb).
  assert (nonwhite w y) as Hn.
  { eapply safe_mark_edge; [exact Hsafe|done|exact Hb|by eapply start_alive|]. by exists (abs_box b), t. }
  destruct (wf_val_points _ _ (wf_obj_val _ HG _ _ Hob) t y Hp) as (oy & Hy & <-).
  cbn in Hy. rewrite lookup_fmap in Hy. apply fmap_Some in Hy as (by' & Hy & ->).
  split; [split; [by exists by'|by left]|by exists by'].
Qed.

Lemma start_objects : objects_ok w0 g0.
Proof.
  pose proof (mm_wf _ (sm_mid _ _ Hsafe)) as Hwf. pose proof (ww_graph _ Hwf) as HG. split.
  - apply Hwf.
  - intros a b Hb Ha. change (mem w !! a = Some b) in Hb.
    assert (objs (abs w) !! a = Some (abs_box b)) as Hob by (cbn; by rewrite lookup_fmap, Hb).
    split; [apply (wf_obj_type _ HG _ _ Hob)|]. apply Forall_forall. intros [t y|c] Hin; cbn.
    + eapply start_target; [exact Hb|done|by constructor].
    + destruct (wf_val_cells _ _ (wf_obj_val _ HG _ _ Hob) c Hin) as [v Hv]. exists v.
      split; [done|]. intros t y Hy. eapply start_target; [exact Hb|done|].
      eapply points_cell; [exact Hin|exact Hv|done].
  - intros c v Hv. destruct (wf_cell_type _ HG c v Hv) as (t & ? & ?). by exists t.
Qed.

Lemma start_list : list_ok w0 g0.
Proof.
  destruct Hlist as [Hl Hnd Hall].
  assert (head (heap w) = l !! 0%nat) as Hhead.
  { destruct l; [done|]. by destruct Hl. }
  assert (l ++ new_objs first_threads = l) as Happ by by rewrite first_new, app_nil_r.
  split; try done.
  - cbn. by rewrite <- Hhead.
  - change (NoDup (l ++ new_objs first_threads)). by rewrite Happ.
  - intros _. do 5 (split; [done|]). intros a Ha.
    change (a ∈ l ++ new_objs first_threads). rewrite Happ. by apply Hall.
  - intros m a n Hm Ha. destruct (first_elem m Hm) as [Hn _]. rewrite Hn in Ha. by apply elem_of_nil in Ha.
Qed.

Lemma start_bytes : bytes_ok B w0 g0.
Proof.
  pose proof (ww_bytes _ (mm_wf _ (sm_mid _ _ Hsafe))) as Hby. split.
  - done.
  - rewrite start_fly. change (0 + counted_sizes (mem w) [] l ≤ bytes_allocated (heap w)).
    rewrite sum_sizes_counted, Hby.
    rewrite (total_size_sum (mem w) l (al_nodup _ _ Hlist)); [lia|].
    intros a. by apply (alloc_list_elem w l).
  - change (bytes_allocated (heap w) + msum (λ m, mt_unc m + mt_bytes m) first_threads ≤ B).
    rewrite (first_sum _ (λ c, sk_bytes (ss_know c))) by done. cbn [mt_unc mt_bytes at_rest].
    unfold sweep_bytes. lia.
  - intros m Hm. destruct (first_elem m Hm) as (_ & -> & ?). done.
  - intros i m fs a _ Hi Ha. assert (a ∈ concat (g_fly g0)) as Hin by (apply elem_of_held; by exists i, fs).
    rewrite start_fly in Hin. by apply elem_of_nil in Hin.
Qed.

Lemma start_sinv : sinv w0 g0.
Proof.
  split; try done.
  - change (2 * msum pending first_threads + Z.of_nat (length l) ≤ T). rewrite (first_sum _ (λ c, Z.of_nat (sk_incs (ss_know c)))).
    + unfold sweep_turns. rewrite (alloc_list_length _ _ Hlist). unfold pending. cbn [mt_incs mt_new at_rest length]. lia.
    + intros c. unfold pending. cbn. lia.
  - apply start_objects.
  - apply start_roots.
  - apply start_list.
  - apply start_bytes.
  - change (n_busy_marking (heap w) = usize_wrap (msum (λ m, Z.of_nat (mt_busy m)) first_threads)).
    rewrite (first_sum _ (λ _, 0)), msum_zero by done. exact (sm_busy _ _ Hsafe).
Qed.

(** ** Every interleaving *)

Definition over (i : nat) (_ : unit) (s : world * ghost) : Prop :=
  if decide (i = 0%nat) then ended o T B s else ∃ k, knows o T B i k s.

Definition sweep_threads : list (gc unit) := (sweep_rest fuel;; Ret tt)%gc :: (ss_prog <$> cs).
Abbreviation sweep_spec := (pool_spec (rely o T B) (guar o T B) over).

(** The invariant of every interleaving: what may not be used will be freed, and what is
    secure stays. *)
Record going (s : world * ghost) : Prop := {
  go_inv : sinv s.1 s.2;
  go_doomed a : doomed w0 g0 a → doomed s.1 s.2 a ∨ a ∈ dropped s.1;
  go_secure a b : mem w !! a = Some b → secure w0 g0 a →
    secure s.1 s.2 a ∧ ∃ b', mem s.1 !! a = Some b' ∧ vtable (header b') = vtable (header b) ∧
      data b' = data b;
}.

Lemma going_start : going (w0, g0).
Proof.
  split; [apply start_sinv|by left|]. intros a b Hb Ha. split; [done|]. by exists b.
Qed.

Lemma going_step i s s' : guar o T B i s s' → going s → going s'.
Proof.
  intros [Hch _] [Hi Hd Hs]. specialize (Hch Hi). pose proof (sc_step _ _ _ _ _ _ _ Hch) as Hst. split.
  - apply Hch.
  - intros a Ha. destruct (Hd a Ha) as [Hda|Hdr].
    + by eapply doomed_schange.
    + right. by eapply sc_dropped.
  - intros a b Hb Ha. destruct (Hs a b Hb Ha) as (Hsec & b1 & Hb1 & Hv1 & Hd1).
    split; [by eapply st_secure|].
    destruct (st_box _ _ _ _ Hst _ _ Hb1) as [(b2 & Hb2 & Hv2 & Hd2)|[? _]]; [|done].
    exists b2. split; [done|]. split; congruence.
Qed.

Lemma threads_start : sweep_spec sweep_threads (w0, g0).
Proof.
  intros i p Hi. destruct i as [|i]; cbn in Hi; simplify_eq.
  - eapply rg_bind.
    { apply (sweep_rest_sweep o T B (fit_bytes _ _ _ Hfit) fuel (current_threshold (heap w)) (GcPhase_as_u8 Sweeping)).
      - apply Hfit.
      - apply Hfit.
      - do 2 (split; [done|]). split; [apply start_sinv|done]. }
    intros live s1 (sw & Ht & Ho). eapply (sweeps_ret _ _ _ sw); [apply steady_True|exact Ho|].
    intros s2 Ho2. unfold over. by exists sw.
  - change ((ss_prog <$> cs) !! i = Some p) in Hi. apply list_lookup_fmap_Some in Hi as (c & -> & Hi).
    assert (c ∈ cs) as Hc by by eapply list_elem_of_lookup_2.
    destruct (first_client i c Hi) as (Hx & Hp & Hf). pose proof (fit_start _ _ _ Hfit c Hc) as Hok.
    eapply rg_mono.
    { eapply (sweep_client_rg o T B fuel (S i));
        [apply Hfit|done|apply Hfit|by apply (fit_client _ _ _ Hfit)|].
      split; [apply start_sinv|]. split; [split; [done..|apply Hok]|].
      apply Forall_forall. intros r Hr. destruct (so_known _ _ Hok r Hr) as (t & a & -> & Ha & Hor).
      destruct (so_valid _ _ Hok t a Ha) as (b & Hb & Hty). split; [|by exists b].
      split; [by exists b|]. destruct Hor as [?|Hpin]; [by left|]. right. right.
      apply elem_of_held. by exists (S i), (sk_pins (ss_know c)). }
    intros [] s1 (k & _ & Hk). by exists k.
Qed.

Lemma threads_going c :
  rtc pool_step (sweep_threads, w0) c → ∃ g, sweep_spec c.1 (c.2, g) ∧ going (c.2, g).
Proof.
  intros Hs. apply (pool_rg (rely o T B) (guar o T B) over (guar_in_rely_sweep o T B) going _ c g0)
    in Hs as (g & ? & ?).
  - by exists g.
  - apply going_step.
  - apply threads_start.
  - apply going_start.
Qed.

End pool.

(** What holds in every state of every interleaving of a sweep that starts from [w]: no
    thread is stuck, and the threads go on until all have returned, which they do;
    nothing that is reachable dangles or has the wrong type, and what was marked is
    there, unchanged; and when the threads have returned, the object
    graph is well formed, the phase is Idle, and what was dead has been dropped. *)
Record sweep_safe `{Env} (w : world) (tp : list (gc unit)) (w' : world) : Prop := {
  sf_stuck : ¬ pool_stuck (tp, w');
  sf_ends : Acc (flip pool_step) (tp, w') ∧
    (Forall (λ p, p = Ret tt) tp ∨ ∃ c, pool_step (tp, w') c);
  sf_reachable a : reachable (abs w') a →
    ∃ ob, objs (abs w') !! a = Some ob ∧ has_type (ob_data ob) (ob_ty ob) = true ∧
      wf_val (abs w') (ob_data ob);
  sf_marked a b : mem w !! a = Some b → nonwhite w a →
    ∃ b', mem w' !! a = Some b' ∧ data b' = data b;
  sf_returned : Forall (λ p, p = Ret tt) tp →
    wf_graph (abs w') ∧ phase (heap w') = GcPhase_as_u8 Idle ∧
    ∀ a b, mem w !! a = Some b → box_dead b = true → a ∈ dropped w';
}.

Lemma sweep_threads_safe `{Env} `{!TraceContract} w fuel cs tp w' :
  safe_mark (options (heap w)) w → gray_queue (heap w) = [] → sweep_fit w fuel cs →
  rtc pool_step (sweep_threads fuel cs, sweeping w) (tp, w') → sweep_safe w tp w'.
Proof.
  intros Hsafe Hq Hfit Hs. destruct (ww_list _ (mm_wf _ (sm_mid _ _ Hsafe))) as [l Hl].
  destruct (threads_going w fuel cs l Hsafe Hq Hl Hfit _ Hs) as (g & Hspec & Hgo).
  cbn in Hspec, Hgo. pose proof (go_inv _ _ _ _ Hgo) as Hi. cbn in Hi.
  pose proof (pool_rg_not_stuck _ _ _ _ _ _ Hspec) as Hns. split.
  - done.
  - split; [apply pool_step_acc|by apply pool_progress].
  - intros a Ha. destruct (reachable_usable _ _ _ w' g Hi a Ha) as (b & Hb & Hal).
    destruct (usable_object _ _ _ w' g Hi a b Hb Hal) as (Hty & Hwf & _).
    exists (abs_box b). cbn. by rewrite lookup_fmap, Hb.
  - intros a b Hb Hn. destruct (go_secure _ _ _ _ Hgo a b Hb) as (_ & b' & Hb' & _ & Hd).
    + split; [by exists b|by left].
    + by exists b'.
  - intros Hall. assert (tp !! 0%nat = Some (Ret tt)) as Hsw0.
    { pose proof (pool_steps_length _ _ Hs) as Hlen. destruct tp as [|p tp]; [done|].
      apply Forall_cons in Hall as [-> _]. done. }
    pose proof (pool_rg_done _ _ _ _ _ _ Hspec Hsw0) as (sw & Ht & Hst & _ & Hsw & Hp & _).
    cbn in Hsw, Hp. split; [|split; [done|]].
    + apply (over_graph _ _ _ w' g Hi). intros a Ha. split; [done|]. right. left. right.
      rewrite Hsw, Ht. split; [done|apply not_elem_of_nil].
    + intros a b Hb Hd. destruct (go_doomed _ _ _ _ Hgo a) as [[Hin _]|?]; [|exfalso|done].
      * by eapply start_dead.
      * cbn in Hin. rewrite Hsw, Ht in Hin. by apply elem_of_nil in Hin.
Qed.

(** The end of the mark phase. *)
Lemma marking_ended `{Env} `{!TraceContract} o w fuel tr w' :
  safe_mark o w → 0 < incremental_work_budget o → (mark_fuel w ≤ fuel)%nat →
  run (Heap.do_mark_work_full fuel Tracer.new) w = Done tr w' →
  safe_mark (options (heap w')) w' ∧ gray_queue (heap w') = [].
Proof.
  intros Hs Hb Hfuel Hrun. pose proof (sm_mid _ _ Hs) as Hm.
  unfold mark_fuel in Hfuel. pose proof (white_count_le w).
  assert (wp (Heap.do_mark_work_full fuel Tracer.new)
    (λ _ w', safe_mark o w' ∧ gray_queue (heap w') = []) w) as Hwp.
  { eapply wp_mono; [apply (do_mark_work_full_wp (abs w) anywhere (ww_graph _ (mm_wf _ Hm)) (λ _ _ _ _, I))|].
    - apply Hm.
    - unfold Tracer.new. rewrite loop_fuel_nil. unfold work. cbn. lia.
    - by rewrite (sm_options _ _ Hs).
    - apply Hs.
    - intros tr1 w1 (Ht1 & Hadv & Hq1). split; [|done].
      eapply marked_on_safe; [exact Hs|]. by eapply marked_on_intro. }
  destruct (wp_Done _ _ _ _ _ Hwp Hrun) as [Hs' Hq]. split; [|done].
  by rewrite (sm_options _ _ Hs').
Qed.

(** C7: a whole cycle with concurrent clients.  Threads that keep to the discipline
    [client] run during the mark phase, and when they have returned one thread ends it.
    Then threads that keep to the discipline [sweep_client] allocate, root, read and
    store while another sweeps, interleaved action by action with it and with each
    other: what they store, and what a new object points to, is marked or has a root
    that is kept until the sweep is over, and they start no collection.  In every
    state no thread is stuck, nothing reachable dangles and what was marked is
    unchanged; all threads return; and then the object graph is well formed, the phase
    is Idle, and what was dead when the sweep began has been freed.  The discipline is
    needed: [store_during_sweep] says what happens to a thread that drops the root of an
    unmarked object which it has stored. *)
Theorem concurrent_sweep_safe `{Env} `{!TraceContract}
    w w1 fuel0 fuel1 cs1 tp1 w2 fuel2 tr w3 fuel cs tp0 w4 tp w5 :
  idle w → (enough_fuel w ≤ fuel0)%nat →
  run (Heap.try_start_marking;; Heap.do_mark_roots fuel0 Tracer.new)%gc w = Done [] w1 →
  fit w1 fuel1 cs1 → rtc pool_step (st_prog <$> cs1, w1) (tp1, w2) →
  Forall (λ p, p = Ret tt) tp1 →
  0 < incremental_work_budget (options (heap w)) → (mark_fuel w2 ≤ fuel2)%nat →
  run (Heap.do_mark_work_full fuel2 Tracer.new) w2 = Done tr w3 →
  sweep_fit w3 fuel cs →
  run_sched [0%nat] (sweeping_thread fuel :: (ss_prog <$> cs)) w3 = Done tp0 w4 →
  rtc pool_step (tp0, w4) (tp, w5) →
  sweep_safe w3 tp w5.
Proof.
  intros Hidle Hf0 Hrun Hfit1 Hs1 Hret Hb Hf2 Hrun2 Hfit Hfirst Hs.
  destruct (scan_safe _ _ _ Hidle Hf0 Hrun) as [Hsafe Hroots].
  destruct (clients_running w1 fuel1 cs1 _ Hsafe Hroots Hfit1 _ Hs1) as (g & Hspec & Hr & Hlen).
  pose proof (clients_returned w1 cs1 _ Hsafe _ _ _ Hspec Hr Hlen Hret) as Hs2.
  destruct (marking_ended _ _ _ _ _ Hs2 Hb Hf2 Hrun2) as [Hs3 Hq3].
  assert (tp0 = sweep_threads fuel cs ∧ w4 = sweeping w3) as [-> ->].
  { unfold sweeping_thread in Hfirst. rewrite sweep_and_finish_eq in Hfirst. cbn in Hfirst.
    injection Hfirst as <- <-. by split. }
  by eapply sweep_threads_safe.
Qed.
