(* ===== verification/StoreDuringSweep.v ===== *)
(** * A store during the sweep

    A client thread stores a pointer into a cell and drops its root after another
    thread has started the sweep and before the sweep reaches the first object.  The
    write barrier only acts in the mark phase; so the sweep treats the object as if
    the store had not happened.  This is why the clients of [SweepClients] keep the
    roots of the unmarked objects that they store until the sweep is over. *)

From stdpp Require Import relations.
From S2P Require Import Prelude Prog Color TraceImpls GcBox Options BgThread World.
From S2P Require Import Graph Tracing State HeapOps Mutator Marking Sweeping Client Incremental.
From S2P Require Import ConcurrentSweep.
Open Scope Z_scope.


Section store.
Context `{Env} `{!TraceContract}.


(** ** The store *)








(** ** The sweep behind its first action *)




End store.
