(* ===== verification/CalmClients.v ===== *)
(** * Clients between collections, interleaved action by action

    As long as no collection runs every object may be used, stored and counted.  The
    discipline [calm_client] extends that of [SweepClients] by this freedom: a thread
    may store every pointer it has had a root of, drop any root, count the objects, and
    ask for a collection that is not due.  Any number of such threads run safely in
    every interleaving and leave an idle heap with all the objects that they have
    allocated. *)

From stdpp Require Import relations.
From S2P Require Import Prelude Prog Color TraceImpls GcBox Options BgThread World.
From S2P Require Import Graph Tracing State HeapOps Mutator Marking Sweeping Collection.
From S2P Require Import Client Interface Session Incremental Concurrent MarkProtocol.
From S2P Require Import MutatorSteps Mutators SweepSteps SweepClients SweepCycle.
Open Scope Z_scope.

(** ** The discipline *)

Section discipline.
Context `{Env} {CT : CellTypes}.

Definition learn (k : sknow) (r : treq) : sknow :=
  mkSknow (sk_roots k) (sk_pins k) (sk_bytes k) (sk_incs k) (r :: sk_known k).

(** [calm_client quiet fuel k p Q]: when no collection runs, a thread that knows [k] may
    run [p].  If [quiet], no collection is due. *)
Inductive calm_client (quiet : Prop) (fuel : nat) : ∀ A, sknow → gc A → (A → sknow → Prop) → Prop :=
  | calm_op A k (p : gc A) (Q : A → sknow → Prop) :
      sweep_client fuel k p Q → calm_client quiet fuel A k p Q
  | calm_bind A C k (p : gc A) (f : A → gc C) P Q :
      calm_client quiet fuel A k p P →
      (∀ r k', P r k' → calm_client quiet fuel C k' (f r) Q) →
      calm_client quiet fuel C k (bind p f) Q
  | calm_mono A k (p : gc A) (P Q : A → sknow → Prop) :
      calm_client quiet fuel A k p P → (∀ r k', P r k' → Q r k') → calm_client quiet fuel A k p Q
  | calm_learn A k (p : gc A) (Q : A → sknow → Prop) t a :
      (t, a) ∈ sk_roots k → calm_client quiet fuel A (learn k (RMark t a)) p Q →
      calm_client quiet fuel A k p Q
  | calm_count k : calm_client quiet fuel Z k (Heap.allocation_count fuel) (λ _ k', k' = k)
  | calm_should k : quiet →
      calm_client quiet fuel bool k Heap.should_collect (λ due k', due = false ∧ k' = k).

End discipline.
Arguments calm_client {_ _} quiet fuel {A} k p Q.

(** ** Soundness *)

Section sound.
Context `{Env} `{!TraceContract} {CT : CellTypes}.
Variables (o : GcOptions) (T B th : Z).
Hypothesis HB : B ≤ usize_max.

(** No collection is due. *)
Definition not_due : Prop := B ≤ th ∧ (limit_bytes o = usize_max ∨ B ≤ limit_bytes o).

Abbreviation sinv := (sinv o T B).
Abbreviation R := (rely o T B).
Abbreviation G := (guar o T B).
Abbreviation stable := SweepClients.stable.
Implicit Types s : world * ghost.

Definition calm (w : world) (g : ghost) : Prop :=
  sw_calm (g_sw g) = true ∧ sw_threshold (g_sw g) = th.

Lemma calm_stable : stable calm.
Proof.
  intros w g w' g' Hs [Hc Ht]. destruct (st_calm _ _ _ _ Hs Hc) as (? & E & _). split; [done|congruence].
Qed.

(** [k] is what thread [i] knows, and no collection runs. *)
Definition at_ease (k : sknow) (w : world) (g : ghost) : Prop := known (sk_known k) w g ∧ calm w g.
Definition knows_calm (i : nat) (k : sknow) s : Prop := owns o T B i (between k) (at_ease k) s.

Lemma at_ease_stable k : stable (at_ease k).
Proof. apply stable_and_sweep; [apply known_stable|apply calm_stable]. Qed.

Lemma calm_secure w g a : calm w g → is_Some (mem w !! a) → secure w g a.
Proof. intros [Hc _] Ha. split; [done|]. right. left. by left. Qed.

(** What holds of every step. *)
Definition sure s : Prop := sinv s.1 s.2 ∧ calm s.1 s.2.

Lemma sure_guar i s s' : G i s s' → sure s → sure s'.
Proof.
  intros [Hch _] [Hi Hc]. specialize (Hch Hi). split; [apply Hch|].
  eapply calm_stable; [apply Hch|done].
Qed.

Lemma op_calm {A} i k (p : gc A) Q s fuel :
  i ≠ 0%nat → T ≤ Z.of_nat fuel → sweep_client fuel k p Q → knows_calm i k s →
  rg (R i) (G i) p (λ r s', ∃ k', Q r k' ∧ knows_calm i k' s') s.
Proof.
  intros Hi HT Hp (Hs & Hb & Hk & Hc). eapply rg_mono.
  - apply (rg_frame _ _ _ (λ r s', ∃ k', Q r k' ∧ knows o T B i k' s') sure); [intros u v (j & _ & Hg); by eapply sure_guar|apply sure_guar|by split|].
    apply (sweep_client_rg o T B fuel i k p Q s HB Hi HT Hp). by split.
  - intros r s' [(k' & HQ & _ & Hb' & Hk') [Hs' Hc']]. exists k'. split; [done|]. by split.
Qed.

(** ** Counting *)

Lemma lseg_start m p l : lseg m p l None → p = l !! 0%nat.
Proof. destruct l; [done|]. by intros [-> _]. Qed.

(** [p] leads to a part of the allocation list with at most [n] objects. *)
Definition on_list (p : option loc) (n : nat) (w : world) (g : ghost) : Prop :=
  calm w g ∧ ∃ ex l, sw_todo (g_sw g) = ex ++ l ∧ p = l !! 0%nat ∧ (length l ≤ n)%nat.

Lemma on_list_stable p n : stable (on_list p n).
Proof.
  intros w g w' g' Hs [Hc (ex & l & Ht & Hp & Hl)]. split; [by eapply calm_stable|].
  destruct (st_calm _ _ _ _ Hs (proj1 Hc)) as (_ & _ & _ & ex' & Ht').
  exists (ex' ++ ex), l. by rewrite Ht', Ht, app_assoc.
Qed.

Lemma calm_before w g : sinv w g → calm w g → sw_started (g_sw g) = false.
Proof.
  intros Hi [Hc _]. destruct (sw_started (g_sw g)) eqn:E; [|done].
  by rewrite (ok_running _ _ (sv_list _ _ _ _ _ Hi) E) in Hc.
Qed.

Lemma count_loop_calm i k p n s fuel count :
  owns o T B i (between k) (λ w g, at_ease k w g ∧ on_list p n w g) s → (n ≤ fuel)%nat →
  rg (R i) (G i) (Heap.allocation_count_loop fuel p count) (λ _ s', knows_calm i k s') s.
Proof.
  assert (∀ p n, stable (λ w g, at_ease k w g ∧ on_list p n w g)) as Hst
    by (intros; apply stable_and_sweep; [apply at_ease_stable|apply on_list_stable]).
  revert p n s count. induction fuel as [|fuel IH]; intros p n s count Ho Hn; destruct p as [a|].
  - exfalso. destruct Ho as (_ & _ & _ & _ & ex & l & _ & Hp & Hl). destruct l; [done|]. cbn in Hl. lia.
  - eapply owns_ret_sweep; [apply Hst|exact Ho|]. intros s' Ho'. eapply owns_mono_sweep; [exact Ho'|].
    by intros w g [? _].
  - cbn [Heap.allocation_count_loop]. eapply rg_bind.
    { apply (reading_sweep o T B i (between k) (λ w g, at_ease k w g ∧ on_list (Some a) n w g)
        (λ q w g, at_ease k w g ∧ on_list q (pred n) w g) s _ (λ _, True)); [done..|].
      intros w g Hi Hb [Hk [Hc (ex & l & Ht & Hp & Hl)]]. destruct l as [|a' l]; [done|].
      cbn in Hp. simplify_eq. cbn in Hl. pose proof (ok_todo _ _ (sv_list _ _ _ _ _ Hi)) as Hseg.
      rewrite Ht in Hseg. apply lseg_app in Hseg as (r & _ & _ & b & Hbx & Hnx%lseg_start).
      exists (next (header b)). rewrite Hbx. split; [done|]. split; [done|]. split; [done|]. split; [done|].
      exists (ex ++ [a']), l. rewrite Ht, <- app_assoc. split; [done|]. split; [done|]. lia. }
    intros q s1 [_ Ho1]. eapply IH; [exact Ho1|lia].
  - eapply owns_ret_sweep; [apply Hst|exact Ho|]. intros s' Ho'. eapply owns_mono_sweep; [exact Ho'|].
    by intros w g [? _].
Qed.

Lemma count_calm i k s fuel :
  T ≤ Z.of_nat fuel → knows_calm i k s →
  rg (R i) (G i) (Heap.allocation_count fuel) (λ _ s', knows_calm i k s') s.
Proof.
  intros HT Ho. unfold Heap.allocation_count. eapply rg_bind.
  { apply (reading_sweep o T B i (between k) (at_ease k)
      (λ p w g, at_ease k w g ∧ on_list p (Z.to_nat T) w g) s _ (λ _, True));
      [apply at_ease_stable|intros p; apply stable_and_sweep; [apply at_ease_stable|apply on_list_stable]
      |done|].
    intros w g Hi Hb Hk. eexists. split; [done|]. split; [done|]. split; [done|]. split; [apply Hk|].
    pose proof (calm_before w g Hi (proj2 Hk)) as Hs. exists [], (sw_todo (g_sw g)).
    destruct (ok_before _ _ (sv_list _ _ _ _ _ Hi) Hs) as (Hh & _ & _ & Hlen & _).
    split; [done|]. split; [done|]. pose proof (sv_turns _ _ _ _ _ Hi) as Htu.
    assert (0 ≤ msum pending (g_x g)) by (apply msum_nonneg; intros; unfold pending; lia).
    unfold turns in Htu. rewrite Hlen in Htu. lia. }
  intros p s1 [_ Ho1]. eapply count_loop_calm; [exact Ho1|lia].
Qed.

(** ** Collections that are not due *)

Lemma sinv_bytes_le w g : sinv w g → bytes_allocated (heap w) ≤ B.
Proof.
  intros Hi. destruct (sv_bytes _ _ _ _ _ Hi) as [_ _ Ht Hn _].
  assert (0 ≤ msum (λ m, mt_unc m + mt_bytes m) (g_x g)); [|lia].
  apply msum_nonneg. intros m Hm. destruct (Hn _ Hm). lia.
Qed.

Lemma should_collect_calm i k s :
  not_due → knows_calm i k s →
  rg (R i) (G i) Heap.should_collect (λ due s', due = false ∧ knows_calm i k s') s.
Proof.
  intros [Hth Hlim] Ho.
  assert (∀ {X} (f : world → X) (φ : X → Prop) s0, knows_calm i k s0 →
    (∀ w g, sinv w g → calm w g → φ (f w)) →
    rg (R i) (G i) (action (λ w, Done (f w) w)) (λ x s', φ x ∧ knows_calm i k s') s0) as Hread.
  { intros X f φ s0 Ho0 Hf.
    apply (reading_sweep o T B i (between k) (at_ease k) (λ _, at_ease k) s0 _ φ);
      [apply at_ease_stable|intros _; apply at_ease_stable|done|].
    intros w g Hi Hb Hk. eexists. split; [done|]. split; [|done]. eapply Hf; [done|apply Hk]. }
  unfold Heap.should_collect. eapply rg_bind.
  { apply (Hread _ (λ w, options (heap w)) (λ x, x = o)); [done|]. intros w g Hi _. apply Hi. }
  intros x s1 [-> Ho1]. destruct (GcOptions.is_completely_off o).
  { eapply owns_ret_sweep; [apply at_ease_stable|exact Ho1|done]. }
  eapply rg_bind; [apply (Hread _ (λ w, bytes_allocated (heap w)) (λ x, x ≤ B)); [done|intros w g Hi _; by eapply sinv_bytes_le]|].
  intros bytes s2 [Hb2 Ho2]. eapply rg_bind.
  { apply (Hread _ (λ w, current_threshold (heap w)) (λ x, x = th)); [done|].
    intros w g Hi [_ <-]. apply Hi. }
  intros y s3 [-> Ho3].
  assert (negb (GcOptions.is_limit_off o) && (limit_bytes o <? bytes) = false) as ->.
  { unfold GcOptions.is_limit_off. destruct Hlim as [->|Hl]; [by rewrite Z.eqb_refl|].
    apply andb_false_iff. right. apply Z.ltb_ge. lia. }
  eapply owns_ret_sweep; [apply at_ease_stable|exact Ho3|]. intros s4 Ho4. split; [|done].
  apply Z.ltb_ge. lia.
Qed.

(** Every such client runs safely. *)
Lemma calm_client_rg {A} fuel i k (p : gc A) Q s :
  i ≠ 0%nat → T ≤ Z.of_nat fuel → calm_client not_due fuel k p Q → knows_calm i k s →
  rg (R i) (G i) p (λ r s', ∃ k', Q r k' ∧ knows_calm i k' s') s.
Proof.
  intros Hi HT Hp. revert s.
  induction Hp as [A k p Q Hop|A C k p f P Q _ IHp _ IHk|A k p P Q _ IHp HPQ|A k p Q t a Ha _ IH|k|k Hd];
    intros s Ho.
  - by eapply op_calm.
  - eapply rg_bind; [by apply IHp|]. intros r s1 (k1 & HP & Ho1). by apply (IHk r k1).
  - eapply rg_mono; [by apply IHp|]. intros r s1 (k1 & HP & Ho1). exists k1. by split; [apply HPQ|].
  - apply IH. destruct Ho as (Hs & Hb & Hk & Hc). split; [done|]. split; [destruct Hb; by split|].
    split; [|done]. apply Forall_cons. split; [|done].
    pose proof (ow_valid _ _ _ _ Hb t a Ha) as Hv. split; [|done].
    apply calm_secure; [done|]. destruct Hv as (b & ? & _). by exists b.
  - eapply rg_mono; [by apply (count_calm i k)|]. intros r s1 Ho1. by exists k.
  - eapply rg_mono; [by apply (should_collect_calm i k)|]. intros r s1 [-> Ho1]. by exists k.
Qed.

End sound.

(** ** Derived rules *)

Section derived.
Context `{Env} {CT : CellTypes}.
Variables (quiet : Prop) (fuel : nat).

Abbreviation client k p Q := (calm_client quiet fuel k p Q).

Lemma calm_ret {A} k (r : A) (Q : A → sknow → Prop) : Q r k → client k (Ret r) Q.
Proof. intros HQ. by apply calm_op, sweep_ret. Qed.

(** A step whose result and new knowledge are of no interest. *)
Lemma calm_then {A C} k (p : gc A) (f : A → gc C) P Q :
  client k p (λ r k', k' = k ∧ P r) → (∀ r, P r → client k (f r) Q) → client k (bind p f) Q.
Proof. intros Hp Hf. eapply calm_bind; [exact Hp|]. intros r k' [-> Hr]. by apply Hf. Qed.

Lemma calm_get {X C} k (f : world → X) (g : X → gc C) Q :
  (∀ x, client k (g x) Q) → client k (bind (get f) g) Q.
Proof.
  intros Hg. apply (calm_then _ _ _ (λ _, True)); [|auto].
  eapply calm_mono; [apply calm_op, sweep_read|]. by intros r k' ->.
Qed.

(** [collect] does nothing. *)
Lemma calm_collect k : quiet → client k (Heap.collect fuel) (λ _ k', k' = k).
Proof.
  intros Hq. apply (calm_then _ _ _ (λ due, due = false)).
  - eapply calm_mono; [by apply calm_should|]. by intros r k' [-> ->].
  - intros due ->. by apply calm_ret.
Qed.

(** The background thread waits, and finds nothing to do.  The last wait of the run is
    the one that does not time out. *)
Lemma calm_background k ts c tr :
  quiet → client k (Heap.background_gc_thread fuel (ts ++ [false]) c tr) (λ _ k', k' = k).
Proof.
  intros Hq. induction ts as [|t ts IH]; cbn [app Heap.background_gc_thread].
  - apply calm_get. intros o. destruct (Duration_is_zero _); [by apply calm_ret|].
    apply (calm_then _ _ _ (λ stop, stop = true)); [|intros stop ->; by apply calm_ret].
    apply calm_get. intros []; by apply calm_ret.
  - apply calm_get. intros o. destruct (Duration_is_zero _); [by apply calm_ret|].
    apply (calm_then _ _ _ (λ _, True)).
    { apply calm_get. intros []; by apply calm_ret. }
    intros [] _; [by apply calm_ret|]. apply (calm_then _ _ _ (λ due, due = false)).
    + eapply calm_mono; [by apply calm_should|]. by intros r k' [-> ->].
    + intros due ->. rewrite bind_Ret_l. exact IH.
Qed.

End derived.
