(* ===== verification/CalmPool.v ===== *)
(** * Threads between collections

    Any number of clients of [CalmClients] on an idle heap: every interleaving is safe
    and finite, keeps every object, and ends in an idle heap. *)

From stdpp Require Import relations.
From S2P Require Import Prelude Prog Color TraceImpls GcBox Options BgThread World.
From S2P Require Import Graph Tracing State HeapOps Mutator Marking Sweeping Collection.
From S2P Require Import Client Interface Session Incremental Concurrent MarkProtocol.
From S2P Require Import MutatorSteps Mutators SweepSteps SweepClients SweepCycle CalmClients.
Open Scope Z_scope.

Section start.
Context `{Env} {CT : CellTypes}.

(** A client: what it holds and knows at the start, what it runs, and what it holds at
    the end. *)
Record cstart := mkCstart {
  cs_know : sknow;
  cs_prog : gc unit;
  cs_post : sknow → Prop;
}.

Definition know_state (k : sknow) : mthread := se_m (between k).
Definition cs_state (c : cstart) : mthread := know_state (cs_know c).

Definition calm_bytes (w : world) (cs : list cstart) : Z :=
  total_size (mem w) + msum (λ c, sk_bytes (cs_know c)) cs.
Definition calm_turns (w : world) (cs : list cstart) : Z :=
  Z.of_nat (size (mem w)) + 2 * msum (λ c, Z.of_nat (sk_incs (cs_know c))) cs.

(** No collection will be due, whatever the clients allocate. *)
Definition calm_quiet (w : world) (cs : list cstart) : Prop :=
  not_due (options (heap w)) (calm_bytes w cs) (current_threshold (heap w)).

Record calm_start (w : world) (k : sknow) : Prop := {
  cst_bytes : 0 ≤ sk_bytes k;
  cst_pins : sk_pins k = [];
  cst_valid t a : (t, a) ∈ sk_roots k → valid w t a;
  cst_known r : r ∈ sk_known k → ∃ t a, r = RMark t a ∧ valid w t a;
}.

(** The clients fit together and into the heap. *)
Record calm_fit (w : world) (fuel : nat) (cs : list cstart) : Prop := {
  cf_cells c v : cells w !! c = Some v → ∃ t, cell_type t ∧ is_copy t = true ∧ has_type v t = true;
  cf_counted : counted (abs w) (cs_state <$> cs);
  cf_roots : msum (λ c, Z.of_nat (length (sk_roots (cs_know c))) + Z.of_nat (sk_incs (cs_know c))) cs
    ≤ usize_max;
  cf_bytes : calm_bytes w cs ≤ usize_max;
  cf_turns : calm_turns w cs ≤ Z.of_nat fuel;
  cf_start c : c ∈ cs → calm_start w (cs_know c);
  cf_client c : c ∈ cs →
    calm_client (calm_quiet w cs) fuel (cs_know c) (cs_prog c) (λ _ k, cs_post c k);
}.

End start.

Lemma msum_cstart f g (cs : list cstart) :
  (∀ c, f (cs_state c) = g c) → msum f (cs_state <$> cs) = msum g cs.
Proof. intros Hfg. induction cs as [|c cs IH]; [done|]. cbn [fmap list_fmap msum]. by rewrite IH, Hfg. Qed.

Lemma cstart_new (cs : list cstart) : new_objs (cs_state <$> cs) = [].
Proof. induction cs as [|c cs IH]; [done|]. exact IH. Qed.

Lemma msum_know (f : mthread → Z) ks : msum f (know_state <$> ks) = msum (λ k, f (know_state k)) ks.
Proof. induction ks as [|k ks IH]; [done|]. cbn [fmap list_fmap msum]. by rewrite IH. Qed.

(** What no client has at its end. *)
Lemma posts_sum `{Env} {CT : CellTypes} (f : sknow → Z) cs ks :
  Forall2 (λ c k, cs_post c k) cs ks → (∀ c k, c ∈ cs → cs_post c k → f k = 0) → msum f ks = 0.
Proof.
  induction 1 as [|c k cs ks Hk _ IH]; intros Hf; [done|]. cbn. rewrite (Hf c k) by (done || by left).
  rewrite IH; [done|]. intros c' k' Hc'. apply Hf. by right.
Qed.

Section pool.
Context `{Env} `{!TraceContract} {CT : CellTypes}.
Variables (w : world) (fuel : nat) (cs : list cstart) (l : list loc).
Hypothesis Hidle : idle w.
Hypothesis Hlist : alloc_list w l.
Hypothesis Hfit : calm_fit w fuel cs.

Abbreviation o := (options (heap w)).
Abbreviation th := (current_threshold (heap w)).
Abbreviation T := (calm_turns w cs).
Abbreviation B := (calm_bytes w cs).

(** The ghost state; the first thread does not exist. *)
Definition calm_threads : list mthread := at_rest [] 0 0 :: (cs_state <$> cs).
Definition calm_ghost : ghost :=
  mkGhost (mkSweeper false Heap.AtHead l (length l) 0 Unknown th true)
    calm_threads (holding_none (S (length cs))) (holding_none (S (length cs))).

Abbreviation g0 := calm_ghost.

Lemma calm_sum f g : (∀ c, f (cs_state c) = g c) → msum f calm_threads = f (at_rest [] 0 0) + msum g cs.
Proof. intros Hf. cbn. by rewrite (msum_cstart f g). Qed.

Lemma calm_elem m : m ∈ calm_threads → mt_new m = [] ∧ mt_unc m = 0 ∧ 0 ≤ mt_bytes m.
Proof.
  intros [->|(c & -> & Hc)%list_elem_of_fmap]%elem_of_cons; [done|].
  split; [done|]. split; [done|]. apply (cst_bytes w), Hfit, Hc.
Qed.

Lemma none_covered n x : covered (holding_none n) x.
Proof.
  intros i fs a Hi Ha. apply lookup_replicate in Hi as [-> _]. by apply elem_of_nil in Ha.
Qed.

Lemma calm_roots_ok : roots_ok w g0.
Proof.
  split.
  - exact (cf_counted _ _ _ Hfit).
  - cbn [g_x calm_ghost].
    rewrite (calm_sum _ (λ c, Z.of_nat (length (sk_roots (cs_know c))) + Z.of_nat (sk_incs (cs_know c)))).
    + apply Hfit.
    + intros c. cbn. by rewrite length_fmap.
  - apply none_covered.
  - apply none_covered.
  - intros m a n Hm Ha. destruct (calm_elem m Hm) as [Hn _]. rewrite Hn in Ha. by apply elem_of_nil in Ha.
Qed.

Lemma calm_all_secure a : is_Some (mem w !! a) → secure w g0 a.
Proof. intros Ha. split; [done|]. right. left. by left. Qed.

Lemma calm_objects : objects_ok w g0.
Proof.
  pose proof (idle_wf _ Hidle) as Hwf. pose proof (ww_graph _ Hwf) as HG. split.
  - apply Hwf.
  - intros a b Hb _.
    assert (objs (abs w) !! a = Some (abs_box b)) as Hob by (cbn; by rewrite lookup_fmap, Hb).
    assert (∀ t y, points (cells w) (data b) t y → secure w g0 y ∧ valid w t y) as Hp.
    { intros t y Hpt. destruct (wf_val_points _ _ (wf_obj_val _ HG _ _ Hob) t y Hpt) as (oy & Hy & <-).
      cbn in Hy. rewrite lookup_fmap in Hy. apply fmap_Some in Hy as (by' & Hy & ->).
      split; [apply calm_all_secure|]; by exists by'. }
    split; [apply (wf_obj_type _ HG _ _ Hob)|]. apply Forall_forall. intros [t y|c] Hin; cbn.
    + apply Hp. by constructor.
    + destruct (wf_val_cells _ _ (wf_obj_val _ HG _ _ Hob) c Hin) as [v Hv]. exists v.
      split; [done|]. intros t y Hy. apply Hp. by eapply points_cell.
  - apply Hfit.
Qed.

Lemma calm_list : list_ok w g0.
Proof.
  destruct Hlist as [Hl Hnd Hall]. pose proof (lseg_start _ _ _ Hl) as Hhead.
  assert (l ++ new_objs calm_threads = l) as Happ
    by (change (new_objs calm_threads) with (new_objs (cs_state <$> cs)); by rewrite cstart_new, app_nil_r).
  split; try done.
  - cbn. by rewrite <- Hhead.
  - change (NoDup (l ++ new_objs calm_threads)). by rewrite Happ.
  - intros _. do 5 (split; [done|]). intros a Ha.
    change (a ∈ l ++ new_objs calm_threads). rewrite Happ. by apply Hall.
  - intros m a n Hm Ha. destruct (calm_elem m Hm) as [Hn _]. rewrite Hn in Ha. by apply elem_of_nil in Ha.
Qed.

Lemma calm_bytes_ok : bytes_ok B w g0.
Proof.
  pose proof (ww_bytes _ (idle_wf _ Hidle)) as Hby. split.
  - done.
  - cbn [g_fly calm_ghost]. rewrite held_none.
    change (0 + counted_sizes (mem w) [] l ≤ bytes_allocated (heap w)).
    rewrite sum_sizes_counted, Hby.
    rewrite (total_size_sum (mem w) l (al_nodup _ _ Hlist)); [lia|].
    intros a. by apply (alloc_list_elem w l).
  - change (bytes_allocated (heap w) + msum (λ m, mt_unc m + mt_bytes m) calm_threads ≤ B).
    rewrite (calm_sum _ (λ c, sk_bytes (cs_know c))) by done. cbn [mt_unc mt_bytes at_rest].
    unfold calm_bytes. lia.
  - intros m Hm. destruct (calm_elem m Hm) as (_ & -> & ?). done.
  - intros i m fs a _ Hi Ha. apply (lookup_replicate (S (length cs))) in Hi as [-> _].
    by apply elem_of_nil in Ha.
Qed.

Lemma calm_sinv : sinv o T B w g0.
Proof.
  assert (msum (λ m, Z.of_nat (mt_busy m)) calm_threads = 0) as Hbusy
    by by rewrite (calm_sum _ (λ _, 0)), msum_zero.
  split; try done.
  - by rewrite (idle_phase _ Hidle).
  - change (2 * msum pending calm_threads + Z.of_nat (length l) ≤ T).
    rewrite (calm_sum _ (λ c, Z.of_nat (sk_incs (cs_know c)))).
    + unfold calm_turns. rewrite (alloc_list_length _ _ Hlist). unfold pending. cbn [mt_incs mt_new at_rest length]. lia.
    + intros c. unfold pending. cbn. lia.
  - apply calm_objects.
  - apply calm_roots_ok.
  - apply calm_list.
  - apply calm_bytes_ok.
  - apply Hidle.
  - cbn [g_x calm_ghost]. rewrite Hbusy. apply Hidle.
  - intros _. split; [| |apply Hidle]; cbn [g_x calm_ghost].
    2:{ by rewrite (calm_sum _ (λ c, sk_bytes (cs_know c))). }
    rewrite (calm_sum _ (λ _, 0)), msum_zero by done. cbn. rewrite (ww_bytes _ (idle_wf _ Hidle)). lia.
Qed.

(** ** Every interleaving *)

Definition calm_rely (i : nat) (s s' : world * ghost) : Prop :=
  ∃ j, j ≠ i ∧ guar o T B (S j) s s'.
Definition calm_guar (i : nat) : world * ghost → world * ghost → Prop := guar o T B (S i).

Definition at_end (i : nat) (_ : unit) (s : world * ghost) : Prop :=
  ∃ c k, cs !! i = Some c ∧ cs_post c k ∧ knows_calm o T B th (S i) k s.

Abbreviation calm_spec := (pool_spec calm_rely calm_guar at_end).

(** The invariant of every interleaving. *)
Record quiet_going (s : world * ghost) : Prop := {
  qg_sure : sure o T B th s;
  qg_phase : phase (heap s.1) = phase (heap w);
  qg_env : same_env w s.1;
  qg_dropped : dropped s.1 = dropped w;
  qg_kept a b : mem w !! a = Some b → ∃ b', mem s.1 !! a = Some b' ∧
    vtable (header b') = vtable (header b) ∧ data b' = data b;
  qg_cell c : is_Some (cells w !! c) → is_Some (cells s.1 !! c);
  qg_threads : length (g_x s.2) = S (length cs);
  qg_first : g_x s.2 !! 0%nat = Some (at_rest [] 0 0);
}.

Lemma quiet_going_start : quiet_going (w, g0).
Proof.
  split; try done.
  - split; [apply calm_sinv|by split].
  - intros a b Hb. by exists b.
  - cbn. by rewrite length_fmap.
Qed.

Lemma quiet_going_step i s s' : calm_guar i s s' → quiet_going s → quiet_going s'.
Proof.
  intros Hg [Hs Hp He Hd Hk Hce Ht Hz]. pose proof Hg as [Hch Hot]. pose proof Hs as [Hi [Hc Hth]].
  specialize (Hch Hi). pose proof (sc_step _ _ _ _ _ _ _ Hch) as Hst. split.
  - by eapply sure_guar.
  - by rewrite (ot_phase _ _ _ _ _ Hot).
  - destruct He as (E1 & E2 & E3 & E4 & E5), (st_env _ _ _ _ Hst) as (F1 & F2 & F3 & F4 & F5).
    split_and!; congruence.
  - destruct (st_calm _ _ _ _ Hst Hc) as (_ & _ & -> & _). done.
  - intros a b Hb. destruct (Hk a b Hb) as (b1 & Hb1 & Hv1 & Hd1).
    destruct (st_box _ _ _ _ Hst _ _ Hb1) as [(b2 & Hb2 & Hv2 & Hd2)|[Hn _]].
    + exists b2. split; [done|]. split; congruence.
    + destruct Hn. apply (calm_secure _ _ _ _ (conj Hc Hth)). by exists b1.
  - intros c Hcell. destruct (Hce c Hcell) as [v Hv]. destruct (st_cell _ _ _ _ Hst _ _ Hv) as (v' & ? & _).
    by exists v'.
  - by rewrite (ot_len _ _ _ _ _ Hot).
  - by rewrite (ot_x _ _ _ _ _ Hot).
Qed.

Lemma calm_rely_intro i j : i ≠ j → ∀ u v, calm_guar j u v → calm_rely i u v.
Proof. intros Hij u v Hg. by exists j. Qed.

Lemma calm_spec_start : calm_spec (cs_prog <$> cs) (w, g0).
Proof.
  intros i p Hi. apply list_lookup_fmap_Some in Hi as (c & -> & Hi).
  assert (c ∈ cs) as Hc by by eapply list_elem_of_lookup_2.
  pose proof (cf_start _ _ _ Hfit c Hc) as [_ Hpins Hvalid Hknown].
  assert (S i < S (length cs))%nat as Hlt by (apply lookup_lt_Some in Hi; lia).
  eapply (rg_weaken (rely o T B (S i))).
  { intros u v (j & Hj & Hg). exists (S j). split; [congruence|done]. }
  eapply rg_mono.
  { apply (calm_client_rg o T B th (cf_bytes _ _ _ Hfit) fuel (S i) (cs_know c) _ (λ _ k, cs_post c k));
      [done|apply Hfit|by apply Hfit|].
    split; [apply calm_sinv|]. split; [split|split].
    - change ((cs_state <$> cs) !! i = Some (cs_state c)). by rewrite list_lookup_fmap, Hi.
    - cbn [between se_pins]. rewrite Hpins. by apply lookup_replicate_2.
    - by apply lookup_replicate_2.
    - done.
    - exact Hvalid.
    - apply Forall_forall. intros r Hr. destruct (Hknown r Hr) as (t & a & -> & Hv).
      split; [|done]. apply calm_all_secure. destruct Hv as (b & ? & _). by exists b.
    - by split. }
  intros [] s1 (k & Hpost & Hk). by exists c, k.
Qed.

Lemma calm_running_pool c :
  rtc pool_step (cs_prog <$> cs, w) c →
  ∃ g, calm_spec c.1 (c.2, g) ∧ quiet_going (c.2, g) ∧ length c.1 = length cs.
Proof.
  intros Hs. pose proof (pool_steps_length _ _ Hs) as Hlen. cbn in Hlen.
  apply (pool_rg calm_rely calm_guar at_end calm_rely_intro quiet_going _ c g0)
    in Hs as (g & ? & ?).
  - exists g. split; [done|]. split; [done|]. by rewrite Hlen, length_fmap.
  - apply quiet_going_step.
  - apply calm_spec_start.
  - apply quiet_going_start.
Qed.

(** ** The end *)

Section over.
Variables (tp : list (gc unit)) (w' : world) (g : ghost).
Hypothesis Hspec : calm_spec tp (w', g).
Hypothesis Hgoing : quiet_going (w', g).
Hypothesis Hlen : length tp = length cs.
Hypothesis Hall : Forall (λ p, p = Ret tt) tp.

(** What the threads hold now. *)
Lemma over_knows :
  ∃ ks, Forall2 (λ c k, cs_post c k) cs ks ∧ g_x g = at_rest [] 0 0 :: (know_state <$> ks).
Proof.
  destruct Hgoing as [_ _ _ _ _ _ Hx Hz]. cbn in Hx, Hz.
  destruct (g_x g) as [|m x] eqn:Eg; [done|]. cbn in Hx, Hz. simplify_eq.
  assert (∀ i m, x !! i = Some m → ∃ c k, cs !! i = Some c ∧ cs_post c k ∧ m = know_state k) as Hk.
  { intros i m Hi. assert (i < length tp)%nat as Hlt by (rewrite Hlen, <- Hx; by eapply lookup_lt_Some).
    apply lookup_lt_is_Some_2 in Hlt as [p Hp]. pose proof Hp as Hp'.
    rewrite Forall_lookup in Hall. rewrite (Hall _ _ Hp) in Hp'.
    destruct (pool_rg_done _ _ _ _ _ _ Hspec Hp') as (c & k & Hc & Hpost & _ & Hown & _).
    exists c, k. split; [done|]. split; [done|]. pose proof (ow_x _ _ _ _ Hown) as Hxi.
    change (g_x g !! S i = Some (know_state k)) in Hxi. rewrite Eg in Hxi. change (x !! i = Some (know_state k)) in Hxi. congruence. }
  clear Eg Hspec Hgoing Hall Hlen. revert Hx Hk. clear. revert cs.
  induction x as [|m x IH]; intros [|c cs] Hlen Hk; cbn in Hlen; try done.
  - exists []. by split; [constructor|].
  - destruct (IH cs) as (ks & Hks & Hx); [by simplify_eq|intros i m0 Hi; by apply (Hk (S i))|].
    destruct (Hk 0%nat m eq_refl) as (c0 & k & Hc & Hpost & ->). cbn in Hc. simplify_eq.
    exists (k :: ks). split; [by constructor|]. cbn. by simplify_eq.
Qed.

Lemma know_new ks : new_objs (at_rest [] 0 0 :: (know_state <$> ks)) = [].
Proof. unfold new_objs. cbn. induction ks as [|k ks IH]; [done|]. exact IH. Qed.

(** What the threads have allocated is exactly what they may no longer allocate. *)
Lemma over_total :
  ∃ ks, Forall2 (λ c k, cs_post c k) cs ks ∧ counted (abs w') (know_state <$> ks) ∧
    total_size (mem w') + msum sk_bytes ks = calm_bytes w cs ∧
    Z.of_nat (size (mem w')) ≤ calm_turns w cs.
Proof.
  destruct over_knows as (ks & Hks & Ex). destruct Hgoing as [[Hi Hc] _ _ _ _ _ _ _]. cbn in Hi, Hc.
  exists ks. split; [done|]. split.
  - pose proof (ok_counts _ _ (sv_roots _ _ _ _ _ Hi)) as Hco. rewrite Ex in Hco. exact Hco.
  - rewrite <- (ok_budget _ _ _ (sv_calm _ _ _ _ _ Hi (proj1 Hc))), Ex. cbn [msum mt_bytes at_rest].
    rewrite msum_know. change (λ k, mt_bytes (know_state k)) with sk_bytes. split; [lia|].
    assert (new_objs (g_x g) = []) as Hnew by by rewrite Ex, know_new.
    pose proof (ok_before _ _ (sv_list _ _ _ _ _ Hi) (calm_before _ _ _ _ _ _ Hi Hc)) as (_ & _ & _ & Hleft & _ & Hall').
    rewrite Hnew, app_nil_r in Hall'.
    assert (size (mem w') ≤ length (sw_todo (g_sw g)))%nat.
    { rewrite <- (size_list_to_set (C := gset loc) (sw_todo (g_sw g))), <- size_dom.
      - apply subseteq_size. intros a Ha. apply elem_of_list_to_set, Hall'. by apply elem_of_dom.
      - pose proof (ok_nodup _ _ (sv_list _ _ _ _ _ Hi)) as (? & _)%NoDup_app. done. }
    pose proof (sv_turns _ _ _ _ _ Hi) as Ht. unfold turns in Ht.
    assert (0 ≤ msum pending (g_x g)) by (apply msum_nonneg; intros; unfold pending; lia). lia.
Qed.

Lemma over_idle : idle w'.
Proof.
  destruct over_knows as (ks & _ & Ex). destruct Hgoing as [[Hi Hc] Hp He Hd _ _ _ _].
  cbn in Hi, Hc, Hp, He, Hd. pose proof (idle_wf _ Hidle) as Hwf.
  assert (∀ f, (∀ k, f (know_state k) = 0) → f (at_rest [] 0 0) = 0 → msum f (g_x g) = 0) as Hzero.
  { intros f Hf Hz. rewrite Ex. cbn [msum]. rewrite Hz. clear -Hf. induction ks as [|k ks IH]; [done|].
    cbn [fmap list_fmap msum]. rewrite Hf. lia. }
  assert (new_objs (g_x g) = []) as Hnew by by rewrite Ex, know_new.
  assert (bytes_allocated (heap w') = total_size (mem w')) as Hby.
  { pose proof (ok_exact _ _ _ (sv_calm _ _ _ _ _ Hi (proj1 Hc))) as E. rewrite Hzero in E by done. lia. }
  pose proof (sv_bytes _ _ _ _ _ Hi) as [Hf0 Hco Hto Hnn _].
  assert (0 ≤ counted_sizes (mem w') (concat (g_fly g)) (sw_todo (g_sw g)))
    by (apply counted_sizes_nonneg; intros; by apply wf_size_at, (ok_mem _ _ (sv_objects _ _ _ _ _ Hi))).
  assert (0 ≤ msum (λ m, mt_unc m + mt_bytes m) (g_x g))
    by (apply msum_nonneg; intros m Hm; destruct (Hnn _ Hm); lia).
  pose proof (cf_bytes _ _ _ Hfit). destruct He as (E1 & E2 & E3 & E4 & E5).
  pose proof (ok_before _ _ (sv_list _ _ _ _ _ Hi) (calm_before _ _ _ _ _ _ Hi Hc)) as (Hh & _ & _ & _ & _ & Hall').
  rewrite Hnew in Hall'. split.
  - split; rewrite ?E1, ?E2, ?(sv_options _ _ _ _ _ Hi); try apply Hwf.
    + apply (ok_mem _ _ (sv_objects _ _ _ _ _ Hi)).
    + apply (over_graph _ _ _ w' g Hi). intros a. by apply calm_secure with th.
    + exists (sw_todo (g_sw g)). split.
      * rewrite Hh. apply (ok_todo _ _ (sv_list _ _ _ _ _ Hi)).
      * pose proof (ok_nodup _ _ (sv_list _ _ _ _ _ Hi)) as Hnd. by rewrite Hnew, app_nil_r in Hnd.
      * intros a Ha. rewrite app_nil_r in Hall'. by apply Hall'.
    + done.
    + unfold is_usize. lia.
    + rewrite (sv_threshold _ _ _ _ _ Hi), (proj2 Hc). apply Hwf.
  - rewrite Hp. apply Hidle.
  - apply (sv_queue _ _ _ _ _ Hi).
  - rewrite (sv_busy _ _ _ _ _ Hi), Hzero by done. done.
  - apply (ok_white _ _ _ (sv_calm _ _ _ _ _ Hi (proj1 Hc))).
Qed.

End over.

End pool.

(** What holds in every state of every interleaving: no thread is stuck, and the threads
    go on until all have returned, which they do; the object graph is well formed, and
    no object is lost or changed; and when the threads have returned, the heap is idle,
    its options, threshold, contexts and owners are what they were, and the root counts
    are the numbers of roots that the threads still hold. *)
Record calm_safe `{Env} {CT : CellTypes} (w : world) (cs : list cstart) (tp : list (gc unit)) (w' : world) : Prop := {
  cm_stuck : ¬ pool_stuck (tp, w');
  cm_ends : Acc (flip pool_step) (tp, w') ∧
    (Forall (λ p, p = Ret tt) tp ∨ ∃ c, pool_step (tp, w') c);
  cm_graph : wf_graph (abs w');
  cm_kept a b : mem w !! a = Some b → ∃ b', mem w' !! a = Some b' ∧
    vtable (header b') = vtable (header b) ∧ data b' = data b;
  cm_dropped : dropped w' = dropped w;
  cm_cells c v : cells w' !! c = Some v → ∃ t, cell_type t ∧ is_copy t = true ∧ has_type v t = true;
  cm_cell c : is_Some (cells w !! c) → is_Some (cells w' !! c);
  cm_heap : options (heap w') = options (heap w) ∧
    current_threshold (heap w') = current_threshold (heap w) ∧ bytes_allocated (heap w') ≤ calm_bytes w cs;
  cm_returned : Forall (λ p, p = Ret tt) tp →
    idle w' ∧ options (heap w') = options (heap w) ∧
    current_threshold (heap w') = current_threshold (heap w) ∧ same_env w w' ∧
    ∃ ks, Forall2 (λ c k, cs_post c k) cs ks ∧ counted (abs w') (know_state <$> ks) ∧
      total_size (mem w') + msum sk_bytes ks = calm_bytes w cs ∧
      Z.of_nat (size (mem w')) ≤ calm_turns w cs;
}.

(** What [calm_threads_safe] states, for the programs that use it. *)
Lemma calm_pool_safe `{Env} `{!TraceContract} {CT : CellTypes} w fuel cs tp w' :
  idle w → calm_fit w fuel cs → rtc pool_step (cs_prog <$> cs, w) (tp, w') →
  calm_safe w cs tp w'.
Proof.
  intros Hidle Hfit Hs. destruct (ww_list _ (idle_wf _ Hidle)) as [l Hl].
  destruct (calm_running_pool w fuel cs l Hidle Hl Hfit _ Hs) as (g & Hspec & Hgo & Hlen).
  cbn in Hspec, Hgo, Hlen. pose proof Hgo as [[Hi Hc] Hp He Hd Hk _ _ _]. cbn in Hi, Hc, Hp, He, Hd, Hk.
  pose proof (pool_rg_not_stuck _ _ _ _ _ _ Hspec) as Hns.
  split; [done| | |done|done|apply (sv_objects _ _ _ _ _ Hi)|by apply Hgo| |].
  - split; [apply pool_step_acc|by apply pool_progress].
  - apply (over_graph _ _ _ w' g Hi). intros a. by apply calm_secure with (current_threshold (heap w)).
  - split; [apply Hi|]. split; [rewrite (sv_threshold _ _ _ _ _ Hi); apply Hc|]. by eapply sinv_bytes_le.
  - intros Hall. split; [by eapply over_idle|]. split; [apply Hi|].
    split; [rewrite (sv_threshold _ _ _ _ _ Hi); apply Hc|]. split; [done|].
    by apply (over_total w cs tp w' g).
Qed.

(** C8: between collections any number of threads allocate, root, clone, drop, read,
    store, count the objects and ask for collections that are not due, interleaved
    action by action: no thread gets stuck, all return, the object graph stays well
    formed, no object is lost, and the heap that they leave is idle and complete. *)
Theorem calm_threads_safe `{Env} `{!TraceContract} {CT : CellTypes} w fuel cs tp w' :
  idle w → calm_fit w fuel cs → rtc pool_step (cs_prog <$> cs, w) (tp, w') →
  calm_safe w cs tp w'.
Proof. apply calm_pool_safe. Qed.
