(* ===== verification/SharedHeap.v ===== *)
(** * A heap that threads share

    How a program hands its heap to its threads and gets it back: before they start
    each gets an [Arc] of the heap and a context of its own, and they give both up at
    their end.  [hosting] describes the heap of such a program between two of its
    statements, when no other thread runs. *)

From stdpp Require Import relations.
From S2P Require Import Prelude Prog Color TraceImpls GcBox Options BgThread World.
From S2P Require Import Graph Tracing State HeapOps Mutator Sweeping Collection Client.
From S2P Require Import Background Lifecycle Ownership Console Scripts.
From S2P Require Import Interface Session Incremental Concurrent MarkProtocol MutatorSteps.
From S2P Require Import SweepSteps SweepClients SweepCycle CalmClients CalmPool.
Open Scope Z_scope.

Section programs.
Context `{Env}.

Open Scope io_scope.

(** The threads [ids] are spawned: each closure captures a clone of the [Arc] and runs
    [captures] for the rest, and the first statement of the thread makes its context.
    The results are the contexts. *)
Fixpoint spawn (captures : gc unit) (ids : list nat) : io (list loc) :=
  match ids with
  | [] => done []
  | id :: ids =>
      Heap.arc_clone;;
      captures;;
      ctx ← GcContext.with_heap (S id);
      ctxs ⇐ spawn captures ids;
      done (ctx :: ctxs)
  end.

(** The threads are joined: each has dropped its context at its end. *)
Fixpoint join_all (fuel : nat) (report : nat → io unit) (ids : list nat) (ctxs : list loc) : io unit :=
  match ids, ctxs with
  | id :: ids, ctx :: ctxs =>
      GcContext.drop fuel (S id) ctx;;
      ! report id;
      join_all fuel report ids ctxs
  | _, _ => done tt
  end.

End programs.

Section hosting.
Context `{Env} `{!TraceContract}.

Abbreviation known := (list (loc * obj)).

(** The heap holds the objects [k] and the cells [cs] and is idle; [s] owners have an
    [Arc] of it, one of them the background thread, and the threads have the contexts
    [T], each its own. *)
Record hosting (o : GcOptions) (s : Z) (T : gmap nat loc) (k : known) (cs : gmap loc val) (w : world)
    : Prop := {
  ho_rest : rest w k cs w;
  ho_options : options (heap w) = o;
  ho_threshold : current_threshold (heap w) = min_threshold_bytes o;
  ho_strong : strong w = s;
  ho_running : running w = {[1]};
  ho_dropped : dropped w = [];
  ho_bg : StartStop.is_stopped (bg_thread (heap w)) 1 = false;
  ho_tls : tls w = T;
  ho_own th th' c : T !! th = Some c → T !! th' = Some c → th = th';
}.

Lemma hosting_rest o s T k cs w k' cs' w' :
  hosting o s T k cs w → rest w k' cs' w' → hosting o s T k' cs' w'.
Proof.
  intros [H1 H2 H3 H4 H5 H6 H7 H8 H9] [R1 R2 R3 R4 R5 R6 (R7 & R8 & R9 & R10 & R11)].
  split; try congruence; [by apply rest_idle|exact H9].
Qed.

Lemma hosting_idle o s T k cs w : hosting o s T k cs w → idle w.
Proof. intros Hw. apply (rs_idle _ _ _ _ (ho_rest _ _ _ _ _ _ Hw)). Qed.

(** A context on a new heap with a background thread. *)
Lemma hosting_new w0 o th fuel (Q : loc → world → Prop) :
  unborn w0 → dropped w0 = [] → GcOptions.wf o → GcOptions.is_background_collection_off o = false →
  (∀ ctx w, hosting o 2 {[th := ctx]} [] ∅ w → Q ctx w) →
  wp (GcContext.with_options fuel th o) Q w0.
Proof.
  intros Hu Hd Ho Hon HQ. apply rest_new; [done..|].
  unfold born_running, born_strong. rewrite Hon.
  intros ctx w Hw Hopt Hthr Hrun Hstr Hdr Hbg Htls _. apply HQ. split; try done; [congruence..|].
  - intros th1 th2 c [<- _]%lookup_singleton_Some [<- _]%lookup_singleton_Some. done.
Qed.

Section rules.
Context {o : GcOptions} {s : Z} {T : gmap nat loc} {k : known} {cs : gmap loc val} {w : world}.
Context (Hw : hosting o s T k cs w).

Lemma hosting_owners s' : hosting o s' T k cs (owners w s').
Proof.
  destruct Hw as [[R1 R2 R3 _ _ _ _] H2 H3 H4 H5 H6 H7 H8 H9]. split; try done.
  apply rest_idle; [by apply owners_idle|done..].
Qed.

Lemma hosting_arc_clone (Q : unit → world → Prop) :
  0 ≤ s < usize_max → (∀ w', hosting o (s + 1) T k cs w' → Q tt w') → wp Heap.arc_clone Q w.
Proof.
  intros Hs HQ. apply wp_run. eexists _, _. split; [apply arc_clone_run; by rewrite (ho_strong _ _ _ _ _ _ Hw)|].
  rewrite (ho_strong _ _ _ _ _ _ Hw). apply HQ, hosting_owners.
Qed.

Lemma hosting_arc_drop fuel (Q : unit → world → Prop) :
  1 < s ≤ usize_max → (∀ w', hosting o (s - 1) T k cs w' → Q tt w') → wp (Heap.arc_drop fuel) Q w.
Proof.
  intros Hs HQ. apply wp_run. eexists _, _. split; [apply arc_drop_shared; by rewrite (ho_strong _ _ _ _ _ _ Hw)|].
  rewrite (ho_strong _ _ _ _ _ _ Hw). apply HQ, hosting_owners.
Qed.

Lemma hosting_enter th (Q : loc → world → Prop) :
  T !! th = None → (∀ ctx w', hosting o s (<[th := ctx]> T) k cs w' → Q ctx w') →
  wp (GcContext.with_heap th) Q w.
Proof.
  intros Hth HQ. destruct Hw as [[R1 R2 R3 _ _ _ _] H2 H3 H4 H5 H6 H7 H8 H9].
  set (ctx := malloc (dom (ctxs w))).
  assert (ctxs w !! ctx = None) as Hfresh by (apply not_elem_of_dom, malloc_fresh).
  apply wp_run. exists ctx, (entered w th ctx). split; [apply with_heap_run; by rewrite H8|].
  assert (∀ th' c, T !! th' = Some c → c ≠ ctx) as Hne.
  { intros th' c Hc ->. rewrite <- H8 in Hc.
    destruct (ww_tls _ (idle_wf _ R1) _ _ Hc) as [t Ht]. congruence. }
  apply HQ. split; try done.
  - apply rest_idle; [|done..]. apply entered_idle; [done|by rewrite H8|done].
  - by cbn; rewrite H8.
  - intros th1 th2 c [[<- <-]|[Hn1 Hc1]]%lookup_insert_Some [[<- Hc]|[Hn2 Hc2]]%lookup_insert_Some; try done.
    + by destruct (Hne _ _ Hc2).
    + subst c. by destruct (Hne _ _ Hc1).
    + by eapply H9.
Qed.

Lemma hosting_leave th ctx fuel (Q : unit → world → Prop) :
  T !! th = Some ctx → 1 < s ≤ usize_max →
  (∀ w', hosting o (s - 1) (delete th T) k cs w' → Q tt w') → wp (GcContext.drop fuel th ctx) Q w.
Proof.
  intros Hth Hs HQ. pose proof Hw as [[R1 R2 R3 _ _ _ _] H2 H3 H4 H5 H6 H7 H8 H9].
  apply wp_run. exists tt, (owners (left_ctx w th ctx) (s - 1)).
  split; [rewrite context_drop_shared by (by rewrite H4); by rewrite H4|].
  assert (tls (left_ctx w th ctx) = delete th T) as Htls
    by (cbn; by rewrite H8, bool_decide_eq_true_2).
  apply HQ. split; try done.
  - apply rest_idle; [|done..]. apply owners_idle. pose proof (idle_wf _ R1) as Hwf.
    eapply idle_frame; [exact R1|done..|apply Hwf|apply Hwf|apply Hwf| |].
    + cbn. intros c t [_ Hc]%lookup_delete_Some. by eapply (ww_local_gray _ Hwf).
    + rewrite Htls. cbn. intros th' c [Hne Hc]%lookup_delete_Some.
      rewrite lookup_delete_ne; [apply (ww_tls _ Hwf th'); by rewrite H8|].
      intros <-. by destruct Hne, (H9 th th' ctx).
  - intros th1 th2 c [_ ?]%lookup_delete_Some [_ ?]%lookup_delete_Some. by eapply H9.
Qed.

End rules.

(** The captures of the threads, and their contexts. *)
Lemma hosting_spawn o cs (K : nat → known) captures i n s T j w log (Q : list line → list loc → world → Prop) :
  (∀ m s T w, (j ≤ m < j + n)%nat → hosting o s T (K m) cs w →
     wp captures (λ _ w', hosting o s T (K (S m)) cs w') w) →
  hosting o s T (K j) cs w → 0 ≤ s → s + Z.of_nat n ≤ usize_max →
  (∀ id, (i ≤ id)%nat → T !! S id = None) →
  (∀ ctxs T' w', hosting o (s + Z.of_nat n) T' (K (n + j)%nat) cs w' → T ⊆ T' →
     length ctxs = n → (∀ l ctx, ctxs !! l = Some ctx → T' !! S (i + l) = Some ctx) → Q log ctxs w') →
  wpio log (spawn captures (seq i n)) Q w.
Proof.
  revert i j s T w Q. induction n as [|n IH]; intros i j s T w Q Hcap Hw Hs Hn HT HQ.
  - apply wpio_done, (HQ [] T); [by rewrite Z.add_0_r|done..].
  - cbn [seq spawn]. apply wpio_lift, (hosting_arc_clone Hw); [lia|]. clear Hw. intros w1 Hw.
    apply wpio_lift. eapply wp_mono; [apply (Hcap j); [lia|exact Hw]|]. intros [] w2 Hw2. cbn beta in Hw2.
    apply wpio_lift, (hosting_enter Hw2); [by apply HT|]. clear Hw Hw2. intros ctx w3 Hw.
    apply wpio_then. eapply (IH (S i) (S j)); [intros; apply Hcap; [lia|done]|exact Hw|lia..| |].
    + intros id Hid. rewrite lookup_insert_ne by lia. apply HT. lia.
    + intros ctxs T' w' Hw' Hsub Hlen Hctx. apply wpio_done, (HQ (ctx :: ctxs) T').
      * replace (s + Z.of_nat (S n)) with (s + 1 + Z.of_nat n) by lia.
        replace (S n + j)%nat with (n + S j)%nat by lia. done.
      * etrans; [|exact Hsub]. by apply insert_subseteq, HT.
      * cbn. by rewrite Hlen.
      * intros [|l] c Hl; cbn in Hl.
        -- simplify_eq. rewrite Nat.add_0_r. eapply lookup_weaken; [|exact Hsub]. by apply lookup_insert_eq.
        -- rewrite Nat.add_succ_r. by apply Hctx.
Qed.

Lemma hosting_join fuel report lines o s T k cs i ctxs w log (Q : list line → unit → world → Prop) :
  (∀ id log w (Q' : list line → unit → world → Prop), Q' (log ++ lines id) tt w → wpio log (report id) Q' w) →
  hosting o s T k cs w → Z.of_nat (length ctxs) < s ≤ usize_max →
  (∀ l ctx, ctxs !! l = Some ctx → T !! S (i + l) = Some ctx) →
  (∀ w' T', hosting o (s - Z.of_nat (length ctxs)) T' k cs w' → T' !! 0%nat = T !! 0%nat →
     Q (log ++ concat (lines <$> seq i (length ctxs))) tt w') →
  wpio log (join_all fuel report (seq i (length ctxs)) ctxs) Q w.
Proof.
  intros Hrep. revert i s T log w Q. induction ctxs as [|ctx ctxs IH]; intros i s T log w Q Hw Hs HT HQ.
  - apply wpio_done. rewrite <- (app_nil_r log). apply (HQ w T); [by rewrite Z.sub_0_r|done].
  - cbn [length seq join_all]. cbn [length] in Hs.
    apply wpio_lift, (hosting_leave Hw); [rewrite <- (Nat.add_0_r i); by apply HT|lia|].
    clear Hw. intros w1 Hw. apply wpio_then, Hrep. eapply IH; [exact Hw|lia| |].
    + intros l c Hl. rewrite lookup_delete_ne by lia. rewrite <- Nat.add_succ_r. by apply HT.
    + intros w' T' Hw' HT'. cbn [fmap list_fmap concat]. rewrite <- app_assoc.
      apply (HQ w' T'); [|by rewrite HT', lookup_delete_ne].
      cbn [length]. by replace (s - Z.of_nat (S (length ctxs))) with (s - 1 - Z.of_nat (length ctxs)) by lia.
Qed.

(** What threads that have run between collections leave behind. *)
Lemma hosting_after {CT : CellTypes} o s T k cs w cls tp w' :
  hosting o s T k cs w → calm_safe w cls tp w' → Forall (λ p, p = Ret tt) tp →
  hosting o s T (map_to_list (objs (abs w'))) (cells w') w'.
Proof.
  intros [R H2 H3 H4 H5 H6 H7 H8 H9] Hsafe Hall.
  destruct (cm_returned _ _ _ _ Hsafe Hall) as (Hidle & Ho & Ht & (E1 & E2 & E3 & E4 & E5) & _).
  pose proof (cm_dropped _ _ _ _ Hsafe) as Hd. split; try congruence; [|done].
  apply rest_idle; [done| |apply NoDup_fst_map_to_list].
  unfold kgraph. rewrite list_to_map_to_list. reflexivity.
Qed.

End hosting.
