(* ===== verification/ConcurrentTest.v ===== *)
(** * The unit test with threads ([concurrent_collection] in [src/src/lib.rs])

    Four threads allocate vectors and drop them again, while the main thread keeps ten
    numbers.  Then the main thread sleeps, so that the background thread may collect,
    and at last it forces a collection.  The threads are clients of [CalmClients]:
    they never ask for a collection.  [test_joins] is the main thread up to the sleep,
    [test_end] what it does after it.  The background thread has any number of rounds
    while the main thread sleeps, and none before: it wakes up for the first time after
    100 milliseconds, and the test relies on it, since it measures the peak of the bytes
    in use before the sleep ([early_collection_panics] in [ConcurrentExamples]). *)

From stdpp Require Import relations.
From S2P Require Import Console.
From S2P Require Import Prelude Prog Color TraceImpls GcBox Options BgThread World.
From S2P Require Import Graph Tracing State HeapOps Mutator Marking Sweeping Collection.
From S2P Require Import Client Background Lifecycle Ownership Scripts ScriptRules Demo ScriptLoops.
From S2P Require Import Interface Session HeapTransparency UnitTests.
From S2P Require Import Incremental MarkProtocol MutatorSteps SweepSteps SweepClients SweepCycle.
From S2P Require Import CalmClients CalmPool SharedHeap.
Open Scope Z_scope.

Abbreviation Usize_ty := (TPrim Usize).
Abbreviation Vec_ty := (TIter Vec (TPrim I32)).

Section program.
Context `{Env}.

Definition usize (n : Z) : val := VPrim Usize n.

(** The options of the test. *)
Definition low_threshold : GcOptions := {|
  collection_interval := collection_interval GcOptions.DEFAULT;
  incremental_work_budget := incremental_work_budget GcOptions.DEFAULT;
  assist_work_budget := assist_work_budget GcOptions.DEFAULT;
  threshold_percent := threshold_percent GcOptions.DEFAULT;
  threshold_shrink_percent := threshold_shrink_percent GcOptions.DEFAULT;
  min_threshold_bytes := 1024;
  limit_bytes := limit_bytes GcOptions.DEFAULT;
|}.

(** The loop of a thread; [_temp] is dropped at the end of each iteration. *)
Fixpoint temp_loop (fuel iterations : nat) : gc unit :=
  match iterations with
  | O => Ret tt
  | S iterations =>
      (temp ← GcContext.allocate fuel Vec_ty (vec (map i32 [1; 2; 3; 4; 5]));
       GcRoot.drop temp;;
       temp_loop fuel iterations)%gc
  end.

Open Scope io_scope.

(** The test up to the threads, from the joins to the sleep, and after the sleep. *)
Definition test_setup (fuel : nat) : io (loc * list loc * Z * list loc) :=
  ctx ← GcContext.with_options fuel 0 low_threshold;
  Heap.arc_clone;;
  roots ← alloc_roots fuel Usize_ty usize (seqZ 0 10);
  initial_bytes ← Heap.get_bytes_allocated;
  ctxs ⇐ spawn (Ret tt) (seq 0 4);
  done (ctx, roots, initial_bytes, ctxs).

Definition test_joins (fuel : nat) (ctxs : list loc) : io Z :=
  ! join_all fuel (λ _, done tt) (seq 0 4) ctxs;
  peak_bytes ← Heap.get_bytes_allocated;
  done peak_bytes.

Definition test_end (fuel : nat) (ctx : loc) (roots : list loc) (initial_bytes peak_bytes : Z) : io unit :=
  Heap.force_collect fuel;;
  ! check_roots number 0 roots;
  final_bytes ← Heap.get_bytes_allocated;
  ! println "Initial: {}, Peak: {}, Final: {}" [Num initial_bytes; Num peak_bytes; Num final_bytes];
  ! assert (final_bytes <? peak_bytes / 2);
  drop_roots roots;;
  Heap.arc_drop fuel;;
  GcContext.drop fuel 0 ctx;;
  done tt.

End program.

(** ** The threads *)

Section threads.
Context `{Env} `{!TraceContract}.
Variables (fuel : nat) (roots : list loc).

Abbreviation su := (layout_size Usize_ty).
Abbreviation sv := (layout_size Vec_ty).

Definition holds_all (rs : list (ty * loc)) (k : sknow) : Prop := sk_roots k = rs ∧ sk_bytes k = 0.

(** The main thread waits for the others. *)
Definition waiting_cstart : cstart :=
  mkCstart (mkSknow (pair Usize_ty <$> roots) [] 0 0 []) (Ret tt) (holds_all (pair Usize_ty <$> roots)).
Definition temp_cstart (id : nat) : cstart :=
  mkCstart (mkSknow [] [] (100 * sv) 100 []) (temp_loop fuel 100) (holds_all []).

Definition test_threads : list cstart := waiting_cstart :: (temp_cstart <$> seq 0 4).

Lemma calm_temp_loop quiet n :
  calm_client quiet fuel (mkSknow [] [] (Z.of_nat n * sv) n []) (temp_loop fuel n) (λ _, holds_all []).
Proof.
  induction n as [|n IH]; [by apply calm_ret|]. pose proof (layout_size_usize Vec_ty) as Hv. unfold is_usize in Hv.
  eapply calm_bind.
  { apply calm_op, (sweep_allocate _ _ _ _ _ _ _ _ false); [done|by intros r ?%elem_of_nil|lia]. }
  intros a ? ->. eapply calm_bind.
  { apply calm_op, (sweep_drop _ _ [] _ _ _ _ Vec_ty a); [done|by intros ?%elem_of_nil]. }
  intros [] ? ->. by replace (Z.of_nat (S n) * sv - sv) with (Z.of_nat n * sv) by lia.
Qed.

(** The heap of the test: the main thread has the roots, one of each of its numbers,
    and nobody has another root. *)
Record holding (w : world) : Prop := {
  hd_nodup : NoDup roots;
  hd_length : length roots = 10%nat;
  hd_number i a : roots !! i = Some a →
    ∃ n, objs (abs w) !! a = Some (mkObj Usize_ty n (usize (Z.of_nat i)));
  hd_count a ob : objs (abs w) !! a = Some ob → ob_roots ob = handle_count roots a;
}.

Lemma handle_count_once a : NoDup roots → handle_count roots a = if decide (a ∈ roots) then 1 else 0.
Proof.
  induction 1 as [|x l Hx Hl IH]; [done|]. rewrite handle_count_cons, IH.
  repeat case_decide; subst; try done; set_solver.
Qed.

Section fit.
Variable w : world.
Hypothesis Hhold : holding w.
Hypothesis Hbytes : total_size (mem w) = 10 * su.
Hypothesis Hsize : size (mem w) = 10%nat.
Hypothesis Hsmall : 10 * su + 400 * sv ≤ 1048576.
Hypothesis Hfuel : (1622 ≤ fuel)%nat.
Hypothesis Hcells : cells w = ∅.

Lemma test_elem c : c ∈ test_threads → c = waiting_cstart ∨ ∃ id, c = temp_cstart id.
Proof. unfold test_threads. rewrite elem_of_cons, list_elem_of_fmap. intros [?|(id & -> & _)]; eauto. Qed.

Lemma test_sum (f : cstart → Z) k : (∀ id, f (temp_cstart id) = k) → msum f test_threads = f waiting_cstart + 4 * k.
Proof. intros Hk. unfold test_threads. cbn. rewrite !Hk. lia. Qed.

Lemma test_bytes : calm_bytes w test_threads = 10 * su + 400 * sv.
Proof. unfold calm_bytes. rewrite (test_sum _ (100 * sv)) by done. rewrite Hbytes. cbn [sk_bytes cs_know waiting_cstart]. lia. Qed.

Lemma test_turns : calm_turns w test_threads = 810.
Proof. unfold calm_turns. rewrite (test_sum _ 100) by done. rewrite Hsize. done. Qed.

Lemma test_fit : calm_fit w fuel test_threads.
Proof.
  destruct Hhold as [Hnd Hlen Hnum Hcount].
  pose proof (layout_size_usize Vec_ty) as Hv. unfold is_usize in Hv. split.
  - intros c x. by rewrite Hcells, lookup_empty.
  - intros a. unfold roots_of. rewrite (msum_cstart _ (λ c, handle_count (sk_roots (cs_know c)).*2 a)) by done.
    rewrite (test_sum _ 0) by done. cbn [cs_know sk_roots waiting_cstart]. rewrite <- list_fmap_compose.
    change (snd ∘ pair Usize_ty) with (λ x : loc, x). rewrite list_fmap_id.
    destruct (objs (abs w) !! a) as [ob|] eqn:Ho; [by rewrite (Hcount _ _ Ho), Z.add_0_r|].
    rewrite handle_count_once by done. case_decide as Ha; [|done].
    apply list_elem_of_lookup in Ha as [i Hi]. destruct (Hnum i a Hi) as [n Hn]. congruence.
  - rewrite (test_sum _ 100) by done. cbn [cs_know sk_roots sk_incs waiting_cstart]. rewrite length_fmap, Hlen.
    by vm_compute.
  - rewrite test_bytes. assert (1048576 ≤ usize_max) by (vm_compute; discriminate). lia.
  - rewrite test_turns. lia.
  - intros c [->|[id ->]]%test_elem; (split; cbn [cs_know sk_bytes sk_pins sk_roots sk_known waiting_cstart temp_cstart];
      [lia|done| |by intros r ?%elem_of_nil]); intros t a; [|by intros ?%elem_of_nil].
    intros (x & [= -> ->] & Hx)%list_elem_of_fmap. apply list_elem_of_lookup in Hx as [i Hi].
    destruct (Hnum i x Hi) as [n Hn]. cbn in Hn. rewrite lookup_fmap in Hn.
    apply fmap_Some in Hn as (b & Hb & Eb). exists b. split; [done|]. by injection Eb.
  - intros c [->|[id ->]]%test_elem; [by apply calm_ret|]. apply (calm_temp_loop _ 100).
Qed.

(** What the threads leave behind. *)
Lemma test_after tp w' :
  calm_safe w test_threads tp w' → Forall (λ p, p = Ret tt) tp →
  holding w' ∧ total_size (mem w') = 10 * su + 400 * sv ∧ (size (mem w') ≤ 810)%nat.
Proof.
  intros Hsafe Hall. destruct Hhold as [Hnd Hlen Hnum Hcount].
  destruct (cm_returned _ _ _ _ Hsafe Hall) as (_ & _ & _ & _ & ks & Hks & Hco & Htotal & Hturns).
  rewrite test_turns in Hturns. rewrite test_bytes in Htotal.
  assert (msum sk_bytes ks = 0) as Hz.
  { eapply posts_sum; [exact Hks|]. intros c k Hc Hpost.
    apply test_elem in Hc as [->|[id ->]]; apply Hpost. }
  split; [|lia]. split; [done|done| |].
  - intros i a Hi. destruct (Hnum i a Hi) as [n Hn]. cbn in Hn. rewrite lookup_fmap in Hn.
    apply fmap_Some in Hn as (b & Hb & Eb). destruct (cm_kept _ _ _ _ Hsafe _ _ Hb) as (b' & Hb' & Hvt & Hd).
    exists (root_count (header b')). cbn. rewrite lookup_fmap, Hb'. cbn. unfold abs_box, box_ty in *.
    injection Eb as Et _ Ed. by rewrite Hvt, Hd, <- Et, <- Ed.
  - intros a ob Ho. pose proof (Hco a) as Ha. rewrite Ho in Ha. rewrite Ha.
    unfold test_threads in Hks. apply Forall2_cons_inv_l in Hks as (k0 & ks' & [Hr0 _] & Hks & ->).
    change (know_state <$> k0 :: ks') with (know_state k0 :: (know_state <$> ks')).
    unfold roots_of. cbn [msum]. rewrite msum_know, (posts_sum _ _ ks' Hks).
    + change (mt_roots (know_state k0)) with (sk_roots k0).*2. rewrite Hr0, <- list_fmap_compose, Z.add_0_r.
      change (snd ∘ pair Usize_ty) with (λ x : loc, x). by rewrite list_fmap_id.
    + intros c k (id & -> & _)%list_elem_of_fmap [Hr _]. change (mt_roots (know_state k)) with (sk_roots k).*2.
      by rewrite Hr.
Qed.

End fit.
End threads.

(** ** The beginning and the end *)

Section passes.
Context `{Env} `{!TraceContract}.

Abbreviation su := (layout_size Usize_ty).
Abbreviation sv := (layout_size Vec_ty).

Lemma low_threshold_wf : GcOptions.wf low_threshold.
Proof. unfold GcOptions.wf, is_usize. split_and!; vm_compute; discriminate. Qed.

(** The heap when the threads start. *)
Lemma setup_holding w0 w roots :
  rest w0 (numbered 1 Usize_ty usize (seqZ 0 10) roots) ∅ w → length roots = 10%nat →
  holding roots w ∧ total_size (mem w) = 10 * su ∧ size (mem w) = 10%nat ∧ cells w = ∅.
Proof.
  intros Hw Hlen. assert (length roots = length (seqZ 0 10)) as Hlen' by by rewrite length_seqZ.
  pose proof (rs_keys _ _ _ _ Hw) as Hnd. set (k := numbered 1 _ _ _ _) in *.
  assert (k.*1 = reverse roots) as Hkeys by by apply numbered_keys.
  assert (NoDup roots) as Hroots by by rewrite Hkeys, reverse_Permutation in Hnd.
  assert (∀ i a, roots !! i = Some a → (a, mkObj Usize_ty 1 (usize (Z.of_nat i))) ∈ k) as Hin.
  { intros i a Hi. apply (numbered_lookup _ _ _ _ _ i); [|done].
    by rewrite lookup_seqZ_lt by (apply lookup_lt_Some in Hi; lia). }
  assert (∀ a ob, objs (abs w) !! a = Some ob ↔ (a, ob) ∈ k) as Hobj.
  { intros a ob. rewrite (rs_abs _ _ _ _ Hw). cbn [kgraph objs]. by rewrite <- elem_of_list_to_map. }
  split; [split|].
  - done.
  - done.
  - intros i a Hi. exists 1. by apply Hobj, Hin.
  - intros a ob Ho%Hobj. assert (a ∈ roots) as Ha.
    { rewrite <- elem_of_reverse, <- Hkeys. apply list_elem_of_fmap. by exists (a, ob). }
    rewrite handle_count_once, decide_True by done.
    apply list_elem_of_lookup in Ha as [i Hi]. by rewrite (NoDup_keys_eq k a ob _ Hnd Ho (Hin i a Hi)).
  - rewrite (rest_total Hw), (rest_count_size Hw). unfold k. rewrite numbered_size, numbered_length by done.
    split; [done|]. split; [done|]. apply map_eq. intros c. by rewrite (rest_cells Hw).
Qed.

(** *** The forced collection *)

Section collection.
Variables (roots : list loc) (k : list (loc * obj)) (cs : gmap loc val).
Hypothesis Hkeys : NoDup k.*1.
Hypothesis Hnodup : NoDup roots.
Hypothesis Hlength : length roots = 10%nat.
Hypothesis Hnumber : ∀ i a, roots !! i = Some a → (a, mkObj Usize_ty 1 (usize (Z.of_nat i))) ∈ k.
Hypothesis Hcount : ∀ a ob, (a, ob) ∈ k → ob_roots ob = handle_count roots a.

Definition kept_root (ao : loc * obj) : bool := bool_decide (ao.1 ∈ roots).

Lemma known_object a ob : objs (kgraph k cs) !! a = Some ob ↔ (a, ob) ∈ k.
Proof. cbn. by rewrite <- elem_of_list_to_map. Qed.

(** The numbers are reachable, and nothing else, since they hold no pointers. *)
Lemma kept_reachable ao : ao ∈ k → kept_root ao = true ↔ reachable (kgraph k cs) ao.1.
Proof.
  intros Hin. destruct ao as [a ob]. unfold kept_root. cbn [fst]. rewrite bool_decide_eq_true. split.
  - intros Ha. apply reachable_rooted. exists ob. split; [by apply known_object|].
    rewrite (Hcount _ _ Hin). by apply handle_count_pos.
  - apply (reachable_ind_closed _ (λ a, a ∈ roots)).
    + intros b (o & Ho%known_object & Hpos). rewrite (Hcount _ _ Ho) in Hpos. by apply handle_count_pos.
    + intros b c Hb (o & t & Ho%known_object & Hp). exfalso. apply list_elem_of_lookup in Hb as [i Hi].
      rewrite (NoDup_keys_eq k b _ _ Hkeys Ho (Hnumber _ _ Hi)) in Hp.
      destruct Hp as [Hm|c' v' Hm _ _]; by apply elem_of_nil in Hm.
Qed.

Abbreviation kept := (List.filter kept_root k).

Lemma kept_number i a : roots !! i = Some a → ∃ j, kept !! j = Some (a, mkObj Usize_ty 1 (usize (Z.of_nat i))).
Proof.
  intros Hi. apply list_elem_of_lookup, kept_elem. split; [by apply Hnumber|].
  apply bool_decide_eq_true. by eapply list_elem_of_lookup_2.
Qed.

Lemma kept_single : single_roots kept roots.
Proof.
  split; [done|]. intros x [i Hi]%list_elem_of_lookup. destruct (kept_number i x Hi) as [j Hj].
  by exists j, Usize_ty, (usize (Z.of_nat i)).
Qed.

Lemma kept_length : length kept = 10%nat.
Proof.
  rewrite <- Hlength, <- (length_fmap fst). apply Permutation_length, NoDup_Permutation;
    [by apply kept_keys|done|]. intros a. split.
  - intros (ao & -> & [_ Ha%bool_decide_eq_true]%kept_elem)%list_elem_of_fmap. done.
  - intros [i Hi]%list_elem_of_lookup. destruct (kept_number i a Hi) as [j Hj].
    apply list_elem_of_fmap. eexists. split; [|by eapply list_elem_of_lookup_2]. done.
Qed.

Lemma kept_size : ksize kept = 10 * su.
Proof.
  rewrite (ksize_same _ Usize_ty), kept_length; [done|].
  intros [a ob] [Hin Ha%bool_decide_eq_true]%kept_elem. cbn in Ha.
  apply list_elem_of_lookup in Ha as [i Hi].
  by rewrite (NoDup_keys_eq k a _ _ Hkeys Hin (Hnumber _ _ Hi)).
Qed.

End collection.

(** What the test prints. *)
Definition test_output : list line :=
  [("Initial: {}, Peak: {}, Final: {}", [Num (10 * su); Num (10 * su + 400 * sv); Num (10 * su)])].

(** The heap while the main thread sleeps. *)
Record sleeping (roots : list loc) (k : list (loc * obj)) (cs : gmap loc val) (w : world) : Prop := {
  sl_rest : rest w k cs w;
  sl_options : options (heap w) = low_threshold;
  sl_room : heap_room 0 w;
  sl_strong : strong w = 3;
  sl_bg : StartStop.is_stopped (bg_thread (heap w)) 1 = false;
  sl_nodup : NoDup roots;
  sl_ten : length roots = 10%nat;
  sl_number i a : roots !! i = Some a → (a, mkObj Usize_ty 1 (usize (Z.of_nat i))) ∈ k;
  sl_count a ob : (a, ob) ∈ k → ob_roots ob = handle_count roots a;
  sl_length : (length k ≤ 810)%nat;
}.

Lemma kept_sub roots k : (length (List.filter (kept_root roots) k) ≤ length k)%nat.
Proof. apply List.filter_length_le. Qed.

(** A collection keeps the numbers and nothing else. *)
Lemma sleeping_collected roots k cs w w' :
  sleeping roots k cs w → collection_done w w' →
  sleeping roots (List.filter (kept_root roots) k) cs w'.
Proof.
  intros [Hr Ho Hroom Hs Hbg Hnd Hten Hn Hc Hl] Hd.
  destruct (rest_collected Hr (kept_root roots) w') as [Hr' [Ho' _ Hbg' (_ & _ & _ & Hs') _]];
    [intros ao; by apply kept_reachable; [apply Hr|..]|done|].
  split; try congruence.
  - by eapply heap_room_collected; [apply Hr|..].
  - intros i a Hi. apply kept_elem. split; [by apply Hn|].
    apply bool_decide_eq_true. by eapply list_elem_of_lookup_2.
  - intros a ob [Hin _]%kept_elem. by apply Hc.
  - pose proof (kept_sub roots k). lia.
Qed.

Lemma sleeping_fuel roots k cs w fuel :
  sleeping roots k cs w → (1622 ≤ fuel)%nat → (enough_fuel w ≤ fuel)%nat.
Proof. intros Hw Hf. apply (rest_fuel (sl_rest _ _ _ _ Hw)). pose proof (sl_length _ _ _ _ Hw). lia. Qed.

(** The rounds of the background thread. *)
Lemma sleeping_rounds roots k cs w fuel n :
  sleeping roots k cs w → (1622 ≤ fuel)%nat →
  ∃ k' w', (∀ ts, run (Heap.background_gc_thread fuel (replicate n true ++ ts) 1 []) w =
                  run (Heap.background_gc_thread fuel ts 1 []) w') ∧ sleeping roots k' cs w'.
Proof.
  intros Hw Hf. revert k w Hw. induction n as [|n IH]; intros k w Hw; [by exists k, w|].
  pose proof (sl_rest _ _ _ _ Hw) as Hr. pose proof (sl_options _ _ _ _ Hw) as Ho.
  destruct (background_round fuel 1 w) as (w1 & Hrun & Hw1);
    [apply Hr|by rewrite Ho|by eapply heap_room_pacing; [apply Hr|apply Hw|]
    |by eapply sleeping_fuel|by rewrite Ho|apply Hw|].
  assert (∃ k1, sleeping roots k1 cs w1) as [k1 Hs1].
  { case_decide; [eexists; by eapply sleeping_collected|subst; by exists k]. }
  destruct (IH k1 w1 Hs1) as (k' & w' & Hrun' & Hw'). exists k', w'. split; [|done].
  intros ts. cbn [replicate app]. by rewrite Hrun, Hrun'.
Qed.

Lemma test_joins_wp fuel ctx roots ctxs T k cs w :
  hosting low_threshold 7 T k cs w → T !! 0%nat = Some ctx → length ctxs = 4%nat →
  (∀ l c, ctxs !! l = Some c → T !! S l = Some c) →
  holding roots w → ksize k ≤ 1048576 → (length k ≤ 810)%nat →
  wpio [] (test_joins fuel ctxs) (λ out peak w', out = [] ∧ peak = ksize k ∧ sleeping roots k cs w') w.
Proof.
  intros Hw Hctx Hlen Hctxs Hhold Hk Hlk. destruct Hhold as [Hnd Hl10 Hnum Hcount].
  assert (1048576 ≤ usize_max) by (vm_compute; discriminate).
  pose proof (ho_rest _ _ _ _ _ _ Hw) as Hr0.
  assert (∀ a ob, objs (abs w) !! a = Some ob ↔ (a, ob) ∈ k) as Hobj.
  { intros a ob. rewrite (rs_abs _ _ _ _ Hr0). apply known_object, Hr0. }
  apply wpio_then. rewrite <- Hlen.
  apply (hosting_join _ _ (λ _, []) low_threshold 7 T k cs 0); [|exact Hw|rewrite Hlen; lia|exact Hctxs|].
  { intros id log w1 Q HQ. rewrite app_nil_r in HQ. by apply wpio_done. }
  intros w1 T1 Hw1 HT1. rewrite Hlen in Hw1 |- *. cbn [seq fmap list_fmap concat app].
  change (7 - Z.of_nat 4) with 3 in Hw1. pose proof (ho_rest _ _ _ _ _ _ Hw1) as Hr.
  apply wpio_lift, (rest_get_bytes Hr), wpio_done. split; [done|]. split; [done|].
  split; try done; try apply Hw1.
  - split; rewrite ?(ho_options _ _ _ _ _ _ Hw1), ?(ho_threshold _ _ _ _ _ _ Hw1), ?(rest_total Hr).
    + right. by vm_compute.
    + lia.
    + right. by vm_compute.
  - intros i a Hi. destruct (Hnum i a Hi) as [n Ho]. pose proof (Hcount _ _ Ho) as Hc. cbn in Hc.
    rewrite handle_count_once, decide_True in Hc by (done || by eapply list_elem_of_lookup_2).
    subst n. by apply Hobj.
  - intros a ob Hin. by apply Hcount, Hobj.
Qed.

Lemma test_end_wp fuel ctx roots k cs w :
  sleeping roots k cs w → 0 < su → su ≤ sv → (1622 ≤ fuel)%nat →
  wpio [] (test_end fuel ctx roots (10 * su) (10 * su + 400 * sv))
    (λ out _ w', out = test_output ∧ size (mem w') = 10%nat ∧ strong w' = 1) w.
Proof.
  intros Hw Hsu Hsv Hf. pose proof (sl_rest _ _ _ _ Hw) as Hr. pose proof (sl_length _ _ _ _ Hw) as Hlk.
  pose proof Hw as [_ Ho Hroom Hs Hbg Hnd Hten Hn Hc _]. pose proof (rs_keys _ _ _ _ Hr) as Hkeys.
  assert (1048576 ≤ usize_max) by (vm_compute; discriminate).
  apply wpio_lift, (rest_force_collect Hr (kept_root roots));
    [by apply kept_reachable|by rewrite Ho|by eapply heap_room_pacing; [apply Hr|..]|lia|].
  intros w2 Hr2 [Ho2 _ Hbg2 (Ht2 & Hx2 & Hrun2 & Hs2) _].
  apply wpio_then, (check_roots_wp _ _ _ _ _ _ _ _ _ Hr2).
  { intros j a Hj. destruct (kept_number roots k Hn j a Hj) as [l Hl]. by eexists l, _. }
  apply wpio_lift, (rest_get_bytes Hr2). rewrite (kept_size roots k) by done.
  apply wpio_println, wpio_assert.
  { apply Z.ltb_lt. assert (su * 10 + 1 ≤ (10 * su + 400 * sv) / 2); [|lia]. apply Z.div_le_lower_bound; lia. }
  apply wpio_lift, (drop_roots_wp _ _ _ _ _ _ Hr2); [by apply kept_single|].
  intros k3 w3 Hr3 Hk3. destruct (rs_frame _ _ _ _ Hr3) as (_ & _ & _ & Hs3 & _).
  rewrite Hs in Hs2. rewrite Hs2 in Hs3.
  apply wpio_lift, wp_run. eexists _, _. split; [apply arc_drop_shared; by rewrite Hs3|].
  apply wpio_lift, wp_run. eexists _, _. split; [apply context_drop_shared; cbn; by rewrite Hs3|].
  apply wpio_done. split; [done|]. cbn. rewrite Hs3. split; [|done].
  change (size (mem w3) = 10%nat). by rewrite (rest_count_size Hr3), Hk3, kept_length.
Qed.

(** The heap, the contexts and the numbers when the threads start. *)
Record ready (ctx : loc) (roots ctxs : list loc) (T : gmap nat loc) (k : list (loc * obj)) (w : world)
    : Prop := {
  rd_hosting : hosting low_threshold 7 T k ∅ w;
  rd_main : T !! 0%nat = Some ctx;
  rd_length : length ctxs = 4%nat;
  rd_contexts l c : ctxs !! l = Some c → T !! S l = Some c;
  rd_holding : holding roots w;
  rd_bytes : total_size (mem w) = 10 * su;
  rd_size : size (mem w) = 10%nat;
  rd_cells : cells w = ∅;
}.

Lemma test_setup_wp w0 fuel :
  unborn w0 → dropped w0 = [] → 10 * su ≤ 1048576 → (0 < fuel)%nat →
  wpio [] (test_setup fuel) (λ out r w1, out = [] ∧ ∃ ctx roots ctxs T k,
    r = (ctx, roots, 10 * su, ctxs) ∧ ready ctx roots ctxs T k w1) w0.
Proof.
  intros Hu Hd Hsmall Hf. assert (1048576 ≤ usize_max) by (vm_compute; discriminate).
  apply wpio_lift, (hosting_new w0 low_threshold 0 fuel); [done|done|apply low_threshold_wf|done|].
  intros ctx w Hw. apply wpio_lift, (hosting_arc_clone Hw); [done|]. clear Hw. intros w1 Hw.
  apply wpio_lift. eapply (alloc_roots_wp _ _ _ _ _ _ _ _ _ (ho_rest _ _ _ _ _ _ Hw));
    [lia|done|rewrite length_seqZ; cbn; lia|].
  intros roots w2 Hlen Hw2. rewrite length_seqZ in Hlen. rewrite app_nil_r in Hw2.
  destruct (setup_holding _ _ _ Hw2 Hlen) as (Hhold & Htot & Hsize & Hcells).
  apply (hosting_rest _ _ _ _ _ _ _ _ _ Hw) in Hw2. clear Hw.
  pose proof (ho_rest _ _ _ _ _ _ Hw2) as Hr2.
  apply wpio_lift, (rest_get_bytes Hr2). rewrite <- (rest_total Hr2), Htot. apply wpio_then.
  eapply (hosting_spawn _ _ (λ _, _) _ 0 4 _ _ 0); [|exact Hw2|done|done| |].
  - intros m s T w3 _ Hw3. exact Hw3.
  - intros id _. by rewrite lookup_singleton_ne.
  - intros ctxs T w3 Hw3 Hsub Hc Hctxs. pose proof (ho_rest _ _ _ _ _ _ Hw3) as Hr3.
    apply wpio_done. split; [done|].
    assert (abs w3 = abs w2) as Habs by (by rewrite (rs_abs _ _ _ _ Hr3), (rs_abs _ _ _ _ Hr2)).
    exists ctx, roots, ctxs, T. eexists. split; [done|]. split; [exact Hw3| |done|exact Hctxs| | | |].
    + eapply lookup_weaken; [apply lookup_singleton_eq|exact Hsub].
    + destruct Hhold. by split; rewrite ?Habs.
    + by rewrite (rest_total Hr3), <- (rest_total Hr2).
    + by rewrite (rest_count_size Hr3), <- (rest_count_size Hr2).
    + change (gcells (abs w3) = ∅). by rewrite Habs.
Qed.

(** C10: the test [concurrent_collection] passes in every interleaving of its threads,
    if the background thread does not wake up before the peak has been measured, for
    any number of rounds that it has while the main thread sleeps (none of them cut off by
    the end of the sleep): no thread gets stuck, all return, the peak includes all
    vectors; the rounds collect whenever a collection is due; and then the forced
    collection leaves the ten numbers and nothing else, so that the final bytes are less
    than half of the peak. *)
Theorem concurrent_collection_passes w0 fuel :
  unborn w0 → dropped w0 = [] → 0 < su → su ≤ sv → 10 * su + 400 * sv ≤ 1048576 →
  (1622 ≤ fuel)%nat →
  ∃ ctx roots ctxs w1,
    run (main (test_setup fuel)) w0 = Done ([], (ctx, roots, 10 * su, ctxs)) w1 ∧
    ∀ tp w2, rtc pool_step (cs_prog <$> test_threads fuel roots, w1) (tp, w2) →
      calm_safe w1 (test_threads fuel roots) tp w2 ∧
      (Forall (λ p, p = Ret tt) tp →
       ∃ peak w3, run (main (test_joins fuel ctxs)) w2 = Done ([], peak) w3 ∧
         ∀ n, ∃ w4 w5,
           (∀ ts, run (Heap.background_gc_thread fuel (replicate n true ++ ts) 1 []) w3 =
                  run (Heap.background_gc_thread fuel ts 1 []) w4) ∧
           run (main (test_end fuel ctx roots (10 * su) peak)) w4 = Done (test_output, tt) w5 ∧
           size (mem w5) = 10%nat ∧ strong w5 = 1).
Proof.
  intros Hu Hd Hsu Hsv Hsmall Hf.
  destruct (wpio_run _ _ _ (test_setup_wp w0 fuel Hu Hd ltac:(lia) ltac:(lia)))
    as (out & r & w1 & Hrun & -> & ctx & roots & ctxs & T & k & -> & Hready).
  destruct Hready as [Hw Hctx Hlen Hctxs Hhold Htot Hsize Hcells].
  exists ctx, roots, ctxs, w1. split; [exact Hrun|]. intros tp w2 Hsteps.
  assert (calm_safe w1 (test_threads fuel roots) tp w2) as Hsafe.
  { apply (calm_pool_safe w1 fuel _ tp w2); [by eapply hosting_idle| |exact Hsteps]. by apply test_fit. }
  split; [exact Hsafe|]. intros Hall.
  assert (holding roots w2 ∧ total_size (mem w2) = 10 * su + 400 * sv ∧ (size (mem w2) ≤ 810)%nat)
    as (Hhold2 & Htot2 & Hsize2) by by eapply test_after.
  pose proof (hosting_after _ _ _ _ _ _ _ _ _ Hw Hsafe Hall) as Hw2.
  pose proof (ho_rest _ _ _ _ _ _ Hw2) as Hr2.
  destruct (wpio_run _ _ _ (test_joins_wp fuel ctx roots ctxs _ _ _ w2 Hw2 Hctx Hlen Hctxs Hhold2
    ltac:(rewrite <- (rest_total Hr2); lia) ltac:(by rewrite <- (rest_count_size Hr2))))
    as (out & peak & w3 & Hrun3 & -> & -> & Hsl).
  rewrite <- (rest_total Hr2), Htot2 in Hrun3.
  exists (10 * su + 400 * sv), w3. split; [exact Hrun3|]. intros n.
  destruct (sleeping_rounds _ _ _ _ fuel n Hsl Hf) as (k4 & w4 & Hrounds & Hsl4).
  destruct (wpio_output _ _ _ _ (test_end_wp fuel ctx roots k4 _ w4 Hsl4 Hsu Hsv Hf)) as (w5 & Hrun5 & Hfin).
  by exists w4, w5.
Qed.

End passes.
