(* ===== verification/LastStore.v ===== *)
(** * The last store into a cell

    Threads that store into one cell race: the order of the stores depends on the
    schedule.  If the last value that each of them stores is the same, the cell holds
    that value when all have returned.  The argument is about programs and schedules
    alone; the states of the run only matter for what the threads read in them. *)

From stdpp Require Import relations.
From S2P Require Import Prelude Prog TraceImpls GcBox World Tracing State HeapOps Mutator.
Open Scope Z_scope.

Section last_store.
Context `{Env}.
(** [I] holds in every state of the run; [v] is the last value of the cell [c]. *)
Variables (I : world → Prop) (c : loc) (v : val).

(** Whatever the other threads do in between, [p] returns only results of [P]. *)
Fixpoint returns {A} (p : gc A) (P : A → Prop) : Prop :=
  match p with
  | Ret a => P a
  | Act f k => ∀ w x w', I w → f w = Done x w' → returns (k x) P
  end.

(** [p] stores nothing but [v] in [c]. *)
Fixpoint only_stores {A} (p : gc A) : Prop :=
  match p with
  | Ret _ => True
  | Act f k => ∀ w x w', I w → f w = Done x w' →
      (cells w' !! c = cells w !! c ∨ cells w' !! c = Some v) ∧ only_stores (k x)
  end.

(** [p] stores in [c], and [v] is the last value that it stores there. *)
Fixpoint stores_last {A} (p : gc A) : Prop :=
  match p with
  | Ret _ => False
  | Act f k => ∀ w x w', I w → f w = Done x w' →
      stores_last (k x) ∨ (cells w' !! c = Some v ∧ only_stores (k x))
  end.

(** ** Laws *)

Lemma returns_mono {A} (p : gc A) (P Q : A → Prop) :
  returns p P → (∀ a, P a → Q a) → returns p Q.
Proof. intros Hp HPQ. induction p as [a|X f k IH]; cbn in *; eauto. Qed.

Lemma returns_any {A} (p : gc A) : returns p (λ _, True).
Proof. induction p as [a|X f k IH]; cbn; eauto. Qed.

Lemma returns_bind {A B} (p : gc A) (k : A → gc B) P Q :
  returns p P → (∀ a, P a → returns (k a) Q) → returns (bind p k) Q.
Proof.
  intros Hp Hk. induction p as [a|X f k' IH]; [by apply Hk|].
  intros w x w' Hi Hf. apply IH. by eapply Hp.
Qed.

Lemma only_stores_bind {A B} (p : gc A) (k : A → gc B) P :
  only_stores p → returns p P → (∀ a, P a → only_stores (k a)) → only_stores (bind p k).
Proof.
  intros Hp Hr Hk. induction p as [a|X f k' IH]; [by apply Hk|].
  intros w x w' Hi Hf. destruct (Hp w x w' Hi Hf) as [Hc Hx]. split; [done|].
  apply IH; [done|by eapply Hr].
Qed.

(** The last store may come later, *)
Lemma stores_last_bind {A B} (p : gc A) (k : A → gc B) P :
  returns p P → (∀ a, P a → stores_last (k a)) → stores_last (bind p k).
Proof.
  intros Hr Hk. induction p as [a|X f k' IH]; [by apply Hk|].
  intros w x w' Hi Hf. left. apply IH. by eapply Hr.
Qed.

(** or now. *)
Lemma stores_last_then {A B} (p : gc A) (k : A → gc B) :
  stores_last p → (∀ a, only_stores (k a)) → stores_last (bind p k).
Proof.
  intros Hp Hk. induction p as [a|X f k' IH]; [done|].
  intros w x w' Hi Hf. destruct (Hp w x w' Hi Hf) as [Hx|[Hc Hx]]; [left; by apply IH|right].
  split; [done|]. apply (only_stores_bind _ _ (λ _, True)); [done|apply returns_any|auto].
Qed.

(** ** Operations *)

Lemma returns_get {X} (g : world → X) (P : X → Prop) :
  (∀ w, I w → P (g w)) → returns (get g) P.
Proof. intros Hg w x w' Hi [= <- <-]. by apply Hg. Qed.

Lemma only_stores_get {X} (g : world → X) : only_stores (get g).
Proof. intros w x w' _ [= <- <-]. split; [by left|done]. Qed.

Lemma cell_set_last : stores_last (cell_set c v).
Proof.
  intros w [] w' _ Hf. right. destruct (cells w !! c); [|done]. injection Hf as <-.
  split; [|done]. apply lookup_insert_eq.
Qed.

Lemma set_last th : stores_last (GcCell.set th c v).
Proof. eapply stores_last_bind; [apply returns_any|]. intros _ _. apply cell_set_last. Qed.

Lemma drop_only_stores a : only_stores (GcRoot.drop a).
Proof.
  intros w [] w' _ Hf. split; [left|done]. destruct (mem w !! a) as [b|]; [|done]. by injection Hf as <-.
Qed.

(** ** The race *)

(** Each thread stores [v] last or nothing else any more, and [v] is in the cell or
    one of them still has to store it. *)
Record racing (tp : list (gc unit)) (w : world) : Prop := {
  rc_threads i p : tp !! i = Some p → only_stores p ∨ stores_last p;
  rc_cell : cells w !! c = Some v ∨ ∃ i p, tp !! i = Some p ∧ stores_last p;
}.

Lemma racing_step tp w tp' w' :
  I w → pool_step (tp, w) (tp', w') → racing tp w → racing tp' w'.
Proof.
  intros Hi Hs [Hth Hc]. inversion Hs as [? i X f k x ? ? Hl Hf]; simplify_eq.
  assert (i < length tp)%nat as Hlt by (by eapply lookup_lt_Some).
  assert (<[i := k x]> tp !! i = Some (k x)) as Hnew by by apply list_lookup_insert_eq.
  assert ((only_stores (k x) ∧ (cells w' !! c = Some v ∨ cells w' !! c = cells w !! c ∧ only_stores (Act f k)))
    ∨ stores_last (k x)) as Hk.
  { destruct (Hth i _ Hl) as [Ho|Hlast].
    - destruct (Ho w x w' Hi Hf) as [[?|?] ?]; left; (split; [done|]); [right|left]; done.
    - destruct (Hlast w x w' Hi Hf) as [?|[? ?]]; [by right|left]. split; [done|]. by left. }
  split.
  - intros j p. destruct (decide (i = j)) as [<-|Hne].
    + rewrite Hnew. intros [= <-]. destruct Hk as [[? _]|?]; auto.
    + rewrite list_lookup_insert_ne by done. apply Hth.
  - destruct Hk as [[Ho [?|[He Ho']]]|Hlast]; [by left| |by right; exists i, (k x)].
    destruct Hc as [Hc|(j & p & Hj & Hp)]; [left; congruence|].
    destruct (decide (i = j)) as [<-|Hne]; [|right; exists j, p; by rewrite list_lookup_insert_ne].
    rewrite Hl in Hj. injection Hj as <-. destruct (Hp w x w' Hi Hf) as [?|[? _]]; [right|by left].
    by exists i, (k x).
Qed.

(** The value of the cell when all threads have returned. *)
Lemma last_store tp w tp' w' :
  (∀ tp1 w1, rtc pool_step (tp, w) (tp1, w1) → I w1) → racing tp w →
  rtc pool_step (tp, w) (tp', w') → Forall (λ p, p = Ret tt) tp' → cells w' !! c = Some v.
Proof.
  intros HI Hr Hs Hall. assert (racing tp' w') as [_ [?|(i & p & Hp & Hlast)]]; [|done|].
  - revert Hs. refine (rtc_ind_r (λ s, racing s.1 s.2) (tp, w) Hr _ (tp', w')).
    intros [tp1 w1] [tp2 w2] Hs1 Hs. apply racing_step; [by apply (HI tp1)|done].
  - rewrite Forall_lookup in Hall. by rewrite (Hall _ _ Hp) in Hlast.
Qed.

End last_store.
