(* ===== verification/BarrierTest.v ===== *)
(** * The integration test of the write barrier ([src/tests/gc_functional.rs])

    [write_barrier_concurrent_mutation]: four threads store the same pointers into one
    cell, in the same order, while the main thread waits for them; then a collection
    keeps the object that the cell points to, and it is the last one of the list.  The
    heap stays below the default threshold, so no collection meets the stores: the
    background thread, which is one of the threads here, finds nothing to do. *)

From stdpp Require Import relations.
From S2P Require Import Console.
From S2P Require Import Prelude Prog Color TraceImpls GcBox Options BgThread World.
From S2P Require Import Graph Tracing State HeapOps Mutator Marking Sweeping Collection.
From S2P Require Import Client Background Lifecycle Ownership Scripts ScriptRules Demo ScriptLoops.
From S2P Require Import Interface Session UnitTests LastStore.
From S2P Require Import Incremental MarkProtocol MutatorSteps SweepSteps SweepClients SweepCycle.
From S2P Require Import CalmClients CalmPool SharedHeap.
Open Scope Z_scope.

Abbreviation I32_ty := (TPrim I32).
Abbreviation Ptr_ty := (TGcPtr (TPrim I32)).
Abbreviation Cell_ty := (TGcCell (TGcPtr (TPrim I32))).

Section program.
Context `{Env}.

(** [[0u8; 16]] *)
Definition array16_ty : ty := TArray (TPrim U8) 16.
Definition array16 : val := VArray (replicate 16 (VPrim U8 0)).

(** [values[0]] *)
Definition first_value (values : list loc) : gc loc :=
  match values with a :: _ => Ret a | [] => throw (Panic IndexOutOfBounds) end.

(** [for v in values_cl { cell_ptr.set(v); }] *)
Fixpoint store_all (th : nat) (cell_ptr : loc) (values : list loc) : gc unit :=
  match values with
  | [] => Ret tt
  | v :: values =>
      (d ← GcRoot.deref cell_ptr;
       c ← cell d;
       GcCell.set th c (ptr_to v);;
       store_all th cell_ptr values)%gc
  end.

(** The closure of a thread, which drops its clone of the root at its end. *)
Definition writer (th : nat) (cell_ptr : loc) (values : list loc) : gc unit :=
  (store_all th cell_ptr values;; GcRoot.drop cell_ptr)%gc.

Open Scope io_scope.

(** The test up to the threads, and from the joins on. *)
Definition barrier_setup (fuel : nat) : io (loc * list loc * loc * list loc) :=
  ctx ← GcContext.new fuel 0;
  values ← alloc_ptrs fuel I32_ty i32 (seqZ 0 1000);
  cell_root ← (a ← first_value values;
               c ← GcCell.new (ptr_to a);
               GcContext.allocate fuel Cell_ty (VGcCell c))%gc;
  temporaries fuel 2000 array16_ty array16;;
  Heap.arc_clone;;
  ctxs ⇐ spawn (GcRoot.clone cell_root;; Ret tt)%gc (seq 0 4);
  done (ctx, values, cell_root, ctxs).

Definition barrier_finish (fuel : nat) (ctx cell_root : loc) (ctxs : list loc) : io unit :=
  ! join_all fuel (λ _, done tt) (seq 0 4) ctxs;
  Heap.force_collect fuel;;
  last ← (d ← GcRoot.deref cell_root; c ← cell d; v ← GcCell.get c; p ← pointer v; GcPtr.root p)%gc;
  v ← GcRoot.deref last;
  ! assert (number v =? 999);
  GcRoot.drop last;;
  Heap.arc_drop fuel;;
  GcRoot.drop cell_root;;
  GcContext.drop fuel 0 ctx;;
  done tt.

End program.

(** ** The threads *)

Section threads.
Context `{Env} `{!TraceContract}.
#[local] Instance barrier_cell_types : CellTypes := λ t, t = Ptr_ty.
Variables (fuel rounds : nat) (values : list loc) (root : loc).

Definition left_with (rs : list (ty * loc)) (k : sknow) : Prop := sk_roots k = rs ∧ sk_bytes k = 0.

Definition joining_cstart : cstart :=
  mkCstart (mkSknow [(Cell_ty, root)] [] 0 0 []) (Ret tt) (left_with [(Cell_ty, root)]).
(** The background thread waits [rounds] times while the threads run. *)
Definition waking_cstart : cstart :=
  mkCstart (mkSknow [] [] 0 0 [])
    (Heap.background_gc_thread fuel (replicate rounds true ++ [false]) 1 Tracer.new) (left_with []).
Definition writer_cstart (id : nat) : cstart :=
  mkCstart (mkSknow [(Cell_ty, root)] [] 0 0 (RMark I32_ty <$> values))
    (writer (S id) root values) (left_with []).

Definition barrier_threads : list cstart :=
  joining_cstart :: waking_cstart :: (writer_cstart <$> seq 0 4).

Lemma barrier_elem c :
  c ∈ barrier_threads → c = joining_cstart ∨ c = waking_cstart ∨ ∃ id, c = writer_cstart id.
Proof. unfold barrier_threads. rewrite !elem_of_cons, list_elem_of_fmap. intros [?|[?|(id & -> & _)]]; eauto. Qed.

Lemma barrier_sum (f : cstart → Z) n :
  (∀ id, f (writer_cstart id) = n) → msum f barrier_threads = f joining_cstart + f waking_cstart + 4 * n.
Proof. intros Hn. unfold barrier_threads. cbn. rewrite !Hn. lia. Qed.

(** What a writer knows. *)
Definition writing (k : sknow) : Prop :=
  ∃ K, k = mkSknow [(Cell_ty, root)] [] 0 0 K ∧ ∀ a, a ∈ values → RMark I32_ty a ∈ K.

Lemma calm_store_all quiet th vs k :
  (∀ a, a ∈ vs → a ∈ values) → writing k →
  calm_client quiet fuel k (store_all th root vs) (λ _, writing).
Proof.
  intros Hvs. revert k. induction vs as [|a vs IH]; intros k (K & -> & HK); cbn [store_all].
  { apply calm_ret. by exists K. }
  eapply calm_bind; [apply calm_op, (sweep_deref _ _ _ _ _ _ Cell_ty root); by left|].
  intros d ? [Hd ->]. destruct d as [| | | | | | | | | |c|]; try done. cbn [cell owned app].
  apply calm_then with (P := λ r, r = c); [by apply calm_ret|]. intros ? ->.
  eapply calm_bind.
  { apply calm_op, (sweep_cell_set _ _ _ _ _ _ _ c Ptr_ty); [by left|done|done|done|].
    intros r ->%list_elem_of_singleton. right. apply HK, Hvs. by left. }
  intros [] ? ->. apply IH; [intros x Hx; apply Hvs; by right|]. eexists. split; [done|].
  intros x Hx. right. by apply HK.
Qed.

Lemma calm_writer quiet th :
  calm_client quiet fuel (cs_know (writer_cstart th)) (writer (S th) root values) (λ _, left_with []).
Proof.
  eapply calm_bind; [apply calm_store_all; [done|]|].
  - eexists. split; [done|]. intros a Ha. apply list_elem_of_fmap. by exists a.
  - intros [] ? (K & -> & _). eapply calm_mono.
    + apply calm_op, (sweep_drop _ _ [] _ _ _ _ Cell_ty root); [done|by intros ?%elem_of_nil].
    + by intros [] ? ->.
Qed.

(** *** The state when they start *)

(** Only the cell has roots: one of the main thread, one of each writer. *)
Record prepared (c : loc) (r : Z) (w : world) : Prop := {
  pp_root : objs (abs w) !! root = Some (mkObj Cell_ty r (VGcCell c));
  pp_value i a : values !! i = Some a → objs (abs w) !! a = Some (mkObj I32_ty 0 (i32 (Z.of_nat i)));
  pp_other a ob : objs (abs w) !! a = Some ob → a ≠ root → ob_roots ob = 0;
  pp_cells : is_Some (cells w !! c);
  pp_size : (size (mem w) ≤ 3001)%nat;
}.

Lemma barrier_bytes w : calm_bytes w barrier_threads = total_size (mem w).
Proof. unfold calm_bytes. rewrite (barrier_sum _ 0) by done. cbn. lia. Qed.

Lemma barrier_turns w : calm_turns w barrier_threads = Z.of_nat (size (mem w)).
Proof. unfold calm_turns. rewrite (barrier_sum _ 0) by done. cbn. lia. Qed.

Section fit.
Variables (c : loc) (w : world).
Hypothesis Hw : prepared c 5 w.
Hypothesis Hcells : ∀ c v, cells w !! c = Some v → ∃ a, v = ptr_to a.
Hypothesis Hsmall : total_size (mem w) ≤ 1048576.
Hypothesis Hfuel : (3001 ≤ fuel)%nat.
Hypothesis Hopt : options (heap w) = GcOptions.DEFAULT.
Hypothesis Hthr : current_threshold (heap w) = 1048576.

Lemma barrier_quiet : calm_quiet w barrier_threads.
Proof. unfold calm_quiet, not_due. rewrite barrier_bytes, Hopt, Hthr. split; [done|by left]. Qed.

Lemma prepared_valid a ob : objs (abs w) !! a = Some ob → valid w (ob_ty ob) a.
Proof.
  intros Ho. cbn in Ho. rewrite lookup_fmap in Ho. apply fmap_Some in Ho as (b & Hb & ->). by exists b.
Qed.

Lemma barrier_fit : calm_fit w fuel barrier_threads.
Proof.
  pose proof (pp_root _ _ _ Hw) as Hroot. pose proof (prepared_valid _ _ Hroot) as Hv.
  assert (1048576 ≤ usize_max) by (vm_compute; discriminate). split.
  - intros c' v Hc. destruct (Hcells c' v Hc) as [a ->]. by exists Ptr_ty.
  - intros a. unfold roots_of. rewrite (msum_cstart _ (λ c, handle_count (sk_roots (cs_know c)).*2 a)) by done.
    rewrite (barrier_sum _ (handle_count [root] a)) by done.
    cbn [cs_know sk_roots fmap list_fmap snd joining_cstart waking_cstart].
    rewrite handle_count_cons. change (handle_count [] a) with 0. case_decide as Hra.
    + subst a. rewrite Hroot. done.
    + destruct (objs (abs w) !! a) as [ob|] eqn:Ho; [by rewrite (pp_other _ _ _ Hw a ob Ho)|done].
  - rewrite (barrier_sum _ 1) by done. cbn. lia.
  - rewrite barrier_bytes. lia.
  - rewrite barrier_turns. pose proof (pp_size _ _ _ Hw). lia.
  - assert (∀ t a, (t, a) ∈ [(Cell_ty, root)] → valid w t a) as Hroots
      by by intros t a [= -> ->]%list_elem_of_singleton.
    intros x [->|[->|[id ->]]]%barrier_elem; (split; cbn [cs_know sk_bytes sk_pins sk_roots sk_known
      joining_cstart waking_cstart writer_cstart]; [done|done| |]); try done;
      [by intros r ?%elem_of_nil|by intros t a ?%elem_of_nil|by intros r ?%elem_of_nil|].
    intros r (a & -> & [i Hi]%list_elem_of_lookup)%list_elem_of_fmap. exists I32_ty, a. split; [done|].
    apply (prepared_valid _ _ (pp_value _ _ _ Hw i a Hi)).
  - intros x [->|[->|[id ->]]]%barrier_elem; cbn [cs_know cs_prog cs_post].
    + by apply calm_ret.
    + eapply calm_mono; [apply calm_background, barrier_quiet|]. by intros ? ? ->.
    + apply calm_writer.
Qed.

End fit.
(** *** The race for the cell *)

(** What the threads find in every state of the run. *)
Definition during (c : loc) (w : world) : Prop :=
  (∃ b, mem w !! root = Some b ∧ data b = VGcCell c) ∧ options (heap w) = GcOptions.DEFAULT ∧
  current_threshold (heap w) = 1048576 ∧ bytes_allocated (heap w) ≤ 1048576.

Lemma store_all_last c th vs a :
  stores_last (during c) c (ptr_to a) (store_all th root (vs ++ [a])).
Proof.
  induction vs as [|v vs IH]; cbn [app store_all].
  - apply (stores_last_bind _ _ _ _ _ (λ d, d = VGcCell c)).
    + intros w d w' [(b & Hb & Hd) _] Hf. rewrite Hb in Hf. by injection Hf as <- _.
    + intros ? ->. apply (stores_last_bind _ _ _ _ _ (λ r, r = c)); [done|]. intros ? ->.
      apply stores_last_then; [apply set_last|done].
  - do 3 (eapply stores_last_bind; [apply returns_any|]; intros ? _). exact IH.
Qed.

Lemma writer_last c th a :
  values !! 999%nat = Some a → length values = 1000%nat →
  stores_last (during c) c (ptr_to a) (writer th root values).
Proof.
  intros Ha Hlen. apply stores_last_then; [|intros; apply drop_only_stores].
  replace values with (take 999 values ++ [a]); [apply store_all_last|].
  rewrite <- take_S_r by done. apply take_ge. by rewrite Hlen.
Qed.

(** The background thread finds that no collection is due. *)
Lemma should_collect_quiet c : returns (during c) Heap.should_collect (λ due, due = false).
Proof.
  apply (returns_bind _ _ _ (λ o, o = GcOptions.DEFAULT)); [by apply returns_get; intros w (_ & ? & _)|].
  intros ? ->. apply (returns_bind _ _ _ (λ n, n ≤ 1048576)); [by apply returns_get; intros w (_ & _ & _ & ?)|].
  intros n Hn. apply (returns_bind _ _ _ (λ n, n = 1048576)); [by apply returns_get; intros w (_ & _ & ? & _)|].
  intros ? ->. cbn. by apply Z.ltb_ge.
Qed.

Lemma should_collect_only_stores c a : only_stores (during c) c (ptr_to a) Heap.should_collect.
Proof.
  eapply only_stores_bind; [apply only_stores_get|apply returns_any|]. intros o _.
  destruct (GcOptions.is_completely_off o); [done|].
  do 2 (eapply only_stores_bind; [apply only_stores_get|apply returns_any|]; intros ? _).
  by case_match.
Qed.

Lemma waking_only_stores c a tr n :
  only_stores (during c) c (ptr_to a) (Heap.background_gc_thread fuel (replicate n true ++ [false]) 1 tr).
Proof.
  assert (∀ timed_out, only_stores (during c) c (ptr_to a) (Heap.wait_stopped 1 timed_out)) as Hwait.
  { intros t. eapply only_stores_bind; [apply only_stores_get|apply returns_any|]. by intros [] _. }
  induction n as [|n IH]; cbn [replicate app Heap.background_gc_thread];
    (eapply only_stores_bind; [apply only_stores_get|apply returns_any|]; intros o _;
     destruct (Duration_is_zero _); [done|]).
  - apply (only_stores_bind _ _ _ _ _ (λ stop, stop = true)); [apply Hwait| |by intros ? ->].
    eapply returns_bind; [apply returns_any|]. by intros [] _.
  - eapply only_stores_bind; [apply Hwait|apply returns_any|]. intros [] _; [done|].
    eapply only_stores_bind; [apply should_collect_only_stores|apply should_collect_quiet|]. intros ? ->. exact IH.
Qed.

(** After the race the cell points to the last object of the list. *)
Section race.
Variables (c : loc) (w : world) (tp : list (gc unit)) (w' : world) (a : loc).
Hypothesis Hw : prepared c 5 w.
Hypothesis Hopt : options (heap w) = GcOptions.DEFAULT.
Hypothesis Hthr : current_threshold (heap w) = 1048576.
Hypothesis Hsmall : total_size (mem w) ≤ 1048576.
Hypothesis Hsafe : ∀ tp' w', rtc pool_step (cs_prog <$> barrier_threads, w) (tp', w') →
  calm_safe w barrier_threads tp' w'.
Hypothesis Hlen : length values = 1000%nat.
Hypothesis Ha : values !! 999%nat = Some a.
Hypothesis Hsteps : rtc pool_step (cs_prog <$> barrier_threads, w) (tp, w').
Hypothesis Hall : Forall (λ p, p = Ret tt) tp.

Lemma root_during tp1 w1 : rtc pool_step (cs_prog <$> barrier_threads, w) (tp1, w1) → during c w1.
Proof.
  intros Hs. specialize (Hsafe _ _ Hs). destruct (cm_heap _ _ _ _ Hsafe) as (Ho & Ht & Hb).
  rewrite barrier_bytes in Hb. split; [|split_and!; congruence || lia].
  pose proof (pp_root _ _ _ Hw) as Hr. cbn in Hr. rewrite lookup_fmap in Hr.
  apply fmap_Some in Hr as (b & Hbx & Eb). destruct (cm_kept _ _ _ _ Hsafe _ _ Hbx) as (b' & Hb' & _ & Hd).
  exists b'. split; [done|]. unfold abs_box in Eb. injection Eb as _ _ Ed. by rewrite Hd, <- Ed.
Qed.

Lemma race_won : cells w' !! c = Some (ptr_to a).
Proof.
  apply (last_store (during c) c (ptr_to a) (cs_prog <$> barrier_threads) w tp w');
    [apply root_during| |done|done]. split.
  - intros i p (x & -> & [->|[->|[id ->]]]%list_elem_of_lookup_2%barrier_elem)%list_lookup_fmap_Some.
    + by left.
    + left. apply waking_only_stores.
    + right. by apply writer_last.
  - right. exists 2%nat, (writer 1 root values). split; [done|]. by apply writer_last.
Qed.

(** What else the threads leave behind. *)
Lemma race_leaves : prepared c 1 w' ∧ total_size (mem w') = total_size (mem w).
Proof.
  specialize (Hsafe _ _ Hsteps).
  destruct (cm_returned _ _ _ _ Hsafe Hall) as (_ & _ & _ & _ & ks & Hks & Hco & Htotal & Hturns).
  rewrite barrier_turns in Hturns. rewrite barrier_bytes in Htotal.
  assert (msum sk_bytes ks = 0) as Hz.
  { eapply posts_sum; [exact Hks|]. intros x k [->|[->|[id ->]]]%barrier_elem Hp; apply Hp. }
  assert (∀ x, roots_of x (know_state <$> ks) = handle_count [root] x) as Hroots.
  { intros x. unfold barrier_threads in Hks. apply Forall2_cons_inv_l in Hks as (k0 & ks' & [Hr0 _] & Hks & ->).
    change (know_state <$> k0 :: ks') with (know_state k0 :: (know_state <$> ks')).
    unfold roots_of. cbn [msum]. rewrite msum_know, (posts_sum _ _ ks' Hks).
    - change (mt_roots (know_state k0)) with (sk_roots k0).*2. rewrite Hr0. cbn [fmap list_fmap snd]. lia.
    - intros y k Hy Hp. change (mt_roots (know_state k)) with (sk_roots k).*2.
      replace (sk_roots k) with ([] : list (ty * loc)); [done|]. symmetry.
      apply elem_of_cons in Hy as [->|(id & -> & _)%list_elem_of_fmap]; apply Hp. }
  assert (∀ x t n d, objs (abs w) !! x = Some (mkObj t n d) →
    objs (abs w') !! x = Some (mkObj t (handle_count [root] x) d)) as Hkept.
  { intros x t n d Ho. cbn in Ho. rewrite lookup_fmap in Ho. apply fmap_Some in Ho as (b & Hb & Eb).
    destruct (cm_kept _ _ _ _ Hsafe _ _ Hb) as (b' & Hb' & Hvt & Hd).
    assert (objs (abs w') !! x = Some (abs_box b')) as Ho' by (cbn; by rewrite lookup_fmap, Hb').
    pose proof (Hco x) as Hx. rewrite Ho', Hroots in Hx. rewrite Ho'. f_equal.
    unfold abs_box, box_ty in *. injection Eb as -> _ ->. cbn in Hx. by rewrite Hvt, Hd, Hx. }
  split; [|lia]. split.
  - rewrite (Hkept _ _ _ _ (pp_root _ _ _ Hw)), handle_count_cons, decide_True by done. done.
  - intros i x Hi. pose proof (pp_value _ _ _ Hw i x Hi) as Ho. rewrite (Hkept _ _ _ _ Ho), handle_count_cons.
    case_decide as Hx; [|done]. subst x. rewrite (pp_root _ _ _ Hw) in Ho. done.
  - intros x ob Ho Hne. pose proof (Hco x) as Hx. rewrite Ho, Hroots, handle_count_cons in Hx.
    by rewrite decide_False in Hx by done.
  - apply (cm_cell _ _ _ _ Hsafe), Hw.
  - pose proof (pp_size _ _ _ Hw). lia.
Qed.

End race.
End threads.

(** ** The beginning and the end *)

Section passes.
Context `{Env} `{!TraceContract}.
#[local] Existing Instance barrier_cell_types.

(** What the test allocates fits into the default threshold. *)
Definition barrier_bytes_fit : Prop :=
  1000 * layout_size I32_ty + layout_size Cell_ty + 2000 * layout_size array16_ty ≤ 1048576.

(** The objects before the threads start; the cell has [r] roots. *)
Definition barrier_heap (tk vk : list (loc * obj)) (root c : loc) (r : Z) : list (loc * obj) :=
  tk ++ (root, mkObj Cell_ty r (VGcCell c)) :: vk.

Abbreviation numbers values := (numbered 0 I32_ty i32 (seqZ 0 1000) values).

Lemma barrier_heap_prepared tk values root c r w :
  length values = 1000%nat → temps 2000 array16_ty array16 tk →
  rest w (barrier_heap tk (numbers values) root c r) {[c := ptr_to (hd 0%nat values)]} w →
  prepared values root c r w.
Proof.
  intros Hlen Htk Hw. assert (length values = length (seqZ 0 1000)) as Hlen' by done.
  pose proof (rs_keys _ _ _ _ Hw) as Hnd.
  assert (∀ a ob, objs (abs w) !! a = Some ob ↔ (a, ob) ∈ barrier_heap tk (numbers values) root c r) as Hobj.
  { intros a ob. rewrite (rs_abs _ _ _ _ Hw). cbn [kgraph objs]. by rewrite <- elem_of_list_to_map. }
  unfold barrier_heap in Hobj. split.
  - apply Hobj, elem_of_app. right. by left.
  - intros i a Hi. apply Hobj, elem_of_app. do 2 right.
    apply (numbered_lookup _ _ _ _ _ i); [|done].
    apply lookup_seqZ_lt. apply lookup_lt_Some in Hi. lia.
  - intros a ob Ho%Hobj Hne. apply elem_of_app in Ho as [Ho|[[= -> _]|Ho]%elem_of_cons]; [|done|].
    + by rewrite (tp_object _ _ _ _ Htk _ Ho : ob = _).
    + apply numbered_elem in Ho as [i Ho]. cbn in Ho. by subst ob.
  - rewrite (rest_cells Hw), lookup_singleton_eq. by eexists.
  - rewrite (rest_count_size Hw). unfold barrier_heap. rewrite length_app. cbn [length].
    rewrite numbered_length, (tp_length _ _ _ _ Htk) by done. by vm_compute.
Qed.

Lemma barrier_heap_size tk values root c r :
  length values = 1000%nat → temps 2000 array16_ty array16 tk →
  ksize (barrier_heap tk (numbers values) root c r) =
    2000 * layout_size array16_ty + (layout_size Cell_ty + 1000 * layout_size I32_ty).
Proof.
  intros Hlen Htk. unfold barrier_heap. rewrite ksize_app, ksize_cons, (temps_size _ _ _ _ Htk).
  by rewrite numbered_size.
Qed.

(** A new cell that holds a pointer to a known object. *)
Lemma cell_wf_val k c a t ob :
  NoDup k.*1 → (a, ob) ∈ k → ob_ty ob = t → wf_val (kgraph k {[c := VGcPtr t a]}) (VGcCell c).
Proof.
  intros Hk Ha Ht. split.
  - intros t' a' [Hin|c' v Hin Hc Hv]; apply list_elem_of_singleton in Hin; [done|]. simplify_eq.
    cbn in Hc. rewrite lookup_singleton_eq in Hc. simplify_eq. apply list_elem_of_singleton in Hv. simplify_eq.
    exists ob. split; [by apply elem_of_list_to_map|done].
  - intros c' Hin. apply list_elem_of_singleton in Hin. simplify_eq. cbn. rewrite lookup_singleton_eq. by eexists.
Qed.

(** The heap, the contexts and the cell when the threads start. *)
Record racing_start (ctx root : loc) (values ctxs : list loc) (T : gmap nat loc) (tk : list (loc * obj))
    (c : loc) (w : world) : Prop := {
  rt_hosting : hosting GcOptions.DEFAULT 7 T (barrier_heap tk (numbers values) root c 5)
    {[c := ptr_to (hd 0%nat values)]} w;
  rt_temps : temps 2000 array16_ty array16 tk;
  rt_values : length values = 1000%nat;
  rt_main : T !! 0%nat = Some ctx;
  rt_length : length ctxs = 4%nat;
  rt_contexts l x : ctxs !! l = Some x → T !! S l = Some x;
}.

Lemma barrier_setup_wp w0 fuel :
  unborn w0 → dropped w0 = [] → barrier_bytes_fit → (0 < fuel)%nat →
  wpio [] (barrier_setup fuel) (λ out r w1, out = [] ∧ ∃ ctx values root ctxs T tk c,
    r = (ctx, values, root, ctxs) ∧ racing_start ctx root values ctxs T tk c w1) w0.
Proof.
  intros Hu Hd Hfit Hf. unfold barrier_bytes_fit in Hfit.
  assert (1048576 ≤ usize_max) by (vm_compute; discriminate).
  pose proof (layout_size_usize I32_ty). pose proof (layout_size_usize Cell_ty).
  pose proof (layout_size_usize array16_ty). unfold is_usize in *.
  apply wpio_lift, (hosting_new w0 GcOptions.DEFAULT 0 fuel); [done|done|apply DEFAULT_wf|done|].
  intros ctx w Hw. pose proof (ho_rest _ _ _ _ _ _ Hw) as Hr.
  assert (length (seqZ 0 1000) = 1000%nat) as Hl by done.
  apply wpio_lift, (alloc_ptrs_wp _ _ _ _ _ _ _ _ _ Hr); [done|done|rewrite Hl; cbn; lia|].
  clear Hr. intros values w1 Hlen Hr. rewrite app_nil_r in Hr. rewrite Hl in Hlen.
  pose proof (numbered_size 0 I32_ty i32 (seqZ 0 1000) values Hlen) as Hns. rewrite Hl in Hns.
  destruct values as [|a values]; [done|]. set (vs := a :: values) in *.
  assert ((a, mkObj I32_ty 0 (i32 0)) ∈ numbers vs) as Hin by by apply (numbered_lookup _ _ _ _ _ 0).
  remember (numbers vs) as nk eqn:Enk.
  apply wpio_lift. rewrite wp_bind. cbn [first_value wp vs]. rewrite wp_bind.
  apply (rest_cell_new Hr _ Ptr_ty); [done|done|]. clear Hr. intros c w2 _ Hr.
  rewrite insert_empty in Hr. apply (rest_allocate Hr); [done|done| |lia|].
  { apply (cell_wf_val _ _ _ _ _ (rs_keys _ _ _ _ Hr) Hin). done. }
  clear Hr. intros root w3 _ Hr. apply wpio_lift, (temporaries_wp _ _ _ _ _ _ _ _ _ Hr); [done|done|done| |].
  { rewrite ksize_cons. cbn [ob_ty]. lia. }
  clear Hr. intros tk w4 Hr Htk. apply (hosting_rest _ _ _ _ _ _ _ _ _ Hw) in Hr as Hw4. clear Hw Hr.
  apply wpio_lift, (hosting_arc_clone Hw4); [lia|]. clear Hw4. intros w5 Hw. apply wpio_then.
  apply (hosting_spawn GcOptions.DEFAULT {[c := ptr_to a]} (λ m, barrier_heap tk nk root c (Z.of_nat m + 1)) _ 0 4 (2 + 1) {[0%nat := ctx]} 0);
    [|exact Hw|done|by vm_compute| |].
  - intros m s T w6 Hm Hw6. rewrite wp_bind. eapply (rest_root (ho_rest _ _ _ _ _ _ Hw6) (length tk)).
    { by apply list_lookup_middle. }
    { lia. }
    intros w7 Hw7. apply (hosting_rest _ _ _ _ _ _ _ _ _ Hw6) in Hw7.
    unfold barrier_heap in Hw7. rewrite <- (Nat.add_0_r (length tk)), insert_app_r in Hw7.
    cbn [insert list_insert] in Hw7. unfold barrier_heap.
    by replace (Z.of_nat (S m) + 1) with (Z.of_nat m + 1 + 1) by lia.
  - intros id _. by rewrite lookup_singleton_ne.
  - intros ctxs T w6 Hw6 Hsub Hc Hctxs. apply wpio_done. split; [done|].
    exists ctx, vs, root, ctxs, T, tk, c. split; [done|]. split; try done.
    + by rewrite <- Enk.
    + eapply lookup_weaken; [apply lookup_singleton_eq|exact Hsub].
Qed.

(** *** The forced collection *)

Section collection.
Variables (root c a : loc) (k : list (loc * obj)) (cs : gmap loc val).
Hypothesis Hkeys : NoDup k.*1.
Hypothesis Hroot : (root, mkObj Cell_ty 1 (VGcCell c)) ∈ k.
Hypothesis Hlast : (a, mkObj I32_ty 0 (i32 999)) ∈ k.
Hypothesis Hother : ∀ x ob, (x, ob) ∈ k → x ≠ root → ob_roots ob = 0.
Hypothesis Hcell : cs !! c = Some (ptr_to a).

(** The cell and the object it points to. *)
Definition pointed_at (ao : loc * obj) : bool := bool_decide (ao.1 = root ∨ ao.1 = a).

Lemma last_not_root : a ≠ root.
Proof. intros ->. by pose proof (NoDup_keys_eq k _ _ _ Hkeys Hroot Hlast). Qed.

Lemma pointed_reachable ao : ao ∈ k → pointed_at ao = true ↔ reachable (kgraph k cs) ao.1.
Proof.
  intros _. destruct ao as [x ob]. unfold pointed_at. cbn [fst]. rewrite bool_decide_eq_true.
  assert (∀ x ob, objs (kgraph k cs) !! x = Some ob ↔ (x, ob) ∈ k) as Hobj
    by (intros; cbn; by rewrite <- elem_of_list_to_map).
  assert (reachable (kgraph k cs) root) as Hr.
  { apply reachable_rooted. exists (mkObj Cell_ty 1 (VGcCell c)). by split; [apply Hobj|]. }
  split.
  - intros [->| ->]; [done|]. eapply reachable_edge; [exact Hr|].
    exists (mkObj Cell_ty 1 (VGcCell c)), I32_ty. split; [by apply Hobj|].
    apply (points_cell _ _ _ _ c (ptr_to a)); [by left|exact Hcell|by left].
  - apply (reachable_ind_closed _ (λ x, x = root ∨ x = a)).
    + intros y (o & Ho%Hobj & Hpos). destruct (decide (y = root)); [by left|].
      rewrite (Hother y o) in Hpos by done. lia.
    + intros y z Hy (o & t & Ho%Hobj & Hp). destruct Hy as [->| ->].
      * rewrite (NoDup_keys_eq k _ _ _ Hkeys Ho Hroot) in Hp.
        destruct Hp as [Hm|c' v' Hm Hc Hv]; apply list_elem_of_singleton in Hm; [done|]. simplify_eq.
        cbn in Hc. rewrite Hcell in Hc. injection Hc as <-. apply list_elem_of_singleton in Hv.
        simplify_eq. by right.
      * rewrite (NoDup_keys_eq k _ _ _ Hkeys Ho Hlast) in Hp.
        destruct Hp as [Hm|c' v' Hm _ _]; by apply elem_of_nil in Hm.
Qed.

Lemma pointed_lookup x ob :
  (x, ob) ∈ k → x = root ∨ x = a → ∃ l, List.filter pointed_at k !! l = Some (x, ob).
Proof. intros Hx Hor. apply list_elem_of_lookup, kept_elem. split; [done|]. by apply bool_decide_eq_true. Qed.

Lemma pointed_length : length (List.filter pointed_at k) = 2%nat.
Proof.
  pose proof last_not_root as Hne. change 2%nat with (length [root; a]). rewrite <- (length_fmap fst). apply Permutation_length, NoDup_Permutation.
  - by apply kept_keys.
  - apply NoDup_cons. split; [|apply NoDup_singleton]. by intros Hra%list_elem_of_singleton.
  - intros x. split.
    + intros (ao & -> & [_ Ha%bool_decide_eq_true]%kept_elem)%list_elem_of_fmap. set_solver.
    + intros Hx. apply list_elem_of_fmap. rewrite elem_of_cons, list_elem_of_singleton in Hx.
      destruct Hx as [->| ->]; [destruct (pointed_lookup root _ Hroot) as [l Hl]; [by left|]
        |destruct (pointed_lookup a _ Hlast) as [l Hl]; [by right|]];
        eexists; (split; [|by eapply list_elem_of_lookup_2]); done.
Qed.

End collection.

Lemma rest_owned w0 k cs w n : rest w0 k cs w → rest (owners w n) k cs (owners w n).
Proof. intros Hw. apply rest_idle; [apply owners_idle|..]; apply Hw. Qed.

(** From the collection on, on a heap that the test, its [Arc] and the background thread own. *)
Lemma barrier_read_wp fuel ctx root a c k cs w l l' :
  rest w k cs w → strong w = 3 → length k = 2%nat → a ≠ root →
  k !! l = Some (root, mkObj Cell_ty 1 (VGcCell c)) → k !! l' = Some (a, mkObj I32_ty 0 (i32 999)) →
  cs !! c = Some (ptr_to a) →
  wpio [] (last ← (d ← GcRoot.deref root; c ← cell d; v ← GcCell.get c; p ← pointer v; GcPtr.root p)%gc;
           v ← GcRoot.deref last;
           ! assert (number v =? 999);
           GcRoot.drop last;;
           Heap.arc_drop fuel;;
           GcRoot.drop root;;
           GcContext.drop fuel 0 ctx;;
           done tt)%io (λ out _ w', out = [] ∧ ended 2 w') w.
Proof.
  intros Hw Hs Hlen Hne Hl Hl' Hc. assert (3 ≤ usize_max) by (vm_compute; discriminate).
  assert (l' < length k)%nat by by eapply lookup_lt_Some.
  assert (l ≠ l') as Hll by (intros ->; rewrite Hl in Hl'; by simplify_eq).
  apply wpio_lift. rewrite wp_bind. apply (rest_deref Hw _ _ _ _ Hl). rewrite wp_bind. cbn [cell wp ob_data].
  rewrite wp_bind. apply (rest_cell_get Hw _ _ _ Hc). rewrite wp_bind. cbn [pointer ptr_to wp].
  apply (rest_root Hw _ _ _ _ _ _ Hl'); [lia|]. intros w1 Hw1.
  apply wpio_lift. eapply (rest_deref Hw1 l'); [by apply list_lookup_insert_eq|]. apply wpio_assert; [done|].
  apply wpio_lift. eapply (rest_drop Hw1 l'); [by apply list_lookup_insert_eq|done|]. intros w2 Hw2.
  rewrite list_insert_insert_eq in Hw2. destruct (rs_frame _ _ _ _ Hw2) as (_ & _ & _ & Hs2 & _).
  rewrite Hs in Hs2. apply wpio_lift, wp_run. eexists _, _. split; [apply arc_drop_shared; by rewrite Hs2|].
  apply (rest_owned _ _ _ _ (strong w2 - 1)) in Hw2. rewrite Hs2 in Hw2 |- *.
  apply wpio_lift. eapply (rest_drop Hw2 l); [by rewrite list_lookup_insert_ne|done|]. intros w3 Hw3.
  apply wpio_lift. eapply (rest_end _ _ _ _ _ _ _ _ Hw3); [done|]. intros w4 Hend.
  apply wpio_done. split; [done|]. by rewrite !length_insert, Hlen in Hend.
Qed.

Lemma barrier_finish_wp fuel ctx values root c a ctxs T k cs w :
  hosting GcOptions.DEFAULT 7 T k cs w → length ctxs = 4%nat →
  (∀ l x, ctxs !! l = Some x → T !! S l = Some x) →
  prepared values root c 1 w → cells w !! c = Some (ptr_to a) → values !! 999%nat = Some a →
  ksize k ≤ 1048576 → (2 * 3002 ≤ fuel)%nat →
  wpio [] (barrier_finish fuel ctx root ctxs) (λ out _ w', out = [] ∧ ended 2 w') w.
Proof.
  intros Hw Hlen Hctxs Hp Hc Ha Hk Hf. pose proof (ho_rest _ _ _ _ _ _ Hw) as Hr0.
  assert (7 ≤ usize_max) by (vm_compute; discriminate).
  assert (∀ a ob, objs (abs w) !! a = Some ob ↔ (a, ob) ∈ k) as Hobj.
  { intros x ob. rewrite (rs_abs _ _ _ _ Hr0). cbn [kgraph objs].
    by rewrite <- elem_of_list_to_map by apply Hr0. }
  pose proof (rs_keys _ _ _ _ Hr0) as Hkeys. destruct Hp as [Hroot Hval Hother _ Hsize].
  rewrite (rest_count_size Hr0) in Hsize. rewrite (rest_cells Hr0) in Hc.
  apply Hobj in Hroot. apply Hval, Hobj in Ha. change (Z.of_nat 999) with 999 in Ha.
  assert (∀ x ob, (x, ob) ∈ k → x ≠ root → ob_roots ob = 0) as Ho by (intros x ob Hx; by apply Hother, Hobj).
  clear Hobj Hother Hval Hr0. apply wpio_then. rewrite <- Hlen.
  apply (hosting_join _ _ (λ _, []) GcOptions.DEFAULT 7 T k cs 0); [|exact Hw|rewrite Hlen; lia|exact Hctxs|].
  { intros id log w1 Q HQ. rewrite app_nil_r in HQ. by apply wpio_done. }
  intros w1 T1 Hw1 _. rewrite Hlen in Hw1 |- *. cbn [seq fmap list_fmap concat app].
  change (7 - Z.of_nat 4) with 3 in Hw1. pose proof (ho_rest _ _ _ _ _ _ Hw1) as Hr.
  apply wpio_lift, (rest_force_collect Hr (pointed_at root a));
    [by apply (pointed_reachable root c a k cs)|by rewrite (ho_options _ _ _ _ _ _ Hw1)| |lia|].
  { apply pacing_DEFAULT; rewrite ?(ho_options _ _ _ _ _ _ Hw1), ?(ho_threshold _ _ _ _ _ _ Hw1), ?(rest_bytes Hr);
      [done|done|by vm_compute]. }
  intros w2 Hr2 [_ _ _ (_ & _ & _ & Hs2) _]. rewrite (ho_strong _ _ _ _ _ _ Hw1) in Hs2.
  destruct (pointed_lookup root a k _ _ Hroot) as [l Hl]; [by left|].
  destruct (pointed_lookup root a k _ _ Ha) as [l' Hl']; [by right|].
  eapply barrier_read_wp; [exact Hr2|done|by eapply pointed_length|by eapply last_not_root|done..].
Qed.

(** C38: the test [write_barrier_concurrent_mutation] passes in every interleaving of
    its threads with each other and with the rounds of the background thread: no thread
    gets stuck, all return, and whichever thread stores last, the cell then holds the
    last pointer of the list.  The forced collection keeps the cell and the object that
    it points to, and frees everything else. *)
Theorem write_barrier_test_passes w0 fuel rounds :
  unborn w0 → dropped w0 = [] → barrier_bytes_fit → (2 * 3002 ≤ fuel)%nat →
  ∃ ctx values root ctxs w1,
    run (main (barrier_setup fuel)) w0 = Done ([], (ctx, values, root, ctxs)) w1 ∧
    ∀ tp w2, rtc pool_step (cs_prog <$> barrier_threads fuel rounds values root, w1) (tp, w2) →
      calm_safe w1 (barrier_threads fuel rounds values root) tp w2 ∧
      (Forall (λ p, p = Ret tt) tp →
       ∃ w3, run (main (barrier_finish fuel ctx root ctxs)) w2 = Done ([], tt) w3 ∧ ended 2 w3).
Proof.
  intros Hu Hd Hfit Hf.
  destruct (wpio_run _ _ _ (barrier_setup_wp w0 fuel Hu Hd Hfit ltac:(lia)))
    as (out & r & w1 & Hrun & -> & ctx & values & root & ctxs & T & tk & c & -> & [Hw Htk Hlen Hctx Hcl Hctxs]).
  exists ctx, values, root, ctxs, w1. split; [exact Hrun|].
  pose proof (ho_rest _ _ _ _ _ _ Hw) as Hr. pose proof (barrier_heap_prepared _ _ _ _ _ _ Hlen Htk Hr) as Hp.
  pose proof (rest_total Hr) as Htot. rewrite (barrier_heap_size _ _ _ _ _ Hlen Htk) in Htot.
  unfold barrier_bytes_fit in Hfit. assert (total_size (mem w1) ≤ 1048576) as Hsmall by lia.
  pose proof (ho_options _ _ _ _ _ _ Hw) as Hopt. pose proof (ho_threshold _ _ _ _ _ _ Hw) as Hthr.
  assert (calm_fit w1 fuel (barrier_threads fuel rounds values root)) as Hcf.
  { apply (barrier_fit fuel rounds values root c); [done| |done|lia|done|done].
    intros c' v Hc'. rewrite (rest_cells Hr) in Hc'. apply lookup_singleton_Some in Hc' as [_ <-]. by eexists. }
  assert (∀ tp w2, rtc pool_step (cs_prog <$> barrier_threads fuel rounds values root, w1) (tp, w2) →
    calm_safe w1 (barrier_threads fuel rounds values root) tp w2) as Hsafe.
  { intros tp w2. apply (calm_pool_safe w1 fuel); [by eapply hosting_idle|done]. }
  intros tp w2 Hsteps. split; [by apply Hsafe|]. intros Hall.
  assert (is_Some (values !! 999%nat)) as [a Ha] by (apply lookup_lt_is_Some; rewrite Hlen; lia).
  destruct (race_leaves fuel rounds values root c w1 tp w2) as [Hp2 Htot2]; try done.
  pose proof (race_won fuel rounds values root c w1 tp w2 a) as Hcell.
  pose proof (hosting_after _ _ _ _ _ _ _ _ _ Hw (Hsafe _ _ Hsteps) Hall) as Hw2.
  assert (wpio [] (barrier_finish fuel ctx root ctxs) (λ out _ w', out = [] ∧ ended 2 w') w2) as Hend.
  { eapply barrier_finish_wp; try done; [by apply Hcell|].
    rewrite <- (rest_total (ho_rest _ _ _ _ _ _ Hw2)). lia. }
  by apply wpio_output in Hend.
Qed.

End passes.
