(* ===== verification/MultiThreadedSweep.v ===== *)
(** * The multi-threaded example during a sweep

    Between its two barriers a worker of [MultiThreaded] keeps every node it allocates.
    It is a client of [SweepClients]: the nodes may be linked behind the shared root
    while another thread sweeps.  The monitor is not, since it walks the allocation
    list and starts collections; nor is a worker after the second barrier, which drops
    nodes that the shared root leads to. *)

From stdpp Require Import relations.
From S2P Require Import Console.
From S2P Require Import Prelude Prog Color TraceImpls GcBox Options BgThread World.
From S2P Require Import Graph Tracing State HeapOps Mutator Marking Sweeping Collection.
From S2P Require Import Client Clients Demo Interface Session Incremental MarkProtocol MutatorSteps.
From S2P Require Import Mutators Discipline ConcurrentCycle MultiThreaded.
From S2P Require Import SweepSteps SweepClients ConcurrentSweep SweepCycle.
Open Scope Z_scope.

Section multi_threaded_sweep.
Variables (layout : ty → Z) (mall : gset loc → loc) (checks : bool).
#[local] Instance nodes_env_sweep : Env := clients layout mall checks.
Context {CT : CellTypes}.

Abbreviation Node := (TUser cell_node).

Hypothesis next_cells : cell_type (next_ty cell_node).
Hypothesis layout_usize : ∀ t, is_usize (layout t).
Hypothesis mall_fresh : ∀ used, mall used ∉ used.

Lemma sweep_println {B} fuel k fmt args (p : unit → io B) log Q :
  sweep_client fuel k (p tt (log ++ [(fmt, args)])%list) Q →
  sweep_client fuel k (then_io (println fmt args) p log) Q.
Proof. done. Qed.

Lemma sweep_step {A B} fuel k (p : gc A) (f : A → io B) log P Q :
  sweep_client fuel k p P → (∀ a k', P a k' → sweep_client fuel k' (f a log) Q) →
  sweep_client fuel k (then_io (lift p) f log) Q.
Proof.
  intros Hp Hf. apply (sweep_bind _ _ _ _ _ _ (λ r k', r.1 = log ∧ P r.2 k')).
  - eapply sweep_bind; [exact Hp|]. intros a k' Ha. by apply sweep_ret.
  - intros [l a] k' [E Ha]. cbn in *. subst. by apply Hf.
Qed.

(** More is known, and nothing else has changed. *)
Record more_known (k k' : sknow) : Prop := {
  mk_roots : sk_roots k' = sk_roots k;
  mk_pins : sk_pins k' = sk_pins k;
  mk_bytes : sk_bytes k' = sk_bytes k;
  mk_incs : sk_incs k' = sk_incs k;
  mk_known : sk_known k ⊆ sk_known k';
}.

#[local] Instance more_known_preorder : PreOrder more_known.
Proof.
  split; [by split|]. intros ? ? ? [] []. split; [congruence..|by etransitivity].
Qed.

(** A worker that holds the shared root and [nodes], and may still allocate [n] nodes;
    its own nodes may be stored. *)
Record linking (root : loc) (nodes : list loc) (n : nat) (k : sknow) : Prop := {
  lk_roots : sk_roots k ≡ₚ (Node, root) :: (pair Node <$> nodes);
  lk_incs : sk_incs k = n;
  lk_bytes : sk_bytes k = Z.of_nat n * layout Node;
}.

Lemma more_linking root nodes n k k' : more_known k k' → linking root nodes n k → linking root nodes n k'.
Proof. intros [E1 _ E2 E3 _] []. by split; rewrite ?E1, ?E2, ?E3. Qed.

Lemma sweep_next_get fuel k a :
  (Node, a) ∈ sk_roots k →
  sweep_client fuel k (next_get a)
    (λ v k', more_known k k' ∧ (∃ t, cell_type t ∧ is_copy t = true ∧ has_type v t = true) ∧
       ∀ r, r ∈ owned v → r ∈ sk_known k').
Proof.
  destruct k as [hs ps b n K]. intros Ha. eapply sweep_bind; [by apply sweep_deref|].
  intros v k' [(id & value & c & ->)%node_fields ->].
  cbn [node_next]. rewrite bind_Ret_l. eapply sweep_mono; [apply sweep_cell_get; by left|].
  intros v k' [Hv ->]. split; [split; try done; cbn; set_solver|]. split; [done|]. cbn. set_solver.
Qed.

Lemma sweep_next_set fuel th k a v t :
  (Node, a) ∈ sk_roots k → cell_type t → is_copy t = true → has_type v t = true →
  (∀ r, r ∈ owned v → r ∈ sk_known k) →
  sweep_client fuel k (next_set layout mall checks th a v) (λ _ k', more_known k k').
Proof.
  destruct k as [hs ps b n K]. intros Ha Hct Hc Hv Hown. eapply sweep_bind; [by apply sweep_deref|].
  intros v0 k' [(id & value & c & ->)%node_fields ->]. cbn [node_next]. rewrite bind_Ret_l.
  eapply sweep_mono; [apply (sweep_cell_set _ _ _ _ _ _ th c t); [by left|done..|cbn; set_solver]|].
  intros _ k' ->. split; try done. cbn. set_solver.
Qed.

Lemma sweep_link fuel th k thread_id root node log :
  (Node, root) ∈ sk_roots k → (Node, node) ∈ sk_roots k → RMark Node node ∈ sk_known k →
  sweep_client fuel k (link_to_root layout mall checks th thread_id root node log)
    (λ _ k', more_known k k').
Proof.
  intros Hr Hn HK. eapply sweep_step; [by apply sweep_next_get|].
  intros v k1 ([E1 E0 E2 E3 HK1] & (t & Hct & Hc & Hv) & Hown).
  eapply sweep_step; [apply (sweep_next_set _ _ _ _ _ (next_ty cell_node)); [by rewrite E1|done..|]|].
  { cbn. intros r ->%list_elem_of_singleton. by apply HK1. }
  intros ? k2 [F1 F0 F2 F3 HK2].
  eapply sweep_step; [apply (sweep_next_set _ _ _ _ _ t); [by rewrite F1, E1|done..|]|].
  { intros r ?. by apply HK2, Hown. }
  intros ? k3 H3. destruct k3 as [hs ps b n K]. destruct H3 as [G1 G0 G2 G3 HK3]. cbn in *.
  eapply sweep_step; [apply (sweep_deref _ _ _ _ _ _ Node); congruence|].
  intros v1 ? [Hv1 ->].
  eapply sweep_step; [apply (sweep_deref _ _ _ _ _ _ Node); congruence|].
  intros v2 ? [Hv2 ->]. apply sweep_ret. split; cbn; [congruence..|set_solver].
Qed.

Lemma sweep_link_loop fuel th thread_id root range nodes log k :
  linking root nodes (length range) k →
  sweep_client fuel k (link_loop layout mall checks fuel th thread_id root range nodes log)
    (λ r k', linking root r.2 0 k').
Proof.
  revert nodes log k. induction range as [|i range IH]; intros nodes log k Hk.
  { by apply sweep_ret. }
  destruct k as [hs ps b n K], Hk as [Hhs Hn Hb]. cbn in Hhs, Hn, Hb. subst n b.
  eapply sweep_step; [apply (sweep_cell_new _ _ _ _ _ _ (next_ty cell_node));
    [done..|by intros r ?%elem_of_nil]|].
  intros c ? ->. pose proof (layout_usize Node) as Hl. unfold is_usize in Hl.
  eapply sweep_step; [apply (sweep_allocate _ _ _ _ _ _ _ _ true); [done| |cbn; lia]|].
  { cbn. set_solver. }
  intros a ? ->. cbn [length]. set (k1 := mkSknow _ _ _ _ _).
  assert (linking root (nodes ++ [a]) (length range) k1) as Hk1.
  { split; [|done|cbn; lia]. cbn. rewrite Hhs, fmap_app. cbn.
    rewrite (Permutation_app_comm _ [(Node, a)]). apply Permutation_swap. }
  apply (sweep_bind _ _ _ _ _ _ (λ _ k', linking root (nodes ++ [a]) (length range) k')).
  - destruct (_ =? 0); [|by apply sweep_ret].
    eapply sweep_mono; [apply sweep_link; unfold k1; cbn; rewrite ?Hhs; set_solver|].
    intros r k' Hm. exact (more_linking _ _ _ _ _ Hm Hk1).
  - intros [log' []] k' Hk'. by apply IH.
Qed.

(** A worker up to the second barrier. *)
Definition phase1 (fuel th : nat) (iterations thread_id : Z) (root : loc) : gc unit :=
  (main (worker_links layout mall checks fuel th iterations thread_id root);; Ret tt)%gc.

Lemma sweep_phase1 fuel th iterations thread_id root k :
  linking root [] (Z.to_nat iterations) k →
  sweep_client fuel k (phase1 fuel th iterations thread_id root) (λ _ _, True).
Proof.
  intros Hk. apply (sweep_bind _ _ _ _ _ _ (λ _ _, True)); [|by intros; apply sweep_ret].
  apply sweep_println. eapply sweep_bind; [apply sweep_link_loop; by rewrite length_seqZ|].
  intros [log nodes] k1 _. by apply sweep_println, sweep_println, sweep_ret.
Qed.

End multi_threaded_sweep.

(** ** The whole program *)

Section pool.
Variables (layout : ty → Z) (mall : gset loc → loc) (checks : bool).
#[local] Instance nodes_env_pool : Env := clients layout mall checks.
Hypothesis layout_usize : ∀ t, is_usize (layout t).
Hypothesis mall_fresh : ∀ used, mall used ∉ used.

Abbreviation Node := (TUser cell_node).

Variables (fuel n iterations : nat) (root : loc).

(** The main thread, which waits, and the workers. *)
Definition waiting_start : sstart :=
  mkSstart (mkSknow [(Node, root)] [] 0 0 []) (Ret tt).

Definition linking_start (id : nat) : sstart :=
  mkSstart (mkSknow [(Node, root)] [] (Z.of_nat iterations * layout Node) iterations [])
    (phase1 layout mall checks fuel (S id) (Z.of_nat iterations) (Z.of_nat id) root).

Definition linking_threads : list sstart := waiting_start :: (linking_start <$> seq 0 n).

Lemma linking_elem c :
  c ∈ linking_threads → c = waiting_start ∨ ∃ id, c = linking_start id.
Proof.
  unfold linking_threads. rewrite elem_of_cons, list_elem_of_fmap. intros [?|(id & -> & _)]; eauto.
Qed.

Lemma linking_sum (f : sstart → Z) v :
  (∀ id, f (linking_start id) = v) → msum f linking_threads = f waiting_start + Z.of_nat n * v.
Proof.
  intros Hv. unfold linking_threads. cbn [msum].
  rewrite (msum_const f (linking_start <$> _) v); [by rewrite length_fmap, length_seq|].
  by intros ? (id & -> & _)%list_elem_of_fmap.
Qed.

(** The heap when the sweep begins: only the shared node is rooted, once for the main
    thread and once for each worker; and the workers have not allocated yet. *)
Record before_linking (w : world) : Prop := {
  bl_root : ∃ d, objs (abs w) !! root = Some (mkObj Node (Z.of_nat n + 1) d);
  bl_other a o : objs (abs w) !! a = Some o → a ≠ root → ob_roots o = 0;
  bl_roots : Z.of_nat n + 1 + Z.of_nat n * Z.of_nat iterations ≤ usize_max;
  bl_bytes : total_size (mem w) + Z.of_nat n * (Z.of_nat iterations * layout Node) ≤ usize_max;
  bl_fuel : (size (mem w) + 2 * (n * iterations) ≤ fuel)%nat;
  bl_pacing : paced (options (heap w))
    (total_size (mem w) + Z.of_nat n * (Z.of_nat iterations * layout Node))
    (current_threshold (heap w));
}.

Lemma linking_fit w : before_linking w → sweep_fit w fuel linking_threads.
Proof.
  intros [(d & Hroot) Hother Hr Hb Hf Hp].
  assert (sweep_bytes w linking_threads =
    total_size (mem w) + Z.of_nat n * (Z.of_nat iterations * layout Node)) as Hbytes.
  { unfold sweep_bytes. by rewrite (linking_sum _ (Z.of_nat iterations * layout Node)) by done. }
  pose proof (layout_usize Node) as Hl. unfold is_usize in Hl. split.
  - intros a. unfold roots_of. rewrite (msum_sstart _ (λ c, handle_count (sk_roots (ss_know c)).*2 a)) by done.
    rewrite (linking_sum _ (handle_count [root] a)) by done. cbn [ss_know sk_roots waiting_start fmap list_fmap].
    assert (handle_count [root] a = if decide (root = a) then 1 else 0) as Hc by by rewrite handle_count_cons.
    cbn [snd]. rewrite Hc. case_decide as Hra.
    + rewrite <- Hra, Hroot. cbn. lia.
    + destruct (objs (abs w) !! a) as [ob|] eqn:Ho; [|lia]. rewrite (Hother a ob); [lia|done|congruence].
  - rewrite (linking_sum _ (1 + Z.of_nat iterations)) by done. cbn. lia.
  - by rewrite Hbytes.
  - unfold sweep_turns. rewrite (linking_sum _ (Z.of_nat iterations)) by done. cbn. lia.
  - by rewrite Hbytes.
  - assert (valid w Node root) as Hv.
    { cbn in Hroot. rewrite lookup_fmap in Hroot. apply fmap_Some in Hroot as (b & Hb' & [= -> _ _]).
      by exists b. }
    intros c [->|[id ->]]%linking_elem; (split; cbn; [lia|by intros a ?%elem_of_nil| |by intros r ?%elem_of_nil]);
      by intros t a [= -> ->]%list_elem_of_singleton.
  - intros c [->|[id ->]]%linking_elem; [by apply sweep_ret|].
    cbn [ss_know ss_prog linking_start]. apply (sweep_phase1 layout mall checks); [exact I|done..|]. rewrite Nat2Z.id. by split.
Qed.

End pool.
