(* ===== verification/MultiThreadedMain.v ===== *)
(** * The multi-threaded example from beginning to end

    [main] of [src/examples/multi_threaded.rs] with the default options: it shares its
    heap with the workers of [MultiThreaded], the monitor and the background thread,
    waits for them, and walks the list behind the shared root.  No collection is ever
    due, so all threads are clients of [CalmClients], from their first statement to
    their last. *)

From stdpp Require Import relations.
From S2P Require Import Console.
From S2P Require Import Prelude Prog Color TraceImpls GcBox Options BgThread World.
From S2P Require Import Graph Tracing State HeapOps Mutator Marking Sweeping Collection.
From S2P Require Import Client Background Lifecycle Ownership Scripts ScriptRules Clients Demo.
From S2P Require Import Interface Session.
From S2P Require Import Incremental MarkProtocol MutatorSteps Mutators Discipline ConcurrentCycle.
From S2P Require Import MultiThreaded SweepSteps SweepClients SweepCycle MultiThreadedSweep.
From S2P Require Import CalmClients CalmPool SharedHeap.
Open Scope Z_scope.

Section multi_threaded_main.
Variables (layout : ty → Z) (mall : gset loc → loc) (checks : bool).
#[local] Instance nodes_env_main : Env := clients layout mall checks.
#[local] Instance node_cells : CellTypes := λ t, t = next_ty cell_node.

Abbreviation Node := (TUser cell_node).

(** ** The program *)

Definition node_number (v : val) : gc Z :=
  match node_id v with VPrim Usize id => Ret id | _ => throw IllTyped end.

(** The loop that counts the reachable nodes; [visited] holds their numbers. *)
Fixpoint traverse (fuel : nat) (current : val) (visited : gset Z) (reachable : Z) : gc Z :=
  match current with
  | VNone => Ret reachable
  | VSome (VGcPtr _ node_ptr) =>
      match fuel with
      | O => out_of_fuel
      | S fuel =>
          (node ← GcPtr.root node_ptr;
           v ← GcRoot.deref node;
           id ← node_number v;
           if bool_decide (id ∈ visited) then GcRoot.drop node;; Ret reachable
           else
             reachable ← checked (i32_op checks (reachable + 1));
             current ← next_get node;
             GcRoot.drop node;;
             traverse fuel current ({[id]} ∪ visited) reachable)%gc
      end
  | _ => throw IllTyped
  end.

Open Scope io_scope.

(** [main] up to the first barrier, with the contexts of the threads. *)
Definition setup (fuel n : nat) : io (loc * loc * list loc) :=
  ! println "=== Multi-threaded GC Example ===" [];
  ctx ← GcContext.new fuel 0;
  ! println "Created shared GC heap" [];
  Heap.arc_clone;;
  next ← GcCell.new VNone;
  root ← GcContext.allocate fuel Node (CellNode 0 0 next);
  ! println "Created root node (id=0)" [];
  ctxs ⇐ spawn (GcRoot.clone root;; Ret tt)%gc (seq 0 n);
  Heap.arc_clone;;
  done (ctx, root, ctxs).

(** [main] between the first barrier and the joins. *)
Definition main_waits : io unit :=
  ! println "All threads started!" [];
  println "All threads in phase 2!" [].

(** The closure of a worker, which drops its clone of the root at its end. *)
Definition worker_closure (fuel th : nat) (iterations thread_id : Z) (root : loc) : io unit :=
  ! worker layout mall checks fuel th iterations thread_id root;
  GcRoot.drop root;;
  done tt.

Definition final_statistics (fuel : nat) : io unit :=
  ! println "=== Final Statistics ===" [];
  count ← Heap.allocation_count fuel;
  ! println "Allocations: {}" [Num count];
  bytes ← Heap.get_bytes_allocated;
  ! println "Bytes allocated: {}" [Num bytes];
  ! println "Performing final collection..." [];
  Heap.collect fuel;;
  ! println "After collection:" [];
  count ← Heap.allocation_count fuel;
  ! println "  Allocations: {}" [Num count];
  bytes ← Heap.get_bytes_allocated;
  println "  Bytes allocated: {}" [Num bytes].

Definition joined (id : nat) : io unit := println "Thread {} joined" [Num (Z.of_nat id)].

(** [main] from the joins on. *)
Definition main_end (fuel n : nat) (ctx root : loc) (ctxs : list loc) : io unit :=
  ! join_all fuel joined (seq 0 n) ctxs;
  Heap.arc_drop fuel;;
  ! println "Monitor thread joined" [];
  ! final_statistics fuel;
  current ← next_get root;
  reachable ← traverse fuel current ∅ 0;
  ! println "Reachable nodes from root: {}" [Num reachable];
  ! println "=== Example Complete ===" [];
  GcRoot.drop root;;
  Heap.arc_drop fuel;;
  GcContext.drop fuel 0 ctx;;
  done tt.

(** ** The threads between the collections *)

Hypothesis layout_usize : ∀ t, is_usize (layout t).
Hypothesis mall_fresh : ∀ used, mall used ∉ used.

Abbreviation client quiet fuel k p Q := (calm_client quiet fuel k p Q).

Lemma calm_println {B} quiet fuel k fmt args (p : unit → io B) log Q :
  client quiet fuel k (p tt (log ++ [(fmt, args)])%list) Q →
  client quiet fuel k (then_io (println fmt args) p log) Q.
Proof. done. Qed.

Lemma calm_step {A B} quiet fuel k (p : gc A) (f : A → io B) log P Q :
  client quiet fuel k p P → (∀ a k', P a k' → client quiet fuel k' (f a log) Q) →
  client quiet fuel k (then_io (lift p) f log) Q.
Proof.
  intros Hp Hf. apply (calm_bind _ _ _ _ _ _ _ (λ r k', r.1 = log ∧ P r.2 k')).
  - eapply calm_bind; [exact Hp|]. intros a k' Ha. by apply calm_ret.
  - intros [l a] k' [E Ha]. cbn in *. subst. by apply Hf.
Qed.

(** A worker between two steps. *)
Definition busy_with (root : loc) (nodes : list loc) (n : nat) (k : sknow) : Prop :=
  linking layout root nodes n k ∧ sk_pins k = [].

Lemma calm_link_loop quiet fuel th thread_id root range nodes log k :
  busy_with root nodes (length range) k →
  client quiet fuel k (link_loop layout mall checks fuel th thread_id root range nodes log)
    (λ r k', busy_with root r.2 0 k').
Proof.
  revert nodes log k. induction range as [|i range IH]; intros nodes log k Hk.
  { by apply calm_ret. }
  destruct k as [hs ps b n K], Hk as [[Hhs Hn Hb] Hps]. cbn in Hhs, Hn, Hb, Hps. subst n b ps.
  eapply calm_step; [apply calm_op, (sweep_cell_new _ _ _ _ _ _ (next_ty cell_node));
    [done..|by intros r ?%elem_of_nil]|].
  intros c ? ->. pose proof (layout_usize Node) as Hl. unfold is_usize in Hl.
  eapply calm_step; [apply calm_op, (sweep_allocate _ _ _ _ _ _ _ _ false); [done| |cbn; lia]|].
  { cbn. set_solver. }
  intros a ? ->. apply (calm_learn _ _ _ _ _ _ Node a); [by left|].
  set (k1 := learn _ _).
  assert (busy_with root (nodes ++ [a]) (length range) k1) as Hk1.
  { split; [|done]. split; [|done|cbn [k1 learn sk_bytes length]; cbn; lia]. cbn. rewrite Hhs, fmap_app. cbn.
    rewrite (Permutation_app_comm _ [(Node, a)]). apply Permutation_swap. }
  apply (calm_bind _ _ _ _ _ _ _ (λ _ k', busy_with root (nodes ++ [a]) (length range) k')).
  - destruct (_ =? 0); [|by apply calm_ret].
    eapply calm_mono; [apply calm_op, sweep_link; [done..| | |]; unfold k1; cbn; rewrite ?Hhs; set_solver|].
    intros r k' Hm. split; [exact (more_linking _ _ _ _ _ _ Hm (proj1 Hk1))|].
    rewrite (mk_pins _ _ Hm). apply Hk1.
  - intros [log' []] k' Hk'. by apply IH.
Qed.

Lemma calm_drop_roots quiet fuel root nodes k :
  busy_with root nodes 0 k → client quiet fuel k (drop_roots nodes) (λ _ k', busy_with root [] 0 k').
Proof.
  revert k. induction nodes as [|a nodes IH]; intros k Hk; [by apply calm_ret|].
  destruct k as [hs ps b n K], Hk as [[Hhs Hn Hb] Hps]. cbn in Hhs, Hn, Hb, Hps. subst ps.
  eapply calm_bind.
  { apply calm_op, (sweep_drop _ _ ((Node, root) :: (pair Node <$> nodes)) _ _ _ _ Node a).
    - rewrite Hhs. apply Permutation_swap.
    - by intros ?%elem_of_nil. }
  intros [] ? ->. apply IH. by split.
Qed.

(** What a thread has at its end. *)
Definition holds (roots : list (ty * loc)) (k : sknow) : Prop := sk_roots k = roots ∧ sk_bytes k = 0.

Lemma calm_worker quiet fuel th iterations thread_id root k :
  busy_with root [] (Z.to_nat iterations) k →
  client quiet fuel k (thread (worker_closure fuel th iterations thread_id root)) (λ _, holds []).
Proof.
  intros Hk. apply (calm_bind _ _ _ _ _ _ _ (λ _, holds [])); [|by intros; apply calm_ret].
  apply (calm_bind _ _ _ _ _ _ _ (λ _, busy_with root [] 0)).
  - eapply (calm_bind _ _ _ _ _ _ _ (λ r k', busy_with root r.2 0 k')).
    { apply calm_println. eapply calm_bind; [apply calm_link_loop; by rewrite length_seqZ|].
      intros [log nodes] k1 Hk1. by apply calm_println, calm_println, calm_ret. }
    intros [log nodes] k1 Hk1. eapply calm_step; [apply calm_drop_roots, Hk1|]. intros [] k2 Hk2.
    eapply calm_step; [apply calm_op, (sweep_next_set layout mall checks (CT := node_cells) eq_refl layout_usize mall_fresh _ _ _ _ _ (next_ty cell_node));
      [rewrite (lk_roots _ _ _ _ _ (proj1 Hk2)); by left|done..|by intros r ?%elem_of_nil]|].
    intros [] k3 Hm. apply calm_ret. split; [exact (more_linking _ _ _ _ _ _ Hm (proj1 Hk2))|].
    rewrite (mk_pins _ _ Hm). apply Hk2.
  - intros [log []] k4 Hk4. destruct k4 as [hs ps b n K], Hk4 as [[Hhs Hn Hb] Hps].
    cbn in Hhs, Hn, Hb, Hps. subst ps. eapply calm_step.
    { apply calm_op, (sweep_drop _ _ [] _ _ _ _ Node root); [exact Hhs|by intros ?%elem_of_nil]. }
    intros [] ? ->. apply calm_ret. by split.
Qed.

Lemma calm_monitor_rounds (quiet : Prop) fuel k rounds log :
  quiet → client quiet fuel k (monitor_rounds layout mall checks fuel rounds log) (λ _ k', k' = k).
Proof.
  intros Hq. revert log. induction rounds as [|round rounds IH]; intros log; [by apply calm_ret|].
  eapply calm_step; [apply calm_op, sweep_read|]. intros bytes ? ->.
  eapply calm_step; [apply calm_count|]. intros count ? ->. apply calm_println.
  apply (calm_bind _ _ _ _ _ _ _ (λ _ k', k' = k)); [|intros [log' []] ? ->; apply IH].
  destruct (_ <? _); [|by apply calm_ret]. apply calm_println.
  eapply calm_step; [by apply calm_collect|]. intros ? ? ->.
  eapply calm_step; [apply calm_op, sweep_read|]. intros bytes' ? ->.
  eapply calm_step; [apply calm_count|]. intros count' ? ->. by apply calm_ret.
Qed.

Lemma calm_monitor (quiet : Prop) fuel k :
  quiet → client quiet fuel k (thread (monitor layout mall checks fuel)) (λ _ k', k' = k).
Proof.
  intros Hq. apply (calm_bind _ _ _ _ _ _ _ (λ _ k', k' = k)); [|by intros ? ? ->; apply calm_ret].
  apply calm_println. eapply calm_bind; [by apply calm_monitor_rounds|].
  intros [log []] ? ->. by apply calm_println, calm_monitor_rounds.
Qed.

(** ** The pool *)

Section pool.
Variables (fuel n iterations rounds : nat) (root : loc).

Definition worker_cstart (id : nat) : cstart :=
  mkCstart (mkSknow [(Node, root)] [] (Z.of_nat iterations * layout Node) iterations [])
    (thread (worker_closure fuel (S id) (Z.of_nat iterations) (Z.of_nat id) root)) (holds []).

Definition main_cstart : cstart :=
  mkCstart (mkSknow [(Node, root)] [] 0 0 []) (thread main_waits) (holds [(Node, root)]).
Definition monitor_cstart : cstart :=
  mkCstart (mkSknow [] [] 0 0 []) (thread (monitor layout mall checks fuel)) (holds []).

(** The background thread waits [rounds] times while the example runs. *)
Definition background_cstart : cstart :=
  mkCstart (mkSknow [] [] 0 0 [])
    (Heap.background_gc_thread fuel (replicate rounds true ++ [false]) 1 Tracer.new) (holds []).

Definition shipped_threads : list cstart :=
  main_cstart :: monitor_cstart :: background_cstart :: (worker_cstart <$> seq 0 n).

Lemma shipped_elem c :
  c ∈ shipped_threads →
  c = main_cstart ∨ c = monitor_cstart ∨ c = background_cstart ∨ ∃ id, c = worker_cstart id.
Proof.
  unfold shipped_threads. rewrite !elem_of_cons, list_elem_of_fmap. intros [?|[?|[?|(id & -> & _)]]]; eauto.
Qed.

Lemma shipped_sum (f : cstart → Z) v :
  (∀ id, f (worker_cstart id) = v) →
  msum f shipped_threads =
    f main_cstart + f monitor_cstart + f background_cstart + Z.of_nat n * v.
Proof.
  intros Hv. unfold shipped_threads. cbn [msum].
  rewrite (msum_const f (worker_cstart <$> _) v); [rewrite length_fmap, length_seq; lia|].
  by intros ? (id & -> & _)%list_elem_of_fmap.
Qed.

(** The whole run fits into the default threshold, and into the machine's integers. *)
Record small : Prop := {
  sm_bytes : (1 + Z.of_nat (n * iterations)) * layout Node ≤ 1048576;
  sm_count : 1 + 2 * Z.of_nat (n * iterations) ≤ 2147483647;
  sm_owners : Z.of_nat n + 4 ≤ 2147483647;
  sm_fuel : (2 + 2 * (n * iterations) ≤ fuel)%nat;
}.

Variables (next : loc) (s : Z) (T : gmap nat loc) (w : world).
Abbreviation start := ([(root, mkObj Node (Z.of_nat n + 1) (CellNode 0 0 next))]).
Hypothesis Hsmall : small.
Hypothesis Hw : hosting GcOptions.DEFAULT s T start {[next := VNone]} w.

Lemma shipped_root : objs (abs w) = {[root := mkObj Node (Z.of_nat n + 1) (CellNode 0 0 next)]}.
Proof. rewrite (rs_abs _ _ _ _ (ho_rest _ _ _ _ _ _ Hw)). cbn. by rewrite insert_empty. Qed.

Lemma shipped_bytes :
  calm_bytes w shipped_threads = (1 + Z.of_nat (n * iterations)) * layout Node.
Proof.
  unfold calm_bytes. rewrite (shipped_sum _ (Z.of_nat iterations * layout Node)) by done.
  rewrite (rest_total (ho_rest _ _ _ _ _ _ Hw)). cbn. lia.
Qed.

Lemma shipped_turns : calm_turns w shipped_threads = 1 + 2 * Z.of_nat (n * iterations).
Proof.
  unfold calm_turns. rewrite (shipped_sum _ (Z.of_nat iterations)) by done.
  rewrite (rest_count_size (ho_rest _ _ _ _ _ _ Hw)). cbn. lia.
Qed.

Lemma shipped_quiet : calm_quiet w shipped_threads.
Proof.
  unfold calm_quiet, not_due. rewrite shipped_bytes, (ho_options _ _ _ _ _ _ Hw), (ho_threshold _ _ _ _ _ _ Hw).
  split; [apply Hsmall|by left].
Qed.

Lemma shipped_fit : calm_fit w fuel shipped_threads.
Proof.
  pose proof shipped_quiet as Hq. destruct Hsmall as [Hby Hco Hown Hf].
  pose proof (layout_usize Node) as Hl. unfold is_usize in Hl.
  assert (4294967295 ≤ usize_max) as Hu by (vm_compute; discriminate).
  assert (valid w Node root) as Hv.
  { pose proof shipped_root as Hr. cbn in Hr.
    assert (objs (abs w) !! root = Some (mkObj Node (Z.of_nat n + 1) (CellNode 0 0 next))) as Ho
      by (cbn; by rewrite Hr, lookup_singleton_eq).
    cbn in Ho. rewrite lookup_fmap in Ho. apply fmap_Some in Ho as (b & ? & [= -> _ _]). by exists b. }
  split.
  - intros c v Hc. rewrite (rest_cells (ho_rest _ _ _ _ _ _ Hw)) in Hc.
    apply lookup_singleton_Some in Hc as [<- <-]. by exists (next_ty cell_node).
  - intros a. unfold roots_of. rewrite (msum_cstart _ (λ c, handle_count (sk_roots (cs_know c)).*2 a)) by done.
    rewrite (shipped_sum _ (handle_count [root] a)) by done. cbn [cs_know sk_roots fmap list_fmap snd main_cstart monitor_cstart background_cstart].
    rewrite shipped_root. rewrite handle_count_cons. change (handle_count [] a) with 0.
    case_decide as Hra; [subst a; rewrite lookup_singleton_eq; cbn; lia|].
    rewrite lookup_singleton_ne by done. lia.
  - rewrite (shipped_sum _ (1 + Z.of_nat iterations)) by done. cbn. lia.
  - rewrite shipped_bytes. lia.
  - rewrite shipped_turns. lia.
  - intros c [->|[->|[->|[id ->]]]]%shipped_elem;
      (split; cbn; [lia|done| |by intros r ?%elem_of_nil]); intros t a; [|by intros ?%elem_of_nil..|];
      by intros [= -> ->]%list_elem_of_singleton.
  - intros c [->|[->|[->|[id ->]]]]%shipped_elem; cbn [cs_know cs_prog cs_post].
    + by apply calm_ret.
    + eapply calm_mono; [by apply calm_monitor|]. by intros ? ? ->.
    + eapply calm_mono; [by apply calm_background|]. by intros ? ? ->.
    + apply calm_worker. rewrite Nat2Z.id. by split.
Qed.

End pool.

End multi_threaded_main.
