(* ===== verification/MultiThreadedRun.v ===== *)
(** * A run of the multi-threaded example

    The sequential parts of [MultiThreadedMain]: [main] sets the heap up, and at the
    end prints the statistics, walks the list behind the shared root and leaves.  With
    the concurrent part in the middle this is the whole run of the example. *)

From stdpp Require Import relations.
From S2P Require Import Console.
From S2P Require Import Prelude Prog Color TraceImpls GcBox Options BgThread World.
From S2P Require Import Graph Tracing State HeapOps Mutator Marking Sweeping Collection.
From S2P Require Import Client Background Lifecycle Ownership Scripts ScriptRules Clients Demo.
From S2P Require Import Interface Session.
From S2P Require Import Incremental MarkProtocol MutatorSteps Mutators Discipline ConcurrentCycle.
From S2P Require Import MultiThreaded SweepSteps SweepClients SweepCycle MultiThreadedSweep.
From S2P Require Import CalmClients CalmPool SharedHeap MultiThreadedMain.
Open Scope Z_scope.

Section run.
Variables (layout : ty → Z) (mall : gset loc → loc) (checks : bool).
#[local] Instance nodes_env_run : Env := clients layout mall checks.

Abbreviation Node := (TUser cell_node).

Hypothesis layout_usize : ∀ t, is_usize (layout t).
Hypothesis mall_fresh : ∀ used, mall used ∉ used.

#[local] Instance run_contract : TraceContract.
Proof using layout_usize mall_fresh. by apply clients_contract. Qed.

(** ** The beginning *)

Definition setup_output : list line :=
  [("=== Multi-threaded GC Example ===", []); ("Created shared GC heap", []);
   ("Created root node (id=0)", [])].

Lemma fresh_node_wf_val k cs id value next :
  cs !! next = Some VNone → wf_val (kgraph k cs) (CellNode id value next).
Proof.
  intros Hn. split.
  - intros t a [Hin|c v Hin Hc Hv]; apply list_elem_of_singleton in Hin; simplify_eq.
    cbn in Hc. simplify_eq. by apply elem_of_nil in Hv.
  - intros c Hin. apply list_elem_of_singleton in Hin. simplify_eq. by eexists.
Qed.

Lemma setup_wp w0 fuel n (Q : list line → loc * loc * list loc → world → Prop) :
  unborn w0 → dropped w0 = [] → (0 < fuel)%nat → Z.of_nat n + 4 ≤ 2147483647 →
  (∀ ctx root next ctxs T w1,
     hosting GcOptions.DEFAULT (Z.of_nat n + 4) T
       [(root, mkObj Node (Z.of_nat n + 1) (CellNode 0 0 next))] {[next := VNone]} w1 →
     T !! 0%nat = Some ctx → length ctxs = n →
     (∀ l c, ctxs !! l = Some c → T !! S l = Some c) →
     Q setup_output (ctx, root, ctxs) w1) →
  wpio [] (setup layout mall checks fuel n) Q w0.
Proof.
  intros Hu Hd Hf Hn HQ. assert (2147483647 ≤ usize_max) by (vm_compute; discriminate).
  pose proof (layout_usize Node) as Hl. unfold is_usize in Hl.
  apply wpio_println, wpio_lift.
  apply (hosting_new w0 GcOptions.DEFAULT 0 fuel); [done|done|apply DEFAULT_wf|done|].
  intros ctx w Hw. apply wpio_println, wpio_lift, (hosting_arc_clone Hw); [lia|]. clear Hw. intros w1 Hw.
  apply wpio_lift, (rest_cell_new (ho_rest _ _ _ _ _ _ Hw) VNone (next_ty cell_node)); [done..|].
  intros next w2 _ Hw2. apply (hosting_rest _ _ _ _ _ _ _ _ _ Hw) in Hw2. clear Hw.
  apply wpio_lift, (rest_allocate (ho_rest _ _ _ _ _ _ Hw2));
    [done|done|apply fresh_node_wf_val; by rewrite lookup_insert_eq|cbn; lia|].
  intros root w3 _ Hw3. apply (hosting_rest _ _ _ _ _ _ _ _ _ Hw2) in Hw3. clear Hw2.
  rewrite insert_empty in Hw3. apply wpio_println, wpio_then.
  eapply (hosting_spawn _ _ (λ j, [(root, mkObj Node (Z.of_nat j + 1) (CellNode 0 0 next))]) _ 0 n _ _ 0);
    [|exact Hw3|lia|lia| |].
  - intros m s T w4 Hm Hw4. rewrite wp_bind.
    apply (rest_root (ho_rest _ _ _ _ _ _ Hw4) 0 root Node (Z.of_nat m + 1) (CellNode 0 0 next)); [done|lia|].
    intros w5 Hw5. apply (hosting_rest _ _ _ _ _ _ _ _ _ Hw4) in Hw5. cbn.
    by replace (Z.of_nat (S m) + 1) with (Z.of_nat m + 1 + 1) by lia.
  - intros id _. by rewrite lookup_singleton_ne.
  - intros ctxs T w4 Hw4 Hsub Hlen Hctx. apply wpio_lift, (hosting_arc_clone Hw4); [lia|].
    intros w5 Hw5. apply wpio_done. apply (HQ ctx root next ctxs T w5); [| |done|exact Hctx].
    + by replace (Z.of_nat n + 4) with (2 + 1 + Z.of_nat n + 1) by lia; rewrite Nat.add_0_r in Hw5.
    + eapply lookup_weaken; [|exact Hsub]. by apply lookup_singleton_eq.
Qed.

(** ** The walk *)

Section walk.
Variable G : graph.

(** The node at [a] has the number [id] and leads to [v]. *)
Definition node_at (a : loc) (id : Z) (v : val) : Prop :=
  ∃ n value c, objs G !! a = Some (mkObj Node n (VUser cell_node [VPrim Usize id; VPrim I32 value; VGcCell c])) ∧
    gcells G !! c = Some v.

(** From the pointer [v] over the nodes with the numbers [l] to [v']. *)
Fixpoint walk (v : val) (l : list Z) (v' : val) : Prop :=
  match l with
  | [] => v = v'
  | id :: l => ∃ a nx, v = VSome (VGcPtr Node a) ∧ node_at a id nx ∧ walk nx l v'
  end.

(** The list ends, or comes back to a number of [seen]. *)
Definition stops (v : val) (seen : gset Z) : Prop :=
  v = VNone ∨ ∃ a id nx, v = VSome (VGcPtr Node a) ∧ node_at a id nx ∧ id ∈ seen.

(** The numbers of the nodes. *)
Definition number_of (ob : obj) : option Z :=
  match ob_data ob with VUser _ (VPrim _ id :: _) => Some id | _ => None end.
Definition numbers : gset Z := list_to_set (omap (λ ao, number_of ao.2) (map_to_list (objs G))).

Lemma node_number_in a id v : node_at a id v → id ∈ numbers.
Proof.
  intros (n & value & c & Ho & _). apply elem_of_list_to_set, list_elem_of_omap.
  eexists (a, _). by split; [apply elem_of_map_to_list|].
Qed.

Lemma numbers_size : (size numbers ≤ size (objs G))%nat.
Proof.
  unfold numbers. rewrite <- length_map_to_list.
  induction (map_to_list (objs G)) as [|ao l IH]; [done|]. cbn.
  destruct (number_of ao.2) as [id|]; [|cbn; lia]. cbn. rewrite size_union_alt, size_singleton.
  match goal with |- context [size (?X ∖ ?Y)] => assert (size (X ∖ Y) ≤ size X)%nat end; [|lia].
  apply subseteq_size. set_solver.
Qed.

End walk.

Section traverse.
Variable w : world.
Hypothesis Hidle : idle w.
Hypothesis Hcells : ∀ c v, cells w !! c = Some v → has_type v (next_ty cell_node) = true.

(** A root that is taken and dropped again. *)
Lemma reroot_undone a b :
  mem w !! a = Some b → is_usize (root_count (header b)) →
  rerooted (rerooted w a (λ n, usize_fetch_add n 1)) a (λ n, usize_fetch_sub n 1) = w.
Proof.
  intros Hb Hu. transitivity (set_mem w (mem w)); [|by destruct w].
  change (rerooted (rerooted w a (λ n, usize_fetch_add n 1)) a (λ n, usize_fetch_sub n 1)) with
    (set_mem w (mem (rerooted (rerooted w a (λ n, usize_fetch_add n 1)) a (λ n, usize_fetch_sub n 1)))).
  f_equal. cbn. rewrite alter_alter_eq. apply alter_id.
  intros b' Hb'. rewrite Hb in Hb'. injection Hb' as <-. destruct b as [[] d]. cbn in *.
  by rewrite usize_add_sub.
Qed.

(** A value of the cell [next], with a node behind it. *)
Definition good_next (v : val) : Prop :=
  has_type v (next_ty cell_node) = true ∧
  ∀ t a, RMark t a ∈ owned v → ∃ ob, objs (abs w) !! a = Some ob ∧ ob_ty ob = t.

Lemma next_value v : has_type v (next_ty cell_node) = true → v = VNone ∨ ∃ a, v = VSome (VGcPtr Node a).
Proof.
  intros Hv. destruct v; try discriminate; first [by left|right]. cbn in Hv.
  destruct v; try discriminate. cbn in Hv. apply bool_decide_eq_true in Hv as ->. by eexists.
Qed.

Lemma node_behind a ob :
  objs (abs w) !! a = Some ob → ob_ty ob = Node →
  ∃ n id value c nx, ob = mkObj Node n (VUser cell_node [VPrim Usize id; VPrim I32 value; VGcCell c]) ∧
    cells w !! c = Some nx ∧ good_next nx.
Proof.
  intros Ho Hty. pose proof (ww_graph _ (idle_wf _ Hidle)) as HG.
  pose proof (wf_obj_type _ HG _ _ Ho) as Hd. pose proof (wf_obj_val _ HG _ _ Ho) as Hv.
  destruct ob as [t n d]. cbn in Hty, Hd, Hv. subst t.
  destruct (node_fields layout mall checks _ Hd) as (id & value & c & ->).
  destruct (wf_val_cells _ _ Hv c ltac:(by left)) as [nx Hnx]. exists n, id, value, c, nx.
  split; [done|]. split; [done|]. split; [by eapply Hcells|]. intros t y Hin.
  apply (wf_val_points _ _ Hv t y). eapply points_cell; [by left|exact Hnx|done].
Qed.

(** The steps of one iteration. *)
Lemma visit_node a n id value c nx :
  objs (abs w) !! a = Some (mkObj Node n (VUser cell_node [VPrim Usize id; VPrim I32 value; VGcCell c])) →
  cells w !! c = Some nx →
  let w1 := rerooted w a (λ n, usize_fetch_add n 1) in
  run (GcPtr.root a) w = Done a w1 ∧
  run (GcRoot.deref a) w1 = Done (VUser cell_node [VPrim Usize id; VPrim I32 value; VGcCell c]) w1 ∧
  run (next_get a) w1 = Done nx w1 ∧ run (GcRoot.drop a) w1 = Done tt w.
Proof.
  intros Ho Hc w1. pose proof (wf_obj_roots _ (ww_graph _ (idle_wf _ Hidle)) _ _ Ho) as Hu.
  cbn in Ho. rewrite lookup_fmap in Ho. apply fmap_Some in Ho as (b & Hb & Eb).
  assert (root_count (header b) = n ∧
    data b = VUser cell_node [VPrim Usize id; VPrim I32 value; VGcCell c]) as [En Ed]
    by (injection Eb as _ -> ->; done).
  assert (∃ b1, mem w1 !! a = Some b1 ∧ data b1 = data b) as (b1 & Hb1 & Ed1).
  { cbn. rewrite lookup_alter_eq, Hb. by eexists. }
  assert (run (GcRoot.deref a) w1 = Done (data b) w1) as Hderef.
  { unfold GcRoot.deref, box_get. cbn -[w1]. by rewrite Hb1, Ed1. }
  split_and!.
  - unfold GcPtr.root. by rewrite run_bind, inc_root_run by by eexists.
  - by rewrite Hderef, Ed.
  - unfold next_get. rewrite run_bind, Hderef, Ed. cbn [node_next]. rewrite bind_Ret_l.
    unfold GcCell.get, cell_get. cbn -[w1]. change (cells w1) with (cells w). by rewrite Hc.
  - unfold GcRoot.drop. rewrite dec_root_run by by eexists.
    f_equal. apply (reroot_undone a b); [done|]. rewrite En. exact Hu.
Qed.

Lemma traverse_run fuel v visited n :
  good_next v → visited ⊆ numbers (abs w) → n = Z.of_nat (size visited) →
  (size (numbers (abs w)) < fuel + size visited)%nat →
  Z.of_nat (size (numbers (abs w))) ≤ 2147483647 →
  ∃ l v', run (traverse checks fuel v visited n) w = Done (n + Z.of_nat (length l)) w ∧
    walk (abs w) v l v' ∧ NoDup l ∧ (∀ id, id ∈ l → id ∉ visited) ∧
    stops (abs w) v' (visited ∪ list_to_set l).
Proof.
  intros Hv Hvis Hn Hf Hmax. revert v visited n Hv Hvis Hn Hf.
  induction fuel as [|fuel IH]; intros v visited n [Hty Hpt] Hvis Hn Hf.
  { pose proof (subseteq_size _ _ Hvis). lia. }
  destruct (next_value v Hty) as [->|[a ->]].
  { exists [], VNone. rewrite Z.add_0_r. split; [done|]. split; [done|]. split; [constructor|].
    split; [by intros id ?%elem_of_nil|by left]. }
  destruct (Hpt Node a) as (ob & Ho & Hob); [by left|].
  destruct (node_behind a ob Ho Hob) as (m & id & value & c & nx & -> & Hc & Hnx).
  destruct (visit_node a m id value c nx Ho Hc) as (R1 & R2 & R3 & R4).
  assert (node_at (abs w) a id nx) as Hat by by exists m, value, c.
  pose proof (node_number_in _ _ _ _ Hat) as Hin.
  cbn [traverse]. rewrite run_bind, R1, run_bind, R2. cbn [node_number node_id]. rewrite run_bind. cbn [run].
  case_bool_decide as Hseen.
  - exists [], (VSome (VGcPtr Node a)). rewrite run_bind, R4, Z.add_0_r. split; [done|]. split; [done|].
    split; [constructor|]. split; [by intros i ?%elem_of_nil|]. right. exists a, id, nx.
    split; [done|]. split; [done|]. set_solver.
  - assert (size ({[id]} ∪ visited) = S (size visited)) as Hsz
      by (rewrite size_union, size_singleton by set_solver; done).
    assert ({[id]} ∪ visited ⊆ numbers (abs w)) as Hvis' by set_solver.
    pose proof (subseteq_size _ _ Hvis') as Hle. rewrite Hsz in Hle.
    rewrite i32_op_Some by (unfold is_i32; lia). rewrite run_bind. cbn [run checked].
    rewrite run_bind, R3, run_bind, R4.
    destruct (IH nx ({[id]} ∪ visited) (n + 1)) as (l & v' & Hrun & Hwalk & Hnd & Hfresh & Hst);
      [done|done|lia|lia|].
    exists (id :: l), v'. split; [rewrite Hrun; f_equal; cbn; lia|]. split; [by exists a, nx|].
    split; [constructor; [intros Hl; apply (Hfresh _ Hl); set_solver|done]|]. split.
    + intros i [->|Hi]%elem_of_cons; [done|]. intros Hi'. apply (Hfresh _ Hi). set_solver.
    + replace (visited ∪ list_to_set (id :: l)) with ({[id]} ∪ visited ∪ list_to_set l : gset Z) by set_solver.
      done.
Qed.

End traverse.

(** ** The end *)

(** The final collection is not due: both statistics are the same. *)
Definition statistics_output (count bytes : Z) : list line :=
  [("=== Final Statistics ===", []); ("Allocations: {}", [Num count]);
   ("Bytes allocated: {}", [Num bytes]); ("Performing final collection...", []);
   ("After collection:", []); ("  Allocations: {}", [Num count]);
   ("  Bytes allocated: {}", [Num bytes])].

Definition end_output (n : nat) (count bytes reachable : Z) : list line :=
  concat ((λ id, [("Thread {} joined", [Num (Z.of_nat id)])]) <$> seq 0 n) ++
  ("Monitor thread joined", []) :: statistics_output count bytes ++
  [("Reachable nodes from root: {}", [Num reachable]); ("=== Example Complete ===", [])].

Lemma final_statistics_wp fuel s T k cs w log (Q : list line → unit → world → Prop) :
  hosting GcOptions.DEFAULT s T k cs w → ksize k ≤ 1048576 → (length k ≤ fuel)%nat →
  Q (log ++ statistics_output (Z.of_nat (length k)) (ksize k)) tt w →
  wpio log (final_statistics layout mall checks fuel) Q w.
Proof.
  intros Hw Hk Hf HQ. pose proof (ho_rest _ _ _ _ _ _ Hw) as Hr.
  apply wpio_println, wpio_lift, (rest_count Hr); [done|]. apply wpio_println, wpio_lift, (rest_get_bytes Hr).
  apply wpio_println, wpio_println, wpio_lift, (rest_collect_below Hr);
    [by rewrite (ho_threshold _ _ _ _ _ _ Hw)|by rewrite (ho_options _ _ _ _ _ _ Hw)|].
  apply wpio_println, wpio_lift, (rest_count Hr); [done|]. apply wpio_println, wpio_lift, (rest_get_bytes Hr).
  unfold statistics_output in HQ. unfold wpio, println. cbn. by rewrite <- !app_assoc.
Qed.

Lemma hosting_abandoned o T k cs w : hosting o 1 T k cs w → abandoned (length k) w.
Proof. intros [Hr ? ? ? ? ? ? ? ?]. split; try done. by apply (rest_count_size Hr). Qed.

Lemma main_end_wp fuel n ctx root next ctxs T k cs w i m v log (Q : list line → unit → world → Prop) :
  hosting GcOptions.DEFAULT (Z.of_nat n + 4) T k cs w → Z.of_nat n + 4 ≤ 2147483647 →
  T !! 0%nat = Some ctx → length ctxs = n → (∀ l c, ctxs !! l = Some c → T !! S l = Some c) →
  k !! i = Some (root, mkObj Node m (CellNode 0 0 next)) → 0 < m → cs !! next = Some v →
  (∀ c v, cs !! c = Some v → has_type v (next_ty cell_node) = true) →
  ksize k ≤ 1048576 → (length k < fuel)%nat → Z.of_nat (length k) ≤ 2147483647 →
  (∀ l v' w', walk (kgraph k cs) v l v' → NoDup l → stops (kgraph k cs) v' (list_to_set l) →
     abandoned (length k) w' →
     Q (log ++ end_output n (Z.of_nat (length k)) (ksize k) (Z.of_nat (length l))) tt w') →
  wpio log (main_end layout mall checks fuel n ctx root ctxs) Q w.
Proof.
  intros Hw Hn Hctx <- Hctxs Hi Hm Hv Hty Hk Hf Hc HQ.
  assert (2147483647 ≤ usize_max) by (vm_compute; discriminate).
  apply wpio_then. eapply (hosting_join _ _ (λ id, [("Thread {} joined", [Num (Z.of_nat id)])]));
    [by intros ? ? ? ? ?|exact Hw|lia|exact Hctxs|].
  clear Hw w. intros w T' Hw HT'. replace (Z.of_nat (length ctxs) + 4 - _) with 4 in Hw by lia.
  apply wpio_lift, (hosting_arc_drop Hw); [lia|]. clear Hw w. intros w Hw.
  apply wpio_println, wpio_then. eapply final_statistics_wp; [exact Hw|done|lia|].
  pose proof (ho_rest _ _ _ _ _ _ Hw) as Hr. pose proof (rs_idle _ _ _ _ Hr) as Hidle.
  apply wpio_lift. unfold next_get. rewrite wp_bind. apply (rest_deref Hr i _ _ _ Hi).
  cbn [ob_data CellNode node_next]. rewrite bind_Ret_l. eapply (rest_cell_get Hr); [exact Hv|].
  assert (gcells (abs w) = cs ∧ objs (abs w) = list_to_map k) as [Ecs Eob]
    by (by rewrite (rs_abs _ _ _ _ Hr)).
  assert (∀ c v, cells w !! c = Some v → has_type v (next_ty cell_node) = true) as Hcells.
  { intros c v0 Hc0. apply (Hty c). by rewrite <- (rest_cells Hr). }
  pose proof (numbers_size (abs w)) as Hsz.
  assert (size (objs (abs w)) = length k) as Hlen.
  { rewrite <- (rest_count_size Hr). cbn. by rewrite map_size_fmap. }
  destruct (node_behind w Hidle Hcells root _ (rest_lookup Hr _ _ _ Hi) eq_refl)
    as (m' & id & value & c & nx & [= <- <- <- <-] & Hnx & Hgood).
  rewrite (rest_cells Hr), Hv in Hnx. injection Hnx as <-.
  destruct (traverse_run w Hidle Hcells fuel v ∅ 0 Hgood) as (l & v' & Hrun & Hwalk & Hnd & _ & Hst);
    [set_solver|by rewrite size_empty|rewrite size_empty; lia|lia|].
  apply wpio_lift, wp_run. eexists _, w. split; [exact Hrun|]. apply wpio_println, wpio_println.
  apply wpio_lift, (rest_drop Hr i _ _ _ _ _ Hi Hm). intros w1 Hr1.
  apply (hosting_rest _ _ _ _ _ _ _ _ _ Hw) in Hr1.
  apply wpio_lift, (hosting_arc_drop Hr1); [lia|]. intros w2 Hw2.
  apply wpio_lift, (hosting_leave Hw2); [by rewrite HT'|lia|]. intros w3 Hw3.
  apply wpio_done. apply hosting_abandoned in Hw3. rewrite length_insert in Hw3.
  rewrite union_empty_l_L, (rs_abs _ _ _ _ Hr) in Hst. rewrite (rs_abs _ _ _ _ Hr) in Hwalk.
  unfold end_output in HQ. specialize (HQ l v' w3 Hwalk Hnd Hst Hw3).
  rewrite <- !app_assoc. exact HQ.
Qed.

(** ** The whole run *)

#[local] Instance run_cells : CellTypes := node_cells.

(** What [main] prints and leaves behind when the threads have left [w]: as many bytes
    as all threads together have allocated, before and after the final collection; the
    nodes on the way from the shared root, up to the end of the list or the first
    number that comes twice; and a heap that only the background thread owns. *)
Definition finished (fuel n iterations : nat) (ctx root : loc) (ctxs : list loc) (w : world) : Prop :=
  ∃ v l v' w',
    run (main (main_end layout mall checks fuel n ctx root ctxs)) w =
      Done (end_output n (Z.of_nat (size (mem w))) ((1 + Z.of_nat (n * iterations)) * layout Node)
              (Z.of_nat (length l)), tt) w' ∧
    node_at (abs w) root 0 v ∧ walk (abs w) v l v' ∧ NoDup l ∧ stops (abs w) v' (list_to_set l) ∧
    abandoned (size (mem w)) w'.

Section after.
Variables (fuel n iterations rounds : nat) (ctx root next : loc) (ctxs : list loc).
Variables (T : gmap nat loc) (w : world).
Hypothesis Hsmall : small layout fuel n iterations.
Hypothesis Hw : hosting GcOptions.DEFAULT (Z.of_nat n + 4) T
  [(root, mkObj Node (Z.of_nat n + 1) (CellNode 0 0 next))] {[next := VNone]} w.
Hypothesis Hctx : T !! 0%nat = Some ctx.
Hypothesis Hlen : length ctxs = n.
Hypothesis Hctxs : ∀ l c, ctxs !! l = Some c → T !! S l = Some c.

Abbreviation threads := (shipped_threads layout mall checks fuel n iterations rounds root).
Variables (tp : list (gc unit)) (w2 : world).
Hypothesis Hsafe : calm_safe w threads tp w2.
Hypothesis Hall : Forall (λ p, p = Ret tt) tp.

Lemma threads_end :
  total_size (mem w2) = (1 + Z.of_nat (n * iterations)) * layout Node ∧
  Z.of_nat (size (mem w2)) ≤ 1 + 2 * Z.of_nat (n * iterations) ∧
  ∃ m, 0 < m ∧ objs (abs w2) !! root = Some (mkObj Node m (CellNode 0 0 next)).
Proof.
  destruct (cm_returned _ _ _ _ Hsafe Hall) as (_ & _ & _ & _ & ks & Hks & Hcount & Htotal & Hturns).
  erewrite shipped_turns in Hturns by exact Hw. erewrite shipped_bytes in Htotal by exact Hw.
  assert (msum sk_bytes ks = 0) as Hz.
  { eapply posts_sum; [exact Hks|]. intros c k Hc Hpost.
    apply shipped_elem in Hc as [->|[->|[->|[id ->]]]]; apply Hpost. }
  split; [lia|]. split; [done|].
  assert (objs (abs w) !! root = Some (mkObj Node (Z.of_nat n + 1) (CellNode 0 0 next))) as Ho
    by (erewrite shipped_root by exact Hw; by rewrite lookup_singleton_eq).
  cbn in Ho. rewrite lookup_fmap in Ho. apply fmap_Some in Ho as (b & Hb & Eb).
  destruct (cm_kept _ _ _ _ Hsafe _ _ Hb) as (b' & Hb' & Hvt & Hd).
  assert (objs (abs w2) !! root = Some (abs_box b')) as Ho2 by (cbn; by rewrite lookup_fmap, Hb').
  unfold threads in Hks. apply Forall2_cons_inv_l in Hks as (k0 & ks' & [Hr0 _] & _ & ->).
  pose proof (Hcount root) as Hc. rewrite Ho2 in Hc.
  assert (0 < roots_of root (know_state <$> k0 :: ks')) as Hpos.
  { assert ((know_state <$> k0 :: ks') !! 0%nat = Some (know_state k0)) as Hk0 by done.
    apply (thread_root Hk0). cbn. rewrite Hr0. by left. }
  change (root_count (header b') = roots_of root (know_state <$> k0 :: ks')) in Hc.
  exists (root_count (header b')). split; [by rewrite Hc|]. rewrite Ho2. f_equal.
  unfold abs_box, box_ty in *. injection Eb as Et _ Ed. by rewrite Hvt, Hd, <- Et, <- Ed.
Qed.

Lemma threads_finished : finished fuel n iterations ctx root ctxs w2.
Proof.
  destruct threads_end as (Htotal & Hcount & m & Hm & Hroot).
  destruct Hsmall as [Hby Hco Hown Hf].
  pose proof (hosting_after _ _ _ _ _ _ _ _ _ Hw Hsafe Hall) as Hw2.
  pose proof (ho_rest _ _ _ _ _ _ Hw2) as Hr.
  assert (cells w !! next = Some VNone) as Hnext
    by (rewrite (rest_cells (ho_rest _ _ _ _ _ _ Hw)); apply lookup_singleton_eq).
  destruct (cm_cell _ _ _ _ Hsafe next ltac:(by eexists)) as [v Hv].
  apply elem_of_map_to_list in Hroot as Hin. apply list_elem_of_lookup in Hin as [i Hi].
  assert (kgraph (map_to_list (objs (abs w2))) (cells w2) = abs w2) as Habs
    by (symmetry; apply (rs_abs _ _ _ _ Hr)).
  pose proof (rest_count_size Hr) as Hlen2. pose proof (rest_total Hr) as Hsize.
  assert (wpio [] (main_end layout mall checks fuel n ctx root ctxs)
    (λ out _ w', ∃ l v', out = end_output n (Z.of_nat (size (mem w2)))
         ((1 + Z.of_nat (n * iterations)) * layout Node) (Z.of_nat (length l)) ∧
       walk (abs w2) v l v' ∧ NoDup l ∧ stops (abs w2) v' (list_to_set l) ∧
       abandoned (size (mem w2)) w') w2) as Hend.
  { eapply (main_end_wp _ _ _ _ _ _ _ _ _ _ i m v); try done; [|lia|lia|lia|].
    - intros c v0 Hv0. destruct (cm_cells _ _ _ _ Hsafe c v0 Hv0) as (t & -> & _ & ?). done.
    - intros l v' w' Hwalk Hnd Hst Hab. exists l, v'. rewrite Habs in Hwalk, Hst.
      rewrite Hlen2, <- Htotal, Hsize. done. }
  apply wpio_run in Hend as (out & [] & w' & Hrun & l & v' & -> & Hwalk & Hnd & Hst & Hab).
  exists v, l, v', w'. split; [exact Hrun|]. split; [|done].
  by exists m, 0, next.
Qed.

End after.

(** C9: the multi-threaded example as shipped, with the default options: [main] sets
    the heap up; every interleaving of the workers, the monitor, the background thread
    and the waiting [main] is safe, comes to its end and keeps every object; and then
    [main] prints its statistics, walks the list behind the shared root in finitely
    many steps, counting each number once, and leaves the heap to the background
    thread.  No collection takes place, neither the ones that the monitor announces
    nor the final one: the bytes are those of all nodes that were ever allocated. *)
Theorem multi_threaded_runs w0 fuel n iterations rounds :
  unborn w0 → dropped w0 = [] → small layout fuel n iterations →
  ∃ ctx root ctxs w1,
    run (main (setup layout mall checks fuel n)) w0 = Done (setup_output, (ctx, root, ctxs)) w1 ∧
    ∀ tp w2,
      let threads := shipped_threads layout mall checks fuel n iterations rounds root in
      rtc pool_step (cs_prog <$> threads, w1) (tp, w2) →
      calm_safe w1 threads tp w2 ∧
      (Forall (λ p, p = Ret tt) tp → finished fuel n iterations ctx root ctxs w2).
Proof.
  intros Hu Hd Hsmall.
  assert (wpio [] (setup layout mall checks fuel n) (λ out r w1, out = setup_output ∧
    ∃ ctx root next ctxs T, r = (ctx, root, ctxs) ∧
      hosting GcOptions.DEFAULT (Z.of_nat n + 4) T
        [(root, mkObj Node (Z.of_nat n + 1) (CellNode 0 0 next))] {[next := VNone]} w1 ∧
      T !! 0%nat = Some ctx ∧ length ctxs = n ∧ (∀ l c, ctxs !! l = Some c → T !! S l = Some c)) w0)
    as Hset.
  { apply setup_wp; [done|done|destruct Hsmall; lia|apply Hsmall|].
    intros ctx root next ctxs T w1 Hw ? ? ?. split; [done|]. by exists ctx, root, next, ctxs, T. }
  apply wpio_run in Hset as (out & r & w1 & Hrun & -> & ctx & root & next & ctxs & T & -> & Hw & Hctx & Hlen & Hctxs).
  exists ctx, root, ctxs, w1. split; [exact Hrun|]. intros tp w2 threads Hsteps.
  assert (calm_safe w1 threads tp w2) as Hsafe.
  { apply (calm_pool_safe w1 fuel threads tp w2); [by eapply hosting_idle| |exact Hsteps].
    by eapply shipped_fit. }
  split; [exact Hsafe|]. intros Hall. by eapply threads_finished.
Qed.

End run.
