(* ===== verification/ConcurrentExamples.v ===== *)
(** * Concurrent programs at a concrete input

    The multi-threaded example with two workers, the monitor and a marking thread,
    in a heap that has just been scanned, and a schedule that runs all of them.  The
    theorems on concurrent cycles apply to it. *)

From stdpp Require Import relations.
From S2P Require Import Console.
From S2P Require Import Prelude Prog Color TraceImpls GcBox Options BgThread World.
From S2P Require Import Graph Tracing State HeapOps Mutator Marking Sweeping Collection.
From S2P Require Import Client Background Lifecycle Clients Interface Session HeapClient.
From S2P Require Import Incremental MutatorSteps Mutators Discipline ConcurrentCycle MultiThreaded.
From S2P Require Import SweepSteps SweepClients ConcurrentSweep SweepCycle MultiThreadedSweep.
From S2P Require Import CalmClients CalmPool SharedHeap ConcurrentTest MultiThreadedMain MultiThreadedRun.
From S2P Require Import IntegrationTests BarrierTest.
Open Scope Z_scope.

Definition size48 (t : ty) : Z := 48.

Lemma size48_usize t : is_usize (size48 t).
Proof. split; vm_compute; discriminate. Qed.

#[local] Instance nodes48 : Env := clients size48 fresh true.
#[local] Instance nodes48_contract : TraceContract.
Proof. apply clients_contract; [apply size48_usize|apply is_fresh]. Qed.

Abbreviation Node := (TUser cell_node).

(** ** The heap *)

Definition o_conc : GcOptions := mkOptions (Duration_from_millis 100) 100 5 30 30 2 usize_max.

Definition unborn0 : world := mkWorld (Heap.heap_init o_conc) ∅ ∅ ∅ ∅ ∅ [] 1.

(** The contexts of the main thread and of the two workers. *)
Definition entered3 : world := entered (entered (entered unborn0 0 0) 1 1) 2 2.

(** The shared node, with a root for the main thread and for each worker. *)
Definition shared_next : loc := fresh (∅ : gset loc).
Definition with_cell : world := celled entered3 shared_next VNone.
Definition shared_root : loc := fresh (dom (mem with_cell)).
Definition v_shared : val := CellNode 0 0 shared_next.
Definition with_node : world := allocated with_cell shared_root Node v_shared.
Definition cloned (w : world) : world := rerooted w shared_root (λ n, usize_fetch_add n 1).
Definition before : world := cloned (cloned with_node).

Lemma o_conc_wf : GcOptions.wf o_conc.
Proof. unfold GcOptions.wf, is_usize. split_and!; vm_compute; discriminate. Qed.

Lemma unborn0_idle : idle unborn0.
Proof. apply (heap_init_idle unborn0 o_conc); [by split|apply o_conc_wf|by left]. Qed.

Lemma entered3_idle : idle entered3.
Proof. repeat (apply entered_idle; [|done|by vm_compute]). apply unborn0_idle. Qed.

Lemma with_cell_idle : idle with_cell.
Proof. by apply (cell_new_refines entered3 VNone (next_ty cell_node) entered3_idle). Qed.

Lemma with_node_idle : idle with_node.
Proof.
  apply allocated_idle; [apply with_cell_idle|by vm_compute|done| |vm_compute; discriminate].
  split.
  - intros t a [Hin|c v Hin Hc Hv]; apply list_elem_of_singleton in Hin; simplify_eq.
    vm_compute in Hc. simplify_eq. by apply elem_of_nil in Hv.
  - intros c Hin. apply list_elem_of_singleton in Hin. simplify_eq. vm_compute. by eexists.
Qed.

Lemma before_idle : idle before.
Proof.
  apply (inc_root_refines _ shared_root (mkObj Node 2 v_shared)); [|by vm_compute|done].
  apply (inc_root_refines _ shared_root (mkObj Node 1 v_shared)); [|by vm_compute|done].
  apply with_node_idle.
Qed.

Lemma before_fuel : (enough_fuel before ≤ 4)%nat.
Proof. vm_compute. lia. Qed.

(** ** The mark phase *)

Definition begun : world :=
  match run (Heap.try_start_marking;; Heap.do_mark_roots 4 Tracer.new)%gc before with
  | Done _ w => w
  | _ => before
  end.

Lemma begun_run :
  run (Heap.try_start_marking;; Heap.do_mark_roots 4 Tracer.new)%gc before = Done [] begun.
Proof. by vm_compute. Qed.

Lemma begun_shared : shared size48 20 2 1 shared_root [3] begun.
Proof.
  split.
  - exists v_shared. by vm_compute.
  - intros a o Ho Hne. exfalso. apply Hne.
    assert (dom (objs (abs begun)) = {[shared_root]}) as Hd by by vm_compute.
    apply elem_of_dom_2 in Ho. rewrite Hd in Ho. by apply elem_of_singleton in Ho.
  - intros id Hid. assert (id = 0 ∨ id = 1)%nat as [->| ->] by lia;
      vm_compute; eexists; (split; [done|by eexists]).
  - vm_compute. discriminate.
  - vm_compute. discriminate.
  - vm_compute. lia.
  - vm_compute. lia.
  - intros b ->%list_elem_of_singleton. vm_compute. lia.
Qed.

Abbreviation program := (st_prog <$> example_threads size48 fresh true 20 2 1 shared_root [3]).

(** One action of each thread in turn. *)
Fixpoint in_turn (n i : nat) (tp : list (gc unit)) (w : world) : list nat :=
  match n with
  | O => []
  | S n =>
      let j := ((i + 1) mod length tp)%nat in
      match tp !! i with
      | Some (Act f k) =>
          match f w with
          | Done x w' => i :: in_turn n j (<[i := k x]> tp) w'
          | _ => []
          end
      | _ => in_turn n j tp w
      end
  end.

Definition schedule : list nat := in_turn 2000 0 program begun.

Definition marked : world :=
  match run_sched schedule program begun with Done _ w => w | _ => begun end.

Lemma schedule_run : run_sched schedule program begun = Done (replicate 5 (Ret tt)) marked.
Proof. by vm_compute. Qed.

Lemma begun_fit : fit begun 20 (example_threads size48 fresh true 20 2 1 shared_root [3]).
Proof.
  apply example_fit; [apply size48_usize|apply is_fresh| |apply begun_shared].
  vm_compute. eexists. split; [done|by eexists].
Qed.

Lemma schedule_steps : rtc pool_step (program, begun) (replicate 5 (Ret tt), marked).
Proof. apply (run_sched_steps schedule), schedule_run. Qed.

Lemma multi_threaded_witness : cycle_safe begun 20 (replicate 5 (Ret tt)) marked.
Proof.
  apply (multi_threaded_safe size48 fresh true size48_usize is_fresh
    before begun 4 20 2 1 shared_root [3]);
    [apply before_idle|apply before_fuel|apply begun_run| |apply begun_shared|apply schedule_steps].
  vm_compute. eexists. split; [done|by eexists].
Defined.

Lemma concurrent_cycle_witness : cycle_safe begun 20 (replicate 5 (Ret tt)) marked.
Proof.
  exact (concurrent_cycle_safe before begun 4 20 _ _ marked
    before_idle before_fuel begun_run begun_fit schedule_steps).
Defined.

Lemma concurrent_termination_witness :
  Acc (flip pool_step) (program, begun) ∧
  (Forall (λ p, p = Ret tt) program ∨ ∃ c', pool_step (program, begun) c').
Proof.
  exact (concurrent_cycle_terminates before begun 4 20 _ (program, begun)
    before_idle before_fuel begun_run begun_fit (rtc_refl _ _)).
Defined.

(** ** The sweep *)

(** The end of the mark phase, and the workers start. *)
Definition all_marked : world :=
  match run (Heap.do_mark_work_full 20 Tracer.new) marked with Done _ w => w | _ => marked end.

Lemma all_marked_run : run (Heap.do_mark_work_full 20 Tracer.new) marked = Done [] all_marked.
Proof. by vm_compute. Qed.

Lemma marked_fuel : (mark_fuel marked ≤ 20)%nat.
Proof. vm_compute. lia. Qed.

Lemma begun_budget : 0 < incremental_work_budget (options (heap before)).
Proof. by vm_compute. Qed.

Abbreviation linkers := (linking_threads size48 fresh true 20 2 2 shared_root).

Lemma all_marked_linking : before_linking size48 fresh true 20 2 2 shared_root all_marked.
Proof.
  split.
  - eexists. by vm_compute.
  - intros a o Ho Hne. assert (a = 0 ∨ a = 1 ∨ a = 2)%nat as Ha.
    { assert (dom (objs (abs all_marked)) = {[0%nat; 1%nat; 2%nat]}) as Hd by by vm_compute.
      apply elem_of_dom_2 in Ho. rewrite Hd, !elem_of_union, !elem_of_singleton in Ho. clear -Ho. tauto. }
    destruct Ha as [->|[->| ->]]; [by destruct Hne; vm_compute|clear Hne..];
      vm_compute in Ho; injection Ho as <-; reflexivity.
  - vm_compute. discriminate.
  - vm_compute. discriminate.
  - vm_compute. lia.
  - assert (options (heap all_marked) = o_conc ∧ current_threshold (heap all_marked) = 2 ∧
      total_size (mem all_marked) = 144) as (-> & -> & ->) by by vm_compute.
    intros live Hlive. change (0 ≤ live ≤ 336) in Hlive. rewrite Pacing.calculate_threshold_eq; [by eexists|apply o_conc_wf|..].
    + split; vm_compute; discriminate.
    + assert (336 ≤ usize_max) by (vm_compute; discriminate). unfold is_usize. clear -Hlive H. lia.
    + assert (100000 ≤ usize_max) by (vm_compute; discriminate). unfold Pacing.fits. cbn.
      assert (live * 30 / 100 ≤ 300) by (apply Z.div_le_upper_bound; lia). lia.
Qed.

Lemma all_marked_fit : sweep_fit all_marked 20 linkers.
Proof. exact (linking_fit size48 fresh true size48_usize is_fresh 20 2 2 shared_root all_marked all_marked_linking). Qed.

(** The sweep begins, and a schedule that runs all threads. *)
Abbreviation sweep_program := (sweep_threads 20 linkers).

Lemma sweep_first :
  run_sched [0%nat] (sweeping_thread 20 :: (ss_prog <$> linkers)) all_marked =
  Done sweep_program (sweeping all_marked).
Proof. reflexivity. Qed.

Definition sweep_schedule : list nat := in_turn 2000 1 sweep_program (sweeping all_marked).

Definition swept_state : world :=
  match run_sched sweep_schedule sweep_program (sweeping all_marked) with
  | Done _ w => w
  | _ => all_marked
  end.

Lemma sweep_run :
  run_sched sweep_schedule sweep_program (sweeping all_marked) =
  Done (replicate 4 (Ret tt)) swept_state.
Proof. by vm_compute. Qed.

Lemma sweep_steps :
  rtc pool_step (sweep_program, sweeping all_marked) (replicate 4 (Ret tt), swept_state).
Proof. apply (run_sched_steps sweep_schedule), sweep_run. Qed.

Lemma all_returned n : Forall (λ p, p = Ret tt) (replicate n (Ret tt : gc unit)).
Proof. by apply Forall_replicate. Qed.

Lemma concurrent_sweep_witness : sweep_safe all_marked (replicate 4 (Ret tt)) swept_state.
Proof.
  exact (concurrent_sweep_safe before begun 4 20 _ _ marked 20 [] all_marked 20 linkers _ _ _ _
    before_idle before_fuel begun_run begun_fit schedule_steps (all_returned 5) begun_budget
    marked_fuel all_marked_run all_marked_fit sweep_first sweep_steps).
Defined.

(** ** Between collections *)

(** Two threads that allocate a vector and drop it, on an empty heap. *)
Definition two_temps : list cstart :=
  replicate 2 (mkCstart (mkSknow [] [] 48 1 []) (temp_loop 5 1) (holds_all [])).

Lemma two_temps_fit : calm_fit unborn0 5 two_temps.
Proof.
  assert (∀ c, c ∈ two_temps → c = mkCstart (mkSknow [] [] 48 1 []) (temp_loop 5 1) (holds_all [])) as Hc
    by (intros c Hin; by apply elem_of_replicate in Hin as [-> _]).
  split.
  - done.
  - intros a. by vm_compute.
  - by vm_compute.
  - by vm_compute.
  - by vm_compute.
  - intros c ->%Hc. split; [done|done| |]; intros ? *; cbn; by intros ?%elem_of_nil.
  - intros c ->%Hc. exact (calm_temp_loop 5 _ 1).
Qed.

Definition temps_schedule : list nat := in_turn 2000 0 (cs_prog <$> two_temps) unborn0.

Definition temps_state : world :=
  match run_sched temps_schedule (cs_prog <$> two_temps) unborn0 with Done _ w => w | _ => unborn0 end.

Lemma temps_run :
  run_sched temps_schedule (cs_prog <$> two_temps) unborn0 = Done (replicate 2 (Ret tt)) temps_state.
Proof. by vm_compute. Qed.

Lemma calm_threads_witness : calm_safe unborn0 two_temps (replicate 2 (Ret tt)) temps_state.
Proof.
  exact (calm_threads_safe unborn0 5 two_temps _ temps_state unborn0_idle two_temps_fit
    (run_sched_steps temps_schedule _ _ _ _ temps_run)).
Defined.

(** ** The multi-threaded example as shipped *)

Lemma unborn0_unborn : unborn unborn0.
Proof. by split. Qed.

Lemma small48 : small size48 20 2 1.
Proof. split; vm_compute; try discriminate. lia. Qed.

Lemma multi_threaded_runs_witness :
  ∃ ctx root ctxs w1,
    run (main (setup size48 fresh true 20 2)) unborn0 = Done (setup_output, (ctx, root, ctxs)) w1 ∧
    ∀ tp w2,
      let threads := shipped_threads size48 fresh true 20 2 1 3 root in
      rtc pool_step (cs_prog <$> threads, w1) (tp, w2) →
      calm_safe (CT := run_cells) w1 threads tp w2 ∧
      (Forall (λ p, p = Ret tt) tp → finished size48 fresh true 20 2 1 ctx root ctxs w2).
Proof.
  exact (multi_threaded_runs size48 fresh true size48_usize is_fresh unborn0 20 2 1 3
    unborn0_unborn eq_refl small48).
Defined.

(** A schedule that runs all threads, and what the example prints then. *)
Definition shipped_world : world :=
  match run (main (setup size48 fresh true 20 2)) unborn0 with Done _ w => w | _ => unborn0 end.
Definition shipped_program : list (gc unit) :=
  cs_prog <$> shipped_threads size48 fresh true 20 2 1 3 0.
Definition shipped_state : world :=
  match run_sched (in_turn 2000 0 shipped_program shipped_world) shipped_program shipped_world with
  | Done _ w => w
  | _ => unborn0
  end.

Lemma shipped_output :
  run_sched (in_turn 2000 0 shipped_program shipped_world) shipped_program shipped_world =
    Done (replicate 5 (Ret tt)) shipped_state ∧
  ∃ w, run (main (main_end size48 fresh true 20 2 0 0 [1; 2]%nat)) shipped_state =
    Done (end_output 2 3 144 0, tt) w.
Proof. split; [by vm_compute|]. vm_compute. by eexists. Qed.

(** ** The unit test with threads *)

Lemma size48_pos : 0 < layout_size Usize_ty.
Proof. done. Qed.
Lemma size48_le : layout_size Usize_ty ≤ layout_size Vec_ty.
Proof. done. Qed.
Lemma size48_small : 10 * layout_size Usize_ty + 400 * layout_size Vec_ty ≤ 1048576.
Proof. by vm_compute. Qed.
Lemma fuel1622 : (1622 ≤ 1622)%nat.
Proof. done. Qed.

Lemma concurrent_collection_witness :
  ∃ ctx roots ctxs w1,
    run (main (test_setup 1622)) unborn0 = Done ([], (ctx, roots, 10 * layout_size Usize_ty, ctxs)) w1 ∧
    ∀ tp w2, rtc pool_step (cs_prog <$> test_threads 1622 roots, w1) (tp, w2) →
      calm_safe w1 (test_threads 1622 roots) tp w2 ∧
      (Forall (λ p, p = Ret tt) tp →
       ∃ peak w3, run (main (test_joins 1622 ctxs)) w2 = Done ([], peak) w3 ∧
         ∀ n, ∃ w4 w5,
           (∀ ts, run (Heap.background_gc_thread 1622 (replicate n true ++ ts) 1 []) w3 =
                  run (Heap.background_gc_thread 1622 ts 1 []) w4) ∧
           run (main (test_end 1622 ctx roots (10 * layout_size Usize_ty) peak)) w4 = Done (test_output, tt) w5 ∧
           size (mem w5) = 10%nat ∧ strong w5 = 1).
Proof.
  exact (concurrent_collection_passes unborn0 1622 unborn0_unborn eq_refl
    size48_pos size48_le size48_small fuel1622).
Defined.

(** The test again, but the background thread wakes up before the main thread reads
    [peak_bytes]: it collects the vectors, and the assertion fails. *)
Definition early_collection : gc (list line * unit) :=
  (r ← main (test_setup 2000);
   let '(ctx, roots, initial_bytes, ctxs) := r.2 in
   temp_loop 2000 100;; temp_loop 2000 100;; temp_loop 2000 100;; temp_loop 2000 100;;
   Heap.background_gc_thread 2000 [true; false] 1 Tracer.new;;
   peak ← main (test_joins 2000 ctxs);
   main (test_end 2000 ctx roots initial_bytes peak.2))%gc.

Lemma early_collection_panics : run early_collection unborn0 = Fault (Panic AssertionFailed).
Proof. by vm_compute. Qed.

(** ** The integration tests *)

Lemma small_sizes48 : small_sizes size48 fresh true.
Proof. intros t _. by vm_compute. Qed.

Lemma integration_tests_witness :
  succeeds [] 1 (root_preservation_after_collection size48 fresh true 2004 0) unborn0 ∧
  succeeds [] 0 (sweep_frees_memory size48 fresh true 2004 0) unborn0 ∧
  (∀ n, threshold_test_passes size48 fresh true 2004 0 n unborn0) ∧
  succeeds [] 100 (tracing_chain_keeps_all_nodes size48 fresh true 2004 0) unborn0 ∧
  succeeds (map cycle_line (seqZ 0 5)) 100
    (large_object_graph_survives_multiple_cycles size48 fresh true 2004 0) unborn0.
Proof.
  exact (integration_tests_pass size48 fresh true size48_usize is_fresh unborn0 2004 0
    unborn0_unborn small_sizes48 (le_n 2004)).
Defined.

Lemma barrier_bytes48 : barrier_bytes_fit.
Proof. by vm_compute. Qed.

Lemma write_barrier_test_witness :
  ∃ ctx values root ctxs w1,
    run (main (barrier_setup (2 * 3002))) unborn0 = Done ([], (ctx, values, root, ctxs)) w1 ∧
    ∀ tp w2, rtc pool_step (cs_prog <$> barrier_threads (2 * 3002) 3 values root, w1) (tp, w2) →
      calm_safe (CT := barrier_cell_types) w1 (barrier_threads (2 * 3002) 3 values root) tp w2 ∧
      (Forall (λ p, p = Ret tt) tp →
       ∃ w3, run (main (barrier_finish (2 * 3002) ctx root ctxs)) w2 = Done ([], tt) w3 ∧ ScriptLoops.ended 2 w3).
Proof.
  exact (write_barrier_test_passes unborn0 (2 * 3002) 3 unborn0_unborn eq_refl barrier_bytes48
    (le_n (2 * 3002))).
Defined.
