(* ===== verification/Examples.v ===== *)
(** * A concrete client

    A client type, the heap it builds and the theorems applied to it.  [Node] is
    a struct with an [i32] and a [GcCell<Option<GcPtr<i32>>>], as in the crate's
    examples.  The scenario allocates a leaf and a node, links the leaf into the
    node's cell, drops the leaf's root and leaves one object unreachable. *)

From stdpp Require Import relations.
From S2P Require Import Prelude Prog Color TraceImpls GcBox Options BgThread World.
From S2P Require Import Graph Tracing State HeapOps Mutator Marking Sweeping Collection.
From S2P Require Import Client Background Lifecycle Interface Session HeapClient.
Open Scope Z_scope.

(** ** The environment *)

Definition Node_next : ty := TOption (TGcPtr (TPrim I32)).

(** [user_trace] follows the trait's contract: it marks every pointer field. *)
#[export] Instance env0 : Env := {|
  user_fields _ := [TPrim I32; TGcCell Node_next];
  user_copy _ := false;
  user_NO_TRACE _ := false;
  user_trace _ fields := flat_map owned fields;
  layout_size _ := 48;
  malloc used := fresh used;
  overflow_checks := true;
|}.

#[export] Instance env0_contract : TraceContract.
Proof.
  split; try done.
  - intros used. cbn. apply is_fresh.
Qed.

(** ** The scenario *)

Definition w_start : world := mkWorld (Heap.heap_init GcOptions.off) ∅ ∅ ∅ ∅ ∅ [] 1.

Definition v_leaf : val := VPrim I32 7.
Definition t_leaf : ty := TPrim I32.

Definition c_next : loc := fresh (∅ : gset loc).
Definition v_node : val := VUser 0 [VPrim I32 1; VGcCell c_next].
Definition t_node : ty := TUser 0.

Definition w1 : world := celled w_start c_next VNone.
Definition a_leaf : loc := malloc (dom (mem w1)).
Definition w2 : world := allocated w1 a_leaf t_leaf v_leaf.
Definition a_node : loc := malloc (dom (mem w2)).
Definition w3 : world := allocated w2 a_node t_node v_node.
Definition v_next : val := VSome (VGcPtr t_leaf a_leaf).
Definition w4 : world := celled w3 c_next v_next.
Definition w5 : world := rerooted w4 a_leaf (λ n, usize_fetch_sub n 1).
Definition a_dead : loc := malloc (dom (mem w5)).
Definition w6 : world := allocated w5 a_dead t_leaf v_leaf.
Definition w7 : world := rerooted w6 a_dead (λ n, usize_fetch_sub n 1).

Lemma w_start_unborn : unborn w_start.
Proof. by split. Qed.

Lemma off_wf : GcOptions.wf GcOptions.off.
Proof. unfold GcOptions.wf, is_usize. split_and!; vm_compute; discriminate. Qed.

Lemma w_start_idle : idle w_start.
Proof.
  pose proof (heap_init_idle w_start GcOptions.off _ w_start_unborn off_wf (or_introl eq_refl)).
  done.
Qed.

Lemma prim_wf_val G p z : wf_val G (VPrim p z).
Proof.
  split; [intros t a [Hin|c v Hin]|intros c Hin]; by apply elem_of_nil in Hin.
Qed.

Lemma w1_idle : idle w1.
Proof. apply (cell_new_refines w_start VNone Node_next w_start_idle); done. Qed.

Lemma w2_idle : idle w2.
Proof.
  apply allocated_idle; [apply w1_idle|by vm_compute|done|apply prim_wf_val|].
  vm_compute. discriminate.
Qed.

Lemma node_wf_val : wf_val (abs w2) v_node.
Proof.
  split.
  - intros t a [Hin|c v Hin Hc Hv].
    + apply list_elem_of_singleton in Hin. done.
    + apply list_elem_of_singleton in Hin. simplify_eq. vm_compute in Hc. simplify_eq.
      by apply elem_of_nil in Hv.
  - intros c Hin. apply list_elem_of_singleton in Hin. simplify_eq.
    vm_compute. by eexists.
Qed.

Lemma w3_idle : idle w3.
Proof.
  apply allocated_idle; [apply w2_idle|by vm_compute|done|apply node_wf_val|].
  vm_compute. discriminate.
Qed.

Lemma next_wf_val : wf_val (abs w3) v_next.
Proof.
  split.
  - intros t a [Hin|c v Hin]; apply list_elem_of_singleton in Hin; [|done].
    simplify_eq. vm_compute. by eexists.
  - intros c Hin. by apply list_elem_of_singleton in Hin.
Qed.

Lemma w4_idle : idle w4.
Proof. apply (cell_set_refines w3 c_next v_next Node_next w3_idle); [done..|]. apply next_wf_val. Qed.

Lemma w5_idle : idle w5.
Proof.
  apply (dec_root_refines w4 a_leaf (mkObj t_leaf 1 v_leaf)); [apply w4_idle|by vm_compute|done].
Qed.

Lemma w6_idle : idle w6.
Proof.
  apply allocated_idle; [apply w5_idle|by vm_compute|done|apply prim_wf_val|].
  vm_compute. discriminate.
Qed.

Lemma w7_idle : idle w7.
Proof.
  apply (dec_root_refines w6 a_dead (mkObj t_leaf 1 v_leaf)); [apply w6_idle|by vm_compute|done].
Qed.

(** The scenario is what the operations compute. *)
Example scenario_run :
  run (Heap.with_options 1 GcOptions.off) w_start = Done tt w_start ∧
  run (c ← GcCell.new VNone;
       l ← Heap.allocate 1 t_leaf v_leaf;
       Heap.allocate 1 t_node (VUser 0 [VPrim I32 1; VGcCell c]);;
       GcCell.set 0 c (VSome (VGcPtr t_leaf l));;
       GcRoot.drop l;;
       d ← Heap.allocate 1 t_leaf v_leaf;
       GcRoot.drop d)%gc w_start = Done tt w7.
Proof. split; by vm_compute. Qed.

(** The same heap with a due collection and a running background thread. *)
Definition o8 : GcOptions := mkOptions (Duration_from_millis 100) 100 5 30 30 0 usize_max.

Definition retuned (w : world) (o : GcOptions) (t : Z) (b : StartStop.t) : world :=
  set_heap w (mkHeap (head (heap w)) o (bytes_allocated (heap w)) t (gray_queue (heap w))
                (phase (heap w)) b (n_busy_marking (heap w))).

Definition w8 : world := retuned w7 o8 100 (StartStop.mk 1 (Some 1)).

Lemma retuned_idle w o t b : idle w → GcOptions.wf o → is_usize t → idle (retuned w o t b).
Proof.
  intros Hw Ho Ht. eapply idle_frame; [exact Hw|done..| |done|done| |]; apply Hw.
Qed.

Lemma o8_wf : GcOptions.wf o8.
Proof. unfold GcOptions.wf, is_usize. split_and!; vm_compute; discriminate. Qed.

Lemma w8_idle : idle w8.
Proof. apply retuned_idle; [apply w7_idle|apply o8_wf|]. split; vm_compute; discriminate. Qed.

Lemma o8_pacing w :
  options (heap w) = o8 → bytes_allocated (heap w) ≤ 1000 →
  0 ≤ current_threshold (heap w) ≤ 1000 → pacing_ok w.
Proof.
  intros Ho Hb Ht live Hl. rewrite Ho, Pacing.calculate_threshold_eq; [by eexists|apply o8_wf|..].
  - split; [lia|]. assert (1000 ≤ usize_max) by (vm_compute; discriminate). lia.
  - split; [lia|]. assert (1000 ≤ usize_max) by (vm_compute; discriminate). lia.
  - assert (100000 ≤ usize_max) by (vm_compute; discriminate). unfold Pacing.fits. cbn.
    assert (live * 30 / 100 ≤ 300) by (apply Z.div_le_upper_bound; lia). lia.
Qed.

Lemma w8_pacing : pacing_ok w8.
Proof. apply o8_pacing; [done|by vm_compute|by vm_compute]. Qed.

Lemma w8_fuel : (enough_fuel w8 ≤ 8)%nat.
Proof. vm_compute. lia. Qed.

(** The collection frees the unreachable object only. *)
Example w8_collect :
  ∃ w, run (Heap.force_collect 8) w8 = Done 96 w ∧ dropped w = [a_dead].
Proof. eexists. split; vm_compute; reflexivity. Qed.
