(* ===== verification/Limits.v ===== *)
(** * Where the guarantees end

    Runs of the model on concrete heaps outside the hypotheses of the theorems:
    each shows that a hypothesis is needed, and what the code does without it. *)

From stdpp Require Import relations.
From S2P Require Import Prelude Prog Color TraceImpls GcBox Options BgThread World.
From S2P Require Import Graph Tracing State HeapOps Mutator Marking Collection Client Lifecycle.
From S2P Require Import StoreDuringSweep Examples.
Open Scope Z_scope.
Open Scope gc_scope.

(** The rooted object [owner] owns the cell [c], which points to [a], and [a] has
    been freed. *)
Definition dangling (w : world) (owner c a : loc) : bool :=
  match mem w !! owner, cells w !! c, mem w !! a with
  | Some b, Some v, None =>
      (0 <? root_count (header b)) && bool_decide (RCell c ∈ owned (data b)) &&
      existsb (λ r, match r with RMark _ a' => Nat.eqb a' a | RCell _ => false end) (owned v)
  | _, _, _ => false
  end.

(** The scenario up to the node that owns the leaf, with a context on thread 0. *)
Definition ctx0 : loc := malloc (dom (ctxs w5)).
Definition w5_ctx : world := entered w5 0 ctx0.

(** The client moves the only pointer to the leaf into a new object, after the
    root scan. *)
Definition move_to_new_object : gc (loc * loc) :=
  Heap.try_start_marking;;
  tracer ← Heap.do_mark_roots 20 Tracer.new;
  v ← GcCell.get c_next;
  GcCell.set 0 c_next VNone;;
  c ← GcCell.new v;
  n ← Heap.allocate 20 t_node (VUser 0 [VPrim I32 2; VGcCell c]);
  Heap.do_mark_work_full 20 tracer;;
  Heap.sweep_and_finish 20;;
  Ret (n, c).

(** an object allocated after the root scan is white and is not scanned: what
    only it points to is freed.  The condition [shaded] of the incremental cycle is
    needed. *)
Theorem unscanned_new_root :
  ∃ n c w, run move_to_new_object w5_ctx = Done (n, c) w ∧ dangling w n c a_leaf = true.
Proof. eexists _, _, _. split; by vm_compute. Qed.

(** A work budget of zero: the mark phase ends without scanning, and the
    collection frees reachable objects. *)
Definition o_zero : GcOptions := mkOptions 0 0 0 usize_max 0 usize_max usize_max.

Example zero_budget_frees_reachable :
  ∃ n w, run (Heap.force_collect 20) (retuned w5 o_zero usize_max StartStop.new) = Done n w ∧
    dangling w a_node c_next a_leaf = true.
Proof. eexists _, _. split; by vm_compute. Qed.

(** A thread without a context stores without the barrier: a black object points
    to a white one, which the sweep frees. *)
Definition store_without_context : gc Z :=
  Heap.try_start_marking;;
  tracer ← Heap.do_mark_roots 20 Tracer.new;
  v ← GcCell.get c_next;
  GcCell.set 0 c_next VNone;;
  Heap.do_mark_incremental 20 5;;
  GcCell.set 7 c_next v;;
  Heap.do_mark_work_full 20 tracer;;
  Heap.sweep_and_finish 20.

Example no_context_no_barrier :
  ∃ n w, run store_without_context w5_ctx = Done n w ∧
    dangling w a_node c_next a_leaf = true.
Proof. eexists _, _. split; by vm_compute. Qed.

(** The same with a context is safe. *)
Definition store_with_context : gc Z :=
  Heap.try_start_marking;;
  tracer ← Heap.do_mark_roots 20 Tracer.new;
  v ← GcCell.get c_next;
  GcCell.set 0 c_next VNone;;
  Heap.do_mark_incremental 20 5;;
  GcCell.set 0 c_next v;;
  Heap.do_mark_work_full 20 tracer;;
  Heap.sweep_and_finish 20.

Example context_barrier :
  ∃ n w, run store_with_context w5_ctx = Done n w ∧
    dangling w a_node c_next a_leaf = false ∧ mem w !! a_leaf ≠ None.
Proof. eexists _, _. split; [by vm_compute|]. split; by vm_compute. Qed.

(** A background thread that is stopped in the mark phase leaves marked objects
    behind.  The next collection does not scan them again: what has been stored
    into them meanwhile is freed. *)
Definition stop_while_marking : gc loc :=
  Heap.try_start_marking;;
  Heap.do_mark_roots 20 Tracer.new;;
  Heap.do_mark_incremental 20 100;;
  Heap.stop_background_collection;;
  Heap.bg_mark_loop 20 1;;
  l ← Heap.allocate 20 t_leaf v_leaf;
  GcCell.set 0 c_next (VSome (VGcPtr t_leaf l));;
  GcRoot.drop l;;
  Heap.force_collect 20;;
  Ret l.

(** After that run the node, which is rooted, points to a freed object. *)
Theorem stopped_marking_frees_reachable :
  ∃ l w, run stop_while_marking
      (set_heap w5_ctx (set_bg_thread (heap w5_ctx) (StartStop.mk 1 (Some 1)))) = Done l w ∧
    dangling w a_node c_next l = true.
Proof. eexists _, _. split; by vm_compute. Qed.

(** A [GcPtr] keeps nothing alive, and every operation here is safe Rust: the
    pointer outlives its object and is stored into a rooted node. *)
Definition store_stale_pointer : gc loc :=
  leaf ← Heap.allocate 20 t_leaf v_leaf;
  (let p := GcRoot.as_ptr leaf in
   GcRoot.drop leaf;;
   Heap.force_collect 20;;
   GcCell.set 0 c_next (VSome (VGcPtr t_leaf p));;
   Ret p).

(** after that run the node, which is rooted, points to a freed object, and
    the next collection reads the freed object while it marks. *)
Theorem stale_pointer_faults :
  ∃ p w, run store_stale_pointer w5_ctx = Done p w ∧ dangling w a_node c_next p = true ∧
    run (Heap.force_collect 20) w = Fault (UseAfterFree p).
Proof. eexists _, _. split; [by vm_compute|]. split; by vm_compute. Qed.

(** With [threshold_percent] 0, documented as switching threshold collection off,
    and a limit, the threshold still triggers. *)
Definition o_limit : GcOptions := mkOptions 0 100 0 0 0 10 1000000.

Example threshold_off_still_triggers :
  GcOptions.is_threshold_off o_limit = true ∧
  bytes_allocated (heap (retuned w5 o_limit 10 StartStop.new)) < limit_bytes o_limit ∧
  run Heap.should_collect (retuned w5 o_limit 10 StartStop.new)
    = Done true (retuned w5 o_limit 10 StartStop.new).
Proof. split; [done|]. split; by vm_compute. Qed.

(** ** Races *)

(** The locations that the allocation list visits. *)
Fixpoint list_from (fuel : nat) (m : gmap loc GcBox) (p : option loc) : list loc :=
  match fuel, p with
  | S fuel, Some a =>
      a :: match m !! a with Some b => list_from fuel m (next (header b)) | None => [] end
  | _, _ => []
  end.

(** A marked heap, and a new object that is about to be linked. *)
Definition a_new : loc := malloc (dom (mem w7)).
Definition w7_marked : world :=
  match run (box_new (GcBox_init t_leaf v_leaf);; Heap.try_mark_full 20) w7 with
  | Done _ w => w
  | _ => w7
  end.

(** Thread 0 sweeps while thread 1 links the new object: the sweep has read the
    head and found its object dead; the new object becomes the head; the sweep
    then stores the second object as the head. *)
Definition race_threads : list (gc unit) :=
  [Heap.do_sweep 20;; Ret tt; Heap.push_loop 20 a_new].

Definition race_schedule : list nat :=
  [0; 0; 0; 0; 0; 1; 1; 1; 0; 0; 0; 0; 0; 0; 0; 0; 0; 0; 0; 0]%nat.

(** under that schedule both threads finish, and the new object, which is
    rooted, is in no list: it will be neither unmarked nor freed. *)
Theorem sweep_loses_new_object :
  ∃ tp w, run_sched race_schedule race_threads w7_marked = Done tp w ∧
    Forall (λ p, p = Ret tt) tp ∧ a_new ∈ dom (mem w) ∧
    list_from 10 (mem w) (head (heap w)) = [a_node; a_leaf] ∧ dropped w = [a_dead].
Proof.
  eexists _, _. split; [by vm_compute|]. split; [by repeat constructor|].
  split; [apply elem_of_dom; by vm_compute; eexists|]. split; by vm_compute.
Qed.


(** [do_sweep] ends the cycle, and [sweep_and_finish] ends it again after the new
    threshold.  If another collection starts in between, the second store resets
    its phase: a write barrier of that collection then does nothing. *)
Definition finish_threads : list (gc unit) :=
  [Heap.sweep_and_finish 20;; Ret tt; Heap.force_collect 20;; Ret tt].

Definition phase_after (sched : list nat) : option (GcPhase * bool) :=
  match run_sched sched finish_threads w7_marked with
  | Done tp w =>
      Some (GcPhase_from (phase (heap w)),
            match tp !! 1%nat with Some (Act _ _) => true | _ => false end)
  | _ => None
  end.

Example second_finish_resets_marking :
  phase_after (replicate 17 0 ++ [1])%nat = Some (Marking, true) ∧
  phase_after (replicate 17 0 ++ [1] ++ replicate 4 0)%nat = Some (Idle, true).
Proof. split; by vm_compute. Qed.

(** So two collections can overlap.  Thread 0 ends its collection; thread 1
    allocates, drops the root and starts the next one as soon as [do_sweep] has set
    Idle; thread 0 sets Idle again; thread 2 starts a third and reads the head of
    the list; thread 1 marks, sweeps and frees the object there. *)
Definition overlap_threads : list (gc unit) :=
  [Heap.sweep_and_finish 20;; Ret tt;
   (r ← GcContext.allocate 20 t_leaf v_leaf;
    GcRoot.drop r;;
    Heap.force_collect 20;; Ret tt);
   Heap.force_collect 20;; Ret tt].

Definition w7_full : world :=
  match run (Heap.try_mark_full 20) w7 with Done _ w => w | _ => w7 end.

Definition overlap_schedule : list nat :=
  (replicate 17 0 ++ replicate 9 1 ++ replicate 4 0 ++ replicate 2 2 ++ replicate 41 1)%nat.

(** Which threads have returned after a schedule that runs without fault. *)
Definition overlap_returned (sched : list nat) : option (list bool) :=
  match run_sched sched overlap_threads w7_full with
  | Done tp _ => Some (map (λ p, match p with Ret _ => true | Act _ _ => false end) tp)
  | _ => None
  end.

(** Under that schedule the first two threads return without fault, and the root
    scan of the third then reads the freed object.  The threads of the test
    [concurrent_alloc_and_collect_no_race] do the same operations. *)
Theorem overlapping_collections_fault :
  overlap_returned overlap_schedule = Some [true; true; false] ∧
  run_sched (overlap_schedule ++ [2%nat]) overlap_threads w7_full = Fault (UseAfterFree a_dead).
Proof. split; by vm_compute. Qed.

(** [allocation_count] walks the list without a lock.  Here the sweep frees the
    object that the walk has reached. *)
Definition count_threads : list (gc unit) :=
  [Heap.do_sweep 20;; Ret tt; Heap.allocation_count 20;; Ret tt].

(** Counting the allocations while another thread sweeps reads a freed
    object: in the model a fault, in the program undefined behaviour in safe
    code. *)
Theorem count_during_sweep_faults :
  run_sched (1 :: replicate 9 0 ++ [1])%nat count_threads w7_marked
    = Fault (UseAfterFree a_dead).
Proof. by vm_compute. Qed.

(** An object that is allocated after the mark phase has scanned everything is
    white; its root protects it from the sweep. *)
Definition allocate_late : gc loc :=
  Heap.try_mark_full 20;;
  Heap.allocate 20 t_leaf v_leaf.

Definition w_late : world :=
  match run allocate_late w5_ctx with Done _ w => w | _ => w5_ctx end.
Definition a_late : loc :=
  match run allocate_late w5_ctx with Done l _ => l | _ => 0%nat end.

(** Thread 1 moves the object into the node's cell: it stores the pointer and drops
    the root. *)
Definition store_threads : list (gc unit) :=
  [Heap.sweep_and_finish 20;; Ret tt;
   GcCell.set 0 c_next (VSome (VGcPtr t_leaf a_late));; GcRoot.drop a_late].









(** On that heap the object is freed: when thread 1 runs between the start of the
    sweep and its first object, the root is gone when the sweep comes to the object, and
    the rooted node points to a freed object. *)
Example store_during_sweep_dangles :
  ∃ tp w, run_sched (0 :: replicate 6 1 ++ replicate 20 0)%nat store_threads w_late = Done tp w ∧
    Forall (λ p, p = Ret tt) tp ∧ dangling w a_node c_next a_late = true.
Proof.
  eexists _, _. split; [by vm_compute|]. split; [by repeat constructor|]. by vm_compute.
Qed.

(** A rooted pointer to an optional pointer to a leaf, with assists of one object
    of marking work. *)
Definition o_assist : GcOptions := mkOptions 0 100 1 usize_max 0 usize_max usize_max.
Definition t_child : ty := TOption (TGcPtr t_leaf).
Definition t_top : ty := TGcPtr t_child.

Definition chain_heap : gc (loc * loc * loc) :=
  leaf ← Heap.allocate 20 t_leaf v_leaf;
  child ← Heap.allocate 20 t_child (VSome (VGcPtr t_leaf leaf));
  top ← Heap.allocate 20 t_top (VGcPtr t_child child);
  GcRoot.drop leaf;;
  GcRoot.drop child;;
  Ret (leaf, child, top).

Definition chain_threads : list (gc unit) :=
  [Heap.force_collect 40;; Ret tt; Heap.allocate 20 t_leaf v_leaf;; Ret tt].

Definition w_chain : world :=
  match run chain_heap (retuned w_start o_assist usize_max StartStop.new) with
  | Done _ w => w
  | _ => w_start
  end.
Definition chain_objs : loc * loc * loc :=
  match run chain_heap (retuned w_start o_assist usize_max StartStop.new) with
  | Done x _ => x
  | _ => (0, 0, 0)%nat
  end.

(** The collector scans the root; the allocating thread assists and takes the only
    gray object; the collector finds the queue empty; the assist merges the object
    that it has discovered and is no longer busy; only now the collector looks
    whether somebody is busy, and goes on to the sweep. *)
Definition assist_schedule : list nat :=
  (replicate 10 0 ++ replicate 8 1 ++ [0; 0] ++ replicate 8 1 ++ replicate 26 0)%nat.

(** under that schedule [force_collect] and [allocate] both return, and the
    leaf is freed although a rooted object leads to it: the mark phase ended with a
    gray object in the queue. *)
Theorem assist_ends_marking_early :
  let '(leaf, child, top) := chain_objs in
  ∃ tp w, run_sched assist_schedule chain_threads w_chain = Done tp w ∧
    Forall (λ p, p = Ret tt) tp ∧ gray_queue (heap w) = [child] ∧
    rooted (abs w) top ∧ edge (abs w) top child ∧ edge (abs w) child leaf ∧
    objs (abs w) !! leaf = None ∧ dropped w = [leaf].
Proof.
  assert (chain_objs = (0, 1, 2)%nat) as -> by by vm_compute.
  eexists _, _. split; [by vm_compute|]. split; [by repeat constructor|].
  split; [by vm_compute|]. split; [eexists; split; [by vm_compute|done]|].
  split; [eexists _, _; split; [by vm_compute|apply points_here; by left]|].
  split; [eexists _, _; split; [by vm_compute|apply points_here; by left]|].
  split; by vm_compute.
Qed.
