(* ===== verification/Witnesses.v ===== *)
(** * The theorems at concrete inputs

    Each theorem with hypotheses, applied to the scenario of [Examples]: its
    hypotheses hold there. *)

From stdpp Require Import relations.
From S2P Require Import Console.
From S2P Require Import Prelude Prog Color TraceImpls GcBox Options BgThread World.
From S2P Require Import Graph Tracing State HeapOps Mutator Marking Sweeping Collection.
From S2P Require Import Client Background Lifecycle Ownership Scripts Clients.
From S2P Require Import Demo TraceDemo VtableDropTest Interface Session HeapClient.
From S2P Require Import HeapTransparency BackgroundLeak.
From S2P Require Import Incremental UnitTests Concurrent ConcurrentMark Examples.
Open Scope Z_scope.

(** ** Collections *)

Lemma w8_budget : 0 < incremental_work_budget (options (heap w8)).
Proof. done. Qed.

Lemma try_mark_full_witness :
  ∃ w', run (Heap.try_mark_full 8) w8 = Done true w' ∧
    abs w' = abs w8 ∧ gray_queue (heap w') = [] ∧
    (∀ a, color_of w' a = Some Black ↔ reachable (abs w8) a) ∧
    (∀ a, color_of w' a ≠ Some Gray).
Proof. apply (try_mark_full_correct w8 8); [apply w8_idle|done|apply w8_fuel]. Defined.

Lemma force_collect_witness :
  ∃ w' d, run (Heap.force_collect 8) w8 = Done (total_size (mem w')) w' ∧ idle w' ∧
    collected (abs w8) (abs w') ∧ dropped w' = dropped w8 ++ d ∧ NoDup d ∧
    ∀ a, a ∈ d ↔ is_Some (mem w8 !! a) ∧ ¬ reachable (abs w8) a.
Proof.
  apply (force_collect_correct w8 8); [apply w8_idle|done|apply w8_pacing|apply w8_fuel].
Defined.

Definition w9 : world :=
  match run (Heap.force_collect 8) w8 with Done _ w => w | _ => w8 end.

Lemma force_collect_twice_witness :
  ∃ w2, run (Heap.force_collect 8) w9 = Done 96 w2 ∧ abs w2 = abs w9 ∧
    dropped w2 = dropped w9.
Proof.
  apply (force_collect_twice w8 w9 96 8);
    [apply w8_idle|done|apply w8_pacing| |apply w8_fuel|by vm_compute].
  apply o8_pacing; [by vm_compute|by vm_compute|by vm_compute].
Defined.

Lemma force_collect_busy_witness :
  run (Heap.force_collect 1) (marking_started w8) = Done 144 (marking_started w8).
Proof. apply (force_collect_busy (marking_started w8) 1). done. Defined.

Lemma w8_triggered : triggered (heap w8).
Proof. by apply (bool_decide_unpack (triggered (heap w8))). Qed.

Lemma collect_witness :
  ∃ w', run (Heap.collect 8) w8 = Done tt w' ∧ idle w' ∧
    (triggered (heap w8) → collected (abs w8) (abs w')) ∧ (¬ triggered (heap w8) → w' = w8).
Proof. apply (collect_correct w8 8); [apply w8_idle|done|apply w8_pacing|apply w8_fuel]. Defined.

Lemma allocation_count_witness : run (Heap.allocation_count 3) w8 = Done 3 w8.
Proof.
  apply (allocation_count_correct w8 3); [apply w8_idle|by vm_compute; lia].
Defined.

(** ** Client operations *)

Lemma allocate_witness :
  ∃ a w', run (Heap.allocate 1 t_node v_node) w2 = Done a w' ∧ idle w' ∧
    mem w2 !! a = None ∧ abs w' = g_alloc (abs w2) a (mkObj t_node 1 v_node) ∧
    head (heap w') = Some a ∧ next_at (mem w') a = Some (head (heap w2)) ∧
    bytes_allocated (heap w') = bytes_allocated (heap w2) + layout_size t_node.
Proof.
  apply (allocate_correct w2 1 t_node v_node);
    [apply w2_idle|lia|done|apply node_wf_val|vm_compute; discriminate].
Defined.

Lemma root_witness :
  ∃ w', run (GcPtr.root a_leaf) w5 = Done a_leaf w' ∧
    run (GcRoot.clone a_leaf) w5 = Done a_leaf w' ∧
    idle w' ∧ abs w' = g_roots (abs w5) a_leaf (λ n, n + 1).
Proof.
  apply (root_correct w5 a_leaf (mkObj t_leaf 0 v_leaf));
    [apply w5_idle|by vm_compute|done].
Defined.

Lemma drop_root_witness :
  ∃ w', run (GcRoot.drop a_leaf) w4 = Done tt w' ∧ idle w' ∧
    abs w' = g_roots (abs w4) a_leaf (λ n, n - 1).
Proof.
  apply (drop_root_correct w4 a_leaf (mkObj t_leaf 1 v_leaf));
    [apply w4_idle|by vm_compute|done].
Defined.

Lemma cell_new_witness :
  ∃ c w', run (GcCell.new VNone) w_start = Done c w' ∧ idle w' ∧
    gcells (abs w_start) !! c = None ∧ abs w' = g_set (abs w_start) c VNone ∧
    run (GcCell.get c) w' = Done VNone w'.
Proof. apply (cell_new_correct w_start VNone Node_next); [apply w_start_idle|done|done]. Defined.

Lemma cell_set_witness :
  ∃ w', run (GcCell.set 0 c_next v_next) w3 = Done tt w' ∧ idle w' ∧
    abs w' = g_set (abs w3) c_next v_next ∧ run (GcCell.get c_next) w' = Done v_next w'.
Proof.
  apply (cell_set_correct w3 0 c_next v_next Node_next);
    [apply w3_idle|vm_compute; by eexists|done|done|apply next_wf_val].
Defined.

(** ** Construction and destruction *)

Lemma with_options_witness :
  ∃ w', run (Heap.with_options 1 o8) w_start = Done tt w' ∧ idle w' ∧
    objs (abs w') = ∅ ∧ options (heap w') = o8 ∧
    current_threshold (heap w') = min_threshold_bytes o8 ∧
    running w' = {[1]} ∧ strong w' = 2.
Proof. apply (with_options_correct w_start o8 1); [apply w_start_unborn|apply o8_wf]. Defined.

Lemma w8_list : alloc_list w8 [a_dead; a_node; a_leaf].
Proof.
  destruct (ww_list _ (idle_wf _ w8_idle)) as [l Hl]. pose proof (al_lseg _ _ Hl) as Hs.
  assert (lseg (mem w8) (head (heap w8)) [a_dead; a_node; a_leaf] None) as Hs'.
  { vm_compute. repeat (split; [done|]; eexists; split; [done|]). done. }
  by rewrite <- (lseg_functional _ _ _ _ Hs Hs').
Qed.

Lemma drop_witness :
  ∃ w', run (Heap.drop 3) w8 = Done tt w' ∧ mem w' = ∅ ∧
    dropped w' = dropped w8 ++ [a_dead; a_node; a_leaf] ∧
    NoDup [a_dead; a_node; a_leaf] ∧
    (∀ a, a ∈ [a_dead; a_node; a_leaf] ↔ is_Some (mem w8 !! a)) ∧
    StartStop.is_started (bg_thread (heap w')) = false.
Proof.
  apply (drop_correct w8 [a_dead; a_node; a_leaf] 3); [apply w8_list|vm_compute; lia|].
  intros c _. apply not_elem_of_empty.
Defined.

(** With a second owner. *)
Definition w8_shared : world := owners w8 2.

Lemma w8_shared_idle : idle w8_shared.
Proof. apply owners_idle, w8_idle. Qed.

Lemma context_roundtrip_witness :
  ∃ ctx w', run (GcContext.with_heap 0) w8_shared = Done ctx w' ∧ idle w' ∧
    abs w' = abs w8_shared ∧ tls w' = <[0%nat := ctx]> (tls w8_shared) ∧
    ctxs w' !! ctx = Some Tracer.new ∧
    run (GcContext.drop 1 0 ctx) w' = Done tt (owners w8_shared 1).
Proof.
  apply (context_roundtrip w8_shared 0 1); [apply w8_shared_idle|done|].
  split; vm_compute; [done|discriminate].
Defined.

Lemma context_twice_witness :
  run (GcContext.with_heap 0) (entered w8 0 5) = Fault (Panic ContextAlreadySet).
Proof. apply (context_twice_panics (entered w8 0 5) 0 5). by vm_compute. Defined.

(** ** Sessions *)

Definition s0 : world :=
  match run (Heap.with_options 1 o8) w_start with Done _ w => w | _ => w_start end.
Definition s1 : world := allocated s0 0 t_leaf v_leaf.
Definition s2 : world := rerooted s1 0 (λ n, usize_fetch_sub n 1).

Lemma s0_opened : opened o8 s0.
Proof. exists w_start, 1%nat. split; [apply w_start_unborn|by vm_compute]. Qed.

Lemma s1_step : step (s0, []) (s1, [0%nat]).
Proof.
  apply (step_alloc (W:=world) s0 [] t_leaf v_leaf 0%nat s1);
    [done|apply prim_wf_val|vm_compute; discriminate|by vm_compute].
Qed.

Lemma s2_step : step (s1, [0%nat]) (s2, []).
Proof. apply (step_drop (W:=world) s1 [0%nat] [] 0%nat s2); [done|by vm_compute]. Qed.

Lemma session_handles_safe_witness :
  ∃ ob, objs (abs s1) !! 0%nat = Some ob ∧ run (GcRoot.deref 0) s1 = Done (ob_data ob) s1 ∧
    has_type (ob_data ob) (ob_ty ob) = true ∧ wf_val (abs s1) (ob_data ob).
Proof.
  apply (session_handles_safe o8 s0 s1 [0%nat] 0%nat);
    [apply o8_wf|done|apply s0_opened|apply rtc_once, s1_step|by left].
Defined.

Lemma session_root_counts_witness :
  ob_roots (mkObj t_leaf 1 v_leaf) = Z.of_nat (count_occ Nat.eq_dec [0%nat] 0%nat) ∧
  (rooted (abs s1) 0%nat ↔ 0%nat ∈ [0%nat]).
Proof.
  apply (session_root_counts o8 s0 s1 [0%nat] 0%nat (mkObj t_leaf 1 v_leaf));
    [apply o8_wf|done|apply s0_opened|apply rtc_once, s1_step|by vm_compute].
Defined.

Lemma session_step_stable_witness :
  ∃ ob', objs (abs s2) !! 0%nat = Some ob' ∧ ob_ty ob' = t_leaf ∧ ob_data ob' = v_leaf.
Proof.
  apply (session_step_stable o8 s0 s1 [0%nat] s2 [] 0%nat (mkObj t_leaf 1 v_leaf));
    [apply o8_wf|done|apply s0_opened|apply rtc_once, s1_step|apply s2_step| |by vm_compute].
  apply reachable_rooted. exists (mkObj t_leaf 1 v_leaf). split; [by vm_compute|done].
Defined.

Lemma session_no_leak_witness :
  ∃ w', run (Heap.force_collect (enough_fuel s2)) s2 = Done 0 w' ∧ mem w' = ∅ ∧
    bytes_allocated (heap w') = 0.
Proof.
  apply (session_no_leak o8 s0 s2); [apply o8_wf|done|apply s0_opened| |].
  - eapply rtc_l; [apply s1_step|]. apply rtc_once, s2_step.
  - apply o8_pacing; [by vm_compute|vm_compute; discriminate|split; vm_compute; discriminate].
Defined.

(** ** Incremental marking *)

Definition ctx0 : loc := malloc (dom (ctxs w8)).
Definition w8_ctx : world := entered w8 0 ctx0.

Lemma w8_ctx_idle : idle w8_ctx.
Proof. apply entered_idle; [apply w8_idle|done|by vm_compute]. Qed.

Definition w8_scanned : world :=
  match run (Heap.try_start_marking;; Heap.do_mark_roots 8 Tracer.new)%gc w8_ctx with
  | Done _ w => w
  | _ => w8_ctx
  end.

Lemma w8_scanned_run :
  run (Heap.try_start_marking;; Heap.do_mark_roots 8 Tracer.new)%gc w8_ctx = Done [] w8_scanned.
Proof. by vm_compute. Qed.

Lemma w8_scanned_safe : safe_mark o8 w8_scanned.
Proof.
  pose proof w8_scanned_run as Hrun.
  rewrite run_bind, try_start_marking_run in Hrun by apply w8_ctx_idle.
  destruct (wp_Done _ _ _ _ _ (scan_roots_wp w8_ctx 8 w8_ctx_idle ltac:(vm_compute; lia)) Hrun)
    as [_ Hs]. exact (scanned_safe w8_ctx _ w8_ctx_idle Hs).
Qed.

(** The client stores the leaf's pointer again, and then marking makes a step. *)
Definition w8_stored : world :=
  match run (GcCell.set 0 c_next v_next) w8_scanned with Done _ w => w | _ => w8_scanned end.

Lemma v_next_scanned : wf_val (abs w8_scanned) v_next.
Proof.
  split.
  - intros t a [Hin|c v Hin]; apply list_elem_of_singleton in Hin; [|done].
    simplify_eq. vm_compute. by eexists.
  - intros c Hin. by apply list_elem_of_singleton in Hin.
Qed.

Lemma w8_stored_step : mstep w8_scanned w8_stored.
Proof.
  apply (mstep_cell_set w8_scanned 0 ctx0 c_next v_next Node_next);
    [by vm_compute|vm_compute; by eexists|done|done|apply v_next_scanned|by vm_compute].
Qed.

Lemma incremental_cycle_witness :
  ∃ w3, run (Heap.do_mark_work_full 20 [];; Heap.sweep_and_finish 20)%gc w8_stored =
      Done (total_size (mem w3)) w3 ∧ idle w3 ∧
    ∀ a, reachable (abs w8_stored) a → objs (abs w3) !! a = objs (abs w8_stored) !! a.
Proof.
  apply (incremental_cycle_safe w8_ctx w8_scanned [] w8_stored 8 20);
    [apply w8_ctx_idle|done|vm_compute; lia|apply w8_scanned_run|apply rtc_once, w8_stored_step
    
    |apply o8_pacing; [by vm_compute|vm_compute; discriminate|split; vm_compute; discriminate]
    |vm_compute; lia].
Defined.

Lemma write_barrier_witness :
  ∃ w', run (GcCell.set 0 c_next v_next) w8_scanned = Done tt w' ∧
    abs w' = g_set (abs w8_scanned) c_next v_next ∧
    (∀ t a, RMark t a ∈ owned v_next → nonwhite w' a) ∧
    (∀ a b, color_of w' a = Some Black → edge (abs w') a b → nonwhite w' b) ∧
    (∀ a, color_of w' a = Some Gray → a ∈ gray_queue (heap w')) ∧
    n_busy_marking (heap w') = n_busy_marking (heap w8_scanned).
Proof.
  apply (write_barrier_correct o8 w8_scanned 0 ctx0 c_next v_next Node_next);
    [apply w8_scanned_safe|by vm_compute|vm_compute; by eexists|done|done|apply v_next_scanned].
Defined.

Lemma do_mark_incremental_witness :
  ∃ complete w', run (Heap.do_mark_incremental 20 1) w8_scanned = Done complete w' ∧
    mid_mark w' ∧ abs w' = abs w8_scanned ∧ (∀ a, nonwhite w8_scanned a → nonwhite w' a) ∧
    (complete = true → gray_queue (heap w') = [] ∧ ∀ a, color_of w' a ≠ Some Gray) ∧
    (complete = false → (work [] w' < work [] w8_scanned)%nat).
Proof.
  apply (do_mark_incremental_correct w8_scanned 20 1);
    [apply (sm_mid _ _ w8_scanned_safe)|lia|vm_compute; lia].
Defined.

Lemma busy_counter_witness :
  ∃ w', run Heap.check_is_marking_and_increment_busy w8_scanned = Done true w' ∧
    w' = with_busy w8_scanned (usize_fetch_add 0 1) ∧
    (true = true → run Heap.decrement_busy_marking w' = Done tt w8_scanned).
Proof. apply (busy_counter_correct w8_scanned). apply is_usize_0. Defined.

(** ** Concurrent allocation *)

Definition a_one : loc := malloc (dom (mem w8)).
Definition w8_one : world :=
  set_mem w8 (<[a_one := GcBox_init t_leaf v_leaf]> (mem w8)).
Definition a_two : loc := malloc (dom (mem w8_one)).
Definition w8_two : world :=
  set_mem w8 (<[a_two := GcBox_init t_leaf v_leaf]> (mem w8_one)).

(** Both threads read the head; the second links its object first, the first
    retries. *)
Definition pushes : list nat := [0; 1; 0; 1; 1; 0; 0; 0; 0]%nat.
Definition w8_pushed : world :=
  match run_sched pushes (map (Heap.push_loop 2) [a_one; a_two]) w8_two with
  | Done _ w => w
  | _ => w8_two
  end.

Lemma pushes_run :
  run_sched pushes (map (Heap.push_loop 2) [a_one; a_two]) w8_two =
    Done [Ret tt; Ret tt] w8_pushed.
Proof. by vm_compute. Qed.

Lemma concurrent_push_witness :
  ¬ pool_stuck ([Ret tt; Ret tt], w8_pushed) ∧
  (Forall (λ p, p = Ret tt) [Ret (W:=world) tt; Ret tt] →
   ∃ lp, lp ≡ₚ [a_one; a_two] ∧
     lseg (mem w8_pushed) (head (heap w8_pushed)) (lp ++ [a_dead; a_node; a_leaf]) None ∧
     NoDup (lp ++ [a_dead; a_node; a_leaf]) ∧ abs w8_pushed = abs w8_two).
Proof.
  apply (concurrent_push_correct w8_two [a_dead; a_node; a_leaf] [a_one; a_two] 2);
    [|by apply (bool_decide_unpack (NoDup [a_dead; a_node; a_leaf]));vm_compute
     |by apply (bool_decide_unpack (NoDup [a_one; a_two])); vm_compute| |done
     |apply (run_sched_steps pushes), pushes_run].
  - vm_compute. repeat (split; [done|]; eexists; split; [done|]). done.
  - intros a Ha. split.
    + apply elem_of_cons in Ha as [->|Ha%list_elem_of_singleton]; [|subst];
        vm_compute; by eexists.
    + apply elem_of_cons in Ha as [->|Ha%list_elem_of_singleton]; [|subst];
        apply (bool_decide_unpack _); by vm_compute.
Defined.

(** ** The background thread *)

Lemma background_round_witness :
  ∃ w', run (Heap.background_gc_thread 8 [true; true] 1 []) w8 =
        run (Heap.background_gc_thread 8 [true] 1 []) w' ∧
    if decide (triggered (heap w8)) then collection_done w8 w' else w' = w8.
Proof.
  apply (background_round_correct 8 [true] 1 w8);
    [apply w8_idle|done|apply w8_pacing|apply w8_fuel|done|done].
Defined.

Lemma background_round_equivalent_witness :
  ∃ w1, run (Heap.background_gc_thread 8 one_round 1 []) w8 = Done tt w1 ∧
    if decide (triggered (heap w8)) then
      ∃ w2 n, run (Heap.force_collect 8) w8 = Done n w2 ∧
        abs w1 = abs w2 ∧ bytes_allocated (heap w1) = bytes_allocated (heap w2) ∧
        current_threshold (heap w1) = current_threshold (heap w2) ∧
        options (heap w1) = options (heap w2) ∧ dropped w1 ≡ₚ dropped w2
    else w1 = w8.
Proof.
  apply (background_round_equivalent 8 1 w8);
    [apply w8_idle|done|apply w8_pacing|apply w8_fuel|done|done].
Defined.

Lemma bg_main_stops_witness :
  ∃ w', run (Heap.bg_main 8 [true] 1) (owners w7 2) = Done tt w' ∧
    run (Heap.join 1) w' = Done tt w' ∧ strong w' = 1 ∧
    heap w' = heap w7 ∧ mem w' = mem w7 ∧ running w' = running w7 ∖ {[1]}.
Proof.
  apply (bg_main_stops 8 true [] 1 (owners w7 2)); [done|].
  split; vm_compute; [done|discriminate].
Defined.

Lemma stopped_forever_witness :
  StartStop.is_stopped (StartStop.mk 1 (Some 1)) 0 = true.
Proof.
  apply (Generations.stopped_forever 1 StartStop.new (StartStop.mk 1 (Some 1)) 0);
    [apply Generations.inv_new| |by vm_compute|done|done].
  apply nsteps_once. by apply (StartStop.step_start _ true).
Defined.

Lemma start_stop_witness :
  ∃ s', StartStop.start StartStop.new = Some (true, s') ∧
    StartStop.handle s' = Some (StartStop.counter StartStop.new + 1) ∧
    (∀ c, c ≤ StartStop.counter StartStop.new →
       StartStop.is_stopped StartStop.new c = true ∧ StartStop.is_stopped s' c = true).
Proof. apply (Generations.start_stop_correct StartStop.new); [apply Generations.inv_new|done]. Defined.

(** ** Data and pacing *)

Lemma trace_complete_witness :
  (∀ r, r ∈ trace v_node ↔ r ∈ owned v_node) ∧
  (NO_TRACE t_node = true → trace v_node = [] ∧ owned v_node = []).
Proof. apply (trace_complete v_node t_node). done. Defined.

Lemma calculate_threshold_spec_witness :
  GcOptions.calculate_threshold GcOptions.DEFAULT 1048576 1000000
    = Some (Pacing.spec GcOptions.DEFAULT 1048576 1000000).
Proof.
  apply (Pacing.calculate_threshold_spec GcOptions.DEFAULT 1048576 1000000);
    unfold GcOptions.wf, Pacing.fits, is_usize; split_and!; vm_compute; discriminate.
Defined.

Lemma calculate_threshold_lower_witness :
  ∃ r, GcOptions.calculate_threshold GcOptions.DEFAULT 1048576 1000000 = Some r ∧
    1000000 ≤ r ∧ min_threshold_bytes GcOptions.DEFAULT ≤ r ∧ is_usize r.
Proof.
  apply (Pacing.calculate_threshold_lower GcOptions.DEFAULT 1048576 1000000);
    unfold GcOptions.wf, Pacing.fits, is_usize; split_and?; vm_compute; discriminate.
Defined.

Lemma mark_white_to_gray_witness :
  let '(ok, s') := AtomicColor.mark_white_to_gray (AtomicColor.new White) in
  ok = AtomicColor.is_white (AtomicColor.new White) ∧ AtomicColor.valid s' ∧
  AtomicColor.is_white s' = false ∧
  AtomicColor.load s' = (if ok then Gray else AtomicColor.load (AtomicColor.new White)) ∧
  AtomicColor.mark_white_to_gray s' = (false, s').
Proof. apply (mark_white_to_gray_correct (AtomicColor.new White)). by exists White. Defined.

Lemma tracer_witness :
  Tracer.steal_from [1%nat] 2 [2; 3; 4]%nat =
    (negb (bool_decide ([2; 3; 4]%nat = []) || (2 =? 0)),
     [1%nat] ++ take (Z.to_nat 2) (rev [2; 3; 4]%nat),
     rev (drop (Z.to_nat 2) (rev [2; 3; 4]%nat))) ∧
  (∀ a, Tracer.pop_work (vec_push [1%nat] a) = Some (a, [1%nat])) ∧
  Tracer.append_to [1%nat] [2; 3; 4]%nat = ([2; 3; 4]%nat ++ [1%nat], Tracer.new).
Proof. apply (tracer_correct [1%nat] 2 [2; 3; 4]%nat). lia. Defined.

(** ** Concurrent marking *)

(** The first thread takes the gray object, the second finds none. *)
Definition marking_steps : list nat := [0; 1; 0; 0; 0; 0; 0; 0]%nat.
Definition w8_marked : world :=
  match run_sched marking_steps (map (marker 12) [5; 1]) w8_scanned with
  | Done _ w => w
  | _ => w8_scanned
  end.

Lemma marking_steps_run :
  run_sched marking_steps (map (marker 12) [5; 1]) w8_scanned = Done [Ret tt; Ret tt] w8_marked.
Proof. by vm_compute. Qed.

Lemma concurrent_marking_witness :
  ¬ pool_stuck ([Ret tt; Ret tt], w8_marked) ∧ abs w8_marked = abs w8_ctx ∧
  (∀ a, nonwhite w8_scanned a → nonwhite w8_marked a) ∧
  (∀ a, nonwhite w8_marked a → reachable (abs w8_ctx) a) ∧
  (∀ a b, color_of w8_marked a = Some Black → edge (abs w8_marked) a b →
    nonwhite w8_marked b) ∧
  (Forall (λ p, p = Ret tt) [Ret (W:=world) tt; Ret tt] →
   (∀ a, color_of w8_marked a = Some Gray → a ∈ gray_queue (heap w8_marked)) ∧
   (gray_queue (heap w8_marked) = [] →
    ∀ a, color_of w8_marked a = Some Black ↔ reachable (abs w8_ctx) a)).
Proof.
  apply (concurrent_marking_correct w8_ctx w8_scanned 8 12 [5; 1]);
    [apply w8_ctx_idle|vm_compute; lia|apply w8_scanned_run| |].
  - repeat constructor; vm_compute; lia.
  - apply (run_sched_steps marking_steps), marking_steps_run.
Defined.

(** ** Ownership *)

(** One context and one background thread. *)
Definition w8_owned : world := set_running (owners w8 2) {[1]}.

Lemma shutdown_witness :
  run Heap.stop_background_collection w8_owned = Blocked ∧
  ∃ w1 w2, run (Heap.bg_main 3 [true] 1) (set_heap w8_owned (set_bg_thread (heap w8_owned)
      (StartStop.mk 1 None))) = Done tt w1 ∧
    run (Heap.join 1;; GcContext.drop 3 0 5)%gc w1 = Done tt w2 ∧
    strong w2 = 0 ∧ mem w2 = ∅ ∧ dropped w2 = dropped w8 ++ [a_dead; a_node; a_leaf] ∧
    running w2 = ∅.
Proof.
  apply (shutdown_correct w8_owned [a_dead; a_node; a_leaf] 1 0 5 true [] 3);
    [|vm_compute; lia|done|done|done].
  destruct w8_list. by split.
Defined.

(** A heap whose collection is due, with its last context. *)
Definition w8_last : world := set_running (owners w8_ctx 2) {[1]}.

Lemma w8_last_idle : idle w8_last.
Proof. eapply idle_frame; [apply w8_ctx_idle|done..| | | | |]; apply w8_ctx_idle. Qed.

Lemma w8_last_room : heap_room 0 w8_last.
Proof.
  split; [right; split_and!; vm_compute; discriminate|vm_compute; discriminate|].
  right. vm_compute. discriminate.
Qed.

Lemma background_leak_witness :
  ∃ w', run (GcContext.drop 8 0 ctx0) w8_last = Done tt w' ∧
    mem w' = mem w8_last ∧ dropped w' = dropped w8_last ∧
    ∀ n, ∃ wn, leaking w8_last 1 wn ∧ (¬ triggered (heap w8_last) → wn = w') ∧
      run (Heap.background_gc_thread 8 (replicate n true) 1 []) w' = NoFuel ∧
      run (Heap.background_gc_thread 8 (replicate n true ++ [false]) 1 []) w' = Done tt wn.
Proof.
  apply (background_leak w8_last 1 0 ctx0 8 8);
    [apply w8_last_idle|done|done|done|done|done|done|done|apply w8_last_room|vm_compute; lia].
Defined.

(** The first round frees the object that no root reaches, and no other. *)
Example leaking_round :
  match run (GcContext.drop 8 0 ctx0;; Heap.background_gc_thread 8 [true; false] 1 [])%gc w8_last with
  | Done _ w => bool_decide (dropped w = [a_dead] ∧ strong w = 1)
  | _ => false
  end = true.
Proof. by vm_compute. Qed.

(** ** The example programs *)

Lemma demo_witness :
  run (main (demo_main w_start 1000 0)) w_start = Done (demo_output 48 48, tt) w_start ∧
  (∃ w, run (main (basic_allocation 1000 0)) w_start = Done (basic_output, tt) w ∧
     abandoned 3 w) ∧
  (∃ w, run (main (manual_collection 1000 0)) w_start =
     Done (manual_output 48, tt) w ∧ abandoned 5 w) ∧
  (∃ w, run (main (memory_pressure 1000 0)) w_start =
     Done (pressure_output 48, tt) w ∧ abandoned 1000 w).
Proof.
  assert (1000 ≤ 1000)%nat as Hf by done.
  assert (plain_sizes ≤ usize_max) as H1 by (vm_compute; discriminate).
  assert (5 * layout_size (TPrim I32) ≤ 1048576) as H2 by (vm_compute; discriminate).
  assert (1000 * layout_size vec_ty ≤ 1048576) as H3 by (vm_compute; discriminate).
  exact (demo_correct w_start 1000 0 w_start_unborn eq_refl Hf H1 H2 H3).
Defined.

Definition layout48 (t : ty) : Z := 48.

Lemma layout48_usize t : is_usize (layout48 t).
Proof. split; vm_compute; discriminate. Qed.

Lemma trace_demo_witness :
  ∃ w, run (main (trace_demo layout48 fresh true 3 0)) w_start = Done (trace_output 48, tt) w ∧
    abandoned 3 w.
Proof.
  apply (trace_demo_correct layout48 fresh true layout48_usize is_fresh w_start 3 0);
    [apply w_start_unborn|done|lia|vm_compute; discriminate].
Defined.

Lemma drop_test_witness :
  run (main (vtable_drop_test layout48 fresh true 5 0)) w_start = Fault (Panic AssertionFailed) ∧
  (∃ r w, run (main (test1_collect layout48 fresh true 5 0)) w_start = Done (test1_output, r) w ∧
     size (mem w) = 3%nat) ∧
  (∃ w, run (main (test2_and_3 layout48 fresh true 5 0)) w_start = Done (test23_output, tt) w ∧
     abandoned 5 w).
Proof.
  apply (drop_test_fails layout48 fresh true layout48_usize is_fresh w_start 5 0);
    [apply w_start_unborn|done|lia|vm_compute; discriminate..].
Defined.

Lemma client_traces_witness :
  (∀ r, r ∈ @trace (clients layout48 fresh true) (ListNode 2 (Some 5%nat)) ↔
        r ∈ owned (ListNode 2 (Some 5%nat))) ∧
  @TraceContract (clients layout48 fresh true).
Proof.
  apply (client_traces_correct layout48 fresh true layout48_usize is_fresh list_node
    [VPrim I32 2; next_val list_node (Some 5%nat)]).
  done.
Defined.

Lemma unit_tests_witness :
  passes 1 (test_basic_allocation 8 0) w_start ∧
  passes 2 (allocation_and_collection 8 0) w_start ∧
  passes 2 (incremental_marking 8 0) w_start ∧
  passes 2 (test_gcptrcell_basic 8 0) w_start ∧
  ∃ w, run (main (test_gcptrcell_write_barrier 8 0)) w_start = Done ([], tt) w ∧ barrier_end w.
Proof.
  apply (unit_tests_pass w_start 8 0 w_start_unborn eq_refl); [lia|vm_compute; discriminate..].
Defined.
