(* ===== verification/ProgramExamples.v ===== *)
(** * A client program on two heaps

    The theorems of [HeapTransparency] at a program that builds a node with a
    cell, makes garbage, stores through the cell and collects in between, so that
    the heap uses the addresses of freed objects again. *)

From stdpp Require Import relations.
From S2P Require Import Prelude Prog Color TraceImpls GcBox Options BgThread World.
From S2P Require Import Graph Tracing State HeapOps Mutator Collection.
From S2P Require Import Lifecycle Interface Session HeapClient ClientPrograms Transparency HeapTransparency.
From S2P Require Import Examples Witnesses.
Open Scope Z_scope.

Definition leaf_of (x : nat) (n : Z) : cmd := CAlloc x t_leaf (VPrim I32 n) [].

Definition node_program : list cmd := [
  leaf_of 0 7;
  CAlloc 1 t_node (VUser 0 [VPrim I32 1; VGcCell 0]) [(Node_next, VSome (VGcPtr t_leaf 0))];
  CDrop 0;
  CForceCollect;
  leaf_of 2 8; CDrop 2;
  CBackground 1;
  leaf_of 3 9;
  CSet 0 1 0 Node_next (VSome (VGcPtr t_leaf 3));
  CForceCollect;
  leaf_of 4 10;
  CFollow 5 1 (Some 0%nat) 0;
  CCollect;
  CAssertEq 4 I32 10;
  CSee 5; CSee 1; CSame 5 3; CSame 5 4 ].

(** The follow found the second leaf that the cell has held. *)
Lemma node_program_shown :
  shown node_program ar_empty = Done
    [Saw (VPrim I32 9) [];
     Saw (VUser 0 [VPrim I32 1; VGcCell 0]) [VSome (VGcPtr t_leaf 0)];
     Compared true; Compared false] tt.
Proof. by vm_compute. Qed.

(** The heap ends with three objects, one of them where a freed one has been; the
    arena has all five. *)
Lemma node_program_reuses :
  (∃ out w, run (exec node_program ∅) s0 = Done out w ∧ dom (mem w) = {[1; 2; 3]}%nat) ∧
  (∃ out s, run (exec node_program ∅) ar_empty = Done out s ∧ length (ar_objs s) = 5%nat).
Proof. split; (eexists _, _; split; [by vm_compute|by vm_compute]). Qed.

Lemma o8_fits_in : fits_in o8 node_program.
Proof.
  split; [apply o8_wf|done| |vm_compute; discriminate|by vm_compute].
  right. by vm_compute.
Qed.

Lemma off_fits_in : fits_in GcOptions.off node_program.
Proof.
  split; [apply off_wf|by vm_compute|by left|vm_compute; discriminate|by vm_compute].
Qed.

Definition s0_off : world :=
  match run (Heap.with_options 1 GcOptions.off) w_start with Done _ w => w | _ => w_start end.

Lemma s0_off_opened : opened GcOptions.off s0_off.
Proof. exists w_start, 1%nat. split; [apply w_start_unborn|by vm_compute]. Qed.

Lemma collections_transparent_witness :
  shown node_program s0 = shown node_program ar_empty.
Proof. apply (collections_transparent o8 s0 node_program); [apply s0_opened|apply o8_fits_in]. Defined.

Lemma collection_requests_invisible_witness :
  shown (unprompted node_program) s0_off = shown node_program s0.
Proof.
  apply (collection_requests_invisible o8 s0 GcOptions.off s0_off node_program);
    [apply s0_opened|apply s0_off_opened|apply o8_fits_in|apply off_fits_in].
Defined.
